(* ===== verification/_CoqProject ===== *)
-Q . S2P
Prelude.v
CoreText.v
CodecInput.v
PgWire.v
PgFrame.v
PgHash.v
PgScramParser.v
PgEncode.v
PgRow.v
PgBind.v
PgScram.v
PgKdf.v
PgKdfRun.v
CoreQueue.v
PgDiagnostic.v
PgError.v
PgDescribe.v
PgPrepare.v
PgPayloads.v
PgNotify.v
PgSlot.v
PgReplies.v
PgTurn.v
PgRequests.v
PgPipeline.v
PgAligned.v
RespLimit.v
RespPool.v
RespState.v
RespGrammar.v
RespRequest.v
RespCommands.v
RespScan.v
RespAccept.v
RespGate.v
RespTape.v
RespBuilder.v
RespCodec.v
RespFailure.v
RespRoutes.v
RespSchedule.v
RespClient.v
RespInstances.v
RespHandshake.v
RespLeases.v
RespWaiters.v
SqTiling.v
SqHeap.v
SqBlocks.v
SqArena.v
SqStore.v
SqClients.v
