(* ===== verification/Prelude.v ===== *)
(** * Cartel: a verified model of its protocol cores

    Cartel ([src/]) is a set of database clients for the [dope] reactor: [redis/]
    speaks RESP, [pg/] the PostgreSQL frontend protocol, [sqlite/] binds the C
    library, [core/] holds what they share and [gen/] the macros that describe
    queries. The clients have no copy of a reply: bytes stay where the reactor
    received them, parsers run in place on windows that may end anywhere, nodes
    and derivations live in arenas shared by all connections, and unchecked
    accesses rely on what was validated before. This library models those cores
    and proves what the code relies on.

    ** The program and the files that model it

    - [Prelude] (this file): machine integers with their truncation and checked
      operations, results, slices and byte texts, and their lemmas.
    - [CoreText]: the decimal writer of [core/src/lib.rs].
    - [CodecInput]: what a session of the reactor offers both codecs, with its laws.

    RESP, [redis/src/]:
    - [RespLimit] ([protocol/parser/limit.rs], [number.rs], [capacity.rs]): bounds,
      the resumable line search and the decimal decoders.
    - [RespPool] ([protocol/parser/mod.rs]): nodes of 16 bytes in circular chains of
      one allocation shared by every parser.
    - [RespState] ([protocol/parser/state.rs]): the scanner, a mode machine that
      survives any cut of its input; its sink is an interface.
    - [RespGrammar] is its specification, [RespScan] and [RespAccept] the two
      directions of the refinement and the independence of cuts.
    - [RespGate] ([protocol/parser/storage/gate.rs]): the lanes parsers wait for.
    - [RespTape] ([storage/tape.rs], [cursors.rs], [parser/frame]): readers of a
      completed tape, flat lists validated once and then read without tests.
    - [RespBuilder] ([storage/mod.rs]): discharges the scanner's sink with the pool,
      so that the two halves meet ([storage_replays]).
    - [RespCodec] ([protocol/mod.rs]): what a decode makes of a scan, and the stream.
    - [RespRequest] ([request/]) and [RespCommands] ([client/ops/commands],
      [request/encode/write]): measured writing, and the commands.
    - [RespFailure] ([client/mod.rs], [port/failures.rs], [port/mod.rs]): why a
      connection closes, the cache of failures, and what is woken.
    - [RespRoutes] ([port/schedule/routes]): the phases of connections and the two
      links their slots stand on; [RespSchedule] ([port/schedule]): the scheduler that
      shares the pool between requests and leases.
    - [RespClient] ([client/logic], [client/settings/init.rs]): the turns of one
      connection, its commands before it is admitted and the delivery of replies;
      [RespHandshake]: that connection under any schedule of reads and flushes.
    - [RespInstances]: concrete slots, lanes and queues that meet the interfaces;
      [RespLeases]: the scheduler as a system of events, its invariant;
      [RespWaiters]: when a lease is to be had, and who is woken.

    PostgreSQL, [pg/src/]:
    - [PgWire] ([protocol/mod.rs], [wire.rs]): reasons and byte views, UTF-8.
    - [PgFrame] ([protocol/frame/codec.rs]): cutting messages.
    - [PgEncode] ([protocol/encode]): the frontend messages, their lengths patched
      behind what they count; [emits] says what a writer spells.
    - [PgBind] ([protocol/value/encode.rs]) and [PgRow] ([protocol/value/decode],
      [schema/array.rs], [schema/row.rs]): parameters and rows, the checked decoder
      and the unchecked projection of a validated row.
    - [PgHash], [PgScramParser], [PgScram] ([protocol/scram]): SHA-256 streaming,
      HMAC, key derivation by polls, message attributes, and the exchange.
    - [PgKdf] ([protocol/scram/kdf.rs]): derivations shared between connections;
      [PgKdfRun] its invariant and its progress.
    - [PgDiagnostic] ([reply/server.rs], [context.rs], [group.rs]): server errors,
      parsed once with every check and read again without, and the ledger of a
      command group; [PgError] ([error.rs]): the driver's errors and their classes.
    - [PgDescribe] ([schema/mod.rs], [schema/desc], [schema/groups]): the checks a query
      has to pass, and those of what the server says of its parameters and columns;
      [PgPrepare] ([schema/prepare], [schema/wire.rs]): the messages that prepare a set
      of queries, and the walk over it as they are answered.
    - [PgPayloads] ([protocol/logic/payloads.rs]): control payloads; [PgNotify]
      ([protocol/runtime/notify]): the mailbox of notifications.
    - [PgSlot] ([port/pool/slot.rs], [phases.rs], [phases/access.rs]): one slot of the
      pool, its Syncs and transactions; [PgReplies] ([port/replies]): the orders a
      connection owes replies to; [PgTurn] ([protocol/logic]): the turns it takes on
      messages; [PgRequests] ([port/requests.rs]): publishing requests.
    - [PgPipeline] is a server that follows the protocol, and [PgAligned] the system
      of both ends with the invariant of its reachable states.

    Shared, [core/src/]:
    - [CoreQueue] ([queue.rs], [handoff.rs]): the weighed request queue.

    SQLite, [sqlite/src/runtime/heap]:
    - [SqHeap]: the buddy arena, its hooks, scopes and shares, on bytes of memory.
    - [SqTiling] (aligned blocks that tile the units, the ghost state), [SqBlocks]
      (lists and control bytes), [SqArena] (allocating, releasing, growing),
      [SqStore] (the abstract store and one step) and [SqClients] (whole runs).

    ** How the state corresponds

    Structs are records and enums inductive types with the source's constructors;
    a mutating method returns the new record. A shared arena ([RespPool], the
    slots of [PgKdf]) is a value passed along, in which all handles point. What the
    source reaches through unchecked indexing or declares unreachable is [None]
    here, and theorems exclude it. Errors are values of [result] with the source's
    variants. Machine integers are [Z] with the wrap or check the source has;
    floats are their words. Interfaces of libraries that are not in the repository
    (windows, spare regions, boxes, queues, the [sha2] compression function, the
    [base64] engine) are type classes, their documented laws a second class, and a
    concrete instance shows each can be met.

    ** What the theorems show

    - RESP: a completed scan returns one spelled value ([scan_sound]) whatever the
      cuts ([scan_resume]); every spelling within bounds is accepted
      ([scan_accepts]); scans end ([scan_total]); the shared pool behaves as
      independent sequences ([pool_interleavings], [builder_refines]); readers
      replay what was scanned ([storage_replays], [reader_replays], and the flat
      lists); commands are unforgeable arrays of their arguments
      ([arguments_unforgeable], [encode_exact] and its kin); lanes are conserved
      and never idle while somebody waits ([lanes_accounted]).
    - Redis connections: any cut of the stream delivers the same replies, where there
      is room for them and the reactor takes them ([replies_cut_anywhere]); a connection
      is ready only after every configured command was answered by an OK, in turn
      ([handshake_complete]).
    - Redis scheduling: leases are exclusive ([leases_exclusive]); while the server
      answers only requests already sent, they are granted whenever a connection owes
      nothing ([lease_exact]) and announced to those who wait ([lease_wakeups]); the pool serves in turn ([pool_exact]); no unsolicited bytes
      answer a request ([replies_solicited]).
    - PostgreSQL framing: any cut delivers the same messages
      ([stream_cut_anywhere]); what the client writes is framed as it was meant
      ([pipeline_framed], [bind_spelled]).
    - Values: parameters are written only at their declared types
      ([bind_values_exact]) and come back ([row_roundtrip], [array_roundtrip]); a
      validated row is read without tests ([validated_read]).
    - SCRAM: hashing streams ([digest_streams]) to RFC 2104 and RFC 5802
      ([derivation_exact], [server_first_exact]); both sides
      authenticate ([exchange_authenticates]); the client completes only on the
      server's signature of this exchange ([finish_needs_signature]); shared
      derivations are safe ([polls_safe]) and serve everybody ([waiters_served]).
    - The connection: under any interleaving with a server that follows the protocol
      every order is handed its own rows and outcome ([replies_aligned]); the
      diagnostics of a group are the errors it saw ([ledger_replays],
      [diagnostic_reread]); requests and notifications are neither lost unnoticed
      nor reordered ([requests_in_order], [mailbox_refines]).
    - Queries: what the server says of a query is accepted exactly when it describes what
      was compiled ([descriptions_exact]); what prepares a set is framed as it was meant
      and reads back as its statements ([prepare_framed]); the walk over a set answers
      each query in its turn ([catalog_walks]).
    - SQLite's memory: the hooks refine a store of disjoint blocks that keep their
      contents ([hooks_refine_store]), for any client that keeps to the store; the
      backing goes once, with its last owner ([backing_dropped_once]); sizes are
      rounded to the narrowest block ([roundup_exact]).

    ** Bounds and fuel

    Fuel is the length of what a loop consumes: the window for a scan and for
    attributes, twenty digits for decimal text, the polls of a derivation
    ([derivation_exact] gives the exact number). Totality is proved for each
    ([scan_total], [server_first_exact], [derivation_exact]).

    ** Not modelled

    The reactor, its pools and futures, and the drivers that glue the protocols to
    them ([client/], [port/] but for the slots, requests and replies, [api/]) call
    code that is not in the repository. [gen/] runs at build time and has no state.
    [sqlite/] but for its heap owns handles of the C library. Of the rest, the
    startup of a PostgreSQL connection and its SASL steps ([protocol/logic/turn.rs]),
    the preparation of passwords ([scram/]) and the typed decoders of Redis replies
    ([value/]) are not modelled; what they call of the modelled parts is. *)
From Stdlib Require Export ZArith Lia Bool String Ascii.
From stdpp Require Export base numbers option list list_numbers sets.

#[global] Open Scope Z_scope.

(** ** Machine integers *)

Abbreviation u8_max := 255.
Abbreviation u16_max := 65535.
Abbreviation u32_max := 4294967295.
Abbreviation u64_max := 18446744073709551615.
Abbreviation i32_max := 2147483647.
Abbreviation i64_max := 9223372036854775807.
Abbreviation i64_min := (-9223372036854775808).

(** Truncating casts: [x as u8], [x as u32], [x as u64], and the two's
    complement casts [x as i16], [x as i32], [x as i64]. *)
Definition as_u8 (x : Z) : Z := x mod 2 ^ 8.

Definition as_u32 (x : Z) : Z := x mod 2 ^ 32.

Definition as_u64 (x : Z) : Z := x mod 2 ^ 64.

Definition as_signed (w x : Z) : Z :=
  let r := x mod 2 ^ w in if r <? 2 ^ (w - 1) then r else r - 2 ^ w.

Definition as_i16 : Z -> Z := as_signed 16.

Definition as_i32 : Z -> Z := as_signed 32.

Definition as_i64 : Z -> Z := as_signed 64.

(** The [checked_*] operations at a type whose values lie in [[lo, hi]]. *)
Definition checked (lo hi x : Z) : option Z :=
  if (lo <=? x) && (x <=? hi) then Some x else None.

Definition checked_u32 : Z -> option Z := checked 0 u32_max.

Definition checked_u64 : Z -> option Z := checked 0 u64_max.

Definition checked_usize : Z -> option Z := checked 0 u64_max.

Definition checked_i64 : Z -> option Z := checked i64_min i64_max.

(** [NonZero::<T>::MIN.saturating_add(x)] at a type of maximum [hi]. *)
Definition nonzero_succ (hi x : Z) : Z := Z.min (1 + x) hi.

(** ** Results *)

Inductive result (E A : Type) : Type :=
| Ok (a : A)
| Err (e : E).
Arguments Ok {E A} a.
Arguments Err {E A} e.

#[global] Instance result_ret E : MRet (result E) := fun A a => Ok a.
#[global] Instance result_bind E : MBind (result E) := fun A B k m =>
  match m with Ok a => k a | Err e => Err e end.
#[global] Instance result_fmap E : FMap (result E) := fun A B f m =>
  match m with Ok a => Ok (f a) | Err e => Err e end.

(** [Result::map_err] and [Option::ok_or]. *)
Definition map_err {E F A} (f : E -> F) (m : result E A) : result F A :=
  match m with Ok a => Ok a | Err e => Err (f e) end.

Definition ok_or {E A} (o : option A) (e : E) : result E A :=
  match o with Some a => Ok a | None => Err e end.

Definition is_ok {E A} (m : result E A) : bool :=
  match m with Ok _ => true | Err _ => false end.

Lemma bind_Ok {E A B} (m : result E A) (k : A -> result E B) b :
  (m ≫= k) = Ok b <-> exists a, m = Ok a /\ k a = Ok b.
Proof.
  split; [|by intros (a & -> & H)]. destruct m as [a|e]; [by exists a|discriminate].
Qed.

Lemma bind_Err {E A B} (m : result E A) (k : A -> result E B) e :
  (m ≫= k) = Err e <-> m = Err e \/ exists a, m = Ok a /\ k a = Err e.
Proof.
  split; [|by intros [->|(a & -> & H)]].
  intros H. destruct m as [a|e']; [right; by exists a|]. left. by injection H as ->.
Qed.

Lemma Ok_inj {E A} (a b : A) : @Ok E A a = Ok b -> a = b.
Proof. congruence. Qed.

(** ** Byte strings *)

(** A byte is an integer in [[0, 256)]; a byte string is a list of them. *)
Definition is_byte (b : Z) : Prop := 0 <= b <= u8_max.

Abbreviation zlen l := (Z.of_nat (length l)).

(** [b"..."] literals. *)
Fixpoint bytes_of (s : string) : list Z :=
  match s with
  | EmptyString => []
  | String c s => Z.of_N (N_of_ascii c) :: bytes_of s
  end.

#[global] Arguments bytes_of : simpl never.

(** [slice.get(i)], [slice.get(a..b)], [slice.get(a..)]: [None] out of range. *)
Definition get {A} (l : list A) (i : Z) : option A :=
  if 0 <=? i then l !! Z.to_nat i else None.

Definition slice {A} (l : list A) (a b : Z) : list A :=
  take (Z.to_nat (b - a)) (drop (Z.to_nat a) l).

Definition get_range {A} (l : list A) (a b : Z) : option (list A) :=
  if (0 <=? a) && (a <=? b) && (b <=? zlen l) then Some (slice l a b) else None.

Definition get_from {A} (l : list A) (a : Z) : option (list A) :=
  get_range l a (zlen l).

(** [iter().position(f)]. *)
Fixpoint position {A} (f : A -> bool) (l : list A) : option Z :=
  match l with
  | [] => None
  | x :: l => if f x then Some 0 else Z.succ <$> position f l
  end.

(** Big-endian words: [to_be_bytes] and [from_be_bytes]. *)
Fixpoint to_be (n : nat) (x : Z) : list Z :=
  match n with
  | O => []
  | S n => to_be n (x / 256) ++ [x mod 256]
  end.

Definition from_be (l : list Z) : Z := fold_left (fun acc b => acc * 256 + b) l 0.

Fixpoint list_eqb (l k : list Z) : bool :=
  match l, k with
  | [], [] => true
  | x :: l, y :: k => (x =? y) && list_eqb l k
  | _, _ => false
  end.

(** ** Generic lemmas *)

Create HintDb cartel discriminated.
Create Rewrite HintDb cartel_len.

(** Case analysis on the tests of the code, hypotheses turned to [Prop]. *)
Ltac reflect_bool :=
  repeat match goal with
  | H : (_ && _)%bool = true |- _ => apply andb_true_iff in H as [? ?]
  | H : (_ || _)%bool = false |- _ => apply orb_false_iff in H as [? ?]
  | H : negb _ = true |- _ => apply negb_true_iff in H
  | H : negb _ = false |- _ => apply negb_false_iff in H
  | H : (_ =? _) = true |- _ => apply Z.eqb_eq in H
  | H : (_ =? _) = false |- _ => apply Z.eqb_neq in H
  | H : (_ <=? _) = true |- _ => apply Z.leb_le in H
  | H : (_ <=? _) = false |- _ => apply Z.leb_gt in H
  | H : (_ <? _) = true |- _ => apply Z.ltb_lt in H
  | H : (_ <? _) = false |- _ => apply Z.ltb_ge in H
  end.

(** Splits the innermost [if] or [match] of the goal. *)
Ltac split_match :=
  match goal with
  | |- context [match ?x with _ => _ end] =>
      lazymatch x with
      | context [match _ with _ => _ end] => fail
      | _ => destruct x eqn:?
      end
  end.

Ltac split_match_in H :=
  match type of H with
  | context [match ?x with _ => _ end] =>
      lazymatch x with
      | context [match _ with _ => _ end] => fail
      | _ => destruct x eqn:?
      end
  end.

Section widths.
Lemma as_u8_small x : 0 <= x <= u8_max -> as_u8 x = x.
Proof. intros. apply Z.mod_small. lia. Qed.

Lemma as_u32_small x : 0 <= x <= u32_max -> as_u32 x = x.
Proof. intros. apply Z.mod_small. lia. Qed.

Lemma as_u64_small x : 0 <= x <= u64_max -> as_u64 x = x.
Proof. intros. apply Z.mod_small. lia. Qed.

Lemma as_u64_range x : 0 <= as_u64 x <= u64_max.
Proof. unfold as_u64. pose proof (Z.mod_pos_bound x (2 ^ 64)). lia. Qed.

Lemma as_u32_range x : 0 <= as_u32 x <= u32_max.
Proof. unfold as_u32. pose proof (Z.mod_pos_bound x (2 ^ 32)). lia. Qed.

Lemma as_signed_mod w x :
  0 < w -> - 2 ^ (w - 1) <= x < 2 ^ (w - 1) -> as_signed w (x mod 2 ^ w) = x.
Proof.
  intros Hw Hx. unfold as_signed.
  assert (2 ^ w = 2 * 2 ^ (w - 1)) as E
    by (rewrite <- Z.pow_succ_r by lia; f_equal; lia).
  rewrite Z.mod_mod by lia.
  destruct (Z.ltb_spec (x mod 2 ^ w) (2 ^ (w - 1))) as [L|L].
  - destruct (Z_le_gt_dec 0 x).
    + apply Z.mod_small. lia.
    + rewrite <- (Z.mod_unique_pos x (2 ^ w) (-1) (x + 2 ^ w)) in L by lia. lia.
  - destruct (Z_le_gt_dec 0 x).
    + rewrite Z.mod_small in L by lia. lia.
    + rewrite <- (Z.mod_unique_pos x (2 ^ w) (-1) (x + 2 ^ w)) by lia. lia.
Qed.

Lemma as_i64_u64 x : i64_min <= x <= i64_max -> as_i64 (as_u64 x) = x.
Proof. intros. unfold as_i64, as_u64. apply as_signed_mod; lia. Qed.

Lemma checked_Some lo hi x y : checked lo hi x = Some y <-> y = x /\ lo <= x <= hi.
Proof.
  unfold checked.
  destruct (Z.leb_spec lo x), (Z.leb_spec x hi); simpl; split; intros H1;
    try discriminate; try (destruct H1; lia); try (injection H1 as <-; lia).
  destruct H1 as [-> _]. reflexivity.
Qed.

Lemma checked_None lo hi x : checked lo hi x = None <-> ~ (lo <= x <= hi).
Proof.
  unfold checked.
  destruct (Z.leb_spec lo x), (Z.leb_spec x hi); simpl; split; intros;
    try discriminate; try lia; reflexivity.
Qed.
End widths.

#[export] Hint Resolve as_u64_range as_u32_range : cartel.

Section lists.
Context {A : Type}.
Implicit Types l k : list A.

Lemma get_Some_bounds l i x : get l i = Some x -> 0 <= i < zlen l.
Proof.
  unfold get. destruct (Z.leb_spec 0 i); [|discriminate].
  intros ?%lookup_lt_Some. lia.
Qed.

Lemma get_None_bounds l i : 0 <= i -> get l i = None -> zlen l <= i.
Proof.
  intros Hi. unfold get. destruct (Z.leb_spec 0 i); [|lia].
  intros ?%lookup_ge_None. lia.
Qed.

Lemma get_is_Some l i : 0 <= i < zlen l -> is_Some (get l i).
Proof.
  intros. unfold get. destruct (Z.leb_spec 0 i); [|lia].
  apply lookup_lt_is_Some. lia.
Qed.

Lemma get_app_l l k i : i < zlen l -> get (l ++ k) i = get l i.
Proof.
  intros. unfold get. destruct (Z.leb_spec 0 i); [|done].
  apply lookup_app_l. lia.
Qed.

Lemma get_app_r l k i : zlen l <= i -> get (l ++ k) i = get k (i - zlen l).
Proof.
  intros. unfold get.
  destruct (Z.leb_spec 0 i), (Z.leb_spec 0 (i - zlen l)); try lia.
  rewrite lookup_app_r by lia. f_equal. lia.
Qed.

Lemma get_Some_app l k i x : get l i = Some x -> get (l ++ k) i = Some x.
Proof. intros H. rewrite get_app_l; [done|]. apply get_Some_bounds in H. lia. Qed.

Lemma length_slice l a b :
  0 <= a -> a <= b -> b <= zlen l -> zlen (slice l a b) = b - a.
Proof. intros. unfold slice. rewrite length_take, length_drop. lia. Qed.

Lemma slice_app_l l k a b :
  0 <= a -> a <= b -> b <= zlen l -> slice (l ++ k) a b = slice l a b.
Proof.
  intros. unfold slice. rewrite drop_app_le by lia.
  rewrite take_app_le; [done|]. rewrite length_drop. lia.
Qed.

Lemma slice_middle l m r :
  slice (l ++ m ++ r) (zlen l) (zlen l + zlen m) = m.
Proof.
  unfold slice. rewrite Nat2Z.id, drop_app_length.
  replace (Z.to_nat _) with (length m) by lia. apply take_app_length.
Qed.

Lemma get_range_Some l a b s :
  get_range l a b = Some s <-> (0 <= a <= b /\ b <= zlen l /\ s = slice l a b).
Proof.
  unfold get_range. split.
  - intros H. split_match_in H; [|done]. reflect_bool. naive_solver lia.
  - intros ([??] & ? & ->).
    replace (_ && _)%bool with true; [done|]. symmetry. lia.
Qed.

Lemma get_range_app l k a b s :
  get_range l a b = Some s -> get_range (l ++ k) a b = Some s.
Proof.
  rewrite !get_range_Some, length_app. intros ([??] & ? & ->).
  split_and!; try lia. by rewrite slice_app_l by lia.
Qed.

Lemma slice_cons l a b x :
  0 <= a -> a < b -> get l a = Some x -> slice l a b = x :: slice l (a + 1) b.
Proof.
  intros Ha Hb Hx. unfold get in Hx. destruct (Z.leb_spec 0 a); [|lia].
  unfold slice.
  replace (Z.to_nat (b - a)) with (S (Z.to_nat (b - (a + 1)))) by lia.
  rewrite (drop_S l x (Z.to_nat a)) by done.
  replace (Z.to_nat (a + 1)) with (S (Z.to_nat a)) by lia. done.
Qed.

Lemma position_Some (f : A -> bool) l i :
  position f l = Some i ->
  0 <= i /\ (exists x, get l i = Some x /\ f x = true) /\
  (forall j y, 0 <= j < i -> get l j = Some y -> f y = false).
Proof.
  revert i. induction l as [|x l IH]; intros i H; simpl in H; [done|].
  destruct (f x) eqn:E.
  - injection H as <-. split_and!; [lia|exists x; done|intros; lia].
  - destruct (position f l) as [j|]; simplify_eq/=.
    destruct (IH j eq_refl) as (? & (y & Hy & Ey) & Hall). split_and!; [lia| |].
    + exists y. split; [|done]. rewrite (get_app_r [x] l) by (simpl; lia).
      replace (Z.succ j - _) with j by (simpl; lia). done.
    + intros j' y' Hj' Hy'. destruct (decide (j' = 0)) as [->|].
      * injection Hy' as <-. done.
      * rewrite (get_app_r [x] l) in Hy' by (simpl; lia).
        apply (Hall (j' - 1)); [lia|]. by simpl in Hy'.
Qed.

Lemma position_None (f : A -> bool) l :
  position f l = None -> forall x, x ∈ l -> f x = false.
Proof.
  induction l as [|y l IH]; intros H x Hx; simpl in H; [by apply elem_of_nil in Hx|].
  destruct (f y) eqn:E; [done|]. destruct (position f l); [done|].
  apply elem_of_cons in Hx as [->|?]; auto.
Qed.

Lemma get_drop l a i : 0 <= a -> 0 <= i -> get (drop (Z.to_nat a) l) i = get l (a + i).
Proof.
  intros. unfold get. destruct (Z.leb_spec 0 i), (Z.leb_spec 0 (a + i)); try lia.
  rewrite lookup_drop. f_equal. lia.
Qed.

Lemma slice_all l a : slice l a (zlen l) = drop (Z.to_nat a) l.
Proof. unfold slice. apply take_ge. rewrite length_drop. lia. Qed.

Lemma get_from_Some l a : 0 <= a <= zlen l -> get_from l a = Some (drop (Z.to_nat a) l).
Proof.
  intros. unfold get_from. apply get_range_Some. rewrite slice_all.
  split_and!; (done || lia).
Qed.

Lemma get_from_None l a : zlen l < a -> get_from l a = None.
Proof.
  intros. unfold get_from, get_range.
  replace (_ && _)%bool with false by (symmetry; lia). done.
Qed.

Lemma slice_split l a b c :
  0 <= a <= b -> b <= c -> c <= zlen l -> slice l a c = slice l a b ++ slice l b c.
Proof.
  intros. unfold slice.
  rewrite <- (take_drop (Z.to_nat (b - a)) (take (Z.to_nat (c - a)) _)).
  rewrite take_take, skipn_firstn_comm, drop_drop.
  f_equal; f_equal; try lia. f_equal. lia.
Qed.

Lemma slice_nil l a : slice l a a = [].
Proof. unfold slice. by rewrite Z.sub_diag. Qed.

Lemma slice_0 l b : slice l 0 b = take (Z.to_nat b) l.
Proof. unfold slice. rewrite Z.sub_0_r. done. Qed.

Lemma get_slice l a b i :
  0 <= a -> 0 <= i < b - a -> b <= zlen l -> get (slice l a b) i = get l (a + i).
Proof.
  intros. rewrite <- get_drop by lia. unfold slice, get.
  destruct (Z.leb_spec 0 i); [|lia]. apply lookup_take_lt. lia.
Qed.

Lemma position_drop (f : A -> bool) l a i :
  0 <= a -> position f (drop (Z.to_nat a) l) = Some i ->
  0 <= i /\ (exists x, get l (a + i) = Some x /\ f x = true) /\
  (forall j y, a <= j < a + i -> get l j = Some y -> f y = false).
Proof.
  intros Ha (Hi & (x & Hx & Fx) & Hall)%position_Some. split_and!; [done| |].
  - exists x. by rewrite <- get_drop by lia.
  - intros j y Hj Hy. apply (Hall (j - a)); [lia|].
    rewrite get_drop by lia. by replace (a + (j - a)) with j by lia.
Qed.

Lemma position_drop_None (f : A -> bool) l a :
  0 <= a -> position f (drop (Z.to_nat a) l) = None ->
  forall j y, a <= j -> get l j = Some y -> f y = false.
Proof.
  intros Ha H j y Hj Hy. apply (position_None _ _ H).
  replace j with (a + (j - a)) in Hy by lia. rewrite <- get_drop in Hy by lia.
  unfold get in Hy. destruct (0 <=? j - a); [|done]. by apply list_elem_of_lookup_2 in Hy.
Qed.

  (** The first position is unique. *)
Lemma position_unique (f : A -> bool) l i x :
  get l i = Some x -> f x = true ->
  (forall j y, 0 <= j < i -> get l j = Some y -> f y = false) ->
  position f l = Some i.
Proof.
  intros Hx Fx Hall. destruct (position f l) as [k|] eqn:E.
  - apply position_Some in E as (Hk & (y & Hy & Fy) & Hk2). f_equal.
    apply get_Some_bounds in Hx as Hb.
    destruct (Z.lt_trichotomy k i) as [Hlt|[?|Hlt]]; [|done|].
    + rewrite (Hall k y) in Fy; (done || lia).
    + rewrite (Hk2 i x) in Fx; (done || lia).
  - apply get_Some_bounds in Hx as Hb. unfold get in Hx.
    destruct (0 <=? i) eqn:?; [|done].
    apply list_elem_of_lookup_2 in Hx. by rewrite (position_None _ _ E x Hx) in Fx.
Qed.
End lists.

Section bytes.
Lemma list_eqb_eq l k : list_eqb l k = true <-> l = k.
Proof.
  revert k. induction l as [|x l IH]; intros [|y k]; simpl; try done.
  rewrite andb_true_iff, Z.eqb_eq, IH. naive_solver.
Qed.

Lemma length_to_be n x : length (to_be n x) = n.
Proof. revert x. induction n; intros; simpl; [done|]. rewrite length_app, IHn. simpl. lia. Qed.

Lemma to_be_bytes n x : Forall is_byte (to_be n x).
Proof.
  revert x. induction n; intros; simpl; [constructor|].
  apply Forall_app. split; [done|]. repeat constructor.
  all: pose proof (Z.mod_pos_bound x 256); lia.
Qed.

Lemma from_be_app l b : from_be (l ++ [b]) = from_be l * 256 + b.
Proof. unfold from_be. by rewrite fold_left_app. Qed.

Lemma from_be_to_be n x : from_be (to_be n x) = x mod 256 ^ Z.of_nat n.
Proof.
  revert x. induction n as [|n IH]; intros x; simpl to_be.
  - by rewrite Z.mod_1_r.
  - rewrite from_be_app, IH, Nat2Z.inj_succ, Z.pow_succ_r by lia.
    rewrite Z.rem_mul_r by lia. lia.
Qed.

Lemma from_be_range l : Forall is_byte l -> 0 <= from_be l < 256 ^ zlen l.
Proof.
  induction l as [|b l IH] using rev_ind; intros H; [done|].
  apply Forall_app in H as [Hl Hb]. apply Forall_cons in Hb as [Hb _].
  rewrite from_be_app, length_app, Nat2Z.inj_add. simpl (Z.of_nat (length [b])).
  rewrite Z.pow_add_r by lia. specialize (IH Hl). unfold is_byte in Hb. lia.
Qed.

Lemma to_be_from_be l : Forall is_byte l -> to_be (length l) (from_be l) = l.
Proof.
  induction l as [|b l IH] using rev_ind; intros H; [done|].
  apply Forall_app in H as [Hl Hb]. apply Forall_cons in Hb as [Hb _].
  rewrite length_app, Nat.add_1_r. simpl. rewrite from_be_app. unfold is_byte in Hb.
  rewrite Z.div_add_l, Z.div_small, Z.add_0_r, IH by (done || lia).
  f_equal. f_equal. rewrite Z.add_comm, Z.mod_add by lia. apply Z.mod_small. lia.
Qed.
End bytes.

(** ** Decimal digits *)

Definition is_digit (b : Z) : bool := (48 <=? b) && (b <=? 57).

(** The reference value of a run of decimal digits. *)
Definition decimal (l : list Z) : Z := fold_left (fun v b => v * 10 + (b - 48)) l 0.

Definition digits (l : list Z) : Prop := Forall (fun b => is_digit b = true) l.

Lemma digits_bytes l : digits l -> Forall is_byte l.
Proof.
  intros H. eapply Forall_impl; [exact H|]. unfold is_digit, is_byte. intros b Hb. reflect_bool. lia.
Qed.

Lemma decimal_app l b : decimal (l ++ [b]) = decimal l * 10 + (b - 48).
Proof. unfold decimal. by rewrite fold_left_app. Qed.

Lemma decimal_nonneg l : digits l -> 0 <= decimal l.
Proof.
  induction l as [|b l IH] using rev_ind; intros H; [done|]. apply Forall_app in H as [Hl Hb].
  apply Forall_cons in Hb as [Hb _]. rewrite decimal_app. unfold is_digit in Hb. reflect_bool.
  specialize (IH Hl). lia.
Qed.

(** Decides concrete byte strings. *)
Definition byte_check (l : list Z) : bool := forallb (fun b => (0 <=? b) && (b <=? u8_max)) l.

Lemma byte_check_ok l : byte_check l = true -> Forall is_byte l.
Proof.
  unfold byte_check, is_byte. intros H. apply Forall_forall. intros x Hx.
  rewrite forallb_forall in H. apply list_elem_of_In in Hx. specialize (H x Hx). lia.
Qed.

#[export] Hint Resolve to_be_bytes : cartel.
#[export] Hint Rewrite @length_app @length_to_be @length_take @length_drop : cartel_len.
