(* ===== verification/CoreText.v ===== *)
(** * Decimal text

    Models [write_digits] of [core/src/lib.rs], which every request encoder uses
    for its headers, and the standard formatting of integers it agrees with. *)
From S2P Require Import Prelude.

(** ** [write_digits] *)

(** The loop of [write_digits]; [None] is an index below the buffer. *)
Fixpoint write_digits_loop (fuel : nat) (buffer : list Z) (index value : Z) : option (list Z * Z) :=
  match fuel with
  | O => None
  | S fuel =>
      let index := index - 1 in
      let buffer := <[Z.to_nat index := 48 + as_u8 (value mod 10)]> buffer in
      let value := value / 10 in
      if value =? 0 then Some (buffer, index) else write_digits_loop fuel buffer index value
  end.

Definition write_digits (buffer : list Z) (value : Z) : option (list Z * Z) :=
  write_digits_loop (length buffer) buffer (zlen buffer) value.

(** ** Reference text of an integer *)

(** The decimal text of a natural number of at most twenty digits. *)
Fixpoint show_loop (fuel : nat) (value : Z) (acc : list Z) : list Z :=
  match fuel with
  | O => acc
  | S fuel =>
      let acc := (48 + value mod 10) :: acc in
      if value / 10 =? 0 then acc else show_loop fuel (value / 10) acc
  end.

Definition show (value : Z) : list Z := show_loop 20 value [].

(** [i64::format_into]. *)
Definition show_signed (value : Z) : list Z :=
  if value <? 0 then 45 :: show (- value) else show value.

(** [u64::checked_ilog10]. *)
Fixpoint ilog10 (fuel : nat) (value : Z) : Z :=
  match fuel with
  | O => 0
  | S fuel => if value <? 10 then 0 else 1 + ilog10 fuel (value / 10)
  end.

Definition checked_ilog10 (value : Z) : option Z :=
  if value <=? 0 then None else Some (ilog10 20 value).

(** ** Lemmas *)

Lemma show_loop_acc fuel value acc : show_loop fuel value acc = show_loop fuel value [] ++ acc.
Proof.
  revert value acc. induction fuel as [|fuel IH]; intros value acc; [done|]. cbn [show_loop].
  destruct (_ =? 0); [done|]. rewrite IH, (IH _ [_]), <- app_assoc. done.
Qed.

Lemma show_loop_S fuel value :
  show_loop (S fuel) value [] =
  (if value / 10 =? 0 then [] else show_loop fuel (value / 10) []) ++ [48 + value mod 10].
Proof. cbn [show_loop]. destruct (_ =? 0); [done|]. apply show_loop_acc. Qed.

Lemma digit_mod value : is_digit (48 + value mod 10) = true.
Proof. unfold is_digit. pose proof (Z.mod_pos_bound value 10). lia. Qed.

Lemma div10 value : value = 10 * (value / 10) + value mod 10 /\ 0 <= value mod 10 < 10.
Proof. split; [apply Z.div_mod; lia|apply Z.mod_pos_bound; lia]. Qed.

Lemma digits_left fuel value :
  0 <= value < 10 * 10 ^ Z.of_nat fuel -> value / 10 <> 0 ->
  (0 < fuel)%nat /\ 0 <= value / 10 < 10 ^ Z.of_nat fuel.
Proof.
  intros Hv Hne. pose proof (div10 value).
  destruct fuel; [change (10 ^ Z.of_nat 0) with 1 in *; lia|lia].
Qed.

Lemma show_loop_spec fuel value :
  0 <= value < 10 ^ Z.of_nat fuel -> (0 < fuel)%nat ->
  digits (show_loop fuel value []) /\ decimal (show_loop fuel value []) = value /\
  show_loop fuel value [] <> [].
Proof.
  revert value. induction fuel as [|fuel IH]; intros value Hv Hf; [lia|].
  rewrite show_loop_S. rewrite Nat2Z.inj_succ, Z.pow_succ_r in Hv by lia.
  pose proof (div10 value). split; [|split; [|by destruct (if _ : bool then _ else _)]].
  - apply Forall_app. split; [|repeat constructor; apply digit_mod].
    destruct (Z.eqb_spec (value / 10) 0) as [|E]; [constructor|].
    destruct (digits_left fuel value Hv E). by apply IH.
  - rewrite decimal_app. destruct (Z.eqb_spec (value / 10) 0) as [E|E].
    + change (decimal []) with 0. lia.
    + destruct (digits_left fuel value Hv E). destruct (IH (value / 10)) as (_ & -> & _); [done..|lia].
Qed.

Lemma show_spec value :
  0 <= value <= u64_max ->
  digits (show value) /\ decimal (show value) = value /\ show value <> [].
Proof. intros. apply show_loop_spec; lia. Qed.

(** One digit more per factor of ten. *)
Lemma show_loop_length fuel value :
  0 <= value < 10 ^ Z.of_nat fuel -> (0 < fuel)%nat ->
  zlen (show_loop fuel value []) = ilog10 fuel value + 1.
Proof.
  revert value. induction fuel as [|fuel IH]; intros value Hv Hf; [lia|].
  rewrite show_loop_S, length_app, Nat2Z.inj_add. cbn [ilog10 length].
  rewrite Nat2Z.inj_succ, Z.pow_succ_r in Hv by lia. pose proof (div10 value).
  destruct (Z.eqb_spec (value / 10) 0), (Z.ltb_spec value 10); try lia; [done|].
  destruct (digits_left fuel value Hv) as [? ?]; [done|]. rewrite IH by done. lia.
Qed.

Lemma show_length value :
  0 <= value <= u64_max -> zlen (show value) = default 0 (checked_ilog10 value) + 1.
Proof.
  intros Hv. unfold show, checked_ilog10. rewrite show_loop_length by lia.
  destruct (Z.leb_spec value 0); [|done]. by replace value with 0 by lia.
Qed.

Lemma show_length_bound value : 0 <= value <= u64_max -> 1 <= zlen (show value) <= 20.
Proof.
  intros Hv. destruct (show_spec value Hv) as (_ & _ & Hne). split; [destruct (show value); simpl; (done || lia)|].
  unfold show. assert (forall fuel v, zlen (show_loop fuel v []) <= Z.of_nat fuel) as H.
  { clear. induction fuel as [|fuel IH]; intros v; [done|]. rewrite show_loop_S, length_app.
    destruct (_ =? 0); cbn [length]; [lia|]. specialize (IH (v / 10)). lia. }
  apply (H 20%nat).
Qed.

(** The digits below [index] after the loop has filled the suffix with [acc]. *)
Lemma write_digits_loop_spec fuel pre acc value :
  length pre = fuel -> 0 <= value < 10 ^ Z.of_nat fuel -> (0 < fuel)%nat ->
  exists kept, write_digits_loop fuel (pre ++ acc) (zlen pre) value =
    Some (kept ++ show_loop fuel value [] ++ acc, zlen kept) /\ kept `prefix_of` pre /\
    zlen pre = zlen kept + zlen (show_loop fuel value []).
Proof.
  revert pre acc value. induction fuel as [|fuel IH]; intros pre acc value Hl Hv Hf; [lia|].
  destruct pre as [|b pre _] using rev_ind; [done|]. rewrite length_app in Hl. simpl in Hl.
  rewrite show_loop_S. cbn [write_digits_loop].
  rewrite Nat2Z.inj_succ, Z.pow_succ_r in Hv by lia. pose proof (div10 value). rewrite as_u8_small by lia.
  rewrite length_app, Nat2Z.inj_add. cbn [length].
  replace (zlen pre + Z.of_nat 1 - 1) with (zlen pre) by lia. rewrite Nat2Z.id, <- app_assoc.
  rewrite insert_app_r_alt, Nat.sub_diag by done. cbn [app].
  change (<[0%nat:=48 + value mod 10]> (b :: acc)) with ((48 + value mod 10) :: acc).
  destruct (Z.eqb_spec (value / 10) 0) as [E|E].
  - exists pre. split; [done|]. split; [by eexists|]. simpl. lia.
  - destruct (IH pre ((48 + value mod 10) :: acc) (value / 10)) as (kept & -> & Hk & Hlen);
      [lia|by apply digits_left|by apply (digits_left fuel value)|].
    exists kept. rewrite <- app_assoc. split; [done|]. split; [by apply prefix_app_r|].
    rewrite length_app. cbn [length]. lia.
Qed.

(** No leading zero. *)
Lemma show_loop_head fuel value :
  0 < value < 10 ^ Z.of_nat fuel -> (0 < fuel)%nat ->
  exists d tl, show_loop fuel value [] = d :: tl /\ d <> 48.
Proof.
  revert value. induction fuel as [|fuel IH]; intros value Hv Hf; [lia|].
  rewrite show_loop_S. rewrite Nat2Z.inj_succ, Z.pow_succ_r in Hv by lia. pose proof (div10 value).
  destruct (Z.eqb_spec (value / 10) 0) as [E|E].
  - exists (48 + value mod 10), []. split; [done|lia].
  - destruct (digits_left fuel value) as [? ?]; [lia|done|].
    destruct (IH (value / 10)) as (d & tl & -> & Hd); [lia|done|]. by exists d, (tl ++ [48 + value mod 10]).
Qed.

Lemma decimal_pos l : digits l -> l <> [] -> head l <> Some 48 -> 0 < decimal l.
Proof.
  induction l as [|b l IH] using rev_ind; intros H Hne Hh; [done|]. apply Forall_app in H as [Hl Hb].
  apply Forall_cons in Hb as [Hb _]. rewrite decimal_app. unfold is_digit in Hb. reflect_bool.
  destruct l as [|a l]; [cbn in *; assert (b <> 48) by congruence; lia|].
  assert (0 < decimal (a :: l)) by (apply IH; done). lia.
Qed.

(** The decimal text is the only one without leading zeros. *)
Lemma show_loop_decimal fuel l :
  digits l -> l <> [] -> head l <> Some 48 -> decimal l < 10 ^ Z.of_nat fuel ->
  show_loop fuel (decimal l) [] = l.
Proof.
  revert l. induction fuel as [|fuel IH]; intros l Hd Hne Hh Hf.
  { pose proof (decimal_pos l Hd Hne Hh). change (10 ^ Z.of_nat 0) with 1 in Hf. lia. }
  rewrite show_loop_S. rewrite Nat2Z.inj_succ, Z.pow_succ_r in Hf by lia.
  destruct l as [|b l _] using rev_ind; [done|]. apply Forall_app in Hd as [Hl Hb].
  apply Forall_cons in Hb as [Hb _]. rewrite decimal_app in *. unfold is_digit in Hb. reflect_bool.
  rewrite Z.div_add_l, (Z.div_small (b - 48)), Z.add_0_r by lia.
  rewrite (Z.add_comm (decimal l * 10)), Z.mod_add, Z.mod_small by lia.
  replace (48 + (b - 48)) with b by lia. f_equal.
  destruct (Z.eqb_spec (decimal l) 0) as [E|E].
  - destruct l as [|a l]; [done|]. assert (0 < decimal (a :: l)) by (by apply decimal_pos). lia.
  - destruct l as [|a l]; [done|]. apply IH; [done|done|done|lia].
Qed.

Lemma show_decimal l :
  digits l -> l <> [] -> head l <> Some 48 -> decimal l <= u64_max -> show (decimal l) = l.
Proof. intros. apply show_loop_decimal; [done..|]. lia. Qed.

