(* ===== verification/CodecInput.v ===== *)
(** * The input window of a codec session

    The interface through which both protocols read what a connection received:
    the bytes, the admission of a consumed amount, the projection of a prefix
    from an offset and the amount still needed, as a session of the driver
    offers them, with the laws a session keeps. *)
From S2P Require Import Prelude.

(** [session::codec::Input]: [try_prefix inp start n] projects the bytes from
    [start] up to [n] and consumes [n] of them; [need_to inp n] is what to wait
    for until there are [n] bytes, if the staging can hold them. *)
Record Input (X : Type) := {
  bytes : list Z;
  try_consumed : Z -> result X Z;
  try_prefix : Z -> Z -> result X (list Z * Z);
  need_to : Z -> option Z }.
Arguments bytes {X} i.
Arguments try_consumed {X} i n.
Arguments try_prefix {X} i start n.
Arguments need_to {X} i n.

(** A session that shows every window of the bytes it received, admits every
    amount within one, and can stage [capacity] bytes. *)
Class Windows {X} (input : list Z -> Input X) (capacity : Z) := {
  windows_bytes l : bytes (input l) = l;
  windows_consumed l n : 1 <= n <= zlen l -> try_consumed (input l) n = Ok n;
  windows_prefix l a n :
    0 <= a <= n -> 1 <= n <= zlen l -> try_prefix (input l) a n = Ok (slice l a n, n);
  windows_need l n : n <= capacity -> is_Some (need_to (input l) n) }.

(** A window that admits every amount within its bytes. *)
Definition window (l : list Z) : Input () := {|
  bytes := l;
  try_consumed n := if (1 <=? n) && (n <=? zlen l) then Ok n else Err ();
  try_prefix a n := if (0 <=? a) && (a <=? n) && (n <=? zlen l) then Ok (slice l a n, n) else Err ();
  need_to n := Some n |}.

#[export] Instance window_windows capacity : Windows window capacity.
Proof.
  split; intros; simpl; [done| | |by eexists].
  - replace (_ && _)%bool with true by (symmetry; lia). done.
  - replace (_ && _)%bool with true by (symmetry; lia). done.
Qed.
