(* ===== verification/PgWire.v ===== *)
(** * PostgreSQL wire bytes and failure reasons

    Models [pg/src/protocol/mod.rs] (lengths, offsets and the closed reasons of
    protocol failures) and [pg/src/protocol/wire.rs] (the bounded byte views all
    payload parsers read). *)
From S2P Require Import Prelude.

(** ** Failures *)

Module Utf8.
Inductive Utf8 := Incomplete | One | Two | Three | Other.
End Utf8.

Module Number.
Inductive Number :=
| Empty
| Zero
| LeadingZero (offset : Z)
| Invalid (offset byte : Z)
| Overflow (offset byte : Z).
End Number.

Module Reason.
Inductive Reason :=
| WireLength (actual : Z)
| RequiredLength (required : Z)
| AttributeEquals (offset actual : Z)
| AttributeName (offset actual : Z)
| AttributeOrder (actual expected : Z)
| AttributeTruncated (offset actual : Z)
| AuthBeforeFinal
| AuthTruncated (actual : Z)
| AuthTrailing (actual : Z)
| BackendKeyBeforeAuth
| BackendKeyStale
| BackendKeyWidth (actual : Z)
| Bool (column actual : Z)
| ColumnBytes (column actual required : Z)
| ColumnCount (actual expected : Z)
| ColumnLength (column actual : Z)
| ColumnNull (column : Z)
| ColumnWidth (column actual expected : Z)
| ControlPayload (tag actual : Z)
| CopyFormat (actual : Z)
| CommandData
| CommandEmpty
| CommandUnknown
| CommitTag
| GroupReply
| DiagnosticMessage
| DiagnosticPosition (kind : Z) (error : Number.Number)
| DiagnosticResponseTerminator (offset : Z)
| DiagnosticSeverity
| DiagnosticSqlstateByte (actual offset byte : Z)
| DiagnosticSqlstateLength (actual : Z)
| DiagnosticTerminator (kind offset actual : Z)
| DiagnosticTrailing (offset actual : Z)
| DiagnosticUtf8 (kind offset : Z) (error : Utf8.Utf8)
| DuplicateAttribute (name offset : Z)
| DuplicateBackendKey
| DuplicateDiagnostic (kind : Z)
| DuplicateServerFirst
| EmptyAttribute (name offset : Z)
| Extension (offset : Z)
| ExtensionValue (name offset byte : Z)
| FinalAttribute (actual : Z)
| FinalState
| FinalValue (offset byte : Z)
| FrameCapacity (declared capacity : Z)
| FrameLength (declared minimum : Z)
| FrameTruncated (actual required : Z)
| Iteration (error : Number.Number)
| JsonTruncated (column actual : Z)
| JsonUtf8 (column valid : Z) (error : Utf8.Utf8)
| JsonVersion (column actual : Z)
| LtreeMissing
| MissingAttribute (expected : Z)
| MissingResult
| NoDataMismatch
| NoSasl
| NonceByte (offset actual expected : Z)
| NonceChar (offset byte : Z)
| NonceLength (actual minimum : Z)
| NegativeArrayDimension (column actual : Z)
| NegativeColumnCount (actual : Z)
| NegativeColumnLength (column actual : Z)
| NotificationChannelRange (start end_ actual : Z)
| NotificationPayloadRange (start end_ actual : Z)
| NotificationTerminator (field actual : Z)
| NotificationTrailing (actual : Z)
| NotificationTruncated (actual : Z)
| NotificationUtf8 (field valid : Z) (error : Utf8.Utf8)
| ParameterNameEmpty
| ParameterNameTerminator (actual : Z)
| ParameterTrailing (offset actual : Z)
| ParameterValueTerminator (offset actual : Z)
| PrepareReady
| PrepareReplies
| PrepareRetained
| ReadyBeforeDescription
| ReadyUnknown
| ResponseUnknown
| RowDecoderColumns (declared : Z)
| RowEmpty
| RowTrailing (actual : Z)
| RowTruncated (actual : Z)
| RowUnread (remaining : Z)
| RowUnknown
| SaslContinue
| SaslMechanismTerminator (actual : Z)
| SaslMechanismUtf8 (valid : Z) (error : Utf8.Utf8)
| SaslPlus
| SaslState
| SaslTerminator (actual : Z)
| SaslTrailing (actual : Z)
| SaltPadding (offset : Z)
| SignatureLength (actual expected : Z)
| SignatureMismatch
| StandardExtension (name offset : Z)
| TrailingComma (offset : Z)
| TransactionLane
| TransactionLease
| TransactionOpen
| TextUtf8 (column valid : Z) (error : Utf8.Utf8)
| ArrayDimensions (column actual : Z)
| ArrayHeader (column actual required : Z)
| ArrayNulls (column actual : Z)
| ArrayOid (column actual expected : Z)
| ArrayPayload (column elements actual : Z)
| ArrayTextOid (column actual : Z)
| ArrayBytes (actual required : Z)
| ArrayI32Width (actual : Z)
| ArrayI64Width (actual : Z)
| ArrayLength (actual : Z)
| NegativeArrayLength (actual : Z)
| ArrayNull
| ArrayTextUtf8 (valid : Z) (error : Utf8.Utf8)
| ArrayTrailing (actual : Z).
End Reason.

(** [Length::try_new]. *)
Definition length_try_new (value : Z) : result Reason.Reason Z :=
  if (0 <=? value) && (value <=? u32_max) then Ok value else Err (Reason.WireLength value).

(** ** [Wire] *)

(** Bytes whose extent fits 32 bits. *)
Definition wire_wf (w : list Z) : Prop := zlen w <= u32_max.

Definition wire_try_new (bytes : list Z) : result Reason.Reason (list Z) :=
  if zlen bytes <=? u32_max then Ok bytes else Err (Reason.WireLength (zlen bytes)).

Definition split_first (w : list Z) : option (Z * list Z) :=
  match w with [] => None | b :: w => Some (b, w) end.

Definition split_array (n : Z) (w : list Z) : option (list Z * list Z) :=
  if n <=? zlen w then Some (take (Z.to_nat n) w, drop (Z.to_nat n) w) else None.

Definition split_at (w : list Z) (mid : Z) : option (list Z * list Z) :=
  if mid <=? zlen w then Some (take (Z.to_nat mid) w, drop (Z.to_nat mid) w) else None.

Definition split_byte (w : list Z) (byte : Z) : option (list Z * list Z) :=
  at_ ← position (fun b => b =? byte) w;
  Some (take (Z.to_nat at_) w, drop (Z.to_nat (at_ + 1)) w).

(** ** Text *)

(** [str::from_utf8] of the standard library: the whole text is valid, or the
    length of the valid prefix and the length of the offence, none when the text
    just ends too early. *)
Definition continuation (b : Z) : bool := (0x80 <=? b) && (b <=? 0xbf).

(** The width of a sequence and the range of its second byte, by the first. *)
Definition sequence (b : Z) : option (nat * Z * Z) :=
  if b <? 0x80 then Some (1%nat, 0, 0)
  else if (0xc2 <=? b) && (b <=? 0xdf) then Some (2%nat, 0x80, 0xbf)
  else if b =? 0xe0 then Some (3%nat, 0xa0, 0xbf)
  else if b =? 0xed then Some (3%nat, 0x80, 0x9f)
  else if (0xe1 <=? b) && (b <=? 0xef) then Some (3%nat, 0x80, 0xbf)
  else if b =? 0xf0 then Some (4%nat, 0x90, 0xbf)
  else if (0xf1 <=? b) && (b <=? 0xf3) then Some (4%nat, 0x80, 0xbf)
  else if b =? 0xf4 then Some (4%nat, 0x80, 0x8f)
  else None.

(** One sequence: the bytes after it, or the length of the offence. *)
Definition decode_sequence (b : Z) (l : list Z) : result (option Z) (list Z) :=
  match sequence b with
  | None => Err (Some 1)
  | Some (1%nat, _, _) => Ok l
  | Some (width, lo, hi) =>
      match l with
      | [] => Err None
      | b1 :: l =>
          if negb ((lo <=? b1) && (b1 <=? hi)) then Err (Some 1)
          else if (width =? 2)%nat then Ok l
          else
            match l with
            | [] => Err None
            | b2 :: l =>
                if negb (continuation b2) then Err (Some 2)
                else if (width =? 3)%nat then Ok l
                else
                  match l with
                  | [] => Err None
                  | b3 :: l => if negb (continuation b3) then Err (Some 3) else Ok l
                  end
            end
      end
  end.

Fixpoint from_utf8_loop (fuel : nat) (at_ : Z) (l : list Z) : result (Z * option Z) () :=
  match fuel, l with
  | O, _ | _, [] => Ok ()
  | S fuel, b :: l =>
      match decode_sequence b l with
      | Err e => Err (at_, e)
      | Ok rest => from_utf8_loop fuel (at_ + (1 + zlen l - zlen rest)) rest
      end
  end.

Definition from_utf8 (l : list Z) : result (Z * option Z) () := from_utf8_loop (length l) 0 l.

(** [Utf8::from_error]. *)
Definition utf8_from_error (error_len : option Z) : Utf8.Utf8 :=
  match error_len with
  | None => Utf8.Incomplete
  | Some 1 => Utf8.One
  | Some 2 => Utf8.Two
  | Some 3 => Utf8.Three
  | Some _ => Utf8.Other
  end.

(** [TextError]. *)
Record TextError := { valid : Z; error : Utf8.Utf8 }.

(** [Wire::try_text]. *)
Definition try_text (w : list Z) : result TextError (list Z) :=
  match from_utf8 w with
  | Ok () => Ok w
  | Err (valid_up_to, error_len) =>
      Err {| valid := as_u32 valid_up_to; error := utf8_from_error error_len |}
  end.

(** A [str]. *)
Definition utf8_valid (l : list Z) : Prop := from_utf8 l = Ok ().

(** ** Lemmas *)

Lemma split_array_Some n w a r :
  0 <= n -> split_array n w = Some (a, r) -> w = a ++ r /\ zlen a = n.
Proof.
  intros Hn. unfold split_array. destruct (Z.leb_spec n (zlen w)); [|done]. intros [= <- <-].
  rewrite take_drop, length_take. split; [done|lia].
Qed.

Lemma split_array_app n a r : zlen a = n -> split_array n (a ++ r) = Some (a, r).
Proof.
  intros <-. unfold split_array. rewrite length_app.
  destruct (Z.leb_spec (zlen a) (Z.of_nat (length a + length r))); [|lia].
  by rewrite Nat2Z.id, take_app_length, drop_app_length.
Qed.

Lemma split_array_None n w : split_array n w = None <-> zlen w < n.
Proof. unfold split_array. destruct (Z.leb_spec n (zlen w)); split; (done || lia). Qed.

Lemma split_byte_app l b r :
  Forall (fun c => c <> b) l -> split_byte (l ++ b :: r) b = Some (l, r).
Proof.
  intros Hl. unfold split_byte.
  rewrite (position_unique _ _ (zlen l) b).
  - simpl. rewrite Nat2Z.id, take_app_length.
    replace (Z.to_nat (zlen l + 1)) with (length l + 1)%nat by lia.
    by rewrite <- drop_drop, drop_app_length.
  - rewrite get_app_r, Z.sub_diag by lia. done.
  - apply Z.eqb_refl.
  - intros j y Hj Hy. rewrite get_app_l in Hy by lia. apply Z.eqb_neq.
    rewrite Forall_forall in Hl. apply Hl. unfold get in Hy.
    destruct (0 <=? j); [|done]. by eapply list_elem_of_lookup_2.
Qed.

Lemma split_byte_Some w b l r :
  split_byte w b = Some (l, r) -> w = l ++ b :: r /\ Forall (fun c => c <> b) l.
Proof.
  unfold split_byte. destruct (position _ w) as [i|] eqn:E; [|done]. intros [= <- <-].
  apply position_Some in E as (Hi & (x & Hx & Ex) & Hall). apply Z.eqb_eq in Ex as ->.
  assert (Z.to_nat i < length w)%nat by (apply get_Some_bounds in Hx; lia).
  unfold get in Hx. destruct (Z.leb_spec 0 i); [|lia]. split.
  - replace (Z.to_nat (i + 1)) with (S (Z.to_nat i)) by lia. by rewrite take_drop_middle.
  - apply Forall_lookup. intros j c Hc. apply lookup_take_Some in Hc as [Hc Hj].
    apply Z.eqb_neq. apply (Hall (Z.of_nat j)); [lia|]. unfold get.
    destruct (Z.leb_spec 0 (Z.of_nat j)); [|lia]. by rewrite Nat2Z.id.
Qed.

Lemma split_byte_None w b : split_byte w b = None <-> Forall (fun c => c <> b) w.
Proof.
  unfold split_byte. destruct (position _ w) as [i|] eqn:E; simpl.
  - apply position_Some in E as (Hi & (x & Hx & Ex) & _). split; [done|]. intros H.
    apply Z.eqb_eq in Ex as ->. unfold get in Hx. destruct (0 <=? i); [|done].
    rewrite Forall_forall in H. by apply list_elem_of_lookup_2, H in Hx.
  - split; [|done]. intros _. apply Forall_forall. intros x Hx.
    apply Z.eqb_neq. by apply (position_None _ _ E).
Qed.
