(* ===== verification/PgFrame.v ===== *)
(** * PostgreSQL message framing

    Models [pg/src/protocol/frame/codec.rs]: a message is a type byte, a length
    that counts itself, and a payload; the codec cuts them from a growing window
    and classifies what is left when the connection ends. *)
From S2P Require Import Prelude CodecInput PgWire.

(** [frame::Head]: a message or a fatal failure. *)
Module Head.
Inductive Head := Message (typ : Z) (payload : list Z) | Fatal (reason : Reason.Reason).
End Head.

(** [codec::Parse] and [codec::Finish]. *)
Module Parse.
Inductive Parse (H : Type) :=
| More (need : Z)
| CapacityExhausted
| Item (head : H) (consumed : Z).
Arguments More {H} need.
Arguments CapacityExhausted {H}.
Arguments Item {H} head consumed.
End Parse.

Module Finish.
Inductive Finish (H : Type) := Empty | Item (head : H).
Arguments Empty {H}.
Arguments Item {H} head.
End Finish.

Section codec.
  Context {X : Type} (max_frame_bytes : Z).

(** [u32::from_be_bytes([bytes[1], bytes[2], bytes[3], bytes[4]])]. *)
Definition wire_length (bytes : list Z) : Z := from_be (slice bytes 1 5).

Definition more (buffer : Input X) (n : Z) : Parse.Parse Head.Head :=
  match need_to buffer n with
  | Some need => Parse.More need
  | None => Parse.CapacityExhausted
  end.

Definition parse (buffer : Input X) : result X (Parse.Parse Head.Head) :=
  let bytes := bytes buffer in
  if zlen bytes <? 5 then Ok (more buffer 5)
  else
    let typ := default 0 (get bytes 0) in
    let wire := wire_length bytes in
    if wire <? 4 then
      used ← try_consumed buffer (nonzero_succ u64_max (zlen bytes - 1));
      Ok (Parse.Item (Head.Fatal (Reason.FrameLength wire 4)) used)
    else
      let len := wire in
      if max_frame_bytes <=? wire then
        used ← try_consumed buffer (nonzero_succ u64_max 4);
        Ok (Parse.Item (Head.Fatal (Reason.FrameCapacity wire max_frame_bytes)) used)
      else
        let total := len + 1 in
        if zlen bytes <? total then Ok (more buffer total)
        else
          r ← try_prefix buffer 5 (nonzero_succ u64_max (total - 1));
          let '(data, used) := r in
          Ok (Parse.Item (Head.Message typ data) used).

Definition finish (input : Input X) : Finish.Finish Head.Head :=
  let bytes := bytes input in
  match bytes with
  | [] => Finish.Empty
  | _ =>
      match length_try_new (zlen bytes) with
      | Err error => Finish.Item (Head.Fatal error)
      | Ok actual =>
          let reason :=
            if zlen bytes <? 5 then Reason.FrameTruncated actual 5
            else
              let wire := wire_length bytes in
              if wire <? 4 then Reason.FrameLength wire 4
              else if max_frame_bytes <=? wire then Reason.FrameCapacity wire max_frame_bytes
              else Reason.FrameTruncated actual (as_u32 (wire + 1)) in
          Finish.Item (Head.Fatal reason)
      end
  end.

(** ** Messages *)

(** The spelling of a message: its length counts itself and the payload. *)
Definition message (typ : Z) (payload : list Z) : list Z :=
  typ :: to_be 4 (4 + zlen payload) ++ payload.

(** Messages the configured limit admits. *)
Definition message_wf (m : Z * list Z) : Prop := 4 + zlen m.2 < max_frame_bytes.

Hypothesis Hmax : max_frame_bytes <= u32_max.

Lemma length_message typ payload : zlen (message typ payload) = 5 + zlen payload.
Proof. unfold message. cbn [length]. rewrite length_app, length_to_be. lia. Qed.

Lemma wire_length_message typ payload rest :
  4 + zlen payload <= u32_max -> wire_length (message typ payload ++ rest) = 4 + zlen payload.
Proof.
  intros Hb. unfold wire_length, message. rewrite <- app_comm_cons, <- app_assoc.
  pose proof (slice_middle [typ] (to_be 4 (4 + zlen payload)) (payload ++ rest)) as E.
  rewrite length_to_be in E. change (slice _ 1 5) with
    (slice ([typ] ++ to_be 4 (4 + zlen payload) ++ payload ++ rest) (zlen [typ]) (zlen [typ] + Z.of_nat 4)).
  rewrite E, from_be_to_be. apply Z.mod_small. lia.
Qed.

(** The length field of a buffer with a header. *)
Lemma wire_length_range bytes :
  Forall is_byte bytes -> 5 <= zlen bytes -> 0 <= wire_length bytes <= u32_max.
Proof.
  intros Hb Hl. assert (Forall is_byte (slice bytes 1 5)) as Hs.
  { unfold slice. by apply Forall_take, Forall_drop. }
  apply from_be_range in Hs. rewrite length_slice in Hs by lia.
  change (256 ^ (5 - 1)) with 4294967296 in Hs. unfold wire_length. lia.
Qed.

Lemma wire_length_app bytes more :
  5 <= zlen bytes -> wire_length (bytes ++ more) = wire_length bytes.
Proof. intros. unfold wire_length. by rewrite slice_app_l by lia. Qed.

(** A buffer with a whole frame starts with its message. *)
Lemma split_message bytes :
  Forall is_byte bytes -> 4 <= wire_length bytes -> wire_length bytes + 1 <= zlen bytes ->
  bytes = message (default 0 (get bytes 0)) (slice bytes 5 (wire_length bytes + 1)) ++
          drop (Z.to_nat (wire_length bytes + 1)) bytes.
Proof.
  intros Hb Hw Hle. set (w := wire_length bytes) in *.
  assert (zlen (slice bytes 5 (w + 1)) = w - 4) as Hp by (rewrite length_slice; lia).
  unfold message. rewrite Hp. replace (4 + (w - 4)) with w by lia.
  assert (to_be 4 w = slice bytes 1 5) as ->.
  { unfold w, wire_length. pose proof (to_be_from_be (slice bytes 1 5)) as H.
    assert (length (slice bytes 1 5) = 4%nat) as H4 by (apply Nat2Z.inj; rewrite length_slice; lia).
    rewrite H4 in H. apply H. unfold slice. by apply Forall_take, Forall_drop. }
  destruct (get_is_Some bytes 0) as [typ Ht]; [lia|].
  rewrite Ht. cbn [default]. rewrite <- app_comm_cons, <- app_assoc, <- slice_all.
  rewrite <- slice_split, <- slice_split by lia.
  pose proof (slice_cons bytes 0 (zlen bytes) typ ltac:(lia) ltac:(lia) Ht) as E.
  rewrite slice_all, drop_0 in E. exact E.
Qed.

(** ** Parsing *)

Context (input : list Z -> Input X) `{!Windows input (Z.max 5 max_frame_bytes)}.

(** The start of a message that is not there as a whole. *)
Definition partial (l : list Z) : Prop :=
  exists m gap, message_wf m /\ gap <> [] /\ message m.1 m.2 = l ++ gap.

Lemma parse_message m rest :
  message_wf m ->
  parse (input (message m.1 m.2 ++ rest)) =
  Ok (Parse.Item (Head.Message m.1 m.2) (zlen (message m.1 m.2))).
Proof.
  intros Hm. unfold message_wf in Hm. unfold parse. rewrite windows_bytes.
  set (l := message m.1 m.2 ++ rest).
  assert (zlen l = 5 + zlen m.2 + zlen rest) as Hl
    by (unfold l; rewrite length_app, Nat2Z.inj_add, length_message; lia).
  assert (wire_length l = 4 + zlen m.2) as Hw by (apply wire_length_message; lia).
  destruct (Z.ltb_spec (zlen l) 5); [lia|]. rewrite Hw.
  destruct (Z.ltb_spec (4 + zlen m.2) 4); [lia|].
  destruct (Z.leb_spec max_frame_bytes (4 + zlen m.2)); [lia|].
  destruct (Z.ltb_spec (zlen l) (4 + zlen m.2 + 1)); [lia|].
  unfold nonzero_succ. rewrite Z.min_l by lia.
  rewrite windows_prefix by lia. apply bind_Ok. eexists. split; [done|]. cbv beta iota.
  rewrite length_message. f_equal. f_equal; [|lia]. f_equal.
  unfold l, message. rewrite <- app_comm_cons, <- app_assoc.
  pose proof (slice_middle (m.1 :: to_be 4 (4 + zlen m.2)) m.2 rest) as E.
  etransitivity; [|exact E]. cbn [length app]. rewrite length_to_be. f_equal; lia.
Qed.

Lemma parse_partial l : partial l -> exists n, parse (input l) = Ok (Parse.More n).
Proof.
  intros ([typ p] & gap & Hm & Hne & E). unfold message_wf in Hm. cbn [fst snd] in *.
  assert (zlen gap <> 0) by (destruct gap; [done|simpl; lia]).
  apply (f_equal (fun l => zlen l)) in E as El.
  rewrite length_message, length_app in El. unfold parse. rewrite windows_bytes.
  assert (forall n, n <= Z.max 5 max_frame_bytes -> exists k, Ok (E := X) (more (input l) n) = Ok (Parse.More k)) as Hn.
  { intros n Hn. unfold more. destruct (windows_need l n Hn) as [k ->]. by eexists. }
  destruct (Z.ltb_spec (zlen l) 5); [apply Hn; lia|].
  assert (wire_length l = 4 + zlen p) as ->.
  { rewrite <- (wire_length_app l gap), <- E by lia. rewrite <- (app_nil_r (message _ _)).
    apply wire_length_message. lia. }
  destruct (Z.ltb_spec (4 + zlen p) 4); [lia|].
  destruct (Z.leb_spec max_frame_bytes (4 + zlen p)); [lia|].
  destruct (Z.ltb_spec (zlen l) (4 + zlen p + 1)); [apply Hn; lia|lia].
Qed.

(** The codec on any window: a message it cuts is spelled at the start of
    the window and admitted by the limit, with exactly its bytes consumed; a
    failure names a length field below four, with the window consumed, or beyond
    the limit, with the header consumed; and it waits exactly when the window is
    the start of no failure, with no message complete. *)
Theorem parse_exact l :
  Forall is_byte l -> zlen l <= u64_max ->
  match parse (input l) with
  | Ok (Parse.Item (Head.Message typ payload) used) =>
      (exists rest, l = message typ payload ++ rest) /\ message_wf (typ, payload) /\
      used = zlen (message typ payload)
  | Ok (Parse.Item (Head.Fatal reason) used) =>
      5 <= zlen l /\
      (wire_length l < 4 /\ reason = Reason.FrameLength (wire_length l) 4 /\ used = zlen l \/
       4 <= wire_length l /\ max_frame_bytes <= wire_length l /\ used = 5 /\
       reason = Reason.FrameCapacity (wire_length l) max_frame_bytes)
  | Ok (Parse.More _) =>
      (zlen l < 5 \/ 4 <= wire_length l < max_frame_bytes) /\
      forall typ payload rest, message_wf (typ, payload) -> l <> message typ payload ++ rest
  | Ok Parse.CapacityExhausted | Err _ => False
  end.
Proof.
  intros Hb H64. unfold parse. rewrite windows_bytes.
  assert (forall n, n <= Z.max 5 max_frame_bytes -> exists k, more (input l) n = Parse.More k) as Hn.
  { intros n Hn. unfold more. destruct (windows_need l n Hn) as [k ->]. by eexists. }
  assert (forall typ p rest, message_wf (typ, p) -> l = message typ p ++ rest ->
    5 <= zlen l /\ wire_length l + 1 <= zlen l) as Hw.
  { intros typ p rest Hm ->. unfold message_wf in Hm. cbn [snd] in Hm.
    rewrite wire_length_message, length_app, Nat2Z.inj_add, length_message by lia. lia. }
  destruct (Z.ltb_spec (zlen l) 5).
  { destruct (Hn 5) as [k ->]; [lia|]. split; [by left|]. intros typ p rest Hm E.
    apply Hw in E; [lia|done]. }
  pose proof (wire_length_range l Hb ltac:(lia)).
  destruct (Z.ltb_spec (wire_length l) 4).
  { unfold nonzero_succ. rewrite Z.min_l, windows_consumed by lia.
    split; [lia|]. left. split_and!; (done || lia). }
  destruct (Z.leb_spec max_frame_bytes (wire_length l)).
  { unfold nonzero_succ. rewrite Z.min_l, windows_consumed by lia.
    split; [lia|]. right. split_and!; (done || lia). }
  destruct (Z.ltb_spec (zlen l) (wire_length l + 1)).
  { destruct (Hn (wire_length l + 1)) as [k ->]; [lia|]. split; [right; lia|].
    intros typ p rest Hm E. apply Hw in E; [lia|done]. }
  unfold nonzero_succ. rewrite Z.min_l, windows_prefix by lia.
  set (w := wire_length l) in *. replace (1 + (w + 1 - 1)) with (w + 1) by lia.
  cbv beta iota delta [mbind result_bind].
  assert (zlen (slice l 5 (w + 1)) = w - 4) by (rewrite length_slice; lia).
  split_and!; [eexists; by apply split_message| |rewrite length_message; lia].
  unfold message_wf. cbn [snd]. lia.
Qed.

(** ** Streams *)

(** The messages of a buffer, as a session cuts them: it parses until the codec
    waits or fails, and keeps what is left. *)
Fixpoint cut (fuel : nat) (buffer : list Z) : list (Z * list Z) * list Z :=
  match fuel with
  | O => ([], buffer)
  | S fuel =>
      match parse (input buffer) with
      | Ok (Parse.Item (Head.Message typ payload) used) =>
          let r := cut fuel (drop (Z.to_nat used) buffer) in ((typ, payload) :: r.1, r.2)
      | _ => ([], buffer)
      end
  end.

(** One arrival: the chunk joins what was left. *)
Definition feed (s : list (Z * list Z) * list Z) (chunk : list Z) : list (Z * list Z) * list Z :=
  let buffer := s.2 ++ chunk in
  let r := cut (S (length buffer)) buffer in (s.1 ++ r.1, r.2).

Definition stream (msgs : list (Z * list Z)) : list Z := concat ((fun m => message m.1 m.2) <$> msgs).

(** Nothing, or the start of a message. *)
Definition remainder (l : list Z) : Prop := l = [] \/ partial l.

Lemma parse_remainder l : remainder l -> exists n, parse (input l) = Ok (Parse.More n).
Proof.
  intros [->|H]; [|by apply parse_partial]. unfold parse. rewrite windows_bytes. cbn.
  unfold more. destruct (windows_need [] 5) as [k ->]; [lia|]. by eexists.
Qed.

Lemma cut_stream msgs tail fuel :
  Forall message_wf msgs -> remainder tail -> (length (stream msgs ++ tail) < fuel)%nat ->
  cut fuel (stream msgs ++ tail) = (msgs, tail).
Proof.
  intros Hm Ht. revert fuel. induction Hm as [|[typ p] msgs Hm Hms IH]; intros [|fuel] Hf; [lia| |lia|].
  - cbn [cut]. destruct (parse_remainder tail Ht) as [n Hn].
    change (stream [] ++ tail) with tail. by rewrite Hn.
  - unfold stream in *. rewrite fmap_cons in *. cbn [concat] in *. rewrite <- app_assoc in *.
    cbn [cut]. rewrite parse_message by done. cbn [fst snd] in *. cbv beta iota zeta.
    rewrite Nat2Z.id, drop_app_length, IH; [done|].
    assert (zlen (message typ p) = 5 + zlen p) by apply length_message.
    rewrite length_app in Hf. lia.
Qed.

(** A start of a stream is some of its messages and a remainder. *)
Lemma stream_prefix msgs tail l gap :
  Forall message_wf msgs -> remainder tail -> l ++ gap = stream msgs ++ tail ->
  exists done_ todo left, msgs = done_ ++ todo /\ l = stream done_ ++ left /\ remainder left /\
    left ++ gap = stream todo ++ tail.
Proof.
  intros Hm Ht. revert l. induction Hm as [|[typ p] msgs Hm Hms IH]; intros l E.
  - exists [], [], l. split_and!; try done. change (stream [] ++ tail) with tail in E. subst tail.
    destruct l as [|b l]; [by left|]. right. destruct Ht as [?|(m & g & Hwf & Hg & Eg)]; [done|].
    exists m, (gap ++ g). split_and!; [done|by destruct gap|by rewrite Eg, <- app_assoc].
  - change (stream ((typ, p) :: msgs)) with (message typ p ++ stream msgs) in *.
    rewrite <- app_assoc in E. destruct (le_lt_dec (length (message typ p)) (length l)) as [Hle|Hlt].
    + apply (f_equal (take (length (message typ p)))) in E as E1.
      apply (f_equal (drop (length (message typ p)))) in E.
      rewrite take_app_le, take_app_length in E1 by done.
      rewrite drop_app_le, drop_app_length in E by done.
      destruct (IH _ E) as (d & todo & left & -> & El & Hl & Eg).
      exists ((typ, p) :: d), todo, left. split_and!; try done.
      change (stream ((typ, p) :: d)) with (message typ p ++ stream d).
      rewrite <- app_assoc, <- El. rewrite <- E1 at 1. by rewrite take_drop.
    + exists [], ((typ, p) :: msgs), l. split_and!; try done.
      * destruct l as [|b l]; [by left|]. right. set (w := b :: l) in *.
        exists (typ, p), (drop (length w) (message typ p)). split_and!; [done| |].
        -- intros En. apply (f_equal length) in En. rewrite length_drop, length_nil in En. cbn [fst snd] in En. lia.
        -- cbn [fst snd]. apply (f_equal (take (length w))) in E.
           rewrite take_app_length, take_app_le in E by lia.
           rewrite <- (take_drop (length w) (message typ p)) at 1. by rewrite <- E.
      * change (stream ((typ, p) :: msgs)) with (message typ p ++ stream msgs). by rewrite <- app_assoc.
Qed.

Lemma feed_stream chunks msgs tail acc left :
  Forall message_wf msgs -> remainder tail -> remainder left ->
  left ++ concat chunks = stream msgs ++ tail ->
  fold_left feed chunks (acc, left) = (acc ++ msgs, tail).
Proof.
  revert msgs acc left. induction chunks as [|c chunks IH]; intros msgs acc left Hm Ht Hl E.
  - cbn [concat] in E. rewrite app_nil_r in E.
    pose proof (cut_stream [] left (S (length left)) (List.Forall_nil _) Hl ltac:(simpl; lia)) as E1.
    change (stream [] ++ left) with left in E1. rewrite E in E1 at 2.
    rewrite cut_stream in E1 by (rewrite <- ?E; (done || lia)). injection E1 as -> ->.
    by rewrite app_nil_r.
  - cbn [concat] in E. rewrite app_assoc in E.
    destruct (stream_prefix _ _ _ _ Hm Ht E) as (d & todo & left' & -> & Eb & Hl' & Eg).
    apply Forall_app in Hm as [Hd Htodo]. cbn [fold_left]. unfold feed at 2. cbn [fst snd].
    rewrite Eb, cut_stream by (done || lia). cbn [fst snd]. rewrite IH with (msgs := todo) by done.
    by rewrite app_assoc.
Qed.

Lemma stream_feeds chunks msgs tail :
  Forall message_wf msgs -> remainder tail -> concat chunks = stream msgs ++ tail ->
  fold_left feed chunks ([], []) = (msgs, tail).
Proof.
  intros Hm Ht E. apply (feed_stream chunks msgs tail [] [] Hm Ht); [by left|exact E].
Qed.

(** C18. However the bytes of a stream are cut into arrivals, the session
    delivers exactly its messages, in order, and keeps exactly the unfinished
    remainder. *)
Theorem stream_cut_anywhere chunks msgs tail :
  Forall message_wf msgs -> remainder tail -> concat chunks = stream msgs ++ tail ->
  fold_left feed chunks ([], []) = (msgs, tail).
Proof.
  intros Hm Ht E. apply (feed_stream chunks msgs tail [] [] Hm Ht); [by left|exact E].
Qed.
End codec.

(** ** Witnesses *)

Definition sample_stream : list Z :=
  message 90 (bytes_of "I") ++ message 67 (bytes_of "SELECT 1") ++ take 3 (message 68 (bytes_of "row")).

Lemma parse_exact_witness :
  Forall is_byte sample_stream /\
  parse 64 (window sample_stream) = Ok (Parse.Item (Head.Message 90 (bytes_of "I")) 6) /\
  exists rest, sample_stream = message 90 (bytes_of "I") ++ rest.
Proof.
  assert (Forall is_byte sample_stream) as Hb by by apply byte_check_ok.
  split; [exact Hb|]. split; [reflexivity|].
  exact (proj1 (parse_exact 64 ltac:(lia) window sample_stream Hb ltac:(vm_compute; discriminate))).
Defined.

Lemma stream_cut_anywhere_witness :
  fold_left (feed 64 window) [take 3 sample_stream; []; drop 3 sample_stream] ([], []) =
  ([(90, bytes_of "I"); (67, bytes_of "SELECT 1")], take 3 (message 68 (bytes_of "row"))).
Proof.
  apply (stream_cut_anywhere 64 ltac:(lia) window).
  - repeat constructor.
  - right. exists (68, bytes_of "row"), (drop 3 (message 68 (bytes_of "row"))).
    split_and!; [reflexivity|discriminate|reflexivity].
  - reflexivity.
Defined.
