(* ===== verification/PgHash.v ===== *)
(** * The hash of SCRAM: streaming SHA-256, HMAC and the key derivation

    Models the hashing of [pg/src/protocol/scram/mod.rs] ([Sha256], [pad],
    [hmac], [write_state], [Keys::write], [hmac_auth_message]) and the derivation
    rounds of [pg/src/protocol/scram/kdf.rs] ([Kdf::advance]). The compression
    function is the [sha2] library's and stays a parameter: everything the code
    adds to it - buffering, padding, keying, chunked iteration - is defined here
    and proved equal to the one-shot definitions of FIPS 180-4, RFC 2104 and
    RFC 8018. *)
From Stdlib Require Import ZifyNat.
From S2P Require Import Prelude.

(** Lengths are counted in blocks. *)
#[local] Ltac Zify.zify_post_hook ::= Z.to_euclidean_division_equations.

(** The words of a hash state: [[u32; 8]]. *)
Definition words_wf (st : list Z) : Prop :=
  length st = 8%nat /\ Forall (fun w => 0 <= w <= u32_max) st.

(** [compress256] on one block keeps the shape of the state. *)
Class CompressLaws (compress : list Z -> list Z -> list Z) : Prop := {
  compress_wf st block :
    words_wf st -> length block = 64%nat -> words_wf (compress st block) }.

(** [block[at..at + bytes.len()].copy_from_slice(bytes)]. *)
Definition copy_at (block : list Z) (at_ : Z) (bytes : list Z) : list Z :=
  take (Z.to_nat at_) block ++ bytes ++ drop (Z.to_nat at_ + length bytes) block.

Definition IV : list Z :=
  [0x6a09e667; 0xbb67ae85; 0x3c6ef372; 0xa54ff53a; 0x510e527f; 0x9b05688c; 0x1f83d9ab; 0x5be0cd19].

Definition PROOF_BYTES : Z := 44.

Definition CLIENT_NONCE_BYTES : Z := 24.

(** The first [n] blocks of 64 bytes. *)
Fixpoint blocks (n : nat) (l : list Z) : list (list Z) :=
  match n with
  | O => []
  | S n => take 64 l :: blocks n (drop 64 l)
  end.

(** [as_chunks::<64>]. *)
Definition as_chunks (l : list Z) : list (list Z) * list Z :=
  let n := (length l / 64)%nat in (blocks n l, drop (64 * n) l).

Definition xor_bytes (l k : list Z) : list Z := zip_with Z.lxor l k.

Section hash.
  Context (compress : list Z -> list Z -> list Z).

(** [compress256(state, blocks)]. *)
Definition compress256 (state : list Z) (blocks : list (list Z)) : list Z :=
  fold_left compress blocks state.

Record Sha256 := { sha_state : list Z; sha_block : list Z; sha_len : Z }.

(** [Sha256::new]. *)
Definition sha_new (len : Z) : Sha256 :=
  {| sha_state := IV; sha_block := replicate 64 0; sha_len := len |}.

(** The whole blocks of the input, and its tail kept at the start of the block. *)
Definition update_blocks (state block input : list Z) (len : Z) : Sha256 :=
  let '(blocks, tail) := as_chunks input in
  let state := match blocks with [] => state | _ => compress256 state blocks end in
  {| sha_state := state; sha_block := copy_at block 0 tail; sha_len := len |}.

(** [Sha256::update]. *)
Definition update (h : Sha256) (input : list Z) : Sha256 :=
  let pos := Z.land (sha_len h) 63 in
  let len := as_u64 (sha_len h + zlen input) in
  if negb (pos =? 0) then
    let n := Z.min (64 - pos) (zlen input) in
    let block := copy_at (sha_block h) pos (take (Z.to_nat n) input) in
    let input := drop (Z.to_nat n) input in
    if negb (pos + n =? 64) then {| sha_state := sha_state h; sha_block := block; sha_len := len |}
    else update_blocks (compress256 (sha_state h) [block]) block input len
  else update_blocks (sha_state h) (sha_block h) input len.

Definition pad (state block : list Z) (len : Z) : list Z * list Z :=
  let pos := Z.land len 63 in
  let block := copy_at block pos [0x80] in
  let block := take (Z.to_nat (pos + 1)) block ++ replicate (Z.to_nat (63 - pos)) 0 in
  let '(state, block) :=
    if 56 <=? pos then (compress256 state [block], replicate 64 0) else (state, block) in
  (state, copy_at block 56 (to_be 8 (as_u64 (len * 8)))).

(** [Sha256::finalize]. *)
Definition finalize (h : Sha256) : Sha256 :=
  let '(state, block) := pad (sha_state h) (sha_block h) (sha_len h) in
  {| sha_state := compress256 state [block]; sha_block := block; sha_len := sha_len h |}.

Definition write_state (state output : list Z) : list Z :=
  copy_at output 0 (concat (to_be 4 <$> state)).

(** [Sha256::hmac]: the state is left finalized under [outer]. *)
Definition sha_hmac (h : Sha256) (outer output : list Z) : Sha256 * list Z :=
  let h := finalize h in
  let h := finalize
    {| sha_state := outer; sha_block := write_state (sha_state h) (sha_block h); sha_len := 96 |} in
  (h, write_state (sha_state h) output).

(** [scram::hmac]: the two keyed states. *)
Definition hmac (key inner outer : list Z) : list Z * list Z :=
  let block := replicate 64 0 in
  let block :=
    if 64 <? zlen key then write_state (sha_state (finalize (update (sha_new 0) key))) block
    else copy_at block 0 key in
  let block := (fun b => Z.lxor b 0x36) <$> block in
  let inner := compress256 inner [block] in
  let block := (fun b => Z.lxor b (Z.lxor 0x36 0x5c)) <$> block in
  let outer := compress256 outer [block] in
  (inner, outer).

(** [Secret32::new([0; 32])]. *)
Definition secret32_new : list Z := replicate 32 0.

Record Keys := { client : list Z; stored : list Z; server : list Z }.

(** [Keys::write]. *)
Definition keys_write (inner outer : list Z) : Keys :=
  let hash := sha_new 64 in
  let hash := {| sha_state := inner; sha_block := sha_block hash; sha_len := sha_len hash |} in
  let hash := update hash (bytes_of "Client Key") in
  let '(hash, client) := sha_hmac hash outer secret32_new in
  let hash := {| sha_state := inner; sha_block := sha_block hash; sha_len := 64 |} in
  let hash := update hash (bytes_of "Server Key") in
  let '(hash, server) := sha_hmac hash outer secret32_new in
  let hash := {| sha_state := IV; sha_block := sha_block hash; sha_len := 0 |} in
  let hash := update hash client in
  let hash := finalize hash in
  {| client := client; stored := write_state (sha_state hash) secret32_new; server := server |}.

Definition hmac_auth_message (key client first server : list Z) : list Z :=
  let mac := sha_new 64 in
  let '(state, outer) := hmac key (sha_state mac) IV in
  let mac := {| sha_state := state; sha_block := sha_block mac; sha_len := sha_len mac |} in
  let mac := update mac (bytes_of "n=,r=") in
  let mac := update mac client in
  let mac := update mac (bytes_of ",") in
  let mac := update mac first in
  let mac := update mac (bytes_of ",c=biws,r=") in
  let mac := update mac server in
  (sha_hmac mac outer secret32_new).2.

(** ** Derivation rounds *)

Definition ITERATIONS_PER_POLL : Z := 256.

Record Kdf := { prf : list Z * list Z; previous : list Z; output : list Z; remaining : Z }.

(** One [for seed in &self.prf] step: the keyed state compresses the block, whose
    first half becomes its digest. *)
Definition prf_step (seed : list Z) (sb : list Z * list Z) : list Z * list Z :=
  let state := compress256 seed [sb.2] in (state, write_state state sb.2).

(** [iter::zip(output.as_chunks_mut::<4>(), state)] of the output. *)
Fixpoint xor_words (output state : list Z) : list Z :=
  match state with
  | [] => output
  | w :: state =>
      to_be 4 (Z.lxor (from_be (take 4 output)) w) ++ xor_words (drop 4 output) state
  end.

Fixpoint kdf_rounds (rounds : nat) (prf : list Z * list Z) (state block output : list Z)
    : list Z * list Z * list Z :=
  match rounds with
  | O => (state, block, output)
  | S rounds =>
      let '(state, block) := prf_step prf.2 (prf_step prf.1 (state, block)) in
      kdf_rounds rounds prf state block (xor_words output state)
  end.

(** [Kdf::advance]. *)
Definition advance (k : Kdf) : Kdf * option (list Z) :=
  let rounds := Z.min (remaining k) ITERATIONS_PER_POLL in
  let block := copy_at (replicate 64 0) 0 (previous k) in
  let '(state, block) := pad (replicate 8 0) block 96 in
  let '(_, block, output) := kdf_rounds (Z.to_nat rounds) (prf k) state block (output k) in
  let k := {| prf := prf k; previous := take 32 block; output := output;
              remaining := remaining k - rounds |} in
  (k, if remaining k =? 0 then Some output else None).

(** ** Specification *)

(** The state after all blocks of [l]. *)
Definition absorb (st l : list Z) : list Z := fold_left compress (as_chunks l).1 st.

(** FIPS 180-4 5.1.1: the padding of a message of [n] bytes. *)
Definition padding (n : nat) : list Z :=
  0x80 :: replicate ((119 - n mod 64) mod 64) 0 ++ to_be 8 (Z.of_nat n * 8).

Definition digest_of (st : list Z) : list Z := concat (to_be 4 <$> st).

Definition sha256 (msg : list Z) : list Z := digest_of (absorb IV (msg ++ padding (length msg))).

(** RFC 2104 over blocks of 64 bytes. *)
Definition hmac_key (key : list Z) : list Z :=
  let k := if 64 <? zlen key then sha256 key else key in k ++ replicate (64 - length k) 0.

Definition ipad (key : list Z) : list Z := (fun b => Z.lxor b 0x36) <$> hmac_key key.

Definition opad (key : list Z) : list Z := (fun b => Z.lxor b 0x5c) <$> hmac_key key.

Definition hmac_sha256 (key msg : list Z) : list Z :=
  sha256 (opad key ++ sha256 (ipad key ++ msg)).

(** RFC 5802 [Hi], the single block of PBKDF2: [U_1] is given, and [n] more
    rounds are folded in. *)
Fixpoint hi_rounds (n : nat) (key u acc : list Z) : list Z :=
  match n with
  | O => acc
  | S n => let u := hmac_sha256 key u in hi_rounds n key u (xor_bytes acc u)
  end.

Definition hi (key salt : list Z) (iterations : Z) : list Z :=
  let u := hmac_sha256 key (salt ++ to_be 4 1) in hi_rounds (Z.to_nat (iterations - 1)) key u u.

(** ** Blocks *)

Lemma blocks_app n m a b :
  length a = (64 * n)%nat -> blocks (n + m) (a ++ b) = blocks n a ++ blocks m b.
Proof.
  revert a. induction n as [|n IH]; intros a Ha; cbn [blocks Nat.add].
  - by destruct a.
  - rewrite take_app_le, drop_app_le by lia. cbn [app]. f_equal. apply IH. rewrite length_drop. lia.
Qed.

Lemma absorb_app st a b :
  (length a mod 64 = 0)%nat -> absorb st (a ++ b) = absorb (absorb st a) b.
Proof.
  intros Ha. unfold absorb, as_chunks. cbn [fst]. rewrite length_app.
  replace ((length a + length b) / 64)%nat with (length a / 64 + length b / 64)%nat by lia.
  rewrite blocks_app by lia. by rewrite fold_left_app.
Qed.

Lemma absorb_block st b : length b = 64%nat -> absorb st b = compress st b.
Proof.
  intros Hb. unfold absorb, as_chunks. rewrite Hb.
  change (64 / 64)%nat with 1%nat. cbn [fst blocks fold_left]. by rewrite take_ge by lia.
Qed.

Lemma absorb_short st b : (length b < 64)%nat -> absorb st b = st.
Proof.
  intros Hb. unfold absorb, as_chunks. by rewrite Nat.div_small by lia.
Qed.

Lemma absorb_take st n l :
  (64 * n <= length l)%nat -> absorb st (take (64 * n) l) = fold_left compress (blocks n l) st.
Proof.
  intros Hn. unfold absorb, as_chunks. cbn [fst].
  assert (length (take (64 * n) l) = 64 * n)%nat as E by (rewrite length_take; lia).
  rewrite E. replace (64 * n / 64)%nat with n by lia. f_equal.
  rewrite <- (take_drop (64 * n) l) at 2.
  pose proof (blocks_app n 0 (take (64 * n) l) (drop (64 * n) l) E) as F.
  rewrite Nat.add_0_r in F. cbn [blocks] in F. by rewrite F, app_nil_r.
Qed.

Lemma length_copy_at block at_ bytes :
  0 <= at_ -> (Z.to_nat at_ + length bytes <= length block)%nat ->
  length (copy_at block at_ bytes) = length block.
Proof. intros. unfold copy_at. rewrite !length_app, length_take, length_drop. lia. Qed.

Lemma take_copy_at block at_ bytes :
  0 <= at_ -> (Z.to_nat at_ <= length block)%nat ->
  take (Z.to_nat at_ + length bytes) (copy_at block at_ bytes) = take (Z.to_nat at_) block ++ bytes.
Proof.
  intros. unfold copy_at. rewrite app_assoc. apply take_app_length'.
  rewrite length_app, length_take. lia.
Qed.

Lemma copy_at_head block bytes : copy_at block 0 bytes = bytes ++ drop (length bytes) block.
Proof. done. Qed.

Lemma copy_at_0_full block bytes :
  (length bytes = length block)%nat -> copy_at block 0 bytes = bytes.
Proof. intros E. unfold copy_at. simpl. rewrite drop_ge by lia. by rewrite app_nil_r. Qed.

Lemma land_63 n : Z.land (as_u64 (Z.of_nat n)) 63 = Z.of_nat (n mod 64).
Proof.
  change 63 with (Z.ones 6). rewrite Z.land_ones by lia. unfold as_u64.
  change (2 ^ 6) with 64. lia.
Qed.

(** ** Streaming *)

(** What a hasher that started at [st0] with [n0] bytes before has absorbed. *)
Definition absorbed (h : Sha256) (st0 : list Z) (n0 : nat) (msg : list Z) : Prop :=
  (n0 mod 64 = 0)%nat /\ length (sha_block h) = 64%nat /\
  sha_len h = as_u64 (Z.of_nat (n0 + length msg)) /\
  exists whole part, msg = whole ++ part /\ (length whole mod 64 = 0)%nat /\ (length part < 64)%nat /\
    sha_state h = absorb st0 whole /\ take (length part) (sha_block h) = part.

Lemma absorbed_init st0 n0 block :
  (n0 mod 64 = 0)%nat -> length block = 64%nat ->
  absorbed {| sha_state := st0; sha_block := block; sha_len := as_u64 (Z.of_nat n0) |} st0 n0 [].
Proof.
  intros. split_and!; [done|done|by rewrite Nat.add_0_r|].
  exists [], []. split_and!; (done || simpl; lia).
Qed.

Lemma update_blocks_absorbed st0 n0 whole block input :
  (n0 mod 64 = 0)%nat -> (length whole mod 64 = 0)%nat -> length block = 64%nat ->
  absorbed (update_blocks (absorb st0 whole) block input
    (as_u64 (Z.of_nat (n0 + length (whole ++ input))))) st0 n0 (whole ++ input).
Proof.
  intros Hn Hw Hb. unfold update_blocks, as_chunks.
  set (n := (length input / 64)%nat). set (tail := drop (64 * n) input).
  assert (length tail = (length input mod 64)%nat) as Ht by (unfold tail; rewrite length_drop; lia).
  assert (match blocks n input with [] => absorb st0 whole | _ => compress256 (absorb st0 whole) (blocks n input) end
    = absorb st0 (whole ++ take (64 * n) input)) as ->.
  { rewrite absorb_app, absorb_take by (done || lia). by destruct (blocks n input). }
  assert (length (copy_at block 0 tail) = 64%nat) as Hc by (rewrite length_copy_at; lia).
  split_and!; [done|exact Hc|done|].
  exists (whole ++ take (64 * n) input), tail. cbn [sha_state sha_block]. split_and!; [|rewrite length_app, length_take; lia|lia|done|].
  - unfold tail. by rewrite <- app_assoc, take_drop.
  - apply (take_copy_at block 0 tail); simpl; lia.
Qed.

Lemma update_absorbed h st0 n0 msg input :
  absorbed h st0 n0 msg -> absorbed (update h input) st0 n0 (msg ++ input).
Proof.
  intros (Hn & Hb & Hl & whole & part & -> & Hw & Hp & Hs & Ht). unfold update. rewrite Hl.
  assert (as_u64 (as_u64 (Z.of_nat (n0 + length (whole ++ part))) + zlen input) =
    as_u64 (Z.of_nat (n0 + length ((whole ++ part) ++ input)))) as ->.
  { unfold as_u64. rewrite Z.add_mod_idemp_l by lia. f_equal. rewrite !length_app. lia. }
  rewrite land_63. assert ((n0 + length (whole ++ part)) mod 64 = length part)%nat as ->
    by (rewrite length_app; lia).
  destruct (Z.eqb_spec (Z.of_nat (length part)) 0) as [E|E]; cbn [negb].
  { assert (part = []) as -> by (destruct part; [done|simpl in E; lia]).
    rewrite app_nil_r, Hs. by apply update_blocks_absorbed. }
  set (n := Z.to_nat (Z.min (64 - zlen part) (zlen input))).
  assert (Z.of_nat n = Z.min (64 - zlen part) (zlen input)) as En by lia.
  replace (zlen part + Z.min (64 - zlen part) (zlen input)) with (Z.of_nat (length part + n)) by lia.
  clearbody n.
  set (block := copy_at (sha_block h) (zlen part) (take n input)).
  assert (length block = 64%nat) as Hb'.
  { unfold block. rewrite length_copy_at; rewrite ?length_take; lia. }
  assert (take (length part + n) block = part ++ take n input) as Hfill.
  { pose proof (take_copy_at (sha_block h) (zlen part) (take n input) ltac:(lia) ltac:(lia)) as F.
    rewrite Nat2Z.id, Ht, length_take_le in F by lia. exact F. }
  destruct (Z.eqb_spec (Z.of_nat (length part + n)) 64) as [F|F]; cbn [negb].
  - assert ((whole ++ part) ++ input = (whole ++ part ++ take n input) ++ drop n input) as ->
      by by rewrite <- !app_assoc, take_drop.
    rewrite take_ge in Hfill by lia. rewrite Hfill.
    assert (length (part ++ take n input) = 64%nat) as H64 by (rewrite length_app, length_take; lia).
    cbn [compress256 fold_left]. rewrite <- absorb_block, Hs, <- absorb_app by done.
    apply (update_blocks_absorbed st0 n0 (whole ++ part ++ take n input)); [done| |done].
    rewrite length_app, H64. lia.
  - assert (n = length input) as -> by lia. rewrite firstn_all in *.
    split_and!; [done|done|done|]. exists whole, (part ++ input).
    split_and!; [by rewrite app_assoc|done|rewrite length_app; lia|done|].
    by rewrite length_app.
Qed.

(** ** Padding *)

Lemma length_padding_tail n : length (to_be 8 (as_u64 (n * 8))) = 8%nat.
Proof. apply length_to_be. Qed.

Lemma to_be_mod n x : to_be n (x mod 256 ^ Z.of_nat n) = to_be n x.
Proof.
  revert x. induction n as [|n IH]; intros x; [done|]. cbn [to_be].
  rewrite Nat2Z.inj_succ, Z.pow_succ_r by lia.
  assert (0 < 256 ^ Z.of_nat n) by lia.
  rewrite Z.rem_mul_r by lia. f_equal.
  - rewrite <- (IH (x / 256)). f_equal.
    rewrite Z.add_comm, Z.mul_comm, Z.div_add_l by lia.
    rewrite (Z.div_small (x mod 256)) by lia. by rewrite Z.add_0_r.
  - f_equal. rewrite Z.mul_comm, Z.mod_add by lia. by rewrite Z.mod_mod by lia.
Qed.

Lemma to_be_bits n : to_be 8 (as_u64 (as_u64 n * 8)) = to_be 8 (n * 8).
Proof.
  rewrite <- (to_be_mod 8 (as_u64 _)), <- (to_be_mod 8 (n * 8)). f_equal.
  change (256 ^ Z.of_nat 8) with (2 ^ 64). unfold as_u64.
  by rewrite Z.mod_mod, Z.mul_mod_idemp_l by lia.
Qed.

Lemma pad_marks part block :
  (length part < 64)%nat -> length block = 64%nat -> take (length part) block = part ->
  take (Z.to_nat (zlen part + 1)) (copy_at block (zlen part) [0x80]) ++
    replicate (Z.to_nat (63 - zlen part)) 0 =
  part ++ 0x80 :: replicate (63 - length part) 0.
Proof.
  intros Hp Hb Ht. replace (Z.to_nat (zlen part + 1)) with (Z.to_nat (zlen part) + length [0x80%Z])%nat by (simpl; lia).
  rewrite take_copy_at by lia. rewrite Nat2Z.id, Ht, <- app_assoc. cbn [app].
  do 3 f_equal. lia.
Qed.

Lemma pad_absorb st0 n whole part block :
  (length whole mod 64 = 0)%nat -> (length part < 64)%nat -> length block = 64%nat ->
  take (length part) block = part -> (n mod 64 = length part)%nat ->
  let r := pad (absorb st0 whole) block (as_u64 (Z.of_nat n)) in
  length r.2 = 64%nat /\
  compress256 r.1 [r.2] = absorb st0 ((whole ++ part) ++ padding n).
Proof.
  intros Hw Hp Hb Ht Hn. cbv zeta. unfold pad. rewrite land_63, Hn, to_be_bits, pad_marks by done.
  set (marked := part ++ 0x80 :: replicate (63 - length part) 0).
  assert (length marked = 64%nat) as Hm
    by (unfold marked; rewrite length_app; cbn [length]; rewrite length_replicate; lia).
  assert (forall b, length b = 64%nat -> copy_at b 56 (to_be 8 (Z.of_nat n * 8)) =
    take 56 b ++ to_be 8 (Z.of_nat n * 8)) as Hcopy.
  { intros b Hlb. unfold copy_at. rewrite length_to_be. change (Z.to_nat 56) with 56%nat.
    by rewrite (drop_ge b), app_nil_r by lia. }
  unfold padding. rewrite Hn. destruct (Z.leb_spec 56 (zlen part)) as [L|L].
  - cbn [fst snd]. rewrite Hcopy by (by rewrite length_replicate). rewrite take_replicate.
    split; [rewrite length_app, length_replicate, length_to_be; lia|].
    cbn [compress256 fold_left].
    assert ((whole ++ part) ++ 0x80 :: replicate ((119 - length part) mod 64) 0 ++ to_be 8 (Z.of_nat n * 8) =
      (whole ++ marked) ++ (replicate 56 0 ++ to_be 8 (Z.of_nat n * 8))) as ->.
    { unfold marked. rewrite <- !app_assoc. f_equal. f_equal. cbn [app]. f_equal.
      rewrite app_assoc, <- replicate_add. f_equal. f_equal. lia. }
    rewrite absorb_app, (absorb_app _ whole) by (rewrite ?length_app; lia).
    rewrite (absorb_block _ marked), (absorb_block _ (replicate 56 0 ++ _)) by
      (rewrite ?length_app, ?length_replicate, ?length_to_be; lia).
    done.
  - cbn [fst snd]. rewrite Hcopy by done.
    assert (take 56 marked = part ++ 0x80 :: replicate (55 - length part) 0) as ->.
    { unfold marked. rewrite take_app_ge by lia. f_equal.
      replace (56 - length part)%nat with (S (55 - length part)) by lia. cbn [take]. f_equal.
      rewrite take_replicate. f_equal. lia. }
    rewrite <- app_assoc. cbn [app].
    split; [rewrite length_app; cbn [length]; rewrite length_app, length_replicate, length_to_be; lia|].
    rewrite <- (app_assoc whole).
    assert ((119 - length part) mod 64 = 55 - length part)%nat as -> by lia.
    rewrite absorb_app by done. rewrite (absorb_block _ (part ++ _)); [done|].
    rewrite length_app; cbn [length]; rewrite length_app, length_replicate, length_to_be; lia.
Qed.

Lemma finalize_absorbed h st0 n0 msg :
  absorbed h st0 n0 msg ->
  sha_state (finalize h) = absorb st0 (msg ++ padding (n0 + length msg)) /\
  length (sha_block (finalize h)) = 64%nat.
Proof.
  intros (Hn & Hb & Hl & whole & part & -> & Hw & Hp & Hs & Ht). unfold finalize.
  rewrite Hl, Hs.
  pose proof (pad_absorb st0 (n0 + length (whole ++ part)) whole part (sha_block h) Hw Hp Hb Ht) as H.
  destruct H as [H1 H2]; [rewrite length_app; lia|].
  destruct (pad _ _ _) as [st b]. by split.
Qed.

Lemma updates_absorbed pieces h st0 n0 msg :
  absorbed h st0 n0 msg -> absorbed (fold_left update pieces h) st0 n0 (msg ++ concat pieces).
Proof.
  revert h msg. induction pieces as [|p pieces IH]; intros h msg H; cbn [fold_left concat].
  - by rewrite app_nil_r.
  - rewrite app_assoc. by apply IH, update_absorbed.
Qed.

Lemma streamed pieces :
  digest_of (sha_state (finalize (fold_left update pieces (sha_new 0)))) = sha256 (concat pieces).
Proof.
  pose proof (absorbed_init IV 0 (replicate 64 0) eq_refl eq_refl) as H.
  apply (updates_absorbed pieces), finalize_absorbed in H as [H _].
  change (sha_new 0) with {| sha_state := IV; sha_block := replicate 64 0; sha_len := as_u64 (Z.of_nat 0) |}.
  by rewrite H.
Qed.

(** C28. Streaming is invisible: however a message is cut into pieces, the hasher
    ends in the digest of the whole message, as FIPS 180-4 defines it. *)
Theorem digest_streams pieces :
  digest_of (sha_state (finalize (fold_left update pieces (sha_new 0)))) = sha256 (concat pieces).
Proof. apply streamed. Qed.

(** ** Keyed hashing *)

Section keyed.
Context `{!CompressLaws compress}.

Lemma IV_wf : words_wf IV.
Proof. split; [done|]. repeat constructor; (lia || done). Qed.

Lemma absorb_wf st l : words_wf st -> words_wf (absorb st l).
Proof.
  unfold absorb, as_chunks. cbn [fst]. set (n := (length l / 64)%nat).
  assert (64 * n <= length l)%nat as Hn by lia. clearbody n. revert st l Hn.
  induction n as [|n IH]; intros st l Hn Hs; [done|]. cbn [blocks fold_left].
  apply IH; [rewrite length_drop; lia|]. apply compress_wf; [done|]. rewrite length_take. lia.
Qed.

Lemma length_digest st : words_wf st -> length (digest_of st) = 32%nat.
Proof.
  intros [Hl _]. unfold digest_of. do 9 (destruct st as [|? st]; [try discriminate Hl|]); [|discriminate Hl].
  done.
Qed.

Lemma length_sha256 msg : length (sha256 msg) = 32%nat.
Proof. apply length_digest, absorb_wf, IV_wf. Qed.

Lemma length_hmac_key key : length (hmac_key key) = 64%nat.
Proof.
  unfold hmac_key. destruct (Z.ltb_spec 64 (zlen key)); rewrite length_app, length_replicate.
  - by rewrite length_sha256.
  - lia.
Qed.

(** The two states [hmac] leaves are those after the padded keys. *)
Lemma hmac_states key :
  hmac key IV IV = (absorb IV (ipad key), absorb IV (opad key)).
Proof.
  unfold hmac. set (block := if 64 <? zlen key then _ else _).
  assert (block = hmac_key key) as ->.
  { unfold block, hmac_key. destruct (Z.ltb_spec 64 (zlen key)).
    - pose proof (streamed [key]) as E. cbn [fold_left concat] in E. rewrite app_nil_r in E.
      unfold digest_of in E. unfold write_state, copy_at. rewrite E.
      cbn [take app]. by rewrite drop_replicate.
    - unfold copy_at. cbn [take app]. by rewrite drop_replicate. }
  unfold ipad, opad. rewrite <- list_fmap_compose. f_equal.
  - rewrite absorb_block by (rewrite length_fmap; apply length_hmac_key). done.
  - rewrite absorb_block by (rewrite length_fmap; apply length_hmac_key). cbn [compress256 fold_left].
    f_equal. apply list_fmap_ext. intros _ b _. cbn [compose].
    rewrite <- Z.lxor_assoc, (Z.lxor_assoc b), Z.lxor_nilpotent, Z.lxor_0_r. done.
Qed.

Lemma length_ipad key : length (ipad key) = 64%nat.
Proof. unfold ipad. by rewrite length_fmap, length_hmac_key. Qed.

Lemma length_opad key : length (opad key) = 64%nat.
Proof. unfold opad. by rewrite length_fmap, length_hmac_key. Qed.

(** Absorbing a keyed message and its padding is hashing the block and the message. *)
Lemma digest_keyed block msg :
  length block = 64%nat ->
  digest_of (absorb (absorb IV block) (msg ++ padding (64 + length msg))) = sha256 (block ++ msg).
Proof.
  intros Hb. unfold sha256. rewrite length_app, Hb, <- app_assoc, (absorb_app _ block) by lia. done.
Qed.

Lemma sha_hmac_mac h key msg out :
  absorbed h (absorb IV (ipad key)) 64 msg -> length out = 32%nat ->
  (sha_hmac h (absorb IV (opad key)) out).2 = hmac_sha256 key msg /\
  length (sha_block (sha_hmac h (absorb IV (opad key)) out).1) = 64%nat.
Proof.
  intros H Ho. apply finalize_absorbed in H as [Hs Hb].
  assert (digest_of (sha_state (finalize h)) = sha256 (ipad key ++ msg)) as Hd
    by (rewrite Hs; apply digest_keyed, length_ipad).
  unfold sha_hmac. assert (forall b, write_state (sha_state (finalize h)) b = copy_at b 0 (sha256 (ipad key ++ msg))) as ->
    by (intros b; unfold write_state; by rewrite <- Hd).
  set (d := sha256 (ipad key ++ msg)). assert (length d = 32%nat) as Ld by apply length_sha256.
  set (h2 := {| sha_state := _; sha_block := _; sha_len := _ |}).
  assert (absorbed h2 (absorb IV (opad key)) 64 d) as H2.
  { unfold h2. split_and!; [done|cbn [sha_block]; rewrite length_copy_at; lia|cbn [sha_len]; by rewrite Ld|].
    exists [], d. cbn [sha_block sha_state]. split_and!; [done|done|lia|done|].
    apply (take_copy_at _ 0 d); simpl; lia. }
  apply finalize_absorbed in H2 as [H2 H2b]. cbn [fst snd]. split; [|exact H2b].
  unfold write_state. fold (digest_of (sha_state (finalize h2))).
  rewrite H2, digest_keyed by apply length_opad. fold (hmac_sha256 key msg).
  apply copy_at_0_full. unfold hmac_sha256. by rewrite length_sha256.
Qed.

(** A hasher restarted under the padded key has absorbed nothing. *)
Lemma absorbed_keyed key block :
  length block = 64%nat ->
  absorbed {| sha_state := absorb IV (ipad key); sha_block := block; sha_len := 64 |}
    (absorb IV (ipad key)) 64 [].
Proof. intros H. by apply (absorbed_init (absorb IV (ipad key)) 64 block). Qed.

Lemma mac_pieces key block pieces :
  length block = 64%nat ->
  (sha_hmac (fold_left update pieces
      {| sha_state := absorb IV (ipad key); sha_block := block; sha_len := 64 |})
    (absorb IV (opad key)) secret32_new).2 = hmac_sha256 key (concat pieces).
Proof.
  intros Hb. pose proof (updates_absorbed pieces _ _ _ _ (absorbed_keyed key block Hb)) as H.
  rewrite app_nil_l in H. exact (proj1 (sha_hmac_mac _ key _ secret32_new H eq_refl)).
Qed.

Lemma hmac_auth_message_pieces key client first server :
  hmac_auth_message key client first server =
  (sha_hmac (fold_left update
      [bytes_of "n=,r="; client; bytes_of ","; first; bytes_of ",c=biws,r="; server]
      {| sha_state := (hmac key IV IV).1; sha_block := replicate 64 0; sha_len := 64 |})
    (hmac key IV IV).2 secret32_new).2.
Proof.
  unfold hmac_auth_message, sha_new. cbn [sha_state sha_block sha_len].
  destruct (hmac key IV IV) as [inner outer]. cbn [fold_left fst snd]. reflexivity.
Qed.

Lemma authenticated key client first server :
  hmac_auth_message key client first server =
  hmac_sha256 key (bytes_of "n=,r=" ++ client ++ bytes_of "," ++ first ++
                   bytes_of ",c=biws,r=" ++ server).
Proof.
  rewrite hmac_auth_message_pieces, hmac_states. cbn [fst snd].
  rewrite mac_pieces by done. cbn [concat]. by rewrite app_nil_r.
Qed.

Lemma keys_written salted :
  keys_write (hmac salted IV IV).1 (hmac salted IV IV).2 =
  {| client := hmac_sha256 salted (bytes_of "Client Key");
     stored := sha256 (hmac_sha256 salted (bytes_of "Client Key"));
     server := hmac_sha256 salted (bytes_of "Server Key") |}.
Proof.
  rewrite hmac_states. cbn [fst snd]. unfold keys_write. cbn [sha_new sha_block sha_len].
  pose proof (absorbed_keyed salted (replicate 64 0) eq_refl) as H.
  apply (update_absorbed _ _ _ _ (bytes_of "Client Key")) in H.
  destruct (sha_hmac_mac _ _ _ secret32_new H eq_refl) as [Hc Hb].
  destruct (sha_hmac _ _ secret32_new) as [h c]. cbn [fst snd] in Hc, Hb. rewrite app_nil_l in Hc. subst c.
  pose proof (absorbed_keyed salted (sha_block h) Hb) as H2.
  apply (update_absorbed _ _ _ _ (bytes_of "Server Key")) in H2.
  destruct (sha_hmac_mac _ _ _ secret32_new H2 eq_refl) as [Hs Hb2].
  destruct (sha_hmac _ _ secret32_new) as [h2 s]. cbn [fst snd] in Hs, Hb2. rewrite app_nil_l in Hs. subst s.
  pose proof (absorbed_init IV 0 (sha_block h2) eq_refl Hb2) as H3.
  apply (update_absorbed _ _ _ _ (hmac_sha256 salted (bytes_of "Client Key"))), finalize_absorbed in H3 as [H3 _].
  change (as_u64 (Z.of_nat 0)) with 0 in H3. rewrite app_nil_l in H3.
  f_equal. unfold write_state. rewrite H3.
  apply copy_at_0_full. by rewrite (length_sha256 (hmac_sha256 _ _)).
Qed.

(** ** Derivation *)

Lemma to_be_lxor n x y :
  to_be n (Z.lxor x y) = xor_bytes (to_be n x) (to_be n y).
Proof.
  revert x y. induction n as [|n IH]; intros x y; [done|]. cbn [to_be]. unfold xor_bytes.
  rewrite zip_with_app by by rewrite !length_to_be. cbn [zip_with]. f_equal.
  - rewrite <- !(Z.shiftr_div_pow2 _ 8) by lia. rewrite Z.shiftr_lxor. apply IH.
  - f_equal. change 256 with (2 ^ 8). rewrite <- !Z.land_ones by lia.
    apply Z.bits_inj'. intros k Hk. rewrite Z.lxor_spec, !Z.land_spec, Z.lxor_spec.
    by destruct (Z.testbit x k), (Z.testbit y k), (Z.testbit (Z.ones 8) k).
Qed.

Lemma xor_words_bytes output st :
  Forall is_byte output -> length output = (4 * length st)%nat ->
  xor_words output st = xor_bytes output (digest_of st).
Proof.
  revert output. induction st as [|w st IH]; intros output Hb Hl.
  - by destruct output.
  - cbn [xor_words]. assert (length (take 4 output) = 4%nat) as H4 by (rewrite length_take; cbn [length] in Hl; lia).
    assert (Forall is_byte (take 4 output)) as Hb4 by by apply Forall_take.
    rewrite to_be_lxor. pose proof (to_be_from_be _ Hb4) as E. rewrite H4 in E. rewrite E.
    rewrite IH; [|by apply Forall_drop|rewrite length_drop; cbn [length] in Hl; lia].
    unfold digest_of. rewrite fmap_cons. cbn [concat]. unfold xor_bytes.
    rewrite <- (take_drop 4 output) at 3. rewrite zip_with_app by by rewrite H4, length_to_be. done.
Qed.

Lemma digest_bytes st : Forall is_byte (digest_of st).
Proof.
  unfold digest_of. apply Forall_concat, Forall_fmap, Forall_true. intros w. apply to_be_bytes.
Qed.

Lemma xor_bytes_bytes l k : Forall is_byte l -> Forall is_byte k -> Forall is_byte (xor_bytes l k).
Proof.
  intros Hl Hk. unfold xor_bytes. revert k Hk. induction Hl as [|x l Hx Hl IH]; intros [|y k] Hk; [constructor..|].
  apply Forall_cons in Hk as [Hy Hk]. cbn [zip_with]. constructor; [|by apply IH].
  unfold is_byte in *. assert (0 <= Z.lxor x y) by (apply Z.lxor_nonneg; lia). split; [done|].
  destruct (Z.eq_dec (Z.lxor x y) 0) as [->|]; [lia|].
  assert (Z.log2 (Z.lxor x y) < 8); [|apply Z.log2_lt_pow2 in H0; lia].
  eapply Z.le_lt_trans; [apply Z.log2_lxor; lia|].
  assert (forall v, 0 <= v <= 255 -> Z.log2 v < 8) as Hv.
  { intros v Hv. destruct (Z.eq_dec v 0) as [->|]; [done|]. apply Z.log2_lt_pow2; lia. }
  apply Z.max_lub_lt; by apply Hv.
Qed.

(** A digest and its padding, as the derivation keeps them in one block. *)
Lemma prf_step_digest key_block d st :
  length key_block = 64%nat -> length d = 32%nat ->
  let st' := absorb (absorb IV key_block) (d ++ padding 96) in
  prf_step (absorb IV key_block) (st, d ++ padding 96) = (st', digest_of st' ++ padding 96) /\
  digest_of st' = sha256 (key_block ++ d).
Proof.
  intros Hk Hd. cbv zeta. assert (length (d ++ padding 96) = 64%nat) as H64 by (by rewrite length_app, Hd).
  split.
  - unfold prf_step. cbn [snd]. unfold compress256. cbn [fold_left]. rewrite <- absorb_block by done.
    f_equal. set (st' := absorb _ _). unfold write_state.
    fold (digest_of st'). rewrite copy_at_head. f_equal.
    rewrite length_digest by (apply absorb_wf, absorb_wf, IV_wf).
    by rewrite <- Hd, drop_app_length.
  - pose proof (digest_keyed key_block d Hk) as E. by rewrite Hd in E.
Qed.

Lemma kdf_rounds_hi n key st u acc :
  length u = 32%nat -> Forall is_byte acc -> length acc = 32%nat ->
  exists st' u', kdf_rounds n (hmac key IV IV) st (u ++ padding 96) acc = (st', u' ++ padding 96, hi_rounds n key u acc) /\
    length u' = 32%nat /\ length (hi_rounds n key u acc) = 32%nat /\ Forall is_byte (hi_rounds n key u acc) /\
    forall m, hi_rounds (n + m) key u acc = hi_rounds m key u' (hi_rounds n key u acc).
Proof.
  rewrite hmac_states. revert st u acc. induction n as [|n IH]; intros st u acc Hu Hb Ha.
  - exists st, u. done.
  - cbn [kdf_rounds hi_rounds fst snd].
    destruct (prf_step_digest (ipad key) u st (length_ipad key) Hu) as [E1 D1]. rewrite E1, D1.
    set (inner := sha256 _). set (st1 := absorb _ (u ++ _)).
    destruct (prf_step_digest (opad key) inner st1 (length_opad key) (length_sha256 _)) as [E2 D2].
    rewrite E2, D2. fold (hmac_sha256 key u). set (st2 := absorb _ (inner ++ _)) in *.
    assert (words_wf st2) as W by (apply absorb_wf, absorb_wf, IV_wf).
    rewrite xor_words_bytes by (done || (destruct W; lia)). rewrite D2. fold (hmac_sha256 key u).
    cbv beta iota. change (sha256 (opad key ++ inner)) with (hmac_sha256 key u).
    destruct (IH st2 (hmac_sha256 key u) (xor_bytes acc (hmac_sha256 key u))) as (st' & u' & -> & H1 & H2 & H3 & H4).
    + apply length_sha256.
    + apply xor_bytes_bytes; [done|apply digest_bytes].
    + unfold xor_bytes. rewrite length_zip_with, Ha. unfold hmac_sha256. by rewrite length_sha256.
    + exists st', u'. done.
Qed.

(** The derivation state [select] makes for a first block. *)
Definition kdf_new (password first : list Z) (iterations : Z) : Kdf :=
  {| prf := hmac password IV IV; previous := first; output := first; remaining := iterations - 1 |}.

(** A connection polls until the derivation completes; the number of polls. *)
Fixpoint derive (fuel : nat) (k : Kdf) : option (list Z * nat) :=
  match fuel with
  | O => None
  | S fuel =>
      let '(k, done) := advance k in
      match done with
      | Some salted => Some (salted, 1%nat)
      | None => r ← derive fuel k; Some (r.1, S r.2)
      end
  end.

Lemma advance_hi key u acc rem :
  0 <= rem -> length u = 32%nat -> Forall is_byte acc -> length acc = 32%nat ->
  let n := Z.to_nat (Z.min rem 256) in
  exists u', advance {| prf := hmac key IV IV; previous := u; output := acc; remaining := rem |} =
    ({| prf := hmac key IV IV; previous := u'; output := hi_rounds n key u acc;
        remaining := rem - Z.min rem 256 |},
     if rem - Z.min rem 256 =? 0 then Some (hi_rounds n key u acc) else None) /\
    length u' = 32%nat /\ length (hi_rounds n key u acc) = 32%nat /\ Forall is_byte (hi_rounds n key u acc) /\
    forall m, hi_rounds (n + m) key u acc = hi_rounds m key u' (hi_rounds n key u acc).
Proof.
  intros Hr Hu Hb Ha. cbv zeta. unfold advance. cbn [remaining previous output prf].
  assert (pad (replicate 8 0) (copy_at (replicate 64 0) 0 u) 96 = (replicate 8 0, u ++ padding 96)) as ->.
  { unfold pad. change (Z.land 96 63) with 32.
    assert (copy_at (replicate 64 0) 0 u = u ++ replicate 32 0) as ->.
    { rewrite copy_at_head, drop_replicate. do 2 f_equal. lia. }
    do 33 (destruct u as [|? u]; [try discriminate Hu|]); [reflexivity|discriminate Hu]. }
  destruct (kdf_rounds_hi (Z.to_nat (Z.min rem 256)) key (replicate 8 0) u acc Hu Hb Ha)
    as (st' & u' & E & H1 & H2 & H3 & H4).
  unfold ITERATIONS_PER_POLL. rewrite E. exists u'. split_and!; try done.
  rewrite (take_app_le u') by lia. by rewrite take_ge by lia.
Qed.

Lemma derive_hi key fuel u acc rem :
  0 <= rem -> length u = 32%nat -> Forall is_byte acc -> length acc = 32%nat ->
  rem < 256 * Z.of_nat fuel ->
  derive fuel {| prf := hmac key IV IV; previous := u; output := acc; remaining := rem |} =
  Some (hi_rounds (Z.to_nat rem) key u acc, Z.to_nat (Z.max 1 ((rem + 255) / 256))).
Proof.
  revert u acc rem. induction fuel as [|fuel IH]; intros u acc rem Hr Hu Hb Ha Hf; [lia|].
  cbn [derive]. destruct (advance_hi key u acc rem Hr Hu Hb Ha) as (u' & E & H1 & H2 & H3 & H4).
  rewrite E. cbv beta iota. destruct (Z.eqb_spec (rem - Z.min rem 256) 0) as [Z0|Z0].
  - replace (Z.min rem 256) with rem by lia. do 2 f_equal. lia.
  - rewrite IH by (done || lia). cbn [mbind option_bind fst snd]. f_equal. f_equal; [|lia].
    rewrite <- H4. f_equal. lia.
Qed.

Lemma derived password salt iterations fuel :
  1 <= iterations < 256 * Z.of_nat fuel ->
  derive fuel (kdf_new password (hmac_sha256 password (salt ++ to_be 4 1)) iterations) =
  Some (hi password salt iterations, Z.to_nat (Z.max 1 ((iterations + 254) / 256))).
Proof.
  intros H. unfold kdf_new, hi. rewrite derive_hi.
  - do 2 f_equal. do 2 f_equal. f_equal. lia.
  - lia.
  - apply length_sha256.
  - apply digest_bytes.
  - apply length_sha256.
  - lia.
Qed.

(** C29. Deriving by polls of at most 256 rounds yields exactly RFC 5802's
    salted password, after as many polls as the iterations need and no more. *)
Theorem derivation_exact password salt iterations fuel :
  1 <= iterations < 256 * Z.of_nat fuel ->
  derive fuel (kdf_new password (hmac_sha256 password (salt ++ to_be 4 1)) iterations) =
  Some (hi password salt iterations, Z.to_nat (Z.max 1 ((iterations + 254) / 256))).
Proof. apply derived. Qed.
End keyed.
End hash.

(** ** The compression function of FIPS 180-4

    The library's function as the standard defines it, to run the model. *)

Module Fips.
Definition primes : list Z :=
  filter (fun p => forallb (fun d => negb (p mod d =? 0)) (seqZ 2 (Z.sqrt p - 1)) = true) (seqZ 2 310).

(** The largest [r < 2 ^ n] with [r ^ 3 <= x], from its highest bit. *)
Fixpoint cube_root (n : nat) (r x : Z) : Z :=
  match n with
  | O => r
  | S n => let r' := r + 2 ^ Z.of_nat n in cube_root n (if r' ^ 3 <=? x then r' else r) x
  end.

(** The first 32 bits of the fractional parts of the cube roots of the primes. *)
Definition round_constants : list Z :=
  Eval vm_compute in (fun p => as_u32 (cube_root 36 0 (p * 2 ^ 96))) <$> take 64 primes.

Definition rotr (n x : Z) : Z := Z.lor (Z.shiftr x n) (as_u32 (Z.shiftl x (32 - n))).

Definition xor3 (a b c : Z) : Z := Z.lxor a (Z.lxor b c).

Definition word (l : list Z) (i : nat) : Z := default 0 (l !! i).

Definition schedule_word (w : list Z) : list Z :=
  let t := length w in
  let a := word w (t - 15) in
  let b := word w (t - 2) in
  w ++ [as_u32 (xor3 (rotr 17 b) (rotr 19 b) (Z.shiftr b 10) + word w (t - 7) +
                xor3 (rotr 7 a) (rotr 18 a) (Z.shiftr a 3) + word w (t - 16))].

Definition schedule (block : list Z) : list Z :=
  Nat.iter 48 schedule_word ((fun i => from_be (take 4 (drop (4 * i) block))) <$> seq 0 16).

Definition round (st : list Z) (kw : Z * Z) : list Z :=
  match st with
  | [a; b; c; d; e; f; g; h] =>
      let choose := Z.lxor (Z.land e f) (Z.land (u32_max - e) g) in
      let t1 := h + xor3 (rotr 6 e) (rotr 11 e) (rotr 25 e) + choose + kw.1 + kw.2 in
      let major := xor3 (Z.land a b) (Z.land a c) (Z.land b c) in
      let t2 := xor3 (rotr 2 a) (rotr 13 a) (rotr 22 a) + major in
      [as_u32 (t1 + t2); a; b; c; as_u32 (d + t1); e; f; g]
  | _ => st
  end.

Definition compress (st block : list Z) : list Z :=
  zip_with (fun x y => as_u32 (x + y)) st
    (fold_left round (zip round_constants (schedule block)) st).

#[global] Instance laws : CompressLaws compress.
Proof.
  split. intros st block [Hl Hw] _. unfold compress.
  assert (forall kws s, length s = 8%nat -> length (fold_left round kws s) = 8%nat) as Hr.
  { induction kws as [|kw kws IH]; intros s Hs; [done|]. cbn [fold_left]. apply IH.
    do 9 (destruct s as [|? s]; try discriminate Hs). done. }
  split; [rewrite length_zip_with, Hr, Hl by done; done|].
  set (k := fold_left _ _ _). clearbody k. clear. revert k.
  induction st as [|x st IH]; intros [|y k]; cbn [zip_with]; constructor; [apply as_u32_range|apply IH].
Qed.

(** The standard's example digest. *)
Example sha256_abc :
  sha256 compress (bytes_of "abc") =
  to_be 32 0xba7816bf8f01cfea414140de5dae2223b00361a396177a9cb410ff61f20015ad.
Proof. vm_compute. reflexivity. Qed.
End Fips.

Lemma derivation_exact_witness :
  CompressLaws Fips.compress /\
  derive Fips.compress 16 (kdf_new Fips.compress (bytes_of "pencil")
    (hmac_sha256 Fips.compress (bytes_of "pencil") (bytes_of "salt" ++ to_be 4 1)) 4095) =
  Some (hi Fips.compress (bytes_of "pencil") (bytes_of "salt") 4095, 16%nat).
Proof.
  split; [exact Fips.laws|].
  exact (derivation_exact Fips.compress (bytes_of "pencil") (bytes_of "salt") 4095 16 ltac:(lia)).
Defined.
