(* ===== verification/PgScramParser.v ===== *)
(** * The attributes of SCRAM messages

    Models [pg/src/protocol/scram/parser.rs]: the attribute reader, the server's
    first and final messages with their checks and positions, the duplicate set
    as one machine word, and [scram/error.rs]. The bounded views are [PgWire]'s. *)
From S2P Require Import Prelude CoreText PgWire.

(** [scram::Error]: the errors a server reports. *)
Module ScramError.
Inductive Error :=
| InvalidEncoding
| ExtensionsNotSupported
| InvalidProof
| ChannelBindingsDontMatch
| ServerDoesSupportChannelBinding
| ChannelBindingNotSupported
| UnsupportedChannelBindingType
| UnknownUser
| InvalidUsernameEncoding
| NoResources
| Other.
End ScramError.

Record Attribute := { name : Z; value : list Z; start : Z }.

(** [Attribute::offset]. *)
Definition offset (a : Attribute) : Z := start a - 2.

Record Attributes := { tail : option (list Z); length_ : Z }.

Definition attributes_new (bytes : list Z) : Attributes :=
  {| tail := Some bytes; length_ := zlen bytes |}.

(** [u8::is_ascii_alphabetic], [u8::is_ascii_lowercase]. *)
Definition is_ascii_lowercase (b : Z) : bool := (97 <=? b) && (b <=? 122).

Definition is_ascii_alphabetic (b : Z) : bool :=
  is_ascii_lowercase b || ((65 <=? b) && (b <=? 90)).

(** The attribute at the front of [bytes], which start at [start]. *)
Definition parse_attribute (a : Attributes) (bytes : list Z)
    : result Reason.Reason (option Attribute * Attributes) :=
  let start := length_ a - zlen bytes in
  match bytes with
  | name :: equals :: _ :: _ =>
      if negb (is_ascii_alphabetic name) then Err (Reason.AttributeName start name)
      else if negb (equals =? 61) then Err (Reason.AttributeEquals (start + 1) equals)
      else
        let body := drop 2 bytes in
        let begin := length_ a - zlen body in
        let '(value, tail) :=
          match split_byte body 44 with
          | Some (value, tail) => (value, Some tail)
          | None => (body, None)
          end in
        match value, tail with
        | [], _ => Err (Reason.EmptyAttribute name begin)
        | _, Some [] => Err (Reason.TrailingComma (length_ a - 1))
        | _, _ =>
            Ok (Some {| name := name; value := value; start := begin |},
                {| tail := tail; length_ := length_ a |})
        end
  | _ => Err (Reason.AttributeTruncated start (zlen bytes))
  end.

(** [Attributes::next]. *)
Definition next (a : Attributes) : result Reason.Reason (option Attribute * Attributes) :=
  let taken := {| tail := None; length_ := length_ a |} in
  match tail a with
  | None => Ok (None, taken)
  | Some [] => Ok (None, taken)
  | Some bytes => parse_attribute taken bytes
  end.

(** [Attributes::required]. *)
Definition required (a : Attributes) (expected : Z) : result Reason.Reason (Attribute * Attributes) :=
  r ← next a;
  attr ← ok_or r.1 (Reason.MissingAttribute expected);
  if name attr =? 109 then Err (Reason.Extension (offset attr))
  else if negb (name attr =? expected) then Err (Reason.AttributeOrder (name attr) expected)
  else Ok (attr, r.2).

Definition is_nonce_char (b : Z) : bool :=
  ((0x21 <=? b) && (b <=? 0x2b)) || ((0x2d <=? b) && (b <=? 0x7e)).

Definition is_value_char (b : Z) : bool :=
  ((0x01 <=? b) && (b <=? 0x2b)) || ((0x2d <=? b) && (b <=? 0x3c)) || ((0x3e <=? b) && (b <=? 0x7f)).

(** [matches!(name, b'a' | b'c' | b'e' | b'i' | b'm' | b'n' | b'p' | b'r' | b's' | b'v')]. *)
Definition is_scram_attribute (name : Z) : bool :=
  existsb (Z.eqb name) (bytes_of "aceimnprsv").

(** [(0u32..).zip(bytes).find(..)]: the first byte that is not admitted. *)
Definition find_byte (admitted : Z -> bool) (bytes : list Z) : option (Z * Z) :=
  i ← position (fun b => negb (admitted b)) bytes;
  b ← get bytes i;
  Some (i, b).

Definition wire_offset (position relative : Z) : Z := position + relative.

(** [Names]: the letters seen, one bit each. *)
Definition names_bit (name : Z) : Z :=
  let index := if is_ascii_lowercase name then name - 97 else name - 65 + 26 in
  Z.shiftl 1 index.

Definition names_contains (names name : Z) : bool := negb (Z.land names (names_bit name) =? 0).

Definition names_insert (names name : Z) : Z := Z.lor names (names_bit name).

(** [Attributes::extensions]: the loop runs once per attribute left. *)
Fixpoint extensions_loop (fuel : nat) (a : Attributes) (names : Z) : option (result Reason.Reason ()) :=
  match fuel with
  | O => None
  | S fuel =>
      match next a with
      | Err e => Some (Err e)
      | Ok (None, _) => Some (Ok ())
      | Ok (Some attr, a) =>
          if name attr =? 109 then Some (Err (Reason.Extension (offset attr)))
          else if is_scram_attribute (name attr) then
            Some (Err (Reason.StandardExtension (name attr) (offset attr)))
          else if names_contains names (name attr) then
            Some (Err (Reason.DuplicateAttribute (name attr) (offset attr)))
          else
            match find_byte is_value_char (value attr) with
            | Some (relative, byte) =>
                Some (Err (Reason.ExtensionValue (name attr) (wire_offset (start attr) relative) byte))
            | None => extensions_loop fuel a (names_insert names (name attr))
            end
      end
  end.

(** The bytes left bound the attributes left. *)
Definition extensions (a : Attributes) : option (result Reason.Reason ()) :=
  extensions_loop (S (length (default [] (tail a)))) a 0.

Fixpoint positive_u32_loop (bytes : list Z) (start relative value : Z) : result Number.Number Z :=
  match bytes with
  | [] => if value =? 0 then Err Number.Zero else Ok value
  | byte :: bytes =>
      if negb (is_digit byte) then Err (Number.Invalid (wire_offset start relative) byte)
      else
        match (v ← checked_u32 (value * 10); checked_u32 (v + (byte - 48))) with
        | None => Err (Number.Overflow (wire_offset start relative) byte)
        | Some next => positive_u32_loop bytes start (relative + 1) next
        end
  end.

Definition positive_u32 (bytes : list Z) (start : Z) : result Number.Number Z :=
  match split_first bytes with
  | None => Err Number.Empty
  | Some (first, _) =>
      if first =? 48 then
        if zlen bytes =? 1 then Err Number.Zero else Err (Number.LeadingZero start)
      else positive_u32_loop bytes start 0 0
  end.

(** The ranges are those of the retained input. *)
Record ServerFirst := { input : list Z; nonce : Z * Z; salt : Z * Z; iterations : Z }.

(** [attr.start..attr.start + attr.value.length()]. *)
Definition value_range (a : Attribute) : Z * Z := (start a, start a + zlen (value a)).

(** [Parser::server_first]. *)
Definition server_first (bytes : list Z) : option (result Reason.Reason ServerFirst) :=
  let attrs := attributes_new bytes in
  match required attrs 114 with
  | Err e => Some (Err e)
  | Ok (nonce, attrs) =>
      match find_byte is_nonce_char (value nonce) with
      | Some (relative, byte) =>
          Some (Err (Reason.NonceChar (wire_offset (start nonce) relative) byte))
      | None =>
          match required attrs 115 with
          | Err e => Some (Err e)
          | Ok (salt, attrs) =>
              match required attrs 105 with
              | Err e => Some (Err e)
              | Ok (count, attrs) =>
                  match positive_u32 (value count) (start count) with
                  | Err error => Some (Err (Reason.Iteration error))
                  | Ok count =>
                      r ← extensions attrs;
                      Some (r ← r;
                        Ok {| input := bytes; nonce := value_range nonce;
                              salt := value_range salt; iterations := count |})
                  end
              end
          end
      end
  end.

(** [ServerFirst::into_parts]: the projections of the retained input. *)
Definition into_parts (s : ServerFirst) : list Z * list Z * Z :=
  (slice (input s) (nonce s).1 (nonce s).2, slice (input s) (salt s).1 (salt s).2, iterations s).

Module ServerFinal.
Inductive ServerFinal := Error (error : ScramError.Error) | Verifier (value : list Z).
End ServerFinal.

Definition parse_server_error (value : list Z) : ScramError.Error :=
  if list_eqb value (bytes_of "invalid-encoding") then ScramError.InvalidEncoding
  else if list_eqb value (bytes_of "extensions-not-supported") then ScramError.ExtensionsNotSupported
  else if list_eqb value (bytes_of "invalid-proof") then ScramError.InvalidProof
  else if list_eqb value (bytes_of "channel-bindings-dont-match") then ScramError.ChannelBindingsDontMatch
  else if list_eqb value (bytes_of "server-does-support-channel-binding") then
    ScramError.ServerDoesSupportChannelBinding
  else if list_eqb value (bytes_of "channel-binding-not-supported") then
    ScramError.ChannelBindingNotSupported
  else if list_eqb value (bytes_of "unsupported-channel-binding-type") then
    ScramError.UnsupportedChannelBindingType
  else if list_eqb value (bytes_of "unknown-user") then ScramError.UnknownUser
  else if list_eqb value (bytes_of "invalid-username-encoding") then ScramError.InvalidUsernameEncoding
  else if list_eqb value (bytes_of "no-resources") then ScramError.NoResources
  else ScramError.Other.

(** [Parser::server_final]. *)
Definition server_final (bytes : list Z) : option (result Reason.Reason ServerFinal.ServerFinal) :=
  match next (attributes_new bytes) with
  | Err e => Some (Err e)
  | Ok (None, _) => Some (Err Reason.MissingResult)
  | Ok (Some first, attrs) =>
      if name first =? 109 then Some (Err (Reason.Extension (offset first)))
      else
        let checked :=
          if name first =? 101 then
            match find_byte is_value_char (value first) with
            | Some (relative, byte) =>
                Err (Reason.FinalValue (wire_offset (start first) relative) byte)
            | None => Ok (ServerFinal.Error (parse_server_error (value first)))
            end
          else if name first =? 118 then Ok (ServerFinal.Verifier (value first))
          else Err (Reason.FinalAttribute (name first)) in
        match checked with
        | Err e => Some (Err e)
        | Ok result => r ← extensions attrs; Some (r ← r; Ok result)
        end
  end.

(** ** Spelling *)

Definition attr_text (a : Z * list Z) : list Z := a.1 :: 61 :: a.2.

(** What follows an attribute. *)
Definition following (rest : option (list Z)) : list Z :=
  match rest with None => [] | Some r => 44 :: r end.

(** Attributes separated by commas; [None] when there is none. *)
Fixpoint joined (attrs : list (Z * list Z)) : option (list Z) :=
  match attrs with
  | [] => None
  | a :: attrs => Some (attr_text a ++ following (joined attrs))
  end.

Definition attr_wf (a : Z * list Z) : Prop :=
  is_ascii_alphabetic a.1 = true /\ a.2 <> [] /\ Forall (fun b => b <> 44) a.2.

(** An extension: a letter the standard does not name, and a value. *)
Definition extension_wf (a : Z * list Z) : Prop :=
  is_ascii_alphabetic a.1 = true /\ is_scram_attribute a.1 = false /\
  a.2 <> [] /\ Forall (fun b => is_value_char b = true) a.2.

(** ** The reader *)

Lemma joined_nonempty attrs : joined attrs <> Some [].
Proof. by destruct attrs. Qed.

Lemma next_joined a attrs len :
  attr_wf a ->
  next {| tail := joined (a :: attrs); length_ := len |} =
  Ok (Some {| name := a.1; value := a.2; start := len - zlen (default [] (joined (a :: attrs))) + 2 |},
      {| tail := joined attrs; length_ := len |}).
Proof.
  destruct a as [n v]. intros (Hn & Hv & Hc). cbn [fst snd] in *.
  cbn [joined default id]. unfold attr_text. cbn [fst snd]. cbn [app].
  destruct v as [|b v]; [done|]. cbn [next parse_attribute tail length_]. cbn [app].
  unfold next, parse_attribute. cbn [tail length_]. rewrite Hn. cbn [negb Z.eqb Pos.eqb].
  cbn [drop]. set (body := b :: v) in *. set (rest := following (joined attrs)).
  change (b :: v ++ rest) with (body ++ rest).
  assert (len - zlen (body ++ rest) = len - zlen (n :: 61 :: body ++ rest) + 2) as <-
    by (cbn [length]; lia).
  unfold rest. destruct (joined attrs) as [r|] eqn:E; cbn [following].
  - rewrite split_byte_app by done. destruct r as [|c r]; [by apply joined_nonempty in E|]. done.
  - rewrite app_nil_r. destruct (split_byte body 44) as [[l r]|] eqn:F; [|done].
    apply split_byte_Some in F as [F _]. rewrite F in Hc. apply Forall_app in Hc as [_ Hc].
    apply Forall_cons in Hc as [Hc _]. done.
Qed.

Lemma next_of a x attrs :
  tail a = joined (x :: attrs) -> attr_wf x ->
  next a =
  Ok (Some {| name := x.1; value := x.2;
              start := length_ a - zlen (default [] (joined (x :: attrs))) + 2 |},
      {| tail := joined attrs; length_ := length_ a |}).
Proof. destruct a as [t len]. cbn [tail length_]. intros ->. apply next_joined. Qed.

Lemma next_sound a at_ a' :
  next a = Ok (Some at_, a') ->
  tail a = Some (attr_text (name at_, value at_) ++ following (tail a')) /\
  attr_wf (name at_, value at_) /\ tail a' <> Some [] /\ length_ a' = length_ a /\
  start at_ = length_ a - zlen (default [] (tail a)) + 2.
Proof.
  unfold next. destruct (tail a) as [[|n [|e [|b body]]]|] eqn:Et; try done.
  unfold parse_attribute. cbn [length_].
  destruct (is_ascii_alphabetic n) eqn:Hn; [|done]. cbn [negb].
  destruct (Z.eqb_spec e 61) as [->|]; [|done]. cbn [negb drop]. assert (exists w, w = b :: body) as [w Ew] by eauto. rewrite <- Ew in *.
  destruct (split_byte w 44) as [[v t]|] eqn:F.
  - apply split_byte_Some in F as [Fw Fv]. destruct v as [|c v]; [done|]. destruct t as [|d t]; [done|].
    intros H. apply Ok_inj in H. injection H as <- <-. cbn [name value start tail length_].
    split_and!; try done; [by rewrite Fw|]. simpl. lia.
  - apply split_byte_None in F. destruct w as [|c w']; [done|].
    intros H. apply Ok_inj in H. injection H as <- <-. cbn [name value start tail length_].
    split_and!; try done; [|cbn [default id length]; lia].
    unfold attr_text. cbn [following fst snd]. by rewrite app_nil_r.
Qed.

Lemma next_end a a' : next a = Ok (None, a') -> tail a = None \/ tail a = Some [].
Proof.
  unfold next. destruct (tail a) as [[|b l]|]; [by right| |by left].
  unfold parse_attribute. repeat split_match; intros H; try discriminate H.
Qed.

(** ** The set of names *)

Definition names_index (n : Z) : Z := if is_ascii_lowercase n then n - 97 else n - 65 + 26.

Lemma names_index_inj n m :
  is_ascii_alphabetic n = true -> is_ascii_alphabetic m = true ->
  names_index n = names_index m <-> n = m.
Proof.
  unfold is_ascii_alphabetic, names_index, is_ascii_lowercase. intros Hn Hm.
  split; [|by intros ->].
  destruct ((97 <=? n) && (n <=? 122)) eqn:En, ((97 <=? m) && (m <=? 122)) eqn:Em; lia.
Qed.

Lemma names_index_nonneg n : is_ascii_alphabetic n = true -> 0 <= names_index n.
Proof. 
  unfold is_ascii_alphabetic, names_index, is_ascii_lowercase.
  destruct ((97 <=? n) && (n <=? 122)) eqn:En; lia.
Qed.

Lemma names_contains_bit names n :
  is_ascii_alphabetic n = true -> names_contains names n = Z.testbit names (names_index n).
Proof.
  intros Hn%names_index_nonneg. unfold names_contains, names_bit. fold (names_index n).
  rewrite Z.shiftl_1_l. set (i := names_index n) in *. clearbody i.
  destruct (Z.testbit names i) eqn:E.
  - apply negb_true_iff, Z.eqb_neq. intros F. apply (f_equal (fun x => Z.testbit x i)) in F.
    by rewrite Z.land_spec, E, Z.pow2_bits_true, Z.bits_0 in F by lia.
  - apply negb_false_iff, Z.eqb_eq, Z.bits_inj'. intros k Hk.
    rewrite Z.land_spec, Z.bits_0, Z.pow2_bits_eqb by lia.
    destruct (Z.eqb_spec i k) as [<-|]; [by rewrite E|apply andb_false_r].
Qed.

Lemma names_insert_contains names n m :
  is_ascii_alphabetic n = true -> is_ascii_alphabetic m = true ->
  names_contains (names_insert names n) m = names_contains names m || (n =? m).
Proof.
  intros Hn Hm. rewrite !names_contains_bit by done. unfold names_insert, names_bit.
  fold (names_index n). rewrite Z.lor_spec, Z.shiftl_1_l, Z.pow2_bits_eqb by by apply names_index_nonneg.
  f_equal. pose proof (names_index_inj n m Hn Hm) as H.
  destruct (Z.eqb_spec (names_index n) (names_index m)), (Z.eqb_spec n m); naive_solver.
Qed.

(** ** Extensions *)

Lemma find_byte_None admitted l :
  find_byte admitted l = None <-> Forall (fun b => admitted b = true) l.
Proof.
  unfold find_byte. destruct (position _ l) as [i|] eqn:E; simpl.
  - apply position_Some in E as (_ & (b & Hb & Fb) & _). rewrite Hb. split; [done|].
    intros H. unfold get in Hb. destruct (0 <=? i); [|done]. rewrite Forall_forall in H.
    apply list_elem_of_lookup_2, H in Hb. by rewrite Hb in Fb.
  - split; [|done]. intros _. apply Forall_forall. intros x Hx.
    apply (position_None _ _ E) in Hx. by apply negb_false_iff in Hx.
Qed.

Lemma scram_extension a : is_scram_attribute a = true \/ is_scram_attribute a = false /\ a <> 109.
Proof.
  destruct (is_scram_attribute a) eqn:E; [by left|]. right. split; [done|]. by intros ->.
Qed.

Lemma extension_attr a : extension_wf a -> attr_wf a.
Proof.
  intros (H1 & _ & H3 & H4). split_and!; [done|done|]. eapply Forall_impl; [exact H4|].
  intros b Hb ->. done.
Qed.

(** The set holds the names seen. *)
Definition names_ok (names : Z) (seen : list Z) : Prop :=
  forall n, is_ascii_alphabetic n = true -> names_contains names n = true <-> n ∈ seen.

Lemma names_ok_insert names seen n :
  is_ascii_alphabetic n = true -> names_ok names seen -> names_ok (names_insert names n) (n :: seen).
Proof.
  intros Hn H m Hm. specialize (H m Hm).
  rewrite names_insert_contains, orb_true_iff, Z.eqb_eq, elem_of_cons by done. naive_solver.
Qed.

Definition extensions_of (a : Attributes) (seen : list Z) : Prop :=
  exists attrs, tail a = joined attrs /\ Forall extension_wf attrs /\
    NoDup attrs.*1 /\ (forall n, n ∈ attrs.*1 -> n ∉ seen).

Lemma extensions_cons a at_ a' seen :
  next a = Ok (Some at_, a') -> tail a <> Some [] ->
  extensions_of a seen <->
  extension_wf (name at_, value at_) /\ name at_ ∉ seen /\ extensions_of a' (name at_ :: seen).
Proof.
  intros Hn Hne. destruct (next_sound _ _ _ Hn) as (Ht & Hwf & _). split.
  - intros ([|b attrs] & E & Hw & Hd & Hs).
    { rewrite E in Ht. done. }
    apply Forall_cons in Hw as [Hb Hw]. rewrite (next_of _ _ _ E) in Hn by by apply extension_attr. apply Ok_inj in Hn. injection Hn as <- <-.
    cbn [name value]. rewrite <- surjective_pairing. rewrite fmap_cons in *.
    apply NoDup_cons in Hd as [Hd1 Hd2]. split_and!; [done|apply Hs; left|].
    exists attrs. split_and!; [done|done|done|]. intros n Hin. rewrite elem_of_cons.
    intros [->|]; [done|]. apply (Hs n); [by right|done].
  - intros (Hw & Hs & attrs & E & Hws & Hd & Hds). exists ((name at_, value at_) :: attrs).
    split_and!; [cbn [joined]; by rewrite <- E|by constructor| |].
    + rewrite fmap_cons. constructor; [|done]. intros Hin. apply (Hds _ Hin). by left.
    + rewrite fmap_cons. intros n [->|Hin]%elem_of_cons; [done|]. intros Hin'.
      apply (Hds _ Hin). by right.
Qed.

Lemma extensions_loop_exact fuel a names seen :
  tail a <> Some [] -> (length (default [] (tail a)) < fuel)%nat -> names_ok names seen ->
  exists r, extensions_loop fuel a names = Some r /\ (r = Ok () <-> extensions_of a seen).
Proof.
  revert a names seen. induction fuel as [|fuel IH]; intros a names seen Hne Hf Hok; [lia|].
  cbn [extensions_loop]. destruct (next a) as [[[at_|] a']|e] eqn:Hn.
  - destruct (next_sound _ _ _ Hn) as (Ht & (Ha & Hv & _) & Hne' & _). cbn [fst snd] in Ha, Hv.
    setoid_rewrite (extensions_cons _ _ _ seen Hn Hne).
    assert (length (default [] (tail a')) < fuel)%nat as Hf'.
    { rewrite Ht in Hf. destruct (tail a'); simpl in *; rewrite ?length_app in Hf; simpl in *; lia. }
    unfold extension_wf. cbn [fst snd].
    destruct (Z.eqb_spec (name at_) 109) as [E|E].
    { eexists. split; [done|]. split; [done|]. rewrite E. by intros ((_ & H & _) & _). }
    destruct (is_scram_attribute (name at_)) eqn:Es.
    { eexists. split; [done|]. split; [done|]. by intros ((_ & H & _) & _). }
    pose proof (Hok _ Ha) as Hseen. destruct (names_contains names (name at_)).
    { eexists. split; [done|]. split; [done|]. intros (_ & H & _). destruct H. by apply Hseen. }
    destruct (find_byte _ _) as [[rel byte]|] eqn:Ef.
    { eexists. split; [done|]. split; [done|]. intros ((_ & _ & _ & H) & _).
      apply find_byte_None in H. by rewrite H in Ef. }
    apply find_byte_None in Ef.
    destruct (IH a' (names_insert names (name at_)) (name at_ :: seen)) as (r & Hr & Hiff);
      [done|done|by apply names_ok_insert|].
    exists r. split; [done|]. rewrite Hiff. split; [|by intros (_ & _ & H)].
    intros H. split_and!; try done. intros Hin. by apply Hseen in Hin.
  - apply next_end in Hn as [Hn|Hn]; [|done]. eexists. split; [done|]. split; [|done].
    intros _. exists []. rewrite Hn. split_and!; [done|constructor|constructor|].
    intros n Hin. by apply elem_of_nil in Hin.
  - eexists. split; [done|]. split; [done|]. intros ([|b attrs] & E & Hw & _ & _).
    + unfold next in Hn. by rewrite E in Hn.
    + apply Forall_cons in Hw as [Hb _]. by rewrite (next_of _ _ _ E) in Hn by by apply extension_attr.
Qed.

Lemma extensions_exact a :
  tail a <> Some [] -> exists r, extensions a = Some r /\
    (r = Ok () <-> exists exts, tail a = joined exts /\ Forall extension_wf exts /\ NoDup exts.*1).
Proof.
  intros Hne. destruct (extensions_loop_exact (S (length (default [] (tail a)))) a 0 [] Hne)
    as (r & Hr & Hiff); [lia| |].
  - intros n Hn. rewrite names_contains_bit, Z.bits_0 by done. split; [done|]. by intros ?%elem_of_nil.
  - exists r. split; [exact Hr|]. rewrite Hiff. unfold extensions_of. split.
    + intros (e & H1 & H2 & H3 & _). by exists e.
    + intros (e & H1 & H2 & H3). exists e. split_and!; try done. intros n _. apply not_elem_of_nil.
Qed.

(** ** Numbers *)

Lemma decimal_grows l v :
  digits l -> 0 <= v -> v <= fold_left (fun v b => v * 10 + (b - 48)) l v.
Proof.
  revert v. induction l as [|b l IH]; intros v Hd Hv; cbn [fold_left]; [lia|].
  apply Forall_cons in Hd as [Hb Hl]. unfold is_digit in Hb. reflect_bool.
  specialize (IH (v * 10 + (b - 48)) Hl ltac:(lia)). lia.
Qed.

Lemma positive_u32_loop_exact l st rel v n :
  0 <= v <= u32_max ->
  positive_u32_loop l st rel v = Ok n <->
  digits l /\ n = fold_left (fun v b => v * 10 + (b - 48)) l v /\ 1 <= n <= u32_max.
Proof.
  revert rel v. induction l as [|b l IH]; intros rel v Hv; cbn [positive_u32_loop fold_left].
  - destruct (Z.eqb_spec v 0) as [->|].
    + split; [done|]. lia.
    + split; [intros [= <-]; split_and!; (constructor || lia)|]. by intros (_ & -> & _).
  - unfold digits. rewrite Forall_cons. destruct (is_digit b) eqn:Hb; cbn [negb]; [|split; [done|]; by intros ([? _] & _)].
    assert (0 <= b - 48 <= 9) by (unfold is_digit in Hb; lia).
    destruct (checked_u32 (v * 10)) as [w|] eqn:E1; cbn [mbind option_bind].
    + apply checked_Some in E1 as [-> E1]. destruct (checked_u32 _) as [w|] eqn:E2.
      * apply checked_Some in E2 as [-> E2]. rewrite (IH (rel + 1) _ E2). unfold digits. naive_solver.
      * apply checked_None in E2. split; [done|]. intros ([_ Hd] & -> & Hn).
        pose proof (decimal_grows l (v * 10 + (b - 48)) Hd). lia.
    + apply checked_None in E1. split; [done|]. intros ([_ Hd] & -> & Hn).
      pose proof (decimal_grows l (v * 10 + (b - 48)) Hd). lia.
Qed.

Lemma positive_u32_exact l st n :
  l <> [] -> positive_u32 l st = Ok n <-> l = show n /\ 1 <= n <= u32_max.
Proof.
  intros Hne. unfold positive_u32. destruct l as [|b l]; [done|]. cbn [split_first].
  destruct (Z.eqb_spec b 48) as [->|Hb].
  - split; [by destruct (_ =? 1)|]. intros [E Hn]. exfalso.
    destruct (show_loop_head 20 n) as (d & tl & Es & Hd); [lia|lia|].
    unfold show in E. rewrite Es in E. congruence.
  - rewrite positive_u32_loop_exact by lia. fold (decimal (b :: l)). split.
    + intros (Hd & -> & Hn). split; [|done]. symmetry. apply show_decimal; [done|done|cbn; congruence|lia].
    + intros [E Hn]. destruct (show_spec n) as (Hd & Hv & _); [lia|]. rewrite E. split_and!; (done || lia).
Qed.

Lemma show_attr n c : 1 <= n <= u32_max -> is_ascii_alphabetic c = true -> attr_wf (c, show n).
Proof.
  intros Hn Hc. destruct (show_spec n) as (Hd & _ & Hne); [lia|]. split_and!; [done|done|].
  eapply Forall_impl; [exact Hd|]. intros b Hb ->. done.
Qed.

(** ** The server's first message *)

Lemma required_of a e v attrs :
  tail a = joined ((e, v) :: attrs) -> attr_wf (e, v) -> e <> 109 ->
  required a e =
  Ok ({| name := e; value := v;
         start := length_ a - zlen (default [] (joined ((e, v) :: attrs))) + 2 |},
      {| tail := joined attrs; length_ := length_ a |}).
Proof.
  intros Ht Hw Hm. unfold required. rewrite (next_of _ _ _ Ht Hw). cbn [mbind result_bind fst snd ok_or name].
  destruct (Z.eqb_spec e 109); [done|]. by rewrite Z.eqb_refl.
Qed.

(** The spelling is unambiguous. *)
Lemma joined_inj xs ys :
  Forall attr_wf xs -> Forall attr_wf ys -> joined xs = joined ys -> xs = ys.
Proof.
  intros Hx. revert ys. induction Hx as [|x xs Hx Hxs IH]; intros ys Hy E.
  - by destruct ys.
  - destruct Hy as [|y ys Hy Hys]; [done|].
    pose proof (next_of {| tail := joined (x :: xs); length_ := 0 |} x xs eq_refl Hx) as N.
    rewrite (next_of {| tail := joined (x :: xs); length_ := 0 |} y ys E Hy) in N. apply Ok_inj in N. injection N as E1 E2 _ E3.
    destruct x as [xn xv], y as [yn yv]. cbn [fst snd] in *. by rewrite E1, E2, (IH ys Hys (eq_sym E3)).
Qed.

Lemma required_sound a e at_ a' :
  required a e = Ok (at_, a') ->
  name at_ = e /\ tail a = Some (attr_text (e, value at_) ++ following (tail a')) /\
  attr_wf (e, value at_) /\ tail a' <> Some [] /\ length_ a' = length_ a /\
  start at_ = length_ a - zlen (default [] (tail a)) + 2.
Proof.
  unfold required. intros (r & Hn & H)%bind_Ok. apply bind_Ok in H as (attr & Ha & H).
  destruct r as [[x|] a2]; [|done]. apply Ok_inj in Ha as <-. cbn [snd] in H.
  destruct (_ =? 109); [done|]. destruct (Z.eqb_spec (name x) e) as [E|]; [|done].
  apply Ok_inj in H. injection H as -> ->. destruct (next_sound _ _ _ Hn) as (H1 & H2 & H3 & H4 & H5).
  rewrite E in *. done.
Qed.

(** Where a value starts in the input whose tail it heads. *)
Lemma slice_value pre n v rest :
  slice (pre ++ attr_text (n, v) ++ rest) (zlen pre + 2) (zlen pre + 2 + zlen v) = v.
Proof.
  unfold attr_text. cbn [fst snd].
  pose proof (slice_middle (pre ++ [n; 61]) v rest) as E. rewrite length_app in E. cbn [length] in E.
  rewrite <- app_assoc in E. cbn [app] in E.
  replace (Z.of_nat (length pre + 2)) with (zlen pre + 2) in E by lia. exact E.
Qed.

Lemma value_range_slice pre t l a e k :
  l = pre ++ t -> t = attr_text (e, value a) ++ following k -> start a = zlen l - zlen t + 2 ->
  slice l (value_range a).1 (value_range a).2 = value a.
Proof.
  intros -> -> Hs. unfold value_range. cbn [fst snd]. rewrite Hs, length_app.
  replace (Z.of_nat _ - Z.of_nat _ + 2) with (zlen pre + 2) by lia. apply slice_value.
Qed.

Lemma server_first_total l : is_Some (server_first l).
Proof.
  unfold server_first. destruct (required (attributes_new l) 114) as [[nc a1]|e]; [|by eexists].
  destruct (find_byte _ _) as [[rel b]|]; [by eexists|].
  destruct (required a1 115) as [[sa a2]|e]; [|by eexists].
  destruct (required a2 105) as [[co a3]|e] eqn:R; [|by eexists].
  destruct (positive_u32 _ _); [|by eexists].
  apply required_sound in R as (_ & _ & _ & Hne & _).
  destruct (extensions_exact a3 Hne) as (r & -> & _). by eexists.
Qed.

Lemma server_first_sound l p :
  server_first l = Some (Ok p) ->
  exists nonce_ salt_ n exts, into_parts p = (nonce_, salt_, n) /\
    nonce_ <> [] /\ Forall (fun b => is_nonce_char b = true) nonce_ /\
    salt_ <> [] /\ Forall (fun b => b <> 44) salt_ /\ 1 <= n <= u32_max /\
    Forall extension_wf exts /\ NoDup exts.*1 /\
    joined ((114, nonce_) :: (115, salt_) :: (105, show n) :: exts) = Some l.
Proof.
  unfold server_first. destruct (required (attributes_new l) 114) as [[nc a1]|e] eqn:R1; [|done].
  destruct (find_byte _ (value nc)) as [[rel b]|] eqn:F; [done|]. apply find_byte_None in F.
  destruct (required a1 115) as [[sa a2]|e] eqn:R2; [|done].
  destruct (required a2 105) as [[co a3]|e] eqn:R3; [|done].
  destruct (positive_u32 _ _) as [n|e] eqn:N; [|done].
  apply required_sound in R1 as (_ & T1 & (_ & V1 & _) & _ & L1 & S1).
  apply required_sound in R2 as (_ & T2 & (_ & V2 & C2) & _ & L2 & S2).
  apply required_sound in R3 as (_ & T3 & (_ & V3 & _) & Hne & _).
  apply positive_u32_exact in N as [N1 N2]; [|exact V3].
  destruct (extensions_exact a3 Hne) as (r & -> & Hr). cbn [mbind option_bind].
  intros H. injection H as H. destruct r as [[]|e]; [|done]. apply Ok_inj in H as <-.
  destruct (proj1 Hr eq_refl) as (exts & E1 & E2 & E3).
  cbn [attributes_new tail length_] in T1, L1, S1. rewrite T2 in T1, S2. rewrite L1 in S2.
  rewrite T3 in T1. cbn [following] in T1, S1, S2. injection T1 as T1.
  exists (value nc), (value sa), n, exts. rewrite N1, E1 in T1.
  split_and!; try (done || lia); [|cbn [joined following]; by rewrite T1].
  unfold into_parts. cbn [input nonce salt iterations].
  assert (slice l (value_range nc).1 (value_range nc).2 = value nc) as ->.
  { eapply (value_range_slice [] l l nc 114 (Some _)); [done|exact T1|exact S1]. }
  assert (slice l (value_range sa).1 (value_range sa).2 = value sa) as ->; [|done].
  eapply (value_range_slice (attr_text (114, value nc) ++ [44]) _ l sa 115 (Some _)); [|reflexivity|].
  - rewrite T1, <- app_assoc. reflexivity.
  - rewrite T3 in S2. cbn [following default id] in S2. rewrite N1, E1 in S2. exact S2.
Qed.

Lemma server_first_input l p : server_first l = Some (Ok p) -> input p = l.
Proof.
  unfold server_first. destruct (required (attributes_new l) 114) as [[nc a1]|e]; [|done].
  destruct (find_byte _ (value nc)) as [[rel b]|]; [done|].
  destruct (required a1 115) as [[sa a2]|e]; [|done].
  destruct (required a2 105) as [[co a3]|e]; [|done].
  destruct (positive_u32 _ _) as [n|e]; [|done].
  destruct (extensions a3) as [[[]|e]|]; [|done..]. cbn [mbind option_bind result_bind].
  intros H. injection H as H. by subst p.
Qed.

Lemma nonce_attr v :
  v <> [] -> Forall (fun b => is_nonce_char b = true) v -> attr_wf (114, v).
Proof.
  intros Hne Hv. split_and!; [done|done|]. eapply Forall_impl; [exact Hv|]. intros b Hb ->. done.
Qed.

Lemma extension_attrs exts : Forall extension_wf exts -> Forall attr_wf exts.
Proof. intros H. eapply Forall_impl; [exact H|apply extension_attr]. Qed.

Lemma first_attrs_wf v s n exts :
  v <> [] -> Forall (fun b => is_nonce_char b = true) v ->
  s <> [] -> Forall (fun b => b <> 44) s -> 1 <= n <= u32_max -> Forall extension_wf exts ->
  Forall attr_wf ((114, v) :: (115, s) :: (105, show n) :: exts).
Proof.
  intros. constructor; [by apply nonce_attr|]. constructor; [by split_and!|].
  constructor; [by apply show_attr|]. by apply extension_attrs.
Qed.

Lemma server_first_iff l nonce_ salt_ n :
  is_Some (server_first l) /\
  ((exists p, server_first l = Some (Ok p) /\ into_parts p = (nonce_, salt_, n)) <->
   nonce_ <> [] /\ Forall (fun b => is_nonce_char b = true) nonce_ /\
   salt_ <> [] /\ Forall (fun b => b <> 44) salt_ /\ 1 <= n <= u32_max /\
   exists exts, Forall extension_wf exts /\ NoDup exts.*1 /\
     joined ((114, nonce_) :: (115, salt_) :: (105, show n) :: exts) = Some l).
Proof.
  split; [apply server_first_total|]. split.
  - intros (p & Hp & Hparts). apply server_first_sound in Hp as (v & s & m & exts & E & Hp).
    rewrite E in Hparts. injection Hparts as -> -> ->. naive_solver.
  - intros (V1 & F1 & V2 & F2 & Hn & exts & Hx & Hd & J).
    assert (exists p, server_first l = Some (Ok p)) as [p Hp].
    { unfold server_first. pose proof (show_attr n 105 Hn eq_refl) as Wc.
      rewrite (required_of (attributes_new l) 114 nonce_ _ (eq_sym J)) by (done || by apply nonce_attr).
      cbn [value fst snd]. rewrite (proj2 (find_byte_None _ _) F1).
      rewrite (required_of _ 115 salt_ ((105, show n) :: exts)) by (done || by split_and!).
      rewrite (required_of _ 105 (show n) exts) by done. cbn [value fst snd start].
      rewrite (proj2 (positive_u32_exact _ _ n (proj1 (proj2 Wc)))) by (by split; [|lia]).
      match goal with |- context [extensions ?a] => destruct (extensions_exact a (joined_nonempty _)) as (r & -> & Hr) end.
      rewrite (proj2 Hr) by (by exists exts). by eexists. }
    exists p. split; [exact Hp|]. apply server_first_sound in Hp as (v & s & m & exts' & -> & Hp).
    destruct Hp as (P1 & P2 & P3 & P4 & P5 & P6 & P7 & P8).
    assert ((114, v) :: (115, s) :: (105, show m) :: exts' =
      (114, nonce_) :: (115, salt_) :: (105, show n) :: exts) as E.
    { apply joined_inj; [by apply first_attrs_wf..|by rewrite J, P8]. }
    injection E as -> -> Es ->. destruct (show_spec m) as (_ & <- & _); [lia|]. rewrite Es.
    by destruct (show_spec n) as (_ & -> & _); [lia|].
Qed.

(** C30. The server's first message is accepted exactly when it spells a nonce of
    nonce characters, a salt, an iteration count without leading zeros and then
    extensions with distinct non-standard letters; the parts handed on are those
    very values. *)
Theorem server_first_exact l nonce_ salt_ n :
  is_Some (server_first l) /\
  ((exists p, server_first l = Some (Ok p) /\ into_parts p = (nonce_, salt_, n)) <->
   nonce_ <> [] /\ Forall (fun b => is_nonce_char b = true) nonce_ /\
   salt_ <> [] /\ Forall (fun b => b <> 44) salt_ /\ 1 <= n <= u32_max /\
   exists exts, Forall extension_wf exts /\ NoDup exts.*1 /\
     joined ((114, nonce_) :: (115, salt_) :: (105, show n) :: exts) = Some l).
Proof. apply server_first_iff. Qed.

(** ** The server's final message *)

(** What the final message may be: its first attribute and its result. *)
Definition final_of (v : list Z) (r : ServerFinal.ServerFinal) (first : Z * list Z) : Prop :=
  v <> [] /\
  (first = (118, v) /\ r = ServerFinal.Verifier v /\ Forall (fun b => b <> 44) v \/
   first = (101, v) /\ r = ServerFinal.Error (parse_server_error v) /\
   Forall (fun b => is_value_char b = true) v).

Lemma final_attr v r first : final_of v r first -> attr_wf first.
Proof.
  intros (Hne & [(-> & _ & H)|(-> & _ & H)]); (split_and!; [done|done|]); [done|].
  eapply Forall_impl; [exact H|]. intros b Hb ->. done.
Qed.

Lemma server_final_iff l r :
  is_Some (server_final l) /\
  (server_final l = Some (Ok r) <->
   exists v first exts, final_of v r first /\ Forall extension_wf exts /\ NoDup exts.*1 /\
     joined (first :: exts) = Some l).
Proof.
  unfold server_final. destruct (next (attributes_new l)) as [[[at_|] a]|e] eqn:N.
  - destruct (next_sound _ _ _ N) as (T & (Ha & V & C) & Hne & _). cbn [fst snd] in Ha, V, C.
    cbn [attributes_new tail] in T.
    destruct (extensions_exact a Hne) as (re & Hre & Hiff).
    assert (forall v first exts, final_of v r first -> joined (first :: exts) = Some l -> Forall extension_wf exts ->
      first = (name at_, value at_) /\ tail a = joined exts) as Huniq.
    { intros v first exts Hf J Hx. rewrite (next_of (attributes_new l) first exts (eq_sym J) (final_attr _ _ _ Hf)) in N.
      apply Ok_inj in N. injection N as <- <-. cbn [name value tail]. by destruct first. }
    assert (forall res, name at_ <> 109 ->
      (match res with Err e => Some (Err e) | Ok result => r ← extensions a; Some (r ← r; Ok result) end = Some (Ok r)
       <-> res = Ok r /\ exists exts, tail a = joined exts /\ Forall extension_wf exts /\ NoDup exts.*1)) as Hres.
    { intros [x|e] _; [|naive_solver]. rewrite Hre. cbn [mbind option_bind]. rewrite <- Hiff.
      destruct re as [[]|e]; cbn [mbind result_bind]; naive_solver. }
    split.
    + rewrite Hre. destruct (_ =? 109); [by eexists|]. repeat split_match; by eexists.
    + destruct (Z.eqb_spec (name at_) 109) as [E|E].
      { split; [done|]. intros (v & first & exts & Hf & Hx & _ & J). exfalso.
        destruct (Huniq _ _ _ Hf J Hx) as [-> _]. rewrite E in Hf. by destruct Hf as (_ & [([=] & _)|([=] & _)]). }
      rewrite Hres by done. split.
      * intros (H & exts & E1 & E2 & E3). exists (value at_), (name at_, value at_), exts.
        split_and!; [|done|done|cbn [joined]; by rewrite <- E1, <- T]. split; [done|].
        destruct (Z.eqb_spec (name at_) 101) as [->|E4].
        -- right. destruct (find_byte _ _) as [[i b]|] eqn:F; [done|]. apply find_byte_None in F.
           apply Ok_inj in H as <-. done.
        -- left. destruct (Z.eqb_spec (name at_) 118) as [->|]; [|done]. by apply Ok_inj in H as <-.
      * intros (v & first & exts & Hf & Hx & Hd & J). destruct (Huniq _ _ _ Hf J Hx) as [-> Ht].
        split; [|by exists exts]. destruct Hf as (_ & [([= -> ->] & -> & F)|([= -> ->] & -> & F)]); [done|].
        by rewrite (proj2 (find_byte_None _ _) F).
  - split; [by eexists|]. split; [done|]. intros (v & first & exts & Hf & _ & _ & J).
    by rewrite (next_of (attributes_new l) first exts (eq_sym J) (final_attr _ _ _ Hf)) in N.
  - split; [by eexists|]. split; [done|]. intros (v & first & exts & Hf & _ & _ & J).
    by rewrite (next_of (attributes_new l) first exts (eq_sym J) (final_attr _ _ _ Hf)) in N.
Qed.

