(* ===== verification/PgEncode.v ===== *)
(** * PostgreSQL frontend messages

    Models [pg/src/protocol/encode/mod.rs], [encode/error.rs], the tags of
    [protocol/messages.rs] and [schema/result.rs]'s kind: a writer over a spare
    region of a pooled span, whose messages are written behind a length that is
    patched once their extent is known. The region is the buffer library's, an
    interface here. *)
From S2P Require Import Prelude CoreText CodecInput PgFrame.

Module Scope.
Inductive Scope := Frame | Preparation.
End Scope.

Record Position := { group : Z; query : Z }.

Module ResultKind.
Inductive Kind := Command | Rows.
End ResultKind.

Module EncError.
Inductive Error :=
| FrameLength (actual : Z)
| LengthOverflow (scope : Scope.Scope) (current additional : Z)
| ValueLength (actual : Z)
| ParseTypes (actual : Z)
| ParameterFormats (actual : Z)
| ResultFormats (actual : Z)
| ParameterCount (declared types : Z)
| ParameterValueCount (expected actual : Z)
| ParameterOid (index expected actual : Z)
| ParameterEncoding (index expected actual : Z)
| ResultCount (declared : Z)
| ResultShape (kind : ResultKind.Kind) (columns : Z)
| ParameterFormatCount (actual expected : Z)
| ResultFormatCount (actual expected : Z)
| ParameterFormat (index actual : Z)
| ResultFormat (index actual : Z)
| ResultValueCount (expected actual : Z)
| ResultEncoding (index expected actual : Z)
| StatementNameNul (position : Z)
| StatementNameEmpty
| StatementNameReserved
| StatementSqlNul (position : Z)
| GroupCount (actual : Z)
| StatementCount (current additional : Z)
| DuplicateStatement (first second : Position)
| PreparationSize (expected actual : Z)
| ArrayElements (actual : Z)
| Capacity (required capacity : Z).
End EncError.

(** [messages::Fe]. *)
Module Fe.
Definition STARTUP_PROTOCOL : Z := 0x00030000.

Definition CANCEL_REQUEST : Z := 80877102.

Definition PARSE : Z := 80.

Definition BIND : Z := 66.

Definition EXECUTE : Z := 69.

Definition SYNC : Z := 83.

Definition PASSWORD : Z := 112.

Definition COPY_DATA : Z := 100.

Definition COPY_DONE : Z := 99.
End Fe.

(** [write::Spare] and [write::edit::Edit]: initialized bytes and the room left;
    [edit_new] writes a prefix and continues behind it in a nested region, which
    [edit_commit] joins to the outer one under its final prefix. *)
Class Spare (W : Type) := {
  as_slice : W -> list Z;
  room : W -> Z;
  write_slice : W -> list Z -> result (Z * Z) W;
  write_all : W -> list (list Z) -> result (Z * Z) W;
  edit_new : W -> list Z -> result (Z * Z) W;
  edit_commit : W -> W -> list Z -> W }.

(** A region takes exactly what fits. *)
Class SpareLaws (W : Type) `{Spare W} : Prop := {
  room_nonneg w : 0 <= room w;
  write_fits w bs :
    zlen bs <= room w ->
    exists w', write_slice w bs = Ok w' /\ as_slice w' = as_slice w ++ bs /\ room w' = room w - zlen bs;
  write_over w bs : room w < zlen bs -> exists e, write_slice w bs = Err e;
  write_all_slices w l :
    (exists w', write_all w l = Ok w' /\ write_slice w (concat l) = Ok w') \/
    (exists e e', write_all w l = Err e /\ write_slice w (concat l) = Err e');
  edit_fits w p :
    zlen p <= room w ->
    exists i, edit_new w p = Ok i /\ as_slice i = [] /\ room i = room w - zlen p;
  edit_over w p : room w < zlen p -> exists e, edit_new w p = Err e;
  edit_joined w i p0 p i0 :
    edit_new w p0 = Ok i0 -> zlen p = zlen p0 ->
    as_slice (edit_commit w i p) = as_slice w ++ p ++ as_slice i /\ room (edit_commit w i p) = room i }.

(** Writing with a result. *)
Definition Emit (W A : Type) : Type := W -> result EncError.Error (A * W).

#[global] Instance emit_ret W : MRet (Emit W) := fun A a w => Ok (a, w).
#[global] Instance emit_bind W : MBind (Emit W) := fun A B k m w =>
  match m w with Ok (a, w) => k a w | Err e => Err e end.

(** A check that does not write. *)
Definition lift {W A} (m : result EncError.Error A) : Emit W A := fun w =>
  match m with Ok a => Ok (a, w) | Err e => Err e end.

Section encode.
Context {W : Type} `{!Spare W}.

Definition capacity {A} (r : result (Z * Z) A) : result EncError.Error A :=
  map_err (fun e => EncError.Capacity e.1 e.2) r.

Definition wire_length (value : Z) : result EncError.Error Z :=
  if i32_max <? value then Err (EncError.FrameLength value) else Ok (as_i32 value).

Definition extend (bs : list Z) : Emit W () := fun w =>
  match capacity (write_slice w bs) with Ok w => Ok ((), w) | Err e => Err e end.

Definition push (byte : Z) : Emit W () := extend [byte].

Definition write_slices (l : list (list Z)) : Emit W () := fun w =>
  match capacity (write_all w l) with Ok w => Ok ((), w) | Err e => Err e end.

(** [Writer::patch]: the length is that of what the inner writer wrote, with the
    four bytes of the field itself when [header]. *)
Definition patch {A} (header : bool) (write : Emit W A) : Emit W A := fun w =>
  match capacity (edit_new w [0; 0; 0; 0]) with
  | Err e => Err e
  | Ok inner =>
      match write inner with
      | Err e => Err e
      | Ok (value, inner) =>
          let length := zlen (as_slice inner) in
          let length := if header then length + 4 else length in
          match wire_length length with
          | Err e => Err e
          | Ok length => Ok (value, edit_commit w inner (to_be 4 length))
          end
      end
  end.

Definition write_cstr (value : list Z) : Emit W () := write_slices [value; [0]].

(** [str::split]. *)
Fixpoint split (byte : Z) (l : list Z) : list (list Z) :=
  match l with
  | [] => [[]]
  | b :: l =>
      if b =? byte then [] :: split byte l
      else match split byte l with [] => [[b]] | p :: ps => (b :: p) :: ps end
  end.

(** [for part in parts]. *)
Fixpoint write_parts (parts : list (list Z)) : Emit W () :=
  match parts with
  | [] => mret ()
  | part :: parts => extend [34; 34];; extend part;; write_parts parts
  end.

Definition write_search_path (schema : list Z) : Emit W () :=
  push 34;;
  match split 34 schema with
  | [] => write_parts []
  | first :: parts => extend first;; write_parts parts
  end;;
  extend (34 :: bytes_of ",public");;
  push 0.

Definition write_u32 (value : Z) : Emit W () := extend (show value).

Definition startup (user database app : list Z) (schema : option (list Z)) (timeout : Z) : Emit W () :=
  patch true (
    extend (to_be 4 Fe.STARTUP_PROTOCOL);;
    write_cstr (bytes_of "user");;
    write_cstr user;;
    write_cstr (bytes_of "database");;
    write_cstr database;;
    write_cstr (bytes_of "application_name");;
    write_cstr app;;
    write_cstr (bytes_of "client_encoding");;
    write_cstr (bytes_of "UTF8");;
    (if 0 <? timeout then
       write_cstr (bytes_of "statement_timeout");; write_u32 timeout;; push 0
     else mret ());;
    match schema with
    | Some schema => write_cstr (bytes_of "search_path");; write_search_path schema
    | None => mret ()
    end;;
    push 0).

Definition SYNC : list Z := [Fe.SYNC; 0; 0; 0; 4].

Definition COPY_DONE_SYNC : list Z := [Fe.COPY_DONE; 0; 0; 0; 4] ++ SYNC.

Definition sync : Emit W () := write_slices [take 1 SYNC; drop 1 SYNC].

Definition copy_data (data : list Z) : Emit W () :=
  let length := zlen data + 4 in
  push Fe.COPY_DATA;;
  length ← lift (wire_length length);
  extend (to_be 4 length);;
  extend data.

Definition copy_done : Emit W () :=
  write_slices [take 1 COPY_DONE_SYNC; slice COPY_DONE_SYNC 1 5].

Definition sasl_first (name : list Z) (write : Emit W ()) : Emit W () :=
  push Fe.PASSWORD;;
  patch true (write_cstr name;; patch false write).

Definition sasl_final {A} (write : Emit W A) : Emit W A :=
  push Fe.PASSWORD;; patch true write.

Definition parse_with (write : Emit W ()) : Emit W () :=
  push Fe.PARSE;;
  patch true (push 0;; write;; push 0;; extend (to_be 2 0)).

Fixpoint write_each (formats : list Z) : Emit W () :=
  match formats with
  | [] => mret ()
  | format :: formats => extend (to_be 2 format);; write_each formats
  end.

Definition write_formats (formats : list Z) : Emit W () :=
  extend (to_be 2 (as_i16 (zlen formats)));; write_each formats.

Definition bind {A} (name : list Z) (formats : list Z) (params : Z) (results : list Z)
    (write : Emit W A) : Emit W A :=
  push Fe.BIND;;
  patch true (
    push 0;;
    write_cstr name;;
    write_formats formats;;
    extend (to_be 2 params);;
    value ← write;
    write_formats results;;
    mret value).

Definition execute : Emit W () := extend [Fe.EXECUTE; 0; 0; 0; 9; 0; 0; 0; 0; 0].

(** ** What a writer spells *)

(** [m] writes exactly [bs] and returns [a] where there is room, and fails where
    there is not. *)
Definition emits {A} (m : Emit W A) (bs : list Z) (a : A) : Prop :=
  forall w,
    (zlen bs <= room w -> exists w', m w = Ok (a, w') /\ as_slice w' = as_slice w ++ bs /\
                                     room w' = room w - zlen bs) /\
    (room w < zlen bs -> exists e, m w = Err e).

(** [m] fails wherever it runs. *)
Definition refuses {A} (m : Emit W A) : Prop := forall w, exists e, m w = Err e.

Context `{!SpareLaws W}.

Lemma emits_ret {A} (a : A) : emits (mret a : Emit W A) [] a.
Proof.
  intros w. split.
  - intros _. exists w. split_and!; [done|by rewrite app_nil_r|simpl; lia].
  - intros H. pose proof (room_nonneg w). simpl in H. lia.
Qed.

Lemma emits_bind {A B} (m : Emit W A) (k : A -> Emit W B) bs cs a b :
  emits m bs a -> emits (k a) cs b -> emits (m ≫= k) (bs ++ cs) b.
Proof.
  intros Hm Hk w. unfold mbind, emit_bind. rewrite length_app.
  destruct (Hm w) as [Hm1 Hm2]. split.
  - intros Hr. destruct Hm1 as (w1 & -> & E1 & R1); [lia|].
    destruct (Hk w1) as [(w2 & -> & E2 & R2) _]; [lia|].
    exists w2. split_and!; [done|by rewrite E2, E1, app_assoc|lia].
  - intros Hr. destruct (Z_le_gt_dec (zlen bs) (room w)) as [L|L].
    + destruct Hm1 as (w1 & -> & E1 & R1); [lia|]. destruct (Hk w1) as [_ Hk2]. apply Hk2. lia.
    + destruct Hm2 as [e ->]; [lia|]. by exists e.
Qed.

Lemma refuses_bind {A B} (m : Emit W A) (k : A -> Emit W B) bs a :
  emits m bs a -> refuses (k a) -> refuses (m ≫= k).
Proof.
  intros Hm Hk w. unfold mbind, emit_bind. destruct (Hm w) as [Hm1 Hm2].
  destruct (Z_le_gt_dec (zlen bs) (room w)).
  - destruct Hm1 as (w1 & -> & _); [lia|]. apply Hk.
  - destruct Hm2 as [e ->]; [lia|]. by exists e.
Qed.

Lemma refuses_first {A B} (m : Emit W A) (k : A -> Emit W B) : refuses m -> refuses (m ≫= k).
Proof. intros Hm w. unfold mbind, emit_bind. destruct (Hm w) as [e ->]. by exists e. Qed.

Lemma emits_extend bs : emits (extend bs) bs ().
Proof.
  intros w. unfold extend. split.
  - intros H. destruct (write_fits w bs H) as (w' & -> & H1 & H2). by exists w'.
  - intros H. destruct (write_over w bs H) as [e ->]. by eexists.
Qed.

Lemma emits_slices l : emits (write_slices l) (concat l) ().
Proof.
  intros w. unfold write_slices. pose proof (emits_extend (concat l) w) as H. unfold extend in H.
  destruct (write_all_slices w l) as [(w' & -> & E)|(e & e' & -> & E)]; rewrite E in H; [exact H|].
  cbn [capacity map_err] in *. split; [|by eexists].
  intros L. by destruct (proj1 H L) as (w' & ? & _).
Qed.

Lemma emits_cstr v : emits (write_cstr v) (v ++ [0]) ().
Proof. pose proof (emits_slices [v; [0]]) as H. cbn [concat] in H. by rewrite app_nil_r in H. Qed.

Lemma emits_lift {A} (r : result EncError.Error A) a : r = Ok a -> emits (lift r) [] a.
Proof. intros ->. apply emits_ret. Qed.

Lemma as_i32_small n : 0 <= n <= i32_max -> as_i32 n = n.
Proof.
  intros Hn. unfold as_i32, as_signed. rewrite Z.mod_small by lia.
  destruct (Z.ltb_spec n (2 ^ (32 - 1))); lia.
Qed.

Lemma wire_length_Ok n : 0 <= n <= i32_max -> wire_length n = Ok n.
Proof.
  intros Hn. unfold wire_length. destruct (Z.ltb_spec i32_max n); [lia|]. by rewrite as_i32_small.
Qed.

(** The length a patched region gets. *)
Definition patched (header : bool) (bs : list Z) : Z := if header then zlen bs + 4 else zlen bs.

Lemma emits_patch {A} header (m : Emit W A) bs a :
  emits m bs a -> patched header bs <= i32_max ->
  emits (patch header m) (to_be 4 (patched header bs) ++ bs) a.
Proof.
  intros Hm Hl w. rewrite length_app, length_to_be. unfold patch. split.
  - intros Hr. destruct (edit_fits w [0; 0; 0; 0]) as (i & E & S1 & R1); [simpl; lia|].
    rewrite E. cbn [capacity map_err]. simpl in R1.
    destruct (Hm i) as [(i' & -> & S2 & R2) _]; [lia|]. rewrite S2, S1. cbn [app].
    fold (patched header bs). rewrite wire_length_Ok by (split; [destruct header; simpl; lia|done]).
    destruct (edit_joined w i' [0; 0; 0; 0] (to_be 4 (patched header bs)) i E) as [S3 R3];
      [by rewrite length_to_be|].
    eexists. split_and!; [done|by rewrite S3, S2, S1|lia].
  - intros Hr. destruct (Z_le_gt_dec 4 (room w)) as [L|L].
    + destruct (edit_fits w [0; 0; 0; 0]) as (i & E & S1 & R1); [simpl; lia|].
      rewrite E. cbn [capacity map_err]. simpl in R1.
      destruct (Hm i) as [_ Hm2]. destruct Hm2 as [e ->]; [lia|]. by exists e.
    + destruct (edit_over w [0; 0; 0; 0]) as [e ->]; [simpl; lia|]. by eexists.
Qed.

(** A region too long for its field is refused, wherever it is written. *)
Lemma patch_refuses {A} header (m : Emit W A) bs a :
  emits m bs a -> i32_max < patched header bs -> refuses (patch header m).
Proof.
  intros Hm Hl w. unfold patch. destruct (edit_new w [0; 0; 0; 0]) as [i|e] eqn:E; [|by eexists].
  cbn [capacity map_err]. destruct (Hm i) as [Hm1 Hm2].
  destruct (Z_le_gt_dec (zlen bs) (room i)).
  - destruct Hm1 as (i' & -> & S & _); [lia|]. unfold wire_length.
    assert (as_slice i = []) as S0.
    { destruct (Z_le_gt_dec 4 (room w)).
      - destruct (edit_fits w [0; 0; 0; 0]) as (i0 & E0 & S0 & _); [simpl; lia|]. congruence.
      - destruct (edit_over w [0; 0; 0; 0]) as [e E0]; [simpl; lia|]. congruence. }
    rewrite S, S0. cbn [app]. fold (patched header bs).
    destruct (Z.ltb_spec i32_max (patched header bs)); [|lia]. by eexists.
  - destruct Hm2 as [e ->]; [lia|]. by eexists.
Qed.

Lemma emits_if {A} (c : bool) (m n : Emit W A) bs cs a :
  (c = true -> emits m bs a) -> (c = false -> emits n cs a) ->
  emits (if c then m else n) (if c then bs else cs) a.
Proof. destruct c; auto. Qed.
End encode.

(** Proves what a sequence of writes spells, piece by piece; the goal's bytes
    are an evar or already in the order of the writes. *)
Ltac emits_step :=
  lazymatch goal with
  | |- emits (mret _) _ _ => apply emits_ret
  | |- emits (extend _) _ _ => apply emits_extend
  | |- emits (push _) _ _ => apply (emits_extend [_])
  | |- emits (write_cstr _) _ _ => apply emits_cstr
  | |- emits (write_u32 _) _ _ => apply emits_extend
  | |- emits (write_slices _) _ _ => apply emits_slices
  | |- emits (_ ≫= _) _ _ => eapply emits_bind; [emits_step|emits_step]
  | |- emits _ _ _ => eassumption
  end.

Section messages.
Context {W : Type} `{!Spare W} `{!SpareLaws W}.

(** A message is spelled when its body fits the length field, and refused otherwise. *)
Definition spells {A} (m : Emit W A) (typ : Z) (body : list Z) (a : A) : Prop :=
  if zlen body + 4 <=? i32_max then emits m (message typ body) a else refuses m.

Lemma spells_patch {A} typ (m : Emit W A) body a :
  emits m body a -> spells (push typ;; patch true m) typ body a.
Proof.
  intros Hm. unfold spells. destruct (Z.leb_spec (zlen body + 4) i32_max).
  - unfold message. change (typ :: to_be 4 (4 + zlen body) ++ body) with
      ([typ] ++ to_be 4 (4 + zlen body) ++ body).
    eapply emits_bind; [apply (emits_extend [typ])|]. rewrite Z.add_comm.
    exact (emits_patch true m body a Hm ltac:(simpl; lia)).
  - eapply refuses_bind; [apply (emits_extend [typ])|]. eapply patch_refuses; [exact Hm|simpl; lia].
Qed.

Lemma emits_each formats : emits (write_each formats) (concat (to_be 2 <$> formats)) ().
Proof.
  induction formats as [|f formats IH]; [apply emits_ret|].
  rewrite fmap_cons. cbn [concat write_each]. eapply emits_bind; [apply emits_extend|exact IH].
Qed.

(** The formats of a message: their number as a 16-bit word, and each. *)
Definition formats_text (formats : list Z) : list Z :=
  to_be 2 (zlen formats) ++ concat (to_be 2 <$> formats).

Lemma emits_formats formats :
  zlen formats <= 32767 -> emits (write_formats formats) (formats_text formats) ().
Proof.
  intros Hf. unfold write_formats, formats_text.
  assert (as_i16 (zlen formats) = zlen formats) as ->.
  { unfold as_i16, as_signed. rewrite Z.mod_small by lia.
    destruct (Z.ltb_spec (zlen formats) (2 ^ (16 - 1))); lia. }
  eapply emits_bind; [apply emits_extend|apply emits_each].
Qed.

Lemma bind_message {A} name formats params results (write : Emit W A) values a :
  zlen formats <= 32767 -> zlen results <= 32767 -> emits write values a ->
  spells (bind name formats params results write) Fe.BIND
    ([0] ++ (name ++ [0]) ++ formats_text formats ++ to_be 2 params ++ values ++ formats_text results) a.
Proof.
  intros Hf Hr Hw. apply spells_patch.
  eapply emits_bind; [apply (emits_extend [0])|]. eapply emits_bind; [apply emits_cstr|].
  eapply emits_bind; [by apply emits_formats|]. eapply emits_bind; [apply emits_extend|].
  eapply emits_bind; [exact Hw|].
  rewrite <- (app_nil_r (formats_text results)).
  eapply emits_bind; [by apply emits_formats|apply emits_ret].
Qed.

(** C31. A bind message is the statement's name behind the unnamed portal, the
    parameter formats and values and the result formats, under a length that
    counts them; it is refused exactly when that length does not fit its field
    or the region does not hold it. *)
Theorem bind_spelled {A} name formats params results (write : Emit W A) values a :
  zlen formats <= 32767 -> zlen results <= 32767 -> emits write values a ->
  spells (bind name formats params results write) Fe.BIND
    ([0] ++ (name ++ [0]) ++ formats_text formats ++ to_be 2 params ++ values ++ formats_text results) a.
Proof. apply bind_message. Qed.

(** ** Startup *)

(** A quoted identifier: quotes are doubled. *)
Fixpoint quoted (schema : list Z) : list Z :=
  match schema with
  | [] => []
  | b :: schema => (if b =? 34 then [34; 34] else [b]) ++ quoted schema
  end.

(** The parts with the quotes between them doubled. *)
Definition parts_text (parts : list (list Z)) : list Z := concat ((fun p => [34; 34] ++ p) <$> parts).

Lemma emits_parts parts : emits (write_parts parts) (parts_text parts) ().
Proof.
  induction parts as [|p parts IH]; [apply emits_ret|].
  unfold parts_text. rewrite fmap_cons. cbn [concat write_parts]. rewrite <- app_assoc.
  eapply emits_bind; [apply emits_extend|]. eapply emits_bind; [apply emits_extend|exact IH].
Qed.

Lemma split_quoted l :
  exists first parts, split 34 l = first :: parts /\ first ++ parts_text parts = quoted l.
Proof.
  induction l as [|b l (first & parts & E & Q)]; [by exists [], []|]. cbn [split quoted].
  destruct (Z.eqb_spec b 34) as [->|_].
  - exists [], (split 34 l). split; [done|]. rewrite E, <- Q. unfold parts_text.
    rewrite fmap_cons. cbn [concat]. by rewrite <- app_assoc.
  - rewrite E. exists (b :: first), parts. split; [done|]. by rewrite <- Q.
Qed.

(** A schema in the search path, before the public one. *)
Definition search_path (schema : list Z) : list Z :=
  [34] ++ quoted schema ++ [34] ++ bytes_of ",public".

Lemma emits_search_path schema : emits (write_search_path schema) (search_path schema ++ [0]) ().
Proof.
  unfold write_search_path, search_path. rewrite <- !app_assoc.
  eapply emits_bind; [apply (emits_extend [34])|].
  destruct (split_quoted schema) as (first & parts & -> & <-).
  eapply emits_bind; [eapply emits_bind; [apply emits_extend|apply emits_parts]|].
  rewrite (app_assoc [34]). eapply emits_bind; [apply emits_extend|apply (emits_extend [0])].
Qed.

(** A parameter of the startup message. *)
Definition field (key value : list Z) : list Z := (key ++ [0]) ++ (value ++ [0]).

Definition startup_text (user database app : list Z) (schema : option (list Z)) (timeout : Z) : list Z :=
  to_be 4 Fe.STARTUP_PROTOCOL ++
  field (bytes_of "user") user ++ field (bytes_of "database") database ++
  field (bytes_of "application_name") app ++ field (bytes_of "client_encoding") (bytes_of "UTF8") ++
  (if 0 <? timeout then field (bytes_of "statement_timeout") (show timeout) else []) ++
  match schema with Some schema => field (bytes_of "search_path") (search_path schema) | None => [] end ++
  [0].

Lemma emits_field key value : emits (write_cstr key;; write_cstr value) (field key value) ().
Proof. eapply emits_bind; apply emits_cstr. Qed.

(** ** The other messages *)

Lemma copy_data_spelled data : spells (copy_data data) Fe.COPY_DATA data ().
Proof.
  unfold spells, copy_data. cbv zeta. destruct (Z.leb_spec (zlen data + 4) i32_max).
  - unfold message. rewrite (Z.add_comm 4).
    change (Fe.COPY_DATA :: to_be 4 (zlen data + 4) ++ data) with
      ([Fe.COPY_DATA] ++ [] ++ to_be 4 (zlen data + 4) ++ data).
    eapply emits_bind; [apply (emits_extend [_])|].
    eapply emits_bind; [apply emits_lift, wire_length_Ok; lia|].
    eapply emits_bind; apply emits_extend.
  - eapply refuses_bind; [apply (emits_extend [_])|]. apply refuses_first. intros w.
    unfold lift, wire_length. destruct (Z.ltb_spec i32_max (zlen data + 4)); [by eexists|lia].
Qed.

Lemma sync_spelled : emits sync (message Fe.SYNC []) ().
Proof. apply (emits_slices [[_]; _]). Qed.

Lemma copy_done_spelled : emits copy_done (message Fe.COPY_DONE []) ().
Proof. apply (emits_slices [[_]; _]). Qed.

Lemma execute_spelled : emits execute (message Fe.EXECUTE [0; 0; 0; 0; 0]) ().
Proof. apply emits_extend. Qed.

Lemma parse_spelled write sql :
  emits write sql () -> spells (parse_with write) Fe.PARSE ([0] ++ sql ++ [0] ++ to_be 2 0) ().
Proof.
  intros Hw. apply spells_patch. eapply emits_bind; [apply (emits_extend [0])|].
  eapply emits_bind; [exact Hw|]. eapply emits_bind; [apply (emits_extend [0])|apply emits_extend].
Qed.

Lemma sasl_final_spelled {A} (write : Emit W A) data a :
  emits write data a -> spells (sasl_final write) Fe.PASSWORD data a.
Proof. intros Hw. by apply spells_patch. Qed.

Lemma sasl_first_spelled name write data :
  emits write data () -> zlen data <= i32_max ->
  spells (sasl_first name write) Fe.PASSWORD ((name ++ [0]) ++ to_be 4 (zlen data) ++ data) ().
Proof.
  intros Hw Hd. apply spells_patch. eapply emits_bind; [apply emits_cstr|].
  exact (emits_patch false write data () Hw Hd).
Qed.

Lemma emits_stream2 (m n : Emit W ()) a b msgs rest :
  emits m (message a.1 a.2) () -> emits n (message b.1 b.2) () -> emits rest (stream msgs) () ->
  emits (m;; n;; rest) (stream (a :: b :: msgs)) ().
Proof.
  intros Hm Hn Hr. unfold stream. rewrite !fmap_cons. cbn [concat].
  eapply emits_bind; [exact Hm|]. eapply emits_bind; [exact Hn|exact Hr].
Qed.

Lemma emits_execute_sync :
  emits (execute;; sync) (stream [(Fe.EXECUTE, [0; 0; 0; 0; 0]); (Fe.SYNC, [])]) ().
Proof.
  change (stream _) with (message Fe.EXECUTE [0; 0; 0; 0; 0] ++ message Fe.SYNC []).
  eapply emits_bind; [apply execute_spelled|apply sync_spelled].
Qed.

Lemma spells_fits {A} (m : Emit W A) typ body a :
  zlen body + 4 <= i32_max -> spells m typ body a -> emits m (message typ body) a.
Proof. intros H. unfold spells. destruct (Z.leb_spec (zlen body + 4) i32_max); [done|lia]. Qed.

(** C32. Messages written one after another are read back by the frame codec of
    the other side as exactly themselves: a pipeline of a statement's parse,
    bind, execute and sync arrives as those four messages, whatever the values
    hold. *)
Theorem pipeline_framed sql write_sql name formats params results write values w max_frame_bytes :
  zlen formats <= 32767 -> zlen results <= 32767 ->
  emits write_sql sql () -> emits write values () ->
  let parse_body := [0] ++ sql ++ [0] ++ to_be 2 0 in
  let bind_body := [0] ++ (name ++ [0]) ++ formats_text formats ++ to_be 2 params ++ values ++ formats_text results in
  let msgs := [(Fe.PARSE, parse_body); (Fe.BIND, bind_body); (Fe.EXECUTE, [0; 0; 0; 0; 0]); (Fe.SYNC, [])] in
  as_slice w = [] -> zlen (stream msgs) <= room w ->
  max_frame_bytes <= i32_max -> Forall (message_wf max_frame_bytes) msgs ->
  exists w', (parse_with write_sql;; bind name formats params results write;; execute;; sync) w = Ok ((), w') /\
    forall chunks, concat chunks = as_slice w' ->
      fold_left (feed max_frame_bytes CodecInput.window) chunks ([], []) = (msgs, []).
Proof.
  intros Hf Hr Hsql Hw parse_body bind_body msgs Hw0 Hroom Hmax Hwf.
  apply Forall_cons in Hwf as Hwf1. destruct Hwf1 as [Hwf1 Hwf2]. apply Forall_cons in Hwf2 as [Hwf2 _].
  unfold message_wf in Hwf1, Hwf2. cbn [snd] in Hwf1, Hwf2.
  assert (emits (parse_with write_sql;; bind name formats params results write;; execute;; sync) (stream msgs) ()) as He.
  { apply (emits_stream2 _ _ (Fe.PARSE, parse_body) (Fe.BIND, bind_body)); [..|exact emits_execute_sync].
    - apply spells_fits; [cbn [snd]; lia|]. exact (parse_spelled write_sql sql Hsql).
    - apply spells_fits; [cbn [snd]; lia|].
      exact (bind_message name formats params results write values () Hf Hr Hw). }
  clearbody msgs. destruct (proj1 (He w) Hroom) as (w' & E & S & _). exists w'. split; [exact E|].
  intros chunks Hc. apply (stream_feeds max_frame_bytes ltac:(lia) CodecInput.window); [exact Hwf|by left|].
  by rewrite Hc, S, Hw0, app_nil_r.
Qed.
End messages.

(** ** Witnesses *)

(** A region of bytes and the room left. *)
Definition Region : Type := list Z * nat.

Definition region_put (r : Region) (bs : list Z) : result (Z * Z) Region :=
  if (length bs <=? r.2)%nat then Ok (r.1 ++ bs, (r.2 - length bs)%nat) else Err (zlen bs, Z.of_nat r.2).

#[export] Instance region_spare : Spare Region := {|
  as_slice r := r.1;
  room r := Z.of_nat r.2;
  write_slice := region_put;
  write_all r l := region_put r (concat l);
  edit_new r p := match region_put r p with Ok i => Ok ([], i.2) | Err e => Err e end;
  edit_commit r i p := (r.1 ++ p ++ i.1, i.2) |}.

#[export] Instance region_laws : SpareLaws Region.
Proof.
  split; simpl; unfold region_put.
  - intros w. lia.
  - intros w bs Hb. destruct (Nat.leb_spec (length bs) w.2); [|lia]. eexists. split_and!; [done..|simpl; lia].
  - intros w bs Hb. destruct (Nat.leb_spec (length bs) w.2); [lia|]. by eexists.
  - intros w l. destruct (_ <=? _)%nat; [left; by eexists|right; by eexists _, _].
  - intros w p Hp. destruct (Nat.leb_spec (length p) w.2); [|lia]. eexists. split_and!; [done..|simpl; lia].
  - intros w p Hp. destruct (Nat.leb_spec (length p) w.2); [lia|]. by eexists.
  - done.
Qed.

Definition sample_region : Region := ([], 200%nat).

Lemma bind_spelled_witness :
  zlen [1] <= 32767 /\
  emits (W := Region) (bind (bytes_of "s1") [1] 1 [1] (extend (to_be 4 2 ++ bytes_of "hi")))
    (message Fe.BIND ([0] ++ (bytes_of "s1" ++ [0]) ++ formats_text [1] ++ to_be 2 1 ++
                      (to_be 4 2 ++ bytes_of "hi") ++ formats_text [1])) ().
Proof.
  split; [simpl; lia|].
  exact (bind_spelled (W := Region) (bytes_of "s1") [1] 1 [1] (extend (to_be 4 2 ++ bytes_of "hi")) _ ()
    ltac:(simpl; lia) ltac:(simpl; lia) (emits_extend _)).
Defined.

Definition sample_startup : list Z :=
  startup_text (bytes_of "u") (bytes_of "d") (bytes_of "a") (Some [120; 34; 121]) 5.

Lemma pipeline_framed_witness :
  exists w', (parse_with (extend (bytes_of "select $1"));; bind [] [1] 1 [1] (extend [255; 255; 255; 255]);;
    execute;; sync) sample_region = Ok ((), w').
Proof.
  destruct (pipeline_framed (W := Region) (bytes_of "select $1") (extend (bytes_of "select $1")) [] [1] 1 [1]
    (extend [255; 255; 255; 255]) [255; 255; 255; 255] sample_region 1024) as (w' & E & _).
  - simpl. lia.
  - simpl. lia.
  - apply emits_extend.
  - apply emits_extend.
  - reflexivity.
  - vm_compute. discriminate.
  - lia.
  - repeat constructor.
  - exists w'. exact E.
Defined.
