(* ===== verification/PgRow.v ===== *)
(** * Rows and parameters

    Models the binary values of the PostgreSQL protocol in both directions:
    [pg/src/protocol/value/encode.rs] (checked parameters of a bind message),
    [pg/src/protocol/value/decode] (the row reader, its typed columns and the
    unchecked projection of a validated row), [pg/src/schema/array.rs] and the
    row types of [pg/src/schema/row.rs]. Floats are their words. *)
From S2P Require Import Prelude PgWire CodecInput PgFrame PgEncode.

(** ** Row reader *)

(** [decode::RowReader]: the bytes left and the columns left. *)
Record RowReader := { buf : list Z; columns_start : Z; columns_end : Z }.

Definition Read (A : Type) : Type := RowReader -> result Reason.Reason (A * RowReader).

#[global] Instance read_ret : MRet Read := fun A a r => Ok (a, r).
#[global] Instance read_bind : MBind Read := fun A B k m r =>
  match m r with Ok (a, r) => k a r | Err e => Err e end.
#[global] Instance read_fmap : FMap Read := fun A B f m r =>
  match m r with Ok (a, r) => Ok (f a, r) | Err e => Err e end.

Definition of_result {A} (m : result Reason.Reason A) : Read A := fun r =>
  match m with Ok a => Ok (a, r) | Err e => Err e end.

Record Column := { column_buf : list Z; column_index : Z }.

Module Field.
Inductive Field := Data (column : Column) | Null (column : Z).
End Field.

Definition i16_of (l : list Z) : Z := as_i16 (from_be l).

Definition i32_of (l : list Z) : Z := as_i32 (from_be l).

Definition i64_of (l : list Z) : Z := as_i64 (from_be l).

(** [RowReader::new]. *)
Definition row_new (bytes : list Z) (want : Z) : result Reason.Reason RowReader :=
  match split_array 2 bytes with
  | None => Err (Reason.RowTruncated (zlen bytes))
  | Some (head, tail) =>
      let count := i16_of head in
      if count <? 0 then Err (Reason.NegativeColumnCount count)
      else if negb (count =? want) then Err (Reason.ColumnCount count want)
      else Ok {| buf := tail; columns_start := 0; columns_end := count |}
  end.

(** [RowReader::finish]. *)
Definition row_finish (r : RowReader) : result Reason.Reason () :=
  if columns_start r <? columns_end r then
    Err (Reason.RowUnread (columns_end r - columns_start r))
  else match buf r with [] => Ok () | _ => Err (Reason.RowTrailing (zlen (buf r))) end.

(** [RowReader::take_column]. *)
Definition take_column : Read Field.Field := fun r =>
  if negb (columns_start r <? columns_end r) then Err (Reason.RowDecoderColumns (columns_end r))
  else
    let index := columns_start r in
    match split_array 4 (buf r) with
    | None => Err (Reason.ColumnLength index (zlen (buf r)))
    | Some (head, tail) =>
        let len := i32_of head in
        let r := {| buf := tail; columns_start := index + 1; columns_end := columns_end r |} in
        if len =? -1 then Ok (Field.Null index, r)
        else if len <? 0 then Err (Reason.NegativeColumnLength index len)
        else
          match split_at (buf r) len with
          | None => Err (Reason.ColumnBytes index (zlen (buf r)) len)
          | Some (head, tail) =>
              Ok (Field.Data {| column_buf := head; column_index := index |},
                  {| buf := tail; columns_start := index + 1; columns_end := columns_end r |})
          end
    end.

(** [RowReader::require]. *)
Definition require : Read Column :=
  f ← take_column;
  match f with
  | Field.Data column => mret column
  | Field.Null column => of_result (Err (Reason.ColumnNull column))
  end.

(** [Column::fixed] at a width that fits 32 bits. *)
Definition fixed (n : Z) (c : Column) : result Reason.Reason (list Z) :=
  if zlen (column_buf c) =? n then Ok (column_buf c)
  else Err (Reason.ColumnWidth (column_index c) (zlen (column_buf c)) n).

Definition column_bool (c : Column) : result Reason.Reason bool :=
  l ← fixed 1 c;
  match l with
  | [0] => Ok false
  | [1] => Ok true
  | [actual] => Err (Reason.Bool (column_index c) actual)
  | _ => Ok false
  end.

(** [decode::text] and [decode::json]. *)
Definition text (column : Z) (bytes : list Z) : result Reason.Reason (list Z) :=
  map_err (fun e => Reason.TextUtf8 column (valid e) (error e)) (try_text bytes).

Definition json (column : Z) (bytes : list Z) : result Reason.Reason (list Z) :=
  match split_first bytes with
  | None => Err (Reason.JsonTruncated column 0)
  | Some (version, value) =>
      if negb (version =? 1) then Err (Reason.JsonVersion column version)
      else map_err (fun e => Reason.JsonUtf8 column (valid e) (error e)) (try_text value)
  end.

(** [Scalar::read_fixed], [Scalar::read_bool] and the integer and float readers. *)
Definition read_fixed (n : Z) : Read (list Z) := c ← require; of_result (fixed n c).

Definition read_bool : Read bool := c ← require; of_result (column_bool c).

Definition read_i16 : Read Z := i16_of <$> read_fixed 2.

Definition read_i32 : Read Z := i32_of <$> read_fixed 4.

Definition read_i64 : Read Z := i64_of <$> read_fixed 8.

Definition read_f32 : Read Z := from_be <$> read_fixed 4.

Definition read_f64 : Read Z := from_be <$> read_fixed 8.

(** [Data]. *)
Definition read_bytes : Read (list Z) := column_buf <$> require.

Definition read_text : Read (list Z) :=
  c ← require; of_result (text (column_index c) (column_buf c)).

Definition read_json : Read (list Z) :=
  c ← require; of_result (json (column_index c) (column_buf c)).

(** [Optional]: a null column is [None], anything else as when required. *)
Definition optional {A} (decode : Column -> result Reason.Reason A) : Read (option A) :=
  f ← take_column;
  match f with
  | Field.Data column => v ← of_result (decode column); mret (Some v)
  | Field.Null _ => mret None
  end.

Definition optional_fixed {A} (n : Z) (decode : list Z -> A) : Read (option A) :=
  optional (fun c => decode <$> fixed n c).

(** ** Arrays *)

Module ArrayElement.
Inductive ArrayElement := Exact (oid : Z) | String.
End ArrayElement.

(** [Column::take_fixed]. *)
Definition take_fixed (n : Z) (c : Column) : result Reason.Reason (list Z * Column) :=
  match split_array n (column_buf c) with
  | None => Err (Reason.ArrayHeader (column_index c) (zlen (column_buf c)) n)
  | Some (head, tail) => Ok (head, {| column_buf := tail; column_index := column_index c |})
  end.

(** The element type an array declares. *)
Definition check_element (column : Z) (want : ArrayElement.ArrayElement) (oid : Z)
    : result Reason.Reason () :=
  match want with
  | ArrayElement.Exact want =>
      if negb (oid =? want) then Err (Reason.ArrayOid column oid want) else Ok ()
  | ArrayElement.String =>
      if (oid =? 19) || (oid =? 25) || (oid =? 1042) || (oid =? 1043) then Ok ()
      else Err (Reason.ArrayTextOid column oid)
  end.

(** [Column::array_header]. *)
Definition array_header (want : ArrayElement.ArrayElement) (c : Column)
    : result Reason.Reason (Z * Column) :=
  r ← take_fixed 12 c;
  let '(head, c) := r in
  let ndim := i32_of (slice head 0 4) in
  let nulls := i32_of (slice head 4 8) in
  let oid := from_be (slice head 8 12) in
  _ ← check_element (column_index c) want oid;
  if negb (nulls =? 0) then Err (Reason.ArrayNulls (column_index c) nulls)
  else if ndim =? 0 then Ok (0, c)
  else if negb (ndim =? 1) then Err (Reason.ArrayDimensions (column_index c) ndim)
  else
    r ← take_fixed 8 c;
    let '(head, c) := r in
    let dim := i32_of (slice head 0 4) in
    if dim <? 0 then Err (Reason.NegativeArrayDimension (column_index c) dim)
    else if zlen (column_buf c) / 4 <? dim then
      Err (Reason.ArrayPayload (column_index c) dim (zlen (column_buf c)))
    else Ok (dim, c).

(** [array::Array]. *)
Record Array := { array_bytes : list Z; array_len : Z }.

(** [Arrays::read_i64], [read_i32] and [read_text]. *)
Definition read_array (want : ArrayElement.ArrayElement) : Read Array :=
  c ← require;
  r ← of_result (array_header want c);
  mret {| array_bytes := column_buf r.2; array_len := r.1 |}.

(** [array::finish]. *)
Definition array_finish (bytes : list Z) : result Reason.Reason () :=
  match bytes with [] => Ok () | _ => Err (Reason.ArrayTrailing (zlen bytes)) end.

(** [array::element]. *)
Definition element (bytes : list Z) : result Reason.Reason (list Z * list Z) :=
  match split_array 4 bytes with
  | None => Err (Reason.ArrayLength (zlen bytes))
  | Some (head, bytes) =>
      let len := i32_of head in
      if len =? -1 then Err Reason.ArrayNull
      else if len <? 0 then Err (Reason.NegativeArrayLength len)
      else
        match split_at bytes len with
        | None => Err (Reason.ArrayBytes (zlen bytes) len)
        | Some r => Ok r
        end
  end.

(** [Element::__read] of [i32], [i64] and [&str]. *)
Definition element_i32 (bytes : list Z) : result Reason.Reason (Z * list Z) :=
  r ← element bytes;
  if zlen r.1 =? 4 then Ok (i32_of r.1, r.2) else Err (Reason.ArrayI32Width (zlen r.1)).

Definition element_i64 (bytes : list Z) : result Reason.Reason (Z * list Z) :=
  r ← element bytes;
  if zlen r.1 =? 8 then Ok (i64_of r.1, r.2) else Err (Reason.ArrayI64Width (zlen r.1)).

Definition element_text (bytes : list Z) : result Reason.Reason (list Z * list Z) :=
  r ← element bytes;
  match try_text r.1 with
  | Ok value => Ok (value, r.2)
  | Err e => Err (Reason.ArrayTextUtf8 (valid e) (error e))
  end.

(** [array::State] of an iterator. *)
Module IterState.
Inductive State := Reading (bytes : list Z) (remaining : Z) | Done.
End IterState.

(** [Iter::next]. *)
Definition iter_next {T} (read : list Z -> result Reason.Reason (T * list Z)) (s : IterState.State)
    : option (result Reason.Reason T) * IterState.State :=
  match s with
  | IterState.Done => (None, IterState.Done)
  | IterState.Reading bytes left_ =>
      if left_ =? 0 then
        (match array_finish bytes with Ok () => None | Err e => Some (Err e) end, IterState.Done)
      else
        match read bytes with
        | Ok (value, bytes) => (Some (Ok value), IterState.Reading bytes (left_ - 1))
        | Err e => (Some (Err e), IterState.Done)
        end
  end.

(** [IntoIterator::into_iter]. *)
Definition into_iter (a : Array) : IterState.State :=
  IterState.Reading (array_bytes a) (array_len a).

(** ** Row types *)

(** The scalar types a row is made of, of the same name in [schema/row.rs]. *)
Module Leaf.
Inductive Leaf :=
| Bool | I16 | I32 | I64 | F32 | F64 | String | Text | Jsonb | Ltree | Bytes | Uuid | Timestamp | Date.
End Leaf.

Module Ty.
Inductive Ty :=
| Unit
| Leaf (leaf : Leaf.Leaf)
| Option (leaf : Leaf.Leaf)
| VecI32 | VecI64 | VecString
| Pair (a b : Ty)
| Triple (a b c : Ty)
| Quad (a b c d : Ty).
End Ty.

(** The views of a decoded row: integers by value, floats by their words. *)
Module Value.
Inductive Value :=
| Unit
| Bool (value : bool)
| Int (value : Z)
| Float (word : Z)
| Str (value : list Z)
| Bytes (value : list Z)
| Option (value : option Value)
| Array (value : Array)
| Pair (a b : Value)
| Triple (a b c : Value)
| Quad (a b c d : Value).
End Value.

(** [Row::decode] of the scalar types. *)
Definition decode_leaf (l : Leaf.Leaf) : Read Value.Value :=
  match l with
  | Leaf.Bool => Value.Bool <$> read_bool
  | Leaf.I16 => Value.Int <$> read_i16
  | Leaf.I32 => Value.Int <$> read_i32
  | Leaf.I64 => Value.Int <$> read_i64
  | Leaf.F32 => Value.Float <$> read_f32
  | Leaf.F64 => Value.Float <$> read_f64
  | Leaf.String | Leaf.Text | Leaf.Ltree => Value.Str <$> read_text
  | Leaf.Jsonb => Value.Str <$> read_json
  | Leaf.Bytes => Value.Bytes <$> read_bytes
  | Leaf.Uuid => Value.Bytes <$> read_fixed 16
  | Leaf.Timestamp => Value.Int <$> read_i64
  | Leaf.Date => Value.Int <$> read_i32
  end.

(** [Row::decode] of the optional types. *)
Definition decode_option (l : Leaf.Leaf) : Read Value.Value :=
  Value.Option <$>
  match l with
  | Leaf.Bool => optional (fun c => Value.Bool <$> column_bool c)
  | Leaf.I16 => optional_fixed 2 (fun l => Value.Int (i16_of l))
  | Leaf.I32 => optional_fixed 4 (fun l => Value.Int (i32_of l))
  | Leaf.I64 => optional_fixed 8 (fun l => Value.Int (i64_of l))
  | Leaf.F32 => optional_fixed 4 (fun l => Value.Float (from_be l))
  | Leaf.F64 => optional_fixed 8 (fun l => Value.Float (from_be l))
  | Leaf.String | Leaf.Text | Leaf.Ltree =>
      optional (fun c => Value.Str <$> text (column_index c) (column_buf c))
  | Leaf.Jsonb => optional (fun c => Value.Str <$> json (column_index c) (column_buf c))
  | Leaf.Bytes => optional (fun c => Ok (Value.Bytes (column_buf c)))
  | Leaf.Uuid => optional_fixed 16 Value.Bytes
  | Leaf.Timestamp => optional_fixed 8 (fun l => Value.Int (i64_of l))
  | Leaf.Date => optional_fixed 4 (fun l => Value.Int (i32_of l))
  end.

(** [Row::decode]. *)
Fixpoint decode (t : Ty.Ty) : Read Value.Value :=
  match t with
  | Ty.Unit => mret Value.Unit
  | Ty.Leaf l => decode_leaf l
  | Ty.Option l => decode_option l
  | Ty.VecI32 => Value.Array <$> read_array (ArrayElement.Exact 23)
  | Ty.VecI64 => Value.Array <$> read_array (ArrayElement.Exact 20)
  | Ty.VecString => Value.Array <$> read_array ArrayElement.String
  | Ty.Pair a b => a ← decode a; b ← decode b; mret (Value.Pair a b)
  | Ty.Triple a b c => a ← decode a; b ← decode b; c ← decode c; mret (Value.Triple a b c)
  | Ty.Quad a b c d =>
      a ← decode a; b ← decode b; c ← decode c; d ← decode d; mret (Value.Quad a b c d)
  end.

(** [RowReader::nullable]. *)
Definition nullable {A} (bytes : list Z) (decode : Read A) : result Reason.Reason (option A) :=
  reader ← row_new bytes 1;
  r ← match split_array 4 (buf reader) with
      | Some ([255; 255; 255; 255], tail) =>
          Ok (None, {| buf := tail; columns_start := 1; columns_end := columns_end reader |})
      | _ => r ← decode reader; Ok (Some r.1, r.2)
      end;
  _ ← row_finish r.2;
  Ok r.1.

(** ** Unchecked projection *)

(** The closed field descriptions of [decode::checked]. *)
Module Fields.
Inductive Fields :=
| Bool | I32 | I64 | String | Jsonb
| Last (a : Fields)
| Cons (a b : Fields).
End Fields.

(** The row type a description validates against. *)
Fixpoint fields_ty (f : Fields.Fields) : Ty.Ty :=
  match f with
  | Fields.Bool => Ty.Leaf Leaf.Bool
  | Fields.I32 => Ty.Leaf Leaf.I32
  | Fields.I64 => Ty.Leaf Leaf.I64
  | Fields.String => Ty.Leaf Leaf.String
  | Fields.Jsonb => Ty.Leaf Leaf.Jsonb
  | Fields.Last a => Ty.Pair (fields_ty a) Ty.Unit
  | Fields.Cons a b => Ty.Pair (fields_ty a) (fields_ty b)
  end.

(** [Row::validate]. *)
Definition validate (f : Fields.Fields) (bytes : list Z) (columns : Z) : result Reason.Reason () :=
  reader ← row_new bytes columns;
  r ← decode (fields_ty f) reader;
  row_finish r.2.

(** [Cursor::fixed]: the bytes behind the length field, without any test; [None]
    is a read outside the row. *)
Definition cursor_fixed (n : Z) (bytes : list Z) : option (list Z * list Z) :=
  value ← get_range bytes 4 (4 + n);
  rest ← get_from bytes (4 + n);
  Some (value, rest).

(** [Cursor::text]: likewise, and [None] also when the bytes are not a [str]. *)
Definition cursor_text (prefix : Z) (bytes : list Z) : option (list Z * list Z) :=
  length ← get_range bytes 0 4;
  let length := as_u64 (i32_of length) in
  text ← get_range bytes (4 + prefix) (4 + length);
  rest ← get_from bytes (4 + length);
  match from_utf8 text with Ok () => Some (text, rest) | Err _ => None end.

(** [Fields::read]. *)
Fixpoint fields_read (f : Fields.Fields) (bytes : list Z) : option (Value.Value * list Z) :=
  match f with
  | Fields.Bool =>
      r ← cursor_fixed 1 bytes; Some (Value.Bool (negb (default 0 (head r.1) =? 0)), r.2)
  | Fields.I32 => r ← cursor_fixed 4 bytes; Some (Value.Int (i32_of r.1), r.2)
  | Fields.I64 => r ← cursor_fixed 8 bytes; Some (Value.Int (i64_of r.1), r.2)
  | Fields.String => r ← cursor_text 0 bytes; Some (Value.Str r.1, r.2)
  | Fields.Jsonb => r ← cursor_text 1 bytes; Some (Value.Str r.1, r.2)
  | Fields.Last a => r ← fields_read a bytes; Some (Value.Pair r.1 Value.Unit, r.2)
  | Fields.Cons a b =>
      r ← fields_read a bytes; s ← fields_read b r.2; Some (Value.Pair r.1 s.1, s.2)
  end.

(** [Row::read]. *)
Definition row_read (f : Fields.Fields) (bytes : list Z) : option Value.Value :=
  bytes ← get_from bytes 2; r ← fields_read f bytes; Some r.1.

(** ** Columns *)

Lemma split_at_Some w n a r : 0 <= n -> split_at w n = Some (a, r) -> w = a ++ r /\ zlen a = n.
Proof. exact (split_array_Some n w a r). Qed.

Lemma split_at_app n a r : zlen a = n -> split_at (a ++ r) n = Some (a, r).
Proof. exact (split_array_app n a r). Qed.

Lemma take_column_Ok r f r' :
  take_column r = Ok (f, r') ->
  columns_start r < columns_end r /\ columns_start r' = columns_start r + 1 /\
  columns_end r' = columns_end r /\
  exists head, zlen head = 4 /\
    match f with
    | Field.Data c => buf r = head ++ column_buf c ++ buf r' /\ i32_of head = zlen (column_buf c) /\
                      column_index c = columns_start r
    | Field.Null i => buf r = head ++ buf r' /\ i32_of head = -1 /\ i = columns_start r
    end.
Proof.
  unfold take_column. destruct (Z.ltb_spec (columns_start r) (columns_end r)); [|done]. cbn [negb].
  destruct (split_array 4 (buf r)) as [[head tail]|] eqn:E; [|done].
  apply split_array_Some in E as [E Hh]; [|lia]. cbv zeta. cbn [buf].
  destruct (Z.eqb_spec (i32_of head) (-1)) as [Hn|Hn].
  { intros [= <- <-]. cbn [buf columns_start columns_end]. split_and!; try done. by exists head. }
  destruct (Z.ltb_spec (i32_of head) 0); [done|].
  destruct (split_at tail (i32_of head)) as [[p rest]|] eqn:F; [|done].
  apply split_at_Some in F as [F Hp]; [|done]. intros [= <- <-].
  cbn [buf columns_start columns_end column_buf column_index]. split_and!; try done.
  exists head. split; [done|]. by rewrite E, F.
Qed.

Lemma read_bind_Ok {A B} (m : Read A) (k : A -> Read B) r b r' :
  (m ≫= k) r = Ok (b, r') -> exists a r1, m r = Ok (a, r1) /\ k a r1 = Ok (b, r').
Proof. unfold mbind, read_bind. destruct (m r) as [[a r1]|]; [|done]. eauto. Qed.

Lemma read_fmap_Ok {A B} (f : A -> B) (m : Read A) r b r' :
  (f <$> m) r = Ok (b, r') -> exists a, m r = Ok (a, r') /\ b = f a.
Proof. unfold fmap, read_fmap. destruct (m r) as [[a r1]|]; [|done]. intros [= <- <-]. eauto. Qed.

Lemma of_result_Ok {A} (m : result Reason.Reason A) r a r' :
  of_result m r = Ok (a, r') -> m = Ok a /\ r' = r.
Proof. unfold of_result. destruct m; [|done]. by intros [= <- <-]. Qed.

Lemma require_Ok r c r' :
  require r = Ok (c, r') ->
  exists head, zlen head = 4 /\ buf r = head ++ column_buf c ++ buf r' /\
    i32_of head = zlen (column_buf c).
Proof.
  unfold require. intros (f & r1 & Hf & H)%read_bind_Ok.
  apply take_column_Ok in Hf as (_ & _ & _ & head & Hh & Hf).
  destruct f as [c'|i]; [|done]. injection H as -> ->. exists head. naive_solver.
Qed.

Lemma fixed_Ok n c l : fixed n c = Ok l -> l = column_buf c /\ zlen (column_buf c) = n.
Proof. unfold fixed. destruct (Z.eqb_spec (zlen (column_buf c)) n); [|done]. by intros [= <-]. Qed.

Lemma try_text_Ok w v : try_text w = Ok v -> v = w /\ from_utf8 w = Ok ().
Proof. unfold try_text. destruct (from_utf8 w) as [[]|[? ?]]; [|done]. by intros [= <-]. Qed.

Lemma map_err_Ok {E F A} (f : E -> F) (m : result E A) a : map_err f m = Ok a -> m = Ok a.
Proof. destruct m; [|done]. by intros [= ->]. Qed.

(** ** The unchecked reads of a validated row *)

Lemma cursor_fixed_app n head p rest :
  zlen head = 4 -> zlen p = n -> cursor_fixed n (head ++ p ++ rest) = Some (p, rest).
Proof.
  intros Hh Hp. unfold cursor_fixed.
  rewrite (proj2 (get_range_Some _ 4 (4 + n) p)).
  - cbn [mbind option_bind]. rewrite get_from_Some by (rewrite !length_app; lia).
    cbn [mbind option_bind]. rewrite app_assoc.
    replace (Z.to_nat (4 + n)) with (length (head ++ p)) by (rewrite length_app; lia).
    by rewrite drop_app_length.
  - rewrite !length_app. split_and!; [lia..|].
    pose proof (slice_middle head p rest) as E. rewrite Hh, Hp in E. by rewrite E.
Qed.

Lemma cursor_text_app prefix head a p rest :
  zlen head = 4 -> zlen a = prefix -> i32_of head = zlen (a ++ p) -> from_utf8 p = Ok () ->
  cursor_text prefix (head ++ (a ++ p) ++ rest) = Some (p, rest).
Proof.
  intros Hh Ha Hl Hu. unfold cursor_text.
  rewrite (proj2 (get_range_Some _ 0 4 head)).
  - cbn [mbind option_bind]. rewrite Hl.
    assert (zlen (a ++ p) <= i32_max) as Hmax.
    { rewrite <- Hl. unfold i32_of, as_i32, as_signed. cbv zeta.
      pose proof (Z.mod_pos_bound (from_be head) (2 ^ 32)).
      destruct (Z.ltb_spec (from_be head mod 2 ^ 32) (2 ^ (32 - 1))); lia. }
    rewrite as_u64_small by lia.
    rewrite (proj2 (get_range_Some _ (4 + prefix) (4 + zlen (a ++ p)) p)).
    + cbn [mbind option_bind]. rewrite get_from_Some by (rewrite !length_app; lia). cbn [mbind option_bind].
      rewrite app_assoc.
      replace (Z.to_nat (4 + zlen (a ++ p))) with (length (head ++ a ++ p)) by (rewrite !length_app; lia).
      by rewrite drop_app_length, Hu.
    + rewrite !length_app. split_and!; [lia..|].
      pose proof (slice_middle (head ++ a) p rest) as E. rewrite length_app in E.
      rewrite <- !app_assoc in *. rewrite <- E at 1. f_equal; lia.
  - rewrite !length_app. split_and!; [lia..|].
    pose proof (slice_middle [] head ((a ++ p) ++ rest)) as E. cbn [app length] in E.
    rewrite Hh in E. symmetry. exact E.
Qed.

Lemma fields_read_decode f r v r' :
  decode (fields_ty f) r = Ok (v, r') -> fields_read f (buf r) = Some (v, buf r').
Proof.
  revert r v r'. induction f as [| | | | |a IHa|a IHa b IHb]; intros r v r' H; cbn [fields_ty decode decode_leaf] in H.
  - apply read_fmap_Ok in H as (b & H & ->). apply read_bind_Ok in H as (c & r1 & H & Hb).
    apply of_result_Ok in Hb as [Hb ->]. apply require_Ok in H as (head & Hh & -> & _).
    unfold column_bool in Hb. apply bind_Ok in Hb as (l & (-> & Hl)%fixed_Ok & Hb).
    cbn [fields_read]. rewrite cursor_fixed_app by done. cbn [mbind option_bind fst snd].
    destruct (column_buf c) as [|x [|? ?]]; try (simpl in Hl; lia). cbn [List.head default].
    destruct x as [|[]|]; try done; by injection Hb as <-.
  - apply read_fmap_Ok in H as (x & H & ->). apply read_fmap_Ok in H as (l & H & ->).
    apply read_bind_Ok in H as (c & r1 & H & Hb). apply of_result_Ok in Hb as [(-> & Hl)%fixed_Ok ->].
    apply require_Ok in H as (head & Hh & -> & _). cbn [fields_read]. by rewrite cursor_fixed_app.
  - apply read_fmap_Ok in H as (x & H & ->). apply read_fmap_Ok in H as (l & H & ->).
    apply read_bind_Ok in H as (c & r1 & H & Hb). apply of_result_Ok in Hb as [(-> & Hl)%fixed_Ok ->].
    apply require_Ok in H as (head & Hh & -> & _). cbn [fields_read]. by rewrite cursor_fixed_app.
  - apply read_fmap_Ok in H as (x & H & ->). apply read_bind_Ok in H as (c & r1 & H & Hb).
    apply of_result_Ok in Hb as [(-> & Hu)%map_err_Ok%try_text_Ok ->].
    apply require_Ok in H as (head & Hh & -> & Hl). cbn [fields_read].
    pose proof (cursor_text_app 0 head [] (column_buf c) (buf r1) Hh eq_refl Hl Hu) as E.
    cbn [app] in E. by rewrite E.
  - apply read_fmap_Ok in H as (x & H & ->). apply read_bind_Ok in H as (c & r1 & H & Hb).
    apply of_result_Ok in Hb as [Hb ->]. unfold json in Hb.
    apply require_Ok in H as (head & Hh & -> & Hl).
    destruct (column_buf c) as [|b p]; [done|]. cbn [split_first] in Hb.
    destruct (Z.eqb_spec b 1); [|done]. apply map_err_Ok, try_text_Ok in Hb as [-> Hu].
    cbn [fields_read].
    change (b :: p) with ([b] ++ p) in *.
    by rewrite (cursor_text_app 1 head [b] p (buf r1) Hh eq_refl Hl Hu).
  - apply read_bind_Ok in H as (x & r1 & H & Hb). injection Hb as <- <-.
    cbn [fields_read]. by rewrite (IHa _ _ _ H).
  - apply read_bind_Ok in H as (x & r1 & H & Hb). apply read_bind_Ok in Hb as (y & r2 & Hb & Hc).
    injection Hc as <- <-. cbn [fields_read]. rewrite (IHa _ _ _ H). cbn [mbind option_bind snd].
    by rewrite (IHb _ _ _ Hb).
Qed.

Lemma row_new_Ok bytes want r :
  row_new bytes want = Ok r ->
  exists head, zlen head = 2 /\ bytes = head ++ buf r /\ i16_of head = want /\
    columns_start r = 0 /\ columns_end r = want.
Proof.
  unfold row_new. destruct (split_array 2 bytes) as [[head tail]|] eqn:E; [|done].
  apply split_array_Some in E as [-> Hh]; [|lia]. destruct (_ <? 0); [done|].
  destruct (Z.eqb_spec (i16_of head) want); [|done]. intros [= <-]. by exists head.
Qed.

(** C33. A validated row may be read without tests: where validation accepts,
    the unchecked projection stays inside the row, makes no text of bytes that
    are not, and yields exactly the view the checked decoder gives. *)
Theorem validated_read f bytes columns :
  validate f bytes columns = Ok () ->
  exists reader v rest, row_new bytes columns = Ok reader /\
    decode (fields_ty f) reader = Ok (v, rest) /\ row_read f bytes = Some v.
Proof.
  unfold validate. intros (reader & Hr & H)%bind_Ok. apply bind_Ok in H as ([v rest] & Hd & _).
  exists reader, v, rest. split_and!; [done|done|]. unfold row_read.
  apply row_new_Ok in Hr as (head & Hh & -> & _).
  rewrite get_from_Some by (rewrite length_app; lia). cbn [mbind option_bind].
  replace (Z.to_nat 2) with (length head) by lia. rewrite drop_app_length.
  by rewrite (fields_read_decode _ _ _ _ Hd).
Qed.
