(* ===== verification/PgBind.v ===== *)
(** * Parameters of a bind message

    Models [pg/src/protocol/value/encode.rs]: every parameter is checked against
    the type and the format its statement declares before it is written, and the
    writer ends only when all are written. What it writes is what the row reader
    of [PgRow] reads. *)
From S2P Require Import Prelude PgWire PgEncode PgRow.

(** [value::encode::wire_length] and [count32]. *)
Definition value_length (value : Z) : result EncError.Error Z :=
  if i32_max <? value then Err (EncError.ValueLength value) else Ok (as_i32 value).

Definition count32 (value : Z) : result EncError.Error Z :=
  if i32_max <? value then Err (EncError.ArrayElements value) else Ok (as_i32 value).

(** The values a caller binds, by the method it calls. *)
Module Param.
Inductive Param :=
| Null
| Bool (value : bool)
| I16 (value : Z) | I32 (value : Z) | I64 (value : Z)
| F32 (word : Z) | F64 (word : Z)
| Text (value : list Z) | Ltree (value : list Z) | Jsonb (value : list Z)
| Bytes (value : list Z) | Uuid (value : list Z)
| Time (value : Z) | Date (value : Z)
| ArrayI64 (items : list Z) | ArrayI32 (items : list Z) | ArrayText (items : list (list Z))
| ArrayI16 (items : list Z) | ArrayF32 (items : list Z) | ArrayF64 (items : list Z)
| ArrayBool (items : list bool).
End Param.

Record BindWriter (W : Type) := { out : W; index : Z }.
Arguments out {W} b.
Arguments index {W} b.

Section bind.
Context {W : Type} `{!Spare W}.
Context (oids formats : list Z).

Definition Bw : Type := BindWriter W -> result EncError.Error (BindWriter W).

(** [BindWriter::new]. *)
Definition bw_new (w : W) : BindWriter W := {| out := w; index := 0 |}.

Definition write_with_len (payload : list Z) : Emit W () :=
  length ← lift (value_length (zlen payload));
  write_slices [to_be 4 length; payload].

(** The format declared for a parameter: none is text, one is for all; the
    admission of the statement binds several to the number of types. *)
Definition declared_format (index : Z) : Z :=
  match formats with
  | [] => 0
  | [format] => format
  | formats => default 0 (get formats index)
  end.

(** [BindWriter::check]. *)
Definition check (index oid format : Z) : result EncError.Error () :=
  match get oids index with
  | None => Err (EncError.ParameterValueCount (zlen oids) (zlen oids + 1))
  | Some expected =>
      if negb (oid =? expected) then Err (EncError.ParameterOid index expected oid)
      else
        let expected := declared_format index in
        if negb (format =? expected) then Err (EncError.ParameterEncoding index expected format)
        else Ok ()
  end.

Definition check_any (index : Z) : result EncError.Error () :=
  if zlen oids <=? index then Err (EncError.ParameterValueCount (zlen oids) (zlen oids + 1))
  else Ok ().

(** [BindWriter::write]. *)
Definition bw_write (oid format : Z) (write : Emit W ()) : Bw := fun b =>
  _ ← check (index b) oid format;
  r ← write (out b);
  Ok {| out := r.2; index := index b + 1 |}.

Definition write_null : Bw := fun b =>
  _ ← check_any (index b);
  r ← extend (to_be 4 (-1)) (out b);
  Ok {| out := r.2; index := index b + 1 |}.

(** [BindWriter::finish]. *)
Definition bw_finish (b : BindWriter W) : result EncError.Error () :=
  if index b =? zlen oids then Ok () else Err (EncError.ParameterValueCount (zlen oids) (index b)).

Definition write_array (oid element len : Z) (write : Emit W ()) : Bw :=
  bw_write oid 1 (
    count ← lift (count32 len);
    patch false (
      write_slices [to_be 4 1; to_be 4 0; to_be 4 element; to_be 4 count; to_be 4 1];;
      write)).

(** [for value in items { write_with_len(..)?; }]. *)
Fixpoint write_items (items : list (list Z)) : Emit W () :=
  match items with
  | [] => mret ()
  | item :: items => write_with_len item;; write_items items
  end.

Definition bool_byte (b : bool) : Z := if b then 1 else 0.

(** [Scalar]; floats are their words. *)
Definition scalar_write_bool (value : bool) : Bw := bw_write 16 1 (write_with_len [bool_byte value]).

Definition scalar_write_i16 (value : Z) : Bw := bw_write 21 1 (write_with_len (to_be 2 value)).

Definition scalar_write_i32 (value : Z) : Bw := bw_write 23 1 (write_with_len (to_be 4 value)).

Definition scalar_write_i64 (value : Z) : Bw := bw_write 20 1 (write_with_len (to_be 8 value)).

Definition scalar_write_f32 (value : Z) : Bw := bw_write 700 1 (write_with_len (to_be 4 value)).

Definition scalar_write_f64 (value : Z) : Bw := bw_write 701 1 (write_with_len (to_be 8 value)).

(** [Data]. *)
Definition data_write_text (value : list Z) : Bw := bw_write 25 1 (write_with_len value).

Definition data_write_ltree (value : list Z) : Bw := bw_write 25 0 (write_with_len value).

Definition data_write_jsonb (value : list Z) : Bw :=
  bw_write 3802 1 (
    let len := zlen value + 1 in
    length ← lift (value_length len);
    write_slices [to_be 4 length; [1]; value]).

Definition data_write_bytes (value : list Z) : Bw := bw_write 17 1 (write_with_len value).

Definition data_write_uuid (value : list Z) : Bw := bw_write 2950 1 (write_with_len value).

Definition data_write_time (value : Z) : Bw := bw_write 1114 1 (write_with_len (to_be 8 value)).

Definition data_write_date (value : Z) : Bw := bw_write 1082 1 (write_with_len (to_be 4 value)).

(** [Array]. *)
Definition array_write_i64 (items : list Z) : Bw :=
  write_array 1016 20 (zlen items) (write_items (to_be 8 <$> items)).

Definition array_write_i32 (items : list Z) : Bw :=
  write_array 1007 23 (zlen items) (write_items (to_be 4 <$> items)).

Definition array_write_text (items : list (list Z)) : Bw :=
  write_array 1009 25 (zlen items) (write_items items).

Definition array_write_i16 (items : list Z) : Bw :=
  write_array 1005 21 (zlen items) (write_items (to_be 2 <$> items)).

Definition array_write_f32 (items : list Z) : Bw :=
  write_array 1021 700 (zlen items) (write_items (to_be 4 <$> items)).

Definition array_write_f64 (items : list Z) : Bw :=
  write_array 1022 701 (zlen items) (write_items (to_be 8 <$> items)).

Definition array_write_bool (items : list bool) : Bw :=
  write_array 1000 16 (zlen items) (write_items ((fun b => [bool_byte b]) <$> items)).

(** ** Parameters *)

(** An array by its declared type, its elements' type and their bytes. *)
Definition array_of (p : Param.Param) : option (Z * Z * list (list Z)) :=
  match p with
  | Param.ArrayI64 items => Some (1016, 20, to_be 8 <$> items)
  | Param.ArrayI32 items => Some (1007, 23, to_be 4 <$> items)
  | Param.ArrayText items => Some (1009, 25, items)
  | Param.ArrayI16 items => Some (1005, 21, to_be 2 <$> items)
  | Param.ArrayF32 items => Some (1021, 700, to_be 4 <$> items)
  | Param.ArrayF64 items => Some (1022, 701, to_be 8 <$> items)
  | Param.ArrayBool items => Some (1000, 16, (fun b => [bool_byte b]) <$> items)
  | _ => None
  end.

(** Any other value by its type, its format and its bytes. *)
Definition scalar_of (p : Param.Param) : option (Z * Z * list Z) :=
  match p with
  | Param.Bool b => Some (16, 1, [bool_byte b])
  | Param.I16 x => Some (21, 1, to_be 2 x)
  | Param.I32 x => Some (23, 1, to_be 4 x)
  | Param.I64 x => Some (20, 1, to_be 8 x)
  | Param.F32 x => Some (700, 1, to_be 4 x)
  | Param.F64 x => Some (701, 1, to_be 8 x)
  | Param.Text v => Some (25, 1, v)
  | Param.Ltree v => Some (25, 0, v)
  | Param.Jsonb v => Some (3802, 1, 1 :: v)
  | Param.Bytes v => Some (17, 1, v)
  | Param.Uuid v => Some (2950, 1, v)
  | Param.Time x => Some (1114, 1, to_be 8 x)
  | Param.Date x => Some (1082, 1, to_be 4 x)
  | _ => None
  end.

(** A value behind its length. *)
Definition sized (payload : list Z) : list Z := to_be 4 (zlen payload) ++ payload.

Definition array_payload (element : Z) (items : list (list Z)) : list Z :=
  (to_be 4 1 ++ to_be 4 0 ++ to_be 4 element ++ to_be 4 (zlen items) ++ to_be 4 1) ++
  concat (sized <$> items).

(** Type, format and text of a parameter; null has no type. *)
Definition param_spec (p : Param.Param) : option (Z * Z * list Z) :=
  match scalar_of p, array_of p with
  | Some s, _ => Some s
  | None, Some (oid, element, items) => Some (oid, 1, array_payload element items)
  | None, None => None
  end.

Definition param_text (p : Param.Param) : list Z :=
  match param_spec p with Some (_, _, payload) => sized payload | None => to_be 4 (-1) end.

(** Sizes within the fields of the format. *)
Definition param_fits (p : Param.Param) : Prop :=
  match param_spec p with
  | Some (_, _, payload) => zlen payload <= i32_max
  | None => True
  end.

(** The method called for each. *)
Definition write_param (p : Param.Param) : Bw :=
  match p with
  | Param.Null => write_null
  | Param.Bool b => scalar_write_bool b
  | Param.I16 x => scalar_write_i16 x
  | Param.I32 x => scalar_write_i32 x
  | Param.I64 x => scalar_write_i64 x
  | Param.F32 x => scalar_write_f32 x
  | Param.F64 x => scalar_write_f64 x
  | Param.Text v => data_write_text v
  | Param.Ltree v => data_write_ltree v
  | Param.Jsonb v => data_write_jsonb v
  | Param.Bytes v => data_write_bytes v
  | Param.Uuid v => data_write_uuid v
  | Param.Time x => data_write_time x
  | Param.Date x => data_write_date x
  | Param.ArrayI64 items => array_write_i64 items
  | Param.ArrayI32 items => array_write_i32 items
  | Param.ArrayText items => array_write_text items
  | Param.ArrayI16 items => array_write_i16 items
  | Param.ArrayF32 items => array_write_f32 items
  | Param.ArrayF64 items => array_write_f64 items
  | Param.ArrayBool items => array_write_bool items
  end.

Fixpoint write_params (ps : list Param.Param) : Bw := fun b =>
  match ps with
  | [] => _ ← bw_finish b; Ok b
  | p :: ps => b ← write_param p b; write_params ps b
  end.

(** The values of one message, as its bind writer is made, used and finished. *)
Definition write_values (ps : list Param.Param) : Emit W () := fun w =>
  b ← write_params ps (bw_new w); Ok ((), out b).

(** What the statement declares of the parameter at an index. *)
Definition admits (index : Z) (p : Param.Param) : result EncError.Error () :=
  match param_spec p with
  | Some (oid, format, _) => check index oid format
  | None => check_any index
  end.

Fixpoint admits_all (index : Z) (ps : list Param.Param) : result EncError.Error () :=
  match ps with
  | [] => if index =? zlen oids then Ok () else Err (EncError.ParameterValueCount (zlen oids) index)
  | p :: ps => _ ← admits index p; admits_all (index + 1) ps
  end.

(** *** The statement, beside the code *)

(** The type and the format of every parameter: no format is text for all, one is for
    all, and several are one each. *)
Definition declared : list (Z * Z) :=
  imap (fun i oid => (oid, match formats with [] => 0 | [format] => format | _ => default 0 (formats !! i) end)) oids.

(** A value in its place: of the declared type, written in the declared format. A null
    goes anywhere. *)
Definition suits (p : Param.Param) (d : Z * Z) : Prop :=
  match param_spec p with Some (oid, format, _) => oid = d.1 /\ format = d.2 | None => True end.

#[export] Instance suits_dec p d : Decision (suits p d).
Proof. unfold suits. destruct (param_spec p) as [[[oid format] payload]|]; exact _. Defined.

(** The first value out of place, from the index of the first of them: one too many, one
    of another type, one in another format; or, after the last, how many there were. *)
Fixpoint offence (index : Z) (ps : list Param.Param) (ds : list (Z * Z)) : EncError.Error :=
  match ps, ds with
  | [], _ => EncError.ParameterValueCount (zlen oids) index
  | _ :: _, [] => EncError.ParameterValueCount (zlen oids) (zlen oids + 1)
  | p :: ps, (type, format) :: ds =>
      match param_spec p with
      | Some (own_type, own_format, _) =>
          if decide (own_type = type) then
            if decide (own_format = format) then offence (index + 1) ps ds
            else EncError.ParameterEncoding index format own_format
          else EncError.ParameterOid index type own_type
      | None => offence (index + 1) ps ds
      end
  end.

Context `{!SpareLaws W}.

Lemma declared_lookup i :
  declared !! i = (fun oid => (oid, declared_format (Z.of_nat i))) <$> oids !! i.
Proof.
  unfold declared, declared_format. rewrite list_lookup_imap. destruct (oids !! i); [|done]. cbn. do 2 f_equal.
  destruct formats as [|f [|g fs]]; try done. unfold get. rewrite (proj2 (Z.leb_le _ _)) by lia. by rewrite Nat2Z.id.
Qed.

Lemma length_declared : length declared = length oids.
Proof. apply length_imap. Qed.

(** The check at an index is against what is declared there. *)
Lemma admits_declared i p :
  admits (Z.of_nat i) p =
  match declared !! i with
  | Some (type, format) => if decide (suits p (type, format)) then Ok () else Err (offence (Z.of_nat i) [p] [(type, format)])
  | None => Err (EncError.ParameterValueCount (zlen oids) (zlen oids + 1))
  end.
Proof.
  rewrite declared_lookup. destruct (oids !! i) as [type|] eqn:E; cbn.
  - destruct (decide (suits p (type, declared_format (Z.of_nat i)))) as [Hs|Hs];
      unfold suits in Hs; unfold admits, check, check_any, get; rewrite (proj2 (Z.leb_le 0 _)), Nat2Z.id, E by lia;
      apply lookup_lt_Some in E; destruct (Z.leb_spec (zlen oids) (Z.of_nat i)); try lia;
      destruct (param_spec p) as [[[oid format] payload]|]; cbn in *; try done;
      destruct (Z.eqb_spec oid type), (Z.eqb_spec format (declared_format (Z.of_nat i))); cbn;
      repeat case_decide; naive_solver.
  - unfold admits, check, check_any, get. rewrite (proj2 (Z.leb_le 0 _)), Nat2Z.id, E by lia.
    apply lookup_ge_None in E. destruct (Z.leb_spec (zlen oids) (Z.of_nat i)); [|lia].
    by destruct (param_spec p) as [[[oid format] payload]|].
Qed.

(** All the checks, against all that is declared. *)
Lemma admits_all_declared ps i :
  (i <= length oids)%nat ->
  admits_all (Z.of_nat i) ps =
  if decide (Forall2 suits ps (drop i declared)) then Ok () else Err (offence (Z.of_nat i) ps (drop i declared)).
Proof.
  revert i. induction ps as [|p ps IH]; intros i Hi; cbn [admits_all].
  - destruct (Z.eqb_spec (Z.of_nat i) (zlen oids)) as [E|E].
    + rewrite decide_True; [done|]. rewrite drop_ge by (rewrite length_declared; lia). constructor.
    + rewrite decide_False; [done|]. intros H%Forall2_length. rewrite length_drop, length_declared in H. cbn in H. lia.
  - rewrite admits_declared. destruct (declared !! i) as [[type format]|] eqn:E.
    + apply lookup_lt_Some in E as Hlt. rewrite length_declared in Hlt. rewrite (drop_S _ _ _ E).
      assert (offence (Z.of_nat i) (p :: ps) ((type, format) :: drop (S i) declared) =
        if decide (suits p (type, format)) then offence (Z.of_nat i + 1) ps (drop (S i) declared)
        else offence (Z.of_nat i) [p] [(type, format)]) as ->.
      { destruct (decide (suits p (type, format))) as [Hs|Hs]; unfold suits in Hs; cbn [offence];
          destruct (param_spec p) as [[[oid f] pl]|]; cbn in *; repeat case_decide; naive_solver. }
      destruct (decide (suits p (type, format))) as [Hs|Hs]; cbn [mbind result_bind].
      * replace (Z.of_nat i + 1) with (Z.of_nat (S i)) by lia. rewrite IH by lia.
        destruct (decide (Forall2 suits ps (drop (S i) declared))) as [H|H]; [by rewrite decide_True by (by constructor)|].
        rewrite decide_False; [done|]. intros Hf. inversion Hf. done.
      * rewrite decide_False; [done|]. intros Hf. inversion Hf. done.
    + apply lookup_ge_None in E. rewrite drop_ge by done. cbn. rewrite decide_False; [done|]. intros Hf. inversion Hf.
Qed.

Lemma value_length_Ok n : 0 <= n <= i32_max -> value_length n = Ok n.
Proof.
  intros Hn. unfold value_length. destruct (Z.ltb_spec i32_max n); [lia|]. by rewrite as_i32_small.
Qed.

Lemma count32_Ok n : 0 <= n <= i32_max -> count32 n = Ok n.
Proof.
  intros Hn. unfold count32. destruct (Z.ltb_spec i32_max n); [lia|]. by rewrite as_i32_small.
Qed.

Lemma emits_sized payload : zlen payload <= i32_max -> emits (write_with_len payload) (sized payload) ().
Proof.
  intros H. unfold write_with_len, sized.
  change (to_be 4 (zlen payload) ++ payload) with ([] ++ to_be 4 (zlen payload) ++ payload).
  eapply emits_bind.
  - apply emits_lift, value_length_Ok. lia.
  - pose proof (emits_slices [to_be 4 (zlen payload); payload]) as E. cbn [concat] in E.
    by rewrite app_nil_r in E.
Qed.

Lemma length_array_items items : zlen items <= zlen (concat (sized <$> items)).
Proof.
  induction items as [|item items IH]; [done|]. rewrite fmap_cons. cbn [concat length].
  rewrite length_app. unfold sized at 1. rewrite length_app, length_to_be. lia.
Qed.

Lemma emits_items items :
  zlen (concat (sized <$> items)) <= i32_max ->
  emits (write_items items) (concat (sized <$> items)) ().
Proof.
  induction items as [|item items IH]; intros H; [apply emits_ret|].
  rewrite fmap_cons in *. cbn [concat write_items] in *. rewrite length_app in H.
  assert (zlen item <= zlen (sized item)) by (unfold sized; rewrite length_app; lia).
  eapply emits_bind; [apply emits_sized; lia|apply IH; lia].
Qed.

(** The writer of a value, under the type and the format it declares. *)
Lemma write_param_writes p :
  param_fits p ->
  exists m : Emit W (), emits m (param_text p) () /\
    match param_spec p with
    | Some (oid, format, _) => write_param p = bw_write oid format m
    | None => write_param p = fun b =>
        _ ← check_any (index b); r ← m (out b); Ok {| out := r.2; index := index b + 1 |}
    end.
Proof.
  intros Hf. unfold param_fits, param_text in *. destruct (array_of p) as [[[oid element] items]|] eqn:Ea.
  - assert (param_spec p = Some (oid, 1, array_payload element items)) as Es
      by (unfold param_spec; rewrite Ea; by destruct p).
    rewrite Es in *. eexists (count ← lift (count32 (zlen items));
      patch false (write_slices [to_be 4 1; to_be 4 0; to_be 4 element; to_be 4 count; to_be 4 1];;
        write_items items)). split.
    + pose proof (length_array_items items). unfold array_payload in Hf. rewrite length_app in Hf.
      change (sized (array_payload element items)) with ([] ++ sized (array_payload element items)).
      eapply emits_bind; [apply emits_lift, count32_Ok; lia|].
      apply (emits_patch false); [|unfold patched, array_payload; rewrite length_app; lia].
      eapply emits_bind; [|apply emits_items; lia].
      pose proof (emits_slices [to_be 4 1; to_be 4 0; to_be 4 element; to_be 4 (zlen items); to_be 4 1]) as E.
      cbn [concat] in E. by rewrite app_nil_r in E.
    + destruct p; try discriminate Ea; injection Ea as <- <- <-; cbn [write_param];
        unfold array_write_i64, array_write_i32, array_write_text, array_write_i16, array_write_f32,
          array_write_f64, array_write_bool, write_array; rewrite ?length_fmap; reflexivity.
  - destruct (scalar_of p) as [[[oid format] payload]|] eqn:Es.
    + assert (param_spec p = Some (oid, format, payload)) as E by (unfold param_spec; by rewrite Es).
      rewrite E in *. assert ((exists v, p = Param.Jsonb v) \/ forall v, p <> Param.Jsonb v) as [[v ->]|Hj]
        by (destruct p; ((right; done) || (left; by eexists))).
      * injection Es as <- <- <-. eexists. split; [|reflexivity]. unfold sized.
        replace (zlen (1 :: v)) with (zlen v + 1) in * by (cbn [length]; lia).
        change (to_be 4 (zlen v + 1) ++ 1 :: v) with ([] ++ to_be 4 (zlen v + 1) ++ [1] ++ v).
        eapply emits_bind; [apply emits_lift, value_length_Ok; lia|].
        pose proof (emits_slices [to_be 4 (zlen v + 1); [1]; v]) as F. cbn [concat] in F.
        by rewrite app_nil_r in F.
      * exists (write_with_len payload). split; [by apply emits_sized|].
        destruct p; try discriminate Es; try (exfalso; by eapply Hj); by injection Es as <- <- <-.
    + assert (param_spec p = None) as E by (unfold param_spec; by rewrite Es, Ea). rewrite E.
      exists (extend (to_be 4 (-1))). split; [apply emits_extend|]. by destruct p.
Qed.

Lemma write_params_run ps b :
  Forall param_fits ps ->
  match admits_all (index b) ps with
  | Ok () =>
      (zlen (concat (param_text <$> ps)) <= room (out b) ->
       exists b', write_params ps b = Ok b' /\ as_slice (out b') = as_slice (out b) ++ concat (param_text <$> ps) /\
         room (out b') = room (out b) - zlen (concat (param_text <$> ps))) /\
      (room (out b) < zlen (concat (param_text <$> ps)) -> exists e, write_params ps b = Err e)
  | Err e => zlen (concat (param_text <$> ps)) <= room (out b) -> write_params ps b = Err e
  end.
Proof.
  intros Hf. revert b. induction Hf as [|p ps Hp Hps IH]; intros b.
  - cbn [admits_all write_params concat fmap list_fmap]. unfold bw_finish.
    destruct (index b =? zlen oids); [|done]. cbn [mbind result_bind]. split.
    + intros _. exists b. rewrite app_nil_r. split_and!; [done|done|simpl; lia].
    + intros H. pose proof (room_nonneg (out b)). simpl in H. lia.
  - rewrite fmap_cons. cbn [concat admits_all write_params]. rewrite length_app.
    destruct (write_param_writes p Hp) as (m & Hm & Hw).
    assert (write_param p b = (_ ← admits (index b) p; r ← m (out b);
      Ok {| out := r.2; index := index b + 1 |})) as ->.
    { unfold admits. destruct (param_spec p) as [[[oid format] payload]|]; by rewrite Hw. }
    destruct (admits (index b) p) as [[]|e] eqn:Ea; cbn [mbind result_bind]; [|done].
    destruct (Hm (out b)) as [Hm1 Hm2].
    destruct (Z_le_gt_dec (zlen (param_text p)) (room (out b))) as [L|L].
    + destruct (Hm1 L) as (w1 & -> & S1 & R1). cbn [mbind result_bind snd].
      specialize (IH {| out := w1; index := index b + 1 |}). cbn [index out] in IH.
      destruct (admits_all (index b + 1) ps) as [[]|e].
      * destruct IH as [IH1 IH2]. split.
        -- intros Hr. destruct IH1 as (b' & -> & S2 & R2); [lia|]. exists b'.
           split_and!; [done|by rewrite S2, S1, app_assoc|lia].
        -- intros Hr. apply IH2. lia.
      * intros Hr. apply IH. lia.
    + destruct Hm2 as [e ->]; [lia|]. cbn [mbind result_bind].
      destruct (admits_all (index b + 1) ps) as [[]|e'].
      * split; [lia|]. intros _. by eexists.
      * lia.
Qed.

(** C35. Values are bound as the statement declares them, or refused. When each has the
    declared type and format of its place (a null any) and there are as many as declared,
    binding writes them all, each behind its length and in order, if there is room;
    otherwise it fails with the first offence: a value too many, of another type or in
    another format, at its place and with what was declared there, or too few values. *)
Theorem bind_values_exact ps :
  Forall param_fits ps ->
  (Forall2 suits ps declared -> emits (write_values ps) (concat (param_text <$> ps)) ()) /\
  (~ Forall2 suits ps declared ->
    forall w, zlen (concat (param_text <$> ps)) <= room w -> write_values ps w = Err (offence 0 ps declared)).
Proof.
  intros Hf. pose proof (admits_all_declared ps 0 ltac:(lia)) as Ea. rewrite drop_0 in Ea. change (Z.of_nat 0) with 0 in Ea.
  split; intros Hs.
  - rewrite decide_True in Ea by done. intros w. pose proof (write_params_run ps (bw_new w) Hf) as H.
    cbn [bw_new index out] in H. rewrite Ea in H. destruct H as [H1 H2]. unfold write_values. split.
    + intros Hr. destruct (H1 Hr) as (b' & -> & S & R). by exists (out b').
    + intros Hr. destruct (H2 Hr) as [e ->]. by exists e.
  - rewrite decide_False in Ea by done. intros w Hr. pose proof (write_params_run ps (bw_new w) Hf) as H.
    cbn [bw_new index out] in H. rewrite Ea in H. unfold write_values. by rewrite (H Hr).
Qed.
End bind.

(** ** Reading back *)

Lemma i32_of_to_be x : - 2 ^ 31 <= x < 2 ^ 31 -> i32_of (to_be 4 x) = x.
Proof.
  intros H. unfold i32_of, as_i32. rewrite from_be_to_be. change (256 ^ Z.of_nat 4) with (2 ^ 32).
  by apply as_signed_mod.
Qed.

Lemma i16_of_to_be x : - 2 ^ 15 <= x < 2 ^ 15 -> i16_of (to_be 2 x) = x.
Proof.
  intros H. unfold i16_of, as_i16. rewrite from_be_to_be. change (256 ^ Z.of_nat 2) with (2 ^ 16).
  by apply as_signed_mod.
Qed.

Lemma i64_of_to_be x : - 2 ^ 63 <= x < 2 ^ 63 -> i64_of (to_be 8 x) = x.
Proof.
  intros H. unfold i64_of, as_i64. rewrite from_be_to_be. change (256 ^ Z.of_nat 8) with (2 ^ 64).
  by apply as_signed_mod.
Qed.

Lemma from_be_word n x : 0 <= x < 256 ^ Z.of_nat n -> from_be (to_be n x) = x.
Proof. intros H. rewrite from_be_to_be. by apply Z.mod_small. Qed.

(** The view of a parameter under a scalar type. *)
Inductive reads_leaf : Leaf.Leaf -> Param.Param -> Value.Value -> Prop :=
| reads_bool b : reads_leaf Leaf.Bool (Param.Bool b) (Value.Bool b)
| reads_i16 x : - 2 ^ 15 <= x < 2 ^ 15 -> reads_leaf Leaf.I16 (Param.I16 x) (Value.Int x)
| reads_i32 x : - 2 ^ 31 <= x < 2 ^ 31 -> reads_leaf Leaf.I32 (Param.I32 x) (Value.Int x)
| reads_i64 x : - 2 ^ 63 <= x < 2 ^ 63 -> reads_leaf Leaf.I64 (Param.I64 x) (Value.Int x)
| reads_f32 w : 0 <= w < 2 ^ 32 -> reads_leaf Leaf.F32 (Param.F32 w) (Value.Float w)
| reads_f64 w : 0 <= w < 2 ^ 64 -> reads_leaf Leaf.F64 (Param.F64 w) (Value.Float w)
| reads_string v : utf8_valid v -> reads_leaf Leaf.String (Param.Text v) (Value.Str v)
| reads_text v : utf8_valid v -> reads_leaf Leaf.Text (Param.Text v) (Value.Str v)
| reads_ltree v : utf8_valid v -> reads_leaf Leaf.Ltree (Param.Ltree v) (Value.Str v)
| reads_jsonb v : utf8_valid v -> reads_leaf Leaf.Jsonb (Param.Jsonb v) (Value.Str v)
| reads_bytes v : reads_leaf Leaf.Bytes (Param.Bytes v) (Value.Bytes v)
| reads_uuid v : zlen v = 16 -> reads_leaf Leaf.Uuid (Param.Uuid v) (Value.Bytes v)
| reads_time x : - 2 ^ 63 <= x < 2 ^ 63 -> reads_leaf Leaf.Timestamp (Param.Time x) (Value.Int x)
| reads_date x : - 2 ^ 31 <= x < 2 ^ 31 -> reads_leaf Leaf.Date (Param.Date x) (Value.Int x).

(** The view of the elements of an array. *)
Definition array_view (items : list (list Z)) : Value.Value :=
  Value.Array {| array_bytes := concat (sized <$> items); array_len := zlen items |}.

(** The view of parameters under a row type. *)
Inductive reads : Ty.Ty -> list Param.Param -> Value.Value -> Prop :=
| reads_unit : reads Ty.Unit [] Value.Unit
| reads_one l p v : reads_leaf l p v -> reads (Ty.Leaf l) [p] v
| reads_null l : reads (Ty.Option l) [Param.Null] (Value.Option None)
| reads_some l p v : reads_leaf l p v -> reads (Ty.Option l) [p] (Value.Option (Some v))
| reads_vec32 xs : reads Ty.VecI32 [Param.ArrayI32 xs] (array_view (to_be 4 <$> xs))
| reads_vec64 xs : reads Ty.VecI64 [Param.ArrayI64 xs] (array_view (to_be 8 <$> xs))
| reads_vec_text xs : reads Ty.VecString [Param.ArrayText xs] (array_view xs)
| reads_pair a b ps qs x y :
    reads a ps x -> reads b qs y -> reads (Ty.Pair a b) (ps ++ qs) (Value.Pair x y)
| reads_triple a b c ps qs rs x y z :
    reads a ps x -> reads b qs y -> reads c rs z ->
    reads (Ty.Triple a b c) (ps ++ qs ++ rs) (Value.Triple x y z)
| reads_quad a b c d ps qs rs ss x y z w :
    reads a ps x -> reads b qs y -> reads c rs z -> reads d ss w ->
    reads (Ty.Quad a b c d) (ps ++ qs ++ rs ++ ss) (Value.Quad x y z w).

(** The decoder of one column, of which both forms of a scalar type are made. *)
Definition leaf_of (l : Leaf.Leaf) (c : Column) : result Reason.Reason Value.Value :=
  match l with
  | Leaf.Bool => Value.Bool <$> column_bool c
  | Leaf.I16 => (fun l => Value.Int (i16_of l)) <$> fixed 2 c
  | Leaf.I32 | Leaf.Date => (fun l => Value.Int (i32_of l)) <$> fixed 4 c
  | Leaf.I64 | Leaf.Timestamp => (fun l => Value.Int (i64_of l)) <$> fixed 8 c
  | Leaf.F32 => (fun l => Value.Float (from_be l)) <$> fixed 4 c
  | Leaf.F64 => (fun l => Value.Float (from_be l)) <$> fixed 8 c
  | Leaf.String | Leaf.Text | Leaf.Ltree => Value.Str <$> text (column_index c) (column_buf c)
  | Leaf.Jsonb => Value.Str <$> json (column_index c) (column_buf c)
  | Leaf.Bytes => Ok (Value.Bytes (column_buf c))
  | Leaf.Uuid => Value.Bytes <$> fixed 16 c
  end.

Lemma decode_leaf_of l r : decode_leaf l r = (c ← require; of_result (leaf_of l c)) r.
Proof.
  destruct l; cbn [decode_leaf leaf_of];
    unfold read_bool, read_i16, read_i32, read_i64, read_f32, read_f64, read_fixed, read_text,
      read_json, read_bytes, fmap, read_fmap, mbind, read_bind, of_result, result_fmap;
    destruct (require r) as [[c r']|e]; try done; by repeat split_match.
Qed.

Lemma decode_option_of l r : decode_option l r = (Value.Option <$> optional (leaf_of l)) r.
Proof. by destruct l. Qed.

Lemma leaf_of_reads l p v oid format payload i :
  reads_leaf l p v -> param_spec p = Some (oid, format, payload) ->
  leaf_of l {| column_buf := payload; column_index := i |} = Ok v.
Proof.
  assert (forall n m x, m = Z.of_nat n -> fixed m {| column_buf := to_be n x; column_index := i |} = Ok (to_be n x)) as Hfix.
  { intros n m x ->. unfold fixed. cbn [column_buf]. by rewrite length_to_be, Z.eqb_refl. }
  assert (forall v, utf8_valid v -> try_text v = Ok v) as Htext.
  { intros u Hu. unfold try_text. by rewrite Hu. }
  intros H E. replace payload with (match param_spec p with Some (_, _, b) => b | None => [] end)
    by (by rewrite E).
  clear E. destruct H; cbn [param_spec scalar_of array_of leaf_of].
  - by destruct b.
  - rewrite (Hfix 2%nat 2) by done. cbn [fmap result_fmap]. by rewrite i16_of_to_be.
  - rewrite (Hfix 4%nat 4) by done. cbn [fmap result_fmap]. by rewrite i32_of_to_be.
  - rewrite (Hfix 8%nat 8) by done. cbn [fmap result_fmap]. by rewrite i64_of_to_be.
  - rewrite (Hfix 4%nat 4) by done. cbn [fmap result_fmap]. by rewrite from_be_word.
  - rewrite (Hfix 8%nat 8) by done. cbn [fmap result_fmap]. by rewrite from_be_word.
  - unfold text. cbn [column_buf]. by rewrite Htext.
  - unfold text. cbn [column_buf]. by rewrite Htext.
  - unfold text. cbn [column_buf]. by rewrite Htext.
  - unfold json. cbn [column_buf split_first]. by rewrite Htext.
  - done.
  - unfold fixed. cbn [column_buf]. rewrite (proj2 (Z.eqb_eq _ _)) by done. done.
  - rewrite (Hfix 8%nat 8) by done. cbn [fmap result_fmap]. by rewrite i64_of_to_be.
  - rewrite (Hfix 4%nat 4) by done. cbn [fmap result_fmap]. by rewrite i32_of_to_be.
Qed.

(** A reader at a column, with the columns after it. *)
Definition at_column (s e : Z) (bytes : list Z) : RowReader :=
  {| buf := bytes; columns_start := s; columns_end := e |}.

Lemma take_sized s e payload rest :
  s < e -> zlen payload <= i32_max ->
  take_column (at_column s e (sized payload ++ rest)) =
  Ok (Field.Data {| column_buf := payload; column_index := s |}, at_column (s + 1) e rest).
Proof.
  intros Hs Hp. unfold take_column, at_column, sized. cbn [columns_start columns_end buf].
  destruct (Z.ltb_spec s e); [|lia]. cbn [negb]. rewrite <- app_assoc.
  rewrite split_array_app by by rewrite length_to_be. cbv zeta.
  rewrite i32_of_to_be by lia.
  destruct (Z.eqb_spec (zlen payload) (-1)); [lia|]. destruct (Z.ltb_spec (zlen payload) 0); [lia|].
  cbn [buf]. by rewrite split_at_app.
Qed.

Lemma take_null s e rest :
  s < e -> take_column (at_column s e (to_be 4 (-1) ++ rest)) = Ok (Field.Null s, at_column (s + 1) e rest).
Proof.
  intros Hs. unfold take_column, at_column. cbn [columns_start columns_end buf].
  destruct (Z.ltb_spec s e); [|lia]. cbn [negb].
  rewrite split_array_app by by rewrite length_to_be. cbv zeta. by rewrite i32_of_to_be.
Qed.

Lemma require_sized s e payload rest :
  s < e -> zlen payload <= i32_max ->
  require (at_column s e (sized payload ++ rest)) =
  Ok ({| column_buf := payload; column_index := s |}, at_column (s + 1) e rest).
Proof. intros Hs Hp. unfold require, mbind, read_bind. by rewrite take_sized. Qed.

Lemma array_header_payload want i element items :
  check_element i want element = Ok () -> 0 <= element < 2 ^ 32 ->
  zlen items <= i32_max -> zlen items * 4 <= zlen (concat (sized <$> items)) ->
  array_header want {| column_buf := array_payload element items; column_index := i |} =
  Ok (zlen items, {| column_buf := concat (sized <$> items); column_index := i |}).
Proof.
  intros Hc He Hn Hl. unfold array_header, array_payload, take_fixed. cbn [column_buf column_index].
  rewrite <- !app_assoc.
  assert (to_be 4 1 ++ to_be 4 0 ++ to_be 4 element ++ to_be 4 (zlen items) ++ to_be 4 1 ++ concat (sized <$> items) =
    (to_be 4 1 ++ to_be 4 0 ++ to_be 4 element) ++ (to_be 4 (zlen items) ++ to_be 4 1) ++ concat (sized <$> items)) as ->
    by by rewrite <- !app_assoc.
  rewrite split_array_app by (rewrite !length_app, !length_to_be; lia).
  cbn [mbind result_bind column_buf column_index].
  assert (slice (to_be 4 1 ++ to_be 4 0 ++ to_be 4 element) 0 4 = to_be 4 1) as -> by done.
  assert (slice (to_be 4 1 ++ to_be 4 0 ++ to_be 4 element) 4 8 = to_be 4 0) as -> by done.
  assert (slice (to_be 4 1 ++ to_be 4 0 ++ to_be 4 element) 8 12 = to_be 4 element) as -> by done.
  rewrite !i32_of_to_be by lia. rewrite from_be_word by exact He. rewrite Hc.
  cbn [mbind result_bind Z.eqb negb Pos.eqb].
  rewrite split_array_app by (rewrite !length_app, !length_to_be; lia).
  cbn [mbind result_bind column_buf column_index].
  assert (slice (to_be 4 (zlen items) ++ to_be 4 1) 0 4 = to_be 4 (zlen items)) as -> by done.
  rewrite i32_of_to_be by lia. destruct (Z.ltb_spec (zlen items) 0); [lia|].
  pose proof (Z.div_le_lower_bound (zlen (concat (sized <$> items))) 4 (zlen items)).
  destruct (Z.ltb_spec (zlen (concat (sized <$> items)) / 4) (zlen items)); [lia|done].
Qed.

Lemma length_sized_items items : zlen items * 4 <= zlen (concat (sized <$> items)).
Proof.
  induction items as [|item items IH]; [done|]. rewrite fmap_cons. cbn [concat length].
  rewrite length_app. unfold sized at 1. rewrite length_app, length_to_be. lia.
Qed.

Lemma read_array_items want s e element items rest :
  s < e -> check_element s want element = Ok () -> 0 <= element < 2 ^ 32 ->
  zlen (array_payload element items) <= i32_max ->
  read_array want (at_column s e (sized (array_payload element items) ++ rest)) =
  Ok ({| array_bytes := concat (sized <$> items); array_len := zlen items |}, at_column (s + 1) e rest).
Proof.
  intros Hs Hc He Hl. pose proof (length_sized_items items). unfold array_payload in Hl at 1.
  rewrite length_app in Hl. unfold read_array, mbind, read_bind.
  rewrite require_sized by (done || (unfold array_payload; rewrite length_app; lia)).
  unfold of_result. rewrite array_header_payload by (done || lia). done.
Qed.

Lemma reads_leaf_spec l p v :
  reads_leaf l p v -> exists oid format payload, param_spec p = Some (oid, format, payload).
Proof. intros []; by eexists _, _, _. Qed.

Lemma decode_leaf_reads l p v s e rest :
  reads_leaf l p v -> param_fits p -> s < e ->
  decode_leaf l (at_column s e (param_text p ++ rest)) = Ok (v, at_column (s + 1) e rest) /\
  decode_option l (at_column s e (param_text p ++ rest)) =
    Ok (Value.Option (Some v), at_column (s + 1) e rest).
Proof.
  intros Hr Hf Hs. destruct (reads_leaf_spec _ _ _ Hr) as (oid & format & payload & E).
  rewrite decode_leaf_of, decode_option_of. unfold param_text, param_fits in *. rewrite E in *.
  pose proof (leaf_of_reads _ _ _ _ _ _ s Hr E) as Hl. split.
  - unfold mbind, read_bind. rewrite require_sized by done. unfold of_result. by rewrite Hl.
  - unfold fmap, read_fmap, optional, mbind, read_bind. rewrite take_sized by done.
    unfold of_result. by rewrite Hl.
Qed.

Lemma decode_reads t ps v :
  reads t ps v -> Forall param_fits ps -> forall s e rest, s + zlen ps <= e ->
  decode t (at_column s e (concat (param_text <$> ps) ++ rest)) = Ok (v, at_column (s + zlen ps) e rest).
Proof.
  assert (forall ps qs rest, concat (param_text <$> ps ++ qs) ++ rest =
    concat (param_text <$> ps) ++ (concat (param_text <$> qs) ++ rest)) as Hcat.
  { intros ps' qs' rest'. by rewrite fmap_app, concat_app, app_assoc. }
  induction 1; intros Hf s e rest Hs; cbn [decode]; unfold mbind, read_bind;
    rewrite ?Hcat; repeat match goal with H : Forall _ (_ ++ _) |- _ => apply Forall_app in H as [? ?] end.
  - cbn. by rewrite Z.add_0_r.
  - apply Forall_cons in Hf as [Hf _]. cbn [length] in *. rewrite fmap_cons. cbn [concat fmap list_fmap].
    rewrite app_nil_r. destruct (decode_leaf_reads l p v s e rest H Hf) as [E _]; [lia|].
    rewrite E. done.
  - cbn [length] in *. cbn [concat fmap list_fmap param_text param_spec scalar_of array_of]. rewrite app_nil_r.
    rewrite decode_option_of. unfold fmap, read_fmap, optional, mbind, read_bind.
    by rewrite take_null by lia.
  - apply Forall_cons in Hf as [Hf _]. cbn [length] in *. rewrite fmap_cons. cbn [concat fmap list_fmap].
    rewrite app_nil_r. destruct (decode_leaf_reads l p v s e rest H Hf) as [_ E]; [lia|].
    rewrite E. done.
  - apply Forall_cons in Hf as [Hf _]. cbn [length] in *. cbn [concat fmap list_fmap]. rewrite app_nil_r.
    change (param_text (Param.ArrayI32 xs)) with (sized (array_payload 23 (to_be 4 <$> xs))).
    unfold fmap at 1, read_fmap. rewrite read_array_items by (done || lia). done.
  - apply Forall_cons in Hf as [Hf _]. cbn [length] in *. cbn [concat fmap list_fmap]. rewrite app_nil_r.
    change (param_text (Param.ArrayI64 xs)) with (sized (array_payload 20 (to_be 8 <$> xs))).
    unfold fmap at 1, read_fmap. rewrite read_array_items by (done || lia). done.
  - apply Forall_cons in Hf as [Hf _]. cbn [length] in *. cbn [concat fmap list_fmap]. rewrite app_nil_r.
    change (param_text (Param.ArrayText xs)) with (sized (array_payload 25 xs)).
    unfold fmap at 1, read_fmap. rewrite read_array_items by (done || lia). done.
  - rewrite length_app in Hs. rewrite IHreads1 by (done || lia). rewrite IHreads2 by (done || lia).
    unfold mret, read_ret. do 3 f_equal. rewrite length_app. lia.
  - rewrite !length_app in Hs. rewrite IHreads1 by (done || lia). rewrite ?Hcat.
    rewrite IHreads2 by (done || lia). rewrite IHreads3 by (done || lia).
    unfold mret, read_ret. do 3 f_equal. rewrite !length_app. lia.
  - rewrite !length_app in Hs. rewrite IHreads1 by (done || lia). rewrite ?Hcat.
    rewrite IHreads2 by (done || lia). rewrite ?Hcat. rewrite IHreads3 by (done || lia).
    rewrite IHreads4 by (done || lia).
    unfold mret, read_ret. do 3 f_equal. rewrite !length_app. lia.
Qed.

(** A data row of columns. *)
Definition data_row (ps : list Param.Param) : list Z :=
  to_be 2 (zlen ps) ++ concat (param_text <$> ps).

Lemma row_new_data ps :
  zlen ps <= 32767 ->
  row_new (data_row ps) (zlen ps) = Ok (at_column 0 (zlen ps) (concat (param_text <$> ps))).
Proof.
  intros Hn. unfold row_new, data_row. rewrite split_array_app by by rewrite length_to_be.
  rewrite i16_of_to_be by lia. destruct (Z.ltb_spec (zlen ps) 0); [lia|]. by rewrite Z.eqb_refl.
Qed.

(** C34. What the bind writer writes, the row reader reads: a row of the values a
    statement was given decodes under their types to exactly those values, with
    no column and no byte left. *)
Theorem row_roundtrip t ps v :
  reads t ps v -> Forall param_fits ps -> zlen ps <= 32767 ->
  exists reader rest, row_new (data_row ps) (zlen ps) = Ok reader /\
    decode t reader = Ok (v, rest) /\ row_finish rest = Ok ().
Proof.
  intros Hr Hf Hn. exists (at_column 0 (zlen ps) (concat (param_text <$> ps))), (at_column (zlen ps) (zlen ps) []).
  split_and!.
  - by apply row_new_data.
  - pose proof (decode_reads t ps v Hr Hf 0 (zlen ps) [] ltac:(lia)) as E.
    rewrite app_nil_r in E. exact E.
  - unfold row_finish, at_column. cbn [columns_start columns_end buf]. by rewrite Z.ltb_irrefl.
Qed.

(** ** Arrays *)

(** What a loop over an array sees. *)
Fixpoint drain {T} (read : list Z -> result Reason.Reason (T * list Z)) (fuel : nat)
    (s : IterState.State) : list (result Reason.Reason T) :=
  match fuel with
  | O => []
  | S fuel =>
      match iter_next read s with
      | (None, _) => []
      | (Some r, s) => r :: drain read fuel s
      end
  end.

Lemma drain_items {T} (read : list Z -> result Reason.Reason (T * list Z)) (items : list (list Z)) (vs : list T) fuel :
  Forall2 (fun item v => forall rest, read (sized item ++ rest) = Ok (v, rest)) items vs ->
  (length items < fuel)%nat ->
  drain read fuel (IterState.Reading (concat (sized <$> items)) (zlen items)) = Ok <$> vs.
Proof.
  intros H. revert fuel. induction H as [|item v items vs Hr _ IH]; intros [|fuel] Hf; try lia; [done|].
  cbn [drain iter_next length]. destruct (Z.eqb_spec (Z.of_nat (S (length items))) 0); [lia|].
  rewrite fmap_cons. cbn [concat]. rewrite Hr.
  replace (Z.of_nat (S (length items)) - 1) with (zlen items) by lia.
  rewrite IH by (cbn [length] in Hf; lia). by rewrite fmap_cons.
Qed.

Lemma element_sized item rest :
  zlen item <= i32_max -> element (sized item ++ rest) = Ok (item, rest).
Proof.
  intros H. unfold element, sized. rewrite <- app_assoc, split_array_app by by rewrite length_to_be.
  cbv zeta. rewrite i32_of_to_be by lia. destruct (Z.eqb_spec (zlen item) (-1)); [lia|].
  destruct (Z.ltb_spec (zlen item) 0); [lia|]. by rewrite split_at_app.
Qed.

(** An array bound as a parameter and read as a column is iterated item by
    item, exactly as it was given, and ends there. *)
Theorem array_roundtrip items :
  Forall (fun x => - 2 ^ 63 <= x < 2 ^ 63) items -> param_fits (Param.ArrayI64 items) ->
  exists reader rest a, row_new (data_row [Param.ArrayI64 items]) 1 = Ok reader /\
    decode Ty.VecI64 reader = Ok (Value.Array a, rest) /\ row_finish rest = Ok () /\
    drain element_i64 (S (length items)) (into_iter a) = Ok <$> items.
Proof.
  intros Hx Hf. exists (at_column 0 1 (concat (param_text <$> [Param.ArrayI64 items]))), (at_column 1 1 []).
  exists {| array_bytes := concat (sized <$> (to_be 8 <$> items)); array_len := zlen (to_be 8 <$> items) |}.
  split_and!; [by apply (row_new_data [_])| |done|].
  - pose proof (decode_reads _ _ _ (reads_vec64 items) ltac:(by constructor) 0 1 [] ltac:(done)) as E.
    rewrite app_nil_r in E. exact E.
  - apply drain_items; [|rewrite length_fmap; lia].
    apply Forall2_fmap_l, Forall_Forall2_diag. eapply Forall_impl; [exact Hx|]. intros x Hb rest.
    unfold element_i64. rewrite element_sized by (rewrite length_to_be; lia).
    cbn [mbind result_bind fst snd]. rewrite length_to_be, Z.eqb_refl. by rewrite i64_of_to_be.
Qed.

(** ** Witnesses *)

Definition sample_params : list Param.Param :=
  [Param.I32 (-7); Param.Null; Param.Jsonb (bytes_of "{}"); Param.ArrayI64 [1; -1]].

Lemma sample_fits : Forall param_fits sample_params.
Proof. repeat constructor; vm_compute; done. Qed.

(** Bound as declared; with the first two declarations swapped, refused for its type, and
    declared as text, for its format. *)
Lemma bind_values_exact_witness :
  Forall param_fits sample_params /\
  emits (W := Region) (write_values [23; 25; 3802; 1016] [1] sample_params) (concat (param_text <$> sample_params)) () /\
  (forall w : Region, zlen (concat (param_text <$> sample_params)) <= room w ->
    write_values [25; 23; 3802; 1016] [1] sample_params w = Err (EncError.ParameterOid 0 25 23)) /\
  (forall w : Region, zlen (concat (param_text <$> sample_params)) <= room w ->
    write_values [23; 25; 3802; 1016] [1; 1; 0; 1] sample_params w = Err (EncError.ParameterEncoding 2 0 1)).
Proof.
  split; [exact sample_fits|].
  split; [|split].
  - apply (bind_values_exact (W := Region) [23; 25; 3802; 1016] [1] sample_params sample_fits).
    repeat constructor.
  - apply (bind_values_exact (W := Region) [25; 23; 3802; 1016] [1] sample_params sample_fits).
    intros H. pose proof (Forall2_lookup_lr _ _ _ 0%nat _ _ H eq_refl eq_refl) as [E _]. discriminate E.
  - apply (bind_values_exact (W := Region) [23; 25; 3802; 1016] [1; 1; 0; 1] sample_params sample_fits).
    intros H. pose proof (Forall2_lookup_lr _ _ _ 2%nat _ _ H eq_refl eq_refl) as [_ E]. discriminate E.
Defined.

Lemma row_roundtrip_witness :
  exists reader rest, row_new (data_row (take 3 sample_params)) 3 = Ok reader /\
    decode (Ty.Triple (Ty.Leaf Leaf.I32) (Ty.Option Leaf.Text) (Ty.Leaf Leaf.Jsonb)) reader =
      Ok (Value.Triple (Value.Int (-7)) (Value.Option None) (Value.Str (bytes_of "{}")), rest) /\
    row_finish rest = Ok ().
Proof.
  apply (row_roundtrip _ (take 3 sample_params)).
  - apply (reads_triple _ _ _ [_] [_] [_]); repeat constructor; lia.
  - repeat constructor; vm_compute; done.
  - vm_compute. done.
Defined.

Lemma array_roundtrip_witness :
  exists reader rest a, row_new (data_row [Param.ArrayI64 [1; -1]]) 1 = Ok reader /\
    decode Ty.VecI64 reader = Ok (Value.Array a, rest) /\ row_finish rest = Ok () /\
    drain element_i64 3 (into_iter a) = Ok <$> [1; -1].
Proof.
  apply (array_roundtrip [1; -1]).
  - repeat constructor; lia.
  - vm_compute. done.
Defined.

Lemma validated_read_witness :
  exists reader v rest,
    row_new (data_row [Param.I32 (-7); Param.Text (bytes_of "x")]) 2 = Ok reader /\
    decode (fields_ty (Fields.Cons Fields.I32 (Fields.Last Fields.String))) reader = Ok (v, rest) /\
    row_read (Fields.Cons Fields.I32 (Fields.Last Fields.String))
      (data_row [Param.I32 (-7); Param.Text (bytes_of "x")]) = Some v.
Proof.
  apply (validated_read (Fields.Cons Fields.I32 (Fields.Last Fields.String))). reflexivity.
Defined.
