(* ===== verification/PgScram.v ===== *)
(** * The SCRAM exchange

    Models the client of SCRAM-SHA-256 in [pg/src/protocol/scram/mod.rs] with
    the mechanisms it picks from, its states and the checks of each message,
    [scram/mod.rs] and [kdf::try_iterations]. The hash is [PgHash]'s, the
    messages [PgScramParser]'s, the writer [PgEncode]'s; the Base64 engine and
    the allocation of the retained message are those of libraries, interfaces
    here. *)
From Stdlib Require Import ZifyNat.
From S2P Require Import Prelude CoreText PgWire PgEncode PgHash PgScramParser.

(** [scram::Base64]. *)
Module Base64.
Inductive Base64 :=
| InvalidByte (index byte : Z)
| InvalidLength (len : Z)
| InvalidLastSymbol (offset symbol symbol_value : Z)
| InvalidPadding
| OutputSliceTooSmall.
End Base64.

(** The variants of [crate::Error] the exchange raises. *)
Module ScramFail.
Inductive Error (X : Type) :=
| Auth (reason : Reason.Reason)
| Protocol (reason : Reason.Reason)
| ServerFirst (reason : Reason.Reason)
| ServerFirstBase64 (error : Base64.Base64)
| ServerFinal (reason : Reason.Reason)
| ServerFinalBase64 (error : Base64.Base64)
| ScramIterations (actual minimum maximum : Z)
| Scram (error : ScramError.Error)
| Allocation (error : X).
Arguments Auth {X} reason.
Arguments Protocol {X} reason.
Arguments ServerFirst {X} reason.
Arguments ServerFirstBase64 {X} error.
Arguments ServerFinal {X} reason.
Arguments ServerFinalBase64 {X} error.
Arguments ScramIterations {X} actual minimum maximum.
Arguments Scram {X} error.
Arguments Allocation {X} error.
End ScramFail.

(** ** Mechanisms *)

Definition MECH : list Z := bytes_of "SCRAM-SHA-256".

Definition PLUS : list Z := bytes_of "SCRAM-SHA-256-PLUS".

Module Mechanisms.
Inductive Mechanisms := None | Plus | Sha256.
End Mechanisms.

(** [Mechanisms::offer]. *)
Definition offer (m : Mechanisms.Mechanisms) (name : list Z) : Mechanisms.Mechanisms :=
  if list_eqb name MECH then Mechanisms.Sha256
  else if list_eqb name PLUS then
    match m with Mechanisms.None => Mechanisms.Plus | _ => m end
  else m.

(** [Mechanisms::pick]; the mechanism picked is the one there is. *)
Definition pick {X} (m : Mechanisms.Mechanisms) : result (ScramFail.Error X) (list Z) :=
  match m with
  | Mechanisms.Sha256 => Ok MECH
  | Mechanisms.Plus => Err (ScramFail.Auth Reason.SaslPlus)
  | Mechanisms.None => Err (ScramFail.Auth Reason.NoSasl)
  end.

(** ** Key derivation parameters *)

Definition MIN_ITERATIONS : Z := 4096.

Definition MAX_ITERATIONS : Z := 100000.

Record KdfKey := { first : list Z; key_iterations : Z }.

Definition try_iterations {X} (rounds : Z) : result (ScramFail.Error X) Z :=
  if (MIN_ITERATIONS <=? rounds) && (rounds <=? MAX_ITERATIONS) then Ok rounds
  else Err (ScramFail.ScramIterations rounds MIN_ITERATIONS MAX_ITERATIONS).

(** The [base64] engine: decoding into a buffer of a capacity, and encoding
    without padding. *)
Class Engine := {
  decode_slice : list Z -> Z -> result Base64.Base64 (list Z);
  internal_encode : list Z -> list Z }.

(** [parser::Retained] and [Deriving]. *)
Record Retained := { retained_bytes : list Z; retained_nonce : Z * Z }.

Record Deriving := { deriving_first : Retained; deriving_key : KdfKey }.

Module ScramState.
Inductive State :=
| AwaitServerFirst (nonce : list Z)
| Deriving (state : Deriving)
| AwaitServerFinal (signature : list Z)
| Complete.
End ScramState.

Section scram.
  Context {X : Type} (compress : list Z -> list Z -> list Z) `{!Engine}
    (try_copy : list Z -> result X (list Z)).

Abbreviation Error := (ScramFail.Error X).

(** The offset of a chunk's error in the whole text. *)
Definition shift_error (at_ : Z) (error : Base64.Base64) : Base64.Base64 :=
  match error with
  | Base64.InvalidByte index byte => Base64.InvalidByte (index + at_) byte
  | Base64.InvalidLength len => Base64.InvalidLength (len + at_)
  | Base64.InvalidLastSymbol offset symbol value => Base64.InvalidLastSymbol (offset + at_) symbol value
  | Base64.InvalidPadding => Base64.InvalidPadding
  | Base64.OutputSliceTooSmall => Base64.OutputSliceTooSmall
  end.

(** [decode_base64]: the pieces written, chunk by chunk of four; padding is
    admitted in the last one only. *)
Fixpoint decode_chunks (fuel : nat) (index : Z) (encoded : list Z) : result Error (list (list Z)) :=
  match fuel, encoded with
  | O, _ | _, [] => Ok []
  | S fuel, encoded =>
      let chunk := take 4 encoded in
      let rest := drop 4 encoded in
      match (match rest with [] => None | _ => position (fun b => b =? 61) chunk end) with
      | Some position => Err (ScramFail.ServerFirst (Reason.SaltPadding (index * 4 + position)))
      | None =>
          match decode_slice chunk 3 with
          | Err error => Err (ScramFail.ServerFirstBase64 (shift_error (index * 4) error))
          | Ok decoded => l ← decode_chunks fuel (index + 1) rest; Ok (decoded :: l)
          end
      end
  end.

Definition decode_base64 (encoded : list Z) : result Error (list (list Z)) :=
  decode_chunks (length encoded) 0 encoded.

Definition encode_nonce (raw : list Z) : list Z := internal_encode raw.

(** [Scram::new]: the slot, the entropy and the message sent with the nonce are
    those of the runtime, in this order. *)
Definition scram_new {T} (ticket : result Error T) (entropy : result Error (list Z))
    (send : list Z -> result Error ()) : result Error (T * ScramState.State) :=
  ticket ← ticket;
  raw ← entropy;
  let nonce := encode_nonce raw in
  send nonce;;
  Ok (ticket, ScramState.AwaitServerFirst nonce).

(** The first position where the nonce departs from the client's. *)
Definition nonce_mismatch (nonce expected : list Z) : option (Z * Z * Z) :=
  i ← position (fun p : Z * Z => negb (p.1 =? p.2)) (zip nonce expected);
  p ← get (zip nonce expected) i;
  Some (i, p.1, p.2).

(** [Scram::begin]. *)
Definition begin (s : ScramState.State) (password bytes : list Z) : option (result Error ScramState.State) :=
  match s with
  | ScramState.AwaitServerFirst expected =>
      r ← server_first bytes;
      Some (
        parsed ← map_err ScramFail.ServerFirst r;
        let '(nonce_, salt, count) := into_parts parsed in
        if zlen nonce_ <=? zlen expected then
          Err (ScramFail.ServerFirst (Reason.NonceLength (zlen nonce_) (CLIENT_NONCE_BYTES + 1)))
        else
          match nonce_mismatch nonce_ expected with
          | Some (offset, actual, expected) =>
              Err (ScramFail.ServerFirst (Reason.NonceByte offset actual expected))
          | None =>
              let hash := sha_new 64 in
              let '(inner, outer) := hmac compress password (sha_state hash) IV in
              let hash := {| sha_state := inner; sha_block := sha_block hash; sha_len := sha_len hash |} in
              pieces ← decode_base64 salt;
              let hash := fold_left (update compress) pieces hash in
              iterations ← try_iterations count;
              copy ← map_err ScramFail.Allocation (try_copy (input parsed));
              let hash := update compress hash (to_be 4 1) in
              let '(_, first) := sha_hmac compress hash outer secret32_new in
              Ok (ScramState.Deriving
                {| deriving_first := {| retained_bytes := copy; retained_nonce := nonce parsed |};
                   deriving_key := {| first := first; key_iterations := iterations |} |})
          end)
  | _ => Some (Err (ScramFail.Protocol Reason.DuplicateServerFirst))
  end.

(** [Scram::deriving]. *)
Definition deriving (s : ScramState.State) : option Deriving :=
  match s with ScramState.Deriving state => Some state | _ => None end.

(** [Scram::await_final]. *)
Definition await_final (sig : list Z) : ScramState.State := ScramState.AwaitServerFinal sig.

(** [Scram::verify_final]. *)
Definition verify_final (s : ScramState.State) (bytes : list Z) : option (result Error ScramState.State) :=
  match s with
  | ScramState.AwaitServerFinal expected =>
      r ← server_final bytes;
      Some (
        parsed ← map_err ScramFail.ServerFinal r;
        match parsed with
        | ServerFinal.Error error => Err (ScramFail.Scram error)
        | ServerFinal.Verifier encoded =>
            actual ← map_err ScramFail.ServerFinalBase64 (decode_slice encoded 33);
            if negb (zlen actual =? 32) then
              Err (ScramFail.ServerFinal (Reason.SignatureLength (zlen actual) 32))
            else if negb (list_eqb expected actual) then
              Err (ScramFail.ServerFinal Reason.SignatureMismatch)
            else Ok ScramState.Complete
        end)
  | _ => Some (Err (ScramFail.Protocol Reason.FinalState))
  end.

(** [Scram::finish]. *)
Definition finish (s : ScramState.State) : result Error () :=
  match s with
  | ScramState.Complete => Ok ()
  | _ => Err (ScramFail.Protocol Reason.AuthBeforeFinal)
  end.

(** [Retained::nonce]. *)
Definition nonce_of (r : Retained) : list Z :=
  slice (retained_bytes r) (retained_nonce r).1 (retained_nonce r).2.

(** [Deriving::write_final]: the client's part of the nonce is its first bytes,
    of which a state that derives has enough. *)
Definition write_final {W} `{!Spare W} (d : Deriving) (keys : Keys) : Emit W (list Z) :=
  let nonce_ := nonce_of (deriving_first d) in
  let client_ := slice nonce_ 0 CLIENT_NONCE_BYTES in
  let first := retained_bytes (deriving_first d) in
  let proof := hmac_auth_message compress (stored keys) client_ first nonce_ in
  let proof := xor_bytes proof (client keys) in
  let encoded := replicate (Z.to_nat PROOF_BYTES) 61 in
  let encoded := copy_at encoded 0 (internal_encode proof) in
  let expected := hmac_auth_message compress (server keys) client_ first nonce_ in
  extend (bytes_of "c=biws,r=");;
  extend nonce_;;
  extend (bytes_of ",p=");;
  extend encoded;;
  mret expected.
End scram.

(** ** Base64 *)

(** The alphabet of the standard engine. *)
Definition is_base64 (b : Z) : bool :=
  is_ascii_alphabetic b || is_digit b || (b =? 43) || (b =? 47).

(** RFC 4648: the encoding with its padding. *)
Definition padded `{!Engine} (bs : list Z) : list Z :=
  internal_encode bs ++ replicate ((3 - length bs mod 3) mod 3) 61.

(** What the engine documents: groups of three bytes become groups of four
    letters, and a padded text decodes where its groups have room. *)
Class EngineLaws `(Engine) : Prop := {
  encode_length bs : length (internal_encode bs) = ((4 * length bs + 2) / 3)%nat;
  encode_letters bs : Forall is_byte bs -> Forall (fun b => is_base64 b = true) (internal_encode bs);
  encode_groups a b : length a = 3%nat -> internal_encode (a ++ b) = internal_encode a ++ internal_encode b;
  decode_padded bs cap :
    Forall is_byte bs -> 3 * ((zlen bs + 2) / 3) <= cap -> decode_slice (padded bs) cap = Ok bs }.

Lemma position_nowhere {A} (f : A -> bool) l : Forall (fun x => f x = false) l -> position f l = None.
Proof. induction 1 as [|x l Hx _ IH]; [done|]. cbn [position]. by rewrite Hx, IH. Qed.

Section base64.
  Context {X : Type} (compress : list Z -> list Z -> list Z) `{!CompressLaws compress}
    (E : Engine) `{!EngineLaws E}.

Lemma base64_nonce_char b : is_base64 b = true -> is_nonce_char b = true /\ b <> 44 /\ b <> 61.
Proof.
  unfold is_base64, is_nonce_char, is_ascii_alphabetic, is_ascii_lowercase, is_digit. lia.
Qed.

Lemma length_padded bs : length (padded bs) = (4 * ((length bs + 2) / 3))%nat.
Proof. unfold padded. rewrite length_app, length_replicate, encode_length. lia. Qed.

Lemma padded_text bs : Forall is_byte bs -> Forall (fun b => b <> 44) (padded bs).
Proof.
  intros Hb. apply Forall_app. split; [|by apply Forall_replicate].
  eapply Forall_impl; [by apply encode_letters|]. intros b H. by apply base64_nonce_char in H as (_ & ? & _).
Qed.

Lemma padded_nonempty bs : bs <> [] -> padded bs <> [].
Proof.
  intros Hb Hp. apply (f_equal length) in Hp. rewrite length_padded in Hp. destruct bs; [done|].
  cbn [length] in Hp. lia.
Qed.

Lemma padded_full bs : (length bs mod 3 = 0)%nat -> padded bs = internal_encode bs.
Proof. intros H. unfold padded. rewrite H. apply app_nil_r. Qed.

Lemma padded_nil : padded [] = [].
Proof. apply length_zero_iff_nil. by rewrite length_padded. Qed.

Lemma padded_app a b : length a = 3%nat -> padded (a ++ b) = padded a ++ padded b.
Proof.
  intros Ha. rewrite (padded_full a) by (rewrite Ha; done). unfold padded.
  rewrite encode_groups, <- app_assoc, length_app, Ha by done. do 3 f_equal. lia.
Qed.

(** Groups decoded one at a time are the whole decoded. *)
Lemma decode_chunks_padded fuel i bs :
  Forall is_byte bs -> (length (padded bs) <= fuel)%nat ->
  exists pieces, decode_chunks (X := X) fuel i (padded bs) = Ok pieces /\ concat pieces = bs.
Proof.
  revert i bs. induction fuel as [|fuel IH]; intros i bs Hb Hf; rewrite length_padded in Hf.
  { exists []. destruct bs; [done|]. cbn [length] in Hf. lia. }
  destruct (decide (bs = [])) as [->|Hne].
  { exists []. by rewrite padded_nil. }
  set (a := take 3 bs). set (b := drop 3 bs).
  assert (length a = Nat.min 3 (length bs)) as La by apply length_take.
  assert (0 < length bs)%nat as Lb by (destruct bs; [done|cbn [length]; lia]).
  assert (Forall is_byte a) as Ha by by apply Forall_take.
  assert (padded bs = padded a ++ padded b) as ->.
  { destruct (decide (length a = 3)%nat) as [L|L].
    - rewrite <- (take_drop 3 bs). by apply padded_app.
    - unfold a, b. rewrite take_ge, drop_ge by lia. by rewrite padded_nil, app_nil_r. }
  assert (length (padded a) = 4%nat) as L4 by (rewrite length_padded; lia).
  destruct (IH (i + 1) b) as (pieces & Hd & Hc); [by apply Forall_drop|rewrite length_padded; unfold b; rewrite length_drop; lia|].
  exists (a :: pieces). split; [|cbn [concat]; rewrite Hc; apply take_drop].
  cbn [decode_chunks]. destruct (padded a) as [|x l] eqn:Ep; [done|]. rewrite <- Ep in *.
  assert (take 4 (padded a ++ padded b) = padded a) as -> by (rewrite take_app_le, take_ge by lia; done).
  assert (drop 4 (padded a ++ padded b) = padded b) as -> by (rewrite drop_app_ge, L4, Nat.sub_diag by lia; done).
  assert (decode_slice (padded a) 3 = Ok a) as -> by (apply decode_padded; [done|lia]).
  rewrite Ep at 1. cbn [app]. clear x l Ep.
  assert (match padded b with [] => None | _ => position (fun c => c =? 61) (padded a) end = @None Z) as ->;
    [|by rewrite Hd].
  destruct (decide (b = [])) as [->|Hbn]; [by rewrite padded_nil|].
  assert (length bs > 3)%nat as L3.
  { destruct (decide (length bs <= 3)%nat); [|lia]. destruct Hbn. by apply drop_ge. }
  destruct (padded b); [done|]. apply position_nowhere.
  rewrite padded_full by (replace (length a) with 3%nat by lia; done).
  eapply Forall_impl; [by apply encode_letters|]. intros c Hc2. apply base64_nonce_char in Hc2 as (_ & _ & ?). lia.
Qed.
End base64.

(** ** The exchange *)

(** RFC 5802's AuthMessage, of a client that names no user. *)
Definition auth_message (client_nonce server_first_ nonce_ : list Z) : list Z :=
  bytes_of "n=,r=" ++ client_nonce ++ bytes_of "," ++ server_first_ ++ bytes_of ",c=biws,r=" ++ nonce_.

Section exchange.
  Context {X : Type} (compress : list Z -> list Z -> list Z) `{!CompressLaws compress}
    (E : Engine) `{!EngineLaws E} (try_copy : list Z -> result X (list Z))
    (try_copy_copies : forall l l', try_copy l = Ok l' -> l' = l).

Abbreviation State := ScramState.State.
Abbreviation hmac_ := (hmac_sha256 compress).

Lemma nonce_mismatch_prefix n ext : nonce_mismatch (n ++ ext) n = None.
Proof.
  unfold nonce_mismatch. rewrite position_nowhere; [done|].
  induction n as [|b n IH]; [by destruct ext|]. cbn [app zip_with]. constructor; [|done].
  cbn [fst snd]. by rewrite Z.eqb_refl.
Qed.

Lemma nonce_mismatch_None nonce_ expected :
  zlen expected <= zlen nonce_ -> nonce_mismatch nonce_ expected = None ->
  take (length expected) nonce_ = expected.
Proof.
  unfold nonce_mismatch. intros Hl H.
  destruct (position _ (zip nonce_ expected)) as [i|] eqn:P.
  { apply position_Some in P as (_ & (p & Hp & _) & _). cbn [mbind option_bind] in H. by rewrite Hp in H. }
  pose proof (position_None _ _ P) as Hall. clear H P. revert nonce_ Hl Hall.
  induction expected as [|b expected IH]; intros [|c nonce_] Hl Hall; cbn [length] in Hl; [done..|lia|].
  cbn [length take]. cbn [zip_with] in Hall.
  assert (c = b) as -> by (pose proof (Hall (c, b) (list_elem_of_here _ _)) as H0; cbn [fst snd] in H0; lia).
  f_equal. apply IH; [lia|]. intros p Hp. apply Hall. by right.
Qed.

(** What the first message leaves to derive from. *)
Lemma begin_spelled nonce_ password salt_ n exts msg expected ext :
  nonce_ = expected ++ ext -> ext <> [] -> nonce_ <> [] ->
  Forall (fun b => is_nonce_char b = true) nonce_ ->
  salt_ <> [] -> Forall is_byte salt_ -> MIN_ITERATIONS <= n <= MAX_ITERATIONS ->
  Forall extension_wf exts -> NoDup exts.*1 ->
  joined ((114, nonce_) :: (115, padded salt_) :: (105, show n) :: exts) = Some msg ->
  try_copy msg = Ok msg ->
  exists d, begin compress try_copy (ScramState.AwaitServerFirst expected) password msg =
      Some (Ok (ScramState.Deriving d)) /\
    retained_bytes (deriving_first d) = msg /\ nonce_of (deriving_first d) = nonce_ /\
    deriving_key d = {| first := hmac_ password (salt_ ++ to_be 4 1); key_iterations := n |}.
Proof.
  intros En Hext Hne Hc Hs Hsb Hn Hx Hd J Hcp. unfold MIN_ITERATIONS, MAX_ITERATIONS in Hn.
  destruct (server_first_iff msg nonce_ (padded salt_) n) as [_ [_ Hp]].
  destruct Hp as (p & Hp & Hparts).
  { split_and!; (done || lia || by apply padded_nonempty || by apply padded_text || by exists exts). }
  unfold begin. rewrite Hp. cbn [mbind option_bind result_bind map_err]. rewrite Hparts.
  destruct (Z.leb_spec (zlen nonce_) (zlen expected)) as [L|_].
  { rewrite En, length_app in L. destruct ext; [done|]. cbn [length] in L. lia. }
  assert (nonce_mismatch nonce_ expected = None) as -> by (rewrite En; apply nonce_mismatch_prefix).
  rewrite hmac_states by done. cbn [sha_new sha_state sha_block sha_len].
  destruct (decode_chunks_padded (X := X) E (length (padded salt_)) 0 salt_ Hsb (le_n _)) as (pieces & Hdec & Hcat).
  unfold decode_base64. rewrite Hdec. cbn [mbind result_bind].
  assert (try_iterations (X := X) n = Ok n) as ->
    by (unfold try_iterations, MIN_ITERATIONS, MAX_ITERATIONS; destruct (_ && _) eqn:B; [done|lia]).
  rewrite (server_first_input _ _ Hp), Hcp. cbn [mbind result_bind map_err].
  pose proof (mac_pieces compress password (replicate 64 0) (pieces ++ [to_be 4 1]) eq_refl) as Hmac.
  rewrite fold_left_app, concat_app, Hcat in Hmac. cbn [fold_left concat] in Hmac. rewrite app_nil_r in Hmac.
  destruct (sha_hmac _ _ _ _) as [h u]. cbn [snd] in Hmac. subst u.
  eexists. split; [reflexivity|]. cbn [deriving_first deriving_key retained_bytes].
  split_and!; [done| |done]. unfold nonce_of. cbn [retained_bytes retained_nonce].
  unfold into_parts in Hparts. rewrite (server_first_input _ _ Hp) in Hparts. by injection Hparts.
Qed.

(** A first message that is accepted extends the nonce that was sent, and is retained. *)
Lemma begin_sound expected password msg s :
  begin compress try_copy (ScramState.AwaitServerFirst expected) password msg = Some (Ok s) ->
  exists d p, s = ScramState.Deriving d /\ retained_bytes (deriving_first d) = msg /\
    server_first msg = Some (Ok p) /\ nonce_of (deriving_first d) = (into_parts p).1.1 /\
    zlen expected < zlen (nonce_of (deriving_first d)) /\
    take (length expected) (nonce_of (deriving_first d)) = expected /\
    key_iterations (deriving_key d) = (into_parts p).2 /\
    MIN_ITERATIONS <= key_iterations (deriving_key d) <= MAX_ITERATIONS.
Proof.
  unfold begin. destruct (server_first msg) as [[p|e]|] eqn:Hp; [|done..].
  cbn [mbind option_bind result_bind map_err]. destruct (into_parts p) as [[nonce_ salt_] n] eqn:Hparts.
  destruct (Z.leb_spec (zlen nonce_) (zlen expected)) as [L|L]; [done|].
  destruct (nonce_mismatch nonce_ expected) as [[[? ?] ?]|] eqn:M; [done|].
  destruct (hmac _ _ _ _) as [inner outer]. intros H. apply (inj Some) in H.
  apply bind_Ok in H as (pieces & _ & H). apply bind_Ok in H as (m & Hm & H).
  apply bind_Ok in H as (copy & Hcp & H). destruct (sha_hmac _ _ _ _) as [h u]. apply Ok_inj in H as <-.
  destruct (try_copy (input p)) as [c|] eqn:Ec; [|done]. apply Ok_inj in Hcp as ->.
  apply try_copy_copies in Ec. rewrite (server_first_input _ _ Hp) in Ec. subst copy.
  eexists _, p. split; [reflexivity|]. cbn [deriving_first deriving_key retained_bytes key_iterations].
  assert (nonce_of {| retained_bytes := msg; retained_nonce := nonce p |} = nonce_) as ->.
  { unfold nonce_of. cbn [retained_bytes retained_nonce].
    unfold into_parts in Hparts. rewrite (server_first_input _ _ Hp) in Hparts. by injection Hparts. }
  unfold try_iterations in Hm. destruct (_ && _) eqn:B; [|done]. apply Ok_inj in Hm as <-.
  rewrite Hparts. cbn [fst snd]. split_and!; try (done || lia). apply nonce_mismatch_None; [lia|done].
Qed.

Lemma verify_final_sound expected msg s :
  verify_final (X := X) (ScramState.AwaitServerFinal expected) msg = Some (Ok s) ->
  s = ScramState.Complete /\ exists v, server_final msg = Some (Ok (ServerFinal.Verifier v)) /\
    decode_slice v 33 = Ok expected.
Proof.
  unfold verify_final. destruct (server_final msg) as [[[e|v]|e]|]; [done| |done..].
  cbn [mbind option_bind result_bind map_err]. destruct (decode_slice v 33) as [actual|] eqn:D; [|done].
  cbn [map_err mbind result_bind]. destruct (zlen actual =? 32); cbn [negb]; [|done].
  destruct (list_eqb expected actual) eqn:Q; cbn [negb]; [|done]. apply list_eqb_eq in Q as ->.
  intros H. injection H as <-. split; [done|]. by exists v.
Qed.

(** The messages of an exchange and the keys of its derivation, as the turn hands
    them on; a call that fails changes no state. *)
Inductive event :=
| Begins (password msg : list Z)
| Derives (keys : Keys)
| Finals (msg : list Z).

Inductive step {W} `{!Spare W} (s : State) : event -> State -> Prop :=
| step_begins password msg s' :
    begin compress try_copy s password msg = Some (Ok s') -> step s (Begins password msg) s'
| step_derives d keys w sig w' :
    deriving s = Some d -> write_final compress d keys w = Ok (sig, w') ->
    step s (Derives keys) (await_final sig)
| step_finals msg s' :
    verify_final (X := X) s msg = Some (Ok s') -> step s (Finals msg) s'.

Inductive steps {W} `{!Spare W} : State -> list event -> State -> Prop :=
| steps_nil s : steps s [] s
| steps_cons s e s' es s'' : step (W := W) s e s' -> steps s' es s'' -> steps s (e :: es) s''.

Lemma write_final_signature {W} `{!Spare W} d keys (w : W) sig w' :
  write_final compress d keys w = Ok (sig, w') ->
  sig = hmac_ (server keys) (auth_message (slice (nonce_of (deriving_first d)) 0 CLIENT_NONCE_BYTES)
    (retained_bytes (deriving_first d)) (nonce_of (deriving_first d))).
Proof.
  unfold write_final, mbind, emit_bind. repeat (destruct (extend _ _) as [[[] ?]|]; [|done]).
  intros H. apply Ok_inj in H. injection H as <- _. rewrite authenticated by done. done.
Qed.

(** C11. The client never completes on less than the server's proof: in any run from
    the nonce that was sent, an exchange that finishes consists of one first
    message, one derivation and one final message, where the first message's
    nonce strictly extends the client's, its iterations are within bounds and the
    final message's verifier decodes to exactly the HMAC, under the server key, of
    the authentication message of this very exchange. *)
Theorem finish_needs_signature {W} `{!Spare W} expected es s :
  zlen expected = CLIENT_NONCE_BYTES ->
  steps (W := W) (ScramState.AwaitServerFirst expected) es s -> finish (X := X) s = Ok () ->
  exists password msg keys final p v, es = [Begins password msg; Derives keys; Finals final] /\
    server_first msg = Some (Ok p) /\
    let '(nonce_, _, n) := into_parts p in
    MIN_ITERATIONS <= n <= MAX_ITERATIONS /\
    take (length expected) nonce_ = expected /\ zlen expected < zlen nonce_ /\
    server_final final = Some (Ok (ServerFinal.Verifier v)) /\
    decode_slice v 33 = Ok (hmac_ (server keys) (auth_message expected msg nonce_)).
Proof.
  intros Hl Hs Hf. inversion Hs as [|s0 e s1 es1 ? H1 Hs1]; subst; [done|].
  inversion H1 as [password msg ? Hb|d keys w sig w' Hd|msg ? Hb]; subst; [|done..].
  apply begin_sound in Hb as (d & p & -> & Hr & Hp & Hn & Hgt & Hpre & Hk & Hm).
  inversion Hs1 as [|s0 e s2 es2 ? H2 Hs2]; subst; [done|].
  inversion H2 as [password' msg' ? Hb|d' keys w sig w' Hd Hw|msg' ? Hb]; subst; [done| |done].
  injection Hd as <-. apply write_final_signature in Hw.
  inversion Hs2 as [|s0 e s3 es3 ? H3 Hs3]; subst; [done|].
  inversion H3 as [password' msg' ? Hb|d' keys' w1 sig' w2 Hd|final ? Hb]; subst; [done..|].
  apply verify_final_sound in Hb as (-> & v & Hv & Hdec).
  inversion Hs3 as [|s0 e s4 es4 ? H4 Hs4]; subst; [|inversion H4; subst; done].
  exists password, (retained_bytes (deriving_first d)), keys, final, p, v.
  destruct (into_parts p) as [[nonce_ salt_] n]. cbn [fst snd] in Hn, Hk.
  rewrite Hn in *. rewrite Hk in Hm. split_and!; try (done || lia).
  rewrite Hdec. do 3 f_equal. rewrite slice_0, <- Hl, Nat2Z.id. by rewrite Hpre.
Qed.

Lemma xor_bytes_cancel a b : length a = length b -> xor_bytes (xor_bytes a b) a = b.
Proof.
  unfold xor_bytes. revert b. induction a as [|x a IH]; intros [|y b] H; try done. cbn [zip_with].
  f_equal; [|apply IH; by injection H].
  by rewrite Z.lxor_comm, <- Z.lxor_assoc, Z.lxor_nilpotent, Z.lxor_0_l.
Qed.

Lemma length_hmac key msg : length (hmac_ key msg) = 32%nat.
Proof. by apply length_sha256. Qed.

(** The client's final message, and the signature it then expects. *)
Lemma write_final_spelled {W} `{SpareLaws W} d keys expected ext :
  nonce_of (deriving_first d) = expected ++ ext -> zlen expected = CLIENT_NONCE_BYTES ->
  length (client keys) = 32%nat ->
  let auth := auth_message expected (retained_bytes (deriving_first d)) (expected ++ ext) in
  emits (W := W) (write_final compress d keys)
    (bytes_of "c=biws,r=" ++ (expected ++ ext) ++ bytes_of ",p=" ++
     padded (xor_bytes (hmac_ (stored keys) auth) (client keys)))
    (hmac_ (server keys) auth).
Proof.
  intros Hn Hl Hc. cbv zeta. unfold write_final. rewrite Hn.
  assert (slice (expected ++ ext) 0 CLIENT_NONCE_BYTES = expected) as ->
    by (rewrite slice_0, <- Hl, Nat2Z.id; apply take_app_length).
  rewrite !authenticated by done. fold (auth_message expected (retained_bytes (deriving_first d)) (expected ++ ext)).
  set (auth := auth_message _ _ _). set (proof := xor_bytes _ (client keys)).
  assert (length proof = 32%nat) as Hp.
  { unfold proof, xor_bytes. rewrite length_zip_with, length_hmac, Hc. done. }
  assert (copy_at (replicate (Z.to_nat PROOF_BYTES) 61) 0 (internal_encode proof) = padded proof) as ->.
  { rewrite copy_at_head, encode_length. unfold padded. rewrite Hp. done. }
  eapply emits_bind; [apply emits_extend|]. eapply emits_bind; [apply emits_extend|].
  eapply emits_bind; [apply emits_extend|].
  pose proof (emits_bind (extend (padded proof)) (fun _ => mret (hmac_ (server keys) auth)) _ [] () _
    (emits_extend _) (emits_ret _)) as Hlast.
  rewrite app_nil_r in Hlast. exact Hlast.
Qed.

Lemma verify_final_accepts sig exts final :
  length sig = 32%nat -> Forall is_byte sig -> Forall extension_wf exts -> NoDup exts.*1 ->
  joined ((118, padded sig) :: exts) = Some final ->
  verify_final (X := X) (await_final sig) final = Some (Ok ScramState.Complete).
Proof.
  intros Hl Hb Hx Hd J. unfold await_final, verify_final.
  destruct (server_final_iff final (ServerFinal.Verifier (padded sig))) as [_ [_ Hf]].
  rewrite Hf; cycle 1.
  { exists (padded sig), (118, padded sig), exts. split_and!; [|done..]. split.
    - apply padded_nonempty; [done|]. by destruct sig.
    - left. split_and!; [done|done|]. by apply padded_text. }
  cbn [mbind option_bind result_bind map_err]. rewrite decode_padded by (done || rewrite Hl; lia).
  cbn [map_err mbind result_bind]. rewrite Hl. cbn [Z.eqb Z.of_nat Pos.of_succ_nat Pos.succ Pos.eqb negb].
  by rewrite (proj2 (list_eqb_eq sig sig)).
Qed.

(** Some run completes under any keys. *)
Lemma exchange_runs {W} `{SpareLaws W} (w : W) d keys expected ext password msg :
  begin compress try_copy (ScramState.AwaitServerFirst expected) password msg =
    Some (Ok (ScramState.Deriving d)) ->
  nonce_of (deriving_first d) = expected ++ ext -> zlen expected = CLIENT_NONCE_BYTES ->
  length (client keys) = 32%nat -> 100 + zlen ext <= room w ->
  exists final, steps (W := W) (ScramState.AwaitServerFirst expected)
    [Begins password msg; Derives keys; Finals final] ScramState.Complete.
Proof.
  intros Hb Hn Hl Hc Hw.
  destruct (write_final_spelled (W := W) d keys expected ext Hn Hl Hc w) as [Hok _]. cbv zeta in Hok.
  set (auth := auth_message _ _ _) in Hok. destruct Hok as (w' & Hok & _).
  { rewrite !length_app, length_padded. unfold xor_bytes at 1.
    rewrite length_zip_with, length_hmac, Hc. unfold CLIENT_NONCE_BYTES in Hl.
    change (length (bytes_of "c=biws,r=")) with 9%nat. change (length (bytes_of ",p=")) with 3%nat.
    all: exact _ || lia. }
  set (sig := hmac_ (server keys) auth) in *.
  exists (default [] (joined [(118, padded sig)])).
  econstructor; [by apply step_begins|]. econstructor; [by eapply step_derives|].
  econstructor; [|constructor]. apply step_finals. apply (verify_final_accepts sig []); try constructor.
  - apply length_hmac.
  - apply digest_bytes.
Qed.

(** C10. A client and a server that follow RFC 5802 authenticate each other: from
    the nonce it sent the client accepts the server's first message, derives the
    salted password and the keys, writes the final message whose proof the server
    checks against its stored key, and accepts the server's signature. *)
Theorem exchange_authenticates {W} `{SpareLaws W} password raw ext salt_ n exts msg :
  let expected := encode_nonce raw in
  let nonce_ := expected ++ ext in
  length raw = 18%nat -> Forall is_byte raw ->
  ext <> [] -> Forall (fun b => is_nonce_char b = true) ext ->
  salt_ <> [] -> Forall is_byte salt_ -> MIN_ITERATIONS <= n <= MAX_ITERATIONS ->
  Forall extension_wf exts -> NoDup exts.*1 ->
  joined ((114, nonce_) :: (115, padded salt_) :: (105, show n) :: exts) = Some msg ->
  try_copy msg = Ok msg ->
  let salted := hi compress password salt_ n in
  let client_key := hmac_ salted (bytes_of "Client Key") in
  let server_key := hmac_ salted (bytes_of "Server Key") in
  let stored_key := sha256 compress client_key in
  let auth := auth_message expected msg nonce_ in
  let proof := xor_bytes (hmac_ stored_key auth) client_key in
  exists d keys,
    begin compress try_copy (ScramState.AwaitServerFirst expected) password msg =
      Some (Ok (ScramState.Deriving d)) /\
    (exists polls, derive compress 400
       (kdf_new compress password (first (deriving_key d)) (key_iterations (deriving_key d))) =
       Some (salted, polls)) /\
    keys_write compress (hmac compress salted IV IV).1 (hmac compress salted IV IV).2 = keys /\
    emits (W := W) (write_final compress d keys)
      (bytes_of "c=biws,r=" ++ nonce_ ++ bytes_of ",p=" ++ padded proof) (hmac_ server_key auth) /\
    sha256 compress (xor_bytes proof (hmac_ stored_key auth)) = stored_key /\
    (forall more final, Forall extension_wf more -> NoDup more.*1 ->
       joined ((118, padded (hmac_ server_key auth)) :: more) = Some final ->
       verify_final (X := X) (await_final (hmac_ server_key auth)) final = Some (Ok ScramState.Complete) /\
       finish (X := X) ScramState.Complete = Ok ()).
Proof.
  intros expected nonce_ Hr Hrb Hext Hextc Hs Hsb Hn Hx Hd J Hcp salted client_key server_key stored_key auth proof.
  assert (length expected = 24%nat) as Hl by (unfold expected, encode_nonce; rewrite encode_length, Hr; done).
  destruct (begin_spelled nonce_ password salt_ n exts msg expected ext) as (d & Hb & E1 & E2 & E3); try done.
  { unfold nonce_. by destruct ext, expected. }
  { apply Forall_app. split; [|done]. eapply Forall_impl; [by apply encode_letters|].
    intros b Hbb. by apply base64_nonce_char in Hbb as (? & _). }
  exists d, {| client := client_key; stored := stored_key; server := server_key |}. split_and!.
  - exact Hb.
  - rewrite E3. cbn [first key_iterations]. eexists. apply derived; [done|].
    unfold MIN_ITERATIONS, MAX_ITERATIONS in Hn. lia.
  - by apply keys_written.
  - pose proof (write_final_spelled (W := W) d {| client := client_key; stored := stored_key; server := server_key |}
      expected ext E2) as Hw. rewrite E1 in Hw. apply Hw; [by rewrite Hl|]. apply length_hmac.
  - assert (xor_bytes proof (hmac_ stored_key auth) = client_key) as ->; [|done].
    apply xor_bytes_cancel. unfold client_key. by rewrite !length_hmac.
  - intros more final Hm1 Hm2 Jf. split; [|done]. apply (verify_final_accepts _ more); try done.
    + apply length_hmac.
    + apply digest_bytes.
Qed.
End exchange.

(** ** The engine of RFC 4648

    The library's engine as the standard defines it, to run the model. *)

Module Rfc4648.
Definition alphabet : list Z :=
  bytes_of "ABCDEFGHIJKLMNOPQRSTUVWXYZabcdefghijklmnopqrstuvwxyz0123456789+/".

Definition letter (v : Z) : Z := default 0 (get alphabet v).

Definition value_of (c : Z) : option Z := position (Z.eqb c) alphabet.

Fixpoint encode (l : list Z) : list Z :=
  match l with
  | a :: b :: c :: l =>
      letter (a / 4) :: letter (a mod 4 * 16 + b / 16) :: letter (b mod 16 * 4 + c / 64) :: letter (c mod 64) ::
      encode l
  | [a; b] => [letter (a / 4); letter (a mod 4 * 16 + b / 16); letter (b mod 16 * 4)]
  | [a] => [letter (a / 4); letter (a mod 4 * 16)]
  | [] => []
  end.

Fixpoint decode (l : list Z) : option (list Z) :=
  match l with
  | [] => Some []
  | w :: x :: y :: z :: l =>
      w ← value_of w; x ← value_of x;
      if z =? 61 then
        match l with
        | [] => if y =? 61 then Some [w * 4 + x / 16]
                else y ← value_of y; Some [w * 4 + x / 16; x mod 16 * 16 + y / 4]
        | _ => None
        end
      else
        y ← value_of y; z ← value_of z; r ← decode l;
        Some (w * 4 + x / 16 :: x mod 16 * 16 + y / 4 :: y mod 4 * 64 + z :: r)
  | _ => None
  end.

#[global] Instance engine : Engine := {|
  decode_slice l cap :=
    match decode l with
    | None => Err Base64.InvalidPadding
    | Some bs => if zlen bs <=? cap then Ok bs else Err Base64.OutputSliceTooSmall
    end;
  internal_encode := encode |}.

Lemma letter_spec v : 0 <= v < 64 -> value_of (letter v) = Some v /\ is_base64 (letter v) = true.
Proof.
  intros Hv. assert (forallb (fun v => bool_decide (value_of (letter v) = Some v) && is_base64 (letter v)) (seqZ 0 64) = true) as H
    by (vm_compute; reflexivity).
  rewrite forallb_forall in H. specialize (H v).
  rewrite andb_true_iff, bool_decide_eq_true in H. apply H. apply list_elem_of_In, elem_of_seqZ. lia.
Qed.

Lemma letter_pad v : 0 <= v < 64 -> letter v <> 61.
Proof. intros Hv E. destruct (letter_spec v Hv) as [_ H]. by rewrite E in H. Qed.

Lemma groups (P : list Z -> Prop) :
  P [] -> (forall a, P [a]) -> (forall a b, P [a; b]) ->
  (forall a b c l, P l -> P (a :: b :: c :: l)) -> forall l, P l.
Proof.
  intros H0 H1 H2 H3 l. enough (P l /\ (forall a, P (a :: l)) /\ (forall a b, P (a :: b :: l))) by tauto.
  induction l as [|x l (I0 & I1 & I2)]; split_and!; auto.
Qed.

Definition pads (n : nat) : list Z := replicate ((3 - n mod 3) mod 3) 61.

Lemma decode_encode bs : Forall is_byte bs -> decode (encode bs ++ pads (length bs)) = Some bs.
Proof.
  induction bs as [|a|a b|a b c l IH] using groups; intros Hb; unfold is_byte in Hb;
    repeat (apply Forall_cons in Hb as [? Hb]).
  - done.
  - change (pads _) with [61; 61]. cbn [encode app decode].
    rewrite (proj1 (letter_spec (a / 4) ltac:(lia))), (proj1 (letter_spec (a mod 4 * 16) ltac:(lia))).
    cbn [mbind option_bind Z.eqb Pos.eqb]. do 2 f_equal. lia.
  - change (pads _) with [61]. cbn [encode app decode].
    rewrite (proj1 (letter_spec (a / 4) ltac:(lia))), (proj1 (letter_spec (a mod 4 * 16 + b / 16) ltac:(lia))).
    cbn [mbind option_bind Z.eqb Pos.eqb]. destruct (Z.eqb_spec (letter (b mod 16 * 4)) 61) as [Hp|_].
    { by apply letter_pad in Hp; [|lia]. }
    rewrite (proj1 (letter_spec (b mod 16 * 4) ltac:(lia))). cbn [mbind option_bind].
    do 2 f_equal; [lia|f_equal; lia].
  - replace (pads (length (a :: b :: c :: l))) with (pads (length l)) by (unfold pads; cbn [length]; f_equal; lia).
    cbn [encode app decode].
    rewrite (proj1 (letter_spec (a / 4) ltac:(lia))), (proj1 (letter_spec (a mod 4 * 16 + b / 16) ltac:(lia))).
    cbn [mbind option_bind]. destruct (Z.eqb_spec (letter (c mod 64)) 61) as [Hp|_].
    { by apply letter_pad in Hp; [|lia]. }
    rewrite (proj1 (letter_spec (b mod 16 * 4 + c / 64) ltac:(lia))), (proj1 (letter_spec (c mod 64) ltac:(lia))).
    cbn [mbind option_bind]. rewrite IH by done. cbn [mbind option_bind]. do 2 f_equal; [lia|]. f_equal; [lia|]. f_equal. lia.
Qed.

#[global] Instance laws : EngineLaws engine.
Proof.
  split; cbn [internal_encode decode_slice engine].
  - intros bs. induction bs as [|a|a b|a b c l IH] using groups; [done..|]. cbn [encode length]. rewrite IH. lia.
  - intros bs Hb. induction bs as [|a|a b|a b c l IH] using groups; cbn [encode]; unfold is_byte in Hb;
      repeat (apply Forall_cons in Hb as [? Hb]); repeat (constructor; [apply letter_spec; lia|]); auto.
  - intros a b Ha. do 3 (destruct a as [|? a]; [done|]). by destruct a.
  - intros bs cap Hb Hc. unfold padded. cbn [internal_encode engine].
    pose proof (decode_encode bs Hb) as H. unfold pads in H. rewrite H.
    destruct (Z.leb_spec (zlen bs) cap); [done|lia].
Qed.
End Rfc4648.

Definition sample_raw : list Z := replicate 18 7.

Definition sample_nonce : list Z := encode_nonce sample_raw.

Definition sample_first : list Z :=
  bytes_of "r=" ++ sample_nonce ++ bytes_of "srv,s=W22ZaJ0SNY7soEsUEjb6gQ==,i=4096".

Definition sample_salt : list Z :=
  [91; 109; 153; 104; 157; 18; 53; 142; 236; 160; 75; 20; 18; 54; 250; 129].

Definition copied (l : list Z) : result () (list Z) := Ok l.

Lemma copied_copies l l' : copied l = Ok l' -> l' = l.
Proof. unfold copied. intros H. by apply Ok_inj in H. Qed.

Lemma exchange_authenticates_witness :
  exists d, begin Fips.compress copied (ScramState.AwaitServerFirst sample_nonce) (bytes_of "pencil") sample_first =
    Some (Ok (ScramState.Deriving d)).
Proof.
  destruct (exchange_authenticates (X := ()) Fips.compress Rfc4648.engine copied (W := Region)
    (bytes_of "pencil") sample_raw (bytes_of "srv") sample_salt 4096 [] sample_first)
    as (d & keys & H & _); [reflexivity| | |..].
  - unfold is_byte. repeat constructor; lia.
  - discriminate.
  - repeat constructor.
  - discriminate.
  - unfold is_byte. repeat constructor; lia.
  - unfold MIN_ITERATIONS, MAX_ITERATIONS. lia.
  - constructor.
  - constructor.
  - reflexivity.
  - reflexivity.
  - by exists d.
Defined.

Definition sample_keys : Keys :=
  {| client := replicate 32 1; stored := replicate 32 2; server := replicate 32 3 |}.

Lemma finish_needs_signature_witness :
  exists es s, steps (X := ()) Fips.compress Rfc4648.engine copied (W := Region)
      (ScramState.AwaitServerFirst sample_nonce) es s /\ finish (X := ()) s = Ok () /\
    exists password msg keys final, es = [Begins password msg; Derives keys; Finals final].
Proof.
  destruct (begin_spelled (X := ()) Fips.compress Rfc4648.engine copied (sample_nonce ++ bytes_of "srv")
    (bytes_of "pencil") sample_salt 4096 [] sample_first sample_nonce (bytes_of "srv")) as (d & Hb & _ & Hn & _);
    [reflexivity|discriminate|discriminate|repeat constructor|discriminate| | |constructor|constructor|reflexivity|reflexivity|].
  - unfold is_byte. repeat constructor; lia.
  - unfold MIN_ITERATIONS, MAX_ITERATIONS. lia.
  - assert (100 + zlen (bytes_of "srv") <= room sample_region) as Hroom by (vm_compute; discriminate).
    destruct (exchange_runs (X := ()) Fips.compress Rfc4648.engine copied sample_region d sample_keys sample_nonce
      (bytes_of "srv") _ _ Hb Hn eq_refl eq_refl Hroom) as (final & Hs).
    eexists _, _. split; [exact Hs|]. split; [reflexivity|].
    destruct (finish_needs_signature (X := ()) Fips.compress Rfc4648.engine copied
      copied_copies sample_nonce _ _ eq_refl Hs eq_refl)
      as (password & msg & keys & final' & p & v & E & _).
    by exists password, msg, keys, final'.
Defined.
