(* ===== verification/PgKdf.v ===== *)
(** * Derivations shared by the connections of a runtime

    Models [pg/src/protocol/scram/kdf.rs]: the coordinator that shares one
    derivation between the connections that need the same salted password, keeps
    the last two results, and bounds how many are computed at once; the ticket a
    connection polls; and the wakes that hand the work on. The slots with their
    lanes are those of the queue library, an interface here. *)
From Stdlib Require Import ZifyNat.
From S2P Require Import Prelude PgHash PgScram.

#[local] Ltac Zify.zify_post_hook ::= Z.to_euclidean_division_equations.

Definition CACHE_ENTRIES : nat := 2.

Definition KDF_LANES : nat := 4.

Definition ENTRIES : nat := KDF_LANES + CACHE_ENTRIES.

(** [lane]: the lane of a job, the last one for none. *)
Definition lane (index : option nat) : nat := default ENTRIES index.

Module KdfState.
Inductive State := Computing (kdf : Kdf) | Ready (keys : Keys).
End KdfState.

Record Entry := { key : KdfKey; state : KdfState.State }.

Record Coordinator := {
  entries : list (option Entry);
  cached : list (option nat);
  second : bool }.

(** [Coordinator::default]. *)
Definition coordinator_default : Coordinator :=
  {| entries := replicate ENTRIES None; cached := replicate CACHE_ENTRIES None; second := false |}.

#[global] Instance kdf_key_eq_dec : EqDecision KdfKey.
Proof. solve_decision. Defined.

(** [usize::from(bool)]. *)
Definition usize_of (b : bool) : nat := if b then 1%nat else 0%nat.

Definition is_computing (e : Entry) : bool :=
  match state e with KdfState.Computing _ => true | KdfState.Ready _ => false end.

(** The search among the entries that are not cached: the one of the key, or the
    last empty place and the number computing. *)
Inductive Search := Found (index : nat) | Missing (empty : option nat) (computing : nat).

Fixpoint search (cached : list (option nat)) (k : KdfKey) (index : nat)
    (entries : list (option Entry)) (empty : option nat) (computing : nat) : Search :=
  match entries with
  | [] => Missing empty computing
  | entry :: entries =>
      if bool_decide (Some index ∈ cached) then search cached k (S index) entries empty computing
      else
        match entry with
        | None => search cached k (S index) entries (Some index) computing
        | Some entry =>
            if bool_decide (key entry = k) then Found index
            else search cached k (S index) entries empty (computing + usize_of (is_computing entry))
        end
  end.

(** The first loop: a cached entry of the key. *)
Fixpoint find_cached (entries : list (option Entry)) (k : KdfKey) (cached : list (option nat)) : option nat :=
  match cached with
  | [] => None
  | None :: cached => find_cached entries k cached
  | Some index :: cached =>
      match entries !! index with
      | Some (Some entry) =>
          if bool_decide (key entry = k) then Some index else find_cached entries k cached
      | _ => find_cached entries k cached
      end
  end.

(** [self.cached[a].take().or_else(|| self.cached[b].take())]. *)
Definition take_cached (cached : list (option nat)) (second : bool) : option (nat * list (option nat)) :=
  match mjoin (cached !! usize_of second) with
  | Some index => Some (index, <[usize_of second := None]> cached)
  | None =>
      match mjoin (cached !! usize_of (negb second)) with
      | Some index => Some (index, <[usize_of (negb second) := None]> cached)
      | None => None
      end
  end.

Section kdf.
  Context (compress : list Z -> list Z -> list Z).

(** The entry [select] inserts. *)
Definition entry_new (k : KdfKey) (password : list Z) : Entry :=
  {| key := k; state := KdfState.Computing (kdf_new compress password (first k) (key_iterations k)) |}.

(** [Coordinator::select]. *)
Definition select (c : Coordinator) (k : KdfKey) (password : option (list Z)) : option (nat * Coordinator) :=
  match find_cached (entries c) k (cached c) with
  | Some index => Some (index, c)
  | None =>
      match search (cached c) k 0 (entries c) None 0 with
      | Found index => Some (index, c)
      | Missing empty computing =>
          password ← password;
          if (computing =? KDF_LANES)%nat then None
          else
            place ← match empty with
                    | Some index => Some (index, cached c)
                    | None => take_cached (cached c) (second c)
                    end;
            Some (place.1,
              {| entries := <[place.1 := Some (entry_new k password)]> (entries c);
                 cached := place.2; second := second c |})
      end
  end.

(** [Coordinator::cache]. *)
Definition cache (c : Coordinator) (index : nat) : Coordinator :=
  let previous := mjoin (cached c !! usize_of (second c)) in
  {| entries := match previous with Some previous => <[previous := None]> (entries c) | None => entries c end;
     cached := <[usize_of (second c) := Some index]> (cached c);
     second := negb (second c) |}.

Definition set_state (c : Coordinator) (index : nat) (k : KdfKey) (st : KdfState.State) : Coordinator :=
  {| entries := <[index := Some {| key := k; state := st |}]> (entries c);
     cached := cached c; second := second c |}.

Definition remove_entry (c : Coordinator) (index : nat) : Coordinator :=
  {| entries := <[index := None]> (entries c); cached := cached c; second := second c |}.

Record Member := { owner : Z; job : option nat }.

(** [values::Values]: slots that hold a member, each queued in one lane at most. *)
Class Waiters (W : Type) := {
  fixed : nat -> W;
  capacity : W -> nat;
  get_slot : W -> nat -> option Member;
  write_slot : W -> nat -> Member -> W;
  set_lane : W -> nat -> nat -> W;
  push_lane : W -> nat -> nat -> Member -> W;
  take_slot : W -> nat -> W;
  lane_front : W -> nat -> option (nat * Member);
  queue : W -> nat -> list nat;
  waiters_wf : W -> Prop }.

(** A lane is a queue of slots that hold a member: a slot joins a lane at its
    end, stays where it is when it joins the lane it is in, moves with its new
    member, and leaves with it. *)
Class WaitersLaws (W : Type) `{Waiters W} : Prop := {
  fixed_wf n : waiters_wf (fixed n);
  fixed_get n s : get_slot (fixed n) s = None;
  fixed_queue n l : queue (fixed n) l = [];
  fixed_capacity n : capacity (fixed n) = n;
  lane_nodup w l : waiters_wf w -> NoDup (queue w l);
  lane_held w l s : waiters_wf w -> s ∈ queue w l -> is_Some (get_slot w s);
  lane_once w l l' s : waiters_wf w -> s ∈ queue w l -> s ∈ queue w l' -> l = l';
  front_head w l :
    waiters_wf w -> lane_front w l = (s ← head (queue w l); m ← get_slot w s; Some (s, m));
  write_wf w s m : waiters_wf w -> get_slot w s = None -> waiters_wf (write_slot w s m);
  write_get w s m s' :
    waiters_wf w -> get_slot w s = None ->
    get_slot (write_slot w s m) s' = if decide (s' = s) then Some m else get_slot w s';
  write_queue w s m l : waiters_wf w -> get_slot w s = None -> queue (write_slot w s m) l = queue w l;
  write_capacity w s m : capacity (write_slot w s m) = capacity w;
  set_wf w s l : waiters_wf w -> is_Some (get_slot w s) -> waiters_wf (set_lane w s l);
  set_get w s l s' : waiters_wf w -> get_slot (set_lane w s l) s' = get_slot w s';
  set_queue w s l l' :
    waiters_wf w -> is_Some (get_slot w s) -> (forall l2, s ∈ queue w l2 -> l2 = l) ->
    queue (set_lane w s l) l' =
    if decide (l' = l) then (if decide (s ∈ queue w l) then queue w l else queue w l ++ [s]) else queue w l';
  set_capacity w s l : capacity (set_lane w s l) = capacity w;
  push_wf w s l m : waiters_wf w -> is_Some (get_slot w s) -> waiters_wf (push_lane w s l m);
  push_get w s l m s' :
    waiters_wf w -> is_Some (get_slot w s) ->
    get_slot (push_lane w s l m) s' = if decide (s' = s) then Some m else get_slot w s';
  push_queue w s l m l' :
    waiters_wf w -> is_Some (get_slot w s) -> s ∉ queue w l ->
    queue (push_lane w s l m) l' =
    if decide (l' = l) then queue w l ++ [s] else filter (fun x => x <> s) (queue w l');
  push_capacity w s l m : capacity (push_lane w s l m) = capacity w;
  take_wf w s : waiters_wf w -> waiters_wf (take_slot w s);
  take_get w s s' :
    waiters_wf w -> get_slot (take_slot w s) s' = if decide (s' = s) then None else get_slot w s';
  take_queue w s l : waiters_wf w -> queue (take_slot w s) l = filter (fun x => x <> s) (queue w l);
  take_capacity w s : capacity (take_slot w s) = capacity w }.

(** [conn::Id::index]. *)
Context (index_of : Z -> nat) {W : Type} `{!Waiters W}.

Record Runtime := { waiters : W; coordinator : Coordinator }.

(** [Runtime::try_new]. *)
Definition runtime_new (cap : nat) : Runtime :=
  {| waiters := fixed cap; coordinator := coordinator_default |}.

(** [Runtime::try_entry]: the slot of the connection, or the bounds it missed. *)
Definition try_entry (r : Runtime) (o : Z) : result (nat * nat) Runtime :=
  if (capacity (waiters r) <=? index_of o)%nat then Err (index_of o, capacity (waiters r))
  else Ok {| waiters := write_slot (waiters r) (index_of o) {| owner := o; job := None |};
             coordinator := coordinator r |}.

(** [Runtime::front]. *)
Definition front (w : W) (index : option nat) : option Z :=
  (fun m => owner m.2) <$> lane_front w (lane index).

(** [Ticket::release]. *)
Definition release (r : Runtime) (slot : nat) : Runtime * option Z * bool :=
  let w := waiters r in
  let c := coordinator r in
  match get_slot w slot with
  | None => (r, None, false)
  | Some member =>
      let was_front := bool_decide (front w (job member) = Some (owner member)) in
      let w := take_slot w slot in
      match job member with
      | Some index =>
          let next := front w (Some index) in
          match next with
          | None =>
              let c :=
                match mjoin (entries c !! index) with
                | Some {| state := KdfState.Ready _ |} => cache c index
                | _ => remove_entry c index
                end in
              ({| waiters := w; coordinator := c |}, front w None, false)
          | Some _ => ({| waiters := w; coordinator := c |}, if was_front then next else None, true)
          end
      | None => ({| waiters := w; coordinator := c |}, if was_front then front w None else None, false)
      end
  end.

(** [Ticket::cancel]. *)
Definition cancel (r : Runtime) (slot : nat) : Runtime * option Z := (release r slot).1.

(** The end of [Ticket::poll], once the entry is ready: the wakes and the keys;
    [None] where the code would panic. *)
Definition poll_ready (r : Runtime) (slot index : nat) (completed : bool)
    : option (Runtime * list Z * option Keys) :=
  let '(r, next, remaining) := release r slot in
  let wakes := option_list next in
  let wakes := if completed && remaining then wakes ++ option_list (front (waiters r) None) else wakes in
  match mjoin (entries (coordinator r) !! index) with
  | Some {| state := KdfState.Ready keys |} => Some (r, wakes, Some keys)
  | _ => None
  end.

(** [Ticket::poll] in the lane of a derivation: only its front advances it. *)
Definition poll_front (w : W) (c : Coordinator) (slot : nat) (o : Z) (index : nat) (k : KdfKey) (kdf : Kdf)
    : option (Runtime * list Z * option Keys) :=
  if negb (bool_decide (front w (Some index) = Some o)) then
    Some ({| waiters := w; coordinator := c |}, [], None)
  else
    let '(kdf, done) := advance compress kdf in
    match done with
    | None =>
        Some ({| waiters := w; coordinator := set_state c index k (KdfState.Computing kdf) |}, [o], None)
    | Some salted =>
        let '(inner, outer) := hmac compress salted IV IV in
        let c := set_state c index k (KdfState.Ready (keys_write compress inner outer)) in
        poll_ready {| waiters := w; coordinator := c |} slot index true
    end.

(** The lane of the derivation joined, and who is now next for a lane. *)
Definition join (w : W) (slot : nat) (member : Member) (index : nat) : W * list Z :=
  match job member with
  | Some _ => (w, [])
  | None =>
      let was_front := bool_decide (front w None = Some (owner member)) in
      let w := push_lane w slot (lane (Some index)) {| owner := owner member; job := Some index |} in
      (w, if was_front then option_list (front w None) else [])
  end.

(** [Ticket::poll] on the entry of its job: whether it joins, waits, advances or
    takes the keys. *)
Definition poll_job (w : W) (c : Coordinator) (slot : nat) (member : Member) (index : nat)
    : option (Runtime * list Z * option Keys) :=
  entry ← mjoin (entries c !! index);
  match state entry with
  | KdfState.Computing kdf =>
      let '(w, wakes) := join w slot member index in
      '(r, more, keys) ← poll_front w c slot (owner member) index (key entry) kdf;
      Some (r, wakes ++ more, keys)
  | KdfState.Ready _ => poll_ready {| waiters := w; coordinator := c |} slot index false
  end.

(** [Ticket::poll]: the runtime, the connections it wakes in order and the keys
    when they are ready. *)
Definition poll (r : Runtime) (slot : nat) (k : KdfKey) (password : list Z)
    : option (Runtime * list Z * option Keys) :=
  let w := waiters r in
  match get_slot w slot with
  | None => Some (r, [], None)
  | Some member =>
      match job member with
      | Some index => poll_job w (coordinator r) slot member index
      | None =>
          let admission :=
            match front w None with
            | None => Some password
            | Some front => if front =? owner member then Some password else None
            end in
          match select (coordinator r) k admission with
          | None => Some ({| waiters := set_lane w slot (lane None); coordinator := coordinator r |}, [], None)
          | Some (index, c) => poll_job w c slot member index
          end
      end
  end.
End kdf.

(** ** What the coordinator keeps *)

Definition computing_at (e : option Entry) : nat :=
  match e with Some e => usize_of (is_computing e) | None => 0 end.

(** The entries that compute. *)
Definition computing (es : list (option Entry)) : nat := sum_list_with computing_at es.

Lemma sum_insert {A} (f : A -> nat) l i x y :
  l !! i = Some x -> (sum_list_with f (<[i := y]> l) + f x = sum_list_with f l + f y)%nat.
Proof.
  revert i. induction l as [|z l IH]; intros [|i] H; try done.
  - injection H as ->. cbn. lia.
  - cbn [lookup list_lookup] in H. apply IH in H. simpl in H |- *. lia.
Qed.

Section coordinator.
  Context (compress : list Z -> list Z -> list Z) `{!CompressLaws compress} (password : list Z).

(** The keys a derivation leads to. *)
Definition derived_keys (k : KdfKey) : Keys :=
  let salted := hi_rounds compress (Z.to_nat (key_iterations k - 1)) password (first k) (first k) in
  keys_write compress (hmac compress salted IV IV).1 (hmac compress salted IV IV).2.

Definition key_ok (k : KdfKey) : Prop :=
  length (first k) = 32%nat /\ Forall is_byte (first k) /\ 1 <= key_iterations k <= MAX_ITERATIONS.

(** A derivation under way: the rounds left lead to the salted password. *)
Definition kdf_ok (k : KdfKey) (d : Kdf) : Prop :=
  prf d = hmac compress password IV IV /\ length (previous d) = 32%nat /\
  Forall is_byte (output d) /\ length (output d) = 32%nat /\ 0 <= remaining d <= key_iterations k - 1 /\
  hi_rounds compress (Z.to_nat (remaining d)) password (previous d) (output d) =
  hi_rounds compress (Z.to_nat (key_iterations k - 1)) password (first k) (first k).

(** The polls left before the one that completes. *)
Definition polls_left (d : Kdf) : nat := Z.to_nat (remaining d / ITERATIONS_PER_POLL).

Lemma kdf_new_ok k : key_ok k -> kdf_ok k (kdf_new compress password (first k) (key_iterations k)).
Proof. intros (H1 & H2 & H3). split_and!; (done || cbn [remaining kdf_new]; lia). Qed.

Lemma advance_ok k d :
  kdf_ok k d ->
  let '(d', done) := advance compress d in
  match done with
  | None => kdf_ok k d' /\ (polls_left d' < polls_left d)%nat
  | Some salted => salted = hi_rounds compress (Z.to_nat (key_iterations k - 1)) password (first k) (first k)
  end.
Proof.
  intros (H1 & H2 & H3 & H4 & H5 & H6). destruct d as [p u acc rem]. cbn [prf previous output remaining] in *. subst p.
  destruct (advance_hi compress password u acc rem) as (u' & E & L1 & L2 & L3 & L4); try (done || lia).
  rewrite E. unfold polls_left, ITERATIONS_PER_POLL. cbn [remaining].
  destruct (Z.eqb_spec (rem - Z.min rem 256) 0) as [Z0|Z0].
  - rewrite <- H6. f_equal. lia.
  - split; [|apply Z2Nat.inj_lt; lia]. split_and!; cbn [prf previous output remaining]; try (done || lia).
    rewrite <- L4, <- H6. f_equal. lia.
Qed.

Definition entry_ok (e : Entry) : Prop :=
  key_ok (key e) /\
  match state e with
  | KdfState.Computing d => kdf_ok (key e) d
  | KdfState.Ready keys => keys = derived_keys (key e)
  end.

(** What holds of the coordinator while the lanes in [busy] are not empty: cached
    entries are ready and idle, the others are busy, and lanes bound the
    derivations. *)
Record coordinator_ok (busy : nat -> Prop) (c : Coordinator) : Prop := {
  ok_entries : length (entries c) = ENTRIES;
  ok_cached : length (cached c) = CACHE_ENTRIES;
  ok_ready b i : cached c !! b = Some (Some i) ->
    ~ busy i /\ exists k keys, entries c !! i = Some (Some {| key := k; state := KdfState.Ready keys |});
  ok_once a b i : cached c !! a = Some (Some i) -> cached c !! b = Some (Some i) -> a = b;
  ok_kept i e : entries c !! i = Some (Some e) -> Some i ∈ cached c \/ busy i;
  ok_busy i : busy i -> exists e, entries c !! i = Some (Some e);
  ok_entry i e : entries c !! i = Some (Some e) -> entry_ok e;
  ok_computing : (computing (entries c) <= KDF_LANES)%nat }.

(** No place for another derivation. *)
Definition full (c : Coordinator) : Prop :=
  computing (entries c) = KDF_LANES \/
  ((forall i, (i < ENTRIES)%nat -> exists e, entries c !! i = Some (Some e)) /\ forall i, Some i ∉ cached c).

Lemma coordinator_ok_iff (busy busy' : nat -> Prop) c :
  (forall i, busy' i <-> busy i) -> coordinator_ok busy c -> coordinator_ok busy' c.
Proof.
  intros Hb []. split; try done.
  - intros b i Hi. rewrite Hb. by apply (ok_ready0 b).
  - intros i e Hi. rewrite Hb. by apply (ok_kept0 i e).
  - intros i Hi. apply ok_busy0. by apply Hb.
Qed.

Lemma coordinator_default_ok (busy : nat -> Prop) :
  (forall i, ~ busy i) -> coordinator_ok busy coordinator_default.
Proof.
  intros Hb. split; try done; cbn [coordinator_default entries cached].
  - intros b i [H _]%lookup_replicate. done.
  - intros a b i [H _]%lookup_replicate. done.
  - intros i e [H _]%lookup_replicate. done.
  - intros i Hi. by apply Hb in Hi.
  - intros i e [H _]%lookup_replicate. done.
  - cbn. lia.
Qed.

Lemma find_cached_Some es k cs i :
  find_cached es k cs = Some i -> Some i ∈ cs /\ exists e, es !! i = Some (Some e) /\ key e = k.
Proof.
  induction cs as [|[j|] cs IH]; cbn [find_cached]; intros H; [done| |].
  - destruct (es !! j) as [[e|]|] eqn:E; [|apply IH in H as [? ?]; split; [by right|done]..].
    case_bool_decide as K.
    + injection H as <-. split; [by left|]. by exists e.
    + apply IH in H as [? ?]. split; [by right|done].
  - apply IH in H as [? ?]. split; [by right|done].
Qed.

(** What the search finds. *)
Lemma search_spec cs k off es empty n :
  match search cs k off es empty n with
  | Found i => (off <= i)%nat /\ Some i ∉ cs /\ exists e, es !! (i - off)%nat = Some (Some e) /\ key e = k
  | Missing empty' n' =>
      (forall i e, es !! i = Some e -> Some (off + i)%nat ∈ cs -> computing_at e = 0%nat) ->
      n' = (n + computing es)%nat /\
      (forall i, empty' = Some i -> empty = Some i \/
         (off <= i)%nat /\ Some i ∉ cs /\ es !! (i - off)%nat = Some None) /\
      (empty' = None -> empty = None /\
         forall i e, es !! i = Some e -> Some (off + i)%nat ∈ cs \/ e <> None)
  end.
Proof.
  revert off empty n. induction es as [|e es IH]; intros off empty n; cbn [search].
  { intros _. cbn. split_and!; [lia|auto|]. intros ->. done. }
  pose proof (fun m k => IH (S off) m k) as IHs.
  assert (forall i, (S off <= i)%nat -> (e :: es) !! (i - off)%nat = es !! (i - S off)%nat) as Hsh.
  { intros i Hi. by replace (i - off)%nat with (S (i - S off)) by lia. }
  case_bool_decide as Hc.
  - specialize (IHs empty n). destruct (search _ _ _ _ _ _) as [i|empty' n'].
    + destruct IHs as (? & ? & H). split_and!; [lia|done|]. by rewrite Hsh by lia.
    + intros Hz. destruct IHs as (-> & H1 & H2).
      { intros i x Hx. rewrite Nat.add_succ_l, <- Nat.add_succ_r. by apply (Hz (S i)). }
      split_and!.
      * pose proof (Hz 0%nat e eq_refl) as H0. rewrite Nat.add_0_r in H0. specialize (H0 Hc).
        unfold computing. cbn [sum_list_with]. rewrite H0. done.
      * intros i Hi. destruct (H1 i Hi) as [?|(? & ? & ?)]; [by left|right]. rewrite Hsh by lia. split_and!; (done || lia).
      * intros Hi. destruct (H2 Hi) as [? H3]. split; [done|]. intros [|i] x Hx.
        -- left. by rewrite Nat.add_0_r.
        -- rewrite Nat.add_succ_r, <- Nat.add_succ_l. by apply H3.
  - destruct e as [e|].
    + case_bool_decide as Hk.
      * split_and!; [lia|done|]. rewrite Nat.sub_diag. by exists e.
      * specialize (IHs empty (n + usize_of (is_computing e))%nat). destruct (search _ _ _ _ _ _) as [i|empty' n'].
        -- destruct IHs as (? & ? & H). split_and!; [lia|done|]. by rewrite Hsh by lia.
        -- intros Hz. destruct IHs as (-> & H1 & H2).
           { intros i x Hx. rewrite Nat.add_succ_l, <- Nat.add_succ_r. by apply (Hz (S i)). }
           split_and!.
           ++ unfold computing. cbn [sum_list_with computing_at]. lia.
           ++ intros i Hi. destruct (H1 i Hi) as [?|(? & ? & ?)]; [by left|right]. rewrite Hsh by lia. split_and!; (done || lia).
           ++ intros Hi. destruct (H2 Hi) as [? H3]. split; [done|]. intros [|i] x Hx.
              ** right. by injection Hx as <-.
              ** rewrite Nat.add_succ_r, <- Nat.add_succ_l. by apply H3.
    + specialize (IHs (Some off) n). destruct (search _ _ _ _ _ _) as [i|empty' n'].
      * destruct IHs as (? & ? & H). split_and!; [lia|done|]. by rewrite Hsh by lia.
      * intros Hz. destruct IHs as (-> & H1 & H2).
        { intros i x Hx. rewrite Nat.add_succ_l, <- Nat.add_succ_r. by apply (Hz (S i)). }
        split_and!.
        -- done.
        -- intros i Hi. right. destruct (H1 i Hi) as [[= <-]|(? & ? & ?)].
           ++ split_and!; [lia|done|]. by rewrite Nat.sub_diag.
           ++ rewrite Hsh by lia. split_and!; (done || lia).
        -- intros Hi. by destruct (H2 Hi) as [? _].
Qed.

(** The polls all derivations have left. *)
Definition polls_at (e : option Entry) : nat :=
  match e with Some {| state := KdfState.Computing d |} => polls_left d | _ => 0 end.

Definition polls (c : Coordinator) : nat := sum_list_with polls_at (entries c).

(** Putting another entry in a place, and another cache. *)
Lemma coordinator_put (busy busy' : nat -> Prop) c c' i x y :
  coordinator_ok busy c -> entries c !! i = Some x -> entries c' = <[i := y]> (entries c) ->
  length (cached c') = CACHE_ENTRIES ->
  (forall b j, cached c' !! b = Some (Some j) -> j <> i /\ cached c !! b = Some (Some j)) ->
  (forall j, j <> i -> Some j ∈ cached c -> Some j ∈ cached c') ->
  (forall j, j <> i -> busy' j <-> busy j) ->
  match y with Some e => busy' i /\ entry_ok e | None => ~ busy' i end ->
  (computing (entries c) + computing_at y <= KDF_LANES + computing_at x)%nat ->
  coordinator_ok busy' c' /\ (polls c' + polls_at x = polls c + polls_at y)%nat /\
  (computing (entries c') + computing_at x = computing (entries c) + computing_at y)%nat.
Proof.
  intros [] Hx He Hl Hc Hk Hb Hy Hn.
  assert (i < length (entries c))%nat as Hi by by apply lookup_lt_Some in Hx.
  pose proof (sum_insert computing_at _ i _ y Hx) as Hsum. fold (computing (entries c)) in Hsum.
  split; [|split; [unfold polls; rewrite He; by apply sum_insert|unfold computing at 1; by rewrite He]].
  split; try rewrite He.
  - by rewrite length_insert.
  - done.
  - intros b j Hj. apply Hc in Hj as [Hne Hj]. destruct (ok_ready0 b j Hj) as [H1 H2]. rewrite Hb by done.
    rewrite list_lookup_insert_ne by done. done.
  - intros a b j Ha Hb'. apply Hc in Ha as [_ Ha], Hb' as [_ Hb']. by apply (ok_once0 a b j).
  - intros j e Hj. destruct (decide (j = i)) as [->|Hne].
    + rewrite list_lookup_insert_eq in Hj by done. injection Hj as ->. right. apply Hy.
    + rewrite list_lookup_insert_ne in Hj by done. rewrite Hb by done. apply ok_kept0 in Hj as [?|?]; [left|by right]. by apply Hk.
  - intros j Hj. destruct (decide (j = i)) as [->|Hne].
    + rewrite list_lookup_insert_eq by done. destruct y as [e|]; [by exists e|done].
    + rewrite list_lookup_insert_ne by done. apply ok_busy0. by apply Hb.
  - intros j e Hj. destruct (decide (j = i)) as [->|Hne].
    + rewrite list_lookup_insert_eq in Hj by done. injection Hj as ->. apply Hy.
    + rewrite list_lookup_insert_ne in Hj by done. by apply (ok_entry0 j).
  - unfold computing at 1. lia.
Qed.

(** A change of the state of a busy entry. *)
Lemma set_state_ok busy c i e st :
  coordinator_ok busy c -> entries c !! i = Some (Some e) -> busy i ->
  entry_ok {| key := key e; state := st |} ->
  (usize_of (is_computing {| key := key e; state := st |}) <= usize_of (is_computing e))%nat ->
  coordinator_ok busy (set_state c i (key e) st) /\
  (polls (set_state c i (key e) st) + polls_at (Some e) =
   polls c + polls_at (Some {| key := key e; state := st |}))%nat /\
  (computing (entries (set_state c i (key e) st)) + usize_of (is_computing e) =
   computing (entries c) + usize_of (is_computing {| key := key e; state := st |}))%nat.
Proof.
  intros Hok Hi Hb He Hn. pose proof (ok_computing _ _ Hok).
  eapply (coordinator_put busy busy c _ i (Some e) (Some {| key := key e; state := st |})); try done.
  - apply Hok.
  - intros b j Hj. split; [|done]. intros ->. by apply (ok_ready _ _ Hok) in Hj as [? _].
  - cbn [computing_at]. lia.
Qed.

(** A busy entry removed as its lane empties. *)
Lemma remove_entry_ok (busy busy' : nat -> Prop) c i :
  coordinator_ok busy c -> busy i -> (forall j, j <> i -> busy' j <-> busy j) -> ~ busy' i ->
  coordinator_ok busy' (remove_entry c i) /\ (polls (remove_entry c i) <= polls c)%nat.
Proof.
  intros Hok Hb Hb' Hi. destruct (ok_busy _ _ Hok i Hb) as [e He].
  destruct (coordinator_put busy busy' c (remove_entry c i) i (Some e) None) as (H1 & H2 & H3); try done.
  - apply Hok.
  - intros b j Hj. split; [|done]. intros ->. by apply (ok_ready _ _ Hok) in Hj as [? _].
  - pose proof (ok_computing _ _ Hok). cbn [computing_at]. lia.
  - split; [done|]. cbn [polls_at] in H2. lia.
Qed.

Lemma usize_of_lt b : (usize_of b < CACHE_ENTRIES)%nat.
Proof. unfold CACHE_ENTRIES. destruct b; cbn; lia. Qed.

Lemma mjoin_Some {A} (o : option (option A)) x : mjoin o = Some x <-> o = Some (Some x).
Proof. destruct o as [[a|]|]; cbn; naive_solver. Qed.

(** An entry whose lane emptied is cached, in the place of the older one. *)
Lemma cache_ok (busy busy' : nat -> Prop) c i k keys :
  coordinator_ok busy c -> busy i -> (forall j, j <> i -> busy' j <-> busy j) -> ~ busy' i ->
  entries c !! i = Some (Some {| key := k; state := KdfState.Ready keys |}) ->
  coordinator_ok busy' (cache c i) /\ (polls (cache c i) <= polls c)%nat /\
  entries (cache c i) !! i = Some (Some {| key := k; state := KdfState.Ready keys |}).
Proof.
  intros Hok Hb Hb' Hi He. pose proof Hok as []. unfold cache.
  set (b := usize_of (second c)). set (previous := mjoin (cached c !! b)).
  assert (b < length (cached c))%nat as Hlt by (rewrite ok_cached0; apply usize_of_lt).
  assert (forall j e, entries c !! j = Some e -> previous <> Some j ->
    match previous with Some p => <[p:=None]> (entries c) | None => entries c end !! j = Some e) as Hkeep.
  { intros j e Hj Hp. destruct previous as [p|]; [|done]. rewrite list_lookup_insert_ne by congruence. done. }
  assert (forall j e, match previous with Some p => <[p:=None]> (entries c) | None => entries c end !! j = Some (Some e) ->
    entries c !! j = Some (Some e) /\ previous <> Some j) as Hback.
  { intros j e Hj. destruct previous as [p|]; [|done]. destruct (decide (p = j)) as [->|Hne].
    - destruct (decide (j < length (entries c))%nat).
      + by rewrite list_lookup_insert_eq in Hj.
      + rewrite list_insert_ge in Hj by lia. apply lookup_lt_Some in Hj. lia.
    - rewrite list_lookup_insert_ne in Hj by done. split; [done|congruence]. }
  assert (forall p, previous = Some p -> cached c !! b = Some (Some p)) as Hprev by (intros p; apply mjoin_Some).
  assert (forall a, cached c !! a <> Some (Some i)) as Hni by (intros a Ha; by apply ok_ready0 in Ha as [? _]).
  assert (previous <> Some i) as Hpi by (intros Hp; by apply Hprev, Hni in Hp).
  split; [|split; [|by apply Hkeep]].
  - split; cbn [entries cached].
    + destruct previous; [by rewrite length_insert|done].
    + by rewrite length_insert.
    + intros a j Ha. destruct (decide (a = b)) as [->|Hne].
      * rewrite list_lookup_insert_eq in Ha by done. injection Ha as <-. split; [done|]. exists k, keys. by apply Hkeep.
      * rewrite list_lookup_insert_ne in Ha by done. assert (j <> i) as Hji by (intros ->; by apply Hni in Ha).
        destruct (ok_ready0 a j Ha) as (H1 & k' & keys' & H2). rewrite Hb' by done. split; [done|].
        exists k', keys'. apply Hkeep; [done|]. intros Hp%Hprev. by apply Hne, (ok_once0 a b j).
    + intros a a' j. destruct (decide (a = b)) as [->|Hne], (decide (a' = b)) as [->|Hne']; try done;
        rewrite ?list_lookup_insert_eq, ?list_lookup_insert_ne by done.
      * intros [= <-] Ha. by apply Hni in Ha.
      * intros Ha [= <-]. by apply Hni in Ha.
      * apply ok_once0.
    + intros j e Hj. apply Hback in Hj as [Hj Hp]. destruct (decide (j = i)) as [->|Hne].
      * left. apply list_elem_of_lookup. exists b. by rewrite list_lookup_insert_eq.
      * rewrite Hb' by done. destruct (ok_kept0 j e Hj) as [Hc|]; [left|by right].
        apply list_elem_of_lookup in Hc as [a Ha]. apply list_elem_of_lookup. exists a.
        rewrite list_lookup_insert_ne; [done|]. intros <-. unfold previous in Hp. by rewrite Ha in Hp.
    + intros j Hj. destruct (decide (j = i)) as [->|Hne]; [done|]. apply Hb' in Hj; [|done].
      destruct (ok_busy0 j Hj) as [e Hje]. exists e. apply Hkeep; [done|].
      intros Hp%Hprev. by apply ok_ready0 in Hp as [? _].
    + intros j e Hj. apply Hback in Hj as [Hj _]. by apply (ok_entry0 j).
    + destruct previous as [p|] eqn:Hp; [|done]. destruct (ok_ready0 b p (Hprev p eq_refl)) as (_ & k' & keys' & Hpe).
      pose proof (sum_insert computing_at _ p _ None Hpe) as Hs. unfold computing in *. cbn [computing_at is_computing state usize_of] in Hs. lia.
  - unfold polls. cbn [entries]. destruct previous as [p|] eqn:Hp; [|done].
    destruct (ok_ready0 b p (Hprev p eq_refl)) as (_ & k' & keys' & Hpe).
    pose proof (sum_insert polls_at _ p _ None Hpe) as Hs. cbn [polls_at] in Hs. lia.
Qed.

Lemma take_cached_spec cs b :
  length cs = CACHE_ENTRIES ->
  match take_cached cs b with
  | Some (i, cs') => exists a, cs !! a = Some (Some i) /\ cs' = <[a := None]> cs
  | None => forall i, Some i ∉ cs
  end.
Proof.
  intros Hl. unfold take_cached. destruct cs as [|x [|y [|? ?]]]; try discriminate Hl.
  destruct b; cbn [usize_of negb lookup list_lookup]; destruct x as [x|], y as [y|]; cbn [mjoin option_join];
    try (eexists 0%nat; split; done); try (eexists 1%nat; split; done);
    intros i Hi; set_solver.
Qed.

(** What selecting does: an entry of the key there is, a new one where there is a
    lane and a place, or nothing. *)
Lemma select_ok busy c k pw :
  coordinator_ok busy c -> key_ok k -> (forall p, pw = Some p -> p = password) ->
  match select compress c k pw with
  | None => pw = None \/ full c
  | Some (i, c') =>
      (c' = c /\ exists e, entries c !! i = Some (Some e) /\ key e = k) \/
      (pw = Some password /\ ~ busy i /\ (i < ENTRIES)%nat /\
       entries c' !! i = Some (Some (entry_new compress k password)) /\
       (forall j, j <> i -> entries c' !! j = entries c !! j) /\
       coordinator_ok (fun j => busy j \/ j = i) c' /\ (polls c' <= polls c + 390)%nat)
  end.
Proof.
  intros Hok Hk Hpw. unfold select. destruct (find_cached _ _ _) as [i|] eqn:F.
  { left. split; [done|]. by apply find_cached_Some in F as [_ ?]. }
  pose proof (search_spec (cached c) k 0 (entries c) None 0) as S.
  destruct (search _ _ _ _ _ _) as [i|empty n].
  { left. split; [done|]. destruct S as (_ & _ & S). by rewrite Nat.sub_0_r in S. }
  destruct pw as [p|]; [|by left]. cbn [mbind option_bind]. specialize (Hpw p eq_refl) as ->.
  assert (forall b i, cached c !! b = Some (Some i) ->
    exists e, entries c !! i = Some (Some e) /\ is_computing e = false) as Hr.
  { intros b i Hi. destruct (ok_ready _ _ Hok b i Hi) as (_ & k' & keys & He). by eexists. }
  destruct S as (-> & S1 & S2).
  { intros i e He [b Hb]%list_elem_of_lookup. destruct (Hr b i Hb) as (e' & He' & Hc).
    rewrite He in He'. injection He' as ->. cbn [computing_at]. by rewrite Hc. }
  rewrite Nat.add_0_l. destruct (Nat.eqb_spec (computing (entries c)) KDF_LANES) as [E|E]; [right; by left|].
  pose proof (ok_computing _ _ Hok) as Hn.
  set (new := Some (entry_new compress k password)).
  assert (entry_ok (entry_new compress k password)) as Hnew by (split; [done|by apply kdf_new_ok]).
  assert (polls_at new <= 390)%nat as Hp.
  { cbn. unfold polls_left, ITERATIONS_PER_POLL. cbn [remaining kdf_new]. destruct Hk as (_ & _ & ? & Hm).
    unfold MAX_ITERATIONS in Hm. lia. }
  assert (forall i x cs', entries c !! i = Some x -> computing_at x = 0%nat -> ~ busy i ->
    length cs' = CACHE_ENTRIES ->
    (forall b j, cs' !! b = Some (Some j) -> j <> i /\ cached c !! b = Some (Some j)) ->
    (forall j, j <> i -> Some j ∈ cached c -> Some j ∈ cs') ->
    ~ busy i /\ (i < ENTRIES)%nat /\ <[i:=new]> (entries c) !! i = Some new /\
    (forall j, j <> i -> <[i:=new]> (entries c) !! j = entries c !! j) /\
    let c' := {| entries := <[i:=new]> (entries c); cached := cs'; second := second c |} in
    coordinator_ok (fun j => busy j \/ j = i) c' /\ (polls c' <= polls c + 390)%nat) as Hput.
  { intros i x cs' Hx H0 Hb Hl H1 H2. pose proof (lookup_lt_Some _ _ _ Hx) as Hi.
    split; [done|]. split; [by rewrite <- (ok_entries _ _ Hok)|]. split; [by rewrite list_lookup_insert_eq|].
    split; [intros j Hj; by rewrite list_lookup_insert_ne|]. cbv zeta.
    destruct (coordinator_put busy (fun j => busy j \/ j = i) c
      {| entries := <[i:=new]> (entries c); cached := cs'; second := second c |} i x new) as (G1 & G2 & _); try done.
    - intros j Hj. tauto.
    - by split; [right|].
    - rewrite H0. cbn. unfold KDF_LANES in *. lia.
    - split; [done|]. lia. }
  destruct empty as [i|].
  - cbn [mbind option_bind fst snd]. right. split; [done|].
    destruct (S1 i eq_refl) as [?|(_ & Hi & He)]; [done|]. rewrite Nat.sub_0_r in He.
    apply (Hput i None (cached c)); try done.
    + intros Hb. apply (ok_busy _ _ Hok) in Hb as [e Hb]. by rewrite He in Hb.
    + apply Hok.
    + intros b j Hj. split; [|done]. intros ->. apply Hi, list_elem_of_lookup. by exists b.
  - destruct (S2 eq_refl) as [_ S3]. pose proof (take_cached_spec (cached c) (second c) (ok_cached _ _ Hok)) as T.
    destruct (take_cached _ _) as [[i cs']|]; cbn [mbind option_bind fst snd].
    + right. split; [done|]. destruct T as (a & Ha & ->).
      destruct (ok_ready _ _ Hok a i Ha) as (Hb & k' & keys & He).
      pose proof (lookup_lt_Some _ _ _ Ha) as Hal.
      apply (Hput i _ (<[a:=None]> (cached c)) He); try done.
      * rewrite length_insert. apply Hok.
      * intros b j Hj. destruct (decide (b = a)) as [->|Hne].
        -- by rewrite list_lookup_insert_eq in Hj.
        -- rewrite list_lookup_insert_ne in Hj by done. split; [|done]. intros ->. by apply Hne, (ok_once _ _ Hok b a i).
      * intros j Hj [b Hb']%list_elem_of_lookup. apply list_elem_of_lookup. exists b.
        rewrite list_lookup_insert_ne; [done|]. intros <-. congruence.
    + right. right. split; [|done]. intros i Hi. rewrite <- (ok_entries _ _ Hok) in Hi.
      apply lookup_lt_is_Some in Hi as [e He]. destruct (S3 i e He) as [Hc|Hc].
      * rewrite Nat.add_0_l in Hc. by apply T in Hc.
      * destruct e as [e|]; [by exists e|done].
Qed.
End coordinator.
