(* ===== verification/PgKdfRun.v ===== *)
(** * No derivation is forgotten

    The invariant of [PgKdf]'s runtime and its progress: every poll of a
    connection finds its entry, and as long as connections wait, one that makes
    progress is woken, so that polling the woken ones serves everybody. *)
From Stdlib Require Import ZifyNat.
From stdpp Require Import gmap.
From S2P Require Import Prelude PgHash PgScram PgKdf.

Section run.
  Context (compress : list Z -> list Z -> list Z) `{!CompressLaws compress} (password : list Z)
    (index_of : Z -> nat) (key_of : Z -> KdfKey) {W : Type} `{WaitersLaws W}.

Abbreviation Runtime := (Runtime (W := W)).

(** A lane of a job that is not empty. *)
Definition busy (w : W) (i : nat) : Prop := (i < ENTRIES)%nat /\ queue w i <> [].

(** A member sits at the slot of its connection, in the lane of its job. *)
Record waiters_ok (w : W) : Prop := {
  wok_wf : waiters_wf w;
  wok_slot s m : get_slot w s = Some m -> index_of (owner m) = s /\ key_ok (key_of (owner m));
  wok_lane s m l : get_slot w s = Some m -> s ∈ queue w l -> l = lane (job m);
  wok_job s m i : get_slot w s = Some m -> job m = Some i -> (i < ENTRIES)%nat /\ s ∈ queue w i }.

Record runtime_ok (r : Runtime) : Prop := {
  rok_waiters : waiters_ok (waiters r);
  rok_coordinator : coordinator_ok compress password (busy (waiters r)) (coordinator r);
  rok_keyed s m i : get_slot (waiters r) s = Some m -> job m = Some i ->
    exists e, entries (coordinator r) !! i = Some (Some e) /\ key e = key_of (owner m) }.

(** ** Lanes *)

#[local] Ltac lane_of E := unfold lane in E; cbn [default from_option id] in E.

Lemma head_filter (s x : nat) q : head q = Some x -> x <> s -> head (filter (fun y => y <> s) q) = Some x.
Proof. destruct q as [|y q]; [done|]. intros [= ->] Hne. by rewrite filter_cons_True. Qed.

Lemma head_elem (q : list nat) x : head q = Some x -> x ∈ q.
Proof. destruct q; [done|]. intros [= ->]. by left. Qed.

Lemma filter_absent (s : nat) (q : list nat) : s ∉ q -> filter (fun y => y <> s) q = q.
Proof.
  induction q as [|x q IH]; intros Hs; [done|]. apply not_elem_of_cons in Hs as [Hx Hs].
  rewrite filter_cons_True by congruence. by rewrite IH.
Qed.

Lemma length_filter_out (s : nat) q :
  NoDup q -> s ∈ q -> S (length (filter (fun y => y <> s) q)) = length q.
Proof.
  induction 1 as [|x q Hx Hq IH]; intros Hs; [by apply elem_of_nil in Hs|].
  destruct (decide (x = s)) as [->|Hne].
  - rewrite filter_cons_False by tauto. cbn [length]. by rewrite filter_absent.
  - rewrite filter_cons_True by done. apply elem_of_cons in Hs as [->|Hs]; [done|]. cbn [length]. by rewrite IH.
Qed.

Lemma front_spec w j o :
  waiters_wf w ->
  front w j = Some o <-> exists s m, head (queue w (lane j)) = Some s /\ get_slot w s = Some m /\ owner m = o.
Proof.
  intros Hw. unfold front. rewrite front_head by done. split.
  - destruct (head (queue w (lane j))) as [s|]; [|done]. cbn [mbind option_bind].
    destruct (get_slot w s) as [m|] eqn:G; [|done]. cbn. intros [= <-]. eauto.
  - intros (s & m & -> & Hm & <-). cbn [mbind option_bind]. rewrite Hm. done.
Qed.

Lemma front_None w j : waiters_wf w -> front w j = None <-> queue w (lane j) = [].
Proof.
  intros Hw. unfold front. rewrite front_head by done. destruct (queue w (lane j)) as [|s q] eqn:Q; [done|].
  cbn [head mbind option_bind]. destruct (lane_held w (lane j) s Hw) as [m ->]; [rewrite Q; by left|]. done.
Qed.

Lemma front_own w s m j :
  waiters_ok w -> get_slot w s = Some m -> front w j = Some (owner m) <-> head (queue w (lane j)) = Some s.
Proof.
  intros Hw Hm. rewrite front_spec by apply Hw. split.
  - intros (s' & m' & Hh & Hm' & E). apply (wok_slot _ Hw) in Hm as [<- _], Hm' as [<- _]. by rewrite Hh, E.
  - intros Hh. by exists s, m.
Qed.

(** A connection that waits in a lane. *)
Definition waits (w : W) (o : Z) : Prop :=
  exists m l, get_slot w (index_of o) = Some m /\ owner m = o /\ index_of o ∈ queue w l.

Lemma front_waits w j o : waiters_ok w -> front w j = Some o -> waits w o.
Proof.
  intros Hw. rewrite front_spec by apply Hw. intros (s & m & Hh & Hm & <-).
  exists m, (lane j). destruct (wok_slot _ Hw s m Hm) as [-> _]. split_and!; [done|done|by apply head_elem].
Qed.

(** The connections in [A] wait, with the fronts of all jobs among them. *)
Record awake (w : W) (A : gset Z) : Prop := {
  awake_front i o : (i < ENTRIES)%nat -> front w (Some i) = Some o -> o ∈ A;
  awake_waits o : o ∈ A -> waits w o }.

(** Whoever is next for a lane is awake, or there is no place for it. *)
Definition admitted (r : Runtime) (A : gset Z) : Prop :=
  forall o, front (waiters r) None = Some o -> o ∈ A \/ full (coordinator r).

(** The work left: a connection that joins brings a derivation, one in the lane of
    a job takes its keys. *)
Definition load (w : W) : nat :=
  400 * length (queue w ENTRIES) + 3 * sum_list_with (fun l => length (queue w l)) (seq 0 ENTRIES).

Lemma seq_entries : seq 0 ENTRIES = [0; 1; 2; 3; 4; 5]%nat.
Proof. done. Qed.

(** ** A slot that leaves *)

Lemma take_waiters_ok w s : waiters_ok w -> waiters_ok (take_slot w s).
Proof.
  intros Hw. pose proof (wok_wf _ Hw) as Hf. split.
  - by apply take_wf.
  - intros s' m. rewrite take_get by done. destruct (decide (s' = s)); [done|apply Hw].
  - intros s' m l. rewrite take_get, take_queue by done. destruct (decide (s' = s)); [done|].
    intros Hm [_ Hq]%list_elem_of_filter. by apply (wok_lane _ Hw s').
  - intros s' m i. rewrite take_get, take_queue by done. destruct (decide (s' = s)); [done|].
    intros Hm Hj. destruct (wok_job _ Hw s' m i Hm Hj) as [? ?]. split; [done|]. by apply list_elem_of_filter.
Qed.

Lemma front_take w s m j o :
  waiters_ok w -> get_slot w s = Some m -> front (take_slot w s) j = Some o ->
  (front w j = Some o /\ o <> owner m) \/ front w j = Some (owner m).
Proof.
  intros Hw Hm Hf. pose proof (wok_wf _ Hw) as Hwf. destruct (queue w (lane j)) as [|x q] eqn:Q.
  - assert (queue (take_slot w s) (lane j) = []) as E by by rewrite take_queue, Q.
    apply front_None in E; [|by apply take_wf]. congruence.
  - destruct (decide (x = s)) as [->|Hne].
    + right. apply (front_own w s m j Hw Hm). by rewrite Q.
    + left. apply front_spec in Hf as (y & m' & Hh & Hm' & <-); [|by apply take_wf].
      rewrite take_queue, Q, filter_cons_True in Hh by done. injection Hh as ->.
      rewrite take_get, decide_False in Hm' by done. split.
      * apply front_own with (s := y); [done|done|]. by rewrite Q.
      * intros E. apply (wok_slot _ Hw) in Hm as [Hs _], Hm' as [Hs' _]. congruence.
Qed.

Lemma waits_take w s m o :
  waiters_ok w -> get_slot w s = Some m -> waits w o -> o <> owner m -> waits (take_slot w s) o.
Proof.
  intros Hw Hm (m' & l & Hm' & <- & Hq) Hne. pose proof (wok_wf _ Hw).
  assert (index_of (owner m') <> s) as Hs by (intros E; rewrite E in Hm'; congruence).
  exists m', l. rewrite take_get, decide_False, take_queue by done. split_and!; [done|done|].
  by apply list_elem_of_filter.
Qed.

Lemma load_take w s m :
  waiters_ok w -> get_slot w s = Some m ->
  (load (take_slot w s) <= load w)%nat /\
  (forall l, s ∈ queue w l -> load (take_slot w s) + (if (l =? ENTRIES)%nat then 400 else 3) <= load w)%nat.
Proof.
  intros Hw Hm. pose proof (wok_wf _ Hw) as Hwf.
  assert (forall l, (length (queue (take_slot w s) l) <= length (queue w l))%nat) as Hle.
  { intros l. rewrite take_queue by done. apply length_filter. }
  assert (forall l, s ∈ queue w l -> S (length (queue (take_slot w s) l)) = length (queue w l)) as Hlt.
  { intros l Hl. rewrite take_queue by done. apply length_filter_out; [by apply lane_nodup|done]. }
  unfold load. rewrite seq_entries. cbn [sum_list_with].
  pose proof (Hle ENTRIES). pose proof (Hle 0%nat). pose proof (Hle 1%nat). pose proof (Hle 2%nat).
  pose proof (Hle 3%nat). pose proof (Hle 4%nat). pose proof (Hle 5%nat).
  split; [lia|]. intros l Hl. pose proof (Hlt l Hl) as Hl'. pose proof (wok_lane _ Hw s m l Hm Hl) as El.
  destruct (Nat.eqb_spec l ENTRIES) as [->|Hne]; [lia|].
  destruct (job m) as [i|] eqn:J; [|done]. lane_of El. subst l.
  destruct (wok_job _ Hw s m i Hm J) as [Hi _]. unfold ENTRIES, KDF_LANES, CACHE_ENTRIES in Hi.
  do 6 (destruct i as [|i]; [lia|]). cbn in Hi. lia.
Qed.

Lemma busy_take w s m i :
  waiters_ok w -> get_slot w s = Some m -> job m <> Some i -> busy (take_slot w s) i <-> busy w i.
Proof.
  intros Hw Hm Hj. unfold busy. split; intros [Hi Hq]; (split; [done|]).
  - intros E. apply Hq. by rewrite take_queue, E by apply Hw.
  - rewrite take_queue by apply Hw. rewrite filter_absent; [done|]. intros Hs.
    pose proof (wok_lane _ Hw s m i Hm Hs) as E. destruct (job m) as [k|]; lane_of E; [congruence|lia].
Qed.

(** A slot that left, and the connections awake then. *)
Section leave.
  Context (w : W) (s : nat) (m : Member) (Hw : waiters_ok w) (Hm : get_slot w s = Some m).

Definition left_behind : W := take_slot w s.

Lemma awake_leaves A (next : option Z) :
  awake w A -> (forall o, next = Some o -> waits left_behind o) ->
  (forall i o, job m = Some i -> front left_behind (Some i) = Some o -> front w (job m) = Some (owner m) ->
     next = Some o) ->
  awake left_behind (A ∖ {[owner m]} ∪ list_to_set (option_list next)).
Proof.
  intros [HA1 HA2] Hnw Hnx. split.
  - intros i o Hi Hf. pose proof (front_take _ s m (Some i) o Hw Hm Hf) as [[H1 H2]|H1].
    + specialize (HA1 i o Hi H1). set_solver.
    + pose proof (proj1 (front_own _ s m (Some i) Hw Hm) H1) as Hh. apply head_elem in Hh.
      pose proof (wok_lane _ Hw s m _ Hm Hh) as El. destruct (job m) as [k|] eqn:J; lane_of El; [|lia].
      subst k. rewrite (Hnx i o eq_refl Hf H1). cbn. set_solver.
  - intros o [[Ho Hne]%elem_of_difference|Ho]%elem_of_union.
    + apply (waits_take _ s m); [done|done|by apply HA2|set_solver].
    + destruct next as [x|]; cbn in Ho; [|set_solver]. assert (o = x) as -> by set_solver. by apply Hnw.
Qed.

Lemma admitted_leaves c c' A (next : option Z) :
  admitted {| waiters := w; coordinator := c |} A ->
  (job m = None -> front w None = Some (owner m) -> next = front left_behind None) ->
  c' = c \/ next = front left_behind None ->
  admitted {| waiters := left_behind; coordinator := c' |} (A ∖ {[owner m]} ∪ list_to_set (option_list next)).
Proof.
  intros HA Hj Hc' o Hf. cbn [waiters coordinator] in *.
  pose proof (front_take _ s m None o Hw Hm Hf) as [[H1 H2]|H1].
  - destruct Hc' as [-> | ->]; [|rewrite Hf; cbn; set_solver]. destruct (HA o H1); [left; set_solver|by right].
  - pose proof (proj1 (front_own _ s m None Hw Hm) H1) as Hh. apply head_elem in Hh.
    pose proof (wok_lane _ Hw s m _ Hm Hh) as El. destruct (job m) as [k|] eqn:J.
    { destruct (wok_job _ Hw s m k Hm J) as [? _]. lane_of El. lia. }
    rewrite Hj by done. rewrite Hf. cbn. set_solver.
Qed.

(** The entries the members that stay wait for. *)
Lemma keyed_leaves c c' :
  (forall s m i, get_slot w s = Some m -> job m = Some i ->
     exists e, entries c !! i = Some (Some e) /\ key e = key_of (owner m)) ->
  (forall i e, busy left_behind i -> entries c !! i = Some e -> entries c' !! i = Some e) ->
  forall s m i, get_slot left_behind s = Some m -> job m = Some i ->
    exists e, entries c' !! i = Some (Some e) /\ key e = key_of (owner m).
Proof.
  intros Hk Hc s' m' i Hm' Hj'. pose proof (take_waiters_ok w s Hw) as Hw'.
  destruct (wok_job _ Hw' s' m' i Hm' Hj') as [Hi Hq].
  unfold left_behind in Hm'. rewrite take_get in Hm' by apply Hw. destruct (decide (s' = s)); [done|].
  destruct (Hk s' m' i Hm' Hj') as (e & He & Ek). exists e. split; [|done]. apply Hc; [|done]. split; [done|].
  intros E. unfold left_behind in E. rewrite E in Hq. by apply elem_of_nil in Hq.
Qed.

Lemma coordinator_stays c :
  coordinator_ok compress password (busy w) c -> (forall i, job m = Some i -> busy left_behind i) ->
  coordinator_ok compress password (busy left_behind) c.
Proof.
  intros Hc Hj. eapply coordinator_ok_iff; [|exact Hc]. intros i.
  destruct (decide (job m = Some i)) as [J|J]; [|by apply (busy_take _ s m)].
  destruct (wok_job _ Hw s m i Hm J) as [Hi Hq]. split; [|by auto]. intros _. split; [done|].
  intros E. rewrite E in Hq. by apply elem_of_nil in Hq.
Qed.

(** The entry of a lane that emptied is cached if it is ready, and dropped if not. *)
Definition emptied (c : Coordinator) (i : nat) : Coordinator :=
  match mjoin (entries c !! i) with
  | Some {| state := KdfState.Ready _ |} => cache c i
  | _ => remove_entry c i
  end.

Lemma emptied_ok c i :
  coordinator_ok compress password (busy w) c -> job m = Some i -> ~ busy left_behind i ->
  coordinator_ok compress password (busy left_behind) (emptied c i) /\ (polls (emptied c i) <= polls c)%nat /\
  (forall k keys, entries c !! i = Some (Some {| key := k; state := KdfState.Ready keys |}) ->
     entries (emptied c i) !! i = Some (Some {| key := k; state := KdfState.Ready keys |})) /\
  forall j e, busy left_behind j -> entries c !! j = Some e -> entries (emptied c i) !! j = Some e.
Proof.
  intros Hc J Hni. destruct (wok_job _ Hw s m i Hm J) as [Hi Hq].
  assert (busy w i) as Hbi by (split; [done|]; intros E; rewrite E in Hq; by apply elem_of_nil in Hq).
  assert (forall j, j <> i -> busy left_behind j <-> busy w j) as Hb
    by (intros j Hj; apply (busy_take _ s m); [done|done|congruence]).
  assert (forall j, busy left_behind j -> j <> i /\ busy w j) as Hj.
  { intros j Hbj. assert (j <> i) as Hne by (by intros ->). split; [done|]. by apply Hb. }
  destruct (ok_busy _ _ _ _ Hc i Hbi) as [[k st] He]. unfold emptied. rewrite He. cbn [mjoin option_join].
  destruct st as [d|keys].
  - destruct (remove_entry_ok compress password _ (busy left_behind) _ i Hc Hbi Hb Hni) as [? ?].
    split_and!; [done|done| |]; [intros ?? E; congruence|].
    intros j e [Hne _]%Hj Hje. cbn [remove_entry entries]. by rewrite list_lookup_insert_ne.
  - destruct (cache_ok compress password _ (busy left_behind) _ i k keys Hc Hbi Hb Hni He) as (? & ? & H3).
    split_and!; [done|done| |]; [intros ?? E; rewrite H3; congruence|].
    intros j e [Hne Hbj]%Hj Hje. cbn [cache entries].
    destruct (mjoin (cached c !! usize_of (second c))) as [p|] eqn:P; [|done].
    apply mjoin_Some in P. destruct (ok_ready _ _ _ _ Hc _ p P) as [Hp _].
    rewrite list_lookup_insert_ne; [done|]. by intros ->.
Qed.
End leave.

(** [release]: the runtime stays well formed, and whoever takes the front that is
    left is the one it names. *)
Lemma release_ok r s m :
  runtime_ok r -> get_slot (waiters r) s = Some m ->
  let '(r', next, remaining) := release r s in
  runtime_ok r' /\ waiters r' = take_slot (waiters r) s /\
  (forall A, awake (waiters r) A -> awake (waiters r') (A ∖ {[owner m]} ∪ list_to_set (option_list next))) /\
  (forall A, admitted r A -> admitted r' (A ∖ {[owner m]} ∪ list_to_set (option_list next))) /\
  (remaining = false -> job m <> None -> next = front (waiters r') None) /\
  (job m = None -> coordinator r' = coordinator r) /\
  (forall i k keys, job m = Some i ->
     entries (coordinator r) !! i = Some (Some {| key := k; state := KdfState.Ready keys |}) ->
     entries (coordinator r') !! i = Some (Some {| key := k; state := KdfState.Ready keys |})) /\
  (polls (coordinator r') <= polls (coordinator r))%nat.
Proof.
  intros [Hw Hc Hk] Hm. destruct r as [w c]. cbn [waiters coordinator] in *.
  pose proof (take_waiters_ok _ s Hw) as Hw'. unfold release. cbn [waiters coordinator]. rewrite Hm.
  fold (left_behind w s). fold (left_behind w s) in Hw'.
  assert (forall (b : bool) j o, (if b then front (left_behind w s) j else None) = Some o -> waits (left_behind w s) o) as Hwt
    by (intros [] j o Ho; [by apply (front_waits _ j)|done]).
  destruct (job m) as [i|] eqn:J; cycle 1.
  { split_and!; try done.
    - split; cbn [waiters coordinator]; [done|by apply (coordinator_stays w s m); [..|rewrite J]|].
      by apply (keyed_leaves w s Hw c).
    - intros A HA. apply awake_leaves; [done..|intros o; apply Hwt|by rewrite J].
    - intros A HA. apply (admitted_leaves w s m Hw Hm c); [done| |by left]. intros _ F. by rewrite F, bool_decide_eq_true_2. }
  destruct (front (left_behind w s) (Some i)) as [x|] eqn:F.
  - assert (busy (left_behind w s) i) as Hbi.
    { split; [by apply (wok_job _ Hw s m)|]. intros E.
      apply (front_None _ (Some i) (wok_wf _ Hw')) in E. congruence. }
    assert (forall j, job m = Some j -> busy (left_behind w s) j) as Hbj by (intros j; rewrite J; by intros [= <-]).
    split_and!; try done.
    + split; cbn [waiters coordinator]; [done|by apply (coordinator_stays w s m)|]. by apply (keyed_leaves w s Hw c).
    + intros A HA. apply awake_leaves; [done..|intros o; rewrite <- F; apply Hwt|].
      rewrite J. intros j o [= <-] Ho Hf. rewrite Hf, bool_decide_eq_true_2 by done. congruence.
    + intros A HA. apply (admitted_leaves w s m Hw Hm c); [done|by rewrite J|by left].
  - assert (~ busy (left_behind w s) i) as Hbi.
    { intros [_ Hne]. apply Hne. by apply (proj1 (front_None _ (Some i) (wok_wf _ Hw'))). }
    fold (emptied c i). destruct (emptied_ok w s m Hw Hm c i Hc J Hbi) as (G1 & G2 & G3 & G4).
    split_and!; try done.
    + split; cbn [waiters coordinator]; [done|done|]. by apply (keyed_leaves w s Hw c).
    + intros A HA. apply awake_leaves; [done..|intros o; by apply front_waits|].
      rewrite J. intros j o [= <-] Ho. congruence.
    + intros A HA. apply (admitted_leaves w s m Hw Hm c); [done|by rewrite J|by right].
    + intros j k keys [= <-]. apply G3.
Qed.

(** What a poll of the connection [o] at [s] does: it keeps the runtime well formed
    and everybody who is next for something awake, moves nobody else, and brings the
    work down by what it wakes. *)
Record poll_spec (r : Runtime) (s : nat) (o : Z) (r' : Runtime) (wakes : list Z) (keys : option Keys) : Prop := {
  ps_ok : runtime_ok r';
  ps_awake A : awake (waiters r) A -> awake (waiters r') (A ∖ {[o]} ∪ list_to_set wakes);
  ps_admitted A : admitted r A -> admitted r' (A ∖ {[o]} ∪ list_to_set wakes);
  ps_load l : s ∈ queue (waiters r) l ->
    (load (waiters r') + polls (coordinator r') + length wakes <= load (waiters r) + polls (coordinator r))%nat;
  ps_others s' : s' <> s -> get_slot (waiters r') s' = get_slot (waiters r) s' /\
    forall l, s' ∈ queue (waiters r) l -> s' ∈ queue (waiters r') l;
  ps_self : match keys with
            | Some keys => keys = derived_keys compress password (key_of o) /\ get_slot (waiters r') s = None
            | None => waits (waiters r') o
            end }.

Lemma take_others w s s' :
  waiters_wf w -> s' <> s -> get_slot (take_slot w s) s' = get_slot w s' /\
    forall l, s' ∈ queue w l -> s' ∈ queue (take_slot w s) l.
Proof.
  intros Hw Hs. split; [by rewrite take_get, decide_False|]. intros l Hl. rewrite take_queue by done.
  by apply list_elem_of_filter.
Qed.

Lemma awake_more w A o : waits w o -> awake w A -> awake w (A ∪ {[o]}).
Proof.
  intros Ho [H1 H2]. split; [intros i x Hi Hx; apply (H1 i x Hi) in Hx; set_solver|].
  intros x [Hx|Hx]%elem_of_union; [by apply H2|]. by assert (x = o) as -> by set_solver.
Qed.

Lemma awake_set w A B : A ≡ B -> awake w A -> awake w B.
Proof. intros E%leibniz_equiv. by subst. Qed.

Lemma admitted_more r A B : A ⊆ B -> admitted r A -> admitted r B.
Proof. intros Hs HA o Ho. destruct (HA o Ho); [left; set_solver|by right]. Qed.

(** Taking the keys of an entry that is ready. *)
Lemma poll_ready_waiting r s m index keys :
  runtime_ok r -> get_slot (waiters r) s = Some m -> job m = Some index \/ job m = None ->
  entries (coordinator r) !! index = Some (Some {| key := key_of (owner m); state := KdfState.Ready keys |}) ->
  exists r' wakes, poll_ready r s index false = Some (r', wakes, Some keys) /\
    poll_spec r s (owner m) r' wakes (Some keys).
Proof.
  intros Hr Hm Hj He. pose proof Hr as [Hw Hc Hk]. pose proof (wok_wf _ Hw) as Hwf.
  pose proof (release_ok r s m Hr Hm) as Hrel. unfold poll_ready.
  destruct (release r s) as [[r' next] remaining]. destruct Hrel as (G1 & G2 & G3 & G4 & G5 & G6 & G7 & G8).
  assert (entries (coordinator r') !! index = entries (coordinator r) !! index) as ->.
  { destruct Hj as [Hj|Hj]; [by rewrite He, (G7 _ _ _ Hj He)|by rewrite G6]. }
  rewrite He. cbn [mjoin option_join andb]. eexists _, _. split; [done|].
  pose proof (ok_entry _ _ _ _ Hc _ _ He) as [_ Hkeys]. cbn [key state] in Hkeys.
  split; try done.
  - intros l Hl. rewrite G2. destruct (load_take _ s m Hw Hm) as [_ Hlt]. specialize (Hlt l Hl).
    assert (length (option_list next) <= 1)%nat by (destruct next; cbn; lia).
    destruct (l =? ENTRIES)%nat; lia.
  - intros s' Hs. rewrite G2. by apply take_others.
  - split; [done|]. by rewrite G2, take_get, decide_True.
Qed.

(** The derivation that completed: its keys, the front that is left, and whoever is
    next for the lane that is free. *)
Lemma poll_ready_completed r c s m index keys :
  runtime_ok r -> runtime_ok {| waiters := waiters r; coordinator := c |} -> (polls c <= polls (coordinator r))%nat ->
  get_slot (waiters r) s = Some m -> job m = Some index ->
  entries c !! index = Some (Some {| key := key_of (owner m); state := KdfState.Ready keys |}) ->
  exists r' wakes, poll_ready {| waiters := waiters r; coordinator := c |} s index true = Some (r', wakes, Some keys) /\
    poll_spec r s (owner m) r' wakes (Some keys).
Proof.
  intros Hr0 Hr Hp Hm Hj He. pose proof Hr as [Hw Hc Hk]. cbn [waiters coordinator] in *. pose proof (wok_wf _ Hw) as Hwf.
  pose proof (release_ok {| waiters := waiters r; coordinator := c |} s m Hr Hm) as Hrel. unfold poll_ready.
  destruct (release _ s) as [[r' next] remaining]. cbn [waiters coordinator] in Hrel.
  destruct Hrel as (G1 & G2 & G3 & G4 & G5 & G6 & G7 & G8).
  rewrite (G7 _ _ _ Hj He). cbn [mjoin option_join]. eexists _, _. split; [done|].
  pose proof (ok_entry _ _ _ _ Hc _ _ He) as [_ Hkeys]. cbn [key state] in Hkeys.
  set (wakes := if true && remaining then _ else _).
  assert (wakes = option_list next ++ (if remaining then option_list (front (waiters r') None) else [])) as ->
    by (unfold wakes; destruct remaining; [done|by rewrite app_nil_r]).
  split; try done.
  - intros A HA. specialize (G3 A HA). destruct remaining; [|by rewrite app_nil_r].
    destruct (front (waiters r') None) as [x|] eqn:F; [|by rewrite app_nil_r].
    pose proof (front_waits _ _ _ (rok_waiters _ G1) F) as Hx.
    eapply awake_set; [|exact (awake_more _ _ x Hx G3)]. rewrite list_to_set_app. cbn. set_solver.
  - intros A HA x Hx. left. destruct remaining.
    + rewrite list_to_set_app, Hx. cbn. set_solver.
    + rewrite app_nil_r, (G5 eq_refl), Hx by congruence. cbn. set_solver.
  - intros l Hl. rewrite G2. destruct (load_take _ s m Hw Hm) as [_ Hlt]. specialize (Hlt l Hl).
    assert (forall (x : option Z), length (option_list x) <= 1)%nat as Ho by (intros [?|]; cbn; lia).
    rewrite length_app. pose proof (Ho next). pose proof (Ho (front (waiters r') None)).
    assert (length (if remaining then option_list (front (waiters r') None) else []) <= 1)%nat
      by (destruct remaining; cbn; lia).
    rewrite G2 in *. destruct (l =? ENTRIES)%nat; lia.
  - intros s' Hs. rewrite G2. by apply take_others.
  - split; [done|]. by rewrite G2, take_get, decide_True.
Qed.

(** Another state of the entry of a lane. *)
Lemma set_state_runtime r i e st :
  runtime_ok r -> entries (coordinator r) !! i = Some (Some e) -> busy (waiters r) i ->
  entry_ok compress password {| key := key e; state := st |} ->
  (usize_of (is_computing {| key := key e; state := st |}) <= usize_of (is_computing e))%nat ->
  let c := set_state (coordinator r) i (key e) st in
  runtime_ok {| waiters := waiters r; coordinator := c |} /\
  (polls c + polls_at (Some e) = polls (coordinator r) + polls_at (Some {| key := key e; state := st |}))%nat /\
  entries c !! i = Some (Some {| key := key e; state := st |}) /\
  (usize_of (is_computing e) = usize_of (is_computing {| key := key e; state := st |}) ->
   full (coordinator r) -> full c).
Proof.
  intros [Hw Hc Hk] He Hb Hok Hn c.
  destruct (set_state_ok compress password _ _ _ _ st Hc He Hb Hok Hn) as (G1 & G2 & G3).
  pose proof (lookup_lt_Some _ _ _ He) as Hi. split_and!.
  - split; [done|done|]. intros s m j Hm Hj. destruct (Hk s m j Hm Hj) as (e' & He' & Ek).
    cbn [coordinator]. unfold c, set_state. cbn [entries]. destruct (decide (j = i)) as [->|Hne].
    + rewrite list_lookup_insert_eq by done. eexists. split; [done|]. cbn [key]. congruence.
    + rewrite list_lookup_insert_ne by done. by exists e'.
  - done.
  - cbn [c set_state entries]. by rewrite list_lookup_insert_eq.
  - intros E [F|[F1 F2]].
    + left. unfold c. lia.
    + right. split; [|done]. intros j Hj. cbn [c set_state entries]. destruct (decide (j = i)) as [->|Hne].
      * rewrite list_lookup_insert_eq by done. by eexists.
      * rewrite list_lookup_insert_ne by done. by apply F1.
Qed.

(** A connection in the lane of a derivation waits behind its front, or advances it. *)
Lemma poll_front_ok r s m index d :
  runtime_ok r -> get_slot (waiters r) s = Some m -> job m = Some index ->
  entries (coordinator r) !! index = Some (Some {| key := key_of (owner m); state := KdfState.Computing d |}) ->
  exists r' wakes keys,
    poll_front compress (waiters r) (coordinator r) s (owner m) index (key_of (owner m)) d = Some (r', wakes, keys) /\
    poll_spec r s (owner m) r' wakes keys.
Proof.
  intros Hr Hm Hj He. pose proof Hr as [Hw Hc Hk]. pose proof (wok_wf _ Hw) as Hwf.
  destruct (wok_job _ Hw s m index Hm Hj) as [Hi Hq]. destruct (wok_slot _ Hw s m Hm) as [Hs Hkok].
  assert (waits (waiters r) (owner m)) as Hwaits by (exists m, index; rewrite Hs; done).
  assert (busy (waiters r) index) as Hb by (split; [done|]; intros E; rewrite E in Hq; by apply elem_of_nil in Hq).
  unfold poll_front. case_bool_decide as F; cbn [negb]; cycle 1.
  { eexists _, _, _. split; [done|]. destruct r as [w c]. cbn [waiters coordinator] in *. split; cbn [waiters coordinator]; try done.
    - intros A [H1 H2]. split; [|intros o Ho; apply H2; set_solver].
      intros i o Hi' Ho. assert (o <> owner m) as Hne.
      { intros ->. apply (front_own _ s m _ Hw Hm) in Ho as Hh. apply head_elem in Hh.
        pose proof (wok_lane _ Hw s m _ Hm Hh) as El. rewrite Hj in El. lane_of El. subst i. by apply F. }
      specialize (H1 i o Hi' Ho). set_solver.
    - intros A HA o Ho. assert (o <> owner m) as Hne.
      { intros ->. apply (front_own _ s m _ Hw Hm) in Ho as Hh. apply head_elem in Hh.
        pose proof (wok_lane _ Hw s m _ Hm Hh) as El. rewrite Hj in El. lane_of El. lia. }
      destruct (HA o Ho); [left; set_solver|by right].
    - intros l Hl. cbn [length]. lia. }
  pose proof (ok_entry _ _ _ _ Hc _ _ He) as [_ Hd]. cbn [key state] in Hd.
  pose proof (advance_ok compress password _ d Hd) as Hadv. destruct (advance compress d) as [d' [salted|]].
  - subst salted. set (salted := hi_rounds _ _ _ _ _). destruct (hmac compress salted IV IV) as [inner outer] eqn:Hh.
    pose proof (set_state_runtime r index _ (KdfState.Ready (keys_write compress inner outer)) Hr He Hb) as G.
    cbn [key] in G. destruct G as (G1 & G2 & G3 & _).
    { split; [done|]. cbn [state key]. unfold derived_keys. fold salted. by rewrite Hh. }
    { cbn. lia. }
    edestruct (poll_ready_completed r) as (r' & wakes & Hp & Hspec); [done|exact G1| |done|done|exact G3|].
    + cbn [polls_at] in G2. lia.
    + exists r', wakes. eexists. split; [exact Hp|exact Hspec].
  - destruct Hadv as [Hd' Hlt].
    pose proof (set_state_runtime r index _ (KdfState.Computing d') Hr He Hb) as G.
    cbn [key] in G. destruct G as (G1 & G2 & G3 & G4); [by split|done|].
    eexists _, _, _. split; [done|]. split; cbn [waiters coordinator]; try done.
    + intros A [H1 H2]. split; [|intros o Ho].
      * intros i o Hi' Ho. specialize (H1 i o Hi' Ho). destruct (decide (o = owner m)); cbn; set_solver.
      * cbn in Ho. destruct (decide (o = owner m)) as [->|Hne]; [done|]. apply H2. set_solver.
    + intros A HA o Ho. destruct (HA o Ho) as [Hin|Hfull]; [left; destruct (decide (o = owner m)); cbn; set_solver|right]. by apply G4.
    + intros l Hl. cbn [polls_at length] in *. lia.
Qed.

(** ** A slot that joins *)

Lemma idle_lane w s m l :
  waiters_ok w -> get_slot w s = Some m -> job m = None -> s ∈ queue w l -> l = ENTRIES.
Proof. intros Hw Hm Hj Hs. pose proof (wok_lane _ Hw s m l Hm Hs) as E. by rewrite Hj in E. Qed.

Section join.
  Context (w : W) (s : nat) (m : Member) (index : nat)
    (Hw : waiters_ok w) (Hm : get_slot w s = Some m) (Hj : job m = None) (Hi : (index < ENTRIES)%nat).

Definition joined_member : Member := {| owner := owner m; job := Some index |}.

Definition pushed : W := push_lane w s index joined_member.

Lemma pushed_get s' : get_slot pushed s' = if decide (s' = s) then Some joined_member else get_slot w s'.
Proof. apply push_get; [apply Hw|by rewrite Hm]. Qed.

Lemma pushed_queue l :
  queue pushed l = if decide (l = index) then queue w index ++ [s] else filter (fun x => x <> s) (queue w l).
Proof.
  apply push_queue; [apply Hw|by rewrite Hm|]. intros Hs.
  apply (idle_lane w s m) in Hs; [|done..]. lia.
Qed.

Lemma pushed_job_queue i : (i < ENTRIES)%nat -> i <> index -> queue pushed i = queue w i.
Proof.
  intros Hi' Hne. rewrite pushed_queue, decide_False by done. apply filter_absent.
  intros Hs. apply (idle_lane w s m) in Hs; [lia|done..].
Qed.

Lemma pushed_waiters_ok : waiters_ok pushed.
Proof.
  destruct (wok_slot _ Hw s m Hm) as [Hs Hk]. split.
  - apply push_wf; [apply Hw|by rewrite Hm].
  - intros s' m'. rewrite pushed_get. destruct (decide (s' = s)) as [->|]; [|apply Hw]. by intros [= <-].
  - intros s' m' l. rewrite pushed_get, pushed_queue. destruct (decide (s' = s)) as [->|Hne].
    + intros [= <-]. cbn [job joined_member]. destruct (decide (l = index)) as [->|Hl]; [done|].
      intros [Hx _]%list_elem_of_filter. done.
    + intros Hm'. destruct (decide (l = index)) as [->|Hl].
      * intros [Hq|Hq]%elem_of_app; [by apply (wok_lane _ Hw s')|]. apply list_elem_of_singleton in Hq. done.
      * intros [_ Hq]%list_elem_of_filter. by apply (wok_lane _ Hw s').
  - intros s' m' i. rewrite pushed_get, pushed_queue. destruct (decide (s' = s)) as [->|Hne].
    + intros [= <-]. cbn [job joined_member]. intros [= <-]. rewrite decide_True by done. split; [done|].
      apply elem_of_app. right. by left.
    + intros Hm' Hj'. destruct (wok_job _ Hw s' m' i Hm' Hj') as [Hi' Hq]. split; [done|].
      destruct (decide (i = index)) as [->|]; [apply elem_of_app; by left|by apply list_elem_of_filter].
Qed.

Lemma pushed_busy j : busy pushed j <-> busy w j \/ j = index.
Proof.
  unfold busy. split.
  - intros [Hj' Hq]. destruct (decide (j = index)) as [->|Hne]; [by right|]. left.
    by rewrite pushed_job_queue in Hq.
  - intros [[Hj' Hq] | ->].
    + split; [done|]. destruct (decide (j = index)) as [->|Hne].
      * rewrite pushed_queue, decide_True by done. by destruct (queue w index).
      * by rewrite pushed_job_queue.
    + split; [done|]. rewrite pushed_queue, decide_True by done. by destruct (queue w index).
Qed.

Lemma pushed_front j o :
  (forall k, j = Some k -> (k < ENTRIES)%nat) ->
  front pushed j = Some o -> front w j = Some o \/ o = owner m \/ (j = None /\ front w None = Some (owner m)).
Proof.
  intros Hjk Hf. pose proof (wok_wf _ pushed_waiters_ok) as Hwf.
  apply front_spec in Hf as (x & m' & Hh & Hm' & <-); [|done]. rewrite pushed_queue in Hh. rewrite pushed_get in Hm'.
  destruct (decide (x = s)) as [->|Hx].
  { injection Hm' as <-. right. by left. }
  destruct (decide (lane j = index)) as [El|El].
  - left. apply front_own with (s := x); [done|done|]. rewrite El. destruct (queue w index); [by injection Hh|done].
  - destruct (queue w (lane j)) as [|y q] eqn:Q; [done|]. destruct (decide (y = s)) as [->|Hy].
    + right. right. assert (s ∈ queue w (lane j)) as Hs by (rewrite Q; by left).
      apply (idle_lane w s m) in Hs as E; [|done..]. assert (j = None) as ->.
      { destruct j as [k|]; [|done]. specialize (Hjk k eq_refl). lane_of E. lia. }
      split; [done|]. apply (front_own w s m None Hw Hm). by rewrite Q.
    + left. rewrite filter_cons_True in Hh by done. injection Hh as ->.
      apply front_own with (s := x); [done|done|]. by rewrite Q.
Qed.

Lemma pushed_others s' :
  s' <> s -> get_slot pushed s' = get_slot w s' /\ forall l, s' ∈ queue w l -> s' ∈ queue pushed l.
Proof.
  intros Hs. split; [by rewrite pushed_get, decide_False|]. intros l Hl. rewrite pushed_queue.
  destruct (decide (l = index)) as [->|]; [apply elem_of_app; by left|by apply list_elem_of_filter].
Qed.

Lemma pushed_self : waits pushed (owner m).
Proof.
  destruct (wok_slot _ Hw s m Hm) as [Hs _]. exists joined_member, index.
  rewrite Hs, pushed_get, pushed_queue, !decide_True by done. split_and!; [done|done|].
  apply elem_of_app. right. by left.
Qed.

Lemma pushed_waits o : waits w o -> waits pushed o.
Proof.
  intros (m' & l & Hm' & <- & Hq). destruct (decide (index_of (owner m') = s)) as [E|Hne].
  - rewrite E in Hm'. assert (m' = m) as -> by congruence. apply pushed_self.
  - destruct (pushed_others _ Hne) as [E Hl]. exists m', l. rewrite E. auto.
Qed.

Lemma load_pushed l : s ∈ queue w l -> (load pushed + 397 <= load w)%nat.
Proof.
  intros Hl. pose proof (idle_lane w s m l Hw Hm Hj Hl) as ->. unfold load. rewrite seq_entries. cbn [sum_list_with].
  assert (S (length (queue pushed ENTRIES)) = length (queue w ENTRIES)) as H6.
  { rewrite pushed_queue, decide_False by lia. apply length_filter_out; [apply lane_nodup, Hw|done]. }
  assert (forall i, (i < ENTRIES)%nat ->
    length (queue pushed i) = (length (queue w i) + (if (i =? index)%nat then 1 else 0))%nat) as Ho.
  { intros i Hi'. destruct (Nat.eqb_spec i index) as [->|Hne]; [|rewrite pushed_job_queue by done; lia].
    rewrite pushed_queue, decide_True by done. rewrite length_app. done. }
  unfold ENTRIES, KDF_LANES, CACHE_ENTRIES in *. rewrite (Ho 0%nat), (Ho 1%nat), (Ho 2%nat), (Ho 3%nat), (Ho 4%nat), (Ho 5%nat) by lia.
  destruct (Nat.eqb_spec 0 index), (Nat.eqb_spec 1 index), (Nat.eqb_spec 2 index), (Nat.eqb_spec 3 index),
    (Nat.eqb_spec 4 index), (Nat.eqb_spec 5 index); lia.
Qed.
End join.

(** Joining the lane of a derivation, with whoever is then next for a lane. *)
Lemma join_ok w c0 c s m index e :
  waiters_ok w -> get_slot w s = Some m -> job m = None ->
  coordinator_ok compress password (fun j => busy w j \/ j = index) c ->
  entries c !! index = Some (Some e) -> key e = key_of (owner m) ->
  (forall s' m' i, get_slot w s' = Some m' -> job m' = Some i ->
     exists e, entries c !! i = Some (Some e) /\ key e = key_of (owner m')) ->
  let '(w1, wakes) := join w s m index in
  runtime_ok {| waiters := w1; coordinator := c |} /\
  get_slot w1 s = Some (joined_member m index) /\ s ∈ queue w1 index /\
  (length wakes <= 1)%nat /\ owner m ∉ wakes /\
  (forall A, awake w A -> awake w1 (A ∖ {[owner m]} ∪ list_to_set wakes ∪ {[owner m]})) /\
  (forall A, admitted {| waiters := w; coordinator := c0 |} A ->
     c = c0 \/ (forall o, front w None = Some o -> o = owner m) ->
     admitted {| waiters := w1; coordinator := c |} (A ∖ {[owner m]} ∪ list_to_set wakes ∪ {[owner m]})) /\
  (forall l, s ∈ queue w l -> load w1 + 397 <= load w)%nat /\
  (forall s', s' <> s -> get_slot w1 s' = get_slot w s' /\ forall l, s' ∈ queue w l -> s' ∈ queue w1 l).
Proof.
  intros Hw Hm Hj Hc He Ek Hk. assert (index < ENTRIES)%nat as Hi
    by (rewrite <- (ok_entries _ _ _ _ Hc); by eapply lookup_lt_Some).
  unfold join. rewrite Hj. change (push_lane w s (lane (Some index)) _) with (pushed w s m index).
  set (w1 := pushed w s m index). pose proof (pushed_waiters_ok w s m index Hw Hm Hj Hi) as Hw1. fold w1 in Hw1.
  set (wakes := if bool_decide _ then option_list (front w1 None) else []).
  assert (forall x, x ∈ wakes -> waits w1 x /\ x <> owner m) as Hwk.
  { intros x Hx. unfold wakes in Hx. case_bool_decide; [|by apply elem_of_nil in Hx].
    destruct (front w1 None) as [y|] eqn:F; [|by apply elem_of_nil in Hx]. apply list_elem_of_singleton in Hx as ->.
    split; [by apply (front_waits _ None)|]. intros ->.
    pose proof (pushed_get w s m index Hw Hm s) as Hms. rewrite decide_True in Hms by done.
    apply (front_own w1 s (joined_member m index) None Hw1 Hms), head_elem in F.
    pose proof (wok_lane _ Hw1 s _ _ Hms F) as E. cbn [job joined_member] in E. lane_of E. lia. }
  split_and!.
  - split; cbn [waiters coordinator]; [done| |].
    + eapply coordinator_ok_iff; [|exact Hc]. intros j. by apply pushed_busy.
    + intros s' m' i. unfold w1. rewrite pushed_get by done. destruct (decide (s' = s)) as [->|]; [|apply Hk].
      intros [= <-]. cbn [job owner joined_member]. intros [= <-]. by exists e.
  - unfold w1. by rewrite pushed_get, decide_True.
  - unfold w1. rewrite pushed_queue, decide_True by done. apply elem_of_app. right. by left.
  - unfold wakes. case_bool_decide; [|cbn; lia]. destruct (front w1 None); cbn; lia.
  - intros Hx. by apply Hwk in Hx as [_ ?].
  - intros A [H1 H2]. split.
    + intros i o Hi' Hf. destruct (pushed_front w s m index Hw Hm Hj Hi (Some i) o) as [F|[->|[? _]]];
        [by intros k [= <-]|done| |set_solver|done].
      specialize (H1 i o Hi' F). destruct (decide (o = owner m)); set_solver.
    + intros o [[[Ho _]%elem_of_difference|Ho%elem_of_list_to_set]%elem_of_union|Ho]%elem_of_union.
      * apply pushed_waits; [done..|]. by apply H2.
      * by apply Hwk.
      * apply elem_of_singleton in Ho as ->. by apply pushed_self.
  - intros A HA Hcc o Hf. cbn [waiters coordinator] in *.
    destruct (pushed_front w s m index Hw Hm Hj Hi None o) as [F|[->|[_ F]]]; [done|done| |left; set_solver|].
    + destruct (decide (o = owner m)) as [->|Hne]; [left; set_solver|].
      destruct Hcc as [-> | Hcc]; [|by apply Hcc in F].
      destruct (HA o F); [left; set_solver|by right].
    + left. apply elem_of_union_l, elem_of_union_r, elem_of_list_to_set. unfold wakes.
      rewrite F, bool_decide_eq_true_2 by done. fold w1 in Hf. rewrite Hf. by left.
  - intros l Hl. by apply (load_pushed w s m index Hw Hm Hj Hi l).
  - intros s' Hs. by apply pushed_others.
Qed.

(** Waiting for a lane: a connection that is not next stays behind, and one that is
    next finds no place. *)
Lemma wait_ok r s m :
  runtime_ok r -> get_slot (waiters r) s = Some m -> job m = None ->
  (front (waiters r) None = None \/ front (waiters r) None = Some (owner m) -> full (coordinator r)) ->
  poll_spec r s (owner m)
    {| waiters := set_lane (waiters r) s (lane None); coordinator := coordinator r |} [] None.
Proof.
  intros [Hw Hc Hk] Hm Hj Hfull. pose proof (wok_wf _ Hw) as Hwf. destruct (wok_slot _ Hw s m Hm) as [Hs _].
  set (w := waiters r) in *. set (w1 := set_lane w s (lane None)).
  assert (forall s', get_slot w1 s' = get_slot w s') as Hg by (intros; by apply set_get).
  assert (forall l, queue w1 l = if decide (l = ENTRIES) then
    (if decide (s ∈ queue w ENTRIES) then queue w ENTRIES else queue w ENTRIES ++ [s]) else queue w l) as Hq.
  { intros l. apply set_queue; [done|by rewrite Hm|]. intros l2. by apply (idle_lane w s m). }
  assert (forall l x, x ∈ queue w l -> x ∈ queue w1 l) as Hmono.
  { intros l x Hx. rewrite Hq. destruct (decide (l = ENTRIES)) as [->|]; [|done].
    destruct (decide _); [done|]. apply elem_of_app. by left. }
  assert (forall l x, x ∈ queue w1 l -> x ∈ queue w l \/ (x = s /\ l = ENTRIES)) as Hback.
  { intros l x. rewrite Hq. destruct (decide (l = ENTRIES)) as [->|]; [|by left].
    destruct (decide _); [by left|]. intros [?|Hx]%elem_of_app; [by left|]. apply list_elem_of_singleton in Hx. by right. }
  assert (s ∈ queue w1 ENTRIES) as Hin.
  { rewrite Hq, decide_True by done. destruct (decide _); [done|]. apply elem_of_app. right. by left. }
  assert (waiters_ok w1) as Hw1.
  { split.
    - apply set_wf; [done|]. by rewrite Hm.
    - intros s' m'. rewrite Hg. apply Hw.
    - intros s' m' l. rewrite Hg. intros Hm' [Hl|[-> ->]]%Hback; [by apply (wok_lane _ Hw s')|].
      assert (m' = m) as -> by congruence. by rewrite Hj.
    - intros s' m' i. rewrite Hg. intros Hm' Hj'. destruct (wok_job _ Hw s' m' i Hm' Hj'). auto. }
  assert (forall i, (i < ENTRIES)%nat -> queue w1 i = queue w i) as Hjobs
    by (intros i Hi; rewrite Hq, decide_False by lia; done).
  assert (forall j o, front w1 j = Some o -> front w j = Some o \/ (o = owner m /\ lane j = ENTRIES /\ queue w ENTRIES = [])) as Hf.
  { intros j o Hf. apply front_spec in Hf as (x & m' & Hh & Hm' & <-); [|apply Hw1]. rewrite Hg in Hm'.
    rewrite Hq in Hh. destruct (decide (lane j = ENTRIES)) as [El|]; [destruct (decide _)|].
    - left. apply front_own with (s := x); [done|done|]. by rewrite El.
    - destruct (queue w ENTRIES) as [|y q] eqn:Q.
      + injection Hh as <-. right. split_and!; [congruence|done|done].
      + left. apply front_own with (s := x); [done|done|]. by rewrite El, Q.
    - left. by apply front_own with (s := x). }
  assert (waits w1 (owner m)) as Hself by (exists m, ENTRIES; rewrite Hs, Hg; done).
  split; cbn [waiters coordinator]; fold w1.
  - split; cbn [waiters coordinator]; [done| |].
    + eapply coordinator_ok_iff; [|exact Hc]. intros i. unfold busy. split; intros [Hi Hne]; (split; [done|]).
      * by rewrite Hjobs in Hne.
      * by rewrite Hjobs.
    + intros s' m' i. rewrite Hg. apply Hk.
  - intros A [H1 H2]. split.
    + intros i o Hi [F|(_ & E & _)]%Hf; [|lane_of E; lia]. pose proof (H1 i o Hi F).
      assert (o <> owner m); [|set_solver]. intros ->. apply (front_own _ s m _ Hw Hm), head_elem in F.
      apply (idle_lane w s m) in F; [|done..]. lane_of F. lia.
    + intros o Ho. assert (o ∈ A) as Ho' by set_solver. destruct (H2 o Ho') as (m' & l & Hm' & E & Hl).
      exists m', l. rewrite Hg. auto.
  - intros A HA o [F|(-> & _ & E)]%Hf.
    + destruct (decide (o = owner m)) as [->|Hne]; [right; apply Hfull; by right|].
      destruct (HA o F); [left; set_solver|by right].
    + right. apply Hfull. left. by apply front_None.
  - intros l Hl. pose proof (idle_lane w s m l Hw Hm Hj Hl) as ->. unfold load. rewrite seq_entries. cbn [sum_list_with].
    rewrite (Hq ENTRIES), decide_True, decide_True by done. rewrite !Hjobs by (unfold ENTRIES, KDF_LANES, CACHE_ENTRIES; lia). fold w. cbn [length]. lia.
  - intros s' _. split; [apply Hg|]. intros l. apply Hmono.
  - done.
Qed.

(** A connection that joins a derivation and may be the one that advances it. *)
Lemma poll_joins r c s m i d :
  runtime_ok r -> get_slot (waiters r) s = Some m -> job m = None ->
  coordinator_ok compress password (fun j => busy (waiters r) j \/ j = i) c ->
  entries c !! i = Some (Some {| key := key_of (owner m); state := KdfState.Computing d |}) ->
  (polls c <= polls (coordinator r) + 390)%nat ->
  c = coordinator r \/ (forall o, front (waiters r) None = Some o -> o = owner m) ->
  (forall j e, busy (waiters r) j -> entries (coordinator r) !! j = Some e -> entries c !! j = Some e) ->
  exists r' wakes keys, poll_job compress (waiters r) c s m i = Some (r', wakes, keys) /\
    poll_spec r s (owner m) r' wakes keys.
Proof.
  intros [Hw Hc Hk] Hm J G1 He G2 G3 G4. destruct r as [w c0]. cbn [waiters coordinator] in *.
  unfold poll_job. rewrite He. cbn [mjoin option_join mbind option_bind state key].
  pose proof (join_ok w c0 c s m i _ Hw Hm J G1 He eq_refl) as Hjoin.
  destruct (join w s m i) as [w1 wakes1]. destruct Hjoin as (P1 & P2 & P3 & P4 & P5 & P6 & P7 & P8 & P9).
  { intros s' m' j Hm' Hj'. destruct (Hk s' m' j Hm' Hj') as (e & Hje & Ek). exists e. split; [|done].
    apply G4; [|done]. destruct (wok_job _ Hw s' m' j Hm' Hj') as [? Hq]. split; [done|].
    intros E. rewrite E in Hq. by apply elem_of_nil in Hq. }
  destruct (poll_front_ok _ s _ i d P1 P2 eq_refl He) as (r' & more & keys & Hp & Hspec).
  cbn [waiters coordinator owner joined_member] in Hp, Hspec. rewrite Hp. cbn [mbind option_bind].
  eexists _, _, _. split; [done|]. destruct Hspec. cbn [waiters coordinator] in *. split; try done.
  - intros A HA. apply P6, ps_awake0 in HA. eapply awake_set; [|exact HA]. rewrite list_to_set_app.
    apply set_equiv. intros x. rewrite !elem_of_union, !elem_of_difference, !elem_of_union, !elem_of_difference,
      elem_of_singleton, !elem_of_list_to_set. split; [|naive_solver].
    assert (x ∈ wakes1 -> x <> owner m) by (by intros ? ->). tauto.
  - intros A HA. apply P7, ps_admitted0 in HA; [|done]. eapply admitted_more; [|exact HA].
    rewrite list_to_set_app. set_solver.
  - intros l Hl. specialize (ps_load0 i P3). specialize (P8 l Hl). rewrite length_app. cbn [waiters coordinator]. lia.
  - intros s' Hs'. cbn [waiters]. destruct (P9 s' Hs') as [<- Hq1]. destruct (ps_others0 s' Hs') as [-> Hq2].
    split; [done|]. intros l Hl. by apply Hq2, Hq1.
Qed.

(** A connection that has no job yet polls the entry it selects. *)
Lemma poll_selects r s m :
  runtime_ok r -> get_slot (waiters r) s = Some m -> job m = None ->
  exists r' wakes keys, poll compress r s (key_of (owner m)) password = Some (r', wakes, keys) /\
    poll_spec r s (owner m) r' wakes keys.
Proof.
  intros Hr Hm J. pose proof Hr as [Hw Hc Hk]. unfold poll. rewrite Hm, J.
  destruct (wok_slot _ Hw s m Hm) as [_ Hkey].
  set (admission := match front (waiters r) None with None => Some password | Some f => if f =? owner m then Some password else None end).
  assert (forall p, admission = Some p -> p = password /\
    (forall o, front (waiters r) None = Some o -> o = owner m)) as Hadm.
  { unfold admission. intros p. destruct (front (waiters r) None) as [f|]; [|by intros [= <-]].
    destruct (Z.eqb_spec f (owner m)) as [E|]; [|done]. intros [= <-]. split; [done|]. intros o Ho. congruence. }
  pose proof (select_ok compress password _ _ _ admission Hc Hkey (fun p Hp => proj1 (Hadm p Hp))) as Hsel.
  destruct (select compress (coordinator r) (key_of (owner m)) admission) as [[i c]|]; cycle 1.
  { eexists _, _, _. split; [done|]. apply wait_ok; [done..|]. intros Hf. destruct Hsel as [Hn|]; [|done].
    exfalso. revert Hn. unfold admission. destruct Hf as [-> | ->]; [done|]. by rewrite Z.eqb_refl. }
  destruct Hsel as [[-> ([k [d|keys]] & He & Ek)]|(Ea & Hb & Hi & He & Ho & G1 & G2)].
  - cbn [key] in Ek. subst k. apply (poll_joins r (coordinator r) s m i d); try (done || lia || by left).
    eapply coordinator_ok_iff; [|exact Hc]. intros j. split; [|tauto].
    intros [?| ->]; [done|]. destruct (ok_kept _ _ _ _ Hc i _ He) as [[b Hb]%list_elem_of_lookup|]; [|done].
    destruct (ok_ready _ _ _ _ Hc b i Hb) as (_ & k & ks & Hr'). congruence.
  - cbn [key] in Ek. subst k. unfold poll_job. rewrite He. cbn [mjoin option_join mbind option_bind state].
    destruct r as [w c]. destruct (poll_ready_waiting _ s m i keys Hr Hm (or_intror J) He) as (r' & wakes & Hp & Hspec).
    cbn [waiters coordinator] in *. rewrite Hp. by eexists _, _, _.
  - apply (poll_joins r c s m i (kdf_new compress password (first (key_of (owner m))) (key_iterations (key_of (owner m)))));
      try done; [right; by apply (Hadm _ Ea)|].
    intros j e Hbj Hje. rewrite Ho; [done|]. by intros ->.
Qed.

(** Every poll finds its entry, and does what [poll_spec] says. *)
Lemma poll_ok r s m :
  runtime_ok r -> get_slot (waiters r) s = Some m ->
  exists r' wakes keys, poll compress r s (key_of (owner m)) password = Some (r', wakes, keys) /\
    poll_spec r s (owner m) r' wakes keys.
Proof.
  intros Hr Hm. destruct (job m) as [i|] eqn:J; [|by apply poll_selects]. pose proof Hr as [Hw Hc Hk].
  unfold poll. rewrite Hm, J. destruct (Hk s m i Hm J) as ([k st] & He & Ek). cbn [key] in Ek. subst k.
  unfold poll_job. rewrite He. cbn [mjoin option_join mbind option_bind state key]. destruct st as [d|keys].
  - unfold join. rewrite J. destruct (poll_front_ok r s m i d Hr Hm J He) as (r' & wakes & keys & -> & Hspec).
    cbn [mbind option_bind app]. by eexists _, _, _.
  - destruct r as [w c]. destruct (poll_ready_waiting _ s m i keys Hr Hm (or_introl J) He) as (r' & wakes & Hp & Hspec).
    cbn [waiters coordinator] in *. rewrite Hp. by eexists _, _, _.
Qed.

(** ** The connections of a runtime *)

(** The runtime and the connections that were woken and not polled since. *)
Record System := { runtime : Runtime; woken : gset Z }.

Inductive event :=
| Enters (o : Z)
| Polled (o : Z) (keys : option Keys)
| Cancelled (o : Z).

(** A connection enters when its slot is vacant, and polls or cancels while it is
    there; a poll spends its wake. *)
Inductive step (s : System) : event -> System -> Prop :=
| step_enters o r :
    get_slot (waiters (runtime s)) (index_of o) = None -> key_ok (key_of o) ->
    try_entry index_of (runtime s) o = Ok r ->
    step s (Enters o) {| runtime := r; woken := woken s |}
| step_polled slot m r wakes keys :
    get_slot (waiters (runtime s)) slot = Some m ->
    poll compress (runtime s) slot (key_of (owner m)) password = Some (r, wakes, keys) ->
    step s (Polled (owner m) keys) {| runtime := r; woken := woken s ∖ {[owner m]} ∪ list_to_set wakes |}
| step_cancelled slot m :
    get_slot (waiters (runtime s)) slot = Some m ->
    step s (Cancelled (owner m))
      {| runtime := (cancel (runtime s) slot).1;
         woken := woken s ∖ {[owner m]} ∪ list_to_set (option_list (cancel (runtime s) slot).2) |}.

Inductive reaches (s : System) : System -> Prop :=
| reaches_refl : reaches s s
| reaches_step s' e s'' : reaches s s' -> step s' e s'' -> reaches s s''.

Record system_ok (s : System) : Prop := {
  sok_runtime : runtime_ok (runtime s);
  sok_awake : awake (waiters (runtime s)) (woken s);
  sok_admitted : admitted (runtime s) (woken s) }.

Definition system_new (cap : nat) : System := {| runtime := runtime_new cap; woken := ∅ |}.

Lemma system_new_ok cap : system_ok (system_new cap).
Proof.
  assert (forall j, front (W := W) (fixed cap) j = None) as Hf
    by (intros j; apply front_None; [apply fixed_wf|apply fixed_queue]).
  split; cbn [runtime woken system_new runtime_new waiters coordinator].
  - split; cbn [runtime_new waiters coordinator].
    + split; [apply fixed_wf|..]; intros *; by rewrite fixed_get.
    + apply coordinator_default_ok. intros i [_ Hi]. by rewrite fixed_queue in Hi.
    + intros *. by rewrite fixed_get.
  - split; [|set_solver]. intros i o _. by rewrite Hf.
  - intros o. cbn [runtime_new waiters]. by rewrite Hf.
Qed.

Lemma enters_ok r r' o A :
  runtime_ok r -> awake (waiters r) A -> admitted r A ->
  get_slot (waiters r) (index_of o) = None -> key_ok (key_of o) -> try_entry index_of r o = Ok r' ->
  runtime_ok r' /\ awake (waiters r') A /\ admitted r' A.
Proof.
  intros [Hw Hc Hk] [H1 H2] HA Hn Hok. unfold try_entry. destruct (_ <=? _)%nat; [done|]. intros E. apply Ok_inj in E as <-.
  pose proof (wok_wf _ Hw) as Hwf. set (w1 := write_slot (waiters r) (index_of o) _).
  assert (forall s, get_slot w1 s = if decide (s = index_of o) then Some {| owner := o; job := None |} else get_slot (waiters r) s)
    as Hg by (intros; by apply write_get).
  assert (forall l, queue w1 l = queue (waiters r) l) as Hq by (intros; by apply write_queue).
  assert (forall l s, s ∈ queue (waiters r) l -> s <> index_of o) as Hne.
  { intros l s Hs ->. destruct (lane_held _ l _ Hwf Hs). congruence. }
  assert (waiters_ok w1) as Hw1.
  { split.
    - by apply write_wf.
    - intros s m. rewrite Hg. destruct (decide _) as [->|]; [|apply Hw]. by intros [= <-].
    - intros s m l. rewrite Hg, Hq. intros Hm Hs. rewrite decide_False in Hm by by apply (Hne l). by apply (wok_lane _ Hw s).
    - intros s m i. rewrite Hg, Hq. destruct (decide _) as [->|]; [|apply Hw]. by intros [= <-]. }
  assert (forall j, front w1 j = front (waiters r) j) as Hf.
  { intros j. unfold front. rewrite !front_head by (done || apply Hw1). rewrite Hq.
    destruct (queue (waiters r) (lane j)) as [|s q] eqn:Q; [done|]. cbn [head mbind option_bind].
    rewrite Hg, decide_False; [done|]. apply (Hne (lane j)). rewrite Q. by left. }
  split_and!.
  - split; cbn [waiters coordinator]; [done| |].
    + eapply coordinator_ok_iff; [|exact Hc]. intros i. unfold busy. by rewrite Hq.
    + intros s m i. rewrite Hg. destruct (decide _) as [->|]; [by intros [= <-]|apply Hk].
  - split; cbn [waiters].
    + intros i x Hi. rewrite Hf. by apply H1.
    + intros x Hx. destruct (H2 x Hx) as (m & l & Hm & E & Hl). exists m, l. rewrite Hq, Hg, decide_False; [done|].
      by apply (Hne l).
  - intros x. cbn [waiters coordinator]. rewrite Hf. apply HA.
Qed.

Lemma system_step_ok s e s' : system_ok s -> step s e s' -> system_ok s'.
Proof.
  intros [Hr Ha Hd] Hst. inversion Hst as [o r Hn Hk Ht|slot m r wakes keys Hm Hp|slot m Hm]; subst; clear Hst.
  - by destruct (enters_ok _ _ _ _ Hr Ha Hd Hn Hk Ht) as (? & ? & ?).
  - destruct (poll_ok _ _ _ Hr Hm) as (r' & wakes' & keys' & Hp' & []). rewrite Hp in Hp'. injection Hp' as <- <- <-.
    split; cbn [runtime woken]; auto.
  - pose proof (release_ok _ _ _ Hr Hm) as Hrel. unfold cancel. destruct (release _ slot) as [[r' next] remaining].
    destruct Hrel as (G1 & _ & G3 & G4 & _). split; cbn [runtime woken fst snd]; auto.
Qed.

Lemma reaches_ok s s' : system_ok s -> reaches s s' -> system_ok s'.
Proof. intros Hs. induction 1; [done|]. by eapply system_step_ok. Qed.

(** C13. The shared derivations are safe: however connections enter, poll and cancel,
    at most four derivations are under way, a poll always finds the entry of its
    job, and the keys it hands out are those of the connection's own password, salt
    and iterations, whoever computed them. *)
Theorem polls_safe cap s :
  reaches (system_new cap) s ->
  (computing (entries (coordinator (runtime s))) <= KDF_LANES)%nat /\
  forall slot m, get_slot (waiters (runtime s)) slot = Some m ->
    exists r wakes keys,
      poll compress (runtime s) slot (key_of (owner m)) password = Some (r, wakes, keys) /\
      forall k, keys = Some k -> k = derived_keys compress password (key_of (owner m)).
Proof.
  intros Hs. apply reaches_ok in Hs; [|apply system_new_ok]. split; [apply (ok_computing _ _ _ _ (rok_coordinator _ (sok_runtime _ Hs)))|].
  intros slot m Hm. destruct (poll_ok _ _ _ (sok_runtime _ Hs) Hm) as (r & wakes & keys & Hp & Hspec).
  exists r, wakes, keys. split; [done|]. intros k ->. apply Hspec.
Qed.

(** ** Progress *)

(** Polling connections that were woken, with the keys they took. *)
Inductive serves : System -> list (Z * Keys) -> nat -> System -> Prop :=
| serves_nil s : serves s [] 0 s
| serves_poll s o keys s' out n s'' :
    o ∈ woken s -> step s (Polled o keys) s' -> serves s' out n s'' ->
    serves s (match keys with Some keys => (o, keys) :: out | None => out end) (S n) s''.

(** What is left to do. *)
Definition work (s : System) : nat :=
  load (waiters (runtime s)) + polls (coordinator (runtime s)) + size (woken s).

Lemma size_list_to_set_le (l : list Z) : (size (list_to_set l :> gset Z) <= length l)%nat.
Proof.
  induction l as [|x l IH]; [done|]. rewrite list_to_set_cons, size_union_alt, size_singleton. cbn [length].
  pose proof (subseteq_size (list_to_set l ∖ {[x]}) (list_to_set l :> gset Z) ltac:(set_solver)). lia.
Qed.

Lemma size_wakes (A : gset Z) o l : o ∈ A -> (size (A ∖ {[o]} ∪ list_to_set l) < size A + length l)%nat.
Proof.
  intros Ho. pose proof (size_union_alt (A ∖ {[o]}) (list_to_set l)) as E.
  pose proof (subseteq_size (list_to_set l ∖ (A ∖ {[o]})) (list_to_set l :> gset Z) ltac:(set_solver)).
  pose proof (size_list_to_set_le l).
  pose proof (size_difference_alt A {[o]}) as D.
  assert (size (A ∩ {[o]}) = 1%nat) as S1.
  { assert (A ∩ {[o]} = {[o]}) as -> by set_solver. apply size_singleton. }
  assert (size A <> 0%nat) by (intros Z0; apply size_empty_inv in Z0; set_solver). lia.
Qed.

Lemma computing_busy r :
  runtime_ok r -> computing (entries (coordinator r)) <> 0%nat -> exists i, busy (waiters r) i.
Proof.
  intros [Hw Hc _] Hn.
  assert (exists i e, entries (coordinator r) !! i = Some (Some e) /\ is_computing e = true) as (i & e & He & Hce).
  { unfold computing in Hn. induction (entries (coordinator r)) as [|x es IH]; [done|].
    destruct x as [e|]; [destruct (is_computing e) eqn:C|].
    - by exists 0%nat, e.
    - cbn in Hn. rewrite C in Hn. destruct (IH Hn) as (i & e' & ? & ?). by exists (S i), e'.
    - destruct (IH Hn) as (i & e' & ? & ?). by exists (S i), e'. }
  exists i. destruct (ok_kept _ _ _ _ Hc i e He) as [[b Hb]%list_elem_of_lookup|]; [|done].
  destruct (ok_ready _ _ _ _ Hc b i Hb) as (_ & k & ks & Hr'). rewrite He in Hr'. injection Hr' as ->. done.
Qed.

(** Nobody waits when nobody is woken. *)
Lemma asleep_idle s o : system_ok s -> woken s = ∅ -> ~ waits (waiters (runtime s)) o.
Proof.
  intros [Hr [H1 H2] Hd] Hz (m & l & Hm & <- & Hl). pose proof Hr as [Hw Hc Hk].
  assert (forall i, ~ busy (waiters (runtime s)) i) as Hnb.
  { intros i [Hi Hq]. destruct (front (waiters (runtime s)) (Some i)) as [x|] eqn:F.
    - specialize (H1 i x Hi F). set_solver.
    - apply front_None in F; [done|apply Hw]. }
  pose proof (wok_lane _ Hw _ _ _ Hm Hl) as El. destruct (job m) as [i|] eqn:J; lane_of El; subst l.
  - destruct (wok_job _ Hw _ _ _ Hm J) as [Hi _]. apply (Hnb i). split; [done|]. intros E. rewrite E in Hl.
    by apply elem_of_nil in Hl.
  - destruct (front (waiters (runtime s)) None) as [x|] eqn:F; cycle 1.
    { apply front_None in F; [|apply Hw]. lane_of F. rewrite F in Hl. by apply elem_of_nil in Hl. }
    destruct (Hd x F) as [Hx|[Hx|[Hx Hnc]]]; [set_solver| |].
    + destruct (computing_busy _ Hr) as [i Hi]; [by rewrite Hx|]. by apply (Hnb i).
    + destruct (Hx 0%nat) as [e He]; [unfold ENTRIES, KDF_LANES, CACHE_ENTRIES; lia|].
      destruct (ok_kept _ _ _ _ Hc 0%nat e He) as [Hc0|Hb]; [by apply Hnc in Hc0|by apply (Hnb 0%nat)].
Qed.

Lemma serves_ok s out n s' : system_ok s -> serves s out n s' ->
  system_ok s' /\ (n + work s' <= work s)%nat /\
  forall o, waits (waiters (runtime s)) o ->
    waits (waiters (runtime s')) o \/ (o, derived_keys compress password (key_of o)) ∈ out.
Proof.
  intros Hs Hv. induction Hv as [s|s o keys s' out n s'' Ho Hst Hv IH]; [split_and!; [done|lia|by left]|].
  pose proof (system_step_ok _ _ _ Hs Hst) as Hs'. destruct (IH Hs') as (I1 & I2 & I3). clear IH.
  inversion Hst as [|slot m r wakes keys' Hm Hp| ]; subst; clear Hst.
  destruct Hs as [Hr Ha Hd]. destruct (poll_ok _ _ _ Hr Hm) as (r' & wakes' & keys' & Hp' & Hspec).
  rewrite Hp in Hp'. injection Hp' as <- <- <-. destruct (wok_slot _ (rok_waiters _ Hr) _ _ Hm) as [Hslot _].
  split; [done|]. split.
  - destruct (awake_waits _ _ Ha _ Ho) as (m' & l & Hm' & _ & Hl). rewrite Hslot in Hl.
    pose proof (ps_load _ _ _ _ _ _ Hspec l Hl). pose proof (size_wakes (woken s) _ wakes Ho).
    unfold work in *. cbn [runtime woken] in *. lia.
  - intros o (m' & l & Hm' & <- & Hl). cbn [runtime] in *.
    assert (waits (waiters r) (owner m') \/ (owner m' = owner m /\ keys <> None)) as [Hw|[Eo Hk]].
    { destruct (decide (index_of (owner m') = slot)) as [E|Hne].
      - rewrite E in Hm'. assert (m' = m) as -> by congruence. destruct keys; [by right|left]. apply (ps_self _ _ _ _ _ _ Hspec).
      - left. destruct (ps_others _ _ _ _ _ _ Hspec _ Hne) as [Eg Hq]. exists m', l. rewrite Eg. auto. }
    + destruct (I3 _ Hw) as [|Hin]; [by left|right]. destruct keys; [by right|done].
    + right. destruct keys as [ks|]; [|done]. destruct (ps_self _ _ _ _ _ _ Hspec) as [-> _]. rewrite Eo. by left.
Qed.

(** C12. No connection is forgotten: from any state that is reached, polling only the
    connections that are woken can go on while one is woken, takes a number of polls
    bounded by the work left, and once nobody is woken every connection that waited
    has been handed the keys of its own derivation. *)
Theorem waiters_served cap s out n s' :
  reaches (system_new cap) s -> serves s out n s' ->
  (n <= work s)%nat /\
  (woken s' <> ∅ -> exists o keys s'', o ∈ woken s' /\ step s' (Polled o keys) s'') /\
  (woken s' = ∅ -> forall o, waits (waiters (runtime s)) o ->
     (o, derived_keys compress password (key_of o)) ∈ out).
Proof.
  intros Hs Hv. apply reaches_ok in Hs; [|apply system_new_ok].
  destruct (serves_ok _ _ _ _ Hs Hv) as (H1 & H2 & H3). split; [lia|]. split.
  - intros [o Ho]%set_choose_L. destruct (awake_waits _ _ (sok_awake _ H1) o Ho) as (m & l & Hm & <- & _).
    destruct (poll_ok _ _ _ (sok_runtime _ H1) Hm) as (r & wakes & keys & Hp & _).
    eexists _, _, _. split; [exact Ho|]. by eapply step_polled.
  - intros Hz o Ho. destruct (H3 o Ho) as [Hw|]; [|done]. by apply asleep_idle in Hw.
Qed.

(** Such polls do come to an end. *)
Lemma serves_finish s : system_ok s -> exists out n s', serves s out n s' /\ woken s' = ∅.
Proof.
  intros Hs. remember (work s) as k eqn:Hk. revert s Hs Hk. induction k as [k IH] using lt_wf_ind. intros s Hs ->.
  destruct (decide (woken s = ∅)) as [Hz|[o Ho]%set_choose_L].
  { exists [], 0%nat, s. split; [constructor|done]. }
  destruct (awake_waits _ _ (sok_awake _ Hs) o Ho) as (m & l & Hm & <- & _).
  destruct (poll_ok _ _ _ (sok_runtime _ Hs) Hm) as (r & wakes & keys & Hp & _).
  pose proof (step_polled _ _ _ _ _ _ Hm Hp) as Hst.
  pose proof (serves_poll _ _ _ _ _ _ _ Ho Hst (serves_nil _)) as Hv.
  destruct (serves_ok _ _ _ _ Hs Hv) as (H1 & H2 & _).
  edestruct (fun Hlt => IH _ Hlt _ H1 eq_refl) as (out & n & s' & Hv' & Hz); [lia|].
  eexists _, _, s'. split; [by eapply serves_poll|done].
Qed.
End run.

(** ** Slots and lanes

    The queue library's slots as what [WaitersLaws] states of them, to run the
    model. *)

Module Slots.
Record Slots := { room : nat; held : nat -> option Member; lanes : nat -> list nat }.

Definition update {A} (f : nat -> A) (s : nat) (x : A) (s' : nat) : A := if decide (s' = s) then x else f s'.

Definition without (s : nat) (f : nat -> list nat) (l : nat) : list nat := filter (fun x => x <> s) (f l).

#[global] Instance slots : Waiters Slots := {|
  fixed n := {| room := n; held := fun _ => None; lanes := fun _ => [] |};
  capacity := room;
  get_slot w s := held w s;
  write_slot w s m := {| room := room w; held := update (held w) s (Some m); lanes := lanes w |};
  set_lane w s l :=
    {| room := room w; held := held w;
       lanes := update (without s (lanes w)) l (if decide (s ∈ lanes w l) then lanes w l else lanes w l ++ [s]) |};
  push_lane w s l m :=
    {| room := room w; held := update (held w) s (Some m);
       lanes := update (without s (lanes w)) l (without s (lanes w) l ++ [s]) |};
  take_slot w s := {| room := room w; held := update (held w) s None; lanes := without s (lanes w) |};
  lane_front w l := s ← head (lanes w l); m ← held w s; Some (s, m);
  queue w l := lanes w l;
  waiters_wf w :=
    (forall l, NoDup (lanes w l)) /\ (forall l s, s ∈ lanes w l -> is_Some (held w s)) /\
    (forall l l' s, s ∈ lanes w l -> s ∈ lanes w l' -> l = l') |}.

Lemma without_elem s f l x : x ∈ without s f l <-> x <> s /\ x ∈ f l.
Proof. unfold without. by rewrite list_elem_of_filter. Qed.

Lemma lane_snoc (s : nat) q : NoDup q -> s ∉ q -> NoDup (q ++ [s]).
Proof.
  intros Hq Hs. apply NoDup_app. split_and!; [done| |apply NoDup_singleton].
  intros x Hx Hx'. apply list_elem_of_singleton in Hx'. by subst.
Qed.

#[global] Instance laws : WaitersLaws Slots.
Proof.
  split; cbn [fixed capacity get_slot write_slot set_lane push_lane take_slot lane_front queue waiters_wf slots
    room held lanes]; try done; unfold update.
  - intros n. split_and!; [intros l; by apply NoDup_nil|intros l s Hx|intros l l' s Hx]; by apply elem_of_nil in Hx.
  - intros w l [H _]. apply H.
  - intros w l s (_ & H & _). apply H.
  - intros w l l' s (_ & _ & H). apply H.
  - intros w s m (H1 & H2 & H3) Hn. split_and!; [done| |done]. intros l x Hx. destruct (decide _); [done|]. by apply (H2 l).
  - intros w s l (H1 & H2 & H3) Hs.
    assert (forall l' x, x ∈ (if decide (l' = l) then if decide (s ∈ lanes w l) then lanes w l else lanes w l ++ [s]
      else without s (lanes w) l') -> (x = s /\ l' = l) \/ x <> s /\ x ∈ lanes w l') as Hin.
    { intros l' x. destruct (decide (l' = l)) as [->|].
      - destruct (decide (x = s)) as [->|]; [by left|]. destruct (decide _); [by right|].
        intros [?|Hx]%elem_of_app; [by right|]. by apply list_elem_of_singleton in Hx.
      - rewrite without_elem. by right. }
    split_and!.
    + intros l'. destruct (decide (l' = l)) as [->|]; [|by apply NoDup_filter].
      destruct (decide _); [done|]. by apply lane_snoc.
    + intros l' x [[-> _]|[_ Hx]]%Hin; [done|]. by apply (H2 l').
    + intros l1 l2 x [[-> ->]|[Hne Hx]]%Hin [[? ->]|[? Hx']]%Hin; try done. by apply (H3 l1 l2 x).
  - intros w s l l' (H1 & H2 & H3) Hs Ho. destruct (decide (l' = l)); [done|]. apply filter_absent.
    intros Hx. apply Ho in Hx. done.
  - intros w s l m (H1 & H2 & H3) Hs.
    assert (forall l' x, x ∈ (if decide (l' = l) then without s (lanes w) l ++ [s] else without s (lanes w) l') ->
      (x = s /\ l' = l) \/ x <> s /\ x ∈ lanes w l') as Hin.
    { intros l' x. destruct (decide (l' = l)) as [->|].
      - intros [Hx%without_elem|Hx]%elem_of_app; [by right|]. apply list_elem_of_singleton in Hx. by left.
      - rewrite without_elem. by right. }
    split_and!.
    + intros l'. destruct (decide (l' = l)) as [->|]; [|by apply NoDup_filter].
      apply lane_snoc; [by apply NoDup_filter|]. by intros [? _]%without_elem.
    + intros l' x [[-> _]|[Hne Hx]]%Hin; [by destruct (decide _)|]. destruct (decide _); [done|]. by apply (H2 l').
    + intros l1 l2 x [[-> ->]|[Hne Hx]]%Hin [[? ->]|[? Hx']]%Hin; try done. by apply (H3 l1 l2 x).
  - intros w s l m l' (H1 & H2 & H3) Hs Hn. destruct (decide (l' = l)); [|done].
    unfold without. by rewrite filter_absent.
  - intros w s (H1 & H2 & H3). split_and!.
    + intros l. by apply NoDup_filter.
    + intros l x [Hne Hx]%without_elem. rewrite decide_False by done. by apply (H2 l).
    + intros l l' x [_ Hx]%without_elem [_ Hx']%without_elem. by apply (H3 l l' x).
Qed.
End Slots.

(** Two connections of one password, salt and iteration count. *)
Definition sample_key (o : Z) : KdfKey := {| first := replicate 32 7; key_iterations := 4096 |}.

Lemma sample_key_ok o : key_ok (sample_key o).
Proof. split_and!; [done| |cbn; lia|cbn; unfold MAX_ITERATIONS; lia]. apply Forall_replicate. unfold is_byte. lia. Qed.

Definition sample_entered : Runtime (W := Slots.Slots) :=
  {| waiters := write_slot (fixed 4) 1 {| owner := 1; job := None |}; coordinator := coordinator_default |}.

Definition sample_system : System (W := Slots.Slots) := {| runtime := sample_entered; woken := ∅ |}.

Lemma sample_reached :
  reaches Fips.compress (bytes_of "pencil") Z.to_nat sample_key (system_new 4) sample_system.
Proof.
  eapply reaches_step; [apply reaches_refl|].
  apply (step_enters _ _ _ _ (system_new 4) 1); [done|apply sample_key_ok|done].
Qed.

Lemma polls_safe_witness :
  exists r wakes keys,
    poll Fips.compress sample_entered 1 (sample_key 1) (bytes_of "pencil") = Some (r, wakes, keys).
Proof.
  destruct (polls_safe Fips.compress (bytes_of "pencil") Z.to_nat sample_key 4 _ sample_reached) as [_ H].
  destruct (H 1%nat {| owner := 1; job := None |} eq_refl) as (r & wakes & keys & Hp & _).
  by exists r, wakes, keys.
Defined.

Lemma waiters_served_witness :
  exists s out n s', reaches Fips.compress (bytes_of "pencil") Z.to_nat sample_key (system_new (W := Slots.Slots) 4) s /\
    serves Fips.compress (bytes_of "pencil") Z.to_nat sample_key s out n s' /\ woken s' = ∅ /\
    (n <= work s)%nat.
Proof.
  pose proof (reaches_ok _ _ _ _ _ _ (system_new_ok _ _ _ _ 4) sample_reached) as Hok.
  destruct (poll_ok _ _ _ _ sample_entered 1 {| owner := 1; job := None |} (sok_runtime _ _ _ _ _ Hok) eq_refl)
    as (r & wakes & keys & Hp & _).
  pose proof (reaches_step _ _ _ _ _ _ _ _ sample_reached (step_polled _ _ _ _ sample_system 1 _ r wakes keys eq_refl Hp)) as Hr.
  destruct (serves_finish _ _ _ _ _ (reaches_ok _ _ _ _ _ _ (system_new_ok _ _ _ _ 4) Hr)) as (out & n & s' & Hv & Hz).
  eexists _, out, n, s'. split; [exact Hr|]. split; [exact Hv|]. split; [exact Hz|].
  exact (proj1 (waiters_served _ _ _ _ _ _ _ _ _ Hr Hv)).
Defined.
