(* ===== verification/CoreQueue.v ===== *)
(** * Request queues

    Models [core/src/queue.rs]: the request queue of one lane, whose entries are
    charged a weight from the moment their place is reserved to the moment they
    leave, and [core/src/handoff.rs], which publishes a request once its reply was
    admitted. The fair storage the lanes share and the egress they drain into are
    those of the driver's libraries, interfaces here. *)
From S2P Require Import Prelude.

Record Entry (V : Type) := { value : V; weight : Z }.
Arguments value {V}.
Arguments weight {V}.

(** [Rejection]: no room in the shared storage, or a weight beyond a word. *)
Module Rejection.
Inductive Rejection {X : Type} := Capacity (x : X) | Weight (lane held requested : Z).
Arguments Rejection : clear implicits.
End Rejection.

Module Drain.
Inductive Drain := Empty | Exhausted.
End Drain.

(** One lane of the fair storage: its entries, its weight, and the places reserved
    by permits, which an entry takes or gives back. *)
Class Fair (X V B : Type) := {
  fair_items : B -> list (Entry V);
  fair_weight : B -> Z;
  fair_permits : B -> nat;
  fair_index : B -> Z;
  fair_set_weight : B -> Z -> B;
  fair_reserve : B -> result X B;
  fair_push_back : B -> Entry V -> B;
  fair_push_front : B -> Entry V -> B;
  fair_take_front : B -> option (Entry V * B);
  fair_drop : B -> B }.

Class FairLaws (X V B : Type) `{Fair X V B} := {
  set_weight_law : forall b w,
    fair_weight (fair_set_weight b w) = w /\ fair_items (fair_set_weight b w) = fair_items b /\
    fair_permits (fair_set_weight b w) = fair_permits b;
  reserve_law : forall b b', fair_reserve b = Ok b' ->
    fair_items b' = fair_items b /\ fair_weight b' = fair_weight b /\ fair_permits b' = S (fair_permits b);
  push_back_law : forall b e, fair_permits b <> 0%nat ->
    fair_items (fair_push_back b e) = fair_items b ++ [e] /\ fair_weight (fair_push_back b e) = fair_weight b /\
    S (fair_permits (fair_push_back b e)) = fair_permits b;
  push_front_law : forall b e, fair_permits b <> 0%nat ->
    fair_items (fair_push_front b e) = e :: fair_items b /\ fair_weight (fair_push_front b e) = fair_weight b /\
    S (fair_permits (fair_push_front b e)) = fair_permits b;
  take_front_law : forall b,
    match fair_items b with
    | [] => fair_take_front b = None
    | e :: es => exists b', fair_take_front b = Some (e, b') /\ fair_items b' = es /\
        fair_weight b' = fair_weight b /\ fair_permits b' = S (fair_permits b)
    end;
  drop_law : forall b, fair_permits b <> 0%nat ->
    fair_items (fair_drop b) = fair_items b /\ fair_weight (fair_drop b) = fair_weight b /\
    S (fair_permits (fair_drop b)) = fair_permits b }.

(** The egress a lane drains into: whether it takes another request, and what it
    does with one. *)
Module Admission.
Inductive Admission {D Y : Type} := Ready (egress : D) | Saturated | Rejected (cause : Y).
Arguments Admission : clear implicits.
End Admission.

Class Egress (V D Y : Type) := {
  egress_claims : D -> bool;
  egress_admit : D -> V -> Admission.Admission D Y }.

(** An egress that keeps what it is given: the requests it took, in order. *)
Class EgressLaws (V D Y : Type) `{Egress V D Y} := {
  egress_taken : D -> list V;
  admit_law : forall d v d', egress_admit d v = Admission.Ready d' -> egress_taken d' = egress_taken d ++ [v] }.

Section lane.
Context {X V B : Type} `{Fair X V B}.

(** [Weight::try_add] and [Weight::wrapping_sub] of [usize]. *)
Definition weight_add (b : B) (held other : Z) : result (Rejection.Rejection X) Z :=
  ok_or (checked_u64 (held + other)) (Rejection.Weight (fair_index b) held other).

Definition weight_sub (held other : Z) : Z := as_u64 (held - other).

(** [Lane::try_reserve]: a permit charged with the weight. *)
Definition try_reserve (b : B) (weight : Z) : result (Rejection.Rejection X) B :=
  total ← weight_add b (fair_weight b) weight;
  b ← map_err Rejection.Capacity (fair_reserve b);
  Ok (fair_set_weight b total).

(** [Front::publish], [Front::restore] and [Front::release]. *)
Definition publish (b : B) (v : V) (weight : Z) : B := fair_push_back b {| value := v; weight := weight |}.

Definition restore (b : B) (v : V) (weight : Z) : B := fair_push_front b {| value := v; weight := weight |}.

Definition release (b : B) (weight : Z) : B := fair_drop (fair_set_weight b (weight_sub (fair_weight b) weight)).

(** [Lane::try_with]: the place is reserved before the input is prepared, and given
    back when that fails. The preparation may change what [S] holds. *)
Definition try_with {S I J P R E} (of_rejection : Rejection.Rejection X -> E) (b : B) (s : S) (weight : Z) (input : I)
    (prepare : S -> I -> S * result (E * I) (P * J)) (build : S -> J -> P -> option (S * V * R))
    : option (B * S * result (E * I) R) :=
  match try_reserve b weight with
  | Err cause => Some (b, s, Err (of_rejection cause, input))
  | Ok b =>
      match prepare s input with
      | (s, Err error) => Some (release b weight, s, Err error)
      | (s, Ok (proof, input)) =>
          r ← build s input proof;
          let '(s, item, output) := r in
          Some (publish b item weight, s, Ok output)
      end
  end.

(** [Lane::try_push]. *)
Definition queue_push (b : B) (item : V) (weight : Z) : result (Rejection.Rejection X) B :=
  b ← try_reserve b weight; Ok (publish b item weight).

(** [Lane::pop_front]. *)
Definition pop_front (b : B) : option (V * B) :=
  r ← fair_take_front b; Some (value r.1, release r.2 (weight r.1)).

(** [Lane::clear]: while there is work. *)
Fixpoint clear (work : nat) (b : B) : B * list V * Drain.Drain :=
  match work with
  | O => (b, [], match fair_items b with [] => Drain.Empty | _ => Drain.Exhausted end)
  | S work =>
      match pop_front b with
      | None => (b, [], Drain.Empty)
      | Some (v, b) => let '(b, vs, d) := clear work b in (b, v :: vs, d)
      end
  end.

(** [Lane::drain]: requests move until the egress takes none. *)
Fixpoint drain {D Y} `{Egress V D Y} (fuel : nat) (b : B) (requests : D) : option (B * D * result Y ()) :=
  match fuel with
  | O => None
  | S fuel =>
      if negb (egress_claims requests) then Some (b, requests, Ok ())
      else
        match fair_take_front b with
        | None => Some (b, requests, Ok ())
        | Some (e, b) =>
            match egress_admit requests (value e) with
            | Admission.Ready requests => drain fuel (release b (weight e)) requests
            | Admission.Saturated => Some (restore b (value e) (weight e), requests, Ok ())
            | Admission.Rejected cause => Some (restore b (value e) (weight e), requests, Err cause)
            end
        end
  end.

(** ** What the queue keeps *)

Definition weights (es : list (Entry V)) : Z := foldr (fun e n => weight e + n) 0 es.

(** At rest, the weight of the lane is that of its entries, no weight is negative and
    no place is reserved. *)
Definition queue_wf (b : B) : Prop :=
  fair_weight b = weights (fair_items b) /\ Forall (fun e => 0 <= weight e) (fair_items b) /\
  fair_permits b = 0%nat /\ weights (fair_items b) <= u64_max.

Context `{!FairLaws X V B}.

Lemma weights_app es ks : weights (es ++ ks) = weights es + weights ks.
Proof. induction es as [|e es IH]; simpl; lia. Qed.

Lemma weights_nonneg es : Forall (fun e => 0 <= weight e) es -> 0 <= weights es.
Proof. induction 1; simpl; lia. Qed.

(** A lane with one permit, charged [w] beyond its entries. *)
Definition charged (b : B) (w : Z) : Prop :=
  fair_weight b = weights (fair_items b) + w /\ Forall (fun e => 0 <= weight e) (fair_items b) /\
  fair_permits b = 1%nat /\ 0 <= w /\ weights (fair_items b) + w <= u64_max.

Lemma reserve_charged b w b' :
  queue_wf b -> 0 <= w -> try_reserve b w = Ok b' -> charged b' w /\ fair_items b' = fair_items b.
Proof.
  intros (Hw & Hp & Hn & Hm) Hw0 Hr. unfold try_reserve in Hr. apply bind_Ok in Hr as (total & Ht & Hr).
  unfold weight_add in Ht. destruct (checked_u64 _) as [y|] eqn:Hc; [|done]. injection Ht as <-.
  apply checked_Some in Hc as [-> Hc]. apply bind_Ok in Hr as (b1 & Hb1 & [= <-]).
  destruct (fair_reserve b) as [b2|] eqn:Hb2; [|done]. injection Hb1 as <-.
  destruct (reserve_law _ _ Hb2) as (Hi & _ & Hn2).
  destruct (set_weight_law b2 (fair_weight b + w)) as (Hsw & Hsi & Hsp).
  unfold charged. rewrite Hsw, Hsi, Hsp, Hi, Hn2, Hw, Hn. split_and!; (done || lia).
Qed.

Lemma release_wf b w : charged b w -> queue_wf (release b w) /\ fair_items (release b w) = fair_items b.
Proof.
  intros (Hw & Hp & Hn & H0 & Hm). unfold release.
  destruct (set_weight_law b (weight_sub (fair_weight b) w)) as (Hsw & Hsi & Hsp).
  destruct (drop_law (fair_set_weight b (weight_sub (fair_weight b) w))) as (Hdi & Hdw & Hdp);
    [by rewrite Hsp, Hn|].
  apply weights_nonneg in Hp as Hnn. unfold queue_wf. rewrite Hdi, Hdw, Hsi, Hsw.
  rewrite Hsp, Hn in Hdp. injection Hdp as Hdp. unfold weight_sub.
  split_and!; [rewrite as_u64_small; lia|done|done|lia|done].
Qed.

Lemma publish_wf b v w : charged b w ->
  queue_wf (publish b v w) /\ fair_items (publish b v w) = fair_items b ++ [{| value := v; weight := w |}].
Proof.
  intros (Hw & Hp & Hn & H0 & Hm). unfold publish.
  destruct (push_back_law b {| value := v; weight := w |}) as (Hi & Hpw & Hpp); [by rewrite Hn|].
  unfold queue_wf. rewrite Hi, Hpw. rewrite Hn in Hpp. injection Hpp as Hpp.
  split_and!; [rewrite weights_app; simpl; lia| |done|rewrite weights_app; simpl; lia|done].
  apply Forall_app. split; [done|]. by constructor.
Qed.

Lemma restore_wf b v w : charged b w ->
  queue_wf (restore b v w) /\ fair_items (restore b v w) = {| value := v; weight := w |} :: fair_items b.
Proof.
  intros (Hw & Hp & Hn & H0 & Hm). unfold restore.
  destruct (push_front_law b {| value := v; weight := w |}) as (Hi & Hpw & Hpp); [by rewrite Hn|].
  unfold queue_wf. rewrite Hi, Hpw. rewrite Hn in Hpp. injection Hpp as Hpp.
  split_and!; [simpl; lia|by constructor|done|simpl; lia|done].
Qed.

Lemma take_charged b : queue_wf b ->
  match fair_items b with
  | [] => fair_take_front b = None
  | e :: es => exists b', fair_take_front b = Some (e, b') /\ fair_items b' = es /\ charged b' (weight e)
  end.
Proof.
  intros (Hw & Hp & Hn & Hm). pose proof (take_front_law b) as Ht. destruct (fair_items b) as [|e es]; [done|].
  destruct Ht as (b' & Hb & Hi & Hbw & Hbp). exists b'. split_and!; [done|done|].
  apply Forall_cons in Hp as [He Hp]. unfold charged. rewrite Hi, Hbw, Hbp, Hw, Hn. simpl in *.
  split_and!; (done || lia).
Qed.

Lemma pop_front_wf b : queue_wf b ->
  match fair_items b with
  | [] => pop_front b = None
  | e :: es => exists b', pop_front b = Some (value e, b') /\ fair_items b' = es /\ queue_wf b'
  end.
Proof.
  intros Hq. apply take_charged in Hq as Ht. unfold pop_front. destruct (fair_items b) as [|e es]; [by rewrite Ht|].
  destruct Ht as (b' & -> & Hi & Hc). destruct (release_wf _ _ Hc) as [Hq' Hi']. eexists. split; [done|].
  cbn. by rewrite Hi'.
Qed.

(** What the egress accepts, one after another. *)
Inductive accepts {D Y} `{Egress V D Y} : D -> list V -> D -> Prop :=
| accepts_nil d : accepts d [] d
| accepts_cons d v d1 vs d2 :
    egress_claims d = true -> egress_admit d v = Admission.Ready d1 -> accepts d1 vs d2 -> accepts d (v :: vs) d2.

Lemma drain_spec {D Y} `{Egress V D Y} fuel b (d : D) :
  queue_wf b -> (length (fair_items b) < fuel)%nat ->
  exists b' d' r moved, drain fuel b d = Some (b', d', r) /\ queue_wf b' /\
    fair_items b = moved ++ fair_items b' /\ accepts d (value <$> moved) d' /\
    match r with
    | Ok () => fair_items b' = [] \/ egress_claims d' = false \/
        exists e, head (fair_items b') = Some e /\ egress_admit d' (value e) = Admission.Saturated
    | Err y => exists e, head (fair_items b') = Some e /\ egress_admit d' (value e) = Admission.Rejected y
    end.
Proof.
  revert b d. induction fuel as [|fuel IH]; intros b d Hq Hf; [lia|]. cbn [drain].
  destruct (egress_claims d) eqn:Hc; cbn [negb].
  2:{ exists b, d, (Ok ()), []. split_and!; [done|done|done|constructor|by right; left]. }
  apply take_charged in Hq as Ht. destruct (fair_items b) as [|e es] eqn:Hi.
  { rewrite Ht. exists b, d, (Ok ()), []. split_and!; [done|done|by rewrite Hi|constructor|by left]. }
  destruct Ht as (b1 & -> & Hi1 & Hch). destruct (egress_admit d (value e)) as [d1| |y] eqn:Ha.
  - destruct (release_wf _ _ Hch) as [Hq1 Hi1']. rewrite Hi1 in Hi1'.
    destruct (IH (release b1 (weight e)) d1 Hq1) as (b' & d' & r & moved & Hd & Hq' & Hm & Hacc & Hr).
    { rewrite Hi1'. simpl in Hf. lia. }
    exists b', d', r, (e :: moved). rewrite Hi1' in Hm. subst es.
    split_and!; [done|done|by rewrite Hm| |done].
    by econstructor.
  - destruct (restore_wf _ (value e) _ Hch) as [Hq1 Hi1']. rewrite Hi1 in Hi1'. destruct e as [v w]. cbn in *.
    eexists _, d, (Ok ()), []. split; [done|]. split_and!; [done|by rewrite Hi1'|constructor|].
    right; right. eexists. by rewrite Hi1'.
  - destruct (restore_wf _ (value e) _ Hch) as [Hq1 Hi1']. rewrite Hi1 in Hi1'. destruct e as [v w]. cbn in *.
    eexists _, d, (Err y), []. split; [done|]. split_and!; [done|by rewrite Hi1'|constructor|].
    eexists. by rewrite Hi1'.
Qed.
Lemma clear_spec work b :
  queue_wf b ->
  exists b' out d, clear work b = (b', out, d) /\ queue_wf b' /\ value <$> fair_items b = out ++ (value <$> fair_items b') /\
    (d = Drain.Empty <-> fair_items b' = []) /\ (length out <= work)%nat.
Proof.
  revert b. induction work as [|work IH]; intros b Hq; cbn [clear].
  - eexists b, [], _. split; [done|]. split_and!; [done|done| |simpl; lia]. by destruct (fair_items b).
  - apply pop_front_wf in Hq as Hp. destruct (fair_items b) as [|e es] eqn:Hi.
    + rewrite Hp. eexists b, [], _. split; [done|]. rewrite Hi. split_and!; (done || simpl; lia).
    + destruct Hp as (b1 & -> & Hi1 & Hq1). destruct (IH b1 Hq1) as (b' & out & d & -> & Hq' & Ho & Hd & Hl).
      eexists b', (value e :: out), d. split; [done|]. rewrite Hi1 in Ho. split_and!; [done| |done|simpl; lia].
      cbn. by rewrite Ho.
Qed.
End lane.

(** ** Every request once, in order *)

Section order.
Context {X V B D Y : Type} `{Fair X V B, EgressLaws V D Y}.

(** What happens to the queue of a connection: a request whose reply is admitted or
    refused, its head taken, what is left dropped, or its heads moved to an egress. *)
Inductive QueueEvent := Publish (item : V) (weight : Z) (admitted : bool) | Pop | Clear (work : nat) | Drained (requests : D).

(** The queue, the requests published and those gone, in order: taken, dropped, or found
    in the egress after a drain beyond what it had taken before. *)
Definition queue_event (s : B * list V * list V) (ev : QueueEvent) : option (B * list V * list V) :=
  let '(b, published, gone) := s in
  match ev with
  | Publish item w admitted =>
      r ← try_with (S := ()) (R := ()) (fun _ => ()) b () w item
            (fun _ item => ((), if admitted then Ok ((), item) else Err ((), item)))
            (fun _ item _ => Some ((), item, ()));
      Some match r with
           | (b, _, Ok _) => (b, published ++ [item], gone)
           | (b, _, Err _) => (b, published, gone)
           end
  | Pop =>
      Some match pop_front b with
           | Some (v, b) => (b, published, gone ++ [v])
           | None => (b, published, gone)
           end
  | Clear work => let '(b, out, _) := clear work b in Some (b, published, gone ++ out)
  | Drained requests =>
      r ← drain (Y := Y) (S (length (fair_items b))) b requests;
      let '(b', requests', _) := r in
      Some (b', published, gone ++ drop (length (egress_taken requests)) (egress_taken requests'))
  end.

Fixpoint queue_run (s : B * list V * list V) (evs : list QueueEvent) : option (B * list V * list V) :=
  match evs with [] => Some s | ev :: evs => s ← queue_event s ev; queue_run s evs end.

Definition weighs (ev : QueueEvent) : Prop := match ev with Publish _ w _ => 0 <= w | _ => True end.

Context `{!FairLaws X V B}.

Lemma accepts_taken (d : D) vs d' : accepts (Y := Y) d vs d' -> egress_taken d' = egress_taken d ++ vs.
Proof.
  induction 1 as [d|d v d1 vs d2 _ Ha _ IH]; [by rewrite app_nil_r|].
  by rewrite IH, (admit_law _ _ _ Ha), <- app_assoc.
Qed.

Definition in_order (s : B * list V * list V) : Prop :=
  let '(b, published, gone) := s in queue_wf b /\ published = gone ++ (value <$> fair_items b).

Lemma queue_event_in_order s ev : weighs ev -> in_order s -> exists s', queue_event s ev = Some s' /\ in_order s'.
Proof.
  destruct s as [[b published] gone]. intros Hw [Hq ->]. destruct ev as [item w admitted| |work|requests];
    cbn [queue_event weighs] in *.
  - unfold try_with. destruct (try_reserve b w) as [b1|e] eqn:Hr.
    + destruct (reserve_charged _ _ _ Hq Hw Hr) as [Hc Hi]. destruct admitted; cbn.
      * destruct (publish_wf _ item _ Hc) as [Hq' Hi']. eexists. split; [done|]. split; [done|].
        by rewrite Hi', Hi, fmap_app, <- app_assoc.
      * destruct (release_wf _ _ Hc) as [Hq' Hi']. eexists. split; [done|]. split; [done|]. by rewrite Hi', Hi.
    + eexists. by split.
  - apply pop_front_wf in Hq as Hp. destruct (fair_items b) as [|e es] eqn:Hi.
    + rewrite Hp. eexists. split; [done|]. split; [done|]. by rewrite Hi.
    + destruct Hp as (b1 & -> & Hi1 & Hq1). eexists. split; [done|]. split; [done|].
      rewrite Hi1. cbn. by rewrite <- app_assoc.
  - destruct (clear_spec work b Hq) as (b' & out & d & -> & Hq' & Ho & _). eexists. split; [done|]. split; [done|].
    by rewrite Ho, app_assoc.
  - destruct (drain_spec (Y := Y) (S (length (fair_items b))) b requests Hq) as
      (b' & d' & r & moved & -> & Hq' & Hm & Ha & _); [lia|].
    eexists. split; [done|]. split; [done|].
    by rewrite (accepts_taken _ _ _ Ha), drop_app_length, Hm, fmap_app, app_assoc.
Qed.

(** C37. A request queue loses, repeats and reorders nothing, and weighs what it
    holds. However requests are published, refused by their replies, taken, dropped
    and moved to an egress that may have room or not, every operation returns; the
    requests published are those gone (taken, dropped, or held by the egress because a
    drain moved them there), in order, followed by those queued; a refused one leaves no
    trace, and one the egress had no room for is back at the front.
    The weight of the lane is exactly that of its entries, its subtraction never
    wraps, and no reserved place is left behind. *)
Theorem requests_in_order b evs :
  queue_wf b -> fair_items b = [] -> Forall weighs evs ->
  exists b' published gone, queue_run (b, [], []) evs = Some (b', published, gone) /\
    published = gone ++ (value <$> fair_items b') /\ fair_weight b' = weights (fair_items b') /\
    fair_permits b' = 0%nat.
Proof.
  intros Hq Hb Hw.
  assert (forall evs s, in_order s -> Forall weighs evs -> exists s', queue_run s evs = Some s' /\ in_order s') as Hrun.
  { clear -FairLaws0. induction evs as [|ev evs IH]; intros s Hs Hw; [by exists s|]. apply Forall_cons in Hw as [Hw1 Hw].
    destruct (queue_event_in_order s ev Hw1 Hs) as (s1 & Hs1 & Ho1). cbn [queue_run]. rewrite Hs1. cbn. by apply IH. }
  destruct (Hrun evs (b, [], [])) as ([[b' published] gone] & -> & (Hwt & _ & Hpm & _) & ->); [by unfold in_order; rewrite Hb|done|].
  by eexists b', _, gone.
Qed.
End order.

(** A lane on its own: a list, its weight and its permits. *)
#[export] Instance list_fair : Fair () Z (list (Entry Z) * Z * nat) := {|
  fair_items b := b.1.1;
  fair_weight b := b.1.2;
  fair_permits b := b.2;
  fair_index b := 0;
  fair_set_weight b w := (b.1.1, w, b.2);
  fair_reserve b := if (length b.1.1 + b.2 <? 2)%nat then Ok (b.1.1, b.1.2, S b.2) else Err ();
  fair_push_back b e := (b.1.1 ++ [e], b.1.2, Nat.pred b.2);
  fair_push_front b e := (e :: b.1.1, b.1.2, Nat.pred b.2);
  fair_take_front b := match b.1.1 with [] => None | e :: es => Some (e, (es, b.1.2, S b.2)) end;
  fair_drop b := (b.1.1, b.1.2, Nat.pred b.2) |}.

#[export] Instance list_fair_laws : FairLaws () Z (list (Entry Z) * Z * nat).
Proof.
  split; cbn; try (intros [[items w] [|n]]; done).
  - intros [[items w] n] b' H. cbn in H. split_match_in H; [|done]. by injection H as <-.
  - intros [[[|e es] w] n]; cbn; eauto.
Qed.

(** An egress with room for the number it is. *)
#[export] Instance counting_egress : Egress Z nat () := {|
  egress_claims d := true;
  egress_admit d _ := match d with O => Admission.Saturated | S d => Admission.Ready d end |}.

(** An egress that keeps what it takes, with room for a number of requests. *)
#[local] Instance lined_egress : Egress Z (list Z * nat) () := {|
  egress_claims d := true;
  egress_admit d v := match d.2 with O => Admission.Saturated | S n => Admission.Ready (d.1 ++ [v], n) end |}.

#[local] Instance lined_egress_laws : EgressLaws Z (list Z * nat) ().
Proof. refine {| egress_taken d := d.1 |}. intros [vs [|n]] v d' [= <-]. done. Defined.

(** The second request is refused by its reply, the third finds no place; the egress,
    which holds another already, takes one. *)
Lemma requests_in_order_witness :
  exists b published gone,
    queue_run (Y := ()) (([], 0, 0%nat), [], [])
      [Publish 7 3 true; Publish 8 3 false; Publish 9 4 true; Publish 10 1 true; Drained ([5], 1%nat)] = Some (b, published, gone) /\
    published = gone ++ (value <$> fair_items b) /\ gone = [7] /\ fair_weight b = 4.
Proof.
  edestruct (requests_in_order (Y := ()) (D := list Z * nat) (([], 0, 0%nat) : list (Entry Z) * Z * nat)
    [Publish 7 3 true; Publish 8 3 false; Publish 9 4 true; Publish 10 1 true; Drained ([5], 1%nat)])
    as (b & published & gone & Hr & Hp & _).
  - split; [done|]. split; [constructor|]. split; [done|]. cbn. lia.
  - done.
  - repeat constructor; cbn; lia.
  - exists b, published, gone. split; [exact Hr|]. split; [exact Hp|]. vm_compute in Hr. injection Hr as <- _ <-.
    split; reflexivity.
Defined.
