(* ===== verification/PgDiagnostic.v ===== *)
(** * Server diagnostics

    Models [pg/src/reply/server.rs], [reply/context.rs], [reply/code.rs],
    [reply/plan.rs] and the ledger of a command group, [reply/group.rs] with the
    recording of [port/replies/groups.rs]: an error response is parsed once with
    every check, its bytes are retained, and its fields are read again later
    without any. A read outside the bytes, or a step only a checked text excludes,
    is [None]. *)
From S2P Require Import Prelude CoreText PgWire.

(** ** Fields *)

Record Origin := {
  schema : option (list Z);
  table : option (list Z);
  column : option (list Z);
  data_type : option (list Z);
  constraint : option (list Z);
  file : option (list Z);
  line : option Z;
  routine : option (list Z) }.

Record Context := {
  detail : option (list Z);
  hint : option (list Z);
  text_position : option Z;
  inner_position : option Z;
  inner_query : option (list Z);
  location : option (list Z);
  origin : Origin }.

Definition origin_default : Origin :=
  {| schema := None; table := None; column := None; data_type := None; constraint := None; file := None;
     line := None; routine := None |}.

Definition context_default : Context :=
  {| detail := None; hint := None; text_position := None; inner_position := None; inner_query := None;
     location := None; origin := origin_default |}.

Record Fields := { severity : list Z; code : list Z; message : list Z; context : Context }.

(** The number fields a context hands out to be written. *)
Module NumberField.
Inductive NumberField := Position | InnerPosition | Line.
End NumberField.

Definition with_origin (c : Context) (o : Origin) : Context :=
  {| detail := detail c; hint := hint c; text_position := text_position c; inner_position := inner_position c;
     inner_query := inner_query c; location := location c; origin := o |}.

(** [Write::field]. *)
Definition field (c : Context) (kind : Z) (value : list Z) : Context * option NumberField.NumberField :=
  let o := origin c in
  if kind =? 68 then
    ({| detail := Some value; hint := hint c; text_position := text_position c; inner_position := inner_position c;
        inner_query := inner_query c; location := location c; origin := o |}, None)
  else if kind =? 72 then
    ({| detail := detail c; hint := Some value; text_position := text_position c; inner_position := inner_position c;
        inner_query := inner_query c; location := location c; origin := o |}, None)
  else if kind =? 80 then (c, Some NumberField.Position)
  else if kind =? 112 then (c, Some NumberField.InnerPosition)
  else if kind =? 113 then
    ({| detail := detail c; hint := hint c; text_position := text_position c; inner_position := inner_position c;
        inner_query := Some value; location := location c; origin := o |}, None)
  else if kind =? 87 then
    ({| detail := detail c; hint := hint c; text_position := text_position c; inner_position := inner_position c;
        inner_query := inner_query c; location := Some value; origin := o |}, None)
  else if kind =? 115 then
    (with_origin c {| schema := Some value; table := table o; column := column o; data_type := data_type o;
       constraint := constraint o; file := file o; line := line o; routine := routine o |}, None)
  else if kind =? 116 then
    (with_origin c {| schema := schema o; table := Some value; column := column o; data_type := data_type o;
       constraint := constraint o; file := file o; line := line o; routine := routine o |}, None)
  else if kind =? 99 then
    (with_origin c {| schema := schema o; table := table o; column := Some value; data_type := data_type o;
       constraint := constraint o; file := file o; line := line o; routine := routine o |}, None)
  else if kind =? 100 then
    (with_origin c {| schema := schema o; table := table o; column := column o; data_type := Some value;
       constraint := constraint o; file := file o; line := line o; routine := routine o |}, None)
  else if kind =? 110 then
    (with_origin c {| schema := schema o; table := table o; column := column o; data_type := data_type o;
       constraint := Some value; file := file o; line := line o; routine := routine o |}, None)
  else if kind =? 70 then
    (with_origin c {| schema := schema o; table := table o; column := column o; data_type := data_type o;
       constraint := constraint o; file := Some value; line := line o; routine := routine o |}, None)
  else if kind =? 76 then (c, Some NumberField.Line)
  else if kind =? 82 then
    (with_origin c {| schema := schema o; table := table o; column := column o; data_type := data_type o;
       constraint := constraint o; file := file o; line := line o; routine := Some value |}, None)
  else (c, None).

(** [*number = Some(..)] of the field handed out. *)
Definition set_number (c : Context) (f : NumberField.NumberField) (n : Z) : Context :=
  match f with
  | NumberField.Position =>
      {| detail := detail c; hint := hint c; text_position := Some n; inner_position := inner_position c;
         inner_query := inner_query c; location := location c; origin := origin c |}
  | NumberField.InnerPosition =>
      {| detail := detail c; hint := hint c; text_position := text_position c; inner_position := Some n;
         inner_query := inner_query c; location := location c; origin := origin c |}
  | NumberField.Line =>
      let o := origin c in
      with_origin c {| schema := schema o; table := table o; column := column o; data_type := data_type o;
        constraint := constraint o; file := file o; line := Some n; routine := routine o |}
  end.

(** [Write::try_number]. *)
Fixpoint try_number_loop (kind length number : Z) (bytes : list Z) : result Reason.Reason Z :=
  match bytes with
  | [] => if number =? 0 then Err (Reason.DiagnosticPosition kind Number.Zero) else Ok number
  | byte :: tail =>
      if negb (is_digit byte) then
        Err (Reason.DiagnosticPosition kind (Number.Invalid (length - zlen bytes) byte))
      else
        match (n ← checked_u32 (number * 10); checked_u32 (n + (byte - 48))) with
        | None => Err (Reason.DiagnosticPosition kind (Number.Overflow (length - zlen bytes) byte))
        | Some next => try_number_loop kind length next tail
        end
  end.

Definition try_number (kind : Z) (value : list Z) : result Reason.Reason Z :=
  match value with
  | [] => Err (Reason.DiagnosticPosition kind Number.Empty)
  | _ => try_number_loop kind (zlen value) 0 value
  end.

(** [Write::try_set]. *)
Definition context_try_set (c : Context) (kind : Z) (value : list Z) : result Reason.Reason Context :=
  match field c kind value with
  | (c, Some f) => n ← try_number kind value; Ok (set_number c f n)
  | (c, None) => Ok c
  end.

(** ** The code *)

Definition is_ascii_uppercase (b : Z) : bool := (65 <=? b) && (b <=? 90).

Fixpoint code_loop (actual : Z) (bytes : list Z) : result Reason.Reason () :=
  match bytes with
  | [] => Ok ()
  | byte :: tail =>
      if negb (is_ascii_uppercase byte) && negb (is_digit byte) then
        Err (Reason.DiagnosticSqlstateByte actual (actual - zlen bytes) byte)
      else code_loop actual tail
  end.

(** [Code::try_new]. *)
Definition code_try_new (value : list Z) : result Reason.Reason (list Z) :=
  code_loop (zlen value) value;;
  if negb (zlen value =? 5) then Err (Reason.DiagnosticSqlstateLength (zlen value)) else Ok value.

Module Class.
Inductive Class := Permanent | Transient.
End Class.

(** [Code::class]. *)
Definition class (code : list Z) : Class.Class :=
  match code with
  | a :: b :: _ =>
      if ((a =? 48) && (b =? 56)) || ((a =? 53) && ((b =? 51) || (b =? 55) || (b =? 56))) then Class.Transient
      else Class.Permanent
  | _ => Class.Permanent
  end.

(** ** The checked parser *)

Record Parts := {
  p_severity : option (list Z);
  p_severity_nonlocalized : option (list Z);
  p_code : option (list Z);
  p_message : option (list Z);
  p_context : Context }.

Definition parts_default : Parts :=
  {| p_severity := None; p_severity_nonlocalized := None; p_code := None; p_message := None;
     p_context := context_default |}.

(** [Parts::try_set]. *)
Definition try_set (p : Parts) (kind : Z) (value : list Z) : result Reason.Reason Parts :=
  if kind =? 83 then
    Ok {| p_severity := Some value; p_severity_nonlocalized := p_severity_nonlocalized p; p_code := p_code p;
          p_message := p_message p; p_context := p_context p |}
  else if kind =? 86 then
    Ok {| p_severity := p_severity p; p_severity_nonlocalized := Some value; p_code := p_code p;
          p_message := p_message p; p_context := p_context p |}
  else if kind =? 67 then
    Ok {| p_severity := p_severity p; p_severity_nonlocalized := p_severity_nonlocalized p; p_code := Some value;
          p_message := p_message p; p_context := p_context p |}
  else if kind =? 77 then
    Ok {| p_severity := p_severity p; p_severity_nonlocalized := p_severity_nonlocalized p; p_code := p_code p;
          p_message := Some value; p_context := p_context p |}
  else
    c ← context_try_set (p_context p) kind value;
    Ok {| p_severity := p_severity p; p_severity_nonlocalized := p_severity_nonlocalized p; p_code := p_code p;
          p_message := p_message p; p_context := c |}.

(** [Parts::try_finish]. *)
Definition try_finish (p : Parts) : result Reason.Reason Fields :=
  match (match p_severity_nonlocalized p with Some v => Some v | None => p_severity p end) with
  | None | Some [] => Err Reason.DiagnosticSeverity
  | Some severity =>
      match p_code p with
      | None => Err (Reason.DiagnosticSqlstateLength 0)
      | Some code =>
          code ← code_try_new code;
          match p_message p with
          | None => Err Reason.DiagnosticMessage
          | Some message => Ok {| severity := severity; code := code; message := message; context := p_context p |}
          end
      end
  end.

(** The letters the parser knows, one bit each. *)
Definition recognized_bit (kind : Z) : option Z :=
  position (fun k => k =? kind) (bytes_of "SVCMDHPpqWstcdnFLR").

Definition diagnostic_offset (length : Z) (rest : list Z) : Z := length - zlen rest.

(** [Fields::try_parse]: every turn reads a byte. *)
Fixpoint try_parse_loop (fuel : nat) (length : Z) (parts : Parts) (seen : Z) (cursor : list Z)
    : option (result Reason.Reason Fields) :=
  match fuel with
  | O => None
  | S fuel =>
      match split_first cursor with
      | None => Some (Err (Reason.DiagnosticResponseTerminator (diagnostic_offset length cursor)))
      | Some (kind, tail) =>
          if kind =? 0 then
            match tail with
            | [] => Some (try_finish parts)
            | _ => Some (Err (Reason.DiagnosticTrailing (diagnostic_offset length tail) (zlen tail)))
            end
          else
            match split_byte tail 0 with
            | None => Some (Err (Reason.DiagnosticTerminator kind (diagnostic_offset length tail) (zlen tail)))
            | Some (value, rest) =>
                match try_text value with
                | Err e =>
                    Some (Err (Reason.DiagnosticUtf8 kind (length - (zlen tail - valid e)) (error e)))
                | Ok value =>
                    match
                      match recognized_bit kind with
                      | None => Ok seen
                      | Some bit =>
                          let mask := Z.shiftl 1 bit in
                          if negb (Z.land seen mask =? 0) then Err (Reason.DuplicateDiagnostic kind)
                          else Ok (Z.lor seen mask)
                      end
                    with
                    | Err e => Some (Err e)
                    | Ok seen =>
                        match try_set parts kind value with
                        | Err e => Some (Err e)
                        | Ok parts => try_parse_loop fuel length parts seen rest
                        end
                    end
                end
            end
      end
  end.

Definition try_parse (payload : list Z) : option (result Reason.Reason Fields) :=
  try_parse_loop (S (length payload)) (zlen payload) parts_default 0 payload.

#[global] Arguments try_parse : simpl never.

(** ** The unchecked reader *)

(** [raw::number]: [None] where a digit would underflow or the number overflow, or
    where it would be zero. *)
Fixpoint raw_number_loop (number : Z) (bytes : list Z) : option Z :=
  match bytes with
  | [] => if number =? 0 then None else Some number
  | byte :: bytes =>
      if byte <? 48 then None
      else n ← checked_u32 (number * 10 + (byte - 48)); raw_number_loop n bytes
  end.

Definition raw_number (value : list Z) : option Z := raw_number_loop 0 value.

(** [Build]: what is not written yet is [None]. *)
Record Build := {
  b_severity : option (list Z);
  b_severity_nonlocalized : option (list Z);
  b_code : option (list Z);
  b_message : option (list Z);
  b_context : Context }.

Definition build_new : Build :=
  {| b_severity := None; b_severity_nonlocalized := None; b_code := None; b_message := None;
     b_context := context_default |}.

(** [Build::set]. *)
Definition build_set (b : Build) (kind : Z) (value : list Z) : option Build :=
  if kind =? 83 then
    Some {| b_severity := Some value; b_severity_nonlocalized := b_severity_nonlocalized b; b_code := b_code b;
            b_message := b_message b; b_context := b_context b |}
  else if kind =? 86 then
    Some {| b_severity := b_severity b; b_severity_nonlocalized := Some value; b_code := b_code b;
            b_message := b_message b; b_context := b_context b |}
  else if kind =? 67 then
    Some {| b_severity := b_severity b; b_severity_nonlocalized := b_severity_nonlocalized b; b_code := Some value;
            b_message := b_message b; b_context := b_context b |}
  else if kind =? 77 then
    Some {| b_severity := b_severity b; b_severity_nonlocalized := b_severity_nonlocalized b; b_code := b_code b;
            b_message := Some value; b_context := b_context b |}
  else
    c ← match field (b_context b) kind value with
        | (c, Some f) => n ← raw_number value; Some (set_number c f n)
        | (c, None) => Some c
        end;
    Some {| b_severity := b_severity b; b_severity_nonlocalized := b_severity_nonlocalized b; b_code := b_code b;
            b_message := b_message b; b_context := c |}.

(** [Build::finish]: what was never written is read. *)
Definition build_finish (b : Build) : option Fields :=
  severity ← match b_severity_nonlocalized b with Some v => Some v | None => b_severity b end;
  code ← b_code b;
  message ← b_message b;
  Some {| severity := severity; code := code; message := message; context := b_context b |}.

(** [while *tail.add(end) != 0 { end += 1 }]: the bytes before the terminator and
    those after, [None] where the scan would leave the bytes. *)
Fixpoint scan_cstr (tail : list Z) : option (list Z * list Z) :=
  match tail with
  | [] => None
  | b :: tail =>
      if b =? 0 then Some ([], tail)
      else r ← scan_cstr tail; Some (b :: r.1, r.2)
  end.

(** [Fields::from_valid]; a text of invalid bytes is [None] too. *)
Fixpoint from_valid_loop (fuel : nat) (b : Build) (cursor : list Z) : option Fields :=
  match fuel with
  | O => None
  | S fuel =>
      match cursor with
      | [] => None
      | kind :: tail =>
          if kind =? 0 then build_finish b
          else
            r ← scan_cstr tail;
            value ← match from_utf8 r.1 with Ok () => Some r.1 | Err _ => None end;
            b ← build_set b kind value;
            from_valid_loop fuel b r.2
      end
  end.

Definition from_valid (payload : list Z) : option Fields :=
  from_valid_loop (S (length payload)) build_new payload.

#[global] Arguments from_valid : simpl never.

(** ** The plan of an error *)

Module Scope.
Inductive Scope := Command | Connection | Unknown.
End Scope.

Record Plan := { plan_payload : list Z; plan_class : Class.Class; plan_scope : Scope.Scope }.

Definition scope_of (severity : list Z) : Scope.Scope :=
  if list_eqb severity (bytes_of "ERROR") then Scope.Command
  else if list_eqb severity (bytes_of "FATAL") || list_eqb severity (bytes_of "PANIC") then Scope.Connection
  else Scope.Unknown.

(** [Plan::parse]. *)
Definition plan_parse (payload : list Z) : option (result Reason.Reason Plan) :=
  r ← try_parse payload;
  Some (fields ← r;
    Ok {| plan_payload := payload; plan_class := class (code fields); plan_scope := scope_of (severity fields) |}).

(** ** The ledger of a command group *)

Module Position.
Inductive Position := Command (index : Z) | Sync | Recovery | Connection | Unknown.
End Position.

#[global] Instance Position_eq_dec : EqDecision Position.Position.
Proof. solve_decision. Defined.

Record Record_ := { position_ : Position.Position; start : Z; end_ : Z }.

(** [Records]: the slots not written yet hold nothing. *)
Record Records := { slots : list (option Record_); len : Z; unknown : option Z }.

Definition records_new (slots : list (option Record_)) : Records :=
  {| slots := slots; len := 0; unknown := None |}.

Definition records_clear (r : Records) : Records :=
  {| slots := slots r; len := 0; unknown := None |}.

(** [as_slice]: the published prefix, [None] where a slot of it was not written. *)
Definition as_slice (r : Records) : option (list Record_) := mapM id (take (Z.to_nat (len r)) (slots r)).

(** [vacancy]: the slot at the length, if there is one. *)
Definition vacancy (r : Records) : bool := bool_decide (get (slots r) (len r) <> None).

(** [Vacant::commit]. *)
Definition records_commit (r : Records) (record : Record_) : Records :=
  {| slots := <[Z.to_nat (len r) := Some record]> (slots r);
     len := len r + 1;
     unknown := if bool_decide (position_ record = Position.Unknown) then Some (len r) else unknown r |}.

Module Resolution.
Inductive Resolution := Resolved | Unchanged.
End Resolution.

(** [Records::resolve]: [None] where the slot was not written. *)
Definition records_resolve (r : Records) (position : Position.Position)
    : option (Records * Resolution.Resolution) :=
  match unknown r with
  | None => Some (r, Resolution.Unchanged)
  | Some index =>
      record ← mjoin (get (slots r) index);
      Some ({| slots := <[Z.to_nat index := Some {| position_ := position; start := start record; end_ := end_ record |}]>
                 (slots r);
               len := len r; unknown := None |}, Resolution.Resolved)
  end.

(** The growing byte buffer of a group, of the buffer library: it appends whole
    texts while there is room, and its length fits in 32 bits. *)
Class Span (S E : Type) := {
  span_bytes : S -> list Z;
  span_append : S -> list Z -> result E S }.

Class SpanLaws (S E : Type) `{Span S E} := {
  span_appended : forall s l s', span_append s l = Ok s' -> span_bytes s' = span_bytes s ++ l;
  span_u32 : forall s, zlen (span_bytes s) <= u32_max }.

Module GroupError.
Inductive GroupError {E : Type} :=
| GroupDiagnosticRecords (capacity : Z)
| GroupDiagnosticBytes (error : E).
Arguments GroupError : clear implicits.
End GroupError.

Section ledger.
Context {S E : Type} `{Span S E}.

Record Active := { records : Records; bytes : S }.

(** [Active::record]: the records are left as they are on an error. *)
Definition active_record (a : Active) (position : Position.Position) (plan : Plan) (capacity : Z)
    : Active * result (GroupError.GroupError E) () :=
  if negb (vacancy (records a)) then (a, Err (GroupError.GroupDiagnosticRecords capacity))
  else
    let start := as_u32 (zlen (span_bytes (bytes a))) in
    match span_append (bytes a) (plan_payload plan) with
    | Err e => (a, Err (GroupError.GroupDiagnosticBytes e))
    | Ok b =>
        ({| records := records_commit (records a)
              {| position_ := position; start := start; end_ := as_u32 (zlen (span_bytes b)) |};
            bytes := b |}, Ok ())
    end.

(** The state an owner shares: what it collects into, until the snapshot. *)
Record OwnerState := { limits : Z * Z; active : option Active; reserved : bool }.

(** [Access::prepare] and [Draft::admit]: the records are cleared, the bytes fresh. *)
Definition owner_prepare (limits : Z * Z) (r : Records) (fresh : S) : OwnerState :=
  {| limits := limits; active := Some {| records := records_clear r; bytes := fresh |}; reserved := true |}.

(** [Owner::record]. *)
Definition owner_record (o : OwnerState) (position : Position.Position) (plan : Plan)
    : OwnerState * result (GroupError.GroupError E) () :=
  match active o with
  | None => (o, Ok ())
  | Some a =>
      let (a, result) := active_record a position plan (limits o).1 in
      ({| limits := limits o; active := Some a; reserved := reserved o |}, result)
  end.

(** [Owner::resolve]. *)
Definition owner_resolve (o : OwnerState) (position : Position.Position)
    : option (OwnerState * Resolution.Resolution) :=
  match active o with
  | None => Some (o, Resolution.Unchanged)
  | Some a =>
      r ← records_resolve (records a) position;
      Some ({| limits := limits o; active := Some {| records := r.1; bytes := bytes a |}; reserved := reserved o |}, r.2)
  end.

(** [Ledger]: the retained records and bytes. *)
Definition Ledger : Type := option (Records * list Z).

(** [Owner::snapshot]. *)
Definition snapshot (o : OwnerState) : OwnerState * Ledger :=
  match active o with
  | None => (o, None)
  | Some a =>
      ({| limits := limits o; active := None; reserved := false |},
       if len (records a) =? 0 then None else Some (records a, span_bytes (bytes a)))
  end.
End ledger.

Arguments Active : clear implicits.
Arguments OwnerState : clear implicits.

(** [raw::group_fields]: [None] where the range leaves the bytes. *)
Definition group_fields (payload : list Z) (record : Record_) : option Fields :=
  payload ← get_range payload (start record) (end_ record); from_valid payload.

(** [Ledger::iter] run to its end. *)
Definition ledger_iter (l : Ledger) : option (list (Position.Position * Fields)) :=
  match l with
  | None => Some []
  | Some (r, payload) =>
      records ← as_slice r;
      mapM (fun record => fields ← group_fields payload record; Some (position_ record, fields)) records
  end.

(** [Ledger::len]. *)
Definition ledger_len (l : Ledger) : Z := match l with None => 0 | Some (r, _) => len r end.

(** ** Lemmas *)

Definition parts_built (p : Parts) : Build :=
  {| b_severity := p_severity p; b_severity_nonlocalized := p_severity_nonlocalized p; b_code := p_code p;
     b_message := p_message p; b_context := p_context p |}.

Lemma try_number_loop_raw kind length bytes number n :
  try_number_loop kind length number bytes = Ok n -> raw_number_loop number bytes = Some n.
Proof.
  revert number. induction bytes as [|byte bytes IH]; intros number; simpl.
  - destruct (number =? 0); [done|]. by intros [= <-].
  - unfold is_digit. destruct (Z.leb_spec 48 byte) as [Hb|]; [|done]. destruct (byte <=? 57); [|done]. simpl.
    destruct (Z.ltb_spec byte 48); [lia|].
    destruct (checked_u32 (number * 10)) as [m|] eqn:Em; [|done]. simpl.
    apply checked_Some in Em as [-> _].
    destruct (checked_u32 _) as [m|]; [|done]. simpl. apply IH.
Qed.

Lemma try_number_raw kind value n : try_number kind value = Ok n -> raw_number value = Some n.
Proof. unfold try_number. destruct value; [done|]. apply try_number_loop_raw. Qed.

(** What the checked parser sets, the unchecked reader sets. *)
Lemma try_set_built p kind value p' :
  try_set p kind value = Ok p' -> build_set (parts_built p) kind value = Some (parts_built p').
Proof.
  unfold try_set, build_set.
  destruct (kind =? 83); [by intros [= <-]|]. destruct (kind =? 86); [by intros [= <-]|].
  destruct (kind =? 67); [by intros [= <-]|]. destruct (kind =? 77); [by intros [= <-]|].
  intros (c & Hc & [= <-])%bind_Ok. unfold context_try_set in Hc. simpl.
  destruct (field (p_context p) kind value) as [c' [f|]].
  - apply bind_Ok in Hc as (n & ->%try_number_raw & [= <-]). done.
  - injection Hc as ->. done.
Qed.

Lemma try_finish_built p fields : try_finish p = Ok fields -> build_finish (parts_built p) = Some fields.
Proof.
  unfold try_finish, build_finish. simpl.
  destruct (match p_severity_nonlocalized p with Some v => Some v | None => p_severity p end)
    as [[|s severity]|]; [done| |done].
  destruct (p_code p) as [code|]; [|done]. intros (code' & Hc & Hm)%bind_Ok.
  assert (code' = code) as ->.
  { unfold code_try_new in Hc. apply bind_Ok in Hc as (? & _ & Hc). destruct (negb _); [done|]. by injection Hc. }
  destruct (p_message p); [|done]. by injection Hm as <-.
Qed.

Lemma scan_cstr_split l value rest : split_byte l 0 = Some (value, rest) -> scan_cstr l = Some (value, rest).
Proof.
  intros [-> Hv]%split_byte_Some. induction Hv as [|b value Hb _ IH]; simpl; [done|].
  destruct (Z.eqb_spec b 0); [done|]. by rewrite IH.
Qed.

Lemma checked_text_Ok l v : try_text l = Ok v -> v = l /\ from_utf8 l = Ok ().
Proof. unfold try_text. destruct (from_utf8 l) as [[]|[]]; [|done]. by intros [= <-]. Qed.

Lemma from_valid_parsed fuel n parts seen cursor fields :
  try_parse_loop fuel n parts seen cursor = Some (Ok fields) ->
  from_valid_loop fuel (parts_built parts) cursor = Some fields.
Proof.
  revert parts seen cursor. induction fuel as [|fuel IH]; intros parts seen cursor; [done|].
  cbn [try_parse_loop from_valid_loop]. destruct cursor as [|kind tail]; [done|]. cbn [split_first].
  destruct (kind =? 0).
  - destruct tail; [|done]. intros H%(inj Some). by apply try_finish_built.
  - destruct (split_byte tail 0) as [[value rest]|] eqn:Hs; [|done].
    rewrite (scan_cstr_split _ _ _ Hs).
    destruct (try_text value) as [v|] eqn:Ht; [|done]. apply checked_text_Ok in Ht as [-> Hu]. simpl. rewrite Hu.
    simpl. destruct (match recognized_bit kind with None => _ | Some _ => _ end) as [seen'|]; [|done].
    destruct (try_set parts kind value) as [parts'|] eqn:Hp; [|done].
    rewrite (try_set_built _ _ _ _ Hp). apply IH.
Qed.

Lemma split_byte_shorter l b value rest : split_byte l b = Some (value, rest) -> (length rest < length l)%nat.
Proof. intros [-> _]%split_byte_Some. rewrite length_app. simpl. lia. Qed.

Lemma try_parse_loop_total fuel n parts seen cursor :
  (length cursor < fuel)%nat -> is_Some (try_parse_loop fuel n parts seen cursor).
Proof.
  revert parts seen cursor. induction fuel as [|fuel IH]; intros parts seen cursor Hf; [lia|].
  cbn [try_parse_loop]. destruct cursor as [|kind tail]; [done|]. cbn [split_first].
  destruct (kind =? 0); [by destruct tail|].
  destruct (split_byte tail 0) as [[value rest]|] eqn:Hs; [|done].
  destruct (try_text value); [|done].
  destruct (match recognized_bit kind with None => _ | Some _ => _ end); [|done].
  destruct (try_set parts kind _); [|done]. apply IH. apply split_byte_shorter in Hs. simpl in Hf. lia.
Qed.

(** A code of a server is five upper letters and digits. *)
Definition sqlstate (code : list Z) : Prop :=
  length code = 5%nat /\ Forall (fun b => is_ascii_uppercase b = true \/ is_digit b = true) code.

Lemma code_try_new_Ok value code : code_try_new value = Ok code <-> code = value /\ sqlstate value.
Proof.
  assert (forall n l, code_loop n l = Ok () <-> Forall (fun b => is_ascii_uppercase b = true \/ is_digit b = true) l)
    as Hl.
  { intros n l. induction l as [|b l IH]; simpl; [done|]. rewrite Forall_cons, <- IH.
    destruct (is_ascii_uppercase b), (is_digit b); simpl; naive_solver. }
  unfold code_try_new, sqlstate. rewrite bind_Ok. split.
  - intros ([] & Hc%Hl & H). destruct (Z.eqb_spec (zlen value) 5); [|done]. injection H as <-.
    split_and!; (done || lia).
  - intros [-> [Hn Hc]]. exists (). split; [by apply Hl|]. by rewrite Hn.
Qed.

(** What the parser admits: a severity, a code, texts that are text. *)
Definition fields_wf (f : Fields) : Prop := severity f <> [] /\ sqlstate (code f).

Lemma try_finish_wf p f : try_finish p = Ok f -> fields_wf f.
Proof.
  unfold try_finish, fields_wf.
  destruct (match p_severity_nonlocalized p with Some v => Some v | None => p_severity p end)
    as [[|s l]|]; [done| |done].
  destruct (p_code p); [|done]. intros (code' & Hc & Hm)%bind_Ok. apply code_try_new_Ok in Hc as [-> Hc].
  destruct (p_message p); [|done]. by injection Hm as <-.
Qed.

Lemma try_parse_loop_wf fuel n parts seen cursor f :
  try_parse_loop fuel n parts seen cursor = Some (Ok f) -> fields_wf f.
Proof.
  revert parts seen cursor. induction fuel as [|fuel IH]; intros parts seen cursor; [done|].
  cbn [try_parse_loop]. destruct cursor as [|kind tail]; [done|]. cbn [split_first].
  destruct (kind =? 0).
  - destruct tail; [|done]. intros H%(inj Some). by apply try_finish_wf in H.
  - destruct (split_byte tail 0) as [[value rest]|]; [|done]. destruct (try_text value); [|done].
    destruct (match recognized_bit kind with None => _ | Some _ => _ end); [|done].
    destruct (try_set parts kind _); [|done]. apply IH.
Qed.

Lemma from_valid_try payload fields :
  try_parse payload = Some (Ok fields) -> from_valid payload = Some fields.
Proof. apply from_valid_parsed. Qed.

(** C15. The checked parser of a server error always returns, on every payload; and
    a diagnostic it admits, with a severity that is not empty and a code of five
    upper letters or digits, is read back from its retained bytes by the unchecked
    reader to the same fields: the reader never leaves the bytes, never takes bytes
    that are not a text, never overflows a number, and never reads a required field
    that is not there. *)
Theorem diagnostic_reread payload :
  exists r, try_parse payload = Some r /\
    match r with
    | Ok fields => from_valid payload = Some fields /\ severity fields <> [] /\ sqlstate (code fields)
    | Err _ => True
    end.
Proof.
  destruct (try_parse_loop_total (S (length payload)) (zlen payload) parts_default 0 payload) as [r Hr]; [lia|].
  exists r. split; [done|]. destruct r as [fields|]; [|done]. split; [by apply from_valid_try|].
  by apply try_parse_loop_wf in Hr.
Qed.

(** An error response of severity, code and message, and a position. *)
Example diagnostic_example :
  from_valid (bytes_of "SERROR" ++ [0] ++ bytes_of "C42601" ++ [0] ++ bytes_of "Msyntax" ++ [0]
              ++ bytes_of "P15" ++ [0; 0])
  = Some {| severity := bytes_of "ERROR"; code := bytes_of "42601"; message := bytes_of "syntax";
            context := set_number context_default NumberField.Position 15 |}.
Proof. reflexivity. Qed.

(** ** The ledger replays the group *)

(** What happens to the ledger of a group: an error response is planned and
    recorded, or the position of an unknown one is resolved. *)
Module Event.
Inductive Event := Recorded (position : Position.Position) (payload : list Z) | Resolved (position : Position.Position).
End Event.

Section replay.
Context {S E : Type} `{Span S E}.
Implicit Types o : OwnerState S.
Implicit Types a : Active S.

(** One event; [None] where the response is malformed or does not fit. *)
Definition ledger_event o (ev : Event.Event) : option (OwnerState S) :=
  match ev with
  | Event.Recorded position payload =>
      match plan_parse payload with
      | Some (Ok plan) =>
          match owner_record o position plan with (o, Ok ()) => Some o | (_, Err _) => None end
      | _ => None
      end
  | Event.Resolved position => r ← owner_resolve o position; Some r.1
  end.

Fixpoint ledger_run (evs : list Event.Event) o : option (OwnerState S) :=
  match evs with [] => Some o | ev :: evs => o ← ledger_event o ev; ledger_run evs o end.

(** What the events resolve a pending unknown position to: a resolution before
    the next unknown one. *)
Fixpoint resolved_by (evs : list Event.Event) : option Position.Position :=
  match evs with
  | [] => None
  | Event.Recorded p _ :: evs => if bool_decide (p = Position.Unknown) then None else resolved_by evs
  | Event.Resolved q :: _ => Some q
  end.

(** The diagnostics of the group, in order. *)
Fixpoint diagnostics (evs : list Event.Event) : list (Position.Position * list Z) :=
  match evs with
  | [] => []
  | Event.Recorded p payload :: evs =>
      (if bool_decide (p = Position.Unknown) then from_option id p (resolved_by evs) else p, payload)
        :: diagnostics evs
  | Event.Resolved _ :: evs => diagnostics evs
  end.

Definition entry_fields (e : Position.Position * list Z) : option (Position.Position * Fields) :=
  match try_parse e.2 with Some (Ok fields) => Some (e.1, fields) | _ => None end.

(** The records of an active ledger hold these entries. *)
Definition entry_of (payload : list Z) (r : Record_) (e : Position.Position * list Z) : Prop :=
  position_ r = e.1 /\ get_range payload (start r) (end_ r) = Some e.2 /\ is_Some (entry_fields e).

Definition ledger_holds (entries : list (Position.Position * list Z)) a : Prop :=
  exists recs, take (length recs) (slots (records a)) = Some <$> recs /\ len (records a) = zlen recs /\
    (forall i, unknown (records a) = Some i -> 0 <= i < zlen recs) /\
    Forall2 (entry_of (span_bytes (bytes a))) recs entries.

(** A pending unknown entry takes the position it is resolved to. *)
Definition settle (u : option Z) (q : option Position.Position) (entries : list (Position.Position * list Z)) :=
  match u, q with
  | Some i, Some q => alter (fun e => (q, e.2)) (Z.to_nat i) entries
  | _, _ => entries
  end.

Context `{!SpanLaws S E}.

Lemma mapM_id_Some {A} (l : list A) : mapM id (Some <$> l) = Some l.
Proof. apply mapM_Some. induction l; constructor; done. Qed.

Lemma settle_None q entries : settle None q entries = entries.
Proof. done. Qed.

Lemma settle_app u q entries e :
  (forall i, u = Some i -> 0 <= i < zlen entries) -> settle u q (entries ++ [e]) = settle u q entries ++ [e].
Proof.
  intros Hu. destruct u as [i|], q as [q|]; simpl; try done. specialize (Hu i eq_refl).
  apply alter_app_l. lia.
Qed.

Lemma settle_last q entries p payload :
  settle (Some (zlen entries)) q (entries ++ [(p, payload)]) = entries ++ [(from_option id p q, payload)].
Proof.
  destruct q as [q|]; simpl; [|done]. rewrite Nat2Z.id, alter_app_r_alt, Nat.sub_diag by lia. done.
Qed.

Lemma holds_resolve entries a q r :
  ledger_holds entries a -> records_resolve (records a) q = Some r ->
  ledger_holds (settle (unknown (records a)) (Some q) entries) {| records := r.1; bytes := bytes a |} /\
  unknown r.1 = None.
Proof.
  intros (recs & Hs & Hn & Hu & Hf) Hr. unfold records_resolve in Hr.
  destruct (unknown (records a)) as [i|] eqn:Hi.
  - specialize (Hu i eq_refl). destruct (mjoin _) as [record|] eqn:Hg; [|done]. simpl in Hr. injection Hr as <-.
    split; [|done]. simpl.
    assert (recs !! Z.to_nat i = Some record) as Hrec.
    { unfold get in Hg. destruct (Z.leb_spec 0 i); [|lia].
      assert (take (length recs) (slots (records a)) !! Z.to_nat i = slots (records a) !! Z.to_nat i) as Ht
        by (apply lookup_take_lt; lia).
      rewrite Hs, list_lookup_fmap in Ht. rewrite <- Ht in Hg. destruct (recs !! Z.to_nat i); [|done]. by simpl in Hg. }
    exists (<[Z.to_nat i := {| position_ := q; start := start record; end_ := end_ record |}]> recs). simpl.
    rewrite length_insert. split_and!; [|done|done|].
    + rewrite list_fmap_insert, <- Hs. by rewrite take_insert_lt by lia.
    + rewrite list_insert_alter. apply Forall2_alter; [done|]. intros x [p pl] Hx _ (Hp & Hg' & [e He]). simpl in *.
      assert (x = record) as -> by congruence. split_and!; [done|done|].
      unfold entry_fields in *. simpl in *. by by destruct (try_parse pl) as [[]|].
  - injection Hr as <-. split; [|done]. exists recs. simpl. by rewrite Hi.
Qed.

Lemma entry_of_app bytes more r e : entry_of bytes r e -> entry_of (bytes ++ more) r e.
Proof. intros (? & ? & ?). split_and!; [done|by apply get_range_app|done]. Qed.

Lemma plan_parse_Ok payload plan :
  plan_parse payload = Some (Ok plan) ->
  plan_payload plan = payload /\ exists fields, try_parse payload = Some (Ok fields).
Proof.
  unfold plan_parse. destruct (try_parse payload) as [[fields|]|]; [|done|done]. simpl.
  intros [= <-]. split; [done|]. by exists fields.
Qed.

Lemma holds_record entries a p payload plan capacity a' :
  ledger_holds entries a -> plan_parse payload = Some (Ok plan) ->
  active_record a p plan capacity = (a', Ok ()) ->
  ledger_holds (entries ++ [(p, payload)]) a' /\
  unknown (records a') = if bool_decide (p = Position.Unknown) then Some (zlen entries) else unknown (records a).
Proof.
  intros (recs & Hs & Hn & Hu & Hf) (Hp & fields & Hfields)%plan_parse_Ok Hr.
  unfold active_record in Hr. unfold vacancy in Hr. case_bool_decide as Hv; [simpl in Hr|done]. rewrite Hp in Hr.
  destruct (span_append (bytes a) payload) as [b|] eqn:Hb; [|done].
  injection Hr as <-. simpl.
  apply Forall2_length in Hf as Hlen.
  rewrite (as_u32_small (zlen (span_bytes (bytes a)))) by (pose proof (span_u32 (bytes a)); lia).
  rewrite (as_u32_small (zlen (span_bytes b))) by (pose proof (span_u32 b); lia).
  apply span_appended in Hb as Hb'. rewrite Hb'. split; [|by rewrite Hn, Hlen].
  set (r := {| position_ := p; start := zlen (span_bytes (bytes a));
               end_ := zlen (span_bytes (bytes a) ++ payload) |}).
  exists (recs ++ [r]). simpl. rewrite Hb', length_app, Hn. simpl. split_and!.
  - rewrite Nat2Z.id, fmap_app. simpl. rewrite <- Hs.
    destruct (get _ _) as [x|] eqn:Hg; [|done]. unfold get in Hg. rewrite Hn in Hg.
    destruct (0 <=? _); [|done]. rewrite Nat2Z.id in Hg.
    apply lookup_lt_Some in Hg as Hl. rewrite Nat.add_1_r.
    rewrite (take_S_r _ _ (Some r)) by (by rewrite list_lookup_insert_eq). by rewrite take_insert_ge by lia.
  - lia.
  - intros i. case_bool_decide; [intros [= <-]; lia|]. intros Hi%Hu. lia.
  - apply Forall2_app; [by eapply Forall2_impl; [exact Hf|intros; by apply entry_of_app]|].
    constructor; [|done]. split_and!; [done| |].
    + simpl. apply get_range_Some. rewrite length_app. split_and!; [lia|lia|lia|].
      unfold slice. rewrite Nat2Z.id, drop_app_length, take_ge; [done|lia].
    + unfold entry_fields. simpl. by rewrite Hfields.
Qed.

Lemma ledger_run_holds evs o a entries o' :
  active o = Some a -> ledger_holds entries a -> ledger_run evs o = Some o' ->
  exists a', active o' = Some a' /\
    ledger_holds (settle (unknown (records a)) (resolved_by evs) entries ++ diagnostics evs) a'.
Proof.
  revert o a entries. induction evs as [|ev evs IH]; intros o a entries Ha Hh Hr; cbn [ledger_run] in Hr.
  - injection Hr as <-. exists a. split; [done|]. simpl. rewrite app_nil_r. by destruct (unknown (records a)).
  - destruct (ledger_event o ev) as [o1|] eqn:He; [|done]. cbn in Hr. destruct ev as [p payload|q]; cbn in He.
    + destruct (plan_parse payload) as [[plan|]|] eqn:Hp; [|done|done].
      unfold owner_record in He. rewrite Ha in He. destruct (active_record a p plan _) as [a1 r] eqn:Hrec.
      destruct r as [[]|]; [|done]. injection He as <-.
      destruct (holds_record _ _ _ _ _ _ _ Hh Hp Hrec) as [Hh1 Hu1].
      edestruct IH as (a' & Ha' & Hh'); [|exact Hh1|exact Hr|]; [done|].
      exists a'. split; [done|]. rewrite Hu1 in Hh'. cbn [resolved_by diagnostics]. case_bool_decide as Hx.
      * subst p. rewrite settle_last, <- app_assoc in Hh'. by destruct (unknown (records a)).
      * destruct Hh as (recs & _ & _ & Hu & Hf%Forall2_length).
        rewrite settle_app, <- app_assoc in Hh'; [done|]. intros i Hi%Hu. lia.
    + unfold owner_resolve in He. rewrite Ha in He. destruct (records_resolve (records a) q) as [r|] eqn:Hq; [|done].
      cbn in He. injection He as <-. destruct (holds_resolve _ _ _ _ Hh Hq) as [Hh1 Hu1].
      edestruct IH as (a' & Ha' & Hh'); [|exact Hh1|exact Hr|]; [done|].
      cbn in Hh'. rewrite Hu1, settle_None in Hh'. by exists a'.
Qed.

Lemma holds_iter entries a :
  ledger_holds entries a ->
  ledger_iter (Some (records a, span_bytes (bytes a))) = mapM entry_fields entries.
Proof.
  intros (recs & Hs & Hn & _ & Hf). unfold ledger_iter, as_slice.
  rewrite Hn, Nat2Z.id, Hs, mapM_id_Some. simpl. clear Hs Hn.
  induction Hf as [|r [p payload] recs entries (Hp & Hg & [e He]) _ IH]; [done|].
  simpl. rewrite IH. unfold group_fields. rewrite Hg. simpl in *. unfold entry_fields in *. simpl in *.
  destruct (try_parse payload) as [[fields|]|] eqn:Ht; [|done|done]. apply from_valid_try in Ht. by rewrite Ht, Hp.
Qed.

Lemma holds_all entries a : ledger_holds entries a -> exists items, mapM entry_fields entries = Some items.
Proof.
  intros (recs & _ & _ & _ & Hf). apply mapM_is_Some.
  induction Hf as [|r e recs entries (_ & _ & He)]; constructor; done.
Qed.

Lemma holds_prepared limits r fresh : exists a, active (owner_prepare limits r fresh) = Some a /\ ledger_holds [] a /\
  unknown (records a) = None.
Proof.
  eexists. split; [done|]. split; [|done]. exists []. split_and!; [by simpl|done|done|constructor].
Qed.

(** C14. The diagnostics of a command group are the errors it saw: when the error
    responses and the resolutions of a group were taken one after another, the
    iterator over its snapshot gives one diagnostic for every error, in the order
    the server sent them, each with the fields the checked parser read from that
    response though all share one buffer, and each at its position: an unknown
    one at the position it was resolved to before another unknown error arrived.
    The snapshot ends the collection and gives the reservation back. *)
Theorem ledger_replays limits r fresh evs o :
  ledger_run evs (owner_prepare limits r fresh) = Some o ->
  exists items, mapM entry_fields (diagnostics evs) = Some items /\
    ledger_iter (snapshot o).2 = Some items /\ ledger_len (snapshot o).2 = zlen items /\
    active (snapshot o).1 = None /\ reserved (snapshot o).1 = false.
Proof.
  intros Hr. destruct (holds_prepared limits r fresh) as (a & Ha & Hh & Hu).
  destruct (ledger_run_holds _ _ _ _ _ Ha Hh Hr) as (a' & Ha' & Hh'). rewrite Hu in Hh'. simpl in Hh'.
  destruct (holds_all _ _ Hh') as [items Hi]. exists items.
  apply mapM_Some in Hi as Hlen. apply Forall2_length in Hlen. unfold snapshot. rewrite Ha'. cbn [fst snd].
  split; [done|]. rewrite <- Hi. rewrite <- (holds_iter _ _ Hh'). destruct Hh' as (recs & _ & Hn & _ & Hf%Forall2_length).
  rewrite Hn. destruct (Z.eqb_spec (zlen recs) 0) as [H0|H0]; split_and!; try done; simpl; try lia.
  assert (diagnostics evs = []) as E0 by (apply nil_length_inv; lia).
  assert (recs = []) as Er by (apply nil_length_inv; lia).
  unfold as_slice. by rewrite Hn, Er.
Qed.
End replay.

(** A buffer of 64 bytes. *)
#[local] Instance small_span : Span (list Z) () := {|
  span_bytes s := take 64 s;
  span_append s l := if (length s + length l <=? 64)%nat then Ok (s ++ l) else Err () |}.

#[local] Instance small_span_laws : SpanLaws (list Z) ().
Proof.
  split.
  - intros s l s'. cbn. destruct (Nat.leb_spec (length s + length l) 64); [|done]. intros [= <-].
    rewrite !take_ge; [done|lia|rewrite length_app; lia].
  - intros s. cbn. rewrite length_take. lia.
Qed.

Definition error_text (code : string) : list Z :=
  bytes_of "SERROR" ++ [0] ++ bytes_of "C" ++ bytes_of code ++ [0] ++ bytes_of "M" ++ [0; 0].

(** Two commands fail, the first at a place known only later. *)
Lemma ledger_replays_witness :
  exists o items,
    ledger_run [Event.Recorded Position.Unknown (error_text "42601"); Event.Resolved (Position.Command 3);
                Event.Recorded Position.Sync (error_text "40001")]
      (owner_prepare (2, 64) (records_new [None; None]) []) = Some o /\
    ledger_iter (snapshot o).2 = Some items /\
    (fun i => (i.1, code i.2)) <$> items
      = [(Position.Command 3, bytes_of "42601"); (Position.Sync, bytes_of "40001")].
Proof.
  eexists. edestruct (ledger_replays (2, 64) (records_new [None; None]) []
    [Event.Recorded Position.Unknown (error_text "42601"); Event.Resolved (Position.Command 3);
     Event.Recorded Position.Sync (error_text "40001")]) as (items & _ & Hi & _); [vm_compute; reflexivity|].
  exists items. split; [vm_compute; reflexivity|]. split; [exact Hi|].
  vm_compute in Hi. injection Hi as <-. vm_compute. reflexivity.
Defined.
