(* ===== verification/PgError.v ===== *)
(** * Driver errors and what they do to a connection

    Models [pg/src/error.rs] and its classification: which errors end a connection
    for good and which only this one, [Turn::fail] of [protocol/logic/failure.rs],
    and the reason a connection is closed with, [Failure::close_reason] of
    [port/replies/mod.rs]. What the errors of other libraries carry is the parameter
    [X]; their variants are spelled where this code tells them apart. *)
From S2P Require Import Prelude CoreQueue PgWire PgEncode PgScramParser PgScram PgDiagnostic.

(** [hold::Error], the retention of a payload in the buffer library. *)
Module Hold.
Inductive Resident {X : Type} := Capacity (x : X) | Layout (x : X) | Budget (x : X) | Retain (x : X) | Exhausted (x : X).
Inductive Copy {X : Type} := CopyBudget (x : X) | Allocation (x : X).
Inductive Account {X : Type} := Foreign | AccountExhausted (x : X) | AccountBudget (x : X) | AccountRetain (x : X).
Inductive Error {X : Type} :=
| Range (x : X)
| InResident (error : @Resident X)
| InCopy (error : @Copy X)
| InAccount (cause : @Account X).
Arguments Error : clear implicits.
End Hold.

(** [conn::Transmit]: a rejected submission names its cause. *)
Module Transmit.
Inductive SubmitCause := Full | IdentityExhausted.
Inductive Transmit {X : Type} := Rejected (cause : SubmitCause) | Io (x : X) | Invalid (x : X).
Arguments Transmit : clear implicits.
End Transmit.

(** [close::Reason]. *)
Module Close.
Inductive Capacity := Transport | IdentityExhausted | IngressRetention.
Inductive LocalOrigin := ApiRequest | Superseded | ResourceFailure.
Inductive Reason {X : Type} :=
| OnTransport
| OnCapacity (capacity : Capacity)
| Local (origin : LocalOrigin)
| Timeout (kind : X)
| OnProtocol
| Other (x : X).
Arguments Reason : clear implicits.
End Close.

(** [port::Retirement]. *)
Module Retirement.
Inductive Retirement := Handshaking | Shared | Reserved | Held | Finalizing | Draining.
End Retirement.

(** [order::Front]: the state of the order at the front of a reply lane. *)
Module Front.
Inductive Front := Open | Denied | Detached | Empty.
End Front.

#[global] Instance Front_eq_dec : EqDecision Front.Front.
Proof. solve_decision. Defined.

Module Error.
Inductive Error {X : Type} :=
| Input (x : X)
| Closed
| Retire (slot : Z) (phase : Retirement.Retirement)
| Connection (reason : Close.Reason X)
| Receive (x : X)
| Transmitted (transmit : Transmit.Transmit X)
| Timeout (kind : X)
| RequestTimeout (x : X)
| Auth (reason : Reason.Reason)
| UnsupportedAuthMethod (method : Z)
| Random (x : X)
| ServerFirst (reason : Reason.Reason)
| ServerFirstBase64 (error : Base64.Base64)
| ServerFinal (reason : Reason.Reason)
| ServerFinalBase64 (error : Base64.Base64)
| ScramIterations (actual minimum maximum : Z)
| Scram (error : ScramError.Error)
| ScramSlot (x : X)
| TransactionSlot (x : X)
| EgressSlot (x : X)
| Protocol (reason : Reason.Reason)
| NotificationDropOverflow
| DescriptionLtreeOidZero
| DescriptionRowCountTruncated (actual : Z)
| DescriptionRowCountNegative (actual : Z)
| DescriptionColumnCount (actual expected : Z)
| DescriptionDecoderOverflow (actual expected : Z)
| DescriptionFieldName (actual : Z)
| DescriptionFieldMetadata (actual : Z)
| DescriptionFieldFormat (actual : Z)
| DescriptionOid (actual expected : Z)
| DescriptionStringOid (actual : Z)
| DescriptionStringArrayOid (actual : Z)
| DescriptionLtreeOid (actual expected : Z)
| DescriptionUnvalidated (actual expected : Z)
| DescriptionRowTrailing (actual : Z)
| DescriptionParameterCountTruncated (actual : Z)
| DescriptionParameterCountNegative (actual : Z)
| DescriptionParameterCount (actual expected : Z)
| DescriptionParameterOidTruncated (index actual : Z)
| DescriptionParameterOid (index actual expected : Z)
| DescriptionParameterTrailing (actual : Z)
| DescriptionUnexpectedRows
| QueryMetadata
| UnexpectedStartupMessage (typ : Z)
| UnexpectedSaslMessage (typ : Z)
| UnexpectedEagerPrepareMessage (typ : Z)
| UnexpectedReadyMessage (typ : Z)
| NotFound
| Deadline (x : X)
| RequestEgress (x : X)
| RequestLoad (x : X)
| RequestReserve (x : X)
| RequestCapacity
| RequestDepthOverflow (depth : Z)
| GroupDisabled
| GroupOwnerCapacity
| GroupRecordCapacity
| GroupBytesCapacity
| GroupDiagnosticRecords (capacity : Z)
| GroupDiagnosticBytes (x : X)
| GroupOpen (depth : Z)
| RequestCloseDuringCopy (depth : Z)
| RequestOpenDuringCopy (depth : Z)
| CopyDuringPipeline (depth : Z)
| CopyAlreadyOpen (depth : Z)
| CopyFinishWithoutStart
| CopyFinishDuringPipeline (depth : Z)
| RequestQueue (queued : Z) (cause : Rejection.Rejection X)
| Request (error : EncError.Error)
| ReplyCapacity (x : X)
| ReplyFront (front : Front.Front)
| ReplyFootprint (declared actual : X)
| Reply (x : X)
| ResponseRetention (error : Hold.Error X)
| ResponseRetain (x : X)
| Allocation (x : X)
| StorageCapacity (x : X)
| StorageExhausted (x : X)
| Skipped
| CommitRolledBack
| Backpressure (inflight transactions cap : Z).
Arguments Error : clear implicits.
End Error.

(** The errors the SCRAM exchange raises. *)
Definition of_scram {X} (e : ScramFail.Error X) : Error.Error X :=
  match e with
  | ScramFail.Auth r => Error.Auth r
  | ScramFail.Protocol r => Error.Protocol r
  | ScramFail.ServerFirst r => Error.ServerFirst r
  | ScramFail.ServerFirstBase64 e => Error.ServerFirstBase64 e
  | ScramFail.ServerFinal r => Error.ServerFinal r
  | ScramFail.ServerFinalBase64 e => Error.ServerFinalBase64 e
  | ScramFail.ScramIterations a lo hi => Error.ScramIterations a lo hi
  | ScramFail.Scram e => Error.Scram e
  | ScramFail.Allocation x => Error.Allocation x
  end.

(** The errors the ledger of a group raises. *)
Definition of_group {X} (e : GroupError.GroupError X) : Error.Error X :=
  match e with
  | GroupError.GroupDiagnosticRecords n => Error.GroupDiagnosticRecords n
  | GroupError.GroupDiagnosticBytes x => Error.GroupDiagnosticBytes x
  end.

(** ** Classification *)

(** The class [Turn::fail] gives an error. *)
Definition fail_class {X} (e : Error.Error X) : Class.Class :=
  match e with
  | Error.Transmitted (Transmit.Rejected Transmit.IdentityExhausted) => Class.Permanent
  | Error.Scram ScramError.NoResources => Class.Transient
  | Error.Input _ | Error.Retire _ _ | Error.Scram _ | Error.Auth _ | Error.UnsupportedAuthMethod _
  | Error.ServerFirst _ | Error.ServerFirstBase64 _ | Error.ServerFinal _ | Error.ServerFinalBase64 _
  | Error.TransactionSlot _ | Error.EgressSlot _ | Error.ScramSlot _ | Error.ScramIterations _ _ _
  | Error.Protocol _ | Error.DescriptionLtreeOidZero | Error.DescriptionRowCountTruncated _
  | Error.DescriptionRowCountNegative _ | Error.DescriptionColumnCount _ _ | Error.DescriptionDecoderOverflow _ _
  | Error.DescriptionFieldName _ | Error.DescriptionFieldMetadata _ | Error.DescriptionFieldFormat _
  | Error.DescriptionOid _ _ | Error.DescriptionStringOid _ | Error.DescriptionStringArrayOid _
  | Error.DescriptionLtreeOid _ _ | Error.DescriptionUnvalidated _ _ | Error.DescriptionRowTrailing _
  | Error.DescriptionParameterCountTruncated _ | Error.DescriptionParameterCountNegative _
  | Error.DescriptionParameterCount _ _ | Error.DescriptionParameterOidTruncated _ _
  | Error.DescriptionParameterOid _ _ _ | Error.DescriptionParameterTrailing _ | Error.DescriptionUnexpectedRows
  | Error.QueryMetadata | Error.UnexpectedStartupMessage _ | Error.UnexpectedSaslMessage _
  | Error.UnexpectedEagerPrepareMessage _ | Error.UnexpectedReadyMessage _ | Error.Request _
  | Error.CopyFinishWithoutStart | Error.CopyFinishDuringPipeline _ | Error.ReplyCapacity _
  | Error.GroupDiagnosticRecords _ | Error.GroupDiagnosticBytes _ | Error.ReplyFront _ | Error.ReplyFootprint _ _
  | Error.ResponseRetention (Hold.Range _ | Hold.InResident (Hold.Capacity _ | Hold.Layout _) | Hold.InAccount Hold.Foreign)
  | Error.StorageCapacity _ => Class.Permanent
  | Error.Closed | Error.Connection _ | Error.Receive _ | Error.Transmitted _ | Error.Timeout _
  | Error.RequestTimeout _ | Error.Random _ | Error.NotFound | Error.Deadline _ | Error.RequestEgress _
  | Error.RequestLoad _ | Error.RequestReserve _ | Error.RequestCapacity | Error.RequestDepthOverflow _
  | Error.GroupOpen _ | Error.GroupDisabled | Error.GroupOwnerCapacity | Error.GroupRecordCapacity
  | Error.GroupBytesCapacity | Error.RequestCloseDuringCopy _ | Error.RequestOpenDuringCopy _
  | Error.CopyDuringPipeline _ | Error.CopyAlreadyOpen _ | Error.RequestQueue _ _ | Error.Reply _
  | Error.ResponseRetention _ | Error.ResponseRetain _ | Error.Allocation _ | Error.StorageExhausted _
  | Error.NotificationDropOverflow | Error.Skipped | Error.CommitRolledBack | Error.Backpressure _ _ _ =>
      Class.Transient
  end.

(** [Failure::close_reason]. *)
Definition close_reason {X} (e : Error.Error X) : Close.Reason X :=
  match e with
  | Error.Connection reason => reason
  | Error.Receive _ => Close.OnTransport
  | Error.Transmitted (Transmit.Rejected Transmit.Full) => Close.OnCapacity Close.Transport
  | Error.Transmitted (Transmit.Rejected Transmit.IdentityExhausted) => Close.OnCapacity Close.IdentityExhausted
  | Error.Transmitted (Transmit.Io _ | Transmit.Invalid _) => Close.OnTransport
  | Error.Closed => Close.Local Close.ApiRequest
  | Error.Timeout kind => Close.Timeout kind
  | Error.Protocol _ | Error.Auth _ | Error.UnsupportedAuthMethod _ | Error.ServerFirst _ | Error.ServerFirstBase64 _
  | Error.ServerFinal _ | Error.ServerFinalBase64 _ | Error.ScramIterations _ _ _ | Error.Scram _
  | Error.UnexpectedStartupMessage _ | Error.UnexpectedSaslMessage _ | Error.UnexpectedEagerPrepareMessage _
  | Error.UnexpectedReadyMessage _ | Error.ReplyFront _ => Close.OnProtocol
  | Error.CopyFinishWithoutStart | Error.CopyFinishDuringPipeline _ | Error.ReplyCapacity _
  | Error.GroupDiagnosticRecords _ | Error.GroupDiagnosticBytes _ => Close.OnCapacity Close.IngressRetention
  | Error.Skipped => Close.Local Close.Superseded
  | _ => Close.Local Close.ResourceFailure
  end.

(** [port::Disposition]. *)
Module Disposition.
Inductive Disposition := Reconnect | Permanent.
End Disposition.

(** The mode [Session::transmit_failed] closes a connection in. *)
Definition transmit_mode {X} (failure : Transmit.Transmit X) : Disposition.Disposition :=
  match close_reason (Error.Transmitted failure) with
  | Close.OnCapacity Close.IdentityExhausted => Disposition.Permanent
  | _ => Disposition.Reconnect
  end.

(** ** Lemmas *)

(** A connection closed for breaking the protocol is never worth another try,
    except when the server lacks resources for the exchange. *)
Lemma protocol_permanent {X} (e : Error.Error X) :
  close_reason e = Close.OnProtocol ->
  match e with Error.Connection _ => True | Error.Scram ScramError.NoResources => True | _ => fail_class e = Class.Permanent end.
Proof.
  destruct e; simpl; try done; repeat split_match; done.
Qed.

(** Both places that judge a failed transmission agree. *)
Lemma transmit_modes {X} (t : Transmit.Transmit X) :
  transmit_mode t = Disposition.Permanent <-> fail_class (Error.Transmitted t) = Class.Permanent.
Proof. by destruct t as [[]| |]. Qed.
