(* ===== verification/PgDescribe.v ===== *)
(** * Descriptions of prepared queries

    Models [pg/src/schema/desc]: the type identifiers of the server, the checks a
    RowDescription and a ParameterDescription have to pass before a query may be run,
    the formats its columns are asked in, and the metadata of a query and of a set of
    them ([schema/mod.rs], [schema/groups/mod.rs]). A query that passed is bound and
    read at these types without further tests. *)
From S2P Require Import Prelude PgWire PgEncode PgRow PgError.

(** ** Types of the server *)

Module Oid.
Definition BOOL : Z := 16.
Definition BYTEA : Z := 17.
Definition NAME : Z := 19.
Definition INT8 : Z := 20.
Definition INT2 : Z := 21.
Definition INT4 : Z := 23.
Definition TEXT : Z := 25.
Definition FLOAT4 : Z := 700.
Definition FLOAT8 : Z := 701.
Definition BPCHAR : Z := 1042.
Definition VARCHAR : Z := 1043.
Definition DATE : Z := 1082.
Definition TIMESTAMP : Z := 1114.
Definition NAME_ARRAY : Z := 1003.
Definition INT4_ARRAY : Z := 1007.
Definition TEXT_ARRAY : Z := 1009.
Definition BPCHAR_ARRAY : Z := 1014.
Definition VARCHAR_ARRAY : Z := 1015.
Definition INT8_ARRAY : Z := 1016.
Definition UUID : Z := 2950.
Definition JSONB : Z := 3802.
End Oid.

(** [Registry]: what the server told of types without a fixed identifier. *)
Record Registry := { ltree : option Z }.

Definition registry_default : Registry := {| ltree := None |}.

Definition with_ltree (oid : Z) : Registry := {| ltree := Some oid |}.

Definition DYNAMIC_LTREE : Z := 1.

Module Target.
Inductive Target := Exact (oid : Z) | String | StringArray | Ltree.
End Target.

(** The types a row is validated at: [Validate::validate] of the scalars. *)
Definition leaf_target (l : Leaf.Leaf) : Target.Target :=
  match l with
  | Leaf.Bool => Target.Exact Oid.BOOL
  | Leaf.I16 => Target.Exact Oid.INT2
  | Leaf.I32 => Target.Exact Oid.INT4
  | Leaf.I64 => Target.Exact Oid.INT8
  | Leaf.F32 => Target.Exact Oid.FLOAT4
  | Leaf.F64 => Target.Exact Oid.FLOAT8
  | Leaf.Bytes => Target.Exact Oid.BYTEA
  | Leaf.Uuid => Target.Exact Oid.UUID
  | Leaf.Timestamp => Target.Exact Oid.TIMESTAMP
  | Leaf.Date => Target.Exact Oid.DATE
  | Leaf.Jsonb => Target.Exact Oid.JSONB
  | Leaf.String | Leaf.Text => Target.String
  | Leaf.Ltree => Target.Ltree
  end.

Section describe.
Context {X : Type}.
Notation Error := (Error.Error X) (only parsing).

(** ** Reading a RowDescription *)

Record Types := { types_bytes : list Z; types_expected : Z; types_index : Z; types_registry : Registry }.

(** [Types::new]. *)
Definition types_new (payload : list Z) (expected : Z) (registry : Registry) : result Error Types :=
  match payload with
  | count0 :: count1 :: bytes =>
      let signed := as_i16 (from_be [count0; count1]) in
      if signed <? 0 then Err (Error.DescriptionRowCountNegative signed)
      else if negb (signed =? expected) then Err (Error.DescriptionColumnCount signed expected)
      else Ok {| types_bytes := bytes; types_expected := signed; types_index := 0; types_registry := registry |}
  | _ => Err (Error.DescriptionRowCountTruncated (zlen payload))
  end.

(** [Types::next_oid]: behind the name of a column eighteen bytes describe it. *)
Definition next_oid (t : Types) : result Error (Z * Types) :=
  if types_index t =? types_expected t then
    Err (Error.DescriptionDecoderOverflow (types_index t + 1) (types_expected t))
  else
    match split_byte (types_bytes t) 0 with
    | None => Err (Error.DescriptionFieldName (zlen (types_bytes t)))
    | Some (_, metadata) =>
        match split_array 18 metadata with
        | None => Err (Error.DescriptionFieldMetadata (zlen metadata))
        | Some (fixed, tail) =>
            let oid := from_be (slice fixed 6 10) in
            let format := as_i16 (from_be (slice fixed 16 18)) in
            if negb (format =? 0) then Err (Error.DescriptionFieldFormat format)
            else Ok (oid, {| types_bytes := tail; types_expected := types_expected t; types_index := types_index t + 1;
                             types_registry := types_registry t |})
        end
    end.

Definition is_string (oid : Z) : bool :=
  (oid =? Oid.NAME) || (oid =? Oid.TEXT) || (oid =? Oid.BPCHAR) || (oid =? Oid.VARCHAR).

Definition is_string_array (oid : Z) : bool :=
  (oid =? Oid.NAME_ARRAY) || (oid =? Oid.TEXT_ARRAY) || (oid =? Oid.BPCHAR_ARRAY) || (oid =? Oid.VARCHAR_ARRAY).

(** [Types::match_type]. *)
Definition match_type (target : Target.Target) (t : Types) : result Error Types :=
  r ← next_oid t;
  let '(actual, t) := r in
  match target with
  | Target.Exact expected => if actual =? expected then Ok t else Err (Error.DescriptionOid actual expected)
  | Target.String => if is_string actual then Ok t else Err (Error.DescriptionStringOid actual)
  | Target.StringArray => if is_string_array actual then Ok t else Err (Error.DescriptionStringArrayOid actual)
  | Target.Ltree =>
      match ltree (types_registry t) with
      | Some expected => if expected =? actual then Ok t else Err (Error.DescriptionLtreeOid actual expected)
      | None => Err (Error.Protocol Reason.LtreeMissing)
      end
  end.

(** [Types::finish]. *)
Definition types_finish (t : Types) : result Error () :=
  if negb (types_index t =? types_expected t) then
    Err (Error.DescriptionUnvalidated (types_index t) (types_expected t))
  else
    match types_bytes t with
    | [] => Ok ()
    | bytes => Err (Error.DescriptionRowTrailing (zlen bytes))
    end.

(** [Validate::validate]. *)
Fixpoint validate_ty (ty : Ty.Ty) (t : Types) : result Error Types :=
  match ty with
  | Ty.Unit => Ok t
  | Ty.Leaf l | Ty.Option l => match_type (leaf_target l) t
  | Ty.VecI32 => match_type (Target.Exact Oid.INT4_ARRAY) t
  | Ty.VecI64 => match_type (Target.Exact Oid.INT8_ARRAY) t
  | Ty.VecString => match_type Target.StringArray t
  | Ty.Pair a b => t ← validate_ty a t; validate_ty b t
  | Ty.Triple a b c => t ← validate_ty a t; t ← validate_ty b t; validate_ty c t
  | Ty.Quad a b c d => t ← validate_ty a t; t ← validate_ty b t; t ← validate_ty c t; validate_ty d t
  end.

(** [Types::ltree_oid]. *)
Definition ltree_oid (payload : list Z) : result Error Z :=
  t ← types_new payload 1 registry_default;
  r ← next_oid t;
  let '(oid, t) := r in
  types_finish t;;
  if oid =? 0 then Err Error.DescriptionLtreeOidZero else Ok oid.

(** [Types::parameters]: the loop over the expected identifiers, and the check. *)
Fixpoint parameters_loop (index : Z) (expected : list Z) (bytes : list Z) : result Error (list Z) :=
  match expected with
  | [] => Ok bytes
  | want :: expected =>
      match split_array 4 bytes with
      | None => Err (Error.DescriptionParameterOidTruncated index (zlen bytes))
      | Some (oid, tail) =>
          if from_be oid =? want then parameters_loop (index + 1) expected tail
          else Err (Error.DescriptionParameterOid index (from_be oid) want)
      end
  end.

Definition parameters (payload expected : list Z) : result Error () :=
  match payload with
  | count0 :: count1 :: tail =>
      let signed := as_i16 (from_be [count0; count1]) in
      if signed <? 0 then Err (Error.DescriptionParameterCountNegative signed)
      else if negb (signed =? zlen expected) then Err (Error.DescriptionParameterCount signed (zlen expected))
      else
        bytes ← parameters_loop 0 expected tail;
        match bytes with
        | [] => Ok ()
        | _ => Err (Error.DescriptionParameterTrailing (zlen bytes))
        end
  | _ => Err (Error.DescriptionParameterCountTruncated (zlen payload))
  end.
End describe.

(** ** Formats *)

(** [Validate::DYNAMIC_TYPES] and [Validate::FORMAT]. *)
Definition leaf_dynamic (l : Leaf.Leaf) : Z := match l with Leaf.Ltree => DYNAMIC_LTREE | _ => 0 end.

Definition leaf_format (l : Leaf.Leaf) : Z := match l with Leaf.Ltree => 0 | _ => 1 end.

Fixpoint dynamic_types (ty : Ty.Ty) : Z :=
  match ty with
  | Ty.Leaf l | Ty.Option l => leaf_dynamic l
  | Ty.Unit | Ty.VecI32 | Ty.VecI64 | Ty.VecString => 0
  | Ty.Pair a b => Z.lor (dynamic_types a) (dynamic_types b)
  | Ty.Triple a b c => Z.lor (Z.lor (dynamic_types a) (dynamic_types b)) (dynamic_types c)
  | Ty.Quad a b c d =>
      Z.lor (Z.lor (Z.lor (dynamic_types a) (dynamic_types b)) (dynamic_types c)) (dynamic_types d)
  end.

Record Formats := { format_values : list Z; format_columns : Z; format_index : Z }.

Definition formats_new (values : list Z) (columns : Z) : Formats :=
  {| format_values := values; format_columns := columns; format_index := 0 |}.

(** [Formats::finish] and [Formats::take]; [None] is an index beyond the values. *)
Definition formats_finish (f : Formats) : result EncError.Error () :=
  if format_index f =? format_columns f then Ok ()
  else Err (EncError.ResultValueCount (format_columns f) (format_index f)).

Definition formats_take (expected : Z) (f : Formats) : option (result EncError.Error Formats) :=
  let index := format_index f in
  if format_columns f <=? index then Some (Err (EncError.ResultValueCount (format_columns f) (index + 1)))
  else
    actual ← match format_values f with
             | [] => Some 0
             | [format] => Some format
             | values => get values index
             end;
    Some (if negb (actual =? expected) then Err (EncError.ResultEncoding index expected actual)
          else Ok {| format_values := format_values f; format_columns := format_columns f; format_index := index + 1 |}).

(** [f] on the formats another left, if it left any. *)
Definition then_formats (r : option (result EncError.Error Formats)) (f : Formats -> option (result EncError.Error Formats))
    : option (result EncError.Error Formats) :=
  r ← r; match r with Ok formats => f formats | Err e => Some (Err e) end.

(** [Validate::formats]. *)
Fixpoint formats_ty (ty : Ty.Ty) (f : Formats) : option (result EncError.Error Formats) :=
  match ty with
  | Ty.Unit => Some (Ok f)
  | Ty.Leaf l | Ty.Option l => formats_take (leaf_format l) f
  | Ty.VecI32 | Ty.VecI64 | Ty.VecString => formats_take 1 f
  | Ty.Pair a b => then_formats (formats_ty a f) (formats_ty b)
  | Ty.Triple a b c => then_formats (then_formats (formats_ty a f) (formats_ty b)) (formats_ty c)
  | Ty.Quad a b c d =>
      then_formats (then_formats (then_formats (formats_ty a f) (formats_ty b)) (formats_ty c)) (formats_ty d)
  end.

(** ** Queries *)

(** [TypedQuery]: its constants, its row and the shape of its result; [query_id] is
    its type. *)
Record TypedQuery := {
  query_id : Z;
  query_row : Ty.Ty;
  query_kind : ResultKind.Kind;
  query_scalar : bool;
  statement_name : list Z;
  query_sql : list Z;
  query_oids : list Z;
  n_params : Z;
  n_result_cols : Z;
  param_format_codes : list Z;
  result_format_codes : list Z }.

Record QueryMeta := {
  meta_name : list Z;
  meta_sql : list Z;
  param_oids : list Z;
  result_columns : Z;
  meta_result : ResultKind.Kind;
  meta_dynamic : Z }.

#[export] Instance kind_eq_dec : EqDecision ResultKind.Kind.
Proof. solve_decision. Defined.

#[export] Instance meta_eq_dec : EqDecision QueryMeta.
Proof. solve_decision. Defined.

Definition LTREE_PROBE_NAME : list Z := bytes_of "__cartel_type_ltree".

Module FormatKind.
Inductive FormatKind := Parameters | Results.
End FormatKind.

Definition is_format_count (actual values : Z) : bool := (actual <=? 1) || (actual =? values).

(** [nul]: the position of a NUL byte. *)
Definition nul (value : list Z) : option Z := position (fun b => b =? 0) value.

(** [QueryMeta::check_codes]. *)
Definition check_codes (formats : list Z) (expected : Z) (kind : FormatKind.FormatKind) : result EncError.Error () :=
  if negb (is_format_count (zlen formats) expected) then
    Err (match kind with
         | FormatKind.Parameters => EncError.ParameterFormatCount (zlen formats) expected
         | FormatKind.Results => EncError.ResultFormatCount (zlen formats) expected
         end)
  else
    match position (fun actual => 1 <? actual) formats with
    | Some index =>
        let actual := default 0 (get formats index) in
        Err (match kind with
             | FormatKind.Parameters => EncError.ParameterFormat index actual
             | FormatKind.Results => EncError.ResultFormat index actual
             end)
    | None => Ok ()
    end.

Definition is_rows (k : ResultKind.Kind) : bool := match k with ResultKind.Rows => true | ResultKind.Command => false end.

(** [QueryMeta::check]. *)
Definition meta_check (q : TypedQuery) : result EncError.Error () :=
  if negb (Bool.eqb (is_rows (query_kind q)) (negb (n_result_cols q =? 0)))
     || (query_scalar q && negb (n_result_cols q =? 1))
  then Err (EncError.ResultShape (query_kind q) (n_result_cols q))
  else if list_eqb (statement_name q) [] then Err EncError.StatementNameEmpty
  else if list_eqb (statement_name q) LTREE_PROBE_NAME then Err EncError.StatementNameReserved
  else
    match nul (statement_name q) with
    | Some position => Err (EncError.StatementNameNul position)
    | None =>
        match nul (query_sql q) with
        | Some position => Err (EncError.StatementSqlNul position)
        | None =>
            if 32767 <? n_result_cols q then Err (EncError.ResultCount (n_result_cols q))
            else if (n_params q <? 0) || negb (n_params q =? zlen (query_oids q)) then
              Err (EncError.ParameterCount (n_params q) (zlen (query_oids q)))
            else
              check_codes (param_format_codes q) (n_params q) FormatKind.Parameters;;
              check_codes (result_format_codes q) (n_result_cols q) FormatKind.Results
        end
    end.

Definition meta_of (q : TypedQuery) : QueryMeta :=
  {| meta_name := statement_name q; meta_sql := query_sql q; param_oids := query_oids q;
     result_columns := n_result_cols q; meta_result := query_kind q; meta_dynamic := dynamic_types (query_row q) |}.

(** [QueryMeta::try_new]. *)
Definition meta_try_new (q : TypedQuery) : result EncError.Error QueryMeta := meta_check q;; Ok (meta_of q).

(** [QueryMeta::validate]. *)
Definition meta_validate (q : TypedQuery) : option (result EncError.Error ()) :=
  match meta_check q with
  | Err e => Some (Err e)
  | Ok () =>
      r ← formats_ty (query_row q) (formats_new (result_format_codes q) (n_result_cols q));
      Some (formats ← r; formats_finish formats)
  end.

(** [QueryMeta::matches]. *)
Definition meta_matches (m : QueryMeta) (q : TypedQuery) : bool := bool_decide (m = meta_of q).

(** [Types::query]. *)
Definition types_query {X} (q : TypedQuery) (payload : list Z) (registry : Registry) : result (Error.Error X) () :=
  if negb (is_rows (query_kind q)) then Err Error.DescriptionUnexpectedRows
  else
    t ← types_new payload (n_result_cols q) registry;
    t ← validate_ty (query_row q) t;
    types_finish t.

(** ** Groups *)

(** [QueryGroup]: its queries by type, [Items], and by metadata. *)
Record QueryGroup := { items : list TypedQuery; queries : list QueryMeta }.

(** [Items::matches] and [List::matches]. *)
Fixpoint items_match (items : list TypedQuery) (ms : list QueryMeta) : bool :=
  match items, ms with
  | [], [] => true
  | q :: items, m :: ms => meta_matches m q && items_match items ms
  | _, _ => false
  end.

Fixpoint groups_match (gs : list QueryGroup) (groups : list (list QueryMeta)) : bool :=
  match gs, groups with
  | [], [] => true
  | g :: gs, head :: tail => bool_decide (head = queries g) && items_match (items g) head && groups_match gs tail
  | _, _ => false
  end.

(** [List::contains]. *)
Definition groups_contain (gs : list QueryGroup) (q : TypedQuery) : bool :=
  existsb (fun g => existsb (fun head => query_id head =? query_id q) (items g)) gs.

(** [List::validate]. *)
Definition groups_validate {X} (gs : list QueryGroup) (group query : nat) (payload : list Z) (registry : Registry)
    : result (Error.Error X) () :=
  match (g ← gs !! group; items g !! query) with
  | Some q => types_query q payload registry
  | None => Err Error.QueryMetadata
  end.

(** ** What a description says *)

(** A column of a RowDescription: its name, six bytes of its table, its type and six
    bytes more; its format is text, as a statement is described. *)
Record Column := { col_name : list Z; col_table : list Z; col_oid : Z; col_size : list Z }.

Definition col_fixed (c : Column) : list Z := col_table c ++ to_be 4 (col_oid c) ++ col_size c ++ [0; 0].

Definition column (c : Column) : list Z := col_name c ++ 0 :: col_fixed c.

Definition column_ok (c : Column) : Prop :=
  Forall (fun b => b <> 0) (col_name c) /\ zlen (col_table c) = 6 /\ zlen (col_size c) = 6 /\ 0 <= col_oid c <= u32_max.

Definition row_description (cols : list Column) : list Z := to_be 2 (zlen cols) ++ concat (column <$> cols).

Definition parameter_description (oids : list Z) : list Z := to_be 2 (zlen oids) ++ concat (to_be 4 <$> oids).

(** The identifiers a target admits. *)
Definition accepts (registry : Registry) (target : Target.Target) (oid : Z) : Prop :=
  match target with
  | Target.Exact expected => oid = expected
  | Target.String => oid ∈ [Oid.NAME; Oid.TEXT; Oid.BPCHAR; Oid.VARCHAR]
  | Target.StringArray => oid ∈ [Oid.NAME_ARRAY; Oid.TEXT_ARRAY; Oid.BPCHAR_ARRAY; Oid.VARCHAR_ARRAY]
  | Target.Ltree => ltree registry = Some oid
  end.

(** The columns a row type stands for. *)
Fixpoint targets (ty : Ty.Ty) : list Target.Target :=
  match ty with
  | Ty.Unit => []
  | Ty.Leaf l | Ty.Option l => [leaf_target l]
  | Ty.VecI32 => [Target.Exact Oid.INT4_ARRAY]
  | Ty.VecI64 => [Target.Exact Oid.INT8_ARRAY]
  | Ty.VecString => [Target.StringArray]
  | Ty.Pair a b => targets a ++ targets b
  | Ty.Triple a b c => targets a ++ targets b ++ targets c
  | Ty.Quad a b c d => targets a ++ targets b ++ targets c ++ targets d
  end.

Section exact.
Context {X : Type}.
Implicit Types t : Types.
#[local] Arguments to_be : simpl never.

(** From [t] to [t'] these columns were read. *)
Definition took (t : Types) (cols : list Column) (t' : Types) : Prop :=
  types_bytes t = concat (column <$> cols) ++ types_bytes t' /\ types_expected t' = types_expected t /\
  types_registry t' = types_registry t /\ types_index t' = types_index t + zlen cols /\
  types_index t' <= types_expected t /\ Forall column_ok cols.

Lemma took_nil t : types_index t <= types_expected t -> took t [] t.
Proof. intros H. split_and!; try done. simpl. lia. Qed.

Lemma took_app t c1 t1 c2 t2 : took t c1 t1 -> took t1 c2 t2 -> took t (c1 ++ c2) t2.
Proof.
  intros (A1 & A2 & A3 & A4 & A5 & A6) (B1 & B2 & B3 & B4 & B5 & B6).
  split_and!; try congruence.
  - by rewrite fmap_app, concat_app, <- app_assoc, <- B1.
  - rewrite length_app. lia.
  - by apply Forall_app.
Qed.

Lemma took_split t c1 c2 t2 :
  types_index t <= types_expected t -> took t (c1 ++ c2) t2 -> exists t1, took t c1 t1 /\ took t1 c2 t2.
Proof.
  intros Hi (A1 & A2 & A3 & A4 & A5 & A6). rewrite length_app in A4. apply Forall_app in A6 as [A6 A7].
  exists {| types_bytes := concat (column <$> c2) ++ types_bytes t2; types_expected := types_expected t;
            types_index := types_index t + zlen c1; types_registry := types_registry t |}.
  split; split_and!; cbn; try done; try lia. by rewrite A1, fmap_app, concat_app, <- app_assoc.
Qed.

Lemma from_be_4 l : zlen l = 4 -> Forall is_byte l -> 0 <= from_be l <= u32_max.
Proof. intros Hl Hb. apply from_be_range in Hb. rewrite Hl in Hb. change (256 ^ 4) with 4294967296 in Hb. lia. Qed.

Lemma col_fixed_ok c : column_ok c ->
  zlen (col_fixed c) = 18 /\ slice (col_fixed c) 6 10 = to_be 4 (col_oid c) /\ slice (col_fixed c) 16 18 = [0; 0].
Proof.
  intros (_ & Ht & Hs & _). unfold col_fixed. split; [rewrite !length_app, length_to_be; cbn [length]; lia|]. split.
  - etransitivity; [|apply (slice_middle (col_table c) _ (col_size c ++ [0; 0]))]. rewrite length_to_be. f_equal; lia.
  - etransitivity; [|apply (slice_middle (col_table c ++ to_be 4 (col_oid c) ++ col_size c) _ [])].
    rewrite app_nil_r, <- !app_assoc. f_equal; rewrite !length_app, length_to_be; cbn [length]; lia.
Qed.

(** One column. *)
Lemma next_oid_spec t oid t' :
  Forall is_byte (types_bytes t) -> types_index t <= types_expected t ->
  next_oid (X := X) t = Ok (oid, t') <-> exists c, took t [c] t' /\ col_oid c = oid.
Proof.
  intros Hb Hi. unfold next_oid. split.
  - destruct (Z.eqb_spec (types_index t) (types_expected t)); [done|].
    destruct (split_byte (types_bytes t) 0) as [[name metadata]|] eqn:Es; [|done].
    destruct (split_array 18 metadata) as [[fixed tail]|] eqn:Ea; [|done].
    destruct (Z.eqb_spec (as_i16 (from_be (slice fixed 16 18))) 0) as [E0|]; [|done]. cbn [negb]. intros [= <- <-].
    apply split_byte_Some in Es as [Es Hn]. apply split_array_Some in Ea as [Ea Hl]; [|done]. subst metadata.
    rewrite Es in Hb. apply Forall_app in Hb as [_ Hb]. apply Forall_cons in Hb as [_ Hb]. apply Forall_app in Hb as [Hb _].
    assert (fixed = slice fixed 0 6 ++ slice fixed 6 10 ++ slice fixed 10 16 ++ slice fixed 16 18) as Ef.
    { rewrite <- !slice_split by lia. rewrite <- Hl. by rewrite slice_all. }
    assert (forall a b, Forall is_byte (slice fixed a b)) as Hs by (intros; by apply Forall_take, Forall_drop).
    assert (forall a b, 0 <= a <= b -> b <= 18 -> length (slice fixed a b) = Z.to_nat (b - a)) as Hlen.
    { intros a b ? ?. pose proof (length_slice fixed a b ltac:(lia) ltac:(lia) ltac:(lia)). lia. }
    assert (to_be 4 (from_be (slice fixed 6 10)) = slice fixed 6 10) as E4.
    { rewrite <- (to_be_from_be (slice fixed 6 10)) at 2 by done. by rewrite Hlen. }
    assert (slice fixed 16 18 = [0; 0]) as E2.
    { rewrite <- (to_be_from_be (slice fixed 16 18)), Hlen by done. pose proof (from_be_range _ (Hs 16 18)) as R.
      rewrite Hlen in R by lia. change (256 ^ Z.of_nat (Z.to_nat (18 - 16))) with 65536 in R.
      assert (from_be (slice fixed 16 18) = 0) as ->; [|done].
      revert E0. unfold as_i16, as_signed. rewrite Z.mod_small by lia. destruct (_ <? _); lia. }
    exists {| col_name := name; col_table := slice fixed 0 6; col_oid := from_be (slice fixed 6 10);
              col_size := slice fixed 10 16 |}. split; [|done]. split_and!; cbn; try done; try lia.
    + rewrite app_nil_r, Es. unfold column, col_fixed. cbn. rewrite E4, <- E2, <- app_assoc. cbn. by rewrite <- Ef.
    + constructor; [|constructor]. split_and!; cbn; [done|rewrite length_slice; lia|rewrite length_slice; lia| |].
      all: apply from_be_4; [rewrite length_slice; lia|done].
  - intros (c & (A1 & A2 & A3 & A4 & A5 & A6) & <-). cbn in A1, A4. rewrite app_nil_r in A1.
    destruct (Z.eqb_spec (types_index t) (types_expected t)); [lia|].
    apply Forall_cons in A6 as [Hc _]. rewrite A1. unfold column. rewrite <- app_assoc. cbn [app].
    destruct (col_fixed_ok c Hc) as (L & E1 & E2). rewrite split_byte_app, split_array_app, E1, E2 by (done || apply Hc).
    destruct Hc as (_ & _ & _ & Ho).
    change (as_i16 (from_be [0; 0])) with 0. cbn [Z.eqb negb]. rewrite from_be_to_be, Z.mod_small by (cbn; lia).
    do 2 f_equal. destruct t'; cbn in *; subst. reflexivity.
Qed.

Lemma took_bytes t cols t' : took t cols t' -> Forall is_byte (types_bytes t) -> Forall is_byte (types_bytes t').
Proof. intros (A1 & _) H. rewrite A1 in H. by apply Forall_app in H as [_ H]. Qed.

Lemma took_index t cols t' : took t cols t' -> types_index t' <= types_expected t'.
Proof. intros (_ & A2 & _ & _ & A5 & _). lia. Qed.

Lemma is_string_spec oid : is_string oid = true <-> oid ∈ [Oid.NAME; Oid.TEXT; Oid.BPCHAR; Oid.VARCHAR].
Proof. unfold is_string. rewrite !orb_true_iff, !Z.eqb_eq, !elem_of_cons, elem_of_nil. tauto. Qed.

Lemma is_string_array_spec oid :
  is_string_array oid = true <-> oid ∈ [Oid.NAME_ARRAY; Oid.TEXT_ARRAY; Oid.BPCHAR_ARRAY; Oid.VARCHAR_ARRAY].
Proof. unfold is_string_array. rewrite !orb_true_iff, !Z.eqb_eq, !elem_of_cons, elem_of_nil. tauto. Qed.

(** One column of a type that is expected. *)
Lemma match_type_spec target t t' :
  Forall is_byte (types_bytes t) -> types_index t <= types_expected t ->
  match_type (X := X) target t = Ok t' <->
  exists c, took t [c] t' /\ accepts (types_registry t) target (col_oid c).
Proof.
  intros Hb Hi. unfold match_type. split.
  - destruct (next_oid t) as [[oid t1]|e] eqn:E; [|done]. cbn [mbind result_bind].
    apply next_oid_spec in E as (c & Hc & <-); [|done|done]. pose proof Hc as (_ & _ & Hreg & _).
    intros H. assert (t1 = t' /\ accepts (types_registry t) target (col_oid c)) as [<- Ha]; [|by exists c].
    rewrite <- Hreg. revert H. destruct target; cbn; intros H.
    + destruct (Z.eqb_spec (col_oid c) oid); [|done]. by injection H.
    + destruct (is_string (col_oid c)) eqn:Es; [|done]. apply is_string_spec in Es. by injection H.
    + destruct (is_string_array (col_oid c)) eqn:Es; [|done]. apply is_string_array_spec in Es. by injection H.
    + destruct (ltree (types_registry t1)) as [z|] eqn:El; [|done].
      destruct (Z.eqb_spec z (col_oid c)) as [->|]; [|done]. by injection H.
  - intros (c & Hc & Ha). pose proof Hc as (_ & _ & Hreg & _).
    assert (next_oid (X := X) t = Ok (col_oid c, t')) as -> by (apply next_oid_spec; eauto). cbn [mbind result_bind].
    destruct target; cbn in Ha.
    + by rewrite Ha, Z.eqb_refl.
    + apply is_string_spec in Ha. by rewrite Ha.
    + apply is_string_array_spec in Ha. by rewrite Ha.
    + by rewrite Hreg, Ha, Z.eqb_refl.
Qed.

(** What a check of a row type reads. *)
Definition checks (ts : list Target.Target) (f : Types -> result (Error.Error X) Types) : Prop :=
  forall t t', Forall is_byte (types_bytes t) -> types_index t <= types_expected t ->
    f t = Ok t' <-> exists cols, took t cols t' /\ Forall2 (accepts (types_registry t)) ts (col_oid <$> cols).

Lemma checks_one target : checks [target] (match_type target).
Proof.
  intros t t' Hb Hi. rewrite match_type_spec by done. split.
  - intros (c & Hc & Ha). exists [c]. split; [done|]. by repeat constructor.
  - intros (cols & Hc & Ha). destruct cols as [|c [|c2 cols]]; inversion Ha as [|? ? ? ? H1 H2]; subst; [|inversion H2].
    by exists c.
Qed.

Lemma checks_bind ts1 ts2 f g : checks ts1 f -> checks ts2 g -> checks (ts1 ++ ts2) (fun t => t ← f t; g t).
Proof.
  intros Hf Hg t t' Hb Hi. rewrite bind_Ok. split.
  - intros (t1 & E1 & E2). apply Hf in E1 as (c1 & H1 & A1); [|done|done].
    apply Hg in E2 as (c2 & H2 & A2); [|by eapply took_bytes|by eapply took_index]. pose proof H1 as (_ & _ & Hreg & _).
    rewrite Hreg in A2. exists (c1 ++ c2). split; [by eapply took_app|]. rewrite fmap_app. by apply Forall2_app.
  - intros (cols & Hc & Ha). apply Forall2_app_inv_l in Ha as (o1 & o2 & A1 & A2 & E).
    apply fmap_app_inv in E as (c1 & c2 & -> & -> & ->). apply took_split in Hc as (t1 & H1 & H2); [|done].
    pose proof H1 as (_ & _ & Hreg & _). exists t1. split; [apply Hf; eauto|].
    apply Hg; [by eapply took_bytes|by eapply took_index|]. exists c2. split; [done|]. by rewrite Hreg.
Qed.

(** A row type checks its columns, in order. *)
Lemma validate_ty_checks ty : checks (targets ty) (validate_ty ty).
Proof.
  induction ty; cbn [targets validate_ty]; try apply checks_one.
  - intros t t' Hb Hi. split.
    + intros [= <-]. exists []. split; [by apply took_nil|constructor].
    + intros (cols & (A1 & A2 & A3 & A4 & _) & Ha). destruct cols; [|inversion Ha]. cbn in A1, A4.
      destruct t, t'; cbn in *; subst. do 2 f_equal. lia.
  - by apply checks_bind.
  - apply checks_bind; [done|by apply checks_bind].
  - apply checks_bind; [done|]. apply checks_bind; [done|by apply checks_bind].
Qed.

(** ** Descriptions are exact *)

Lemma count_i16 c0 c1 n :
  is_byte c0 -> is_byte c1 -> 0 <= n <= 32767 -> as_i16 (from_be [c0; c1]) = n <-> [c0; c1] = to_be 2 n.
Proof.
  intros H0 H1 Hn. assert (Forall is_byte [c0; c1]) as Hb by (constructor; [|constructor]; done).
  pose proof (from_be_range _ Hb) as Hr. change (256 ^ zlen [c0; c1]) with 65536 in Hr.
  rewrite <- (to_be_from_be [c0; c1]) at 2 by done. cbn [length]. revert Hr. generalize (from_be [c0; c1]) as m. intros m Hr.
  unfold as_i16, as_signed. change (2 ^ (16 - 1)) with 32768. change (2 ^ 16) with 65536. rewrite Z.mod_small by lia. split.
  - destruct (Z.ltb_spec m 32768); [by intros ->|lia].
  - intros H. apply (f_equal from_be) in H. rewrite !from_be_to_be in H. change (256 ^ Z.of_nat 2) with 65536 in H.
    rewrite !Z.mod_small in H by lia. subst. destruct (Z.ltb_spec n 32768); lia.
Qed.

(** The payloads of a count and what follows. *)
Lemma types_new_spec payload n registry t :
  Forall is_byte payload -> 0 <= n <= 32767 ->
  types_new (X := X) payload n registry = Ok t <->
  payload = to_be 2 n ++ types_bytes t /\ types_expected t = n /\ types_index t = 0 /\ types_registry t = registry.
Proof.
  intros Hb Hn. unfold types_new. destruct payload as [|c0 [|c1 bytes]].
  1,2: split; [done|]; intros (H & _); apply (f_equal length) in H; rewrite length_app, length_to_be in H; cbn in H; lia.
  apply Forall_cons in Hb as [H0 Hb]. apply Forall_cons in Hb as [H1 _].
  pose proof (count_i16 c0 c1 n H0 H1 Hn) as Hc. split.
  - intros H. destruct (Z.ltb_spec (as_i16 (from_be [c0; c1])) 0); [done|].
    destruct (Z.eqb_spec (as_i16 (from_be [c0; c1])) n) as [E|]; [|done]. cbn in H. injection H as <-. cbn.
    apply Hc in E as E'. by rewrite <- E'.
  - intros (H & A1 & A2 & A3).
    assert ([c0; c1] = to_be 2 n /\ bytes = types_bytes t) as [E ->].
    { change (c0 :: c1 :: bytes) with ([c0; c1] ++ bytes) in H. by apply app_inj_1 in H; [|rewrite length_to_be]. }
    apply Hc in E. rewrite E. destruct (Z.ltb_spec n 0); [lia|]. rewrite Z.eqb_refl. cbn. destruct t; cbn in *. by subst.
Qed.

Lemma parameters_loop_spec index expected bytes rest :
  Forall is_byte bytes -> Forall (fun o => 0 <= o <= u32_max) expected ->
  parameters_loop (X := X) index expected bytes = Ok rest <-> bytes = concat (to_be 4 <$> expected) ++ rest.
Proof.
  intros Hb He. revert index bytes Hb. induction He as [|o expected Ho _ IH]; intros index bytes Hb; cbn [parameters_loop].
  - cbn. split; [by intros [= ->]|by intros ->].
  - cbn [fmap list_fmap concat]. rewrite <- app_assoc. split.
    + destruct (split_array 4 bytes) as [[oid tail]|] eqn:E; [|done]. apply split_array_Some in E as [-> L]; [|done].
      apply Forall_app in Hb as [Hb1 Hb2]. destruct (Z.eqb_spec (from_be oid) o) as [<-|]; [|done].
      intros H. apply IH in H as ->; [|done]. f_equal. rewrite <- (to_be_from_be oid) at 1 by done. by replace (length oid) with 4%nat by lia.
    + intros ->. rewrite split_array_app by (by rewrite length_to_be). apply Forall_app in Hb as [_ Hb].
      rewrite from_be_to_be, Z.mod_small, Z.eqb_refl by (cbn; lia). by apply IH.
Qed.

Lemma parameters_spec payload expected :
  Forall is_byte payload -> zlen expected <= 32767 -> Forall (fun o => 0 <= o <= u32_max) expected ->
  parameters (X := X) payload expected = Ok () <-> payload = parameter_description expected.
Proof.
  intros Hb Hl He. unfold parameter_description.
  assert (parameters (X := X) payload expected = Ok () <-> exists t,
    types_new (X := X) payload (zlen expected) registry_default = Ok t /\ parameters_loop (X := X) 0 expected (types_bytes t) = Ok []) as ->.
  { unfold parameters, types_new. destruct payload as [|c0 [|c1 bytes]]; [by split; [|intros (? & ? & _)]..|].
    destruct (_ <? 0); [by split; [|intros (? & ? & _)]|].
    destruct (_ =? zlen expected); cbn [negb]; [|by split; [|intros (? & ? & _)]]. rewrite bind_Ok. split.
    - intros ([|b bs] & E & H); [|done]. by eexists.
    - intros (t & [= <-] & H). cbn in H. by exists []. }
  split.
  - intros (t & E & H). apply types_new_spec in E as (-> & _); [|done|lia]. apply Forall_app in Hb as [_ Hb].
    apply parameters_loop_spec in H as ->; [|done|done]. by rewrite app_nil_r.
  - intros ->. apply Forall_app in Hb as Hb'. destruct Hb' as [_ Hb'].
    exists {| types_bytes := concat (to_be 4 <$> expected); types_expected := zlen expected; types_index := 0;
              types_registry := registry_default |}. split; [by apply types_new_spec; [|lia|]|].
    apply parameters_loop_spec; [done|done|]. cbn. by rewrite app_nil_r.
Qed.

Lemma types_finish_spec t : types_finish (X := X) t = Ok () <-> types_bytes t = [] /\ types_index t = types_expected t.
Proof.
  unfold types_finish. destruct (Z.eqb_spec (types_index t) (types_expected t)) as [E|E]; cbn [negb].
  - destruct (types_bytes t); [done|]. by split; [|intros []].
  - by split; [|intros []].
Qed.

(** The descriptions a server sends pass exactly when they describe what was
    compiled. A ParameterDescription is accepted if and only if it is the declared
    identifiers; a RowDescription if and only if the query yields rows and it is a list of
    as many well-formed text columns as declared, each of an identifier its row type
    admits, with nothing behind them. *)
Theorem descriptions_exact q payload registry :
  Forall is_byte payload -> 0 <= n_result_cols q <= 32767 ->
  zlen (query_oids q) <= 32767 -> Forall (fun o => 0 <= o <= u32_max) (query_oids q) ->
  (parameters (X := X) payload (query_oids q) = Ok () <-> payload = parameter_description (query_oids q)) /\
  (types_query (X := X) q payload registry = Ok () <->
    query_kind q = ResultKind.Rows /\
    exists cols, payload = row_description cols /\ zlen cols = n_result_cols q /\ Forall column_ok cols /\
      Forall2 (accepts registry) (targets (query_row q)) (col_oid <$> cols)).
Proof.
  intros Hb Hn Ho Hos. split; [by apply parameters_spec|]. unfold types_query.
  destruct (query_kind q); cbn [is_rows negb]; [by split; [|intros []]|]. rewrite bind_Ok. split.
  - intros (t & E & H). apply bind_Ok in H as (t' & E' & H). apply types_new_spec in E as (-> & A1 & A2 & A3); [|done..].
    apply Forall_app in Hb as [_ Hb]. apply validate_ty_checks in E' as (cols & Hc & Ha); [|done|lia].
    apply types_finish_spec in H as [H1 H2]. destruct Hc as (B1 & B2 & B3 & B4 & B5 & B6).
    split; [done|]. exists cols. unfold row_description. rewrite B1, H1, app_nil_r, A3 in *. split_and!; try done; [|lia].
    do 2 f_equal. lia.
  - intros (_ & cols & -> & Hl & Hok & Ha).
    set (t := {| types_bytes := concat (column <$> cols); types_expected := n_result_cols q; types_index := 0;
                 types_registry := registry |}).
    exists t. split; [apply types_new_spec; [done|done|]; unfold row_description; by rewrite Hl|].
    set (t' := {| types_bytes := []; types_expected := n_result_cols q; types_index := n_result_cols q;
                  types_registry := registry |}).
    apply bind_Ok. exists t'. split; [|by apply types_finish_spec].
    apply validate_ty_checks; [by apply Forall_app in Hb as [_ Hb]|cbn; lia|].
    exists cols. split; [|done]. split_and!; cbn; try done; try lia. by rewrite app_nil_r.
Qed.
End exact.
