(* ===== verification/PgPrepare.v ===== *)
(** * The preparation of a query set

    Models [pg/src/schema/prepare]: the messages that prepare every query of a set on
    a new connection, measured and then written into an array of exactly their
    length ([mod.rs], [frames.rs]), and the walk over the set as the server answers
    ([catalog.rs]). All of it but the walk runs when the client is compiled: a write
    outside the array, [None] here, would be an error of the build. *)
From S2P Require Import Prelude CodecInput PgWire PgFrame PgHash PgEncode PgError PgDescribe.

Record Prepare := {
  prepare_wire : list Z;
  prepare_statements : Z;
  prepare_groups : list (list QueryMeta);
  prepare_flags : Z }.

Definition LTREE_PROBE_SQL : list Z := bytes_of "SELECT NULL::ltree".

(** ** The set *)

(** [count]: the loop over the groups, from a total. *)
Fixpoint count_from (total : Z) (groups : list (list QueryMeta)) : result EncError.Error Z :=
  match groups with
  | [] => Ok total
  | group :: groups =>
      let len := zlen group in
      if u32_max <? len then Err (EncError.StatementCount total len)
      else
        match checked_u32 (total + len) with
        | None => Err (EncError.StatementCount total len)
        | Some next => count_from next groups
        end
  end.

(** [dynamic]. *)
Definition dynamic (groups : list (list QueryMeta)) : Z :=
  fold_left (fun d group_ => fold_left (fun d m => Z.lor d (meta_dynamic m)) group_ d) groups 0.

(** The queries in order, each with its position. *)
Definition positions (groups : list (list QueryMeta)) : list (Position * list Z) :=
  concat (imap (fun g group_ =>
    imap (fun q m => ({| group := as_u32 (Z.of_nat g); query := as_u32 (Z.of_nat q) |}, meta_name m)) group_) groups).

(** [unique]: no name comes again later. *)
Fixpoint unique_from (l : list (Position * list Z)) : result EncError.Error () :=
  match l with
  | [] => Ok ()
  | (first, name) :: l =>
      match find (fun e => list_eqb name e.2) l with
      | Some (second, _) => Err (EncError.DuplicateStatement first second)
      | None => unique_from l
      end
  end.

Definition unique (groups : list (list QueryMeta)) : result EncError.Error () := unique_from (positions groups).

Definition is_dynamic (flags : Z) : bool := negb (Z.land flags DYNAMIC_LTREE =? 0).

(** [details]. *)
Definition details (groups : list (list QueryMeta)) : result EncError.Error (Z * Z) :=
  if u32_max <? zlen groups then Err (EncError.GroupCount (zlen groups))
  else
    stmts ← count_from 0 groups;
    unique groups;;
    let flags := dynamic groups in
    if is_dynamic flags then
      match checked_u32 (stmts + 1) with
      | None => Err (EncError.StatementCount stmts 1)
      | Some total => Ok (total, flags)
      end
    else Ok (stmts, flags).

(** ** Measuring *)

Record Lengths := { parse_length : Z; describe_length : Z; wire_length : Z }.

(** [frames::add]. *)
Definition add (scope : Scope.Scope) (current added : Z) : result EncError.Error Z :=
  ok_or (checked_usize (current + added)) (EncError.LengthOverflow scope current added).

(** [parse_message_len]. *)
Definition parse_message_len (name sql oids : list Z) : result EncError.Error Z :=
  let bytes := zlen oids * 4 in
  let len := 4 in
  name ← add Scope.Frame (zlen name) 1;
  sql ← add Scope.Frame (zlen sql) 1;
  len ← add Scope.Frame len name;
  len ← add Scope.Frame len sql;
  len ← add Scope.Frame len 2;
  len ← add Scope.Frame len bytes;
  if i32_max <? len then Err (EncError.FrameLength len) else Ok len.

(** [statement_lengths]. *)
Definition statement_lengths (name sql oids : list Z) : result EncError.Error Lengths :=
  parse ← parse_message_len name sql oids;
  let describe := zlen name + 6 in
  Ok {| parse_length := as_i32 parse; describe_length := as_i32 describe; wire_length := parse + describe + 2 |}.

Definition meta_lengths (m : QueryMeta) : result EncError.Error Lengths :=
  statement_lengths (meta_name m) (meta_sql m) (param_oids m).

(** The statement of the probe for the type of ltree. *)
Definition probe : QueryMeta :=
  {| meta_name := LTREE_PROBE_NAME; meta_sql := LTREE_PROBE_SQL; param_oids := []; result_columns := 1;
     meta_result := ResultKind.Rows; meta_dynamic := 0 |}.

(** What is prepared, in order: the probe, where a type asks for it, and the queries. *)
Definition statements (groups : list (list QueryMeta)) : list QueryMeta :=
  (if is_dynamic (dynamic groups) then [probe] else []) ++ concat groups.

(** [Prepare::try_wire_len]: the loop over the statements. *)
Fixpoint wire_len_from (total : Z) (ms : list QueryMeta) : result EncError.Error Z :=
  match ms with
  | [] => Ok total
  | m :: ms =>
      lengths ← meta_lengths m;
      total ← add Scope.Preparation total (wire_length lengths);
      wire_len_from total ms
  end.

Definition try_wire_len (groups : list (list QueryMeta)) : result EncError.Error Z :=
  wire_len_from (zlen SYNC) (statements groups).

(** ** Writing *)

(** The array and the position in it; a write that does not fit has no result. *)
Definition Out : Type := list Z * Z.

Definition write_slice (bytes : list Z) (o : Out) : option Out :=
  if o.2 + zlen bytes <=? zlen o.1 then Some (copy_at o.1 o.2 bytes, o.2 + zlen bytes) else None.

Fixpoint write_oids (oids : list Z) (o : Out) : option Out :=
  match oids with [] => Some o | oid :: oids => o ← write_slice (to_be 4 oid) o; write_oids oids o end.

(** [write_statement] and [write_query]. *)
Definition write_statement (name sql oids : list Z) (lengths : Lengths) (o : Out) : option Out :=
  o ← write_slice [80] o;
  o ← write_slice (to_be 4 (parse_length lengths)) o;
  o ← write_slice name o;
  o ← write_slice [0] o;
  o ← write_slice sql o;
  o ← write_slice [0] o;
  o ← write_slice (to_be 2 (as_i16 (zlen oids))) o;
  o ← write_oids oids o;
  o ← write_slice [68] o;
  o ← write_slice (to_be 4 (describe_length lengths)) o;
  o ← write_slice [83] o;
  o ← write_slice name o;
  write_slice [0] o.

Definition write_query (m : QueryMeta) (lengths : Lengths) (o : Out) : option Out :=
  write_statement (meta_name m) (meta_sql m) (param_oids m) lengths o.

Fixpoint write_queries (ms : list QueryMeta) (o : Out) : option (result EncError.Error Out) :=
  match ms with
  | [] => Some (Ok o)
  | m :: ms =>
      match meta_lengths m with
      | Err e => Some (Err e)
      | Ok lengths => o ← write_query m lengths o; write_queries ms o
      end
  end.

(** [Prepare::try_build] into an array of [n] bytes, and [Wire::prepare]. *)
Definition try_build (n : Z) (groups : list (list QueryMeta)) : option (result EncError.Error Prepare) :=
  match details groups with
  | Err e => Some (Err e)
  | Ok (stmts, flags) =>
      match try_wire_len groups with
      | Err e => Some (Err e)
      | Ok expected =>
          if negb (n =? expected) then Some (Err (EncError.PreparationSize expected n))
          else
            o ← write_queries (statements groups) (replicate (Z.to_nat n) 0, 0);
            match o with
            | Err e => Some (Err e)
            | Ok o =>
                o ← write_slice SYNC o;
                Some (Ok {| prepare_wire := o.1; prepare_statements := stmts; prepare_groups := groups;
                            prepare_flags := flags |})
            end
      end
  end.

(** [Prepare::EMPTY]. *)
Definition prepare_empty : Prepare :=
  {| prepare_wire := SYNC; prepare_statements := 0; prepare_groups := []; prepare_flags := 0 |}.

(** ** The walk over the set *)

(** [QuerySet]: its groups by type, and what was prepared. *)
Record QuerySet := { set_groups : list QueryGroup; set_prepare : Prepare }.

(** [Cursor] and [schema::Step]; the counters stay below the number of queries. *)
Record Cursor := { cursor_group : nat; cursor_query : nat }.

Module Walk.
Inductive Step := Query (cursor : Cursor) | Complete.
End Walk.

(** [Catalog::at]: the first query at or behind a position. *)
Fixpoint at_from (groups : list (list QueryMeta)) (group query : nat) : Walk.Step :=
  match groups with
  | [] => Walk.Complete
  | g :: groups =>
      match g !! query with
      | Some _ => Walk.Query {| cursor_group := group; cursor_query := query |}
      | None => at_from groups (S group) 0
      end
  end.

Definition catalog_at (s : QuerySet) (group query : nat) : Walk.Step :=
  at_from (drop group (prepare_groups (set_prepare s))) group query.

(** [Catalog::try_new] and [Catalog::first]. *)
Definition catalog_try_new {X} (s : QuerySet) : result (Error.Error X) () :=
  if groups_match (set_groups s) (prepare_groups (set_prepare s)) then Ok () else Err Error.QueryMetadata.

Definition catalog_first (s : QuerySet) : Walk.Step := catalog_at s 0 0.

(** [Cursor::metadata], [Cursor::next] and [Cursor::validate]. *)
Definition cursor_metadata (s : QuerySet) (c : Cursor) : option QueryMeta :=
  g ← prepare_groups (set_prepare s) !! cursor_group c; g !! cursor_query c.

Definition cursor_next (s : QuerySet) (c : Cursor) : Walk.Step := catalog_at s (cursor_group c) (S (cursor_query c)).

Definition cursor_validate {X} (s : QuerySet) (c : Cursor) (payload : list Z) (registry : Registry)
    : result (Error.Error X) () :=
  groups_validate (set_groups s) (cursor_group c) (cursor_query c) payload registry.

(** ** What is written *)

Definition DESCRIBE : Z := 68.

(** The messages of a statement: Parse and Describe. *)
Definition parse_body (m : QueryMeta) : list Z :=
  (meta_name m ++ [0]) ++ (meta_sql m ++ [0]) ++ to_be 2 (zlen (param_oids m)) ++ concat (to_be 4 <$> param_oids m).

Definition describe_body (m : QueryMeta) : list Z := [83] ++ meta_name m ++ [0].

Definition statement_messages (m : QueryMeta) : list (Z * list Z) :=
  [(Fe.PARSE, parse_body m); (DESCRIBE, describe_body m)].

Definition preparation (ms : list QueryMeta) : list (Z * list Z) :=
  concat (statement_messages <$> ms) ++ [(Fe.SYNC, [])].

(** What [QueryMeta::try_new] admits. *)
Definition meta_ok (m : QueryMeta) : Prop :=
  Forall (fun b => b <> 0) (meta_name m) /\ Forall (fun b => b <> 0) (meta_sql m) /\ zlen (param_oids m) <= 32767 /\
  Forall (fun o => 0 <= o <= u32_max) (param_oids m).

Lemma nul_None l : nul l = None -> Forall (fun b => b <> 0) l.
Proof. intros H. apply Forall_forall. intros b Hb. apply position_None with (x := b) in H; [lia|done]. Qed.

Definition admitted (m : QueryMeta) : Prop := meta_ok m /\ meta_name m <> LTREE_PROBE_NAME.

Lemma meta_try_new_ok q m :
  n_params q <= 32767 -> Forall (fun o => 0 <= o <= u32_max) (query_oids q) -> meta_try_new q = Ok m -> admitted m.
Proof.
  intros Hn Ho. unfold meta_try_new. intros (? & E & [= <-])%bind_Ok. unfold meta_check in E.
  destruct (_ || _)%bool; [done|]. destruct (list_eqb _ []); [done|].
  destruct (list_eqb (statement_name q) LTREE_PROBE_NAME) eqn:E0; [done|].
  destruct (nul (statement_name q)) eqn:E1; [done|]. destruct (nul (query_sql q)) eqn:E2; [done|].
  destruct (32767 <? _); [done|]. destruct (_ || _)%bool eqn:E3; [done|]. reflect_bool.
  assert (statement_name q <> LTREE_PROBE_NAME) by (intros Hq; apply list_eqb_eq in Hq; congruence).
  split; [|done]. split_and!; cbn; [by apply nul_None|by apply nul_None|lia|done].
Qed.

Lemma probe_ok : meta_ok probe.
Proof. split_and!; [by apply nul_None|by apply nul_None|cbn; lia|constructor]. Qed.

Lemma statements_ok groups : Forall (Forall admitted) groups -> Forall meta_ok (statements groups).
Proof.
  intros H. unfold statements. apply Forall_app.
  split; [|apply Forall_concat; eapply Forall_impl; [exact H|]; intros g Hg; eapply Forall_impl; [exact Hg|by intros m []]].
  destruct (is_dynamic _); [|constructor]. constructor; [apply probe_ok|constructor].
Qed.

(** [f] writes [text] where there is room. *)
Definition writes (f : Out -> option Out) (text : list Z) : Prop :=
  forall done rest, zlen text <= zlen rest ->
    f (done ++ rest, zlen done) = Some (done ++ text ++ drop (length text) rest, zlen (done ++ text)).

Lemma writes_slice text : writes (write_slice text) text.
Proof.
  intros done_ rest H. unfold write_slice. cbn [fst snd]. rewrite length_app.
  destruct (Z.leb_spec (zlen done_ + zlen text) (Z.of_nat (length done_ + length rest))); [|lia].
  unfold copy_at. rewrite Nat2Z.id, take_app_length, drop_app_ge by lia. rewrite length_app. do 3 f_equal; [|lia].
  f_equal. f_equal. lia.
Qed.

Lemma writes_none : writes Some [].
Proof. intros done_ rest _. cbn. by rewrite app_nil_r, drop_0. Qed.

Lemma writes_bind f g a b : writes f a -> writes g b -> writes (fun o => o ← f o; g o) (a ++ b).
Proof.
  intros Hf Hg done_ rest H. rewrite length_app in H. rewrite Hf by lia. cbn [mbind option_bind].
  rewrite app_assoc, Hg by (rewrite length_drop; lia). rewrite drop_drop, !length_app, <- !app_assoc. do 2 f_equal. cbn. lia.
Qed.

Lemma writes_oids oids : writes (write_oids oids) (concat (to_be 4 <$> oids)).
Proof.
  induction oids as [|o oids IH]; [apply writes_none|]. cbn [fmap list_fmap concat].
  exact (writes_bind _ _ _ _ (writes_slice _) IH).
Qed.

Lemma add_Ok scope a b n : add scope a b = Ok n -> n = a + b.
Proof. unfold add, checked_usize. destruct (checked _ _ _) eqn:E; [|done]. intros [= <-]. by apply checked_Some in E as [-> _]. Qed.

Lemma length_oids (oids : list Z) : length (concat (to_be 4 <$> oids)) = (4 * length oids)%nat.
Proof. induction oids as [|o oids IH]; [done|]. cbn [fmap list_fmap concat]. rewrite length_app, length_to_be, IH. cbn. lia. Qed.

(** The lengths that were measured are those of the messages. *)
Lemma meta_lengths_Ok m l : meta_lengths m = Ok l ->
  parse_length l = zlen (parse_body m) + 4 /\ describe_length l = zlen (describe_body m) + 4 /\
  wire_length l = zlen (stream (statement_messages m)) /\ zlen (parse_body m) + 4 <= i32_max /\
  zlen (describe_body m) + 4 <= i32_max.
Proof.
  unfold meta_lengths, statement_lengths, parse_message_len.
  intros (n & (a & Ha & (b & Hb & (c & Hc & (d & Hd & (e & He & (f & Hf & H)%bind_Ok)%bind_Ok)%bind_Ok)%bind_Ok)%bind_Ok)%bind_Ok & [= <-])%bind_Ok.
  apply add_Ok in Ha, Hb, Hc, Hd, He, Hf. destruct (Z.ltb_spec i32_max f); [done|]. injection H as <-.
  assert (zlen (parse_body m) + 4 = f) as Hp.
  { unfold parse_body. rewrite !length_app, length_oids, length_to_be. cbn [length]. lia. }
  assert (zlen (describe_body m) + 4 = zlen (meta_name m) + 6) as Hq.
  { unfold describe_body. rewrite !length_app. cbn [length]. lia. }
  cbn [parse_length describe_length wire_length]. rewrite !as_i32_small by lia.
  split_and!; try lia. unfold stream, statement_messages. cbn [fmap list_fmap concat]. rewrite app_nil_r, length_app, !Nat2Z.inj_add.
  rewrite !length_message. cbn [fst snd]. lia.
Qed.

Lemma as_i16_small n : 0 <= n <= 32767 -> as_i16 n = n.
Proof. intros H. unfold as_i16, as_signed. rewrite Z.mod_small by lia. change (2 ^ (16 - 1)) with 32768. destruct (Z.ltb_spec n 32768); lia. Qed.

Lemma writes_eq f g a b : (forall o, f o = g o) -> a = b -> writes f a -> writes g b.
Proof. intros Hf -> H done_ rest Hl. rewrite <- Hf. by apply H. Qed.

Lemma writes_query m l : meta_ok m -> meta_lengths m = Ok l -> writes (write_query m l) (stream (statement_messages m)).
Proof.
  intros (_ & _ & Hn & _) Hl. apply meta_lengths_Ok in Hl as (Hp & Hd & _).
  unfold write_query, write_statement. rewrite Hp, Hd, as_i16_small by lia.
  eapply writes_eq; [intros o; reflexivity| |].
  2: repeat (apply writes_bind; [apply writes_slice || apply writes_oids|]); apply writes_slice.
  unfold stream, statement_messages, message, parse_body, describe_body. cbn [fmap list_fmap concat fst snd].
  rewrite app_nil_r, <- !app_assoc. cbn [app]. rewrite (Z.add_comm 4 _), (Z.add_comm 4 _). unfold Fe.PARSE, DESCRIBE. repeat (cbn [app]; rewrite <- !app_assoc). done.
Qed.

(** ** What the server reads *)

Fixpoint read_oids (n : nat) (l : list Z) : option (list Z) :=
  match n with
  | O => match l with [] => Some [] | _ => None end
  | S n => '(w, r) ← split_array 4 l; oids ← read_oids n r; Some (from_be w :: oids)
  end.

Definition read_parse (body : list Z) : option (list Z * list Z * list Z) :=
  '(name, r) ← split_byte body 0;
  '(sql, r) ← split_byte r 0;
  '(n, r) ← split_array 2 r;
  oids ← read_oids (Z.to_nat (from_be n)) r;
  Some (name, sql, oids).

Definition read_describe (body : list Z) : option (list Z) :=
  match body with
  | kind :: r =>
      '(name, r) ← split_byte r 0;
      if (kind =? 83) && list_eqb r [] then Some name else None
  | [] => None
  end.

(** A preparation: statements, each parsed and described under its name, and a Sync. *)
Fixpoint server_reads (msgs : list (Z * list Z)) : option (list (list Z * list Z * list Z)) :=
  match msgs with
  | [(sync, body)] => if (sync =? Fe.SYNC) && list_eqb body [] then Some [] else None
  | (parse, p) :: (describe, d) :: msgs =>
      if (parse =? Fe.PARSE) && (describe =? DESCRIBE) then
        statement ← read_parse p;
        name ← read_describe d;
        if list_eqb name statement.1.1 then rest ← server_reads msgs; Some (statement :: rest) else None
      else None
  | [] => None
  end.

Definition statement_of (m : QueryMeta) : list Z * list Z * list Z := (meta_name m, meta_sql m, param_oids m).

Lemma read_oids_of oids : Forall (fun o => 0 <= o <= u32_max) oids -> read_oids (length oids) (concat (to_be 4 <$> oids)) = Some oids.
Proof.
  induction 1 as [|o oids Ho _ IH]; [done|]. cbn [fmap list_fmap concat length read_oids].
  rewrite split_array_app by (by rewrite length_to_be). cbn [mbind option_bind]. rewrite IH. cbn [mbind option_bind].
  rewrite from_be_to_be, Z.mod_small by (change (256 ^ Z.of_nat 4) with 4294967296; lia). done.
Qed.

Lemma read_parse_of m : meta_ok m -> read_parse (parse_body m) = Some (statement_of m).
Proof.
  intros (Hn & Hs & Hl & Ho). unfold read_parse, parse_body. rewrite <- !app_assoc. cbn [app].
  rewrite split_byte_app by done. cbn [mbind option_bind]. rewrite split_byte_app by done. cbn [mbind option_bind].
  rewrite split_array_app by (by rewrite length_to_be). cbn [mbind option_bind].
  rewrite from_be_to_be, Z.mod_small by (change (256 ^ Z.of_nat 2) with 65536; lia).
  rewrite Nat2Z.id, read_oids_of by done. done.
Qed.

Lemma read_describe_of m : meta_ok m -> read_describe (describe_body m) = Some (meta_name m).
Proof.
  intros (Hn & _). unfold read_describe, describe_body. cbn [app]. rewrite split_byte_app by done. done.
Qed.

Lemma server_reads_of ms : Forall meta_ok ms -> server_reads (preparation ms) = Some (statement_of <$> ms).
Proof.
  induction 1 as [|m ms Hm _ IH]; [done|].
  change (preparation (m :: ms)) with ((Fe.PARSE, parse_body m) :: (DESCRIBE, describe_body m) :: preparation ms).
  cbn [server_reads]. rewrite !Z.eqb_refl. cbn [andb]. rewrite read_parse_of, read_describe_of by done.
  cbn [mbind option_bind statement_of fst]. rewrite (proj2 (list_eqb_eq _ _) eq_refl), IH. done.
Qed.

(** ** The set is checked *)

Lemma unique_from_Ok l : unique_from l = Ok () -> NoDup l.*2.
Proof.
  induction l as [|[p name] l IH]; [constructor|]. cbn [unique_from].
  destruct (find _ l) as [[p' n']|] eqn:E; [done|]. intros H. cbn. constructor; [|by apply IH].
  intros ([p' n'] & -> & Hin)%list_elem_of_fmap. apply list_elem_of_In in Hin. eapply find_none in E; [|done]. cbn in E.
  by rewrite (proj2 (list_eqb_eq _ _) eq_refl) in E.
Qed.

Lemma imap_snd {A B C} (f : nat -> B) (g : A -> C) l : (imap (fun q m => (f q, g m)) l).*2 = g <$> l.
Proof. revert f. induction l as [|x l IH]; intros f; [done|]. rewrite imap_cons. cbn. f_equal. apply (IH (f ∘ S)). Qed.

Lemma positions_names groups : (positions groups).*2 = meta_name <$> concat groups.
Proof.
  unfold positions. assert (forall k : nat -> nat,
    (concat (imap (fun g group_ => imap (fun q m => ({| group := as_u32 (Z.of_nat (k g)); query := as_u32 (Z.of_nat q) |}, meta_name m)) group_) groups)).*2
    = meta_name <$> concat groups) as H; [|exact (H id)].
  induction groups as [|g groups IH]; intros k; [done|]. rewrite imap_cons. cbn [concat]. rewrite !fmap_app. f_equal.
  - apply imap_snd.
  - exact (IH (k ∘ S)).
Qed.

Lemma count_from_Ok groups total n : count_from total groups = Ok n -> n = total + zlen (concat groups).
Proof.
  revert total. induction groups as [|g groups IH]; intros total; cbn [count_from concat]; [intros [= <-]; cbn; lia|].
  destruct (_ <? _); [done|]. unfold checked_u32. destruct (checked _ _ _) as [next|] eqn:E; [|done].
  apply checked_Some in E as [-> _]. intros H. apply IH in H as ->. rewrite length_app. lia.
Qed.

Lemma details_Ok groups stmts flags : details groups = Ok (stmts, flags) ->
  stmts = zlen (statements groups) /\ flags = dynamic groups /\ NoDup (meta_name <$> concat groups).
Proof.
  unfold details. destruct (_ <? _); [done|]. intros (n & Hn & (u & Hu & H)%bind_Ok)%bind_Ok. destruct u.
  apply count_from_Ok in Hn. apply unique_from_Ok in Hu. rewrite positions_names in Hu.
  unfold statements. rewrite length_app. destruct (is_dynamic (dynamic groups)).
  - unfold checked_u32 in H. destruct (checked _ _ _) as [t|] eqn:E; [|done]. apply checked_Some in E as [-> _].
    injection H as <- <-. split_and!; [cbn [length]; lia|done|done].
  - injection H as <- <-. split_and!; [cbn [length]; lia|done|done].
Qed.

Lemma wire_len_from_Ok ms total n : wire_len_from total ms = Ok n ->
  n = total + zlen (stream (concat (statement_messages <$> ms))) /\ Forall (fun m => is_ok (meta_lengths m) = true) ms.
Proof.
  revert total. induction ms as [|m ms IH]; intros total; cbn [wire_len_from]; [intros [= <-]; split; [cbn; lia|constructor]|].
  intros (l & Hl & (t & Ht & H)%bind_Ok)%bind_Ok. apply add_Ok in Ht as ->. apply IH in H as [-> Hf].
  split; [|constructor; [by rewrite Hl|done]]. apply meta_lengths_Ok in Hl as (_ & _ & Hw & _). rewrite Hw.
  cbn [fmap list_fmap concat]. unfold stream. rewrite fmap_app, concat_app, length_app. lia.
Qed.

Lemma write_queries_ok ms done_ rest :
  Forall meta_ok ms -> Forall (fun m => is_ok (meta_lengths m) = true) ms ->
  zlen (stream (concat (statement_messages <$> ms))) <= zlen rest ->
  let text := stream (concat (statement_messages <$> ms)) in
  write_queries ms (done_ ++ rest, zlen done_) = Some (Ok (done_ ++ text ++ drop (length text) rest, zlen (done_ ++ text))).
Proof.
  intros Hm Hl. revert done_ rest. induction ms as [|m ms IH]; intros done_ rest Hr text.
  - subst text. cbn. by rewrite app_nil_r, drop_0.
  - apply Forall_cons in Hm as [Hm Hms], Hl as [Hl Hls]. subst text. cbn [fmap list_fmap concat] in *.
    unfold stream in *. rewrite fmap_app, concat_app, length_app in *. cbn [write_queries].
    destruct (meta_lengths m) as [l|] eqn:E; [|done]. rewrite (writes_query m l Hm E) by (unfold stream; lia).
    cbn [mbind option_bind]. unfold stream. rewrite app_assoc, IH by (done || (rewrite length_drop; lia)).
    rewrite drop_drop, !length_app, <- !app_assoc. do 4 f_equal. lia.
Qed.

Lemma preparation_wf ms :
  Forall (fun m => is_ok (meta_lengths m) = true) ms -> Forall (message_wf (i32_max + 1)) (preparation ms).
Proof.
  intros H. unfold preparation. apply Forall_app. split; [|constructor; [unfold message_wf; cbn; lia|constructor]].
  apply Forall_concat, Forall_fmap. eapply Forall_impl; [exact H|]. intros m Hm. cbn in Hm.
  destruct (meta_lengths m) as [l|] eqn:E; [|done]. apply meta_lengths_Ok in E as (_ & _ & _ & Hp & Hd).
  unfold statement_messages, message_wf. constructor; [cbn [snd]; lia|constructor; [cbn [snd]; lia|constructor]].
Qed.

Lemma statement_names groups :
  Forall (Forall admitted) groups -> NoDup (meta_name <$> concat groups) -> NoDup (meta_name <$> statements groups).
Proof.
  intros Ha Hn. unfold statements. destruct (is_dynamic _); [|done]. cbn. constructor; [|done].
  intros (m & Hm & Hin)%list_elem_of_fmap. apply Forall_concat in Ha. rewrite Forall_forall in Ha.
  apply Ha in Hin as [_ Hin]. by apply Hin.
Qed.

(** The preparation compiled for a query set is what its server is to read. For
    queries admitted one by one, building never writes outside its array; and what it
    builds fills the array exactly, however it is cut it arrives as Parse and Describe of
    every statement, in order, and one Sync, which read back as the names, texts and
    parameter types declared, under names that are all different. *)
Theorem prepare_framed n groups :
  Forall (Forall admitted) groups ->
  exists r, try_build n groups = Some r /\
    forall w, r = Ok w ->
      zlen (prepare_wire w) = n /\ prepare_groups w = groups /\ prepare_statements w = zlen (statements groups) /\
      NoDup (meta_name <$> statements groups) /\
      exists msgs, server_reads msgs = Some (statement_of <$> statements groups) /\
        forall chunks, concat chunks = prepare_wire w ->
          fold_left (feed (i32_max + 1) CodecInput.window) chunks ([], []) = (msgs, []).
Proof.
  intros Ha. pose proof (statements_ok _ Ha) as Hm. unfold try_build.
  destruct (details groups) as [[stmts flags]|e] eqn:Ed; [|by eexists]. apply details_Ok in Ed as (-> & -> & Hnd).
  destruct (try_wire_len groups) as [expected|e] eqn:Ew; [|by eexists].
  destruct (Z.eqb_spec n expected) as [->|]; cbn [negb]; [|by eexists].
  apply wire_len_from_Ok in Ew as [-> Hl]. set (text := stream (concat (statement_messages <$> statements groups))) in *.
  set (room := replicate _ 0). assert (length room = (length text + 5)%nat) as Hr by (subst room; rewrite length_replicate; cbn; lia).
  pose proof (write_queries_ok (statements groups) [] room Hm Hl ltac:(fold text; lia)) as Hw. fold text in Hw.
  cbn zeta in Hw. cbn [app length] in Hw. change (Z.of_nat 0) with 0 in Hw. rewrite Hw. cbn [mbind option_bind].
  rewrite writes_slice by (rewrite length_drop; cbn; lia). cbn [mbind option_bind]. eexists. split; [reflexivity|].
  intros w E. apply Ok_inj in E as <-. cbn [prepare_wire prepare_statements prepare_groups fst].
  change (drop (length SYNC)) with (drop (A := Z) 5). rewrite (drop_ge (drop _ room)) by (rewrite length_drop; lia).
  change (SYNC ++ []) with SYNC. split; [rewrite length_app; cbn; lia|]. split; [done|]. split; [done|].
  split; [by apply statement_names|]. exists (preparation (statements groups)). split; [by apply server_reads_of|].
  intros chunks Hc. apply (stream_feeds (i32_max + 1) ltac:(lia) CodecInput.window); [by apply preparation_wf|by left|].
  rewrite app_nil_r, Hc. unfold preparation, stream. rewrite fmap_app, concat_app. done.
Qed.

(** ** The walk *)

Section walk.
Context (s : QuerySet).
Notation groups := (prepare_groups (set_prepare s)).

(** The cursors a connection goes through, from a step of the walk. *)
Fixpoint walk (fuel : nat) (step : Walk.Step) : option (list Cursor) :=
  match step with
  | Walk.Complete => Some []
  | Walk.Query c => match fuel with O => None | S fuel => cs ← walk fuel (cursor_next s c); Some (c :: cs) end
  end.

(** What is left of the groups from a query of the first on. *)
Definition remains (gs : list (list QueryMeta)) (query : nat) : list QueryMeta :=
  match gs with [] => [] | g :: gs => drop query g ++ concat gs end.

Lemma remains_next gs : remains gs 0 = concat gs.
Proof. by destruct gs. Qed.

Lemma walk_at fuel gs group query :
  drop group groups = gs -> (length (remains gs query) <= fuel)%nat ->
  exists cs, walk fuel (at_from gs group query) = Some cs /\ Forall2 (fun c m => cursor_metadata s c = Some m) cs (remains gs query).
Proof.
  revert gs group query. induction fuel as [|fuel IHf]; intros gs; induction gs as [|g gs IH]; intros group query Hd Hl.
  1,3: exists []; by split; [|constructor].
  all: assert (groups !! group = Some g) as Hg by (rewrite <- (Nat.add_0_r group), <- lookup_drop, Hd; done).
  all: assert (drop (S group) groups = gs) as Hd' by (rewrite <- Nat.add_1_r, <- drop_drop, Hd; done).
  all: cbn [at_from remains] in *; destruct (g !! query) as [m|] eqn:Hm;
    [|apply lookup_ge_None in Hm; rewrite (drop_ge g) in * by done; rewrite app_nil_l in *;
      rewrite <- remains_next in *; by apply IH].
  all: rewrite (drop_S _ _ _ Hm) in *; simpl in Hl; try lia.
  destruct (IHf (g :: gs) group (S query) Hd) as (cs & Hw & Hc); [cbn [remains]; lia|].
  exists ({| cursor_group := group; cursor_query := query |} :: cs). cbn [walk]. unfold cursor_next, catalog_at. cbn [cursor_group cursor_query].
  rewrite Hd, Hw. split; [done|]. cbn [app]. constructor; [|exact Hc]. unfold cursor_metadata. cbn [cursor_group cursor_query]. by rewrite Hg.
Qed.

Lemma items_match_lookup items ms i m :
  items_match items ms = true -> ms !! i = Some m -> exists q, items !! i = Some q /\ meta_of q = m.
Proof.
  revert ms i. induction items as [|q items IH]; intros [|m0 ms] i H Hi; try done. cbn [items_match] in H.
  apply andb_true_iff in H as [Hq H]. apply bool_decide_eq_true in Hq as ->. destruct i as [|i]; [|by apply (IH ms)].
  injection Hi as <-. by exists q.
Qed.

Lemma groups_match_lookup gs ms i l j m :
  groups_match gs ms = true -> ms !! i = Some l -> l !! j = Some m ->
  exists g q, gs !! i = Some g /\ items g !! j = Some q /\ meta_of q = m.
Proof.
  revert ms i. induction gs as [|g gs IH]; intros [|l0 ms] i H Hi Hj; try done. cbn [groups_match] in H.
  apply andb_true_iff in H as [H Hgs]. apply andb_true_iff in H as [_ Hg]. destruct i as [|i]; [|by apply (IH ms i)].
  injection Hi as <-. destruct (items_match_lookup _ _ _ _ Hg Hj) as (q & Hq & Hm). by exists g, q.
Qed.

(** The walk over a set whose metadata matches its types goes through every query once, in
    the order prepared, and ends; the description that arrives for a query is checked
    against that query, the one whose metadata was prepared. *)
Theorem catalog_walks {X} :
  catalog_try_new (X := X) s = Ok () ->
  exists cs, walk (length (concat groups)) (catalog_first s) = Some cs /\
    Forall2 (fun c m => cursor_metadata s c = Some m /\ exists q, meta_of q = m /\
      forall payload registry, cursor_validate (X := X) s c payload registry = types_query q payload registry)
      cs (concat groups).
Proof.
  unfold catalog_try_new. destruct (groups_match (set_groups s) groups) eqn:Hm; [|done]. intros _.
  destruct (walk_at (length (concat groups)) groups 0 0) as (cs & Hw & Hc); [done|by rewrite remains_next|].
  rewrite remains_next in Hc. exists cs. split; [exact Hw|]. eapply Forall2_impl; [exact Hc|]. intros c m Hcm. split; [done|].
  unfold cursor_metadata in Hcm. destruct (groups !! cursor_group c) as [l|] eqn:Hl; [|done]. cbn in Hcm.
  destruct (groups_match_lookup _ _ _ _ _ _ Hm Hl Hcm) as (g & q & Hg & Hq & Hmq). exists q. split; [done|]. intros payload registry.
  unfold cursor_validate, groups_validate. rewrite Hg. cbn. by rewrite Hq.
Qed.
End walk.
