(* ===== verification/PgPayloads.v ===== *)
(** * Control payloads

    Models [pg/src/protocol/logic/payloads.rs]: the payloads the turns read outside
    rows and errors, the authentication requests among them, the backend key of
    [port/pool/key.rs] and the status of a transaction of [protocol/runtime/tx].
    Every failure is a reason, which the turns report as [Error::Protocol]. *)
From Stdlib Require Import ZifyNat.
From S2P Require Import Prelude PgWire PgScramParser PgScram.

(** [messages::Be] and [messages::Auth]. *)
Module Be.
Definition AUTH : Z := 82.
Definition PARAMETER_STATUS : Z := 83.
Definition BACKEND_KEY_DATA : Z := 75.
Definition READY_FOR_QUERY : Z := 90.
Definition ROW_DESCRIPTION : Z := 84.
Definition DATA_ROW : Z := 68.
Definition COMMAND_COMPLETE : Z := 67.
Definition PARSE_COMPLETE : Z := 49.
Definition BIND_COMPLETE : Z := 50.
Definition ERROR_RESPONSE : Z := 69.
Definition NOTICE_RESPONSE : Z := 78.
Definition NOTIFICATION_RESPONSE : Z := 65.
Definition NO_DATA : Z := 110.
Definition EMPTY_QUERY_RESPONSE : Z := 73.
Definition PARAMETER_DESCRIPTION : Z := 116.
Definition PORTAL_SUSPENDED : Z := 115.
Definition COPY_IN_RESPONSE : Z := 71.
Definition COPY_OUT_RESPONSE : Z := 72.
Definition COPY_DATA : Z := 100.
Definition COPY_DONE : Z := 99.
End Be.

Module Auth.
Definition OK : Z := 0.
Definition SASL : Z := 10.
Definition SASL_CONTINUE : Z := 11.
Definition SASL_FINAL : Z := 12.
End Auth.

Module Status.
Inductive Status := Idle | Transaction.
End Status.

Definition ready_status (bytes : list Z) : result Reason.Reason Status.Status :=
  match bytes with
  | [b] =>
      if b =? 73 then Ok Status.Idle
      else if (b =? 84) || (b =? 69) then Ok Status.Transaction
      else Err Reason.ReadyUnknown
  | _ => Err Reason.ReadyUnknown
  end.

Definition empty (tag : Z) (bytes : list Z) : result Reason.Reason () :=
  match bytes with [] => Ok () | _ => Err (Reason.ControlPayload tag (zlen bytes)) end.

(** [split_last]: the last byte and those before it. *)
Definition split_last (l : list Z) : option (Z * list Z) :=
  match l with [] => None | x :: l' => Some (List.last l 0, removelast l) end.

Definition command (tag : Z) (bytes : list Z) : result Reason.Reason () :=
  let valid :=
    match split_last bytes with
    | None => false
    | Some (last, body) =>
        (last =? 0) && negb (list_eqb body []) && negb (existsb (fun b => b =? 0) body)
    end in
  if valid then Ok () else Err (Reason.ControlPayload tag (zlen bytes)).

Definition copy_error (bytes : list Z) : Reason.Reason := Reason.CopyFormat (zlen bytes).

(** [as_chunks::<2>().0]. *)
Fixpoint chunks2 (l : list Z) : list (list Z) :=
  match l with a :: b :: l => [a; b] :: chunks2 l | _ => [] end.

Definition copy_format (bytes : list Z) : result Reason.Reason () :=
  match bytes with
  | overall :: count0 :: count1 :: formats =>
      let count := as_i16 (from_be [count0; count1]) in
      if (1 <? overall) || (count <? 0) || negb (zlen formats =? count * 2) then Err (copy_error bytes)
      else if existsb (fun pair => 1 <? from_be pair) (chunks2 formats) then Err (copy_error bytes)
      else Ok ()
  | _ => Err (copy_error bytes)
  end.

(** ** Strings *)

Module Cstring.
Inductive Cstring := Terminator (actual : Z) | Utf8 (error : TextError).

(** [Cstring::into_sasl]. *)
Definition into_sasl (c : Cstring) : Reason.Reason :=
  match c with
  | Terminator actual => Reason.SaslMechanismTerminator actual
  | Utf8 e => Reason.SaslMechanismUtf8 (valid e) (error e)
  end.

(** [Cstring::into_note]. *)
Definition into_note (field : Z) (c : Cstring) : Reason.Reason :=
  match c with
  | Terminator actual => Reason.NotificationTerminator field actual
  | Utf8 e => Reason.NotificationUtf8 field (valid e) (error e)
  end.
End Cstring.

Definition cstr_bytes (bytes : list Z) : result Z (list Z * list Z) :=
  ok_or (split_byte bytes 0) (zlen bytes).

Definition cstr (bytes : list Z) : result Cstring.Cstring (list Z * list Z) :=
  r ← map_err Cstring.Terminator (cstr_bytes bytes);
  value ← map_err Cstring.Utf8 (try_text r.1);
  Ok (value, r.2).

Definition parameter (bytes : list Z) : result Reason.Reason () :=
  r ← map_err Reason.ParameterNameTerminator (cstr_bytes bytes);
  let '(name, rest) := r in
  if list_eqb name [] then Err Reason.ParameterNameEmpty
  else
    let at_ := zlen bytes - zlen rest in
    r ← map_err (Reason.ParameterValueTerminator at_) (cstr_bytes rest);
    let '(_, trailing) := r in
    if negb (list_eqb trailing []) then Err (Reason.ParameterTrailing (zlen bytes - zlen trailing) (zlen trailing))
    else Ok ().

(** ** Authentication requests *)

Module AuthRequest.
Inductive AuthRequest :=
| Ok
| Sasl (mechanisms : Mechanisms.Mechanisms)
| SaslContinue (data : list Z)
| SaslFinal (data : list Z)
| Other (method : Z).
End AuthRequest.

(** The loop over the mechanisms; a turn reads a name. *)
Fixpoint auth_mechanisms (fuel : nat) (rest : list Z) (set : Mechanisms.Mechanisms) (cursor : list Z)
    : option (result Reason.Reason Mechanisms.Mechanisms) :=
  match fuel with
  | O => None
  | S fuel =>
      match split_first cursor with
      | None => Some (Err (Reason.SaslTerminator (zlen rest)))
      | Some (first, tail) =>
          if first =? 0 then
            match tail with
            | [] => Some (Ok set)
            | _ => Some (Err (Reason.SaslTrailing (zlen tail)))
            end
          else
            match map_err Cstring.into_sasl (cstr cursor) with
            | Err e => Some (Err e)
            | Ok (name, next) => auth_mechanisms fuel rest (offer set name) next
            end
      end
  end.

(** [AuthRequest::decode]. *)
Definition auth_decode (bytes : list Z) : option (result Reason.Reason AuthRequest.AuthRequest) :=
  match split_array 4 bytes with
  | None => Some (Err (Reason.AuthTruncated (zlen bytes)))
  | Some (kind, rest) =>
      let kind := from_be kind in
      if kind =? Auth.OK then
        match rest with
        | [] => Some (Ok AuthRequest.Ok)
        | _ => Some (Err (Reason.AuthTrailing (zlen rest)))
        end
      else if kind =? Auth.SASL then
        r ← auth_mechanisms (S (length rest)) rest Mechanisms.None rest;
        Some (set ← r; Ok (AuthRequest.Sasl set))
      else if kind =? Auth.SASL_CONTINUE then Some (Ok (AuthRequest.SaslContinue rest))
      else if kind =? Auth.SASL_FINAL then Some (Ok (AuthRequest.SaslFinal rest))
      else Some (Ok (AuthRequest.Other kind))
  end.

(** ** The backend key *)

Record Key := { pid : Z; secret : list Z }.

Definition key_empty : Key := {| pid := 0; secret := [0; 0; 0; 0] |}.

(** [Key::decode]. *)
Definition key_decode (payload : list Z) : result Reason.Reason Key :=
  match payload with
  | [p0; p1; p2; p3; s0; s1; s2; s3] =>
      Ok {| pid := as_i32 (from_be [p0; p1; p2; p3]); secret := [s0; s1; s2; s3] |}
  | _ => Err (Reason.BackendKeyWidth (zlen payload))
  end.

(** ** Lemmas *)

Lemma cstr_Ok bytes value rest :
  cstr bytes = Ok (value, rest) <->
  bytes = value ++ 0 :: rest /\ Forall (fun b => b <> 0) value /\ utf8_valid value.
Proof.
  unfold cstr, cstr_bytes, utf8_valid. split.
  - destruct (split_byte bytes 0) as [[v r]|] eqn:Hs; [|done]. apply split_byte_Some in Hs as [-> Hv]. simpl.
    unfold try_text. destruct (from_utf8 v) as [[]|[]] eqn:Hu; [|done]. simpl. intros [= <- <-]. done.
  - intros (-> & Hv & Hu). rewrite split_byte_app by done. simpl. unfold try_text. by rewrite Hu.
Qed.

Lemma cstr_shorter bytes value rest : cstr bytes = Ok (value, rest) -> (length rest < length bytes)%nat.
Proof. intros (-> & _)%cstr_Ok. rewrite length_app. simpl. lia. Qed.

(** A parameter is a name that is not empty and a value, each terminated. *)
Lemma parameter_Ok bytes :
  parameter bytes = Ok () <->
  exists name value, bytes = name ++ 0 :: value ++ [0] /\ name <> [] /\ Forall (fun b => b <> 0) (name ++ value).
Proof.
  unfold parameter, cstr_bytes. split.
  - destruct (split_byte bytes 0) as [[name rest]|] eqn:Hn; [|done]. apply split_byte_Some in Hn as [-> Hn].
    cbn. destruct (list_eqb name []) eqn:E; [done|].
    destruct (split_byte rest 0) as [[value trailing]|] eqn:Hv; [|done]. apply split_byte_Some in Hv as [-> Hv].
    cbn. destruct trailing; [|done]. intros _. exists name, value. split_and!; [done| |by apply Forall_app].
    by intros ->.
  - intros (name & value & -> & Hn & [H1 H2]%Forall_app). rewrite split_byte_app by done. cbn.
    destruct (list_eqb name []) eqn:E; [by apply list_eqb_eq in E|].
    change (value ++ [0]) with (value ++ 0 :: []). rewrite split_byte_app by done. done.
Qed.

Definition zero_free (l : list Z) : Prop := Forall (fun b => b <> 0) l.

Lemma existsb_zero l : existsb (fun b => b =? 0) l = false <-> zero_free l.
Proof.
  unfold zero_free. induction l as [|b l IH]; simpl; [done|]. rewrite orb_false_iff, IH, Forall_cons, Z.eqb_neq. done.
Qed.

(** The tag of a command is one terminated string that is not empty. *)
Lemma command_Ok tag bytes : command tag bytes = Ok () <-> exists body, bytes = body ++ [0] /\ body <> [] /\ zero_free body.
Proof.
  unfold command. destruct bytes as [|x l] using rev_ind; [by split; [|intros ([|] & ? & _)]|]. clear IHl.
  assert (split_last (l ++ [x]) = Some (x, l)) as ->.
  { unfold split_last. rewrite last_last, removelast_last. by destruct l. }
  split.
  - destruct (Z.eqb_spec x 0) as [->|]; [|done]. simpl. destruct (list_eqb l []) eqn:El; [done|]. simpl.
    destruct (existsb _ l) eqn:Ez; [done|]. intros _. exists l. split_and!; [done|by intros ->|by apply existsb_zero].
  - intros (body & Hb & Hne & Hz). apply app_inj_tail in Hb as [-> ->]. simpl.
    apply existsb_zero in Hz as ->. destruct (list_eqb body []) eqn:El; [by apply list_eqb_eq in El|]. done.
Qed.

(** ** The mechanisms a server offers *)

Definition mechanism_name (n : list Z) : Prop := n <> [] /\ zero_free n /\ utf8_valid n.

Definition spelled_names (names : list (list Z)) : list Z := concat (map (fun n => n ++ [0]) names) ++ [0].

Lemma auth_mechanisms_total fuel rest set cursor :
  (length cursor < fuel)%nat -> is_Some (auth_mechanisms fuel rest set cursor).
Proof.
  revert set cursor. induction fuel as [|fuel IH]; intros set cursor Hf; [lia|].
  cbn [auth_mechanisms]. destruct cursor as [|b cursor]; [done|]. cbn [split_first].
  destruct (b =? 0); [by destruct cursor|]. destruct (cstr (b :: cursor)) as [[n next]|] eqn:Hc; [|done].
  cbn [map_err]. apply IH. apply cstr_shorter in Hc. simpl in *. lia.
Qed.

Lemma auth_mechanisms_Ok fuel rest set cursor mechs :
  (length cursor < fuel)%nat ->
  auth_mechanisms fuel rest set cursor = Some (Ok mechs) <->
  exists names, Forall mechanism_name names /\ cursor = spelled_names names /\ mechs = fold_left offer names set.
Proof.
  revert set cursor. induction fuel as [|fuel IH]; intros set cursor Hf; [lia|].
  cbn [auth_mechanisms]. destruct cursor as [|b cursor].
  { split; [done|]. intros ([|n names] & _ & H & _); [done|]. unfold spelled_names in H. cbn in H.
    by destruct n. }
  cbn [split_first]. destruct (Z.eqb_spec b 0) as [->|Hb].
  - split.
    + destruct cursor; [|done]. intros [= <-]. by exists [].
    + intros ([|n names] & Hn & H & ->); [by injection H as ->|].
      apply Forall_cons in Hn as [(Hne & Hz & _) _]. destruct n; [done|]. unfold spelled_names in H. cbn in H.
      injection H as <- _. by apply Forall_cons in Hz as [? _].
  - destruct (cstr (b :: cursor)) as [[n next]|e] eqn:Hc; cbn [map_err].
    + apply cstr_shorter in Hc as Hl. apply cstr_Ok in Hc as (Hc & Hz & Hu).
      rewrite IH by (simpl in *; lia). split.
      * intros (names & Hn & -> & ->). exists (n :: names). split_and!; [|by rewrite Hc; unfold spelled_names; cbn; rewrite <- !app_assoc|done].
        constructor; [|done]. split_and!; [|done|done]. intros ->. simpl in Hc. by injection Hc as ->.
      * intros ([|n' names] & Hn & H & ->); [by injection H as -> _|]. apply Forall_cons in Hn as [(Hne & Hz' & _) Hn].
        exists names. unfold spelled_names in H. cbn in H. rewrite <- !app_assoc in H. cbn in H.
        rewrite Hc in H. apply (f_equal (fun l => split_byte l 0)) in H.
        rewrite !split_byte_app in H by done. by injection H as -> ->.
    + split; [done|]. intros ([|n names] & Hn & H & _); [by injection H as -> _|].
      apply Forall_cons in Hn as [(_ & Hz & Hu) _]. unfold spelled_names in H. cbn in H. rewrite <- !app_assoc in H.
      cbn in H. rewrite H in Hc. by rewrite (proj2 (cstr_Ok _ n _)) in Hc by done.
Qed.

Lemma offered names set :
  fold_left offer names set =
    if bool_decide (MECH ∈ names) then Mechanisms.Sha256
    else match set with
         | Mechanisms.None => if bool_decide (PLUS ∈ names) then Mechanisms.Plus else Mechanisms.None
         | _ => set
         end.
Proof.
  revert set. induction names as [|n names IH]; intros set; simpl.
  { by destruct set. }
  rewrite IH. unfold offer. destruct (list_eqb n MECH) eqn:E1.
  { apply list_eqb_eq in E1 as ->. rewrite (bool_decide_true (MECH ∈ MECH :: names)) by left.
    by destruct (bool_decide _). }
  assert (n <> MECH) as H1 by (intros ->; vm_compute in E1; done).
  assert (bool_decide (MECH ∈ n :: names) = bool_decide (MECH ∈ names)) as ->.
  { apply bool_decide_ext. rewrite elem_of_cons. naive_solver. }
  destruct (bool_decide (MECH ∈ names)); [done|]. destruct (list_eqb n PLUS) eqn:E2.
  - apply list_eqb_eq in E2 as ->. rewrite (bool_decide_true (PLUS ∈ PLUS :: names)) by left. by destruct set.
  - assert (n <> PLUS) as H2 by (intros ->; vm_compute in E2; done). destruct set; [|done|done].
    replace (bool_decide (PLUS ∈ n :: names)) with (bool_decide (PLUS ∈ names)); [done|].
    apply bool_decide_ext. rewrite elem_of_cons. naive_solver.
Qed.

(** Decoding an authentication request always ends. It is read as a list of
    mechanisms exactly when it is request 10 with names that are not empty, each a
    terminated text, up to an empty one that ends the payload; and the exchange
    then picks SCRAM-SHA-256 exactly when it is among the names, in any place,
    and says whether only its channel binding variant, or neither, was offered. *)
Theorem sasl_offer_exact bytes mechs :
  is_Some (auth_decode bytes) /\
  (auth_decode bytes = Some (Ok (AuthRequest.Sasl mechs)) <->
   exists kind names, bytes = kind ++ spelled_names names /\ length kind = 4%nat /\ from_be kind = Auth.SASL /\
     Forall mechanism_name names /\
     pick (X := ()) mechs =
       if bool_decide (MECH ∈ names) then Ok MECH
       else Err (ScramFail.Auth (if bool_decide (PLUS ∈ names) then Reason.SaslPlus else Reason.NoSasl))).
Proof.
  unfold auth_decode. destruct (split_array 4 bytes) as [[kind rest]|] eqn:Hs.
  - apply split_array_Some in Hs as [-> Hk]; [|done]. split.
    + destruct (_ =? Auth.OK); [by destruct rest|]. destruct (_ =? Auth.SASL).
      * destruct (auth_mechanisms_total (S (length rest)) rest Mechanisms.None rest) as [r ->]; [lia|done].
      * destruct (_ =? _); [done|]. by destruct (_ =? _).
    + split.
      * destruct (Z.eqb_spec (from_be kind) Auth.OK) as [|_]; [by destruct rest|].
        destruct (Z.eqb_spec (from_be kind) Auth.SASL) as [Hkind|_].
        -- destruct (auth_mechanisms _ _ _ _) as [[m|]|] eqn:Hm; [|done|done]. cbn. intros [= ->].
           apply auth_mechanisms_Ok in Hm as (names & Hn & -> & ->); [|lia].
           exists kind, names. split_and!; [done|lia|done|done|]. rewrite offered.
           destruct (bool_decide (MECH ∈ names)); [done|]. by destruct (bool_decide (PLUS ∈ names)).
        -- destruct (_ =? _); [done|]. by destruct (_ =? _).
      * intros (kind' & names & Hb & Hk' & Hkind & Hn & Hp). assert (length kind = length kind') by lia. apply app_inj_1 in Hb as [-> ->]; [|done].
        rewrite Hkind. change (Auth.SASL =? Auth.OK) with false. rewrite Z.eqb_refl. cbv iota.
        assert (auth_mechanisms (S (length (spelled_names names))) (spelled_names names) Mechanisms.None
                  (spelled_names names) = Some (Ok (fold_left offer names Mechanisms.None))) as Hm
          by (apply auth_mechanisms_Ok; [lia|by exists names]).
        rewrite Hm. cbn. f_equal. f_equal. rewrite offered. clear -Hp.
        destruct mechs, (bool_decide (MECH ∈ names)), (bool_decide (PLUS ∈ names)); by cbn in Hp.
  - split; [done|]. split; [done|]. intros (kind & names & -> & Hk & _).
    apply split_array_None in Hs. rewrite length_app in Hs. lia.
Qed.
