(* ===== verification/PgNotify.v ===== *)
(** * Notifications

    Models [payloads::notification] of [pg/src/protocol/logic/payloads.rs], the two
    validated fields of [reply/raw.rs], the retained notice of [reply/notice.rs] and
    the bounded queue of [protocol/runtime/notify]: a notification is parsed once,
    its texts are copied into one allocation cut at a mark, and the oldest notices
    make room. The ring of the queue and the copying allocation are the buffer
    library's, interfaces here. An unchecked read outside the bytes, or of the front
    of an empty ring, is [None]. *)
From Stdlib Require Import ZifyNat.
From S2P Require Import Prelude PgWire PgPayloads PgError.

(** ** The validated fields *)

Record NoteFields := { source : list Z; spans : (Z * Z) * (Z * Z); len : Z }.

(** [raw::Fields::new]: 32-bit endpoints and total, wrapping. *)
Definition fields_new (source : list Z) (first last : Z * Z) : NoteFields :=
  let word r := (as_u32 r.1, as_u32 r.2) in
  let add n r := as_u32 (n + as_u32 (r.2 - r.1)) in
  {| source := source; spans := (word first, word last); len := add (add 0 (word first)) (word last) |}.

(** [raw::Fields::field]. *)
Definition fields_field (f : NoteFields) (r : Z * Z) : option (list Z) :=
  bytes ← get_range (source f) r.1 r.2;
  match from_utf8 bytes with Ok () => Some bytes | Err _ => None end.

(** The copying allocation: it refuses, or holds the bytes. *)
Class Copies (X : Type) := try_copy : list Z -> result (@Hold.Copy X) (list Z).

Class CopiesLaws (X : Type) `{Copies X} := try_copied : forall l r, try_copy l = Ok r -> r = l.

(** [raw::Fields::try_compact]: nothing is allocated for no text. *)
Definition try_compact {X} `{Copies X} (f : NoteFields) : option (result (@Hold.Copy X) (list Z)) :=
  if len f =? 0 then Some (Ok [])
  else
    a ← fields_field f (spans f).1;
    b ← fields_field f (spans f).2;
    Some (try_copy (a ++ b)).

(** ** The notice *)

Record Notice := { text : list Z; cut : Z; notice_pid : Z }.

(** [Notice::try_new]. *)
Definition notice_new {X} `{Copies X} (f : NoteFields) (pid : Z) : option (result (@Hold.Copy X) Notice) :=
  name ← fields_field f (spans f).1;
  r ← try_compact f;
  Some (text ← r; Ok {| text := text; cut := as_u32 (zlen name); notice_pid := pid |}).

Definition channel (n : Notice) : option (list Z) := get_range (text n) 0 (cut n).

Definition payload (n : Notice) : option (list Z) := get_from (text n) (cut n).

Definition notice_bytes (n : Notice) : Z := zlen (text n).

(** ** The queue *)

(** A ring of a fixed capacity that is not zero. *)
Class Fifo (Q : Type) := {
  fifo_items : Q -> list Notice;
  fifo_pop : Q -> option (Notice * Q);
  fifo_push : Q -> Notice -> option Q }.

Class FifoLaws (Q : Type) (capacity : Z) `{Fifo Q} := {
  fifo_positive : 0 < capacity;
  fifo_popped : forall q,
    match fifo_items q with
    | [] => fifo_pop q = None
    | n :: l => exists q', fifo_pop q = Some (n, q') /\ fifo_items q' = l
    end;
  fifo_pushed : forall q n,
    if zlen (fifo_items q) <? capacity
    then exists q', fifo_push q n = Some q' /\ fifo_items q' = fifo_items q ++ [n]
    else fifo_push q n = None }.

Section queue.
Context {X Q : Type} `{Copies X, Fifo Q}.

Record Buffer := { queue : Q; free : Z }.

Record Queue := { buffer : Buffer; capacity : Z; dropped : Z }.

(** [Buffer::try_drop]. *)
Definition try_drop (dropped : Z) : result (Error.Error X) Z :=
  ok_or (checked_u64 (dropped + 1)) Error.NotificationDropOverflow.

(** [Buffer::pop]. *)
Definition buffer_pop (b : Buffer) : option Notice * Buffer :=
  match fifo_pop (queue b) with
  | None => (None, b)
  | Some (n, q) => (Some n, {| queue := q; free := free b + notice_bytes n |})
  end.

(** [while bytes > self.free]. *)
Fixpoint make_room (fuel : nat) (b : Buffer) (dropped bytes : Z)
    : option (Buffer * Z * result (Error.Error X) ()) :=
  match fuel with
  | O => None
  | S fuel =>
      if free b <? bytes then
        match fifo_pop (queue b) with
        | None => None
        | Some (prior, q) =>
            let b := {| queue := q; free := free b + notice_bytes prior |} in
            match try_drop dropped with
            | Err e => Some (b, dropped, Err e)
            | Ok dropped => make_room fuel b dropped bytes
            end
        end
      else Some (b, dropped, Ok ())
  end.

(** [Buffer::try_push]. *)
Definition buffer_push (b : Buffer) (dropped : Z) (notice : Notice)
    : option (Buffer * Z * result (Error.Error X) ()) :=
  let bytes := notice_bytes notice in
  match make_room (S (length (fifo_items (queue b)))) b dropped bytes with
  | None => None
  | Some (b, dropped, Err e) => Some (b, dropped, Err e)
  | Some (b, dropped, Ok ()) =>
      match fifo_push (queue b) notice with
      | Some q => Some ({| queue := q; free := free b - bytes |}, dropped, Ok ())
      | None =>
          match fifo_pop (queue b) with
          | None => None
          | Some (prior, q) =>
              let free := free b + notice_bytes prior in
              match try_drop dropped with
              | Err e => Some ({| queue := q; free := free |}, dropped, Err e)
              | Ok dropped =>
                  q ← fifo_push q notice;
                  Some ({| queue := q; free := free - bytes |}, dropped, Ok ())
              end
          end
      end
  end.

(** [Queue::try_push]; the last component says whether waiters are notified. *)
Definition try_push (s : Queue) (fields : NoteFields) (pid : Z)
    : option (Queue * result (Error.Error X) () * bool) :=
  let with_dropped d := {| buffer := buffer s; capacity := capacity s; dropped := d |} in
  if capacity s <? len fields then
    match try_drop (dropped s) with
    | Err e => Some (s, Err e, false)
    | Ok d => Some (with_dropped d, Ok (), false)
    end
  else
    notice ← notice_new fields pid;
    match notice with
    | Err error =>
        match try_drop (dropped s) with
        | Err e => Some (s, Err e, false)
        | Ok d =>
            Some (with_dropped d,
                  match error with Hold.CopyBudget _ => Ok () | Hold.Allocation x => Err (Error.StorageExhausted x) end,
                  false)
        end
    | Ok notice =>
        r ← buffer_push (buffer s) (dropped s) notice;
        let '(b, d, result) := r in
        Some ({| buffer := b; capacity := capacity s; dropped := d |}, result, is_ok result)
    end.

(** [Queue::pop]. *)
Definition pop (s : Queue) : option Notice * Queue :=
  let (n, b) := buffer_pop (buffer s) in
  (n, {| buffer := b; capacity := capacity s; dropped := dropped s |}).

(** [Queue::try_new], of an empty ring. *)
Definition queue_new (q : Q) (bytes : Z) : Queue :=
  {| buffer := {| queue := q; free := bytes |}; capacity := bytes; dropped := 0 |}.

(** ** Parsing *)

(** The fields and the process of a notification. *)
Definition note_parse (bytes : list Z) : result Reason.Reason (NoteFields * Z) :=
  match split_array 4 bytes with
  | None => Err (Reason.NotificationTruncated (zlen bytes))
  | Some (pid, body) =>
      r ← map_err (Cstring.into_note 0) (cstr body);
      let '(name, rest) := r in
      let start := zlen bytes - zlen rest in
      r ← map_err (Cstring.into_note 1) (cstr rest);
      let '(data, tail) := r in
      if negb (list_eqb tail []) then Err (Reason.NotificationTrailing (zlen tail))
      else
        let first := 4 + zlen name in
        let last := start + zlen data in
        Ok (fields_new bytes (4, first) (start, last), from_be pid)
  end.

(** [payloads::notification]. *)
Definition notification (s : Queue) (bytes : list Z) : option (Queue * result (Error.Error X) () * bool) :=
  match note_parse bytes with
  | Err e => Some (s, Err (Error.Protocol e), false)
  | Ok (fields, pid) => try_push s fields pid
  end.
End queue.

Arguments Buffer : clear implicits.
Arguments Queue : clear implicits.

(** ** The mailbox *)

(** What the queue promises: a mailbox of letters with a bound on their number and
    on their bytes, which drops the oldest for a new one and counts its losses. *)
Record Letter := { from : Z; name : list Z; body : list Z }.

Definition letter_size (l : Letter) : Z := zlen (name l) + zlen (body l).

Fixpoint letters_size (ls : list Letter) : Z :=
  match ls with [] => 0 | l :: ls => letter_size l + letters_size ls end.

(** The newest letters that leave room for [bytes] more and one place. *)
Fixpoint newest (number capacity bytes : Z) (ls : list Letter) : list Letter :=
  match ls with
  | [] => []
  | _ :: rest =>
      if (letters_size ls + bytes <=? capacity) && (zlen ls <? number) then ls
      else newest number capacity bytes rest
  end.

(** A payload spells a letter. *)
Definition spells (bytes : list Z) (l : Letter) : Prop :=
  exists pid, bytes = pid ++ name l ++ 0 :: body l ++ [0] /\ length pid = 4%nat /\ from l = from_be pid /\
    zero_free (name l) /\ zero_free (body l) /\ utf8_valid (name l) /\ utf8_valid (body l).

Record Mailbox := { letters : list Letter; lost : Z }.

(** The older letters that have to go for a letter of this size. *)
Definition displaced (number capacity : Z) (m : Mailbox) (l : Letter) : Z :=
  zlen (letters m) - zlen (newest number capacity (letter_size l) (letters m)).

(** Why the memory for a letter's text is refused; none is asked for when it is empty. *)
Definition refusal {X} `{Copies X} (l : Letter) : option (@Hold.Copy X) :=
  if letter_size l =? 0 then None
  else match try_copy (name l ++ body l) with Ok _ => None | Err e => Some e end.

(** Why a letter that arrives is not kept, and what the connection is told: it is larger
    than the whole mailbox, or its memory is refused. *)
Inductive turned_away {X} `{Copies X} (capacity : Z) (l : Letter) : result (Error.Error X) () -> Prop :=
| away_large : capacity < letter_size l -> turned_away capacity l (Ok ())
| away_budget x : letter_size l <= capacity -> refusal l = Some (Hold.CopyBudget x) -> turned_away capacity l (Ok ())
| away_memory x :
    letter_size l <= capacity -> refusal l = Some (Hold.Allocation x) ->
    turned_away capacity l (Err (Error.StorageExhausted x)).

Inductive MailEvent := Arrives (bytes : list Z) | Taken (letter : option Letter).

(** Every letter that fits the mailbox and has its memory is kept, and no more of the
    older ones go than it displaces; only the others are lost; and when the count of
    losses would wrap, the connection is told and nothing more is counted. *)
Inductive mail_step {X} `{Copies X} (number capacity : Z) (m : Mailbox) :
    MailEvent -> result (Error.Error X) () -> Mailbox -> Prop :=
| mail_kept bytes l :
    spells bytes l -> letter_size l <= capacity -> refusal l = None -> lost m + displaced number capacity m l <= u64_max ->
    mail_step number capacity m (Arrives bytes) (Ok ())
      {| letters := newest number capacity (letter_size l) (letters m) ++ [l];
         lost := lost m + displaced number capacity m l |}
| mail_lost bytes l r :
    spells bytes l -> turned_away capacity l r -> lost m < u64_max ->
    mail_step number capacity m (Arrives bytes) r {| letters := letters m; lost := lost m + 1 |}
| mail_overflow bytes l r :
    spells bytes l -> turned_away capacity l r -> lost m = u64_max ->
    mail_step number capacity m (Arrives bytes) (Err Error.NotificationDropOverflow) m
| mail_overflow_dropping bytes l k :
    spells bytes l -> letter_size l <= capacity -> refusal l = None -> u64_max < lost m + displaced number capacity m l ->
    lost m + Z.of_nat k = u64_max ->
    mail_step number capacity m (Arrives bytes) (Err Error.NotificationDropOverflow)
      {| letters := drop (S k) (letters m); lost := u64_max |}
| mail_malformed bytes r :
    (forall l, ~ spells bytes l) -> mail_step number capacity m (Arrives bytes) (Err (Error.Protocol r)) m
| mail_taken l rest :
    letters m = l :: rest -> mail_step number capacity m (Taken (Some l)) (Ok ()) {| letters := rest; lost := lost m |}
| mail_empty : letters m = [] -> mail_step number capacity m (Taken None) (Ok ()) m.

Inductive mail_steps {X} `{Copies X} (number capacity : Z) : Mailbox -> list (MailEvent * result (Error.Error X) ()) -> Mailbox -> Prop :=
| mail_done m : mail_steps number capacity m [] m
| mail_more m ev r m1 evs m2 :
    mail_step number capacity m ev r m1 -> mail_steps number capacity m1 evs m2 ->
    mail_steps number capacity m ((ev, r) :: evs) m2.

(** ** The queue serves the mailbox *)

Section serves.
Context {X Q : Type} `{CopiesLaws X, Fifo Q}.

(** A payload arrives, or the oldest notice is taken and read. *)
Definition serve (s : Queue Q) (input : option (list Z)) : option (MailEvent * result (Error.Error X) () * Queue Q) :=
  match input with
  | Some bytes => r ← notification s bytes; let '(s, r, _) := r in Some (Arrives bytes, r, s)
  | None =>
      match pop s with
      | (None, s) => Some (Taken None, Ok (), s)
      | (Some n, s) =>
          c ← channel n;
          p ← payload n;
          Some (Taken (Some {| from := notice_pid n; name := c; body := p |}), Ok (), s)
      end
  end.

Fixpoint serve_all (s : Queue Q) (inputs : list (option (list Z)))
    : option (list (MailEvent * result (Error.Error X) ()) * Queue Q) :=
  match inputs with
  | [] => Some ([], s)
  | input :: inputs =>
      r ← serve s input;
      let '(ev, r, s) := r in
      rest ← serve_all s inputs;
      Some ((ev, r) :: rest.1, rest.2)
  end.

(** A notice holds a letter. *)
Definition holds (n : Notice) (l : Letter) : Prop :=
  notice_pid n = from l /\ text n = name l ++ body l /\ cut n = zlen (name l).

Definition queue_holds (number : Z) (s : Queue Q) (m : Mailbox) : Prop :=
  Forall2 holds (fifo_items (queue (buffer s))) (letters m) /\
  free (buffer s) + letters_size (letters m) = capacity s /\ 0 <= free (buffer s) /\
  zlen (letters m) <= number /\ dropped s = lost m /\ 0 <= lost m <= u64_max.

Context {number : Z} `{!FifoLaws Q number}.

Lemma letters_size_nonneg ls : 0 <= letters_size ls.
Proof. induction ls as [|l ls IH]; simpl; [lia|]. unfold letter_size. lia. Qed.

Lemma letters_size_app ls ks : letters_size (ls ++ ks) = letters_size ls + letters_size ks.
Proof. induction ls as [|l ls IH]; simpl; lia. Qed.

Lemma holds_bytes n l : holds n l -> notice_bytes n = letter_size l.
Proof. intros (_ & Ht & _). unfold notice_bytes, letter_size. rewrite Ht, length_app. lia. Qed.

Lemma holds_read n l : holds n l -> channel n = Some (name l) /\ payload n = Some (body l).
Proof.
  intros (_ & Ht & Hc). unfold channel, payload. rewrite Ht, Hc. split.
  - apply get_range_Some. rewrite length_app. split_and!; [lia|lia|lia|].
    unfold slice. rewrite drop_0, Z.sub_0_r, Nat2Z.id, take_app_length. done.
  - rewrite get_from_Some by (rewrite length_app; lia). by rewrite Nat2Z.id, drop_app_length.
Qed.

(** *** Parsing *)

Lemma fields_read bytes a b lo hi :
  get_range bytes lo hi = Some a -> utf8_valid a -> zlen bytes <= u32_max -> b = (as_u32 lo, as_u32 hi) ->
  forall spans len, fields_field {| source := bytes; spans := spans; len := len |} b = Some a.
Proof.
  intros Hr Hu Hl -> spans len. unfold fields_field. simpl. apply get_range_Some in Hr as Hb.
  rewrite !as_u32_small by lia. rewrite Hr. simpl. by rewrite Hu.
Qed.

Lemma span_length a b : 0 <= a -> a <= b -> b <= u32_max -> as_u32 (as_u32 b - as_u32 a) = b - a.
Proof. intros. rewrite !(as_u32_small a), !(as_u32_small b), as_u32_small; lia. Qed.

Definition parsed (bytes : list Z) (f : NoteFields) (l : Letter) : Prop :=
  fields_field f (spans f).1 = Some (name l) /\ fields_field f (spans f).2 = Some (body l) /\
  len f = letter_size l /\ zlen (name l) <= u32_max.

Lemma note_parse_Ok bytes f pid :
  zlen bytes <= u32_max -> note_parse bytes = Ok (f, pid) ->
  exists l, spells bytes l /\ from l = pid /\ parsed bytes f l.
Proof.
  intros Hw. unfold note_parse. destruct (split_array 4 bytes) as [[p rest0]|] eqn:Hs; [|done].
  apply split_array_Some in Hs as [Hb Hp]; [|done].
  destruct (cstr rest0) as [[n rest]|] eqn:Hn; [|done]. apply cstr_Ok in Hn as (Hrest0 & Zn & Un).
  cbn. destruct (cstr rest) as [[d t]|] eqn:Hd; [|done]. apply cstr_Ok in Hd as (Hrest & Zd & Ud).
  cbn. destruct t as [|? ?]; [|done]. cbn. intros [= <- <-].
  exists {| from := from_be p; name := n; body := d |}. subst rest rest0.
  assert (zlen bytes = 4 + zlen n + 1 + zlen d + 1) as Hlen.
  { rewrite Hb, !length_app. cbn. rewrite length_app. cbn. lia. }
  split_and!; [by exists p; split_and!; (done || lia)|done|].
  unfold parsed, fields_new. cbn. split_and!.
  - apply (fields_read _ _ _ 4 (4 + zlen n)); [|done|done|done]. rewrite Hb.
    apply get_range_Some. rewrite !length_app. split_and!; [lia|lia|cbn; lia|].
    rewrite <- Hp. symmetry. apply slice_middle.
  - set (start := zlen bytes - zlen (d ++ [0])).
    apply (fields_read _ _ _ start (start + zlen d)); [|done|done|done].
    assert (start = zlen (p ++ n ++ [0])) as Hstart.
    { unfold start. rewrite Hlen, !length_app. cbn. lia. }
    assert (bytes = (p ++ n ++ [0]) ++ d ++ [0]) as Hb' by (rewrite Hb, <- !app_assoc; done).
    rewrite Hstart, Hb'. apply get_range_Some. rewrite !length_app. cbn. split_and!; [lia|lia|lia|].
    rewrite <- (slice_middle (p ++ n ++ [0]) d [0]) at 1. f_equal; rewrite !length_app; cbn; lia.
  - unfold letter_size. cbn [name body]. rewrite (length_app d [0]). cbn [length fst snd].
    rewrite !span_length by lia. rewrite (as_u32_small (0 + _)), as_u32_small by lia. lia.
  - lia.
Qed.
Lemma spells_parse bytes l : spells bytes l -> exists f, note_parse bytes = Ok (f, from l).
Proof.
  intros (p & -> & Hp & -> & Zn & Zd & Un & Ud). unfold note_parse. rewrite split_array_app by lia.
  rewrite (proj2 (cstr_Ok _ (name l) (body l ++ [0]))) by done. cbn.
  rewrite (proj2 (cstr_Ok _ (body l) [])) by done. cbn. eauto.
Qed.

Lemma note_parse_Err bytes e : note_parse bytes = Err e -> forall l, ~ spells bytes l.
Proof. intros He l (f & Hf)%spells_parse. congruence. Qed.

Lemma notice_new_holds bytes f l :
  parsed bytes f l ->
  exists r, notice_new f (from l) = Some r /\
    match r with Ok n => holds n l /\ refusal l = None | Err e => refusal l = Some e end.
Proof.
  intros (Hname & Hbody & H3 & H4). unfold notice_new, try_compact, refusal. rewrite Hname, H3. cbn.
  assert (forall t, t = name l ++ body l ->
    holds {| text := t; cut := as_u32 (zlen (name l)); notice_pid := from l |} l) as Hh
    by (intros t ->; split_and!; [done|done|cbn; by rewrite as_u32_small by lia]).
  destruct (Z.eqb_spec (letter_size l) 0) as [Hz|_].
  - eexists. split; [done|]. split; [|done]. apply Hh. unfold letter_size in *.
    assert (name l = [] /\ body l = []) as [-> ->]; [|done]. split; apply nil_length_inv; lia.
  - rewrite Hbody. cbn. destruct (try_copy (name l ++ body l)) as [t|e] eqn:Ht; eexists; (split; [done|]); [|done].
    split; [|done]. apply Hh. by apply try_copied in Ht.
Qed.

(** *** Room *)

Definition fits (number capacity bytes : Z) (ls : list Letter) : bool :=
  (letters_size ls + bytes <=? capacity) && (zlen ls <? number).

Lemma newest_drop capacity bytes ls k :
  (k <= length ls)%nat ->
  (forall j, (j < k)%nat -> fits number capacity bytes (drop j ls) = false) ->
  (k < length ls -> fits number capacity bytes (drop k ls) = true)%nat ->
  newest number capacity bytes ls = drop k ls.
Proof.
  revert k. induction ls as [|l ls IH]; intros [|k] Hk Hj Hf; simpl in *; try done; try lia.
  - unfold fits in Hf. simpl in Hf. by rewrite Hf by lia.
  - pose proof (Hj 0%nat ltac:(lia)) as Hz0. unfold fits in Hz0. simpl in Hz0. rewrite Hz0.
    apply IH; [lia|intros j ?; apply (Hj (S j)); lia|]. intros. apply Hf. lia.
Qed.

Lemma newest_shorter capacity bytes ls : zlen (newest number capacity bytes ls) <= zlen ls.
Proof. induction ls as [|l ls IH]; simpl; [lia|]. destruct (_ && _)%bool; simpl; lia. Qed.

(** Letters none of whose tails fit have to go. *)
Lemma newest_displaces capacity bytes ls k :
  (k <= length ls)%nat ->
  (forall j, (j < k)%nat -> fits number capacity bytes (drop j ls) = false) ->
  Z.of_nat k <= zlen ls - zlen (newest number capacity bytes ls).
Proof.
  revert k. induction ls as [|l ls IH]; intros [|k] Hk Hj; simpl in Hk; try lia.
  - simpl. lia.
  - pose proof (newest_shorter capacity bytes (l :: ls)). lia.
  - pose proof (Hj 0%nat ltac:(lia)) as Hz0. unfold fits in Hz0. simpl in *. rewrite Hz0.
    specialize (IH k ltac:(lia) (fun j Hlt => Hj (S j) ltac:(lia))). lia.
Qed.

Definition buffer_holds (capacity : Z) (b : Buffer Q) (ls : list Letter) : Prop :=
  Forall2 holds (fifo_items (queue b)) ls /\ free b + letters_size ls = capacity /\ 0 <= free b /\ zlen ls <= number.

Lemma fifo_front b l ls capacity :
  buffer_holds capacity b (l :: ls) ->
  exists n q, fifo_pop (queue b) = Some (n, q) /\ holds n l /\
    buffer_holds capacity {| queue := q; free := free b + notice_bytes n |} ls.
Proof.
  intros (Hf & Hfree & Hz0 & Hn). pose proof (fifo_popped (queue b)) as Hp.
  destruct (fifo_items (queue b)) as [|n ns]; [by apply Forall2_nil_inv_l in Hf|].
  apply Forall2_cons in Hf as [Hh Hf]. destruct Hp as (q & Hq & Hi). exists n, q. split_and!; [done|done|].
  apply holds_bytes in Hh as Hb. unfold buffer_holds. simpl in *. unfold letter_size in *.
  split_and!; [by rewrite Hi|lia|lia|lia].
Qed.

Lemma buffer_holds_length capacity b ls : buffer_holds capacity b ls -> length (fifo_items (queue b)) = length ls.
Proof. by intros (Hf%Forall2_length & _). Qed.

Lemma try_drop_spec d : 0 <= d <= u64_max ->
  try_drop (X := X) d = if d =? u64_max then Err Error.NotificationDropOverflow else Ok (d + 1).
Proof.
  intros Hd. unfold try_drop. destruct (Z.eqb_spec d u64_max) as [->|].
  - done.
  - destruct (checked_u64 (d + 1)) as [y|] eqn:E; unfold checked_u64 in E.
    + by apply checked_Some in E as [-> _].
    + apply checked_None in E. lia.
Qed.

Lemma make_room_spec capacity bytes fuel b d ls :
  buffer_holds capacity b ls -> (length ls < fuel)%nat -> bytes <= capacity -> 0 <= d <= u64_max ->
  exists b' d' r k, make_room (X := X) fuel b d bytes = Some (b', d', r) /\
    (forall j, (j < k)%nat -> letters_size (drop j ls) + bytes > capacity) /\
    match r with
    | Ok () => (k <= length ls)%nat /\ buffer_holds capacity b' (drop k ls) /\ bytes <= free b' /\
        d' = d + Z.of_nat k /\ d' <= u64_max
    | Err e => (k < length ls)%nat /\ buffer_holds capacity b' (drop (S k) ls) /\ d' = u64_max /\
        d + Z.of_nat k = u64_max /\ e = Error.NotificationDropOverflow /\ letters_size (drop k ls) + bytes > capacity
    end.
Proof.
  revert b d ls. induction fuel as [|fuel IH]; intros b d ls Hb Hl Hc Hd; [lia|]. cbn [make_room].
  destruct (Z.ltb_spec (free b) bytes) as [Hlt|Hge].
  - destruct ls as [|l ls]; [destruct Hb as (_ & Hfree & _); simpl in Hfree; lia|].
    assert (letters_size (l :: ls) + bytes > capacity) as Hbig by (destruct Hb as (_ & ? & _); lia).
    destruct (fifo_front _ _ _ _ Hb) as (n & q & -> & _ & Hb'). rewrite try_drop_spec by done.
    destruct (Z.eqb_spec d u64_max) as [->|Hne].
    + eexists _, _, _, 0%nat. split; [done|]. split; [intros; lia|]. simpl. split_and!; (done || lia).
    + destruct (IH _ (d + 1) ls Hb') as (b' & d' & r & k & Hr & Hj & Hm); [simpl in Hl; lia|done|lia|].
      exists b', d', r, (S k). split; [done|]. split.
      * intros [|j] Hlt'; [done|]. apply Hj. lia.
      * destruct r as [[]|]; simpl; naive_solver lia.
  - eexists b, d, _, 0%nat. split; [done|]. split; [intros; lia|]. simpl. rewrite drop_0. split_and!; (done || lia).
Qed.

Lemma buffer_push_spec capacity b d ls n l :
  buffer_holds capacity b ls -> holds n l -> letter_size l <= capacity -> 0 <= d <= u64_max ->
  exists b' d' r, buffer_push (X := X) b d n = Some (b', d', r) /\
    match r with
    | Ok () =>
        let kept := newest number capacity (letter_size l) ls in
        buffer_holds capacity b' (kept ++ [l]) /\ d' = d + (zlen ls - zlen kept) /\ d' <= u64_max
    | Err e => exists k, u64_max < d + (zlen ls - zlen (newest number capacity (letter_size l) ls)) /\
        buffer_holds capacity b' (drop (S k) ls) /\ d' = u64_max /\
        d + Z.of_nat k = u64_max /\ e = Error.NotificationDropOverflow
    end.
Proof.
  intros Hb Hn Hs Hd. unfold buffer_push. rewrite (holds_bytes _ _ Hn), (buffer_holds_length _ _ _ Hb).
  destruct (make_room_spec _ (letter_size l) (S (length ls)) _ d _ Hb ltac:(lia) Hs Hd)
    as (b1 & d1 & r & k & -> & Hj & Hm).
  assert (forall j, (j < k)%nat -> fits number capacity (letter_size l) (drop j ls) = false) as Hj'.
  { intros j Hlt. specialize (Hj j Hlt). unfold fits. replace (_ <=? capacity) with false by lia. done. }
  destruct r as [[]|e].
  2:{ destruct Hm as (Hk & Hb1 & -> & Hmax & -> & Hbig). eexists b1, _, (Err _). split; [done|]. exists k. split_and!; try done.
      pose proof (newest_displaces capacity (letter_size l) ls (S k) ltac:(lia)) as Hd'. unfold fits in Hj', Hd'.
      rewrite <- Hmax at 1. apply Z.add_lt_mono_l. apply Z.lt_le_trans with (Z.of_nat (S k)); [lia|]. apply Hd'.
      intros j Hlt. destruct (decide (j = k)) as [->|]; [|apply Hj'; lia].
      replace (_ <=? capacity) with false by lia. done. }
  destruct Hm as (Hk & Hb1 & Hroom & -> & Hmax). pose proof (fifo_pushed (queue b1) n) as Hp.
  rewrite (buffer_holds_length _ _ _ Hb1) in Hp.
  destruct (Z.ltb_spec (zlen (drop k ls)) number) as [Hlt|Hge].
  - destruct Hp as (q & -> & Hi). eexists _, _, _. split; [done|]. cbv zeta.
    rewrite (newest_drop capacity (letter_size l) ls k Hk Hj').
    + destruct Hb1 as (Hf & Hfree & _ & _). split_and!; [|rewrite length_drop; lia|done].
      unfold buffer_holds. cbn. rewrite Hi, letters_size_app. simpl.
      split_and!; [by apply Forall2_app; [|constructor]|lia|lia|]. rewrite length_app. simpl. lia.
    + intros _. destruct Hb1 as (_ & ? & _ & _). unfold fits. lia.
  - rewrite Hp. destruct (drop k ls) as [|l0 rest] eqn:Hd0.
    { exfalso. pose proof (fifo_positive (Q := Q) (capacity := number)). simpl in Hge. lia. }
    destruct (fifo_front _ _ _ _ Hb1) as (n0 & q & -> & Hn0 & Hb2).
    assert (drop (S k) ls = rest) as Hrest by (rewrite <- Nat.add_1_r, <- drop_drop, Hd0; done).
    assert (k < length ls)%nat as Hk'.
    { apply (f_equal length) in Hd0. rewrite length_drop in Hd0. simpl in Hd0. lia. }
    assert (zlen rest = zlen ls - Z.of_nat (S k)) as Hlr by (rewrite <- Hrest, length_drop; lia).
    assert (forall j, (j < S k)%nat -> fits number capacity (letter_size l) (drop j ls) = false) as Hjk.
    { intros j Hlt. destruct (decide (j = k)) as [->|]; [|apply Hj'; lia]. rewrite Hd0. unfold fits.
      replace (zlen (l0 :: rest) <? number) with false by lia. by rewrite andb_false_r. }
    rewrite try_drop_spec by lia. destruct (Z.eqb_spec (d + Z.of_nat k) u64_max) as [Hmax'|Hmax'].
    + eexists _, _, _. split; [done|]. exists k. rewrite Hrest. split_and!; try done.
      pose proof (newest_displaces capacity (letter_size l) ls (S k) ltac:(lia) Hjk). lia.
    + pose proof (fifo_pushed q n) as Hp2. pose proof (buffer_holds_length _ _ _ Hb2) as Hlq. simpl in Hlq.
      rewrite Hlq in Hp2. destruct Hb as (_ & _ & _ & Hcap).
      destruct (Z.ltb_spec (zlen rest) number) as [_|]; [|lia].
      destruct Hp2 as (q' & -> & Hi). eexists _, _, _. split; [done|]. cbv zeta.
      rewrite (newest_drop capacity (letter_size l) ls (S k)); [|lia| |].
      * rewrite Hrest. destruct Hb2 as (Hf & Hfree & _ & _). split_and!; [|lia|lia].
        simpl in Hf, Hfree. apply holds_bytes in Hn0. unfold buffer_holds. cbn. rewrite Hi, letters_size_app. simpl.
        unfold letter_size in *. simpl in Hroom.
        split_and!; [by apply Forall2_app; [|constructor]|lia|lia|]. rewrite length_app. simpl. lia.
      * exact Hjk.
      * intros _. rewrite Hrest. destruct Hb2 as (_ & Hfree & _ & _). simpl in Hfree. unfold fits.
        apply holds_bytes in Hn0. unfold letter_size in *. lia.
Qed.
(** *** Serving *)

Lemma queue_holds_buffer s m :
  queue_holds number s m <->
  buffer_holds (PgNotify.capacity s) (buffer s) (letters m) /\ dropped s = lost m /\ 0 <= lost m <= u64_max.
Proof. unfold queue_holds, buffer_holds. tauto. Qed.

Lemma lose_one s m d (r : result (Error.Error X) ()) bytes l :
  queue_holds number s m -> spells bytes l -> try_drop (X := X) (dropped s) = Ok d ->
  turned_away (PgNotify.capacity s) l r ->
  exists m', mail_step number (PgNotify.capacity s) m (Arrives bytes) r m' /\
    queue_holds number {| buffer := buffer s; capacity := PgNotify.capacity s; dropped := d |} m'.
Proof.
  intros (Hb & Hd & Hr)%queue_holds_buffer Hl Ht Hres. rewrite try_drop_spec in Ht by lia.
  destruct (Z.eqb_spec (dropped s) u64_max); [done|]. injection Ht as <-.
  eexists. split; [apply (mail_lost _ _ _ _ l); [done|done|lia]|]. apply queue_holds_buffer. simpl.
  split_and!; [done|lia|lia|lia].
Qed.

Lemma serve_arrival s m bytes :
  queue_holds number s m -> zlen bytes <= u32_max ->
  exists s' r n m', notification s bytes = Some (s', r, n) /\ PgNotify.capacity s' = PgNotify.capacity s /\
    mail_step number (PgNotify.capacity s) m (Arrives bytes) r m' /\ queue_holds number s' m'.
Proof.
  intros Hq Hw. apply queue_holds_buffer in Hq as Hq'. destruct Hq' as (Hb & Hd & Hr). unfold notification.
  destruct (note_parse bytes) as [[f pid]|e] eqn:Hp.
  2:{ exists s, (Err (Error.Protocol e)), false, m. split_and!; [done|done| |done].
      apply mail_malformed. by apply (note_parse_Err _ e). }
  destruct (note_parse_Ok _ _ _ Hw Hp) as (l & Hl & <- & Hf).
  assert (forall r e, turned_away (PgNotify.capacity s) l r -> try_drop (X := X) (dropped s) = Err e ->
    mail_step number (PgNotify.capacity s) m (Arrives bytes) (Err e) m) as Hover.
  { intros r e Hr'. rewrite try_drop_spec by lia. destruct (Z.eqb_spec (dropped s) u64_max); [|done]. intros [= <-].
    apply (mail_overflow _ _ _ _ l r); [done|done|lia]. }
  unfold try_push. pose proof Hf as (_ & _ & Hlen & _). rewrite Hlen.
  destruct (Z.ltb_spec (PgNotify.capacity s) (letter_size l)) as [Hbig|Hfit].
  - assert (turned_away (X := X) (PgNotify.capacity s) l (Ok ())) as Haway by by constructor.
    destruct (try_drop (dropped s)) as [d|e] eqn:Ht.
    + destruct (lose_one _ _ _ (Ok ()) _ _ Hq Hl Ht Haway) as (m' & Hm & Hq2).
      by exists {| buffer := buffer s; capacity := PgNotify.capacity s; dropped := d |}, (Ok ()), false, m'.
    + exists s, (Err e), false, m. split_and!; [done|done|by eapply Hover|done].
  - destruct (notice_new_holds bytes f l) as (r & -> & Hn); [done|]. cbn. destruct r as [n|e].
    + destruct Hn as [Hn Href].
      destruct (buffer_push_spec _ _ (dropped s) _ _ _ Hb Hn Hfit) as (b' & d' & r & -> & Hm); [lia|]. cbn.
      destruct r as [[]|e].
      * destruct Hm as (Hb' & -> & Hmax). eexists _, (Ok ()), true, _. split; [done|]. split; [done|].
        split; [apply (mail_kept _ _ _ _ l); unfold displaced; (done || lia)|].
        apply queue_holds_buffer. unfold displaced. simpl. split_and!; [done|lia| |lia].
        pose proof (newest_shorter (PgNotify.capacity s) (letter_size l) (letters m)). lia.
      * destruct Hm as (k & Hk & Hb' & -> & Hmax & ->). eexists _, _, false, _. split; [done|]. split; [done|].
        split; [apply (mail_overflow_dropping _ _ _ _ l k); unfold displaced; (done || lia)|].
        apply queue_holds_buffer. simpl. split_and!; (done || lia).
    + assert (turned_away (PgNotify.capacity s) l
        (match e with Hold.CopyBudget _ => Ok () | Hold.Allocation x => Err (Error.StorageExhausted x) end)) as Haway
        by (destruct e; by econstructor).
      destruct (try_drop (dropped s)) as [d|e'] eqn:Ht.
      * destruct (lose_one s m d _ _ _ Hq Hl Ht Haway) as (m' & Hm & Hq2).
        eexists _, _, false, m'. split; [done|]. by split_and!.
      * exists s, (Err e'), false, m. split_and!; [done|done|by eapply Hover|done].
Qed.

Lemma serve_step s m input :
  queue_holds number s m -> (forall bytes, input = Some bytes -> zlen bytes <= u32_max) ->
  exists ev r s' m', serve s input = Some (ev, r, s') /\ PgNotify.capacity s' = PgNotify.capacity s /\
    mail_step number (PgNotify.capacity s) m ev r m' /\ queue_holds number s' m'.
Proof.
  intros Hq Hw. destruct input as [bytes|]; simpl.
  - destruct (serve_arrival s m bytes Hq) as (s' & r & n & m' & -> & ?); [by apply Hw|].
    by exists (Arrives bytes), r, s', m'.
  - unfold pop, buffer_pop. apply queue_holds_buffer in Hq as (Hb & Hd & Hr).
    destruct (letters m) as [|l ls] eqn:Hm.
    + pose proof (buffer_holds_length _ _ _ Hb) as Hl. pose proof (fifo_popped (queue (buffer s))) as Hp.
      destruct (fifo_items _); [|done]. rewrite Hp. eexists (Taken None), (Ok ()), _, m. split; [done|].
      split_and!; [done|by apply mail_empty|]. apply queue_holds_buffer. simpl. by rewrite Hm.
    + destruct (fifo_front _ _ _ _ Hb) as (n & q & -> & Hn & Hb'). destruct (holds_read _ _ Hn) as [-> ->].
      cbn. eexists _, (Ok ()), _, _. split; [done|]. split; [done|]. destruct Hn as (-> & _). split.
      * destruct l. by eapply mail_taken.
      * by apply queue_holds_buffer.
Qed.

Lemma serve_all_steps inputs s m :
  queue_holds number s m -> Forall (fun i => forall bytes, i = Some bytes -> zlen bytes <= u32_max) inputs ->
  exists outs s' m', serve_all s inputs = Some (outs, s') /\ PgNotify.capacity s' = PgNotify.capacity s /\
    mail_steps number (PgNotify.capacity s) m outs m' /\ queue_holds number s' m'.
Proof.
  revert s m. induction inputs as [|input inputs IH]; intros s m Hq Hw.
  - exists [], s, m. split_and!; [done|done|constructor|done].
  - apply Forall_cons in Hw as [Hw1 Hw]. destruct (serve_step _ _ _ Hq Hw1) as (ev & r & s1 & m1 & Hs & Hc & Hm & Hq1).
    destruct (IH _ _ Hq1 Hw) as (outs & s' & m' & Ho & Hc' & Hms & Hq').
    exists ((ev, r) :: outs), s', m'. cbn [serve_all]. rewrite Hs. cbn. rewrite Ho. cbn.
    split_and!; [done|congruence| |done]. econstructor; [done|]. by rewrite <- Hc.
Qed.

(** C36. The notification queue is a bounded mailbox. For any sequence of payloads
    and takings, from an empty ring, every operation returns, no text is read
    outside its bytes and the ring is never read when empty. A payload that spells
    a notification is a letter of exactly its process, channel and text. One that is no
    larger than the mailbox and whose memory is granted is kept, after the newest earlier
    letters that leave room for it within both bounds, and no more of them go; one that is
    larger, or whose memory is refused, is lost and displaces nothing; a malformed one
    changes nothing; a taking yields the oldest letter. The counter is the number of
    letters lost, and only when it would wrap is the connection told so. *)
Theorem mailbox_refines bytes (q : Q) inputs :
  fifo_items q = [] -> 0 <= bytes ->
  Forall (fun i => forall payload, i = Some payload -> zlen payload <= u32_max) inputs ->
  exists outs s m,
    serve_all (queue_new q bytes) inputs = Some (outs, s) /\
    mail_steps number bytes {| letters := []; lost := 0 |} outs m /\
    lost m = dropped s /\ letters_size (letters m) <= bytes /\ zlen (letters m) <= number.
Proof.
  intros Hq Hb Hi. destruct (serve_all_steps inputs (queue_new q bytes) {| letters := []; lost := 0 |}) as
    (outs & s & m & Ho & Hc & Hm & (_ & Hfree & Hz & Hn & Hd & _)); [|done|].
  - pose proof (fifo_positive (Q := Q) (capacity := number)). unfold queue_holds, queue_new. simpl. rewrite Hq.
    split_and!; [constructor|lia|lia|lia|lia|lia|lia].
  - exists outs, s, m. simpl in Hc. split_and!; [done|done|lia|lia|lia].
Qed.
End serves.

(** A ring of two places, and a copy that is never refused. *)
#[local] Instance two_places : Fifo (list Notice) := {|
  fifo_items q := q;
  fifo_pop q := match q with [] => None | n :: q => Some (n, q) end;
  fifo_push q n := if zlen q <? 2 then Some (q ++ [n]) else None |}.

#[local] Instance two_places_laws : FifoLaws (list Notice) 2.
Proof.
  split; [done| |].
  - intros [|n q]; cbn; eauto.
  - intros q n. cbn. destruct (zlen q <? 2); eauto.
Qed.

#[local] Instance always_copies : Copies () := fun l => Ok l.

#[local] Instance always_copies_laws : CopiesLaws ().
Proof. intros l r [= <-]. done. Qed.

Definition note (c p : string) : list Z := [0; 0; 0; 7] ++ bytes_of c ++ [0] ++ bytes_of p ++ [0].

Definition letter (c p : string) : Letter := {| from := 7; name := bytes_of c; body := bytes_of p |}.

(** The letter that is too large is lost and displaces nothing; the next pushes the first
    out; a payload that is cut off does nothing. *)
Lemma mailbox_refines_witness :
  exists outs s m,
    serve_all (X := ()) (queue_new [] 8)
      [Some (note "a" "1"); Some (note "b" "2"); Some (note "d" "12345678"); Some (note "c" "34"); Some [0; 0; 0; 7; 97]; None; None; None] = Some (outs, s) /\
    mail_steps 2 8 {| letters := []; lost := 0 |} outs m /\ lost m = 2 /\
    outs.*1 = [Arrives (note "a" "1"); Arrives (note "b" "2"); Arrives (note "d" "12345678"); Arrives (note "c" "34");
              Arrives [0; 0; 0; 7; 97];
              Taken (Some (letter "b" "2")); Taken (Some (letter "c" "34")); Taken None].
Proof.
  edestruct (mailbox_refines 8 ([] : list Notice)
    [Some (note "a" "1"); Some (note "b" "2"); Some (note "d" "12345678"); Some (note "c" "34"); Some [0; 0; 0; 7; 97]; None; None; None])
    as (outs & s & m & Ho & Hm & Hl & _).
  - reflexivity.
  - lia.
  - repeat constructor; intros ? [= <-]; vm_compute; intros ?; discriminate.
  - exists outs, s, m. split; [exact Ho|]. split; [exact Hm|]. vm_compute in Ho. injection Ho as <- <-.
    split; [rewrite Hl; reflexivity|vm_compute; reflexivity].
Defined.
