(* ===== verification/PgSlot.v ===== *)
(** * Connection slots

    Models one slot of the connection pool, [pg/src/port/pool/slot.rs], with its
    phases, [port/pool/phases.rs], the transaction access of
    [port/pool/phases/access.rs], the batches of [port/replies/batch.rs], the
    boundaries of [port/requests.rs] and the installed key of
    [port/pool/backend/mod.rs]. A connection is known by its token and woken at its
    ready target, both the driver's. Writing a count outside its bounded width, or
    reading a binding never written, is [None]. *)
From S2P Require Import Prelude PgWire PgDiagnostic PgError PgPayloads.

(** ** Batches *)

(** [Batch]: a 64-bit count of Syncs. *)
Definition batch_next (b : Z) : Z := as_u64 (b + 1).

(** [Batch::relative_to]. *)
Definition relative_to (b expected : Z) : comparison :=
  let distance := as_u64 (b - expected) in
  if distance =? 0 then Eq else if distance <=? u64_max / 2 then Gt else Lt.

(** ** Boundaries *)

Module Boundary.
Inductive Boundary := Close | Begin | Commit | Group | Open | External.
End Boundary.

Module Sync.
Inductive Sync := Synced | Automatic (depth : Z) | Explicit (depth : Z).
End Sync.

(** [Sync::try_next]. *)
Definition try_next {X} (sync : Sync.Sync) (edge : Boundary.Boundary) : result (Error.Error X) Sync.Sync :=
  match sync, edge with
  | Sync.Synced, (Boundary.Close | Boundary.Begin | Boundary.Commit)
  | Sync.Synced, Boundary.Group
  | Sync.Automatic _, (Boundary.Close | Boundary.Begin | Boundary.Commit) => Ok Sync.Synced
  | (Sync.Automatic depth | Sync.Explicit depth), Boundary.Group => Err (Error.GroupOpen depth)
  | Sync.Synced, Boundary.Open => Ok (Sync.Automatic 1)
  | Sync.Automatic depth, Boundary.Open =>
      depth ← ok_or (checked_u32 (depth + 1)) (Error.RequestDepthOverflow depth);
      Ok (Sync.Automatic depth)
  | Sync.Synced, Boundary.External => Ok (Sync.Explicit 1)
  | Sync.Explicit depth, (Boundary.Close | Boundary.Begin | Boundary.Commit) => Err (Error.RequestCloseDuringCopy depth)
  | Sync.Explicit depth, Boundary.Open => Err (Error.RequestOpenDuringCopy depth)
  | Sync.Automatic depth, Boundary.External => Err (Error.CopyDuringPipeline depth)
  | Sync.Explicit depth, Boundary.External => Err (Error.CopyAlreadyOpen depth)
  end.

(** ** Access *)

(** [Sequence::next]: the generation after it, none past the last. *)
Definition sequence_next (s : Z) : option Z :=
  let next := as_u64 (s + 1) in if next =? 0 then None else Some next.

Module Access.
Inductive State := Shared (sequence : Z) | Reserved (generation : Z) | Held (generation : Z) | Finalizing (generation : Z) | Draining.
End Access.

#[global] Instance Access_eq_dec : EqDecision Access.State.
Proof. solve_decision. Defined.

(** The answers of a slot. *)
Module Settle.
Inductive Settle := Applied | Closing | Empty | Stale.
End Settle.

Section slot.
Context {X T R : Type} `{EqDecision T}.

Record Transaction := { conn : T; generation : Z }.

Record Bound := { token : T; target : R }.

(** ** Phases *)

Inductive Lifecycle :=
| LVacant
| LHandshaking
| LReady (access : Access.State) (receiving : bool)
| LClosing (failure : Error.Error X) (disposition : Disposition.Disposition).

(** [phases::State]: the binding is written before any live phase is published. *)
Record PhaseState := { bound_cell : option Bound; lifecycle : Lifecycle }.

Inductive Phase :=
| Vacant
| Handshaking (bound : Bound)
| Ready (bound : Bound) (access : Access.State)
| Closing (bound : Bound) (failure : Error.Error X) (disposition : Disposition.Disposition).

Definition phase_new : PhaseState := {| bound_cell := None; lifecycle := LVacant |}.

Definition phase_get (s : PhaseState) : option Phase :=
  match lifecycle s with
  | LVacant => Some Vacant
  | LHandshaking => b ← bound_cell s; Some (Handshaking b)
  | LReady access _ => b ← bound_cell s; Some (Ready b access)
  | LClosing failure disposition => b ← bound_cell s; Some (Closing b failure disposition)
  end.

Definition is_receiving (s : PhaseState) : bool :=
  match lifecycle s with LReady _ true => true | _ => false end.

Definition phase_set (s : PhaseState) (phase : Phase) : PhaseState :=
  match phase with
  | Vacant => {| bound_cell := bound_cell s; lifecycle := LVacant |}
  | Handshaking b => {| bound_cell := Some b; lifecycle := LHandshaking |}
  | Ready b access => {| bound_cell := Some b; lifecycle := LReady access (is_receiving s) |}
  | Closing b failure disposition => {| bound_cell := Some b; lifecycle := LClosing failure disposition |}
  end.

Definition set_access (s : PhaseState) (access : Access.State) : PhaseState :=
  {| bound_cell := bound_cell s; lifecycle := LReady access (is_receiving s) |}.

(** [State::set_receiving]: whether the flag changed. *)
Definition set_receiving (s : PhaseState) (id : T) (receiving : bool) : option (PhaseState * bool) :=
  match lifecycle s with
  | LReady access current =>
      if Bool.eqb current receiving then Some (s, false)
      else
        b ← bound_cell s;
        if bool_decide (token b = id)
        then Some ({| bound_cell := bound_cell s; lifecycle := LReady access receiving |}, true)
        else Some (s, false)
  | _ => Some (s, false)
  end.

Definition phase_bound (p : Phase) : option Bound :=
  match p with Vacant => None | Handshaking b | Ready b _ | Closing b _ _ => Some b end.

(** ** Slots *)

Record Slot := {
  phase : PhaseState;
  key : Key;
  slot_pid : option Z;
  sync : Sync.Sync;
  batch : Z;
  pending : Z }.

(** The bound of the pending Syncs. *)
Definition PENDING_MAX : Z := u32_max / 2 + 1.

Definition slot_new : Slot :=
  {| phase := phase_new; key := key_empty; slot_pid := None; sync := Sync.Synced; batch := 0; pending := 0 |}.

Definition with_phase (s : Slot) (p : PhaseState) : Slot :=
  {| phase := p; key := key s; slot_pid := slot_pid s; sync := sync s; batch := batch s; pending := pending s |}.

Definition is_synced (s : Slot) : bool := match sync s with Sync.Synced => true | _ => false end.

Definition can_begin (s : Slot) : bool := match sync s with Sync.Automatic _ => false | _ => true end.

(** [Slot::bind]: whether the slot was vacant. *)
Definition bind (s : Slot) (b : Bound) : option (Slot * bool) :=
  p ← phase_get (phase s);
  match p with
  | Vacant =>
      Some ({| phase := phase_set (phase s) (Handshaking b); key := key s; slot_pid := slot_pid s; sync := sync s;
               batch := 0; pending := pending s |}, true)
  | _ => Some (s, false)
  end.

(** [Slot::try_ready]. *)
Definition try_ready (s : Slot) (id : T) : option (Slot * result Reason.Reason ()) :=
  p ← phase_get (phase s);
  match p with
  | Handshaking b =>
      if bool_decide (token b = id)
      then Some (with_phase s (phase_set (phase s) (Ready b (Access.Shared 0))), Ok ())
      else Some (s, Err Reason.PrepareReady)
  | _ => Some (s, Err Reason.PrepareReady)
  end.

(** [Slot::matches]. *)
Definition matches (s : Slot) (id : T) : option bool :=
  p ← phase_get (phase s);
  Some (match phase_bound p with Some b => bool_decide (token b = id) | None => false end).

(** [Slot::ready]: whether requests are accepted. *)
Definition ready (s : Slot) (id : T) : option bool :=
  p ← phase_get (phase s);
  Some match p with
       | Ready b access => bool_decide (token b = id) && negb (bool_decide (access = Access.Draining))
       | _ => false
       end.

(** [Slot::select]. *)
Definition select (s : Slot) (id : T) (generation : option Z) : option bool :=
  p ← phase_get (phase s);
  Some match p with
       | Ready b access =>
           bool_decide (token b = id) &&
           match access, generation with
           | Access.Shared _, None => true
           | Access.Held current, Some generation => current =? generation
           | _, _ => false
           end
       | _ => false
       end.

(** [Slot::barriers]. *)
Definition barriers (s : Slot) : Z := pending s + (if is_synced s then 0 else 1).

(** *** Replies *)

(** [Permit]: an admitted transition, to be committed. *)
Record Permit := { next : Sync.Sync; current : Z; boundary : Boundary.Boundary }.

(** [Slot::permit]. *)
Definition permit (s : Slot) (next : Sync.Sync) (boundary : Boundary.Boundary) : Permit :=
  {| next := next; current := batch s; boundary := boundary |}.

(** [Ready::try_reply]. *)
Definition try_reply (s : Slot) (boundary : Boundary.Boundary) : result (Error.Error X) Permit :=
  next ← try_next (sync s) boundary; Ok (permit s next boundary).

(** [Ready::try_finish]: the Sync that ends a COPY. *)
Definition try_finish (s : Slot) : result (Error.Error X) Permit :=
  match sync s with
  | Sync.Explicit _ => Ok (permit s Sync.Synced Boundary.Close)
  | Sync.Synced => Err Error.CopyFinishWithoutStart
  | Sync.Automatic depth => Err (Error.CopyFinishDuringPipeline depth)
  end.

(** [Slot::flush]: the Sync an open pipeline is owed. *)
Definition flush (s : Slot) (id : T) : option (option Permit) :=
  p ← phase_get (phase s);
  Some match p, sync s with
       | Ready b _, Sync.Automatic _ =>
           if bool_decide (token b = id) then Some (permit s Sync.Synced Boundary.Close) else None
       | _, _ => None
       end.

(** [Permit::commit]: [None] where the bound of the pending Syncs is passed. *)
Definition commit (s : Slot) (p : Permit) : option (Slot * bool) :=
  let synced y := match y with Sync.Synced => true | _ => false end in
  let unchanged := negb (synced (next p)) || synced (sync s) in
  match boundary p with
  | Boundary.Close | Boundary.Begin | Boundary.Commit | Boundary.Group =>
      if pending s + 1 <=? PENDING_MAX then
        Some ({| phase := phase s; key := key s; slot_pid := slot_pid s; sync := next p;
                 batch := batch_next (current p); pending := pending s + 1 |}, unchanged)
      else None
  | Boundary.Open | Boundary.External =>
      Some ({| phase := phase s; key := key s; slot_pid := slot_pid s; sync := next p;
               batch := batch s; pending := pending s |}, unchanged)
  end.

(** [Slot::settle]: a ReadyForQuery answers one Sync. *)
Definition settle (s : Slot) (id : T) : option (Slot * Settle.Settle) :=
  p ← phase_get (phase s);
  let applied :=
    if 1 <=? pending s
    then ({| phase := phase s; key := key s; slot_pid := slot_pid s; sync := sync s; batch := batch s;
             pending := pending s - 1 |}, Settle.Applied)
    else (s, Settle.Empty) in
  Some match p with
       | Ready b _ => if bool_decide (token b = id) then applied else (s, Settle.Stale)
       | Closing b _ _ => if bool_decide (token b = id) then (s, Settle.Closing) else (s, Settle.Stale)
       | _ => (s, Settle.Stale)
       end.

(** [Slot::egress]: the reason the connection is to be cut with, and whether for good. *)
Definition egress (s : Slot) : option (option (bool * Close.Reason X)) :=
  p ← phase_get (phase s);
  Some match p with
       | Closing _ cause Disposition.Reconnect => Some (false, close_reason cause)
       | Closing _ cause Disposition.Permanent => Some (true, close_reason cause)
       | _ => None
       end.

(** *** Closing *)

Inductive Closed :=
| WasHandshaking
| WasShared
| WasReserved (transaction : Transaction)
| WasHeld (transaction : Transaction)
| WasFinalizing (transaction : Transaction)
| WasDraining
| WasClosing.

Record CloseResult := { closed : Closed; close_failure : Error.Error X }.

(** What an access leaves behind. *)
Definition closed_access (id : T) (access : Access.State) : Closed :=
  match access with
  | Access.Shared _ => WasShared
  | Access.Reserved g => WasReserved {| conn := id; generation := g |}
  | Access.Held g => WasHeld {| conn := id; generation := g |}
  | Access.Finalizing g => WasFinalizing {| conn := id; generation := g |}
  | Access.Draining => WasDraining
  end.

(** [Slot::try_close]: the first cause stays, the disposition only gets worse. *)
Definition try_close (s : Slot) (id : T) (cause : Error.Error X) (fate : Disposition.Disposition)
    : option (Slot * option CloseResult) :=
  p ← phase_get (phase s);
  let close b state cause fate :=
    ({| phase := phase_set (phase s) (Closing b cause fate); key := key_empty; slot_pid := None;
        sync := Sync.Synced; batch := batch s; pending := 0 |},
     Some {| closed := state; close_failure := cause |}) in
  Some match p with
       | Handshaking b => if bool_decide (token b = id) then close b WasHandshaking cause fate else (s, None)
       | Ready b access => if bool_decide (token b = id) then close b (closed_access id access) cause fate else (s, None)
       | Closing b failure old =>
           if bool_decide (token b = id) then
             close b WasClosing failure match fate with Disposition.Permanent => Disposition.Permanent | _ => old end
           else (s, None)
       | Vacant => (s, None)
       end.

(** [Slot::try_retire]: only a closing connection is retired. *)
Definition try_retire (s : Slot) (id : T) : option (Slot * option Retirement.Retirement) :=
  p ← phase_get (phase s);
  Some match p with
       | Closing b _ _ => if bool_decide (token b = id) then (with_phase s (phase_set (phase s) Vacant), None) else (s, None)
       | Handshaking b => (s, if bool_decide (token b = id) then Some Retirement.Handshaking else None)
       | Ready b access =>
           (s, if bool_decide (token b = id) then
                 Some match access with
                      | Access.Shared _ => Retirement.Shared
                      | Access.Reserved _ => Retirement.Reserved
                      | Access.Held _ => Retirement.Held
                      | Access.Finalizing _ => Retirement.Finalizing
                      | Access.Draining => Retirement.Draining
                      end
               else None)
       | Vacant => (s, None)
       end.

(** *** The backend key *)

(** [Backend::try_install]: once, while handshaking. *)
Definition try_install (s : Slot) (id : T) (k : Key) : option (Slot * result Reason.Reason ()) :=
  p ← phase_get (phase s);
  Some match p with
       | Handshaking b =>
           if negb (bool_decide (token b = id)) then (s, Err Reason.BackendKeyStale)
           else match slot_pid s with
                | Some _ => (s, Err Reason.DuplicateBackendKey)
                | None =>
                    ({| phase := phase s; key := k; slot_pid := Some (pid k); sync := sync s; batch := batch s;
                        pending := pending s |}, Ok ())
                end
       | _ => (s, Err Reason.BackendKeyStale)
       end.

(** [Backend::pid]. *)
Definition backend_pid (s : Slot) (id : T) : option (option Z) :=
  p ← phase_get (phase s);
  Some match p with Ready b _ => if bool_decide (token b = id) then slot_pid s else None | _ => None end.

(** *** Transactions *)

Inductive Current :=
| CStale
| CHandshaking
| CShared
| CReserved (id : Transaction)
| CHeld (id : Transaction)
| CFinalizing (id : Transaction)
| CDraining
| CClosing.

(** [Access::current]. *)
Definition access_current (s : Slot) (id : T) : option Current :=
  p ← phase_get (phase s);
  Some match p with
       | Vacant => CStale
       | Handshaking b => if bool_decide (token b = id) then CHandshaking else CStale
       | Ready b access =>
           if negb (bool_decide (token b = id)) then CStale
           else match access with
                | Access.Shared _ => CShared
                | Access.Reserved g => CReserved {| conn := id; generation := g |}
                | Access.Held g => CHeld {| conn := id; generation := g |}
                | Access.Finalizing g => CFinalizing {| conn := id; generation := g |}
                | Access.Draining => CDraining
                end
       | Closing b _ _ => if bool_decide (token b = id) then CClosing else CStale
       end.

(** [Access::is_current]. *)
Definition is_current (final : bool) (s : Slot) (value : Z) : option bool :=
  p ← phase_get (phase s);
  Some match p with
       | Ready _ (Access.Finalizing current) => final && (current =? value)
       | Ready _ (Access.Reserved current | Access.Held current) => negb final && (current =? value)
       | _ => false
       end.

(** [Access::reserve]: [None] where the slot was not shared, which a listed one is.
    No transaction is left past the last generation. *)
Definition reserve (s : Slot) : option (Slot * option Transaction) :=
  p ← phase_get (phase s);
  match p with
  | Ready b (Access.Shared seq) =>
      Some match sequence_next seq with
           | None => (with_phase s (set_access (phase s) Access.Draining), None)
           | Some g =>
               (with_phase s (set_access (phase s) (Access.Reserved g)), Some {| conn := token b; generation := g |})
           end
  | _ => None
  end.

(** [Reservation::activate], [Reservation::release] and [Finalizing::finish]: the
    generation held, or the sequence that follows it. *)
Definition activate (s : Slot) (id : Transaction) : Slot :=
  with_phase s (set_access (phase s) (Access.Held (generation id))).

Definition release (s : Slot) (id : Transaction) : Slot :=
  with_phase s (set_access (phase s) (Access.Shared (generation id))).

Inductive Finalization := Pending (id : Transaction) | Reusable (id : Transaction) | Lost (id : Transaction).

(** [Access::finalize]. *)
Definition finalize (s : Slot) (id : Transaction) : option (Slot * Finalization) :=
  p ← phase_get (phase s);
  Some match p with
       | Ready b access =>
           if negb (bool_decide (token b = conn id)) then (s, Lost id)
           else if negb (bool_decide (access = Access.Held (generation id))) then (s, Reusable id)
           else (with_phase s (set_access (phase s) (Access.Finalizing (generation id))), Pending id)
       | _ => (s, Lost id)
       end.
End slot.

Arguments PhaseState : clear implicits.
Arguments Phase : clear implicits.
Arguments Slot : clear implicits.
Arguments Transaction : clear implicits.
Arguments Bound : clear implicits.
