(* ===== verification/PgReplies.v ===== *)
(** * The replies of a connection

    Models [pg/src/port/replies/mod.rs], the orders a connection owes replies to and
    the failures they end with, with the part of [protocol/runtime/mod.rs] that
    closes a connection and of [protocol/runtime/states.rs] that keeps the fatal
    cause. The lane that queues the orders, accepts rows for the front one and hands
    the outcomes to their waiters is [dope_fiber::reply]'s, an interface here;
    the index of ready connections is not modelled. *)
From stdpp Require Import gmap.
From S2P Require Import Prelude PgWire PgDiagnostic PgError PgPayloads PgSlot.

(** ** Tags *)

(** What an order is for; a group's is the handle of its owner. *)
Module Kind.
Inductive Kind := Command | Ready | Begin | Commit | Group (index group : Z) | Last (index group : Z) | Sync (group : Z).
End Kind.

Module Completion.
Inductive Completion := Command | Group | Last | Ready | Begin | Commit | Sync.
End Completion.

Record Tag := { tag_batch : Z; kind : Kind.Kind }.

(** [Kind::completion]. *)
Definition completion (k : Kind.Kind) : Completion.Completion :=
  match k with
  | Kind.Command => Completion.Command
  | Kind.Ready => Completion.Ready
  | Kind.Begin => Completion.Begin
  | Kind.Commit => Completion.Commit
  | Kind.Group _ _ => Completion.Group
  | Kind.Last _ _ => Completion.Last
  | Kind.Sync _ => Completion.Sync
  end.

(** [Tag::new], [Tag::command] and [Tag::sync]. *)
Definition tag_new (batch : Z) (boundary : Boundary.Boundary) : Tag :=
  {| tag_batch := batch;
     kind := match boundary with
             | Boundary.Open => Kind.Command
             | Boundary.Close | Boundary.Group | Boundary.External => Kind.Ready
             | Boundary.Begin => Kind.Begin
             | Boundary.Commit => Kind.Commit
             end |}.

Definition tag_command (batch index : Z) (last : bool) (group : Z) : Tag :=
  {| tag_batch := batch; kind := if last then Kind.Last index group else Kind.Group index group |}.

Definition tag_sync (batch group : Z) : Tag := {| tag_batch := batch; kind := Kind.Sync group |}.

(** [ReplyFailure]: how an order fails. *)
Module ReplyFailure.
Inductive ReplyFailure {X : Type} := Server (payload : list Z) | GroupServer | Failed (error : Error.Error X).
Arguments ReplyFailure : clear implicits.
End ReplyFailure.

(** The refusals of a lane. *)
Module PushError.
Inductive PushError {X : Type} :=
| Backpressure
| Capacity (x : X)
| OtherFront (front : Front.Front)
| Build (error : Hold.Error X)
| Footprint (declared actual : X).
Arguments PushError : clear implicits.
End PushError.

Module InsertError.
Inductive InsertError {X : Type} := Backpressure | Capacity (x : X) | OtherFront (front : Front.Front).
Arguments InsertError : clear implicits.
End InsertError.

(** ** The lane *)

(** A reply lane: the number of orders, the tag and the state of the front one, a
    row given to it (retained from the payload, or retained already), its failure or
    completion, and the admission of an order. *)
Class Lane (X L : Type) := {
  lane_depth : L -> Z;
  lane_tag : L -> option Tag;
  lane_front : L -> Front.Front;
  lane_build : L -> list Z -> result (PushError.PushError X) L;
  lane_push : L -> list Z -> result (InsertError.InsertError X) L;
  lane_fail : L -> ReplyFailure.ReplyFailure X -> result (InsertError.InsertError X) L;
  lane_complete : L -> L;
  lane_fail_one : L -> ReplyFailure.ReplyFailure X -> L;
  lane_admit : L -> list Tag -> result X L }.

(** Retaining a payload beyond its turn, of the buffer library. *)
Class Retention (X : Type) := retain : list Z -> result (Hold.Error X) (list Z).

(** [Signals]: the fatal cause. *)
Module Signal.
Inductive Failure {X : Type} := Driver (error : Error.Error X) | Open (x : X) | Server (payload : list Z).
Arguments Failure : clear implicits.
End Signal.

(** How an error response is routed. *)
Module ErrorRoute.
Inductive ErrorRoute := Single (plan : Plan) | Group (scope : Scope.Scope) (class : Class.Class) (completion : Completion.Completion).
End ErrorRoute.

Section replies.
Context {X T R L S : Type} `{EqDecision T, !Lane X L, !Span S X}.

(** The part of the port one connection's replies touch: its slot, its lane, the
    owners of the groups by handle, the fatal cause and the transactions woken. *)
Record Port := {
  slot : Slot X T R;
  lane : L;
  owners : gmap Z (OwnerState S);
  cause : option (Signal.Failure X);
  woken : list (Transaction T) }.

(** A token beyond the table of the transaction waiters. *)
Context (beyond : T -> option X).

Definition with_slot (p : Port) (s : Slot X T R) : Port :=
  {| slot := s; lane := lane p; owners := owners p; cause := cause p; woken := woken p |}.

Definition with_lane (p : Port) (l : L) : Port :=
  {| slot := slot p; lane := l; owners := owners p; cause := cause p; woken := woken p |}.

Definition with_owners (p : Port) (o : gmap Z (OwnerState S)) : Port :=
  {| slot := slot p; lane := lane p; owners := o; cause := cause p; woken := woken p |}.

(** [Signals::record_cause]: the first fatal cause stays. *)
Definition record_cause (p : Port) (f : Signal.Failure X) : Port :=
  let replace := match cause p with None | Some (Signal.Open _) => true | _ => false end in
  {| slot := slot p; lane := lane p; owners := owners p;
     cause := if replace then Some f else cause p; woken := woken p |}.

(** [Shared::wake_tx]. *)
Definition wake_tx (p : Port) (tx : Transaction T) : Port :=
  match beyond (conn tx) with
  | Some x => record_cause p (Signal.Driver (Error.TransactionSlot x))
  | None => {| slot := slot p; lane := lane p; owners := owners p; cause := cause p; woken := woken p ++ [tx] |}
  end.

(** [Shared::apply_close]. *)
Definition apply_close (p : Port) (c : CloseResult (X := X) (T := T)) : Port * Error.Error X :=
  (match closed c with
   | WasReserved tx | WasHeld tx | WasFinalizing tx => wake_tx p tx
   | _ => p
   end, close_failure c).

(** [Shared::wake_close]: the cause the connection closes with. *)
Definition wake_close (p : Port) (id : T) (cause : Error.Error X) (mode : Disposition.Disposition)
    : option (Port * Error.Error X) :=
  match matches (slot p) id with
  | None => None
  | Some false => Some (p, cause)
  | Some true =>
      r ← try_close (slot p) id cause mode;
      match r with
      | (s, Some close) => Some (apply_close (with_slot p s) close)
      | (s, None) => Some (with_slot p s, cause)
      end
  end.

(** [Shared::reindex], short of the listing: a draining connection closes once
    nothing is owed on it. *)
Definition reindex (p : Port) (id : T) (depth : Z) : option Port :=
  current ← access_current (slot p) id;
  match current with
  | CDraining =>
      if (depth =? 0) && (barriers (slot p) =? 0) then
        r ← wake_close p id Error.Closed Disposition.Reconnect; Some r.1
      else Some p
  | _ => Some p
  end.

(** ** The lane of a connection *)

(** [Port::responses]: the connection is this one. *)
Definition responses (p : Port) (id : T) : option bool := matches (slot p) id.

(** [Lane::complete], [Lane::fail_one] and [Lane::fail_group]. *)
Definition complete (p : Port) (id : T) : option Port :=
  let l := lane_complete (lane p) in reindex (with_lane p l) id (lane_depth l).

Definition fail_one (p : Port) (id : T) (failure : ReplyFailure.ReplyFailure X) : option Port :=
  let l := lane_fail_one (lane p) failure in reindex (with_lane p l) id (lane_depth l).

Definition fail_group (p : Port) (id : T) : option Port := fail_one p id ReplyFailure.GroupServer.

(** [Lane::try_push]. *)
Definition try_push (p : Port) (row : list Z) : Port * result (InsertError.InsertError X) () :=
  match lane_push (lane p) row with
  | Ok l => (with_lane p l, Ok ())
  | Err e => (p, Err e)
  end.

(** [Lane::try_fail]. *)
Definition try_fail (p : Port) (id : T) (failure : ReplyFailure.ReplyFailure X)
    : option (Port * result (InsertError.InsertError X) ()) :=
  match lane_fail (lane p) failure with
  | Ok l => p ← reindex (with_lane p l) id (lane_depth l); Some (p, Ok ())
  | Err e => Some (p, Err e)
  end.

(** [Lane::settle]: the orders and the Syncs left, unless the connection closes. *)
Definition lane_settle (p : Port) (id : T) (complete : bool) : option (Port * result (Error.Error X) (option Z)) :=
  let p := if complete then with_lane p (lane_complete (lane p)) else p in
  let depth := lane_depth (lane p) in
  match matches (slot p) id with
  | None => None
  | Some false => Some (p, Err (Error.Protocol Reason.TransactionLane))
  | Some true =>
      r ← settle (slot p) id;
      match r with
      | (s, Settle.Applied) =>
          let p := with_slot p s in
          p' ← reindex p id depth;
          Some (p', Ok (Some (depth + barriers (slot p'))))
      | (s, Settle.Closing) => Some (with_slot p s, Ok None)
      | (s, (Settle.Empty | Settle.Stale)) => Some (with_slot p s, Err (Error.Protocol Reason.ReadyUnknown))
      end
  end.

(** [Lane::front]: the front order of the expected batch; none while the front order
    is of a later one. *)
Definition front (p : Port) (expected : Z) : result (Error.Error X) (option Completion.Completion) :=
  match lane_tag (lane p) with
  | None => Ok None
  | Some tag =>
      match relative_to (tag_batch tag) expected with
      | Gt => Ok None
      | Lt => Err (Error.Protocol Reason.ReadyUnknown)
      | Eq => Ok (Some (completion (kind tag)))
      end
  end.

(** [Lane::inspect]. *)
Definition inspect (p : Port) (expected : Z) : result (Error.Error X) (option Kind.Kind * Front.Front) :=
  let front := lane_front (lane p) in
  match lane_tag (lane p) with
  | None => Ok (None, front)
  | Some tag =>
      match relative_to (tag_batch tag) expected with
      | Gt => Ok (None, front)
      | Lt => Err (Error.Protocol Reason.ReadyUnknown)
      | Eq => Ok (Some (kind tag), front)
      end
  end.

(** ** Groups *)

(** [Owner::record] and [Owner::resolve] through their handle. *)
Definition group_record (p : Port) (group : Z) (position : Position.Position) (plan : Plan)
    : option (Port * result (Error.Error X) ()) :=
  o ← owners p !! group;
  let (o, r) := owner_record o position plan in
  Some (with_owners p (<[group := o]> (owners p)), map_err of_group r).

Definition group_resolve (p : Port) (group : Z) (position : Position.Position)
    : option (Port * Resolution.Resolution) :=
  o ← owners p !! group;
  r ← owner_resolve o position;
  Some (with_owners p (<[group := r.1]> (owners p)), r.2).

(** [Tag::record_error]. *)
Definition record_error (p : Port) (k : Kind.Kind) (skipping : bool) (plan : Plan)
    : option (Port * result (Error.Error X) ErrorRoute.ErrorRoute) :=
  let grouped owner command :=
    let scope := plan_scope plan in
    let position :=
      match scope with
      | Scope.Connection => Position.Connection
      | Scope.Command | Scope.Unknown =>
          if skipping then Position.Recovery
          else match scope with Scope.Unknown => Position.Unknown | _ => command end
      end in
    r ← group_record p owner position plan;
    let '(p, result) := r in
    Some (p, result;; Ok (ErrorRoute.Group scope (plan_class plan) (completion k))) in
  match k with
  | Kind.Command | Kind.Ready | Kind.Begin | Kind.Commit => Some (p, Ok (ErrorRoute.Single plan))
  | Kind.Group index owner | Kind.Last index owner => grouped owner (Position.Command index)
  | Kind.Sync owner => grouped owner Position.Sync
  end.
End replies.

Arguments Port : clear implicits.
