(* ===== verification/PgTurn.v ===== *)
(** * Turns of a connection

    Models the turns a connection takes on the messages of its server,
    [pg/src/protocol/logic]: the state of [state.rs], the failure of [failure.rs], the
    messages of a ready connection in [ready.rs], the settlement of a ReadyForQuery in
    [drain.rs], the dispatch of [turn.rs] and the continuations of [pending.rs], with
    the transaction transitions of [protocol/runtime/ready/storage/index.rs]
    ([poll_ready]). The handshake is not modelled: its phases are payloads here.
    A turn is on the connection [id]; [None] is a state the code excludes. *)
From stdpp Require Import gmap.
From S2P Require Import Prelude PgWire PgDiagnostic PgError PgPayloads PgNotify PgSlot PgReplies.

(** ** State *)

Module Progress.
Inductive Progress := Running | Complete | Skipping | Unknown.
End Progress.

Module TurnPhase.
Inductive Phase {SA PR : Type} :=
| NeedsStartup
| StartupSent
| Sasl (scram : SA)
| AwaitingReady
| Preparing (remaining : PR)
| Ready
| CopyInActive
| CopyOutActive
| Failed.
Arguments Phase : clear implicits.
End TurnPhase.

(** [Pending]: what a turn leaves for later, a row or a failure the lane had no room
    for, or the status of a ReadyForQuery to be settled. *)
Module Pending.
Inductive Pending {X : Type} :=
| Row (row : list Z)
| Failure (failure : ReplyFailure.ReplyFailure X)
| Ready (status : Status.Status).
Arguments Pending : clear implicits.
End Pending.

(** [tx::poll::Readiness]. *)
Module Readiness.
Inductive Readiness := Ready | Pending.
End Readiness.

Module Action.
Inductive Action := Done | Complete | Retire | FailGroup | FailOne.
End Action.

Module DrainProgress.
Inductive Progress := Complete | Blocked.
End DrainProgress.

(** [session::response::Settlement]. *)
Module Settlement.
Inductive Settlement {X : Type} := Ready | Blocked (pending : Pending.Pending X) | Yield (pending : Pending.Pending X).
Arguments Settlement : clear implicits.
End Settlement.

Section turn.
Context {X T R L S Q SA PR KD : Type}.
Context `{EqDecision T, !Lane X L, !Span S X, !Retention X, !Copies X, !Fifo Q}.

(** A token beyond the table of transaction waiters, and leaving a shared
    derivation. *)
Context (beyond : T -> option X) (cancel : SA -> KD -> KD * option T).

Record Turn := {
  phase : TurnPhase.Phase SA PR;
  progress : Progress.Progress;
  batch : Z;
  port : Port X T R L S;
  notes : Queue Q;
  kdf : KD }.

Definition set_phase (t : Turn) (p : TurnPhase.Phase SA PR) : Turn :=
  {| phase := p; progress := progress t; batch := batch t; port := port t; notes := notes t; kdf := kdf t |}.

Definition set_progress (t : Turn) (p : Progress.Progress) : Turn :=
  {| phase := phase t; progress := p; batch := batch t; port := port t; notes := notes t; kdf := kdf t |}.

Definition set_port (t : Turn) (p : Port X T R L S) : Turn :=
  {| phase := phase t; progress := progress t; batch := batch t; port := p; notes := notes t; kdf := kdf t |}.

Definition set_notes (t : Turn) (n : Queue Q) : Turn :=
  {| phase := phase t; progress := progress t; batch := batch t; port := port t; notes := n; kdf := kdf t |}.

Definition set_kdf (t : Turn) (k : KD) : Turn :=
  {| phase := phase t; progress := progress t; batch := batch t; port := port t; notes := notes t; kdf := k |}.

Notation Error := (Error.Error X) (only parsing).

(** ** Failure *)

(** [State::cancel]. *)
Definition state_cancel (t : Turn) : Turn :=
  match phase t with
  | TurnPhase.Sasl scram => set_kdf t (cancel scram (kdf t)).1
  | _ => t
  end.

(** The disposition of a class in a phase. *)
Definition failure_mode (p : TurnPhase.Phase SA PR) (class : Class.Class) : Disposition.Disposition :=
  match p, class with
  | (TurnPhase.StartupSent | TurnPhase.Sasl _ | TurnPhase.AwaitingReady | TurnPhase.Preparing _), Class.Permanent =>
      Disposition.Permanent
  | _, _ => Disposition.Reconnect
  end.

(** [Turn::finish_failure]. *)
Definition finish_failure (t : Turn) (id : T) (class : Class.Class) (cause : Error) (server : option (list Z))
    : option Turn :=
  let t := state_cancel t in
  let mode := failure_mode (phase t) class in
  let t := set_progress (set_phase t TurnPhase.Failed) Progress.Running in
  r ← wake_close beyond (port t) id cause mode;
  let '(p, cause) := r in
  Some (set_port t
    match mode with
    | Disposition.Permanent =>
        record_cause p match server with Some error => Signal.Server error | None => Signal.Driver cause end
    | Disposition.Reconnect => p
    end).

(** [Turn::fail], [Turn::fail_server] and [Turn::fail_retained]. *)
Definition fail (t : Turn) (id : T) (error : Error) : option Turn := finish_failure t id (fail_class error) error None.

Definition fail_server (t : Turn) (id : T) (class : Class.Class) (error : list Z) : option Turn :=
  finish_failure t id class Error.Closed (Some error).

Definition fail_retained (t : Turn) (id : T) (class : Class.Class) : option Turn :=
  finish_failure t id class Error.Closed None.

(** ** Rows *)

Definition protocol {A} (r : Reason.Reason) : result Error A := Err (Error.Protocol r).

(** [Turn::push]. *)
Definition push (t : Turn) (id : T) (data : list Z) : option (Turn * result Error (option (Pending.Pending X))) :=
  match responses (port t) id with
  | None => None
  | Some false => Some (t, protocol Reason.RowUnknown)
  | Some true =>
      match front (port t) (batch t) with
      | Err e => Some (t, Err e)
      | Ok None => Some (t, protocol Reason.RowEmpty)
      | Ok (Some Completion.Sync) =>
          Some (t, match lane_front (lane (port t)) with
                   | Front.Detached => Ok None
                   | Front.Open | Front.Denied => protocol Reason.CommandData
                   | Front.Empty => protocol Reason.ReadyUnknown
                   end)
      | Ok (Some _) =>
          match lane_build (lane (port t)) data with
          | Ok l => Some (set_port t (with_lane (port t) l), Ok None)
          | Err PushError.Backpressure =>
              Some (t, match retain data with
                       | Ok row => Ok (Some (Pending.Row row))
                       | Err e => Err (Error.ResponseRetention e)
                       end)
          | Err (PushError.Capacity cause) => Some (t, Err (Error.ReplyCapacity cause))
          | Err (PushError.OtherFront Front.Detached) => Some (t, Ok None)
          | Err (PushError.OtherFront Front.Denied) => Some (t, protocol Reason.CommandData)
          | Err (PushError.OtherFront Front.Empty) => Some (t, protocol Reason.ReadyUnknown)
          | Err (PushError.OtherFront Front.Open) => Some (t, Err (Error.ReplyFront Front.Open))
          | Err (PushError.Build error) => Some (t, Err (Error.ResponseRetention error))
          | Err (PushError.Footprint declared actual) => Some (t, Err (Error.ReplyFootprint declared actual))
          end
      end
  end.

(** ** Messages of a ready connection *)

Definition is_copy (p : TurnPhase.Phase SA PR) : bool :=
  match p with TurnPhase.CopyInActive | TurnPhase.CopyOutActive => true | _ => false end.

(** A message that completes a command: the branch of [Turn::ready]. *)
Definition command_complete (t : Turn) (id : T) (typ : Z) (data : list Z)
    : option (Turn * result Error (option (Pending.Pending X))) :=
  match (if typ =? Be.COMMAND_COMPLETE then command typ data else empty typ data) with
  | Err e => Some (t, protocol e)
  | Ok () =>
      match responses (port t) id with
      | None => None
      | Some false => Some (t, protocol Reason.CommandUnknown)
      | Some true =>
          match front (port t) (batch t) with
          | Err e => Some (t, Err e)
          | Ok None => Some (t, protocol Reason.CommandEmpty)
          | Ok (Some end_) =>
              let finish t := if is_copy (phase t) then set_phase t TurnPhase.Ready else t in
              match end_ with
              | Completion.Command | Completion.Group =>
                  p ← complete beyond (port t) id; Some (finish (set_port t p), Ok None)
              | Completion.Last =>
                  p ← complete beyond (port t) id;
                  Some (finish (set_progress (set_port t p) Progress.Complete), Ok None)
              | Completion.Ready | Completion.Begin => Some (finish (set_progress t Progress.Complete), Ok None)
              | Completion.Commit =>
                  if list_eqb data (bytes_of "COMMIT" ++ [0]) then
                    Some (finish (set_progress t Progress.Complete), Ok None)
                  else if list_eqb data (bytes_of "ROLLBACK" ++ [0]) then
                    p ← fail_one beyond (port t) id (ReplyFailure.Failed Error.CommitRolledBack);
                    Some (finish (set_progress (set_port t p) Progress.Skipping), Ok None)
                  else Some (t, protocol Reason.CommitTag)
              | Completion.Sync => Some (t, Err (Error.UnexpectedReadyMessage typ))
              end
          end
      end
  end.

(** The status a ReadyForQuery may have: the branch of [Turn::ready]. *)
Definition status_check (t : Turn) (id : T) (status : Status.Status) : option (result Error ()) :=
  current ← access_current (slot (port t)) id;
  match status with
  | Status.Transaction =>
      match current with
      | CReserved _ =>
          match responses (port t) id with
          | None => None
          | Some false => Some (protocol Reason.ReadyUnknown)
          | Some true =>
              Some match front (port t) (batch t) with
                   | Err e => Err e
                   | Ok (Some Completion.Begin) => Ok ()
                   | Ok _ => protocol Reason.TransactionLease
                   end
          end
      | CHeld _ => Some (Ok ())
      | CFinalizing _ => Some (protocol Reason.TransactionOpen)
      | _ => Some (protocol Reason.TransactionLease)
      end
  | Status.Idle =>
      Some match current with CHeld _ => protocol Reason.TransactionLease | _ => Ok () end
  end.

(** [Turn::ready]. *)
Definition ready (t : Turn) (id : T) (typ : Z) (data : list Z)
    : option (Turn * result Error (option (Pending.Pending X))) :=
  let running := match progress t with Progress.Running => true | _ => false end in
  if negb running &&
     negb ((typ =? Be.PARAMETER_STATUS) || (typ =? Be.NOTIFICATION_RESPONSE) || (typ =? Be.READY_FOR_QUERY))
  then Some (t, Err (Error.UnexpectedReadyMessage typ))
  else
    let copy := is_copy (phase t) in
    let unexpected := Some (t, Err (Error.UnexpectedReadyMessage typ)) in
    let checked (r : result Reason.Reason ()) t :=
      Some match r with Ok () => (t, Ok None) | Err e => (t, protocol e) end in
    let out := match phase t with TurnPhase.CopyOutActive => true | _ => false end in
    if (typ =? Be.ROW_DESCRIPTION) || (typ =? Be.PARAMETER_DESCRIPTION) then
      if copy then unexpected else Some (t, Ok None)
    else if typ =? Be.PARAMETER_STATUS then checked (parameter data) t
    else if (typ =? Be.PARSE_COMPLETE) || (typ =? Be.BIND_COMPLETE) || (typ =? Be.NO_DATA)
            || (typ =? Be.PORTAL_SUSPENDED) then
      if copy then unexpected else checked (empty typ data) t
    else if typ =? Be.COPY_DONE then
      if negb out then unexpected
      else match empty typ data with
           | Ok () => Some (set_phase t TurnPhase.Ready, Ok None)
           | Err e => Some (t, protocol e)
           end
    else if typ =? Be.COPY_IN_RESPONSE then
      if copy then unexpected
      else match copy_format data with
           | Ok () => Some (set_phase t TurnPhase.CopyInActive, Ok None)
           | Err e => Some (t, protocol e)
           end
    else if typ =? Be.COPY_OUT_RESPONSE then
      if copy then unexpected
      else match copy_format data with
           | Ok () => Some (set_phase t TurnPhase.CopyOutActive, Ok None)
           | Err e => Some (t, protocol e)
           end
    else if (typ =? Be.COMMAND_COMPLETE) || (typ =? Be.EMPTY_QUERY_RESPONSE) then command_complete t id typ data
    else if typ =? Be.COPY_DATA then if negb out then unexpected else push t id data
    else if typ =? Be.DATA_ROW then if copy then unexpected else push t id data
    else if typ =? Be.NOTIFICATION_RESPONSE then
      r ← notification (X := X) (notes t) data;
      let '(notes, result, _) := r in
      Some (set_notes t notes, result;; Ok None)
    else if typ =? Be.READY_FOR_QUERY then
      match ready_status data with
      | Err e => Some (t, protocol e)
      | Ok status =>
          check ← status_check t id status;
          match check with
          | Err e => Some (t, Err e)
          | Ok () =>
              Some (if copy then set_phase t TurnPhase.Ready else t, Ok (Some (Pending.Ready status)))
          end
      end
    else unexpected.
(** ** Errors of the server *)

(** The plan of an error for the front order is settled: the group branch of
    [Turn::reply_error]. *)
Definition group_error (t : Turn) (id : T) (skipping : bool) (scope : Scope.Scope) (class : Class.Class)
    (end_ : Completion.Completion) : option (Turn * result Error (option (Pending.Pending X))) :=
  match scope with
  | Scope.Connection => t ← fail_retained t id class; Some (t, Ok None)
  | Scope.Unknown => Some (if skipping then t else set_progress t Progress.Unknown, Ok None)
  | Scope.Command =>
      if skipping then Some (t, Ok None)
      else
        match end_ with
        | Completion.Group | Completion.Last =>
            p ← (if bool_decide (lane_front (lane (port t)) = Front.Detached)
                 then complete beyond (port t) id else fail_group beyond (port t) id);
            Some (set_progress (set_port t p) Progress.Skipping, Ok None)
        | Completion.Sync => Some (set_progress t Progress.Skipping, Ok None)
        | Completion.Command | Completion.Ready | Completion.Begin | Completion.Commit =>
            Some (t, protocol Reason.GroupReply)
        end
  end.

(** The end of [Turn::reply_error], for an error of its own. *)
Definition single_error (t : Turn) (id : T) (end_ : option Completion.Completion) (plan : Plan)
    : option (Turn * result Error (option (Pending.Pending X))) :=
  match retain (plan_payload plan) with
  | Err error => Some (t, Err (Error.ResponseRetention error))
  | Ok server =>
      match end_ with
      | None => t ← fail_server t id (plan_class plan) server; Some (t, Ok None)
      | Some _ =>
          r ← try_fail beyond (port t) id (ReplyFailure.Server server);
          let '(p, result) := r in
          let t := set_port t p in
          pending ←
            match result with
            | Ok () => Some (t, Ok None)
            | Err InsertError.Backpressure => Some (t, Ok (Some (Pending.Failure (ReplyFailure.Server server))))
            | Err (InsertError.Capacity cause) => Some (t, Err (Error.ReplyCapacity cause))
            | Err (InsertError.OtherFront Front.Detached) =>
                p ← complete beyond (port t) id; Some (set_port t p, Ok None)
            | Err (InsertError.OtherFront Front.Empty) => Some (t, protocol Reason.ReadyUnknown)
            | Err (InsertError.OtherFront front) => Some (t, Err (Error.ReplyFront front))
            end;
          let '(t, pending) := pending in
          match pending with
          | Err e => Some (t, Err e)
          | Ok pending =>
              match plan_scope plan with
              | Scope.Connection => t ← fail_retained t id (plan_class plan); Some (t, Ok pending)
              | Scope.Command | Scope.Unknown => Some (set_progress t Progress.Skipping, Ok pending)
              end
          end
      end
  end.

(** [Turn::reply_error]. *)
Definition reply_error (t : Turn) (id : T) (plan : Plan)
    : option (Turn * result Error (option (Pending.Pending X))) :=
  let t := if is_copy (phase t) then set_phase t TurnPhase.Ready else t in
  match responses (port t) id with
  | None => None
  | Some false => Some (t, protocol Reason.ResponseUnknown)
  | Some true =>
      match front (port t) (batch t) with
      | Err e => Some (t, Err e)
      | Ok None => single_error t id None plan
      | Ok (Some end_) =>
          let skipping := match progress t with Progress.Skipping | Progress.Unknown => true | _ => false end in
          match lane_tag (lane (port t)) with
          | None => Some (t, protocol Reason.ResponseUnknown)
          | Some tag =>
              r ← record_error (port t) (kind tag) skipping plan;
              let '(p, route) := r in
              let t := set_port t p in
              match route with
              | Err e => Some (t, Err e)
              | Ok (ErrorRoute.Single plan) => single_error t id (Some end_) plan
              | Ok (ErrorRoute.Group scope class end_) => group_error t id skipping scope class end_
              end
          end
      end
  end.

(** ** Settling a ReadyForQuery *)

(** [Index::poll_ready] of one connection, short of its listing. *)
Definition poll_ready (p : Port X T R L S) (id : T) (status : Status.Status)
    : option (Port X T R L S * Readiness.Readiness * option (Transaction T)) :=
  current ← access_current (slot p) id;
  Some match current, status with
       | CReserved tx, Status.Idle => (p, Readiness.Ready, Some tx)
       | CReserved tx, Status.Transaction => (with_slot p (activate (slot p) tx), Readiness.Ready, Some tx)
       | CHeld tx, _ => (p, Readiness.Ready, Some tx)
       | CFinalizing _, Status.Transaction => (p, Readiness.Pending, None)
       | CFinalizing tx, Status.Idle => (with_slot p (release (slot p) tx), Readiness.Ready, Some tx)
       | _, _ => (p, Readiness.Ready, None)
       end.

(** [tx::Access::poll_ready]. *)
Definition tx_poll_ready (p : Port X T R L S) (id : T) (status : Status.Status)
    : option (Port X T R L S * Readiness.Readiness) :=
  r ← poll_ready p id status;
  let '(p, state, wake) := r in
  Some (match wake with Some tx => wake_tx beyond p tx | None => p end, state).

(** The work a turn may do, of the driver: whether one more step is admitted. *)
Context {A : Type} (work_admit : A -> option A).

(** What the closure of [Turn::try_settle] answers. *)
Definition settle_action (t : Turn) (work : A)
    : option (Turn * A * result Error (option Action.Action)) :=
  match inspect (port t) (batch t) with
  | Err e => Some (t, work, Err e)
  | Ok (end_, front) =>
      let admitted (k : A -> option (Turn * A * result Error (option Action.Action))) :=
        match work_admit work with None => Some (t, work, Ok None) | Some work => k work end in
      match progress t with
      | Progress.Complete =>
          match end_ with
          | Some (Kind.Ready | Kind.Begin | Kind.Commit | Kind.Sync _) =>
              admitted (fun work => Some (t, work, Ok (Some Action.Complete)))
          | _ => Some (t, work, protocol Reason.ReadyUnknown)
          end
      | progress =>
          match end_ with
          | None => Some (t, work, Ok (Some Action.Done))
          | Some (Kind.Sync group) =>
              match progress with
              | Progress.Running => Some (t, work, protocol Reason.ReadyUnknown)
              | _ =>
                  admitted (fun work =>
                    p ← match progress with
                        | Progress.Unknown => r ← group_resolve (port t) group Position.Sync; Some r.1
                        | _ => Some (port t)
                        end;
                    Some (set_port t p, work, Ok (Some Action.Complete)))
              end
          | Some end_ =>
              match progress, end_ with
              | Progress.Skipping, _
              | Progress.Unknown, (Kind.Group _ _ | Kind.Last _ _) =>
                  let command :=
                    match progress, end_ with
                    | Progress.Unknown, (Kind.Group index group | Kind.Last index group) =>
                        Some (group, Position.Command index)
                    | _, _ => None
                    end in
                  admitted (fun work =>
                    r ← match command return option (Port X T R L S * bool) with
                        | Some (group, position) =>
                            r ← group_resolve (port t) group position;
                            Some (r.1, match r.2 with Resolution.Resolved => true | Resolution.Unchanged => false end)
                        | None => Some (port t, false)
                        end;
                    Some (set_port t r.1, work,
                          Ok (Some (if bool_decide (front = Front.Detached) then Action.Retire
                                    else if r.2 : bool then Action.FailGroup else Action.FailOne))))
              | Progress.Unknown, _ => Some (t, work, protocol Reason.GroupReply)
              | _, _ => Some (t, work, protocol Reason.ReadyUnknown)
              end
          end
      end
  end.

(** The loop of [Turn::try_settle]: whether the front order completes, [None] when
    out of work. A turn takes an order off the lane. *)
Fixpoint settle_loop (fuel : nat) (t : Turn) (id : T) (work : A)
    : option (Turn * A * result Error (option bool)) :=
  match fuel with
  | O => None
  | Datatypes.S fuel =>
      r ← settle_action t work;
      let '(t, work, action) := r in
      match action with
      | Err e => Some (t, work, Err e)
      | Ok None => Some (t, work, Ok None)
      | Ok (Some Action.Done) => Some (t, work, Ok (Some false))
      | Ok (Some Action.Complete) => Some (t, work, Ok (Some true))
      | Ok (Some Action.Retire) =>
          p ← complete beyond (port t) id; settle_loop fuel (set_port t p) id work
      | Ok (Some Action.FailGroup) =>
          p ← fail_group beyond (port t) id; settle_loop fuel (set_port t p) id work
      | Ok (Some Action.FailOne) =>
          p ← fail_one beyond (port t) id (ReplyFailure.Failed Error.Skipped); settle_loop fuel (set_port t p) id work
      end
  end.

(** [Turn::try_settle]. *)
Definition try_settle (t : Turn) (id : T) (status : Status.Status) (work : A)
    : option (Turn * A * result Error DrainProgress.Progress) :=
  match responses (port t) id with
  | None => None
  | Some false => Some (t, work, protocol Reason.ReadyUnknown)
  | Some true =>
      r ← settle_loop (Datatypes.S (Z.to_nat (lane_depth (lane (port t))))) t id work;
      let '(t, work, complete) := r in
      match complete with
      | Err e => Some (t, work, Err e)
      | Ok None => Some (t, work, Ok DrainProgress.Blocked)
      | Ok (Some complete) =>
          r ← lane_settle beyond (port t) id complete;
          let '(p, load) := r in
          let t := set_port t p in
          match load with
          | Err e => Some (t, work, Err e)
          | Ok load =>
              let t := {| phase := phase t; progress := Progress.Running; batch := batch_next (batch t);
                          port := port t; notes := notes t; kdf := kdf t |} in
              match load with
              | None => Some (t, work, Ok DrainProgress.Complete)
              | Some _ =>
                  r ← tx_poll_ready (port t) id status;
                  let '(p, state) := r in
                  Some (set_port t p, work,
                        match state with
                        | Readiness.Pending => protocol Reason.TransactionOpen
                        | Readiness.Ready => Ok DrainProgress.Complete
                        end)
              end
          end
      end
  end.

(** ** Dispatch *)

(** The messages of the handshake, on a turn in one of its phases. *)
Context (handshake : Turn -> T -> Z -> list Z -> option (Turn * result Error ())).

(** A failing result ends the connection. *)
Definition or_fail {B} (id : T) (none : B) (r : option (Turn * result Error B)) : option (Turn * B) :=
  r ← r;
  match r with
  | (t, Ok b) => Some (t, b)
  | (t, Err e) => t ← fail t id e; Some (t, none)
  end.

(** [Turn::error]. *)
Definition error (t : Turn) (id : T) (plan : Plan) : option (Turn * option (Pending.Pending X)) :=
  match phase t with
  | TurnPhase.StartupSent | TurnPhase.AwaitingReady | TurnPhase.Sasl _ | TurnPhase.Preparing _ =>
      match retain (plan_payload plan) with
      | Ok server => t ← fail_server t id (plan_class plan) server; Some (t, None)
      | Err e => t ← fail t id (Error.ResponseRetention e); Some (t, None)
      end
  | TurnPhase.Ready | TurnPhase.CopyInActive | TurnPhase.CopyOutActive => or_fail id None (reply_error t id plan)
  | TurnPhase.NeedsStartup | TurnPhase.Failed => Some (t, None)
  end.

(** [Turn::response]: what is left for later. *)
Definition response (t : Turn) (id : T) (typ : Z) (data : list Z) : option (Turn * option (Pending.Pending X)) :=
  if typ =? Be.ERROR_RESPONSE then
    plan ← plan_parse data;
    match plan with
    | Ok plan => error t id plan
    | Err e => t ← fail t id (Error.Protocol e); Some (t, None)
    end
  else if typ =? Be.NOTICE_RESPONSE then
    fields ← try_parse data;
    match fields with
    | Ok _ => Some (t, None)
    | Err e => t ← fail t id (Error.Protocol e); Some (t, None)
    end
  else
    match phase t with
    | TurnPhase.StartupSent | TurnPhase.AwaitingReady | TurnPhase.Sasl _ | TurnPhase.Preparing _ =>
        r ← or_fail id () (handshake t id typ data); Some (r.1, None)
    | TurnPhase.Ready | TurnPhase.CopyInActive | TurnPhase.CopyOutActive => or_fail id None (ready t id typ data)
    | TurnPhase.NeedsStartup | TurnPhase.Failed => Some (t, None)
    end.

(** ** Continuations *)

(** [Pending::settle_row]. *)
Definition settle_row (t : Turn) (id : T) (pending : Pending.Pending X) : option (Turn * Settlement.Settlement X) :=
  match responses (port t) id with
  | None => None
  | Some false => t ← fail t id (Error.Protocol Reason.RowUnknown); Some (t, Settlement.Ready)
  | Some true =>
      let failed e := t ← fail t id e; Some (t, Settlement.Ready) in
      match pending with
      | Pending.Row row =>
          match try_push (port t) row with
          | (p, Ok ()) => Some (set_port t p, Settlement.Ready)
          | (_, Err InsertError.Backpressure) => Some (t, Settlement.Blocked pending)
          | (_, Err (InsertError.Capacity cause)) => failed (Error.ReplyCapacity cause)
          | (_, Err (InsertError.OtherFront Front.Detached)) => Some (t, Settlement.Ready)
          | (_, Err (InsertError.OtherFront front)) => failed (Error.ReplyFront front)
          end
      | Pending.Failure failure =>
          r ← try_fail beyond (port t) id failure;
          match r with
          | (p, Ok ()) => Some (set_port t p, Settlement.Ready)
          | (_, Err InsertError.Backpressure) => Some (t, Settlement.Blocked pending)
          | (_, Err (InsertError.Capacity cause)) => failed (Error.ReplyCapacity cause)
          | (_, Err (InsertError.OtherFront Front.Detached)) =>
              p ← complete beyond (port t) id; Some (set_port t p, Settlement.Ready)
          | (_, Err (InsertError.OtherFront front)) => failed (Error.ReplyFront front)
          end
      | Pending.Ready _ => Some (t, Settlement.Ready)
      end
  end.

(** [Pending::settle]. *)
Definition settle_pending (t : Turn) (id : T) (pending : Pending.Pending X) (work : A)
    : option (Turn * A * Settlement.Settlement X) :=
  match pending with
  | Pending.Row _ | Pending.Failure _ =>
      match work_admit work with
      | None => Some (t, work, Settlement.Yield pending)
      | Some work => r ← settle_row t id pending; Some (r.1, work, r.2)
      end
  | Pending.Ready status =>
      r ← try_settle t id status work;
      match r with
      | (t, work, Ok DrainProgress.Complete) => Some (t, work, Settlement.Ready)
      | (t, work, Ok DrainProgress.Blocked) => Some (t, work, Settlement.Yield pending)
      | (t, work, Err e) => t ← fail t id e; Some (t, work, Settlement.Ready)
      end
  end.
End turn.

Arguments Turn : clear implicits.
