(* ===== verification/PgRequests.v ===== *)
(** * Requests of a connection

    Models [pg/src/port/requests.rs]: publishing a request with the order that awaits
    its reply, the Sync an open pipeline or a COPY is owed, and the requests without
    a reply; and the admission of a command group by [api/task/group.rs]. The queue is
    [CoreQueue]'s, the slot [PgSlot]'s, the lane [PgReplies]'s. *)
From stdpp Require Import gmap.
From S2P Require Import Prelude CoreQueue PgWire PgEncode PgDiagnostic PgError PgPayloads PgSlot PgReplies.

Section requests.
Context {X T R L S B : Type} `{EqDecision T, !PgReplies.Lane X L, !Span S X, !Fair X (list Z) B}.

(** [handoff::Failure]. *)
Inductive Failure := FReply (cause : X) | FQueue (cause : Rejection.Rejection X).

(** The error of a failed handoff. *)
Definition handoff_error (b : B) (f : Failure) : Error.Error X :=
  match f with
  | FReply cause => Error.Reply cause
  | FQueue cause => Error.RequestQueue (fair_weight b) cause
  end.

(** [Access::try_with]: the order is admitted under the permit's batch, then the
    permit is committed and the request queued; whether waiters for a ready
    connection are notified. *)
Definition try_with (p : Port X T R L S) (b : B) (boundary : Boundary.Boundary) (weight : Z) (frame : list Z)
    (prepare : Port X T R L S -> Tag -> Port X T R L S * result X ())
    : option (Port X T R L S * B * result (Error.Error X) bool) :=
  match PgSlot.try_reply (slot p) boundary with
  | Err error => Some (p, b, Err error)
  | Ok permit =>
      r ← CoreQueue.try_with FQueue b p weight frame
            (fun p frame =>
              let (p, r) := prepare p (tag_new (current permit) boundary) in
              (p, match r with Ok () => Ok ((), frame) | Err cause => Err (FReply cause, frame) end))
            (fun p frame _ =>
              c ← commit (slot p) permit;
              Some (with_slot p c.1, frame, negb c.2));
      let '(b, p, result) := r in
      Some (p, b, map_err (fun e => handoff_error b e.1) result)
  end.

(** [Access::try_reply]: one order. *)
Definition admit_order (p : Port X T R L S) (tag : Tag) : Port X T R L S * result X () :=
  match lane_admit (lane p) [tag] with
  | Ok l => (with_lane p l, Ok ())
  | Err cause => (p, Err cause)
  end.

Definition try_reply (p : Port X T R L S) (b : B) (boundary : Boundary.Boundary) (weight : Z) (frame : list Z)
    : option (Port X T R L S * B * result (Error.Error X) bool) :=
  try_with p b boundary weight frame admit_order.

(** The tags of a group of [n] commands, and of its Sync. *)
Definition group_tags (batch : Z) (n : nat) (group : Z) : list Tag :=
  (fun i => tag_command batch (Z.of_nat i) (Nat.eqb (Datatypes.S i) n) group) <$> seq 0 n.

(** The admission of a group: its orders together, and its collector. *)
Definition admit_group (n : nat) (group : Z) (owner : OwnerState S) (p : Port X T R L S) (tag : Tag)
    : Port X T R L S * result X () :=
  match lane_admit (lane p) (group_tags (tag_batch tag) n group ++ [tag_sync (tag_batch tag) group]) with
  | Ok l => (with_owners (with_lane p l) (<[group := owner]> (owners p)), Ok ())
  | Err cause => (p, Err cause)
  end.

Definition try_group (p : Port X T R L S) (b : B) (weight : Z) (frame : list Z) (n : nat) (group : Z) (owner : OwnerState S)
    : option (Port X T R L S * B * result (Error.Error X) bool) :=
  try_with p b Boundary.Group weight frame (admit_group n group owner).

(** [Access::try_enqueue]: a request without a reply. *)
Definition try_enqueue (p : Port X T R L S) (b : B) (id : T) (bytes : list Z) : option (B * result (Error.Error X) ()) :=
  match matches (slot p) id with
  | None => None
  | Some false => Some (b, Err Error.Closed)
  | Some true =>
      match ready (slot p) id with
      | None => None
      | Some false => Some (b, Err Error.Closed)
      | Some true =>
          let queued := fair_weight b in
          Some match queue_push b bytes (zlen bytes) with
               | Ok b => (b, Ok ())
               | Err cause => (b, Err (Error.RequestQueue queued cause))
               end
      end
  end.

(** [Access::try_sync]: the Sync that ends a COPY. *)
Definition try_sync (p : Port X T R L S) (b : B) (id : T) : option (Port X T R L S * B * result (Error.Error X) bool) :=
  match matches (slot p) id with
  | None => None
  | Some false => Some (p, b, Err Error.Closed)
  | Some true =>
      match ready (slot p) id with
      | None => None
      | Some false => Some (p, b, Err Error.Closed)
      | Some true =>
          match try_finish (slot p) with
          | Err error => Some (p, b, Err error)
          | Ok sync =>
              let queued := fair_weight b in
              r ← CoreQueue.try_with (fun cause => cause) b p (zlen PgEncode.COPY_DONE_SYNC) PgEncode.COPY_DONE_SYNC
                    (fun p bytes => (p, Ok ((), bytes)))
                    (fun p bytes _ => c ← commit (slot p) sync; Some (with_slot p c.1, bytes, negb c.2));
              let '(b, p, result) := r in
              Some (p, b, map_err (fun e => Error.RequestQueue queued e.1) result)
          end
      end
  end.

(** [Access::try_flush]: the Sync an open pipeline is owed once its requests left; it
    goes straight to the egress, which may refuse it; the turn then closes the connection
    to reconnect ([turn.rs], [try_flush]), which ends what this file follows of it. *)
Definition try_flush (p : Port X T R L S) (b : B) (id : T) (send : list Z -> result (Error.Error X) ())
    : option (Port X T R L S * result (Error.Error X) bool) :=
  match matches (slot p) id with
  | None => None
  | Some false => Some (p, Ok false)
  | Some true =>
      permit ← flush (slot p) id;
      match permit with
      | None => Some (p, Ok false)
      | Some sync =>
          match fair_items b with
          | _ :: _ => Some (p, Ok false)
          | [] =>
              match send PgEncode.SYNC with
              | Err e => Some (p, Err e)
              | Ok () => c ← commit (slot p) sync; Some (with_slot p c.1, Ok (negb c.2))
              end
          end
      end
  end.
End requests.
