(* ===== verification/PgPipeline.v ===== *)
(** * Pipelines and their server

    What [PgAligned] composes: the laws of the lane the orders wait in, a PostgreSQL
    server that follows its protocol (commands are pipelined and synchronised in
    batches, groups and COPYs; it answers them in order, skips what follows an error
    up to the next Sync, and answers every Sync with a ReadyForQuery), and the shape
    of what such a server is owed, with its counts. *)
From stdpp Require Import gmap.
From Stdlib Require Import ZifyNat.
From S2P Require Import Prelude CoreQueue PgWire PgEncode PgDiagnostic PgError PgPayloads PgNotify PgSlot PgReplies PgTurn PgRequests.

#[local] Ltac Zify.zify_post_hook ::= Z.to_euclidean_division_equations.

(** ** The lane *)

(** An order: its tag, the state its waiter left it in, and the rows given to it. *)
Record Order := { o_tag : Tag; o_front : Front.Front; o_rows : list (list Z) }.

Module Outcome.
Inductive Outcome {X : Type} := Completed | Failed (failure : ReplyFailure.ReplyFailure X).
Arguments Outcome : clear implicits.
End Outcome.

(** An order that left the lane; a detached one has no waiter. *)
Record Done (X : Type) := {
  d_tag : Tag; d_detached : bool; d_rows : list (list Z); d_outcome : Outcome.Outcome X }.
Arguments d_tag {X}. Arguments d_detached {X}. Arguments d_rows {X}. Arguments d_outcome {X}.

Definition detached (o : Order) : bool := bool_decide (o_front o = Front.Detached).

Definition done_of {X} (o : Order) (out : Outcome.Outcome X) : Done X :=
  {| d_tag := o_tag o; d_detached := detached o; d_rows := o_rows o; d_outcome := out |}.

Definition add_row (o : Order) (row : list Z) : Order :=
  {| o_tag := o_tag o; o_front := o_front o; o_rows := o_rows o ++ [row] |}.

(** A lane is a queue of orders and the log of those that left it. Only the front
    order takes rows, when it is open; it leaves completed or failed. At most half
    of the 32-bit range of orders is retained. *)
Class LaneLaws (X L : Type) `{PgReplies.Lane X L} := {
  lane_orders : L -> list Order;
  lane_done : L -> list (Done X);
  lane_bound : forall l, zlen (lane_orders l) <= u32_max / 2;
  lane_fronts : forall l, Forall (fun o => o_front o <> Front.Empty) (lane_orders l);
  lane_depth_law : forall l, lane_depth l = zlen (lane_orders l);
  lane_tag_law : forall l, lane_tag l = o_tag <$> head (lane_orders l);
  lane_front_law : forall l, lane_front l = from_option o_front Front.Empty (head (lane_orders l));
  lane_build_law : forall l row,
    match lane_build l row, lane_orders l with
    | Ok l', o :: os => o_front o = Front.Open /\ lane_orders l' = add_row o row :: os /\ lane_done l' = lane_done l
    | Err (PushError.OtherFront f), os => f = lane_front l /\ f <> Front.Open
    | Err _, o :: os => o_front o = Front.Open
    | _, [] => False
    end;
  lane_push_law : forall l row,
    match lane_push l row, lane_orders l with
    | Ok l', o :: os => o_front o = Front.Open /\ lane_orders l' = add_row o row :: os /\ lane_done l' = lane_done l
    | Err (InsertError.OtherFront f), os => f = lane_front l /\ f <> Front.Open
    | Err _, o :: os => o_front o = Front.Open
    | _, [] => False
    end;
  lane_fail_law : forall l f,
    match lane_fail l f, lane_orders l with
    | Ok l', o :: os => o_front o <> Front.Detached /\ lane_orders l' = os /\
        lane_done l' = lane_done l ++ [done_of o (Outcome.Failed f)]
    | Err (InsertError.OtherFront f'), os => f' = lane_front l /\ (f' = Front.Detached \/ f' = Front.Empty)
    | Err _, o :: os => o_front o <> Front.Detached
    | _, [] => False
    end;
  lane_complete_law : forall l o os, lane_orders l = o :: os ->
    lane_orders (lane_complete l) = os /\ lane_done (lane_complete l) = lane_done l ++ [done_of o Outcome.Completed];
  lane_fail_one_law : forall l f o os, lane_orders l = o :: os ->
    lane_orders (lane_fail_one l f) = os /\ lane_done (lane_fail_one l f) = lane_done l ++ [done_of o (Outcome.Failed f)];
  lane_admit_law : forall l tags l', lane_admit l tags = Ok l' ->
    exists new, lane_orders l' = lane_orders l ++ new /\ o_tag <$> new = tags /\
      Forall (fun o => o_rows o = []) new /\ lane_done l' = lane_done l }.

(** ** The server *)

(** What the server has to answer: a command of an order, or a Sync; the Sync of a
    group is an order too. *)
Module Item.
Inductive Item := Command (kind : Kind.Kind) | Sync (group : option Z).
End Item.

(** How far it is with the first: running it; done, with its Sync to come; or
    discarding messages up to a Sync. *)
Module Mode.
Inductive Mode := Live | Answered | Skip.
End Mode.

Module Copying.
Inductive Copying := No | In | Out.
End Copying.

(** What became of a command: its rows and its outcome. *)
Definition Told (X : Type) : Type := Kind.Kind * list (list Z) * Outcome.Outcome X.

Record Server (X : Type) := {
  todo : list Item.Item;
  mode : Mode.Mode;
  sent : list (list Z);
  copying : Copying.Copying;
  told : list (Told X) }.
Arguments todo {X}. Arguments mode {X}. Arguments sent {X}. Arguments copying {X}. Arguments told {X}.

(** The orders of the items from a batch on. *)
Fixpoint orders_of (batch : Z) (items : list Item.Item) : list Tag :=
  match items with
  | [] => []
  | Item.Command k :: items => {| tag_batch := batch; kind := k |} :: orders_of batch items
  | Item.Sync None :: items => orders_of (batch_next batch) items
  | Item.Sync (Some g) :: items => {| tag_batch := batch; kind := Kind.Sync g |} :: orders_of (batch_next batch) items
  end.

Fixpoint syncs (items : list Item.Item) : Z :=
  match items with
  | [] => 0
  | Item.Command _ :: items => syncs items
  | Item.Sync _ :: items => 1 + syncs items
  end.

(** The kinds that close a batch: their Sync follows. *)
Definition closing (k : Kind.Kind) : bool :=
  match k with Kind.Ready | Kind.Begin | Kind.Commit => true | _ => false end.

Definition grouped (k : Kind.Kind) : bool :=
  match k with Kind.Group _ _ | Kind.Last _ _ => true | _ => false end.

(** A batch that is skipped: the commands left of it and its Sync. *)
Fixpoint skipped {X} (items : list Item.Item) : option (list (Told X) * list Item.Item) :=
  match items with
  | [] => None
  | Item.Command k :: items =>
      r ← skipped items; Some ((k, [], Outcome.Failed (ReplyFailure.Failed Error.Skipped)) :: r.1, r.2)
  | Item.Sync None :: items => Some ([], items)
  | Item.Sync (Some g) :: items => Some ([(Kind.Sync g, [], Outcome.Completed)], items)
  end.

(** What a ReadyForQuery settles: the outcomes it implies, and what is left. *)
Definition settles {X} (s : Server X) : option (list (Told X) * list Item.Item) :=
  match mode s, todo s with
  | Mode.Live, Item.Sync None :: items => Some ([], items)
  | Mode.Answered, Item.Command k :: Item.Sync None :: items => Some ([(k, sent s, Outcome.Completed)], items)
  | Mode.Answered, Item.Sync (Some g) :: items => Some ([(Kind.Sync g, [], Outcome.Completed)], items)
  | Mode.Skip, items => skipped items
  | _, _ => None
  end.

Definition with_copying {X} (s : Server X) (c : Copying.Copying) : Server X :=
  {| todo := todo s; mode := mode s; sent := sent s; copying := c; told := told s |}.

Definition with_row {X} (s : Server X) (row : list Z) : Server X :=
  {| todo := todo s; mode := mode s; sent := sent s ++ [row]; copying := copying s; told := told s |}.

(** The first command ends, and the server goes on in a mode. *)
Definition ends {X} (s : Server X) (k : Kind.Kind) (items : list Item.Item) (out : Outcome.Outcome X) (m : Mode.Mode)
    : Server X :=
  {| todo := items; mode := m; sent := []; copying := Copying.No; told := told s ++ [(k, sent s, out)] |}.

(** The messages a server may send, and what it has said then. The row of a command
    goes only to an order that takes rows, which [denied] says. *)
Inductive says {X} (denied : bool) (s : Server X) : Z -> list Z -> Server X -> Prop :=
| says_parameter data : parameter data = Ok () -> says denied s Be.PARAMETER_STATUS data s
| says_notice data fields : try_parse data = Some (Ok fields) -> says denied s Be.NOTICE_RESPONSE data s
| says_notification data l : spells data l -> wire_wf data -> says denied s Be.NOTIFICATION_RESPONSE data s
| says_description k items typ data :
    mode s = Mode.Live -> todo s = Item.Command k :: items -> copying s = Copying.No ->
    typ = Be.ROW_DESCRIPTION \/ typ = Be.PARAMETER_DESCRIPTION -> says denied s typ data s
| says_control k items typ :
    mode s = Mode.Live -> todo s = Item.Command k :: items -> copying s = Copying.No ->
    typ ∈ [Be.PARSE_COMPLETE; Be.BIND_COMPLETE; Be.NO_DATA; Be.PORTAL_SUSPENDED] -> says denied s typ [] s
| says_copy_in k items data :
    mode s = Mode.Live -> todo s = Item.Command k :: items -> copying s = Copying.No -> copy_format data = Ok () ->
    says denied s Be.COPY_IN_RESPONSE data (with_copying s Copying.In)
| says_copy_out k items data :
    mode s = Mode.Live -> todo s = Item.Command k :: items -> copying s = Copying.No -> copy_format data = Ok () ->
    says denied s Be.COPY_OUT_RESPONSE data (with_copying s Copying.Out)
| says_copy_done k items :
    mode s = Mode.Live -> todo s = Item.Command k :: items -> copying s = Copying.Out ->
    says denied s Be.COPY_DONE [] (with_copying s Copying.No)
| says_row k items row :
    mode s = Mode.Live -> todo s = Item.Command k :: items -> copying s = Copying.No -> denied = false ->
    says denied s Be.DATA_ROW row (with_row s row)
| says_copy_row k items row :
    mode s = Mode.Live -> todo s = Item.Command k :: items -> copying s = Copying.Out -> denied = false ->
    says denied s Be.COPY_DATA row (with_row s row)
| says_complete k items typ data :
    mode s = Mode.Live -> todo s = Item.Command k :: items -> k <> Kind.Commit ->
    (typ = Be.COMMAND_COMPLETE /\ command typ data = Ok () \/ typ = Be.EMPTY_QUERY_RESPONSE /\ data = []) ->
    says denied s typ data
      (if closing k
       then {| todo := todo s; mode := Mode.Answered; sent := sent s; copying := Copying.No; told := told s |}
       else ends s k items Outcome.Completed (match k with Kind.Last _ _ => Mode.Answered | _ => Mode.Live end))
| says_committed items :
    mode s = Mode.Live -> todo s = Item.Command Kind.Commit :: items ->
    says denied s Be.COMMAND_COMPLETE (bytes_of "COMMIT" ++ [0])
      {| todo := todo s; mode := Mode.Answered; sent := sent s; copying := Copying.No; told := told s |}
| says_rolled_back items :
    mode s = Mode.Live -> todo s = Item.Command Kind.Commit :: items ->
    says denied s Be.COMMAND_COMPLETE (bytes_of "ROLLBACK" ++ [0])
      (ends s Kind.Commit items (Outcome.Failed (ReplyFailure.Failed Error.CommitRolledBack)) Mode.Skip)
| says_error k items data plan :
    mode s = Mode.Live \/ mode s = Mode.Answered -> todo s = Item.Command k :: items ->
    plan_parse data = Some (Ok plan) -> plan_scope plan = Scope.Command ->
    says denied s Be.ERROR_RESPONSE data
      (ends s k items
         (Outcome.Failed (if grouped k then ReplyFailure.GroupServer else ReplyFailure.Server data)) Mode.Skip)
| says_sync_error g items data plan :
    mode s = Mode.Answered -> todo s = Item.Sync (Some g) :: items ->
    plan_parse data = Some (Ok plan) -> plan_scope plan = Scope.Command ->
    says denied s Be.ERROR_RESPONSE data
      {| todo := todo s; mode := Mode.Skip; sent := []; copying := Copying.No; told := told s |}
| says_ready data outs items :
    settles s = Some (outs, items) ->
    says denied s Be.READY_FOR_QUERY data
      {| todo := items; mode := Mode.Live; sent := []; copying := Copying.No; told := told s ++ outs |}.

(** ** The shape of what is owed *)

(** Where the items of a connection stand: after a Sync, after a pipelined command,
    after a command that closes its batch, inside a group, and after its last. *)
Module Stage.
Inductive Stage := Fresh | Piped | Closed | Within (group : Z) | Lasted (group : Z).
End Stage.

Definition advance (st : Stage.Stage) (item : Item.Item) : option Stage.Stage :=
  match st, item with
  | (Stage.Fresh | Stage.Piped), Item.Command Kind.Command => Some Stage.Piped
  | (Stage.Fresh | Stage.Piped), Item.Command (Kind.Ready | Kind.Begin | Kind.Commit) => Some Stage.Closed
  | Stage.Fresh, Item.Command (Kind.Group _ g) => Some (Stage.Within g)
  | Stage.Fresh, Item.Command (Kind.Last _ g) => Some (Stage.Lasted g)
  | Stage.Within g, Item.Command (Kind.Group _ g') => if g =? g' then Some (Stage.Within g) else None
  | Stage.Within g, Item.Command (Kind.Last _ g') => if g =? g' then Some (Stage.Lasted g) else None
  | Stage.Lasted g, Item.Sync (Some g') => if g =? g' then Some Stage.Fresh else None
  | (Stage.Closed | Stage.Piped), Item.Sync None => Some Stage.Fresh
  | _, _ => None
  end.

Fixpoint walk (st : Stage.Stage) (items : list Item.Item) : option Stage.Stage :=
  match items with [] => Some st | item :: items => st ← advance st item; walk st items end.

(** Where a slot says they stand. *)
Definition stage_of (s : Sync.Sync) : Stage.Stage :=
  match s with Sync.Synced => Stage.Fresh | Sync.Automatic _ => Stage.Piped | Sync.Explicit _ => Stage.Closed end.

Definition open_in (st : Stage.Stage) : Z := match st with Stage.Fresh => 0 | _ => 1 end.

(** The batch after the items. *)
Fixpoint batch_after (batch : Z) (items : list Item.Item) : Z :=
  match items with
  | [] => batch
  | Item.Command _ :: items => batch_after batch items
  | Item.Sync _ :: items => batch_after (batch_next batch) items
  end.

Lemma walk_app st items more : walk st (items ++ more) = (st ← walk st items; walk st more).
Proof. revert st. induction items as [|i items IH]; intros st; [done|]. simpl. by destruct (advance st i); simpl. Qed.

Lemma orders_app b items more : orders_of b (items ++ more) = orders_of b items ++ orders_of (batch_after b items) more.
Proof.
  revert b. induction items as [|[k|[g|]] items IH]; intros b; simpl; try done; by rewrite IH.
Qed.

Lemma batch_after_app b items more : batch_after b (items ++ more) = batch_after (batch_after b items) more.
Proof. revert b. induction items as [|[] items IH]; intros b; simpl; auto. Qed.

Lemma syncs_app items more : syncs (items ++ more) = syncs items + syncs more.
Proof. induction items as [|[] items IH]; simpl; lia. Qed.

Lemma syncs_nonneg items : 0 <= syncs items.
Proof. induction items as [|[] items IH]; simpl; lia. Qed.

(** Every Sync has an order of its own, but the one that ends where the walk began. *)
Lemma walk_counts st items st' b :
  walk st items = Some st' -> syncs items + open_in st' <= zlen (orders_of b items) + open_in st.
Proof.
  revert st b. induction items as [|i items IH]; intros st b H; simpl in H; [injection H as <-; simpl; lia|].
  destruct (advance st i) as [st1|] eqn:Ha; [|done]. simpl in H.
  destruct i as [k|[g|]]; simpl.
  - pose proof (IH _ b H). assert (open_in st1 <= open_in st + 1) by (destruct st1, st; simpl; lia). lia.
  - pose proof (IH _ (batch_next b) H). destruct st; try done. simpl in Ha. split_match_in Ha; [|done].
    injection Ha as <-. simpl in *. lia.
  - pose proof (IH _ (batch_next b) H). destruct st; try done; simpl in Ha; injection Ha as <-; simpl in *; lia.
Qed.

Lemma relative_same b : relative_to b b = Eq.
Proof. unfold relative_to. by rewrite Z.sub_diag. Qed.

Lemma relative_next b : relative_to (batch_next b) b = Gt.
Proof.
  unfold relative_to, batch_next, as_u64. replace ((b + 1) mod _ - b) with (1 + ((b + 1) mod 2 ^ 64 - (b + 1))) by lia.
  rewrite Zplus_mod, Zminus_mod, Z.mod_mod, Z.sub_diag by lia. done.
Qed.
