(* ===== verification/PgAligned.v ===== *)
(** * Replies stay aligned with their commands

    The composition of the requests of a connection ([PgRequests]), its turns
    ([PgTurn]) and the server of [PgPipeline]: a system whose steps are requests,
    groups, Syncs, messages, continuations, waiters and transactions in any order,
    and the invariant of its reachable states. *)
From stdpp Require Import gmap.
From Stdlib Require Import ZifyNat.
From S2P Require Import Prelude CoreQueue PgWire PgEncode PgDiagnostic PgError PgPayloads PgNotify PgSlot PgReplies PgTurn PgRequests PgPipeline.

#[local] Ltac Zify.zify_post_hook ::= Z.to_euclidean_division_equations.

(** ** The system *)

Section pipeline.
Context {X T R L S Q SA PR KD B A : Type}.
Context `{EqDecision T, !PgReplies.Lane X L, !LaneLaws X L, !Span S X, !Retention X, !Copies X, !CopiesLaws X}.
Context {number : Z} `{!Fifo Q, !FifoLaws Q number, !Fair X (list Z) B}.
Context (beyond : T -> option X) (cancel : SA -> KD -> KD * option T) (work_admit : A -> option A).
Context (handshake : Turn X T R L S Q SA PR KD -> T -> Z -> list Z ->
  option (Turn X T R L S Q SA PR KD * result (Error.Error X) ())).

(** The connection. *)
Context (id : T).

(** A payload that could be retained is the payload. *)
Context (retained : forall p r, retain p = Ok r -> r = p).

(** The turn's state, what it left for later, the queue of the frames, and the
    server. *)
Record Sys := {
  turn : Turn X T R L S Q SA PR KD;
  waiting : option (Pending.Pending X);
  frames : B;
  server : Server X }.

Definition sys_port (s : Sys) : Port X T R L S := port (turn s).

Definition with_todo (s : Sys) (p : Port X T R L S) (b : B) (items : list Item.Item) : Sys :=
  {| turn := set_port (turn s) p; waiting := waiting s; frames := b;
     server := {| todo := todo (server s) ++ items; mode := mode (server s); sent := sent (server s);
                  copying := copying (server s); told := told (server s) |} |}.

(** A request that was published is owed by the server from then on. *)
Definition published {Y} (s : Sys) (items : list Item.Item) (r : option (Port X T R L S * B * result (Error.Error X) Y))
    : option Sys :=
  r ← r;
  let '(p, b, result) := r in
  Some (with_todo s p b match result with Ok _ => items | Err _ => [] end).

(** The items of a request: its command, with a Sync when it closes its batch. *)
Definition items_of (boundary : Boundary.Boundary) : list Item.Item :=
  let k := kind (tag_new 0 boundary) in
  match boundary with
  | Boundary.Open | Boundary.External => [Item.Command k]
  | _ => [Item.Command k; Item.Sync None]
  end.

Definition group_items (n : nat) (group : Z) : list Item.Item :=
  (fun t => Item.Command (kind t)) <$> group_tags 0 n group.

(** The turn takes a message of the server. *)
Definition deliver (s : Sys) (typ : Z) (data : list Z) (sv : Server X) : option Sys :=
  r ← response beyond cancel handshake (turn s) id typ data;
  Some {| turn := r.1; waiting := r.2; frames := frames s; server := sv |}.

(** The turn goes on with what it left. *)
Definition resume (s : Sys) (pending : Pending.Pending X) (work : A) : option Sys :=
  r ← settle_pending beyond cancel work_admit (turn s) id pending work;
  let '(t, _, settlement) := r in
  Some {| turn := t;
          waiting := match settlement with
                     | Settlement.Ready => None
                     | Settlement.Blocked pending | Settlement.Yield pending => Some pending
                     end;
          frames := frames s; server := server s |}.

(** Orders whose waiters read their rows or left. *)
Definition left_by (o o' : Order) : Prop :=
  o_tag o' = o_tag o /\ o_rows o' = o_rows o /\ (o_front o' = o_front o \/ o_front o' = Front.Detached).

(** A connection that serves requests. *)
Definition connected (s : Sys) : Prop :=
  exists access receiving, lifecycle (PgSlot.phase (slot (sys_port s))) = LReady access receiving.

(** The steps of a connected system. Of the transactions only the access of the slot
    shows: it may change as the clients reserve, hold and finish one, which they
    finish only once every ReadyForQuery is settled; the generations last. The
    status of a ReadyForQuery is one the session allows. *)
Inductive step (s : Sys) : option Sys -> Prop :=
| step_deliver typ data sv :
    connected s -> waiting s = None ->
    says (bool_decide (lane_front (lane (sys_port s)) = Front.Denied)) (server s) typ data sv ->
    (typ = Be.READY_FOR_QUERY -> exists status, ready_status data = Ok status /\
       status_check (turn s) id status = Some (Ok ())) ->
    step s (deliver s typ data sv)
| step_resume pending work : connected s -> waiting s = Some pending -> step s (resume s pending work)
| step_request boundary weight frame :
    connected s -> boundary <> Boundary.Group ->
    step s (published s (items_of boundary) (try_reply (sys_port s) (frames s) boundary weight frame))
| step_group weight frame n group owner :
    connected s -> n <> 0%nat -> owners (sys_port s) !! group = None ->
    step s (published s (group_items n group ++ [Item.Sync (Some group)])
              (try_group (sys_port s) (frames s) weight frame n group owner))
| step_finish : connected s -> step s (published s [Item.Sync None] (try_sync (sys_port s) (frames s) id))
| step_flush send :
    connected s ->
    step s (r ← try_flush (sys_port s) (frames s) id send;
            Some (with_todo s r.1 (frames s) match r.2 with Ok true => [Item.Sync None] | _ => [] end))
| step_left l' :
    connected s -> Forall2 left_by (lane_orders (lane (sys_port s))) (lane_orders l') ->
    lane_done l' = lane_done (lane (sys_port s)) -> step s (Some (with_todo s (with_lane (sys_port s) l') (frames s) []))
| step_access access :
    connected s -> access <> Access.Draining ->
    (waiting s = Some (Pending.Ready Status.Transaction) -> forall g, access <> Access.Finalizing g) ->
    step s (Some (with_todo s (with_slot (sys_port s) (with_phase (slot (sys_port s)) (set_access (PgSlot.phase (slot (sys_port s))) access)))
                    (frames s) [])).

Inductive reachable (s0 : Sys) : Sys -> Prop :=
| reachable_here : reachable s0 s0
| reachable_step s s' : reachable s0 s -> step s (Some s') -> reachable s0 s'.

(** A fresh connection: nothing asked, nothing said. *)
Definition fresh (s : Sys) : Prop :=
  (exists b receiving, PgSlot.phase (slot (sys_port s)) = {| bound_cell := Some b; lifecycle := LReady (Access.Shared 0) receiving |} /\
     token b = id) /\
  sync (slot (sys_port s)) = Sync.Synced /\ pending (slot (sys_port s)) = 0 /\
  PgSlot.batch (slot (sys_port s)) = batch (turn s) /\
  lane_orders (lane (sys_port s)) = [] /\ lane_done (lane (sys_port s)) = [] /\
  waiting s = None /\ phase (turn s) = TurnPhase.Ready /\ progress (turn s) = Progress.Running /\
  fifo_items (queue (buffer (notes (turn s)))) = [] /\ dropped (notes (turn s)) = 0 /\
  PgNotify.free (buffer (notes (turn s))) = capacity (notes (turn s)) /\ 0 <= capacity (notes (turn s)) /\
  server s = {| todo := []; mode := Mode.Live; sent := []; copying := Copying.No; told := [] |}.

(** An order left with what the server told of its command; a detached one has no one
    to tell. *)
Definition same (d : Done X) (t : Told X) : Prop :=
  kind (d_tag d) = t.1.1 /\ (d_detached d = true \/ (d_rows d = t.1.2 /\ d_outcome d = t.2)).

(** What may end a connection: what the driver has no room for. *)
Definition exhaustion (e : Error.Error X) : Prop :=
  match e with
  | Error.ReplyCapacity _ | Error.ResponseRetention _ | Error.ReplyFootprint _ _ | Error.GroupDiagnosticRecords _
  | Error.GroupDiagnosticBytes _ | Error.StorageExhausted _ | Error.NotificationDropOverflow => True
  | _ => False
  end.

(** ** The invariant *)

(** An order holds these rows. *)
Definition gives (o : Order) (rows : list (list Z)) : Prop := detached o = true \/ o_rows o = rows.

(** The lane: the orders that were told of and not yet handed out, then those of the
    items, the first of them with rows. *)
Definition lane_holds (orders : list Order) (b : Z) (lag : list (Told X)) (b' : Z) (items : list Item.Item)
    (rows : list (list Z)) : Prop :=
  exists lagged rest, orders = lagged ++ rest /\
    Forall2 (fun o t => o_tag o = {| tag_batch := b; kind := t.1.1 |} /\ gives o t.1.2) lagged lag /\
    o_tag <$> rest = orders_of b' items /\
    match rest with [] => True | o :: os => gives o rows /\ Forall (fun o => gives o []) os end.

Definition progress_of (m : Mode.Mode) : Progress.Progress :=
  match m with Mode.Live => Progress.Running | Mode.Answered => Progress.Complete | Mode.Skip => Progress.Skipping end.

Definition phase_of (c : Copying.Copying) : TurnPhase.Phase SA PR :=
  match c with
  | Copying.No => TurnPhase.Ready
  | Copying.In => TurnPhase.CopyInActive
  | Copying.Out => TurnPhase.CopyOutActive
  end.

Definition commanded (items : list Item.Item) : bool := match items with Item.Command _ :: _ => true | _ => false end.

(** What the server may be in the middle of. *)
Definition poised (sv : Server X) : Prop :=
  (mode sv = Mode.Answered ->
     match todo sv with Item.Command k :: _ => closing k = true | Item.Sync (Some _) :: _ => True | _ => False end) /\
  (copying sv <> Copying.No -> mode sv = Mode.Live /\ commanded (todo sv) = true) /\
  (commanded (todo sv) = false \/ mode sv = Mode.Skip -> sent sv = []).

(** The outcomes a ReadyForQuery settles, as far as it is. *)
Inductive settling : Progress.Progress -> list (Told X) -> Prop :=
| settling_running : settling Progress.Running []
| settling_closing k rows : closing k = true -> settling Progress.Complete [(k, rows, Outcome.Completed)]
| settling_sync g rows : settling Progress.Complete [(Kind.Sync g, rows, Outcome.Completed)]
| settling_skip (skips last : list (Told X)) :
    Forall (fun t => t.2 = Outcome.Failed (ReplyFailure.Failed Error.Skipped) /\ forall g, t.1.1 <> Kind.Sync g) skips ->
    (last = [] \/ exists g rows, last = [(Kind.Sync g, rows, Outcome.Completed)]) ->
    settling Progress.Skipping (skips ++ last).

(** What is left for later, with the outcomes told and not handed out, the rows of
    the first order, the batch of the items and the Syncs settled late. *)
Inductive lagging (t : Turn X T R L S Q SA PR KD) (sv : Server X) :
    option (Pending.Pending X) -> list (Told X) -> list (list Z) -> Z -> Z -> Stage.Stage -> Prop :=
| lagging_none st :
    progress t = progress_of (mode sv) -> phase t = phase_of (copying sv) ->
    lagging t sv None [] (sent sv) (batch t) 0 st
| lagging_row row rows st :
    mode sv = Mode.Live -> progress t = Progress.Running -> phase t = phase_of (copying sv) ->
    commanded (todo sv) = true -> sent sv = rows ++ [row] -> lane_front (lane (port t)) <> Front.Denied ->
    lagging t sv (Some (Pending.Row row)) [] rows (batch t) 0 st
| lagging_failure f k rows st :
    mode sv = Mode.Skip -> progress t = Progress.Skipping -> phase t = TurnPhase.Ready -> copying sv = Copying.No ->
    sent sv = [] ->
    lagging t sv (Some (Pending.Failure f)) [(k, rows, Outcome.Failed f)] [] (batch t) 0 st
| lagging_ready status lag :
    mode sv = Mode.Live -> phase t = TurnPhase.Ready -> copying sv = Copying.No -> sent sv = [] ->
    settling (progress t) lag ->
    (status = Status.Transaction -> forall g, access_current (slot (port t)) id <> Some (CFinalizing g)) ->
    lagging t sv (Some (Pending.Ready status)) lag [] (batch_next (batch t)) 1 Stage.Fresh.

Lemma lagging_rest t sv rows b st :
  rows = sent sv -> b = batch t -> progress t = progress_of (mode sv) -> phase t = phase_of (copying sv) ->
  lagging t sv None [] rows b 0 st.
Proof. intros -> ->. apply lagging_none. Qed.

(** A slot of this connection that serves requests. *)
Definition slot_ready (s : Slot X T R) : Prop :=
  exists b access receiving, PgSlot.phase s = {| bound_cell := Some b; lifecycle := LReady access receiving |} /\
    token b = id /\ access <> Access.Draining.

(** Every handle of a group has its owner. *)
Definition owned (o : gmap Z (OwnerState S)) (tag : Tag) : Prop :=
  match kind tag with
  | Kind.Group _ g | Kind.Last _ g | Kind.Sync g => is_Some (o !! g)
  | _ => True
  end.

Record aligned (s : Sys) : Prop := {
  al_slot : slot_ready (slot (sys_port s));
  al_owned : Forall (owned (owners (sys_port s))) (o_tag <$> lane_orders (lane (sys_port s)));
  al_notes : exists m, queue_holds number (notes (turn s)) m;
  al_poised : poised (server s);
  al_lane : exists lag rows b late st handed,
    lagging (turn s) (server s) (waiting s) lag rows b late st /\
    lane_holds (lane_orders (lane (sys_port s))) (batch (turn s)) lag b (todo (server s)) rows /\
    told (server s) = handed ++ lag /\ Forall2 same (lane_done (lane (sys_port s))) handed /\
    walk st (todo (server s)) = Some (stage_of (sync (slot (sys_port s)))) /\
    pending (slot (sys_port s)) = syncs (todo (server s)) + late /\
    PgSlot.batch (slot (sys_port s)) = batch_after b (todo (server s)) }.

(** A connection that ended for want of room. *)
Definition ended (s : Sys) : Prop :=
  (exists b e d, PgSlot.phase (slot (sys_port s)) = {| bound_cell := Some b; lifecycle := LClosing e d |} /\ exhaustion e) /\
  exists handed rest, told (server s) = handed ++ rest /\ Forall2 same (lane_done (lane (sys_port s))) handed.

(** ** The slot and the failure of a turn *)

Lemma ready_matches s : slot_ready s -> matches s id = Some true.
Proof.
  intros (b & a & r & Hp & Hb & _). unfold matches, phase_get. rewrite Hp. simpl. by rewrite bool_decide_eq_true_2.
Qed.

Lemma ready_current s : slot_ready s ->
  exists c, access_current s id = Some c /\ match c with CStale | CHandshaking | CDraining | CClosing => False | _ => True end.
Proof.
  intros (b & a & r & Hp & Hb & Ha). unfold access_current, phase_get. rewrite Hp. simpl.
  rewrite bool_decide_eq_true_2 by done. simpl. destruct a; (done || by eexists).
Qed.

Lemma ready_reindex (p : Port X T R L S) d : slot_ready (slot p) -> reindex beyond p id d = Some p.
Proof. intros Hs. unfold reindex. destruct (ready_current _ Hs) as (c & -> & Hc). simpl. by destruct c. Qed.

Lemma ready_access s a : slot_ready s -> a <> Access.Draining -> slot_ready (with_phase s (set_access (PgSlot.phase s) a)).
Proof. intros (b & a0 & r & Hp & Hb & _) Ha. unfold slot_ready. simpl. unfold set_access, is_receiving. rewrite Hp. simpl. eauto 6. Qed.

Lemma ready_settle s : slot_ready s -> 1 <= pending s ->
  settle s id = Some ({| PgSlot.phase := PgSlot.phase s; key := key s; slot_pid := slot_pid s; sync := sync s;
                         PgSlot.batch := PgSlot.batch s; pending := pending s - 1 |}, Settle.Applied).
Proof.
  intros (b & a & r & Hp & Hb & _) Hn. unfold settle, phase_get. rewrite Hp. simpl.
  rewrite bool_decide_eq_true_2 by done. by destruct (Z.leb_spec 1 (pending s)); [|lia].
Qed.

Definition serving (p : TurnPhase.Phase SA PR) : Prop := exists c, p = phase_of c.

Lemma fail_ends (t : Turn X T R L S Q SA PR KD) e :
  slot_ready (slot (port t)) -> serving (phase t) ->
  exists t', fail beyond cancel t id e = Some t' /\ lane (port t') = lane (port t) /\
    exists b, PgSlot.phase (slot (port t')) = {| bound_cell := Some b; lifecycle := LClosing e Disposition.Reconnect |}.
Proof.
  intros Hs [c Hc]. unfold fail, finish_failure.
  assert (state_cancel cancel t = t) as -> by (unfold state_cancel; rewrite Hc; by destruct c).
  assert (failure_mode (phase t) (fail_class e) = Disposition.Reconnect) as -> by (rewrite Hc; by destruct c, (fail_class e)).
  unfold wake_close. cbn [port set_progress set_phase]. rewrite ready_matches by done.
  destruct Hs as (b & a & r & Hp & Hb & Ha). unfold try_close, phase_get. rewrite Hp. simpl.
  rewrite bool_decide_eq_true_2 by done. simpl. eexists. split; [done|]. unfold apply_close, wake_tx. simpl.
  destruct (closed_access id a); simpl; try (split; [done|by eexists]); destruct (beyond _); simpl; (split; [done|by eexists]).
Qed.

(** ** The orders of the lane *)

Lemma holds_head orders b0 b k items rows :
  lane_holds orders b0 [] b (Item.Command k :: items) rows ->
  exists o os, orders = o :: os /\ o_tag o = {| tag_batch := b; kind := k |} /\ gives o rows /\
    lane_holds os b0 [] b items [].
Proof.
  intros (lagged & rest & -> & Hl & Ht & Hr). apply Forall2_nil_inv_r in Hl as ->. simpl.
  destruct rest as [|o os]; [done|]. injection Ht as Ho Ht. exists o, os. destruct Hr as [Hr Hrs].
  split_and!; [done|done|done|]. exists [], os. split_and!; [done|done|done|].
  destruct os as [|o' os]; [done|]. by apply Forall_cons in Hrs.
Qed.

Lemma holds_lag orders b t lag b' items rows :
  lane_holds orders b (t :: lag) b' items rows ->
  exists o os, orders = o :: os /\ o_tag o = {| tag_batch := b; kind := t.1.1 |} /\ gives o t.1.2 /\
    lane_holds os b lag b' items rows.
Proof.
  intros (lagged & rest & -> & Hl & Ht & Hr). apply Forall2_cons_inv_r in Hl as (o & lagged' & (Ho & Hg) & Hl & ->).
  exists o, (lagged' ++ rest). split_and!; [done|done|done|]. by exists lagged', rest.
Qed.

(** The first order of the items is told of. *)
Lemma holds_told orders b lag b' b2 k items items' rows out :
  orders_of b' items = {| tag_batch := b; kind := k |} :: orders_of b2 items' ->
  lane_holds orders b lag b' items rows -> lane_holds orders b (lag ++ [(k, rows, out)]) b2 items' [].
Proof.
  intros Ho (lagged & rest & -> & Hl & Ht & Hr). rewrite Ho in Ht.
  destruct rest as [|o os]; [done|]. injection Ht as Hto Ht. destruct Hr as [Hr Hrs].
  exists (lagged ++ [o]), os. split_and!; [by rewrite <- app_assoc| |done|].
  - apply Forall2_app; [done|]. by constructor.
  - destruct os as [|o' os]; [done|]. by apply Forall_cons in Hrs.
Qed.

Lemma holds_synced orders b lag b' items rows :
  lane_holds orders b lag b' (Item.Sync None :: items) rows -> lane_holds orders b lag (batch_next b') items rows.
Proof. done. Qed.

Lemma holds_more orders b lag b' items rows new more :
  lane_holds orders b lag b' items rows -> (commanded items = false -> rows = []) ->
  o_tag <$> new = orders_of (batch_after b' items) more -> Forall (fun o => o_rows o = []) new ->
  lane_holds (orders ++ new) b lag b' (items ++ more) rows.
Proof.
  intros (lagged & rest & -> & Hl & Ht & Hr) Hc Hn He. exists lagged, (rest ++ new).
  assert (Forall (fun o => gives o []) new) as He' by (eapply Forall_impl; [done|by right]).
  split_and!; [by rewrite <- app_assoc|done|by rewrite fmap_app, orders_app, Ht, Hn|].
  destruct rest as [|o os]; simpl.
  - destruct new as [|o new]; [done|]. apply Forall_cons in He' as [Hg He']. split; [|done].
    rewrite Hc; [done|]. destruct items as [|[k|]]; done.
  - destruct Hr as [Hr Hrs]. split; [done|]. by apply Forall_app.
Qed.

Lemma gives_left o o' rows : left_by o o' -> gives o rows -> gives o' rows.
Proof.
  intros (_ & Hr & Hf) [Hd|Hg]; [left|].
  - unfold detached in *. apply bool_decide_eq_true in Hd. apply bool_decide_eq_true. destruct Hf as [->|]; done.
  - right. by rewrite Hr.
Qed.

Lemma holds_left orders orders' b lag b' items rows :
  Forall2 left_by orders orders' -> lane_holds orders b lag b' items rows -> lane_holds orders' b lag b' items rows.
Proof.
  intros Hlft (lagged & rest & -> & Hl & Ht & Hr). apply Forall2_app_inv_l in Hlft as (lagged' & rest' & H1 & H2 & ->).
  exists lagged', rest'. split_and!; [done| | |].
  - clear -H1 Hl. revert lag Hl. induction H1 as [|o o' os os' Ho Hos IH]; intros lag Hl.
    + by apply Forall2_nil_inv_l in Hl as ->.
    + apply Forall2_cons_inv_l in Hl as (t & lag' & (Htag & Hg) & Hl & ->). constructor; [|by apply IH].
      split; [|by eapply gives_left]. destruct Ho as (-> & _). done.
  - rewrite <- Ht. clear -H2. induction H2 as [|o o' os os' (Ho & _) _ IH]; [done|]. by rewrite !fmap_cons, Ho, IH.
  - destruct H2 as [|o o' os os' Ho Hos]; [done|]. destruct Hr as [Hr Hrs]. split; [by eapply gives_left|].
    clear -Hos Hrs. induction Hos as [|o o' os os' Ho Hos IH]; [done|]. apply Forall_cons in Hrs as [Hg Hrs].
    constructor; [by eapply gives_left|by apply IH].
Qed.

Lemma holds_row o os b b' items rows row :
  lane_holds (o :: os) b [] b' items rows -> lane_holds (add_row o row :: os) b [] b' items (rows ++ [row]).
Proof.
  intros (lagged & rest & Ho & Hl & Ht & Hr). apply Forall2_nil_inv_r in Hl as ->. simpl in Ho. subst rest.
  destruct Hr as [Hr Hrs]. exists [], (add_row o row :: os). split_and!; [done|done|done| |done].
  destruct Hr as [Hd|Hg]; [by left|right]. simpl. by rewrite Hg.
Qed.

Lemma holds_detached o os b b' items rows rows' :
  o_front o = Front.Detached -> lane_holds (o :: os) b [] b' items rows -> lane_holds (o :: os) b [] b' items rows'.
Proof.
  intros Hd (lagged & rest & Ho & Hl & Ht & Hr). apply Forall2_nil_inv_r in Hl as ->. simpl in Ho. subst rest.
  destruct Hr as [_ Hrs]. exists [], (o :: os). split_and!; [done|done|done| |done]. left.
  by apply bool_decide_eq_true.
Qed.

Lemma done_same o (out : Outcome.Outcome X) b k rows :
  o_tag o = {| tag_batch := b; kind := k |} -> gives o rows -> same (done_of o out) (k, rows, out).
Proof. intros Ho [Hd|Hg]; (split; [simpl; by rewrite Ho|]); [by left|by right]. Qed.

Lemma detached_same o (out out' : Outcome.Outcome X) b k rows :
  o_tag o = {| tag_batch := b; kind := k |} -> o_front o = Front.Detached -> same (done_of o out) (k, rows, out').
Proof. intros Ho Hd. split; [simpl; by rewrite Ho|]. left. by apply bool_decide_eq_true. Qed.

Lemma skipped_holds orders b lag items outs items' :
  skipped items = Some (outs, items') -> lane_holds orders b lag b items [] ->
  lane_holds orders b (lag ++ outs) (batch_next b) items' [].
Proof.
  revert lag outs. induction items as [|[k|[g|]] items IH]; intros lag outs Hsk Hl; simpl in Hsk; [done| | |].
  - destruct (skipped items) as [[outs1 items1]|] eqn:Hs; [|done]. injection Hsk as <- <-. simpl.
    apply (holds_told _ _ _ _ b k _ items _ (Outcome.Failed (ReplyFailure.Failed Error.Skipped))) in Hl; [|done].
    apply (IH _ _ eq_refl) in Hl. by rewrite <- app_assoc in Hl.
  - injection Hsk as <- <-. by eapply holds_told; [|exact Hl].
  - injection Hsk as <- <-. rewrite app_nil_r. by apply holds_synced.
Qed.

(** ** Settling *)

Definition unsynced (items : list Item.Item) : Prop := match items with Item.Sync _ :: _ => False | _ => True end.

Lemma walk_unsynced items st : walk Stage.Fresh items = Some st -> unsynced items.
Proof. by destruct items as [|[|]]. Qed.

Lemma front_head (p : Port X T R L S) b k o os :
  lane_orders (lane p) = o :: os -> o_tag o = {| tag_batch := b; kind := k |} ->
  front p b = Ok (Some (completion k)) /\ inspect p b = Ok (Some k, o_front o) /\ lane_tag (lane p) = Some (o_tag o) /\
  lane_front (lane p) = o_front o.
Proof.
  intros Ho Ht. unfold front, inspect. rewrite lane_tag_law, lane_front_law, Ho. simpl. rewrite Ht. simpl.
  by rewrite relative_same.
Qed.

Lemma front_later (p : Port X T R L S) b items rows :
  lane_holds (lane_orders (lane p)) b [] (batch_next b) items rows -> unsynced items ->
  exists f, inspect p b = Ok (None, f).
Proof.
  intros (lagged & rest & Ho & Hl & Ht & _) Hu. apply Forall2_nil_inv_r in Hl as ->. simpl in Ho. unfold inspect.
  rewrite lane_tag_law, Ho. destruct rest as [|o os]; simpl; [by eexists|].
  destruct items as [|[k|] items]; [done| |done]. simpl in Ht. injection Ht as Hto _. rewrite Hto. simpl.
  rewrite relative_next. by eexists.
Qed.

Lemma settling_tail pr t lag : settling pr (t :: lag) -> t.2 <> Outcome.Completed -> settling pr lag.
Proof.
  intros Hs Hn. inversion Hs as [|k rows Hk|g rows|skips last Hsk Hl]; subst; try (by simpl in Hn).
  destruct skips as [|t' skips]; simpl in *.
  - destruct Hl as [->|(g & rows & ->)]; [done|]. match goal with E : _ = _ :: _ |- _ => injection E as <- <- end. by simpl in Hn.
  - match goal with E : _ = _ :: _ |- _ => injection E as <- <- end. apply Forall_cons in Hsk as [_ Hsk].
    by apply settling_skip.
Qed.

Lemma set_port_same (t : Turn X T R L S Q SA PR KD) : set_port t (port t) = t.
Proof. by destruct t. Qed.

(** What the loop finds at the front. *)
Lemma settle_action_spec (t : Turn X T R L S Q SA PR KD) work lag items :
  settling (progress t) lag -> lane_holds (lane_orders (lane (port t))) (batch t) lag (batch_next (batch t)) items [] ->
  unsynced items ->
  exists work' a, settle_action work_admit t work = Some (t, work', Ok a) /\
    match a with
    | None => True
    | Some Action.Done => lag = []
    | Some Action.Complete => exists td, lag = [td] /\ td.2 = Outcome.Completed
    | Some Action.Retire => exists o os, lane_orders (lane (port t)) = o :: os /\ o_front o = Front.Detached /\
        exists td lag', lag = td :: lag' /\ td.2 <> Outcome.Completed
    | Some Action.FailOne => exists td lag', lag = td :: lag' /\ td.2 = Outcome.Failed (ReplyFailure.Failed Error.Skipped)
    | Some Action.FailGroup => False
    end.
Proof.
  intros Hs Hl Hu. unfold settle_action. destruct Hs as [|k rows Hk|g rows|skips last Hsk Hlast].
  - destruct (front_later _ _ _ _ Hl Hu) as (f & ->). cbn. by eexists _, _.
  - apply holds_lag in Hl as (o & os & Ho & Ht & _). destruct (front_head _ _ _ _ _ Ho Ht) as (_ & -> & _). simpl.
    destruct k; try done; destruct (work_admit work) as [w|]; eexists _, _; (split; [done|]); try done; by eexists.
  - apply holds_lag in Hl as (o & os & Ho & Ht & _). destruct (front_head _ _ _ _ _ Ho Ht) as (_ & -> & _). simpl.
    destruct (work_admit work) as [w|]; eexists _, _; (split; [done|]); [by eexists|done].
  - destruct skips as [|td skips]; simpl in Hl.
    + destruct Hlast as [->|(g & rows & ->)].
      * destruct (front_later _ _ _ _ Hl Hu) as (f & ->). cbn. by eexists _, _.
      * apply holds_lag in Hl as (o & os & Ho & Ht & _). destruct (front_head _ _ _ _ _ Ho Ht) as (_ & -> & _). simpl.
        rewrite set_port_same. destruct (work_admit work) as [w|]; eexists _, _; (split; [done|]); [by eexists|done].
    + apply Forall_cons in Hsk as [(Hout & Hsync) Hsk].
      apply holds_lag in Hl as (o & os & Ho & Ht & _). destruct (front_head _ _ _ _ _ Ho Ht) as (_ & -> & _). simpl.
      assert (forall r, td.1.1 <> Kind.Sync r) as Hns by done. destruct td as [[k rows] out]. simpl in *.
      destruct k; try (by exfalso; eapply Hns); (destruct (work_admit work) as [w|]; [|by eexists _, _]; simpl; rewrite set_port_same;
        destruct (bool_decide_reflect (o_front o = Front.Detached)); eexists _, _; (split; [done|]); simpl;
        [exists o, os; split_and!; [done|done|]; eexists _, _; split; [done|simpl; by rewrite Hout]|by eexists _, _]).
Qed.

Lemma complete_front (p : Port X T R L S) o os :
  slot_ready (slot p) -> lane_orders (lane p) = o :: os ->
  exists l', complete beyond p id = Some (with_lane p l') /\ lane_orders l' = os /\
    lane_done l' = lane_done (lane p) ++ [done_of o Outcome.Completed].
Proof.
  intros Hs Ho. unfold complete. rewrite ready_reindex by done. destruct (lane_complete_law _ _ _ Ho). by eexists.
Qed.

Lemma fail_one_front (p : Port X T R L S) f o os :
  slot_ready (slot p) -> lane_orders (lane p) = o :: os ->
  exists l', fail_one beyond p id f = Some (with_lane p l') /\ lane_orders l' = os /\
    lane_done l' = lane_done (lane p) ++ [done_of o (Outcome.Failed f)].
Proof.
  intros Hs Ho. unfold fail_one. rewrite ready_reindex by done. destruct (lane_fail_one_law _ f _ _ Ho). by eexists.
Qed.

Lemma settle_loop_spec fuel : forall (t : Turn X T R L S Q SA PR KD) work lag items handed,
  settling (progress t) lag -> lane_holds (lane_orders (lane (port t))) (batch t) lag (batch_next (batch t)) items [] ->
  unsynced items -> slot_ready (slot (port t)) -> Forall2 same (lane_done (lane (port t))) handed ->
  (length lag < fuel)%nat ->
  exists l' work' r lag1 lag2,
    settle_loop beyond work_admit fuel t id work = Some (set_port t (with_lane (port t) l'), work', Ok r) /\
    lag = lag1 ++ lag2 /\ Forall2 same (lane_done l') (handed ++ lag1) /\
    lane_holds (lane_orders l') (batch t) lag2 (batch_next (batch t)) items [] /\ settling (progress t) lag2 /\
    (exists popped, lane_orders (lane (port t)) = popped ++ lane_orders l') /\
    match r with
    | None => True
    | Some false => lag2 = []
    | Some true => exists td, lag2 = [td] /\ td.2 = Outcome.Completed
    end.
Proof.
  induction fuel as [|fuel IH]; intros t work lag items handed Hs Hl Hu Hr Hd Hf; [lia|]. cbn [settle_loop].
  destruct (settle_action_spec t work _ _ Hs Hl Hu) as (work' & a & -> & Ha). simpl.
  assert (set_port t (with_lane (port t) (lane (port t))) = t) as Hsame by (destruct t as [? ? ? [] ? ?]; done).
  assert (forall l' td lag', lag = td :: lag' -> td.2 <> Outcome.Completed ->
    (forall o os, lane_orders (lane (port t)) = o :: os -> o_tag o = {| tag_batch := batch t; kind := td.1.1 |} ->
       gives o td.1.2 ->
       lane_orders l' = os /\ exists d, lane_done l' = lane_done (lane (port t)) ++ [d] /\ same d td) ->
    exists l2 work2 r lag1 lag2,
      settle_loop beyond work_admit fuel (set_port t (with_lane (port t) l')) id work' =
        Some (set_port t (with_lane (port t) l2), work2, Ok r) /\
      lag = lag1 ++ lag2 /\ Forall2 same (lane_done l2) (handed ++ lag1) /\
      lane_holds (lane_orders l2) (batch t) lag2 (batch_next (batch t)) items [] /\ settling (progress t) lag2 /\
      (exists popped, lane_orders (lane (port t)) = popped ++ lane_orders l2) /\
      match r with
      | None => True
      | Some false => lag2 = []
      | Some true => exists td, lag2 = [td] /\ td.2 = Outcome.Completed
      end) as Hnext.
  { intros l' td lag' -> Hout Hl'. apply holds_lag in Hl as (o & os & Ho & Ht & Hg & Hl).
    destruct (Hl' _ _ Ho Ht Hg) as (Hos & d & Hd' & Hsd).
    destruct (IH (set_port t (with_lane (port t) l')) work' lag' items (handed ++ [td]))
      as (l2 & work2 & r & lag1 & lag2 & Hloop & -> & H1 & H2 & H3 & (popped & Hp) & H4); cbn.
    - by eapply settling_tail.
    - by rewrite Hos.
    - done.
    - done.
    - rewrite Hd'. apply Forall2_app; [done|by constructor].
    - simpl in Hf. lia.
    - exists l2, work2, r, (td :: lag1), lag2. split_and!; try done.
      + by rewrite <- app_assoc in H1.
      + exists (o :: popped). cbn in Hp. rewrite Ho, <- Hos, Hp. done. }
  destruct a as [[]|].
  - exists (lane (port t)), work', (Some false), [], lag. rewrite Hsame, app_nil_r. split_and!; try done. by exists [].
  - exists (lane (port t)), work', (Some true), [], lag. rewrite Hsame, app_nil_r. split_and!; try done. by exists [].
  - destruct Ha as (o & os & Ho & Hfr & td & lag' & Hlag & Hout).
    destruct (complete_front (port t) _ _ Hr Ho) as (l' & -> & Hos & Hdone). simpl. eapply Hnext; [done|done|].
    intros o' os' Ho' Ht' _. rewrite Ho in Ho'. injection Ho' as <- <-. split; [done|]. eexists. split; [done|].
    destruct td as [[k rows] out]. by eapply detached_same.
  - done.
  - destruct Ha as (td & lag' & Hlag & Hout). rewrite Hlag in Hl. apply holds_lag in Hl as Hl2.
    destruct Hl2 as (o & os & Ho & Ht & Hg & _). rewrite <- Hlag in Hl.
    destruct (fail_one_front (port t) (ReplyFailure.Failed Error.Skipped) _ _ Hr Ho) as (l' & -> & Hos & Hdone). simpl.
    eapply Hnext; [done|by rewrite Hout|]. intros o' os' Ho' Ht' Hg'. rewrite Ho in Ho'. injection Ho' as <- <-.
    split; [done|]. eexists. split; [done|]. destruct td as [[k rows] out]. simpl in *. subst out. by eapply done_same.
  - exists (lane (port t)), work', None, [], lag. rewrite Hsame, app_nil_r. split_and!; try done. by exists [].
Qed.

(** Two ports that differ in what the invariant does not see. *)
Definition alike (p p' : Port X T R L S) : Prop :=
  lane p' = lane p /\ owners p' = owners p /\ slot_ready (slot p') /\ sync (slot p') = sync (slot p) /\
  pending (slot p') = pending (slot p) /\ PgSlot.batch (slot p') = PgSlot.batch (slot p).

Lemma poll_alike (p : Port X T R L S) status :
  slot_ready (slot p) -> (status = Status.Transaction -> forall g, access_current (slot p) id <> Some (CFinalizing g)) ->
  exists p', tx_poll_ready beyond p id status = Some (p', Readiness.Ready) /\ alike p p'.
Proof.
  intros Hr Hst. unfold tx_poll_ready, poll_ready. destruct (ready_current _ Hr) as (c & Hc & Hc'). rewrite Hc. simpl.
  assert (forall s', slot_ready s' -> sync s' = sync (slot p) -> pending s' = pending (slot p) ->
    PgSlot.batch s' = PgSlot.batch (slot p) -> forall o, alike p (match o with Some tx => wake_tx beyond (with_slot p s') tx | None => with_slot p s' end)) as Halike.
  { intros s' ? ? ? ? [tx|]; [|by split_and!]. unfold wake_tx. by destruct (beyond (conn tx)); split_and!. }
  assert (with_slot p (slot p) = p) as Hsame by (by destruct p).
  pose proof (Halike (slot p) Hr eq_refl eq_refl eq_refl) as Hself. rewrite Hsame in Hself.
  assert (forall a, a <> Access.Draining -> forall o, alike p (match o with
    Some tx => wake_tx beyond (with_slot p (with_phase (slot p) (set_access (PgSlot.phase (slot p)) a))) tx
    | None => with_slot p (with_phase (slot p) (set_access (PgSlot.phase (slot p)) a)) end)) as Haccess
    by (intros a Ha; apply Halike; [by apply ready_access|done|done|done]).
  destruct c as [| | |tx|tx|tx| |]; try done; destruct status; simpl.
  all: try (by eexists; split; [done|apply (Hself None)]).
  all: try (by eexists; split; [done|apply (Hself (Some tx))]).
  - eexists. split; [done|]. by apply (Haccess (Access.Held (generation tx)) ltac:(done) (Some tx)).
  - eexists. split; [done|]. by apply (Haccess (Access.Shared (generation tx)) ltac:(done) (Some tx)).
  - exfalso. by eapply Hst.
Qed.

Lemma lane_settle_spec (p : Port X T R L S) (complete : bool) o os :
  slot_ready (slot p) -> 1 <= pending (slot p) -> (complete = true -> lane_orders (lane p) = o :: os) ->
  exists p' load, lane_settle beyond p id complete = Some (p', Ok (Some load)) /\ owners p' = owners p /\
    slot_ready (slot p') /\ sync (slot p') = sync (slot p) /\ pending (slot p') = pending (slot p) - 1 /\
    PgSlot.batch (slot p') = PgSlot.batch (slot p) /\ access_current (slot p') id = access_current (slot p) id /\
    lane p' = if complete then lane_complete (lane p) else lane p.
Proof.
  intros Hr Hn Hc. unfold lane_settle. set (p1 := if complete then _ else _).
  assert (slot p1 = slot p /\ owners p1 = owners p /\ lane p1 = if complete then lane_complete (lane p) else lane p)
    as (Hs & Ho & Hl) by (subst p1; by destruct complete).
  rewrite Hs, ready_matches, ready_settle by done. simpl. rewrite ready_reindex by (by destruct Hr as (b & a & r & ? & ?); exists b, a, r).
  simpl. eexists _, _. split; [done|]. simpl. split_and!; try done.
Qed.

Lemma owned_suffix o popped (orders : list Order) :
  Forall (owned o) (o_tag <$> (popped ++ orders)) -> Forall (owned o) (o_tag <$> orders).
Proof. rewrite fmap_app. intros Hf. by apply Forall_app in Hf as [_ ?]. Qed.

Lemma holds_length orders b lag b' items rows : lane_holds orders b lag b' items rows -> (length lag <= length orders)%nat.
Proof. intros (lagged & rest & -> & Hl%Forall2_length & _). rewrite length_app, Hl. apply Nat.le_add_r. Qed.

Lemma resume_ready s status work :
  aligned s -> waiting s = Some (Pending.Ready status) ->
  exists s', resume s (Pending.Ready status) work = Some s' /\ aligned s'.
Proof.
  intros [Hr Ho Hn Hp (lag & rows & b & late & st & handed & Hlag & Hl & Ht & Hd & Hw & Hpend & Hb)] Hwait.
  rewrite Hwait in Hlag. inversion Hlag as [| | |? ? Hmode Hph Hcopy Hsent Hset Hst]; subst. clear Hlag.
  unfold resume, settle_pending, try_settle, responses. unfold sys_port in *. rewrite ready_matches by done.
  pose proof (walk_unsynced _ _ Hw) as Hu. pose proof (holds_length _ _ _ _ _ _ Hl) as Hlen.
  destruct (settle_loop_spec (Datatypes.S (Z.to_nat (lane_depth (lane (port (turn s)))))) (turn s) work _ _ _ Hset Hl Hu Hr Hd)
    as (l' & work' & r & lag1 & lag2 & -> & -> & Hd' & Hl' & Hset' & (popped & Hpop) & Hres).
  { rewrite lane_depth_law, Nat2Z.id. by apply Nat.lt_succ_r. }
  simpl. rewrite Hpop in Ho. apply owned_suffix in Ho.
  destruct r as [complete|].
  2:{ eexists. split; [done|]. split; simpl; try done. exists lag2. do 5 eexists.
      split; [by constructor|]. split_and!; try done. by rewrite Ht, app_assoc. }
  assert (exists o os, complete = true -> lane_orders l' = o :: os) as (o & os & Hhead).
  { destruct complete; [|by exists {| o_tag := tag_new 0 Boundary.Open; o_front := Front.Open; o_rows := [] |}, []].
    destruct Hres as (td & -> & _). apply holds_lag in Hl' as (o & os & -> & _). by exists o, os. }
  destruct (lane_settle_spec (with_lane (port (turn s)) l') complete o os) as (p' & load & -> & Hown & Hr' & Hsy & Hpe & Hba & Hac & Hla);
    [done|simpl; pose proof (syncs_nonneg (todo (server s))); lia|done|]. simpl.
  destruct (poll_alike p' status) as (p2 & -> & Hl2 & Ho2 & Hr2 & Hs2 & Hp2 & Hb2); [done|by rewrite Hac|]. simpl.
  eexists. split; [done|].
  assert (lane_holds (lane_orders (lane p2)) (batch_next (batch (turn s))) [] (batch_next (batch (turn s))) (todo (server s)) [] /\
    Forall (owned (owners p2)) (o_tag <$> lane_orders (lane p2)) /\
    Forall2 same (lane_done (lane p2)) (handed ++ lag1 ++ lag2)) as (Hl3 & Ho3 & Hd3).
  { rewrite Hl2, Hla, Ho2, Hown. destruct complete.
    - destruct Hres as ([[k rows] out] & -> & Hout). simpl in Hout. subst out.
      apply holds_lag in Hl' as (o' & os' & Hos' & Htag & Hg & Hl'). destruct (lane_complete_law _ _ _ Hos') as [Hc Hcd].
      rewrite Hos' in Ho. simpl. rewrite Hc, Hcd. split_and!.
      + destruct Hl' as (lagged & rest & -> & Hf & Htr & Hrr). apply Forall2_nil_inv_r in Hf as ->.
        by exists [], rest.
      + by apply Forall_cons in Ho as [_ Ho].
      + rewrite app_assoc. apply Forall2_app; [done|]. constructor; [|done]. by eapply done_same.
    - subst lag2. rewrite app_nil_r in *. split_and!; [|done|done].
      destruct Hl' as (lagged & rest & Hrest & Hf & Htr & Hrr). apply Forall2_nil_inv_r in Hf as ->.
      by exists [], rest. }
  split; simpl; try done.
  exists [], (sent (server s)), (batch_next (batch (turn s))), 0, Stage.Fresh, (handed ++ lag1 ++ lag2). simpl.
  rewrite app_nil_r, Z.add_0_r. split; [apply lagging_rest; simpl; by rewrite ?Hmode, ?Hph, ?Hcopy|].
  unfold sys_port. simpl. rewrite Hsent, Hs2, Hsy, Hp2, Hpe, Hb2, Hba. simpl. split_and!; try done. lia.
Qed.

(** *** Rows and failures *)

Lemma fails_ended (t : Turn X T R L S Q SA PR KD) e w b sv handed rest :
  slot_ready (slot (port t)) -> serving (phase t) -> exhaustion e ->
  told sv = handed ++ rest -> Forall2 same (lane_done (lane (port t))) handed ->
  exists t', fail beyond cancel t id e = Some t' /\ ended {| turn := t'; waiting := w; frames := b; server := sv |}.
Proof.
  intros Hr Hp He Ht Hd. destruct (fail_ends t e Hr Hp) as (t' & Hf & Hl & bd & Hs). exists t'. split; [done|].
  split; [by exists bd, e, Disposition.Reconnect|]. exists handed, rest. split; [done|]. unfold sys_port. simpl. by rewrite Hl.
Qed.

Lemma still s p :
  aligned s -> waiting s = Some p ->
  aligned {| turn := turn s; waiting := Some p; frames := frames s; server := server s |}.
Proof. destruct s as [t w f sv]. simpl. by intros Hal ->. Qed.

Lemma head_front (l : L) o os : lane_orders l = o :: os -> lane_front l = o_front o /\ o_front o <> Front.Empty.
Proof.
  intros Ho. rewrite lane_front_law, Ho. split; [done|]. pose proof (lane_fronts l) as Hf. rewrite Ho in Hf.
  by apply Forall_cons in Hf as [Hf _].
Qed.

Lemma resume_row s row work :
  aligned s -> waiting s = Some (Pending.Row row) ->
  exists s', resume s (Pending.Row row) work = Some s' /\ (aligned s' \/ ended s').
Proof.
  intros Hal Hwait. pose proof (still _ _ Hal Hwait) as Hstill.
  destruct Hal as [Hr Ho Hn Hp (lag & rows & b & late & st & handed & Hlag & Hl & Ht & Hd & Hw & Hpend & Hb)].
  rewrite Hwait in Hlag. inversion Hlag as [|? rows0 ? Hmode Hprog Hph Hcmd Hsent Hdenied| |]; subst. clear Hlag.
  unfold resume, settle_pending. destruct (work_admit work) as [work'|]; [|by eexists; split; [done|left]].
  unfold settle_row, responses, try_push. unfold sys_port in *. rewrite ready_matches by done.
  destruct (todo (server s)) as [|[k|] items] eqn:Htodo; try done.
  destruct (holds_head _ _ _ _ _ _ Hl) as (o & os & Hos & Htag & Hg & Hl').
  destruct (head_front _ _ _ Hos) as [Hfr Hne]. pose proof (lane_push_law (lane (port (turn s))) row) as Hlaw.
  rewrite Hos in Hlaw. assert (serving (phase (turn s))) as Hserv by by eexists.
  destruct (lane_push (lane (port (turn s))) row) as [l|[|x|f]]; simpl.
  - destruct Hlaw as (_ & Hlo & Hld). eexists. split; [done|]. left. rewrite Hos in Ho.
    split; unfold sys_port; simpl; try done; [by rewrite Hlo|].
    exists [], (sent (server s)), (batch (turn s)), 0, st, handed. rewrite Htodo, Hlo, Hld.
    split; [apply lagging_rest; simpl; by rewrite ?Hprog, ?Hmode|].
    split_and!; try done. rewrite Hsent. apply holds_row. by rewrite <- Hos.
  - eexists. split; [done|]. by left.
  - destruct (fails_ended (turn s) (Error.ReplyCapacity x) None (frames s) (server s) handed []) as (t' & -> & He); try done.
    eexists. split; [done|]. by right.
  - destruct Hlaw as [-> Hop]. rewrite Hfr in *. destruct (o_front o) eqn:Hfo; try done. simpl.
    eexists. split; [done|]. left. split; simpl; try done. exists [], (sent (server s)), (batch (turn s)), 0, st, handed.
    rewrite Htodo. split; [apply lagging_rest; simpl; by rewrite ?Hprog, ?Hmode|].
    split_and!; try done. unfold sys_port in *. simpl. rewrite Hos in *. by eapply holds_detached.
Qed.

(** The first order told of is handed out. *)
Lemma handed_out s t td l handed :
  aligned s -> port t = with_lane (sys_port s) l -> notes t = notes (turn s) -> batch t = batch (turn s) ->
  progress t = progress_of (mode (server s)) -> phase t = phase_of (copying (server s)) ->
  lane_holds (lane_orders l) (batch (turn s)) [] (batch (turn s)) (todo (server s)) (sent (server s)) ->
  Forall (owned (owners (sys_port s))) (o_tag <$> lane_orders l) ->
  told (server s) = handed ++ [td] -> Forall2 same (lane_done l) (handed ++ [td]) ->
  (exists st, walk st (todo (server s)) = Some (stage_of (sync (slot (sys_port s))))) ->
  pending (slot (sys_port s)) = syncs (todo (server s)) ->
  PgSlot.batch (slot (sys_port s)) = batch_after (batch (turn s)) (todo (server s)) ->
  aligned {| turn := t; waiting := None; frames := frames s; server := server s |}.
Proof.
  intros [Hr Ho Hn Hp _] Hport Hnotes Hbatch Hprog Hph Hl Hown Ht Hd (st & Hw) Hpend Hb.
  split; unfold sys_port in *; simpl; rewrite ?Hport, ?Hnotes; try done.
  exists [], (sent (server s)), (batch (turn s)), 0, st, (handed ++ [td]).
  split; [by apply lagging_rest|]. rewrite Hbatch, app_nil_r, Z.add_0_r. by split_and!.
Qed.

Lemma resume_failure s f work :
  aligned s -> waiting s = Some (Pending.Failure f) ->
  exists s', resume s (Pending.Failure f) work = Some s' /\ (aligned s' \/ ended s').
Proof.
  intros Hal Hwait. pose proof (still _ _ Hal Hwait) as Hstill. pose proof Hal as Hal'.
  destruct Hal' as [Hr Ho Hn Hp (lag & rows & b & late & st & handed & Hlag & Hl & Ht & Hd & Hw & Hpend & Hb)].
  rewrite Hwait in Hlag. inversion Hlag as [| |? k rows0 ? Hmode Hprog Hph Hcopy Hsent|]; subst. clear Hlag.
  unfold resume, settle_pending. destruct (work_admit work) as [work'|]; [|by eexists; split; [done|left]].
  unfold settle_row, responses, try_fail. unfold sys_port in *. rewrite ready_matches by done.
  destruct (holds_lag _ _ _ _ _ _ _ Hl) as (o & os & Hos & Htag & Hg & Hl'). simpl in Htag, Hg.
  destruct (head_front _ _ _ Hos) as [Hfr Hne]. pose proof (lane_fail_law (lane (port (turn s))) f) as Hlaw.
  rewrite Hos in Hlaw. assert (serving (phase (turn s))) as Hserv by by exists Copying.No.
  rewrite Hos in Ho. apply Forall_cons in Ho as [_ Ho]. rewrite Z.add_0_r in Hpend.
  destruct (lane_fail (lane (port (turn s))) f) as [l|[|x|fr]]; simpl.
  - destruct Hlaw as (_ & Hlo & Hld). rewrite ready_reindex by done. simpl. eexists. split; [done|]. left.
    apply (handed_out _ _ (k, rows0, Outcome.Failed f) l handed); try done; [by rewrite Hmode|by rewrite Hcopy|by rewrite Hsent, Hlo|by rewrite Hlo| |by exists st].
    rewrite Hld. apply Forall2_app; [done|]. constructor; [|done]. by eapply done_same.
  - eexists. split; [done|]. by left.
  - destruct (fails_ended (turn s) (Error.ReplyCapacity x) None (frames s) (server s) handed [(k, rows0, Outcome.Failed f)])
      as (t' & -> & He); try done. eexists. split; [done|]. by right.
  - destruct Hlaw as [-> Hop]. rewrite Hfr in *. destruct Hop as [Hop|Hop]; [|done]. rewrite Hop.
    destruct (complete_front _ _ _ Hr Hos) as (l & -> & Hlo & Hld). simpl. eexists. split; [done|]. left.
    apply (handed_out _ _ (k, rows0, Outcome.Failed f) l handed); try done; [by rewrite Hmode|by rewrite Hcopy|by rewrite Hsent, Hlo|by rewrite Hlo| |by exists st].
    rewrite Hld. apply Forall2_app; [done|]. constructor; [|done]. by eapply detached_same.
Qed.

(** ** The messages *)

(** A turn that left nothing for later. *)
Definition idle (t : Turn X T R L S Q SA PR KD) (sv : Server X) : Prop :=
  slot_ready (slot (port t)) /\ Forall (owned (owners (port t))) (o_tag <$> lane_orders (lane (port t))) /\
  (exists m, queue_holds number (notes t) m) /\ poised sv /\
  progress t = progress_of (mode sv) /\ phase t = phase_of (copying sv) /\
  lane_holds (lane_orders (lane (port t))) (batch t) [] (batch t) (todo sv) (sent sv) /\
  Forall2 same (lane_done (lane (port t))) (told sv) /\
  (exists st, walk st (todo sv) = Some (stage_of (sync (slot (port t))))) /\
  pending (slot (port t)) = syncs (todo sv) /\ PgSlot.batch (slot (port t)) = batch_after (batch t) (todo sv).

Lemma idle_aligned t b sv : idle t sv -> aligned {| turn := t; waiting := None; frames := b; server := sv |}.
Proof.
  intros (Hr & Ho & Hn & Hp & Hprog & Hph & Hl & Hd & (st & Hw) & Hpend & Hb). split; try done.
  exists [], (sent sv), (batch t), 0, st, (told sv). split; [by apply lagging_rest|]. simpl.
  rewrite app_nil_r, Z.add_0_r. by split_and!.
Qed.

Lemma aligned_idle s : aligned s -> waiting s = None -> idle (turn s) (server s).
Proof.
  intros [Hr Ho Hn Hp (lag & rows & b & late & st & handed & Hlag & Hl & Ht & Hd & Hw & Hpend & Hb)] Hwait.
  rewrite Hwait in Hlag. inversion Hlag; subst. rewrite app_nil_r in Ht. subst handed. rewrite Z.add_0_r in Hpend.
  unfold idle, sys_port in *. split_and!; try done. by exists st.
Qed.

(** What a message may leave: the invariant, or the end. *)
Definition goes (o : option (Turn X T R L S Q SA PR KD * option (Pending.Pending X))) (sv : Server X) : Prop :=
  exists t w, o = Some (t, w) /\ forall b,
    let s := {| turn := t; waiting := w; frames := b; server := sv |} in aligned s \/ ended s.

Lemma goes_idle t sv : idle t sv -> goes (Some (t, None)) sv.
Proof. intros Hi. exists t, None. split; [done|]. intros b. left. by apply idle_aligned. Qed.

Lemma goes_fails t e sv handed rest :
  slot_ready (slot (port t)) -> serving (phase t) -> exhaustion e ->
  told sv = handed ++ rest -> Forall2 same (lane_done (lane (port t))) handed ->
  goes (or_fail beyond cancel id None (Some (t, Err e))) sv.
Proof.
  intros Hr Hs He Ht Hd. destruct (fail_ends t e Hr Hs) as (t' & Hf & Hl & bd & Hb).
  exists t', None. unfold or_fail. simpl. rewrite Hf. split; [done|]. intros b. right.
  split; [by exists bd, e, Disposition.Reconnect|]. exists handed, rest. split; [done|].
  unfold sys_port. simpl. by rewrite Hl.
Qed.

(** The tests of message types, evaluated. *)
Ltac eval_types :=
  repeat match goal with
  | |- context [?a =? ?b] =>
      let v := eval vm_compute in (a =? b) in
      first [constr_eq v true | constr_eq v false]; change (a =? b) with v
  end; cbn [orb andb negb].

Lemma respond (t : Turn X T R L S Q SA PR KD) typ data :
  serving (phase t) -> typ <> Be.ERROR_RESPONSE -> typ <> Be.NOTICE_RESPONSE ->
  response beyond cancel handshake t id typ data = or_fail beyond cancel id None (PgTurn.ready beyond t id typ data).
Proof.
  intros [c Hc] He Hn. unfold response. rewrite (proj2 (Z.eqb_neq _ _) He), (proj2 (Z.eqb_neq _ _) Hn), Hc.
  by destruct c.
Qed.

Lemma serving_phase c : serving (phase_of c).
Proof. by exists c. Qed.

(** A message that says nothing of a command. *)
Lemma ready_neutral t typ data sv :
  idle t sv ->
  (typ = Be.PARAMETER_STATUS /\ parameter data = Ok ()) \/
  (mode sv = Mode.Live /\ copying sv = Copying.No /\
   (typ = Be.ROW_DESCRIPTION \/ typ = Be.PARAMETER_DESCRIPTION \/
    typ ∈ [Be.PARSE_COMPLETE; Be.BIND_COMPLETE; Be.NO_DATA; Be.PORTAL_SUSPENDED] /\ data = [])) ->
  goes (response beyond cancel handshake t id typ data) sv.
Proof.
  intros Hi Ht. pose proof Hi as (_ & _ & _ & _ & Hprog & Hph & _).
  assert (typ <> Be.ERROR_RESPONSE /\ typ <> Be.NOTICE_RESPONSE) as [He Hn].
  { destruct Ht as [[-> _]|(_ & _ & [->|[->|[Ht _]]])]; try done. repeat (apply elem_of_cons in Ht as [->|Ht]; [done|]). by apply elem_of_nil in Ht. }
  rewrite respond by (done || (rewrite Hph; apply serving_phase)).
  enough (PgTurn.ready beyond t id typ data = Some (t, Ok None)) as -> by (cbn; by apply goes_idle).
  unfold PgTurn.ready. rewrite Hprog, Hph. destruct Ht as [[-> Hd]|(-> & -> & Ht)].
  - eval_types. rewrite andb_false_r, Hd. done.
  - simpl negb. cbn [andb is_copy phase_of progress_of]. destruct Ht as [->|[->|[Ht ->]]]; [by eval_types|by eval_types|].
    repeat (apply elem_of_cons in Ht as [->|Ht]; [by eval_types|]). by apply elem_of_nil in Ht.
Qed.

Lemma idle_copying t sv c :
  idle t sv -> mode sv = Mode.Live -> commanded (todo sv) = true -> idle (set_phase t (phase_of c)) (with_copying sv c).
Proof.
  intros (Hr & Ho & Hn & (Hp1 & Hp2 & Hp3) & Hprog & Hph & Hl & Hd & Hw & Hpend & Hb) Hm Hc.
  unfold idle, poised. simpl. by split_and!.
Qed.

Lemma ready_copy t typ data sv c k items :
  idle t sv -> mode sv = Mode.Live -> todo sv = Item.Command k :: items ->
  (copying sv = Copying.No /\ copy_format data = Ok () /\
     (typ = Be.COPY_IN_RESPONSE /\ c = Copying.In \/ typ = Be.COPY_OUT_RESPONSE /\ c = Copying.Out)) \/
  (copying sv = Copying.Out /\ typ = Be.COPY_DONE /\ data = [] /\ c = Copying.No) ->
  goes (response beyond cancel handshake t id typ data) (with_copying sv c).
Proof.
  intros Hi Hm Ht Hc. pose proof Hi as (_ & _ & _ & _ & Hprog & Hph & _).
  rewrite respond; [|rewrite Hph; apply serving_phase|naive_solver|naive_solver].
  enough (PgTurn.ready beyond t id typ data = Some (set_phase t (phase_of c), Ok None)) as ->.
  { cbn. apply goes_idle, idle_copying; [done|done|by rewrite Ht]. }
  unfold PgTurn.ready. rewrite Hprog, Hph, Hm.
  destruct Hc as [(-> & Hf & [[-> ->]|[-> ->]])|(-> & -> & -> & ->)]; eval_types; cbn; by rewrite ?Hf.
Qed.

(** A row for the first command. *)
Lemma push_row t sv k items row :
  idle t sv -> mode sv = Mode.Live -> todo sv = Item.Command k :: items ->
  bool_decide (lane_front (lane (port t)) = Front.Denied) = false ->
  goes (or_fail beyond cancel id None (push t id row)) (with_row sv row).
Proof.
  intros Hi Hm Ht Hden. apply bool_decide_eq_false in Hden.
  pose proof Hi as (Hr & Ho & Hn & (Hp1 & Hp2 & Hp3) & Hprog & Hph & Hl & Hd & (st & Hw) & Hpend & Hb).
  assert (serving (phase t)) as Hserv by by eexists.
  rewrite Ht in Hl. destruct (holds_head _ _ _ _ _ _ Hl) as (o & os & Hos & Htag & Hg & Hl').
  destruct (head_front _ _ _ Hos) as [Hfr Hne]. destruct (front_head _ _ _ _ _ Hos Htag) as (Hfront & _).
  unfold push, responses. rewrite ready_matches, Hfront by done.
  assert (poised (with_row sv row)) as Hpo by (unfold poised; simpl; rewrite Ht, Hm in *; split_and!; [done|done|by intros [|]]).
  assert (exists g, advance st (Item.Command k) = Some g) as [g Hadv].
  { rewrite Ht in Hw. simpl in Hw. destruct (advance st (Item.Command k)) as [g|]; [by exists g|done]. }
  assert (completion k <> Completion.Sync) as Hsync by (destruct k, st; done).
  assert (forall f, f = lane_front (lane (port t)) -> f <> Front.Open -> f = Front.Detached) as Hdet
    by (intros f -> ?; rewrite Hfr in *; by destruct (o_front o)).
  assert (o_front o = Front.Detached -> goes (Some (t, None)) (with_row sv row)) as Hdrop.
  { intros Hdt. apply goes_idle. unfold idle. simpl. rewrite Ht in *. split_and!; try done; [|by exists st].
    rewrite Hos in *. by eapply holds_detached. }
  assert (forall e, exhaustion e -> goes (or_fail beyond cancel id None (Some (t, Err e))) (with_row sv row)) as Hfail
    by (intros e He; by eapply (goes_fails _ _ _ (told sv) []); rewrite ?app_nil_r).
  pose proof (lane_build_law (lane (port t)) row) as Hlaw. rewrite Hos in Hlaw.
  destruct (completion k) eqn:Hk; try done.
  all: destruct (lane_build (lane (port t)) row) as [l|[|x|f|e|declared actual]]; cbn [or_fail mbind option_bind]; try (by apply Hfail).
  all: try (destruct Hlaw as (_ & Hlo & Hld); apply goes_idle; unfold idle; simpl; rewrite Ht in *; rewrite Hos in *;
    split_and!; try done; [by rewrite Hlo|rewrite Hlo; by apply holds_row|by rewrite Hld|by exists st]).
  all: try (destruct Hlaw as [Hf Hop]; pose proof (Hdet f Hf Hop) as ->; apply Hdrop; by rewrite <- Hfr).
  all: destruct (retain row) as [r|e] eqn:Hret; [|by apply Hfail]; apply retained in Hret as ->.
  all: exists t, (Some (Pending.Row row)); (split; [done|]); intros b; left; split; try done.
  all: exists [], (sent sv), (batch t), 0, st, (told sv); simpl; rewrite app_nil_r, Z.add_0_r, Ht in *.
  all: split_and!; try done; apply lagging_row; simpl; rewrite ?Hprog, ?Hm, ?Ht; try done.
Qed.

(** The first command is over: its order left with its outcome. *)
Lemma idle_ends t sv k items out m o os l' d t' :
  idle t sv -> todo sv = Item.Command k :: items -> lane_orders (lane (port t)) = o :: os ->
  lane_orders l' = os -> lane_done l' = lane_done (lane (port t)) ++ [d] -> same d (k, sent sv, out) ->
  port t' = with_lane (port t) l' -> notes t' = notes t -> batch t' = batch t ->
  progress t' = progress_of m -> phase t' = TurnPhase.Ready ->
  (m = Mode.Answered -> exists g more, items = Item.Sync (Some g) :: more) ->
  idle t' (ends sv k items out m).
Proof.
  intros (Hr & Ho & Hn & _ & _ & _ & Hl & Hd & (st & Hw) & Hpend & Hb) Ht Hos Hlo Hld Hsame Hpt Hnt Hbt Hpr Hph Hm.
  rewrite Ht in *. destruct (holds_head _ _ _ _ _ _ Hl) as (o' & os' & Hos' & _ & _ & Hl'). rewrite Hos in Hos'.
  injection Hos' as <- <-. rewrite Hos in Ho. apply Forall_cons in Ho as [_ Ho].
  simpl in Hw. destruct (advance st (Item.Command k)) as [g|]; [|done]. simpl in Hw.
  unfold idle, poised. rewrite Hpt, Hnt, Hbt. simpl. rewrite Hlo, Hld. split_and!; try done.
  - intros Ha. by destruct (Hm Ha) as (g' & more & ->).
  - by apply Forall2_app; [|constructor].
  - by exists g.
Qed.

Lemma after_last st k items st' :
  walk st (Item.Command k :: items) = Some st' -> completion k = Completion.Last ->
  (forall g, st' <> Stage.Lasted g) -> exists g more, items = Item.Sync (Some g) :: more.
Proof.
  intros Hw Hk Hst. destruct k; try done. simpl in Hw.
  assert (exists g, walk (Stage.Lasted g) items = Some st') as (g & Hw').
  { destruct st; simpl in Hw; try done; [by eexists|]. destruct (_ =? _); [by eexists|done]. }
  destruct items as [|[|[g'|]] items]; simpl in Hw'; try done; [|by eexists _, _].
  injection Hw' as <-. by destruct (Hst g).
Qed.

Definition finished (t : Turn X T R L S Q SA PR KD) : Turn X T R L S Q SA PR KD :=
  if is_copy (phase t) then set_phase t TurnPhase.Ready else t.

Lemma finished_spec t c :
  phase t = phase_of c ->
  port (finished t) = port t /\ notes (finished t) = notes t /\ batch (finished t) = batch t /\
  progress (finished t) = progress t /\ phase (finished t) = TurnPhase.Ready.
Proof. intros Hp. unfold finished. rewrite Hp. destruct c; simpl; by rewrite ?Hp. Qed.

(** The command is done, its Sync to come. *)
Lemma idle_answered t sv k items t' :
  idle t sv -> todo sv = Item.Command k :: items -> closing k = true ->
  port t' = port t -> notes t' = notes t -> batch t' = batch t ->
  progress t' = Progress.Complete -> phase t' = TurnPhase.Ready ->
  idle t' {| todo := todo sv; mode := Mode.Answered; sent := sent sv; copying := Copying.No; told := told sv |}.
Proof.
  intros (Hr & Ho & Hn & (Hp1 & Hp2 & Hp3) & _ & _ & Hl & Hd & Hw & Hpend & Hb) Ht Hk Hpt Hnt Hbt Hpr Hph.
  unfold idle, poised. rewrite Hpt, Hnt, Hbt. simpl. rewrite Ht in *. split_and!; try done; by intros [|].
Qed.

Lemma stage_not_lasted s g : stage_of s <> Stage.Lasted g.
Proof. by destruct s. Qed.

Lemma complete_command t sv k items typ data :
  idle t sv -> mode sv = Mode.Live -> todo sv = Item.Command k :: items -> k <> Kind.Commit ->
  (typ = Be.COMMAND_COMPLETE /\ command typ data = Ok () \/ typ = Be.EMPTY_QUERY_RESPONSE /\ data = []) ->
  goes (or_fail beyond cancel id None (command_complete beyond t id typ data))
    (if closing k
     then {| todo := todo sv; mode := Mode.Answered; sent := sent sv; copying := Copying.No; told := told sv |}
     else ends sv k items Outcome.Completed (match k with Kind.Last _ _ => Mode.Answered | _ => Mode.Live end)).
Proof.
  intros Hi Hm Ht Hk Htyp. pose proof Hi as (Hr & _ & _ & _ & Hprog & Hph & Hl & _ & (st & Hw) & _).
  rewrite Ht in Hl, Hw. destruct (holds_head _ _ _ _ _ _ Hl) as (o & os & Hos & Htag & Hg & _).
  destruct (front_head _ _ _ _ _ Hos Htag) as (Hfront & _).
  assert ((if typ =? Be.COMMAND_COMPLETE then command typ data else empty typ data) = Ok ()) as Hcheck
    by (destruct Htyp as [[-> ->]|[-> ->]]; done).
  unfold command_complete, responses. rewrite Hcheck, ready_matches, Hfront by done.
  assert (exists g, advance st (Item.Command k) = Some g) as [g Hadv]
    by (simpl in Hw; destruct (advance st (Item.Command k)) as [g|]; [by exists g|done]).
  destruct (complete_front _ _ _ Hr Hos) as (l & Hcl & Hlo & Hld).
  assert (same (done_of o Outcome.Completed) (k, sent sv, Outcome.Completed)) as Hsame by by eapply done_same.
  destruct (finished_spec (set_progress t Progress.Complete) _ Hph) as (H1 & H2 & H3 & H4 & H5).
  destruct (finished_spec (set_port t (with_lane (port t) l)) _ Hph) as (I1 & I2 & I3 & I4 & I5).
  destruct (finished_spec (set_progress (set_port t (with_lane (port t) l)) Progress.Complete) _ Hph) as (J1 & J2 & J3 & J4 & J5).
  destruct k as [| | | |i g'|i g'|g']; try done; cbn [completion]; rewrite ?Hcl; cbn [or_fail mbind option_bind].
  - apply goes_idle. eapply idle_ends; try done; try eassumption. transitivity (progress t); [exact I4|by rewrite Hprog, Hm].
  - apply goes_idle. eapply idle_answered; try done; eassumption.
  - apply goes_idle. eapply idle_answered; try done; eassumption.
  - apply goes_idle. eapply idle_ends; try done; try eassumption. transitivity (progress t); [exact I4|by rewrite Hprog, Hm].
  - apply goes_idle. eapply idle_ends; try done; try eassumption. intros _.
    eapply after_last; [exact Hw|done|]. intros g''. apply stage_not_lasted.
  - by destruct st.
Qed.

Lemma complete_commit t sv items rolled :
  idle t sv -> mode sv = Mode.Live -> todo sv = Item.Command Kind.Commit :: items ->
  goes (or_fail beyond cancel id None (command_complete beyond t id Be.COMMAND_COMPLETE
          (bytes_of (if rolled : bool then "ROLLBACK" else "COMMIT") ++ [0])))
    (if rolled
     then ends sv Kind.Commit items (Outcome.Failed (ReplyFailure.Failed Error.CommitRolledBack)) Mode.Skip
     else {| todo := todo sv; mode := Mode.Answered; sent := sent sv; copying := Copying.No; told := told sv |}).
Proof.
  intros Hi Hm Ht. pose proof Hi as (Hr & _ & _ & _ & Hprog & Hph & Hl & _ & _).
  rewrite Ht in Hl. destruct (holds_head _ _ _ _ _ _ Hl) as (o & os & Hos & Htag & Hg & _).
  destruct (front_head _ _ _ _ _ Hos Htag) as (Hfront & _).
  unfold command_complete, responses. rewrite ready_matches, Hfront by done.
  destruct (fail_one_front _ (ReplyFailure.Failed Error.CommitRolledBack) _ _ Hr Hos) as (l & Hfl & Hlo & Hld).
  destruct (finished_spec (set_progress t Progress.Complete) _ Hph) as (H1 & H2 & H3 & H4 & H5).
  destruct (finished_spec (set_progress (set_port t (with_lane (port t) l)) Progress.Skipping) _ Hph) as (I1 & I2 & I3 & I4 & I5).
  eval_types. destruct rolled; cbn [completion].
  - change (command _ _) with (Ok (E := Reason.Reason) ()). change (list_eqb (bytes_of "ROLLBACK" ++ [0]) (bytes_of "COMMIT" ++ [0])) with false.
    change (list_eqb (bytes_of "ROLLBACK" ++ [0]) (bytes_of "ROLLBACK" ++ [0])) with true. rewrite Hfl.
    cbn [or_fail mbind option_bind]. apply goes_idle. eapply idle_ends; try done; try eassumption.
    by eapply done_same.
  - change (command _ _) with (Ok (E := Reason.Reason) ()). change (list_eqb (bytes_of "COMMIT" ++ [0]) (bytes_of "COMMIT" ++ [0])) with true.
    cbn [or_fail mbind option_bind]. apply goes_idle. eapply idle_answered; try done; eassumption.
Qed.

(** A ready connection reads a completion so while a command runs. *)
Lemma ready_complete (t : Turn X T R L S Q SA PR KD) typ data :
  progress t = Progress.Running -> typ = Be.COMMAND_COMPLETE \/ typ = Be.EMPTY_QUERY_RESPONSE ->
  PgTurn.ready beyond t id typ data = command_complete beyond t id typ data.
Proof. intros Hp Ht. unfold PgTurn.ready. rewrite Hp. by destruct Ht as [->| ->]; eval_types. Qed.

(** The error of a command. *)
Lemma single_goes t sv k items out_data plan :
  idle t sv -> todo sv = Item.Command k :: items -> grouped k = false ->
  plan_payload plan = out_data -> plan_scope plan = Scope.Command ->
  goes (or_fail beyond cancel id None (single_error beyond cancel (finished t) id (Some (completion k)) plan))
    (ends sv k items (Outcome.Failed (ReplyFailure.Server out_data)) Mode.Skip).
Proof.
  intros Hi Ht Hk <- Hscope. pose proof Hi as (Hr & Ho & Hn & Hpo & Hprog & Hph & Hl & Hd & (st & Hw) & Hpend & Hb).
  rewrite Ht in Hl, Hw. destruct (holds_head _ _ _ _ _ _ Hl) as (o & os & Hos & Htag & Hg & Hl').
  destruct (head_front _ _ _ Hos) as [Hfr Hne]. destruct (finished_spec t _ Hph) as (F1 & F2 & F3 & F4 & F5).
  unfold single_error. set (sv' := ends _ _ _ _ _).
  assert (forall e, exhaustion e -> forall t', port t' = port t -> phase t' = TurnPhase.Ready ->
    goes (or_fail beyond cancel id None (Some (t', Err e))) sv') as Hfail.
  { intros e He t' Hpt Hpht. apply (goes_fails _ _ _ (told sv) [(k, sent sv, Outcome.Failed (ReplyFailure.Server (plan_payload plan)))]);
      [by rewrite Hpt|by exists Copying.No|done|done|by rewrite Hpt]. }
  destruct (retain (plan_payload plan)) as [r|e] eqn:Hret; [|by apply Hfail]. apply retained in Hret as ->.
  assert (forall l d, lane_orders l = os -> lane_done l = lane_done (lane (port t)) ++ [d] ->
    same d (k, sent sv, Outcome.Failed (ReplyFailure.Server (plan_payload plan))) ->
    forall t', port t' = with_lane (port t) l -> notes t' = notes t -> batch t' = batch t ->
    progress t' = Progress.Skipping -> phase t' = TurnPhase.Ready -> goes (Some (t', None)) sv') as Hgone.
  { intros l d Hlo Hld Hsame t' ? ? ? ? ?. apply goes_idle. by eapply (idle_ends t sv k items). }
  unfold try_fail. rewrite F1. pose proof (lane_fail_law (lane (port t)) (ReplyFailure.Server (plan_payload plan))) as Hlaw.
  rewrite Hos in Hlaw. destruct (lane_fail _ _) as [l|[|x|f]]; cbn [mbind option_bind].
  - destruct Hlaw as (_ & Hlo & Hld). rewrite ready_reindex by done. cbn. rewrite Hscope. cbn.
    eapply Hgone; try done. by eapply done_same.
  - cbn. rewrite Hscope. cbn. eexists _, _. split; [done|]. intros b. left.
    split; unfold sys_port; cbn; try done; [by rewrite F2|].
    exists [(k, sent sv, Outcome.Failed (ReplyFailure.Server (plan_payload plan)))], [], (batch t), 0.
    simpl in Hw. destruct (advance st (Item.Command k)) as [g|] eqn:Hadv; [|done]. exists g, (told sv).
    rewrite Ht in Hpend, Hb. split.
    { rewrite <- F3. by apply (lagging_failure (set_progress (set_port (finished t) (port t)) Progress.Skipping) sv'). }
    rewrite F3, Z.add_0_r. split_and!; try done. by eapply (holds_told _ _ [] _ _ k); [|exact Hl].
  - by apply Hfail.
  - destruct Hlaw as [Hf Hop]. rewrite Hfr in Hf. destruct Hop as [->| ->]; [|done]. 
    change (port (set_port (finished t) (port t))) with (port t).
    destruct (complete_front _ _ _ Hr Hos) as (l & -> & Hlo & Hld). cbn. rewrite Hscope. cbn.
    eapply Hgone; try done. by eapply detached_same.
Qed.

Lemma owned_insert m g o tags : Forall (owned m) tags -> Forall (owned (<[g := o]> m)) tags.
Proof.
  intros Hf. eapply Forall_impl; [exact Hf|]. intros [b k]. unfold owned. simpl.
  destruct k; try done; intros Hm; apply lookup_insert_is_Some'; by right.
Qed.

(** What recording an error does: nothing for an order of its own; one of a group
    reaches the ledger of its owner. *)
Definition owner_of (k : Kind.Kind) : option Z :=
  match k with Kind.Group _ g | Kind.Last _ g | Kind.Sync g => Some g | _ => None end.

Lemma record_spec (p : Port X T R L S) k plan :
  plan_scope plan = Scope.Command -> owned (owners p) {| tag_batch := 0; kind := k |} ->
  exists p' r, record_error p k false plan = Some (p', r) /\
    slot p' = slot p /\ lane p' = lane p /\ (forall tags, Forall (owned (owners p)) tags -> Forall (owned (owners p')) tags) /\
    match r with
    | Err e => exhaustion e
    | Ok (ErrorRoute.Single plan') => plan' = plan /\ p' = p /\ owner_of k = None
    | Ok (ErrorRoute.Group scope _ c) => scope = Scope.Command /\ c = completion k /\ is_Some (owner_of k)
    end.
Proof.
  intros Hscope Hown. unfold record_error. rewrite Hscope.
  assert (forall g position, is_Some (owners p !! g) ->
    exists p' r, group_record p g position plan = Some (p', r) /\ slot p' = slot p /\ lane p' = lane p /\
      (forall tags, Forall (owned (owners p)) tags -> Forall (owned (owners p')) tags) /\
      match r with Ok () => True | Err e => exhaustion e end) as Hrec.
  { intros g position [o Ho]. unfold group_record. rewrite Ho. simpl. destruct (owner_record o position plan) as [o' r].
    eexists _, _. split; [done|]. simpl. split_and!; [done|done|intros; by apply owned_insert|].
    by destruct r as [[]|[]]. }
  destruct k as [| | | |i g|i g|g]; simpl.
  1-4: eexists _, _; split; [done|]; by split_and!.
  all: match goal with |- context [group_record _ ?g ?position _] =>
         destruct (Hrec g position Hown) as (p' & r & -> & H1 & H2 & H3 & H4) end.
  all: simpl; exists p'; destruct r as [[]|e]; eexists; (split; [done|]); by split_and!.
Qed.

(** The error of a command of a group. *)
Lemma group_goes t sv k items :
  idle t sv -> todo sv = Item.Command k :: items -> grouped k = true -> forall p,
  slot p = slot (port t) -> lane p = lane (port t) ->
  (forall tags, Forall (owned (owners (port t))) tags -> Forall (owned (owners p)) tags) -> forall class,
  goes (or_fail beyond cancel id None
          (group_error beyond cancel (set_port (finished t) p) id false Scope.Command class (completion k)))
    (ends sv k items (Outcome.Failed ReplyFailure.GroupServer) Mode.Skip).
Proof.
  intros Hi Ht Hk p Hps Hpl Hpo class. pose proof Hi as (Hr & Ho & Hn & Hposd & Hprog & Hph & Hl & Hd & Hw & Hpend & Hb).
  rewrite Ht in Hl. destruct (holds_head _ _ _ _ _ _ Hl) as (o & os & Hos & Htag & Hg & _).
  destruct (head_front _ _ _ Hos) as [Hfr _]. destruct (finished_spec t _ Hph) as (F1 & F2 & F3 & F4 & F5).
  assert (idle (set_port t p) sv) as Hi'.
  { unfold idle. simpl. rewrite Hps, Hpl. split_and!; try done; [by apply Hpo|by rewrite Ht]. }
  unfold group_error. change (port (set_port (finished t) p)) with p.
  assert ((completion k = Completion.Group \/ completion k = Completion.Last)) as Hc by (destruct k; try done; auto).
  assert (forall l d, lane_orders l = os -> lane_done l = lane_done (lane p) ++ [d] ->
    same d (k, sent sv, Outcome.Failed ReplyFailure.GroupServer) ->
    goes (Some (set_progress (set_port (set_port (finished t) p) (with_lane p l)) Progress.Skipping, None))
      (ends sv k items (Outcome.Failed ReplyFailure.GroupServer) Mode.Skip)) as Hgone.
  { intros l d Hlo Hld Hsame. apply goes_idle.
    eapply (idle_ends (set_port t p) sv k items _ _ o os l d); try done. by rewrite <- Hpl in Hos. }
  rewrite <- Hpl in Hos. rewrite <- Hps in Hr. destruct Hc as [->| ->]; rewrite Hpl, Hfr.
  all: destruct (bool_decide_reflect (o_front o = Front.Detached)) as [Hdt|Hdt].
  all: try (destruct (complete_front p _ _ Hr Hos) as (l & -> & Hlo & Hld); cbn; eapply Hgone; try done;
    by eapply detached_same).
  all: unfold fail_group; destruct (fail_one_front p ReplyFailure.GroupServer _ _ Hr Hos) as (l & -> & Hlo & Hld); cbn;
    eapply Hgone; try done; by eapply done_same.
Qed.

Lemma error_response t sv data plan :
  idle t sv -> plan_parse data = Some (Ok plan) ->
  response beyond cancel handshake t id Be.ERROR_RESPONSE data =
  or_fail beyond cancel id None (reply_error beyond cancel t id plan).
Proof.
  intros (_ & _ & _ & _ & _ & Hph & _) Hp. unfold response. eval_types. rewrite Hp. simpl. unfold error. rewrite Hph.
  by destruct (copying sv).
Qed.

Lemma error_goes t sv k items data plan :
  idle t sv -> mode sv = Mode.Live \/ mode sv = Mode.Answered -> todo sv = Item.Command k :: items ->
  plan_parse data = Some (Ok plan) -> plan_scope plan = Scope.Command ->
  goes (response beyond cancel handshake t id Be.ERROR_RESPONSE data)
    (ends sv k items (Outcome.Failed (if grouped k then ReplyFailure.GroupServer else ReplyFailure.Server data)) Mode.Skip).
Proof.
  intros Hi Hm Ht Hp Hscope. rewrite (error_response _ _ _ _ Hi Hp).
  pose proof Hi as (Hr & Ho & Hn & Hposd & Hprog & Hph & Hl & Hd & (st & Hw) & Hpend & Hb).
  rewrite Ht in Hl, Hw. destruct (holds_head _ _ _ _ _ _ Hl) as (o & os & Hos & Htag & Hg & _).
  destruct (front_head _ _ _ _ _ Hos Htag) as (Hfront & _ & Htg & _).
  destruct (finished_spec t _ Hph) as (F1 & F2 & F3 & F4 & F5).
  assert (owned (owners (port t)) {| tag_batch := 0; kind := k |}) as Hown.
  { rewrite Hos in Ho. apply Forall_cons in Ho as [Ho _]. unfold owned in *. by rewrite Htag in Ho. }
  destruct (record_spec _ _ _ Hscope Hown) as (p & r & Hrec & Hps & Hpl & Hpo & Hres).
  unfold reply_error, responses. fold (finished t). rewrite F1, ready_matches, F3, Hfront, F4, Hprog, Htg by done.
  assert (match progress_of (mode sv) with Progress.Skipping | Progress.Unknown => true | _ => false end = false) as ->
    by (by destruct Hm as [->| ->]).
  rewrite Htag. cbn [kind]. rewrite Hrec. cbn [mbind option_bind].
  destruct r as [[plan'|scope class c]|e].
  - destruct Hres as (-> & -> & Hk). apply plan_parse_Ok in Hp as [Hpay _]. rewrite <- F1, set_port_same.
    assert (grouped k = false) as Hgk by (by destruct k). rewrite Hgk.
    by apply single_goes.
  - destruct Hres as (-> & -> & [g Hk]). assert (grouped k = true \/ exists g, k = Kind.Sync g) as [Hgk|[g' ->]]
      by (destruct k; eauto; done); [|simpl in Hw; by destruct st]. rewrite Hgk. by apply group_goes.
  - apply (goes_fails _ _ _ (told sv) [(k, sent sv,
      Outcome.Failed (if grouped k then ReplyFailure.GroupServer else ReplyFailure.Server data))]); try done.
    + simpl. by rewrite Hps.
    + exists Copying.No. done.
    + simpl. by rewrite Hpl.
Qed.

(** The error of the Sync of a group. *)
Lemma sync_error_goes t sv g items data plan :
  idle t sv -> mode sv = Mode.Answered -> todo sv = Item.Sync (Some g) :: items ->
  plan_parse data = Some (Ok plan) -> plan_scope plan = Scope.Command ->
  goes (response beyond cancel handshake t id Be.ERROR_RESPONSE data)
    {| todo := todo sv; mode := Mode.Skip; sent := []; copying := Copying.No; told := told sv |}.
Proof.
  intros Hi Hm Ht Hp Hscope. rewrite (error_response _ _ _ _ Hi Hp).
  pose proof Hi as (Hr & Ho & Hn & (Hp1 & Hp2 & Hp3) & Hprog & Hph & Hl & Hd & Hw & Hpend & Hb).
  assert (sent sv = []) as Hsent by (apply Hp3; left; by rewrite Ht). rewrite Hsent in Hl.
  pose proof Hl as (lagged & rest & Hrest & Hlag & Htags & Hgives). apply Forall2_nil_inv_r in Hlag as ->.
  simpl in Hrest. subst rest. rewrite Ht in Htags. destruct (lane_orders (lane (port t))) as [|o os] eqn:Hos; [done|].
  injection Htags as Htag Htags. destruct (front_head _ _ _ _ _ Hos Htag) as (Hfront & _ & Htg & _).
  destruct (finished_spec t _ Hph) as (F1 & F2 & F3 & F4 & F5).
  assert (owned (owners (port t)) {| tag_batch := 0; kind := Kind.Sync g |}) as Hown.
  { apply Forall_cons in Ho as [Ho _]. unfold owned in *. by rewrite Htag in Ho. }
  destruct (record_spec _ _ _ Hscope Hown) as (p & r & Hrec & Hps & Hpl & Hpo & Hres).
  unfold reply_error, responses. fold (finished t). rewrite F1, ready_matches, F3, Hfront, F4, Hprog, Htg, Hm by done.
  rewrite Htag. cbn [kind progress_of]. rewrite Hrec. cbn [mbind option_bind].
  destruct r as [[plan'|scope class c]|e]; [by destruct Hres as (_ & _ & Hk)| |].
  - destruct Hres as (-> & -> & _). cbn. apply goes_idle. unfold idle, poised. cbn. rewrite Hps, Hpl, F2, F3, Hos, Ht.
    split_and!; try done; [by apply Hpo|by rewrite <- Ht|by rewrite <- Ht|by rewrite Hpend, Ht|by rewrite Hb, Ht].
  - apply (goes_fails _ _ _ (told sv) []); rewrite ?app_nil_r; try done.
    + simpl. by rewrite Hps.
    + exists Copying.No. done.
    + simpl. by rewrite Hpl.
Qed.

(** A notification goes to the mailbox, whatever runs. *)
Lemma note_goes t sv data l :
  idle t sv -> spells data l -> wire_wf data ->
  goes (response beyond cancel handshake t id Be.NOTIFICATION_RESPONSE data) sv.
Proof.
  intros Hi Hsp Hwf. pose proof Hi as (Hr & Ho & [m Hn] & Hposd & Hprog & Hph & Hl & Hd & Hw & Hpend & Hb).
  rewrite respond; [|rewrite Hph; apply serving_phase|done|done].
  destruct (serve_arrival (X := X) _ _ _ Hn Hwf) as (q & r & n & m' & Hnote & _ & Hstep & Hq).
  unfold PgTurn.ready. rewrite Hprog, Hph. eval_types. rewrite andb_false_r, Hnote. cbn [mbind option_bind].
  assert (idle (set_notes t q) sv) as Hi' by (unfold idle; simpl; split_and!; try done; by exists m').
  destruct r as [[]|e]; cbn; [by apply goes_idle|].
  apply (goes_fails (set_notes t q) e sv (told sv) []); rewrite ?app_nil_r; try done; [by eexists|].
  inversion Hstep as [|? ? ? _ Hx _| | |? ? Hno| |]; subst; try done.
  - by inversion Hx.
  - by destruct (Hno l).
Qed.

Lemma skipped_walk st items outs items' st' :
  skipped items = Some (outs, items') -> walk st items = Some st' ->
  walk Stage.Fresh items' = Some st' /\ settling Progress.Skipping outs /\ syncs items = syncs items' + 1 /\
  forall b, batch_after b items = batch_after (batch_next b) items'.
Proof.
  revert st outs. induction items as [|[k|g] items IH]; intros st outs Hs Hw; simpl in Hs, Hw; [done| |].
  - destruct (skipped items) as [[outs1 items1]|] eqn:Hs1; [|done]. injection Hs as <- <-.
    destruct (advance st (Item.Command k)) as [st1|] eqn:Ha; [|done].
    destruct (IH _ _ eq_refl Hw) as (H1 & H2 & H3 & H4). split_and!; try done. simpl. inversion H2; subst.
    apply (settling_skip ((k, [], _) :: skips)); [|done]. constructor; [|done]. split; [done|].
    intros g. destruct k; try done. by destruct st.
  - assert (walk Stage.Fresh items = Some st') as Hw'.
    { destruct (advance st (Item.Sync g)) as [st1|] eqn:Ha; [|done]. destruct st, g; simpl in Ha; try done;
        [by injection Ha as <-|by injection Ha as <-|]. split_match_in Ha; [|done]. by injection Ha as <-. }
    destruct g as [g|]; injection Hs as <- <-; simpl; split_and!; try done; try lia.
    + apply (settling_skip [] [_]); [done|]. right. by eexists _, _.
    + apply (settling_skip [] []); [done|]. by left.
Qed.

(** What the server settles is what the turn has to. *)
Lemma settles_spec t sv outs items :
  idle t sv -> settles sv = Some (outs, items) ->
  settling (progress t) outs /\ copying sv = Copying.No /\
  lane_holds (lane_orders (lane (port t))) (batch t) outs (batch_next (batch t)) items [] /\
  walk Stage.Fresh items = Some (stage_of (sync (slot (port t)))) /\
  syncs (todo sv) = syncs items + 1 /\ forall b, batch_after b (todo sv) = batch_after (batch_next b) items.
Proof.
  intros (Hr & Ho & Hn & (Hp1 & Hp2 & Hp3) & Hprog & Hph & Hl & Hd & (st & Hw) & Hpend & Hb) Hs.
  assert (copying sv = Copying.No) as Hcopy.
  { destruct (copying sv) eqn:Hc; [done|exfalso|exfalso].
    all: destruct Hp2 as [Hm Hcm]; [done|]; unfold settles in Hs; rewrite Hm in Hs; by destruct (todo sv) as [|[]]. }
  rewrite Hprog. unfold settles in Hs. destruct (mode sv) eqn:Hm.
  - destruct (todo sv) as [|[|[|]] more] eqn:Ht; try done. injection Hs as <- <-.
    assert (sent sv = []) as Hsent by (apply Hp3; by left). rewrite Hsent in Hl.
    split_and!; try done; [constructor| |simpl; lia]. simpl in Hw. destruct st; try done.
  - destruct (todo sv) as [|[k|[g|]] more] eqn:Ht; try done.
    + destruct more as [|[|[|]] more]; try done. injection Hs as <- <-. specialize (Hp1 eq_refl).
      split_and!; try done; [by constructor| | |simpl; lia].
      * by eapply (holds_told _ _ [] _ _ k); [|exact Hl].
      * simpl in Hw. destruct (advance st (Item.Command k)) as [st1|]; [|done]. simpl in Hw. by destruct st1.
    + injection Hs as <- <-. assert (sent sv = []) as Hsent by (apply Hp3; by left). rewrite Hsent in Hl.
      split_and!; try done; [apply settling_sync| | |simpl; lia].
      * by eapply (holds_told _ _ [] _ _ (Kind.Sync g)); [|exact Hl].
      * simpl in Hw. destruct st; try done. simpl in Hw. by destruct (_ =? _).
  - destruct (skipped_walk _ _ _ _ _ Hs Hw) as (H1 & H2 & H3 & H4). rewrite Hp3 in Hl by (by right).
    split_and!; try done. apply (skipped_holds _ _ [] _ _ _ Hs Hl).
Qed.

Lemma ready_goes t sv data status outs items :
  idle t sv -> settles sv = Some (outs, items) -> ready_status data = Ok status -> status_check t id status = Some (Ok ()) ->
  goes (response beyond cancel handshake t id Be.READY_FOR_QUERY data)
    {| todo := items; mode := Mode.Live; sent := []; copying := Copying.No; told := told sv ++ outs |}.
Proof.
  intros Hi Hs Hst Hcheck. destruct (settles_spec _ _ _ _ Hi Hs) as (Hset & Hcopy & Hl & Hw & Hsy & Hba).
  pose proof Hi as (Hr & Ho & Hn & _ & Hprog & Hph & _ & Hd & _ & Hpend & Hb).
  rewrite respond; [|rewrite Hph; apply serving_phase|done|done].
  unfold PgTurn.ready. rewrite Hph, Hcopy. eval_types. rewrite andb_false_r, Hst, Hcheck. cbn [mbind option_bind is_copy phase_of].
  eexists _, _. split; [done|]. intros b. left. split; try done.
  exists outs, [], (batch_next (batch t)), 1, Stage.Fresh, (told sv). simpl. split.
  - apply lagging_ready; simpl; try done; [by rewrite Hph, Hcopy|]. intros -> g Hf.
    unfold status_check in Hcheck. by rewrite Hf in Hcheck.
  - split_and!; try done; [unfold sys_port; simpl; lia|]. unfold sys_port. simpl. by rewrite Hb, Hba.
Qed.

Lemma deliver_goes t sv typ data sv' :
  idle t sv -> says (bool_decide (lane_front (lane (port t)) = Front.Denied)) sv typ data sv' ->
  (typ = Be.READY_FOR_QUERY -> exists status, ready_status data = Ok status /\ status_check t id status = Some (Ok ())) ->
  goes (response beyond cancel handshake t id typ data) sv'.
Proof.
  intros Hi Hsay Hrfq. pose proof Hi as (_ & _ & _ & _ & Hprog & Hph & _).
  assert (forall typ data, mode sv = Mode.Live -> typ = Be.COMMAND_COMPLETE \/ typ = Be.EMPTY_QUERY_RESPONSE ->
    response beyond cancel handshake t id typ data = or_fail beyond cancel id None (command_complete beyond t id typ data)) as Hcc.
  { intros ty d Hm Hty. rewrite respond; [|rewrite Hph; apply serving_phase|by destruct Hty as [->| ->]..].
    by rewrite ready_complete; [|rewrite Hprog, Hm|]. }
  destruct Hsay as [data Hd|data fields Hd|data l Hd Hwf|k items typ data Hm Ht Hc Hty|k items typ Hm Ht Hc Hty
    |k items data Hm Ht Hc Hf|k items data Hm Ht Hc Hf|k items Hm Ht Hc|k items row Hm Ht Hc Hden|k items row Hm Ht Hc Hden
    |k items typ data Hm Ht Hk Hty|items Hm Ht|items Hm Ht|k items data plan Hm Ht Hp Hs|g items data plan Hm Ht Hp Hs
    |data outs items Hs].
  - apply ready_neutral; auto.
  - unfold response. eval_types. rewrite Hd. by apply goes_idle.
  - by eapply note_goes.
  - apply ready_neutral; [done|]. right. split_and!; try done. naive_solver.
  - apply ready_neutral; [done|]. right. by split_and!; auto.
  - eapply (ready_copy _ _ _ _ Copying.In); [done|done|exact Ht|]. left. auto.
  - eapply (ready_copy _ _ _ _ Copying.Out); [done|done|exact Ht|]. left. auto.
  - eapply (ready_copy _ _ _ _ Copying.No); [done|done|exact Ht|]. by right.
  - rewrite respond; [|rewrite Hph; apply serving_phase|done..].
    assert (PgTurn.ready beyond t id Be.DATA_ROW row = push t id row) as ->
      by (unfold PgTurn.ready; rewrite Hprog, Hph, Hm, Hc; by eval_types).
    by eapply push_row.
  - rewrite respond; [|rewrite Hph; apply serving_phase|done..].
    assert (PgTurn.ready beyond t id Be.COPY_DATA row = push t id row) as ->
      by (unfold PgTurn.ready; rewrite Hprog, Hph, Hm, Hc; by eval_types).
    by eapply push_row.
  - rewrite Hcc by (done || naive_solver). by apply complete_command.
  - rewrite Hcc by (done || auto). by apply (complete_commit _ _ items false).
  - rewrite Hcc by (done || auto). by apply (complete_commit _ _ items true).
  - by eapply error_goes.
  - by eapply sync_error_goes.
  - destruct (Hrfq eq_refl) as (status & Hst & Hcheck). by eapply ready_goes.
Qed.

(** *** Requests *)

(** The rows of the first order are none unless a command runs. *)
Lemma lagging_rows t sv w lag rows b late st : poised sv -> lagging t sv w lag rows b late st -> commanded (todo sv) = false -> rows = [].
Proof.
  intros (_ & _ & Hp) Hlag Hc. destruct Hlag as [|row rows st Hm Hprog Hph Hcmd Hs Hden| |]; try done; [apply Hp; by left|congruence].
Qed.

Lemma poised_more sv items : poised sv -> poised {| todo := todo sv ++ items; mode := mode sv; sent := sent sv; copying := copying sv; told := told sv |}.
Proof.
  intros (H1 & H2 & H3). unfold poised. simpl. destruct (todo sv) as [|i more]; simpl; [|by split_and!].
  split_and!; [intros Ha; by apply H1 in Ha|intros Hc; by destruct (H2 Hc)|intros _; apply H3; by left].
Qed.

(** A turn with another port, for which more is owed. *)
Lemma lagging_more t sv w lag rows b late st p items :
  lagging t sv w lag rows b late st ->
  (w = Some (Pending.Ready Status.Transaction) -> forall g, access_current (slot p) id <> Some (CFinalizing g)) ->
  (forall row, w = Some (Pending.Row row) -> lane_front (lane p) <> Front.Denied) ->
  lagging (set_port t p) {| todo := todo sv ++ items; mode := mode sv; sent := sent sv; copying := copying sv; told := told sv |}
    w lag rows b late st.
Proof.
  intros Hlag Hst Hfr. destruct Hlag as [|row rows st Hm Hprog Hph Hcmd Hs Hden|f k rows st Hm Hprog Hph Hcopy Hs|status lag Hm Hph Hcopy Hs Hset Hfin].
  - by apply (lagging_none (set_port t p) {| todo := todo sv ++ items; mode := mode sv; sent := sent sv; copying := copying sv; told := told sv |}).
  - apply (lagging_row (set_port t p)); try done; simpl; [by destruct (todo sv)|by eapply Hfr].
  - by apply (lagging_failure (set_port t p)).
  - apply (lagging_ready (set_port t p)); try done. intros -> g. by apply Hst.
Qed.

(** A slot on which an order was admitted, or a Sync. *)
Definition slot_more (s s' : Slot X T R) (items : list Item.Item) : Prop :=
  PgSlot.phase s' = PgSlot.phase s /\ walk (stage_of (sync s)) items = Some (stage_of (sync s')) /\
  pending s' = pending s + syncs items /\ PgSlot.batch s' = batch_after (PgSlot.batch s) items.

Lemma front_kept (l l' : L) new :
  lane_orders l' = lane_orders l ++ new -> lane_orders l <> [] -> lane_front l' = lane_front l.
Proof. intros Ho Hn. rewrite !lane_front_law, Ho. by destruct (lane_orders l). Qed.

Lemma aligned_more s p fr items new :
  aligned s -> slot_more (slot (sys_port s)) (slot p) items ->
  lane_orders (lane p) = lane_orders (lane (sys_port s)) ++ new -> lane_done (lane p) = lane_done (lane (sys_port s)) ->
  o_tag <$> new = orders_of (PgSlot.batch (slot (sys_port s))) items -> Forall (fun o => o_rows o = []) new ->
  (forall tags, Forall (owned (owners (sys_port s))) tags -> Forall (owned (owners p)) tags) ->
  Forall (owned (owners p)) (o_tag <$> new) ->
  aligned (with_todo s p fr items).
Proof.
  intros [Hr Ho Hn Hp (lag & rows & b & late & st & handed & Hlag & Hl & Ht & Hd & Hw & Hpend & Hb)]
    (Hph & Hwalk & Hpe & Hba) Hlo Hld Htags Hrows Hown Hnew.
  pose proof (lagging_rows _ _ _ _ _ _ _ _ Hp Hlag) as Hrows0.
  split; unfold sys_port in *; simpl.
  - destruct Hr as (bd & a & r & Hph0 & ?). exists bd, a, r. by rewrite Hph.
  - rewrite Hlo, fmap_app. apply Forall_app. split; [by apply Hown|done].
  - done.
  - by apply poised_more.
  - exists lag, rows, b, late, st, handed. split; [|split; [|split; [|split; [|split; [|split]]]]].
    + apply lagging_more; [done| |].
      * intros Hwt g Hf. inversion Hlag as [| | |? ? ? ? ? ? ? Hfin]; subst; try congruence.
        rewrite Hwt in *. match goal with E : Some _ = Some _ |- _ => injection E as -> end.
        apply (Hfin eq_refl g). rewrite <- Hf. unfold access_current, phase_get. by rewrite Hph.
      * intros row Hwt. inversion Hlag as [|? ? ? ? ? ? Hcmd ? Hden| |]; subst; try congruence.
        rewrite (front_kept (lane (port (turn s))) _ new); [done|done|]. intros Hnil.
        destruct Hl as (lagged & rest & Hnil' & _ & Htg & _). rewrite Hnil in Hnil'.
        symmetry in Hnil'. apply app_nil in Hnil' as [-> ->]. by destruct (todo (server s)) as [|[]].
    + rewrite Hlo. apply holds_more; [done|done| |done]. by rewrite Htags, Hb.
    + done.
    + by rewrite Hld.
    + rewrite walk_app, Hw. done.
    + rewrite syncs_app, Hpe, Hpend. lia.
    + by rewrite batch_after_app, Hba, Hb.
Qed.

Lemma aligned_same s fr : aligned s -> aligned (with_todo s (sys_port s) fr []).
Proof.
  intros Hal. apply (aligned_more _ _ _ _ []); try done; [|by rewrite app_nil_r].
  split_and!; [done|done|simpl; lia|done].
Qed.

(** The Syncs owed never pass the orders by more than one. *)
Lemma aligned_pending s :
  aligned s -> pending (slot (sys_port s)) + open_in (stage_of (sync (slot (sys_port s)))) <=
    zlen (lane_orders (lane (sys_port s))) + 1.
Proof.
  intros [Hr Ho Hn Hp (lag & rows & b & late & st & handed & Hlag & Hl & Ht & Hd & Hw & Hpend & Hb)].
  pose proof (walk_counts _ _ _ b Hw) as Hc. destruct Hl as (lagged & rest & Hrest & _ & Htg & _).
  apply (f_equal length) in Htg. rewrite length_fmap in Htg. rewrite Hrest, length_app, Hpend.
  assert (open_in st + late <= 1) by (destruct Hlag as [st| ? ? st|? ? ? st|]; try destruct st; simpl; lia). lia.
Qed.

Lemma group_walk g n start len :
  (start + len = n)%nat -> len <> 0%nat ->
  forall st, st = Stage.Within g \/ st = Stage.Fresh ->
  walk st (((fun t => Item.Command (kind t)) <$> ((fun i => tag_command 0 (Z.of_nat i) (Nat.eqb (Datatypes.S i) n) g) <$> seq start len))
           ++ [Item.Sync (Some g)]) = Some Stage.Fresh.
Proof.
  revert start. induction len as [|len IH]; intros start Hn Hlen st Hst; [done|]. cbn [seq fmap list_fmap app].
  destruct len as [|len].
  - assert (Nat.eqb (Datatypes.S start) n = true) as -> by (apply Nat.eqb_eq; lia).
    cbn. destruct Hst as [->| ->]; cbn; rewrite Z.eqb_refl; cbn; by rewrite ?Z.eqb_refl.
  - assert (Nat.eqb (Datatypes.S start) n = false) as -> by (apply Nat.eqb_neq; lia).
    cbn [walk]. assert (advance st (Item.Command (kind (tag_command 0 (Z.of_nat start) false g))) = Some (Stage.Within g)) as ->
      by (destruct Hst as [->| ->]; cbn; by rewrite ?Z.eqb_refl).
    apply IH; [lia|done|by left].
Qed.

Lemma group_orders b n g :
  orders_of b (group_items n g ++ [Item.Sync (Some g)]) = group_tags b n g ++ [tag_sync b g] /\
  syncs (group_items n g ++ [Item.Sync (Some g)]) = 1 /\
  batch_after b (group_items n g ++ [Item.Sync (Some g)]) = batch_next b.
Proof.
  unfold group_items, group_tags. induction (seq 0 n) as [|i l (IH1 & IH2 & IH3)]; [by split_and!|].
  rewrite !fmap_cons. cbn [app orders_of syncs batch_after]. rewrite IH1, IH2, IH3. by split_and!.
Qed.

(** The items a permit stands for. *)
Lemma commit_more (s : Slot X T R) next boundary items :
  walk (stage_of (sync s)) items = Some (stage_of next) ->
  (syncs items, batch_after (PgSlot.batch s) items) =
    match boundary with
    | Boundary.Open | Boundary.External => (0, PgSlot.batch s)
    | _ => (1, batch_next (PgSlot.batch s))
    end ->
  pending s + syncs items <= PENDING_MAX ->
  exists s' u, commit s (permit s next boundary) = Some (s', u) /\ slot_more s s' items.
Proof.
  intros Hw Hs Hp. unfold commit. simpl. destruct boundary; injection Hs as Hs Hb; rewrite Hs in Hp.
  all: try (replace (pending s + 1 <=? PENDING_MAX) with true by lia).
  all: eexists _, _; (split; [done|]); unfold slot_more; simpl; rewrite Hs, Hb; split_and!; (done || lia).
Qed.

Lemma next_walk sy boundary next :
  try_next (X := X) sy boundary = Ok next -> boundary <> Boundary.Group ->
  walk (stage_of sy) (items_of boundary) = Some (stage_of next).
Proof.
  intros Hn Hb. destruct sy as [|d|d], boundary; simpl in Hn; try done; try (by injection Hn as <-).
  destruct (checked_u32 (d + 1)); [|done]. by injection Hn as <-.
Qed.

Lemma admitted_orders (l : L) tags l' : lane_admit l tags = Ok l' ->
  exists new, lane_orders l' = lane_orders l ++ new /\ o_tag <$> new = tags /\
    Forall (fun o => o_rows o = []) new /\ lane_done l' = lane_done l /\
    zlen (lane_orders l) + zlen tags <= u32_max / 2.
Proof.
  intros Ha. destruct (lane_admit_law _ _ _ Ha) as (new & Ho & Ht & Hr & Hd). exists new. split_and!; try done.
  pose proof (lane_bound l') as Hb. rewrite Ho, length_app in Hb. rewrite <- Ht, length_fmap. lia.
Qed.

(** A request is refused, or owed. *)
Lemma with_goes s boundary weight frame items prepare next0 :
  aligned s ->
  (forall next, PgSlot.try_reply (slot (sys_port s)) boundary = Ok next -> next = permit (slot (sys_port s)) next0 boundary /\
     walk (stage_of (sync (slot (sys_port s)))) items = Some (stage_of next0)) ->
  (syncs items, batch_after (PgSlot.batch (slot (sys_port s))) items) =
    match boundary with
    | Boundary.Open | Boundary.External => (0, PgSlot.batch (slot (sys_port s)))
    | _ => (1, batch_next (PgSlot.batch (slot (sys_port s))))
    end ->
  (forall p r, prepare (sys_port s) (tag_new (PgSlot.batch (slot (sys_port s))) boundary) = (p, r) ->
     match r with
     | Err _ => p = sys_port s
     | Ok _ => exists l, lane_admit (lane (sys_port s)) (orders_of (PgSlot.batch (slot (sys_port s))) items) = Ok l /\
         lane p = l /\ slot p = slot (sys_port s) /\
         (forall tags, Forall (owned (owners (sys_port s))) tags -> Forall (owned (owners p)) tags) /\
         Forall (owned (owners p)) (orders_of (PgSlot.batch (slot (sys_port s))) items)
     end) ->
  zlen (orders_of (PgSlot.batch (slot (sys_port s))) items) >= 1 ->
  exists s', published s items (PgRequests.try_with (sys_port s) (frames s) boundary weight frame prepare) = Some s' /\ aligned s'.
Proof.
  intros Hal Hnext Hsyncs Hprep Hone. pose proof (aligned_same s) as Hsame. unfold PgRequests.try_with.
  destruct (PgSlot.try_reply (slot (sys_port s)) boundary) as [pm|e] eqn:Hpm; [|eexists; split; [done|by apply Hsame]].
  destruct (Hnext _ eq_refl) as [-> Hw]. unfold CoreQueue.try_with.
  destruct (CoreQueue.try_reserve (frames s) weight) as [fr|e]; cbn; [|eexists; split; [done|by apply Hsame]].
  destruct (prepare (sys_port s) (tag_new (PgSlot.batch (slot (sys_port s))) boundary)) as [p r] eqn:Hpr.
  specialize (Hprep _ _ eq_refl). destruct r as [[]|e]; cbn; [|subst p; eexists; split; [done|by apply Hsame]].
  destruct Hprep as (l & Hadm & Hpl & Hps & Hown & Hnew). rewrite Hps.
  destruct (admitted_orders _ _ _ Hadm) as (new & Ho & Ht & Hr & Hd & Hroom).
  pose proof (aligned_pending s Hal) as Hpend.
  destruct (commit_more (slot (sys_port s)) next0 boundary items) as (s' & u & -> & Hmore); [done|done| |].
  { assert (syncs items <= 1) by (destruct boundary; injection Hsyncs as -> _; lia).
    assert (0 <= open_in (stage_of (sync (slot (sys_port s))))) by (destruct (sync (slot (sys_port s))); simpl; lia).
    unfold PENDING_MAX. lia. }
  cbn. eexists. split; [done|]. apply (aligned_more _ _ _ _ new); try done; cbn; rewrite ?Hpl; try done. by rewrite Ht.
Qed.

Lemma request_goes s boundary weight frame :
  aligned s -> boundary <> Boundary.Group ->
  exists s', published s (items_of boundary) (PgRequests.try_reply (sys_port s) (frames s) boundary weight frame) = Some s' /\ aligned s'.
Proof.
  intros Hal Hb. destruct (try_next (X := X) (sync (slot (sys_port s))) boundary) as [next0|e] eqn:Hn.
  - apply (with_goes s boundary weight frame (items_of boundary) admit_order next0); [done| | | |by destruct boundary].
    + intros next. unfold PgSlot.try_reply. rewrite Hn. cbn. intros [= <-]. split; [done|]. by eapply next_walk.
    + by destruct boundary.
    + intros p r. unfold admit_order.
      assert ([tag_new (PgSlot.batch (slot (sys_port s))) boundary] = orders_of (PgSlot.batch (slot (sys_port s))) (items_of boundary)) as ->
        by (by destruct boundary).
      destruct (lane_admit _ _) as [l|x] eqn:Ha; intros [= <- <-]; [|done]. exists l. split_and!; try done.
      by destruct boundary; repeat constructor.
  - unfold PgRequests.try_reply, PgRequests.try_with, PgSlot.try_reply. rewrite Hn. cbn. eexists. split; [done|].
    by apply aligned_same.
Qed.

Lemma group_step s weight frame n group owner :
  aligned s -> n <> 0%nat ->
  exists s', published s (group_items n group ++ [Item.Sync (Some group)])
    (try_group (sys_port s) (frames s) weight frame n group owner) = Some s' /\ aligned s'.
Proof.
  intros Hal Hn. destruct (group_orders (PgSlot.batch (slot (sys_port s))) n group) as (Ho & Hs & Hb).
  destruct (sync (slot (sys_port s))) as [|d|d] eqn:Hsy.
  - apply (with_goes s Boundary.Group weight frame _ (admit_group n group owner) Sync.Synced); [done| | | |].
    + intros next. unfold PgSlot.try_reply. rewrite Hsy. cbn. intros [= <-]. split; [done|].
      by apply (group_walk group n 0 n); [| |right].
    + by rewrite Hs, Hb.
    + intros p r. unfold admit_group. rewrite Ho. cbn [tag_batch tag_new].
      destruct (lane_admit _ _) as [l|x]; intros [= <- <-]; [|done]. exists l. cbn.
      split_and!; [done|done|done|intros; by apply owned_insert|]. apply Forall_app. split.
      * unfold group_tags. rewrite Forall_fmap. apply Forall_true. intros i. unfold compose, owned, tag_command. cbn.
        destruct (match n with 0%nat => false | _ => _ end); cbn; rewrite lookup_insert_eq; by eexists.
      * constructor; [|done]. unfold owned. cbn. rewrite lookup_insert_eq; by eexists.
    + rewrite Ho, length_app. simpl. lia.
  - unfold try_group, PgRequests.try_with, PgSlot.try_reply. rewrite Hsy. cbn. eexists. split; [done|]. by apply aligned_same.
  - unfold try_group, PgRequests.try_with, PgSlot.try_reply. rewrite Hsy. cbn. eexists. split; [done|]. by apply aligned_same.
Qed.

(** *** The Syncs of a COPY and of a pipeline *)

Lemma ready_accepts s : slot_ready s -> PgSlot.ready s id = Some true.
Proof.
  intros (b & a & r & Hp & Hb & Ha). unfold PgSlot.ready, phase_get. rewrite Hp. cbn.
  rewrite bool_decide_eq_true_2 by done. by rewrite bool_decide_eq_false_2.
Qed.

Lemma synced_more s s' fr :
  aligned s -> slot_more (slot (sys_port s)) s' [Item.Sync None] ->
  aligned (with_todo s (with_slot (sys_port s) s') fr [Item.Sync None]).
Proof. intros Hal Hm. by apply (aligned_more _ _ _ _ []); [..|rewrite app_nil_r| | | | |]. Qed.

(** The Sync that an open batch is owed is within the bound. *)
Lemma sync_commit s :
  aligned s -> sync (slot (sys_port s)) <> Sync.Synced ->
  exists s' u, commit (slot (sys_port s)) (permit (slot (sys_port s)) Sync.Synced Boundary.Close) = Some (s', u) /\
    slot_more (slot (sys_port s)) s' [Item.Sync None] /\ u = false.
Proof.
  intros Hal Hs. pose proof (aligned_pending s Hal) as Hpend. pose proof (lane_bound (lane (sys_port s))) as Hroom.
  destruct (commit_more (slot (sys_port s)) Sync.Synced Boundary.Close [Item.Sync None]) as (s' & u & Hc & Hm).
  - by destruct (sync (slot (sys_port s))).
  - done.
  - unfold PENDING_MAX. destruct (sync (slot (sys_port s))); [done|simpl in *; lia..].
  - exists s', u. split_and!; [done|done|]. unfold commit in Hc. cbn in Hc.
    destruct (pending (slot (sys_port s)) + 1 <=? PENDING_MAX); [|done]. injection Hc as _ <-.
    by destruct (sync (slot (sys_port s))).
Qed.

Lemma finish_step s :
  aligned s -> exists s', published s [Item.Sync None] (try_sync (sys_port s) (frames s) id) = Some s' /\ aligned s'.
Proof.
  intros Hal. pose proof (aligned_same s) as Hsame. pose proof (al_slot _ Hal) as Hr. unfold try_sync.
  rewrite ready_matches, ready_accepts by done. unfold try_finish.
  destruct (sync (slot (sys_port s))) as [|d|d] eqn:Hsy.
  1,2: eexists; split; [done|by apply Hsame].
  unfold CoreQueue.try_with. destruct (CoreQueue.try_reserve _ _) as [fr|e]; cbn [mbind option_bind];
    [|eexists; split; [done|by apply Hsame]].
  destruct (sync_commit s Hal) as (s' & u & Hc & Hm & _); [by rewrite Hsy|]. rewrite Hc. cbn.
  eexists. split; [done|]. by apply synced_more.
Qed.

Lemma flush_step s send :
  aligned s ->
  exists s', (r ← try_flush (sys_port s) (frames s) id send;
     Some (with_todo s r.1 (frames s) match r.2 with Ok true => [Item.Sync None] | _ => [] end)) = Some s' /\ aligned s'.
Proof.
  intros Hal. pose proof (aligned_same s (frames s) Hal) as Hsame. pose proof (al_slot _ Hal) as Hr. unfold try_flush.
  rewrite ready_matches by done. unfold flush. destruct Hr as (b & a & r & Hp & Hb & Ha). unfold phase_get. rewrite Hp. cbn.
  rewrite bool_decide_eq_true_2 by done.
  destruct (sync (slot (sys_port s))) as [|d|d] eqn:Hsy; [by eexists| |by eexists].
  destruct (fair_items (frames s)); [|by eexists]. destruct (send _) as [[]|e]; [|by eexists].
  destruct (sync_commit s Hal) as (s' & u & Hc & Hm & ->); [by rewrite Hsy|]. rewrite Hc. cbn.
  eexists. split; [done|]. by apply synced_more.
Qed.

(** *** The waiters and the transactions *)

Lemma left_step s l' :
  aligned s -> Forall2 left_by (lane_orders (lane (sys_port s))) (lane_orders l') ->
  lane_done l' = lane_done (lane (sys_port s)) -> aligned (with_todo s (with_lane (sys_port s) l') (frames s) []).
Proof.
  intros [Hr Ho Hn Hp (lag & rows & b & late & st & handed & Hlag & Hl & Ht & Hd & Hw & Hpend & Hb)] Hleft Hdone.
  assert (o_tag <$> lane_orders l' = o_tag <$> lane_orders (lane (sys_port s))) as Htags.
  { clear -Hleft. induction Hleft as [|o o' os os' (Ht & _) _ IH]; [done|]. by rewrite !fmap_cons, Ht, IH. }
  unfold sys_port in *. split; simpl; try done.
  - by rewrite Htags.
  - by apply poised_more.
  - exists lag, rows, b, late, st, handed. rewrite app_nil_r, Hdone.
    split; [|split_and!; try done; by eapply holds_left].
    pose proof (lagging_more _ _ _ _ _ _ _ _ (with_lane (port (turn s)) l') [] Hlag) as Hmore.
    rewrite app_nil_r in Hmore. apply Hmore.
    + intros Hwt g. inversion Hlag as [| | |? ? ? ? ? ? ? Hfin]; subst; try congruence. rewrite Hwt in *.
      match goal with E : Some _ = Some _ |- _ => injection E as -> end. by apply Hfin.
    + intros row Hwt. inversion Hlag as [|? ? ? ? ? ? Hcmd ? Hden| |]; subst; try congruence. cbn.
      rewrite lane_front_law in *. destruct Hleft as [|o o' os os' (_ & _ & Hf) _]; [done|]. cbn in *.
      by destruct Hf as [->| ->].
Qed.

Lemma access_step s access :
  aligned s -> access <> Access.Draining ->
  (waiting s = Some (Pending.Ready Status.Transaction) -> forall g, access <> Access.Finalizing g) ->
  aligned (with_todo s (with_slot (sys_port s) (with_phase (slot (sys_port s)) (set_access (PgSlot.phase (slot (sys_port s))) access)))
             (frames s) []).
Proof.
  intros [Hr Ho Hn Hp (lag & rows & b & late & st & handed & Hlag & Hl & Ht & Hd & Hw & Hpend & Hb)] Ha Hfin.
  unfold sys_port in *. split; simpl; try done.
  - by apply ready_access.
  - by apply poised_more.
  - exists lag, rows, b, late, st, handed. rewrite app_nil_r. split; [|by split_and!].
    pose proof (lagging_more _ _ _ _ _ _ _ _ (with_slot (port (turn s)) (with_phase (slot (port (turn s))) (set_access (PgSlot.phase (slot (port (turn s)))) access))) [] Hlag) as Hmore.
    rewrite app_nil_r in Hmore. apply Hmore.
    + intros Hwt g Hf. specialize (Hfin Hwt). destruct Hr as (bd & a & r & Hph & Hbd & _).
      unfold access_current, phase_get, set_access, is_receiving in Hf. cbn in Hf. rewrite Hph in Hf. cbn in Hf.
      rewrite bool_decide_eq_true_2 in Hf by done. cbn in Hf.
      destruct access as [| | |g'|]; try done. by apply (Hfin g').
    + intros row Hwt. inversion Hlag; subst; first [done|congruence].
Qed.

(** *** Every step *)

Lemma fresh_aligned s : fresh s -> aligned s.
Proof.
  intros ((b & r & Hp & Hb) & Hsy & Hpe & Hba & Hlo & Hld & Hwt & Hph & Hprog & Hq & Hdr & Hfree & Hcap & Hsv).
  pose proof (fifo_positive (Q := Q) (capacity := number)) as Hpos.
  split; rewrite ?Hlo, ?Hsv.
  - by exists b, (Access.Shared 0), r.
  - constructor.
  - exists {| letters := []; lost := 0 |}. unfold queue_holds. rewrite Hq, Hdr, Hfree. cbn. split_and!; (done || lia).
  - unfold poised. cbn. by split_and!.
  - exists [], [], (batch (turn s)), 0, Stage.Fresh, []. rewrite Hwt, Hld, Hsy, Hpe, Hba. split_and!; try done.
    + by apply lagging_rest.
    + by exists [], [].
Qed.

Lemma step_goes s o : aligned s -> step s o -> exists s', o = Some s' /\ (aligned s' \/ ended s').
Proof.
  intros Hal Hstep.
  destruct Hstep as [typ data sv _ Hwt Hsay Hrfq|pd work _ Hwt|boundary weight frame _ Hb|weight frame n group owner _ Hn _
    |_|send _|l' _ Hleft Hdone|access _ Ha Hfin].
  - destruct (deliver_goes _ _ _ _ _ (aligned_idle _ Hal Hwt) Hsay Hrfq) as (t & w & Hr & Hgo).
    unfold deliver. rewrite Hr. cbn. eexists. by split; [|apply Hgo].
  - destruct pd as [row|f|status].
    + by apply resume_row.
    + by apply resume_failure.
    + destruct (resume_ready _ _ work Hal Hwt) as (s' & ? & ?). exists s'. auto.
  - destruct (request_goes s boundary weight frame Hal Hb) as (s' & ? & ?). exists s'. auto.
  - destruct (group_step s weight frame n group owner Hal Hn) as (s' & ? & ?). exists s'. auto.
  - destruct (finish_step s Hal) as (s' & ? & ?). exists s'. auto.
  - destruct (flush_step s send Hal) as (s' & ? & ?). exists s'. auto.
  - eexists. split; [done|]. left. by apply left_step.
  - eexists. split; [done|]. left. by apply access_step.
Qed.

Lemma step_connected s o : step s o -> connected s.
Proof. by destruct 1. Qed.

Lemma ended_unconnected s : ended s -> ~ connected s.
Proof. intros [(b & e & d & Hp & _) _] (a & r & Hc). by rewrite Hp in Hc. Qed.

Lemma reachable_goes s0 s : fresh s0 -> reachable s0 s -> aligned s \/ ended s.
Proof.
  intros Hf Hr. induction Hr as [|s s' _ IH Hs]; [left; by apply fresh_aligned|]. destruct IH as [Hal|He].
  - by destruct (step_goes _ _ Hal Hs) as (s2 & [= <-] & ?).
  - by apply step_connected, (ended_unconnected _ He) in Hs.
Qed.

(** C1. Replies stay aligned with their commands. Take any interleaving of pipelined
    requests, command groups, COPYs, their Syncs, waiters that read or leave,
    transactions that are reserved and released, messages of a server that follows
    the protocol, and the continuations of turns that ran out of room or work. The
    code never meets a state it excludes, in particular the Syncs owed never pass
    their bound. What the orders were handed is, in order, what the server told of
    its commands: the rows and the outcome of each order that still has a waiter are
    its own. While nothing is left for later, everything told was handed out and the
    orders in the lane are exactly the commands the server still owes, each with the
    batch of its Sync. And the connection never ends for a violation of the protocol:
    only for the want of room. *)
Theorem replies_aligned s0 s :
  fresh s0 -> reachable s0 s ->
  (forall o, step s o -> exists s', o = Some s') /\
  (exists handed rest, told (server s) = handed ++ rest /\ Forall2 same (lane_done (lane (sys_port s))) handed /\
     (connected s -> waiting s = None ->
        rest = [] /\ o_tag <$> lane_orders (lane (sys_port s)) = orders_of (batch (turn s)) (todo (server s)))) /\
  (~ connected s -> exists e d, lifecycle (PgSlot.phase (slot (sys_port s))) = LClosing e d /\ exhaustion e).
Proof.
  intros Hf Hr. destruct (reachable_goes _ _ Hf Hr) as [Hal|He].
  - split; [|split].
    + intros o Hs. destruct (step_goes _ _ Hal Hs) as (s' & ? & _). by exists s'.
    + pose proof Hal as [_ _ _ _ (lag & rows & b & late & st & handed & Hlag & Hl & Ht & Hd & _)].
      exists handed, lag. split_and!; [done|done|]. intros _ Hwt. rewrite Hwt in Hlag. inversion Hlag; subst.
      split; [done|]. destruct Hl as (lagged & rest & -> & Hlg & Htg & _). by apply Forall2_nil_inv_r in Hlg as ->.
    + intros Hn. exfalso. apply Hn. destruct (al_slot _ Hal) as (b & a & r & Hp & _). exists a, r. by rewrite Hp.
  - pose proof (ended_unconnected _ He) as Hu. destruct He as [(b & e & d & Hp & Hx) (handed & rest & Ht & Hd)].
    split; [|split].
    + intros o Hs. by apply step_connected in Hs.
    + exists handed, rest. by split_and!.
    + intros _. exists e, d. by rewrite Hp.
Qed.
End pipeline.

(** ** A lane on its own *)

(** Four orders at most, none of an empty front, and the log of those that left. *)
Definition small_ok (l : list Order * list (Done ())) : bool :=
  (length l.1 <=? 4)%nat && forallb (fun o => negb (bool_decide (o_front o = Front.Empty))) l.1.

Definition Small : Type := { l : list Order * list (Done ()) | small_ok l = true }.

Definition small_make (l : list Order * list (Done ())) : option Small :=
  match Bool.bool_dec (small_ok l) true with left H => Some (exist _ l H) | right _ => None end.

Definition small_set (l : Small) (l' : list Order * list (Done ())) : Small := default l (small_make l').

Lemma small_made l : small_ok l = true -> exists s, small_make l = Some s /\ proj1_sig s = l.
Proof. intros Hl. unfold small_make. destruct (Bool.bool_dec (small_ok l) true); [by eexists|done]. Qed.

Lemma small_is_set l l' : small_ok l' = true -> proj1_sig (small_set l l') = l'.
Proof. intros Hl. unfold small_set. destruct (small_made _ Hl) as (s & -> & <-). done. Qed.

Lemma small_tail o os d d' : small_ok (o :: os, d) = true -> small_ok (os, d') = true.
Proof. unfold small_ok. cbn. intros H. apply andb_true_iff in H as [H1 H2]. apply andb_true_iff in H2 as [_ H2]. rewrite H2. apply Nat.leb_le in H1. rewrite (proj2 (Nat.leb_le _ _)); [done|lia]. Qed.

Lemma small_row o os d row : small_ok (o :: os, d) = true -> small_ok (add_row o row :: os, d) = true.
Proof. done. Qed.

#[local] Instance small_lane : PgReplies.Lane () Small := {|
  lane_depth l := zlen (proj1_sig l).1;
  lane_tag l := o_tag <$> head (proj1_sig l).1;
  lane_front l := from_option o_front Front.Empty (head (proj1_sig l).1);
  lane_build l row :=
    match (proj1_sig l).1 with
    | [] => Err (PushError.OtherFront Front.Empty)
    | o :: os => match o_front o with
                 | Front.Open => Ok (small_set l (add_row o row :: os, (proj1_sig l).2))
                 | f => Err (PushError.OtherFront f)
                 end
    end;
  lane_push l row :=
    match (proj1_sig l).1 with
    | [] => Err (InsertError.OtherFront Front.Empty)
    | o :: os => match o_front o with
                 | Front.Open => Ok (small_set l (add_row o row :: os, (proj1_sig l).2))
                 | f => Err (InsertError.OtherFront f)
                 end
    end;
  lane_fail l f :=
    match (proj1_sig l).1 with
    | [] => Err (InsertError.OtherFront Front.Empty)
    | o :: os => if detached o then Err (InsertError.OtherFront Front.Detached)
                 else Ok (small_set l (os, (proj1_sig l).2 ++ [done_of o (Outcome.Failed f)]))
    end;
  lane_complete l :=
    match (proj1_sig l).1 with [] => l | o :: os => small_set l (os, (proj1_sig l).2 ++ [done_of o Outcome.Completed]) end;
  lane_fail_one l f :=
    match (proj1_sig l).1 with [] => l | o :: os => small_set l (os, (proj1_sig l).2 ++ [done_of o (Outcome.Failed f)]) end;
  lane_admit l tags :=
    ok_or (small_make ((proj1_sig l).1 ++ ((fun t => {| o_tag := t; o_front := Front.Open; o_rows := [] |}) <$> tags), (proj1_sig l).2)) () |}.

#[local] Instance small_laws : LaneLaws () Small.
Proof.
  refine {| lane_orders l := (proj1_sig l).1; lane_done l := (proj1_sig l).2 |}.
  - intros [[os d] H]. cbn. unfold small_ok in H. cbn in H. apply andb_true_iff in H as [H _]. apply Nat.leb_le in H. lia.
  - intros [[os d] H]. cbn. unfold small_ok in H. cbn in H. apply andb_true_iff in H as [_ H].
    apply Forall_forall. intros o Ho. eapply forallb_forall in H; [|by apply list_elem_of_In]. intros Hf. by rewrite Hf in H.
  - done.
  - done.
  - done.
  - intros [[os d] H] row. destruct os as [|o os]; [done|]. cbn. destruct (o_front o) eqn:Hf; try done.
    rewrite small_is_set by done. done.
  - intros [[os d] H] row. destruct os as [|o os]; [done|]. cbn. destruct (o_front o) eqn:Hf; try done.
    rewrite small_is_set by done. done.
  - intros [[os d] H] f. destruct os as [|o os]; [by cbn; auto|]. cbn. unfold detached.
    destruct (bool_decide_reflect (o_front o = Front.Detached)) as [Hf|Hf]; [by auto|].
    rewrite small_is_set by (by eapply small_tail). done.
  - intros [[os d] H] o os' Ho. cbn in Ho. subst os. cbn. by rewrite small_is_set by (by eapply small_tail).
  - intros [[os d] H] f o os' Ho. cbn in Ho. subst os. cbn. by rewrite small_is_set by (by eapply small_tail).
  - intros [[os d] H] tags l'. cbn. destruct (small_make _) as [s|] eqn:Hs; [|done]. intros [= <-].
    unfold small_make in Hs. destruct (Bool.bool_dec _ true); [|done]. injection Hs as <-. cbn.
    eexists. split_and!; [done| | |done].
    + rewrite <- list_fmap_compose. apply list_fmap_id.
    + rewrite Forall_fmap. by apply Forall_true.
Defined.

#[local] Existing Instances two_places two_places_laws always_copies always_copies_laws small_span.

(** A queue of frames without bound, and payloads that are always retained. *)
#[local] Instance list_frames : Fair () (list Z) (list (Entry (list Z)) * Z * nat) := {|
  fair_items b := b.1.1;
  fair_weight b := b.1.2;
  fair_permits b := b.2;
  fair_index b := 0;
  fair_set_weight b w := (b.1.1, w, b.2);
  fair_reserve b := Ok (b.1.1, b.1.2, S b.2);
  fair_push_back b e := (b.1.1 ++ [e], b.1.2, Nat.pred b.2);
  fair_push_front b e := (e :: b.1.1, b.1.2, Nat.pred b.2);
  fair_take_front b := match b.1.1 with [] => None | e :: es => Some (e, (es, b.1.2, S b.2)) end;
  fair_drop b := (b.1.1, b.1.2, Nat.pred b.2) |}.

#[local] Instance retained_whole : Retention () := fun p => Ok p.

Definition small_sys : Type :=
  Sys (X := ()) (T := nat) (R := ()) (L := Small) (S := list Z) (Q := list Notice) (SA := ()) (PR := ()) (KD := ())
    (B := list (Entry (list Z)) * Z * nat).

(** A connection just made ready. *)
Definition small_start : small_sys :=
  {| turn := {| PgTurn.phase := TurnPhase.Ready; PgTurn.progress := Progress.Running; PgTurn.batch := 0;
                port := {| slot := {| PgSlot.phase := {| bound_cell := Some {| token := 7%nat; target := () |};
                                                          lifecycle := LReady (Access.Shared 0) true |};
                                      key := key_empty; slot_pid := None; sync := Sync.Synced; PgSlot.batch := 0; pending := 0 |};
                           lane := exist _ ([], []) eq_refl; owners := ∅; cause := None; woken := [] |};
                notes := queue_new [] 64; kdf := () |};
     waiting := None; frames := ([], 0, 0%nat);
     server := {| todo := []; mode := Mode.Live; sent := []; copying := Copying.No; told := [] |} |}.

Definition small_beyond (_ : nat) : option () := None.
Definition small_cancel (_ : ()) (k : ()) : () * option nat := (k, None).
Definition small_handshake (_ : Turn () nat () Small (list Z) (list Notice) () () ()) (_ : nat) (_ : Z) (_ : list Z)
    : option (Turn () nat () Small (list Z) (list Notice) () () () * result (Error.Error ()) ()) := None.

Definition small_admit (w : ()) : option () := Some w.

Definition after (s : small_sys) (o : option small_sys) : small_sys := default s o.

(** Two pipelined commands: the server gives the first a row and fails it, so that
    the second, which closes the batch, is skipped. *)
Definition small_1 : small_sys :=
  after small_start (published small_start (items_of Boundary.Open)
    (PgRequests.try_reply (sys_port small_start) (frames small_start) Boundary.Open 1 [1])).
Definition small_2 : small_sys :=
  after small_1 (published small_1 (items_of Boundary.Close)
    (PgRequests.try_reply (sys_port small_1) (frames small_1) Boundary.Close 1 [2])).

Definition small_deliver (s : small_sys) (typ : Z) (data : list Z) (sv : Server ()) : small_sys :=
  after s (deliver small_beyond small_cancel small_handshake 7%nat s typ data sv).

Definition small_failure : list Z := [83] ++ bytes_of "ERROR" ++ [0; 86] ++ bytes_of "ERROR" ++ [0; 67] ++ bytes_of "22012" ++ [0; 77] ++ bytes_of "no" ++ [0; 0].

Definition small_3 : small_sys := small_deliver small_2 Be.DATA_ROW [5] (with_row (server small_2) [5]).
Definition small_4 : small_sys :=
  small_deliver small_3 Be.ERROR_RESPONSE small_failure
    (ends (server small_3) Kind.Command [Item.Command Kind.Ready; Item.Sync None] (Outcome.Failed (ReplyFailure.Server small_failure)) Mode.Skip).
Definition small_5 : small_sys :=
  small_deliver small_4 Be.READY_FOR_QUERY [73]
    {| todo := []; mode := Mode.Live; sent := []; copying := Copying.No;
       told := told (server small_4) ++ [(Kind.Ready, [], Outcome.Failed (ReplyFailure.Failed Error.Skipped))] |}.
Definition small_6 : small_sys :=
  after small_5 (resume small_beyond small_cancel small_admit 7%nat small_5 (Pending.Ready Status.Idle) ()).

Example small_run : lane_done (lane (sys_port small_6)) =
  [{| d_tag := {| tag_batch := 0; kind := Kind.Command |}; d_detached := false; d_rows := [[5]];
      d_outcome := Outcome.Failed (ReplyFailure.Server small_failure) |};
   {| d_tag := {| tag_batch := 0; kind := Kind.Ready |}; d_detached := false; d_rows := [];
      d_outcome := Outcome.Failed (ReplyFailure.Failed Error.Skipped) |}] /\ waiting small_6 = None.
Proof. vm_compute. split; reflexivity. Qed.

Lemma small_reachable :
  reachable small_beyond small_cancel small_admit small_handshake 7%nat small_start small_6.
Proof.
  assert (forall s s' o, reachable small_beyond small_cancel small_admit small_handshake 7%nat small_start s ->
    step small_beyond small_cancel small_admit small_handshake 7%nat s o -> o = Some s' ->
    reachable small_beyond small_cancel small_admit small_handshake 7%nat small_start s') as Hmore
    by (intros s s' o Hr Hs ->; by apply (reachable_step _ _ _ _ _ _ s)).
  assert (forall s, lifecycle (PgSlot.phase (slot (sys_port s))) = LReady (Access.Shared 0) true -> connected (s : small_sys)) as Hc
    by (intros s Hs; by eexists _, _).
  eapply (Hmore small_5); [eapply (Hmore small_4); [eapply (Hmore small_3); [eapply (Hmore small_2); [eapply (Hmore small_1);
    [eapply (Hmore small_start); [apply reachable_here| |]| |]| |]| |]| |]| |].
  - by apply (step_request _ _ _ _ _ small_start Boundary.Open 1 [1]); [apply Hc; vm_compute|].
  - by vm_compute.
  - by apply (step_request _ _ _ _ _ small_1 Boundary.Close 1 [2]); [apply Hc; vm_compute|].
  - by vm_compute.
  - apply (step_deliver _ _ _ _ _ small_2 Be.DATA_ROW [5] (with_row (server small_2) [5])); [apply Hc; by vm_compute|by vm_compute| |done].
    eapply (says_row _ _ Kind.Command [Item.Command Kind.Ready; Item.Sync None]); by vm_compute.
  - by vm_compute.
  - apply (step_deliver _ _ _ _ _ small_3 Be.ERROR_RESPONSE small_failure
      (ends (server small_3) Kind.Command [Item.Command Kind.Ready; Item.Sync None]
         (Outcome.Failed (ReplyFailure.Server small_failure)) Mode.Skip)); [apply Hc; by vm_compute|by vm_compute| |done].
    destruct (plan_parse small_failure) as [[plan|]|] eqn:Hp; try (by vm_compute in Hp).
    apply (says_error _ _ Kind.Command [Item.Command Kind.Ready; Item.Sync None] _ plan); [left; by vm_compute|by vm_compute|done|].
    vm_compute in Hp. by injection Hp as <-.
  - by vm_compute.
  - apply (step_deliver _ _ _ _ _ small_4 Be.READY_FOR_QUERY [73]
      {| todo := []; mode := Mode.Live; sent := []; copying := Copying.No;
         told := told (server small_4) ++ [(Kind.Ready, [], Outcome.Failed (ReplyFailure.Failed Error.Skipped))] |}); [apply Hc; by vm_compute|by vm_compute| |].
    + apply says_ready. by vm_compute.
    + intros _. exists Status.Idle. by split; vm_compute.
  - by vm_compute.
  - apply (step_resume _ _ _ _ _ small_5 (Pending.Ready Status.Idle) ()); [apply Hc; by vm_compute|by vm_compute].
  - by vm_compute.
Qed.

Lemma replies_aligned_witness :
  exists handed rest, told (server small_6) = handed ++ rest /\ Forall2 same (lane_done (lane (sys_port small_6))) handed /\
    rest = [] /\ length handed = 2%nat.
Proof.
  destruct (replies_aligned (number := 2) small_beyond small_cancel small_admit small_handshake 7%nat
    (fun p r H => match (H : Ok p = Ok r) in _ = y return match y with Ok z => z = p | Err _ => True end with eq_refl => eq_refl end) small_start small_6) as (_ & (handed & rest & Ht & Hd & Hrest) & _).
  - unfold fresh. split_and!; try reflexivity; [|simpl; lia].
    exists {| token := 7%nat; target := () |}, true. split; reflexivity.
  - exact small_reachable.
  - destruct Hrest as [-> _]; [by eexists _, _; vm_compute|by vm_compute|].
    exists handed, []. rewrite app_nil_r in Ht. split_and!; [by rewrite app_nil_r|done|done|]. by rewrite <- Ht.
Defined.
