(* ===== verification/RespLimit.v ===== *)
(** * Limits and numbers of the RESP parser

    Models [redis/src/protocol/mod.rs] (the error vocabulary),
    [redis/src/protocol/parser/limit.rs] (frame and value bounds, line search),
    [redis/src/protocol/parser/number.rs] (decimal lengths and integers) and
    [redis/src/protocol/parser/capacity.rs] (the node budget of the parser pool). *)
From S2P Require Import Prelude.

(** ** The error vocabulary of [protocol/mod.rs] *)

Module Line.
Inductive Line := Status | Server | Integer | Bulk | Array.
End Line.

Module Number.
Inductive Number :=
| Empty (offset : Z)
| Missing (offset : Z)
| Byte (offset actual : Z)
| Overflow (offset : Z).
End Number.

Module Truncated.
Inductive Truncated :=
| Value (offset depth remaining : Z)
| Line (kind : Line.Line) (start actual : Z)
| Bulk (actual required : Z).
End Truncated.

Module Error.
Inductive Error :=
| Number (line : Line.Line) (cause : Number.Number)
| Length (line : Line.Line) (actual : Z)
| Marker (offset actual : Z)
| Depth (actual maximum declared : Z)
| Terminator (offset expected actual : Z)
| Values (remaining : Z)
| Unparsed (actual : Z)
| Truncated (t : Truncated.Truncated).
End Error.

(** ** [limit.rs] *)

(** [Bound<K>] wraps a capacity in [[1, u32::MAX]]; [K] is a compile-time brand. *)
Record Bound := { bound_value : Z }.

Record Exceeded := { low : Z; capacity : Z; overflow : bool }.

(** [End]: a nonzero number of admitted bytes. *)
Definition End := Z.

(** [Body]: [start | stop << 32] in one nonzero word. *)
Definition Body := Z.

Record LimitLine := { line_value : list Z; line_start : End }.

(** [Slot]: the nonzero number of values once the pending one is stored. *)
Definition Slot := Z.

Definition bound_consumed (b : Bound) : Z := nonzero_succ u64_max (bound_value b - 1).

Definition exceeded (b : Bound) (low : Z) (overflow : bool) : Exceeded :=
  {| low := low; capacity := bound_value b; overflow := overflow |}.

Definition required (e : Exceeded) : Z :=
  nonzero_succ (2 ^ 128 - 1)
    (Z.lor (low e) (Z.shiftl (if overflow e then 1 else 0) 64)).

(** [Bound::count]: admits [len] together with [added] bytes or values of framing. *)
Definition count (b : Bound) (len added : Z) : result Exceeded Z :=
  let capacity := bound_value b in
  if capacity <? len then
    let sum := len + (added - 1) in
    Err (exceeded b (as_u64 sum) (u64_max <? sum))
  else
    let low := len + (added - 1) in
    if capacity <=? low then Err (exceeded b low false) else Ok (as_u32 len).

Definition frame_check (b : Bound) (required : Z) : result Exceeded () :=
  if required <=? bound_value b then Ok () else Err (exceeded b (required - 1) false).

Definition frame_next (b : Bound) (used : Z) : result Exceeded End :=
  if bound_value b <=? used then Err (exceeded b used false)
  else Ok (nonzero_succ u32_max (as_u32 used)).

Definition end_consumed (e : End) : Z := nonzero_succ u64_max (e - 1).

Definition body_new (start : End) (stop : Z) : Body := Z.lor start (Z.shiftl stop 32).

Definition body_start (b : Body) : Z := as_u32 b.

Definition body_stop (b : Body) : Z := as_u32 (Z.shiftr b 32).

(** [Body::get]: the end of the terminated body as an index. *)
Definition body_get (b : Body) : Z := body_stop b + 2.

Definition body_end (b : Body) : End := nonzero_succ u32_max (body_stop b + 1).

Definition body_consumed (b : Body) : Z := end_consumed (body_end b).

Definition line_stop (l : LimitLine) : Z := line_start l + zlen (line_value l).

Definition frame_line (b : Bound) (l : LimitLine) : result Exceeded (End * Body) :=
  e ← frame_next b (line_stop l + 1);
  Ok (e, body_new (line_start l) (as_u32 (line_stop l))).

Definition frame_body (b : Bound) (start : End) (length : Z) : result Exceeded Body :=
  n ← count b length (start + 2);
  Ok (body_new start (start + n)).

Definition value_next (b : Bound) (used : Z) : result Exceeded Slot :=
  let required := used + 1 in
  if bound_value b <? required then Err (exceeded b (required - 1) false)
  else Ok (nonzero_succ u32_max used).

(** The zero count is [Count(None)]. *)
Definition value_array (b : Bound) (used declared : Z) : result Exceeded Z :=
  count b declared (used + 1).

(** The first position of a carriage return followed by a line feed. *)
Fixpoint position_crlf (l : list Z) : option Z :=
  match l with
  | [] => None
  | a :: l' =>
      match l' with
      | [] => None
      | b :: _ => if (a =? 13) && (b =? 10) then Some 0 else Z.succ <$> position_crlf l'
      end
  end.

Definition is_cr_lf (b : Z) : bool := (b =? 13) || (b =? 10).

(** [Line::find]: the line that starts at [start], searched from [scan]; the
    error is (offset, expected, actual) of a stray terminator. *)
Definition find (bytes : list Z) (start : End) (scan : Z) (kind : Line.Line)
    : result (Z * Z * Z) (option LimitLine) :=
  let begin := start in
  let scan := Z.max scan begin in
  match get_from bytes scan with
  | None => Ok None
  | Some tail =>
      let line offset :=
        (fun value => {| line_value := value; line_start := start |}) <$>
        get_range bytes begin (scan + offset) in
      match kind with
      | Line.Status | Line.Server =>
          match position is_cr_lf tail with
          | None => Ok None
          | Some offset =>
              if bool_decide (get tail offset = Some 10) then Err (scan + offset, 13, 10)
              else
                match get tail (offset + 1) with
                | None => Ok None
                | Some actual =>
                    if actual =? 10 then Ok (line offset)
                    else Err (scan + offset + 1, 10, actual)
                end
          end
      | Line.Integer | Line.Bulk | Line.Array =>
          match position_crlf tail with
          | None => Ok None
          | Some offset => Ok (line offset)
          end
      end
  end.

Definition MAX_DEPTH : nat := 64.

Definition DEPTH : Z := nonzero_succ u8_max (Z.of_nat MAX_DEPTH - 1).

Definition OVER_DEPTH : Z := Z.min (DEPTH + 1) u8_max.

(** ** [number.rs] *)

Module Length.
Inductive Length := Nil | Count (n : Z).
End Length.

(** [Number::offset]: frame offset of a byte of the number. *)
Definition number_offset (body : Body) (relative : Z) : Z :=
  as_u32 (body_start body + as_u32 relative).

Definition digit_of (byte : Z) : Z := as_u8 (byte - 48).

Fixpoint signed_loop (body : Body) (negative : bool) (value cursor : Z) (l : list Z)
    : result Number.Number Z :=
  match l with
  | [] => Ok value
  | byte :: l =>
      let digit := digit_of byte in
      if 9 <? digit then Err (Number.Byte (number_offset body cursor) byte)
      else
        let next :=
          v ← checked_i64 (value * 10);
          checked_i64 (if negative then v - digit else v + digit) in
        match next with
        | None => Err (Number.Overflow (number_offset body cursor))
        | Some next => signed_loop body negative next (cursor + 1) l
        end
  end.

Definition signed (bytes : list Z) (body : Body) : result Number.Number Z :=
  match bytes with
  | [] => Err (Number.Empty (number_offset body 0))
  | first :: tail =>
      let negative := first =? 45 in
      if negative || (first =? 43) then
        if 1 =? zlen bytes then Err (Number.Missing (number_offset body 1))
        else signed_loop body negative 0 1 tail
      else signed_loop body negative 0 0 bytes
  end.

Fixpoint unsigned_loop (body : Body) (value index : Z) (l : list Z)
    : result Number.Number Z :=
  match l with
  | [] => Ok value
  | byte :: l =>
      let digit := digit_of byte in
      if 9 <? digit then Err (Number.Byte (number_offset body index) byte)
      else
        match v ← checked_u64 (value * 10); checked_u64 (v + digit) with
        | None => Err (Number.Overflow (number_offset body index))
        | Some next => unsigned_loop body next (index + 1) l
        end
  end.

Definition unsigned (bytes : list Z) (body : Body) : result Number.Number Z :=
  match bytes with
  | [] => Err (Number.Empty (number_offset body 0))
  | _ => unsigned_loop body 0 0 bytes
  end.

Definition number_length (bytes : list Z) (body : Body) (line : Line.Line)
    : result Error.Error Length.Length :=
  if negb (bool_decide (head bytes = Some 45)) then
    match unsigned bytes body with
    | Ok value => Ok (Length.Count value)
    | Err cause => Err (Error.Number line cause)
    end
  else
    match signed bytes body with
    | Err cause => Err (Error.Number line cause)
    | Ok value =>
        if value =? -1 then Ok Length.Nil
        else if value <? -1 then Err (Error.Length line value)
        else Ok (Length.Count (as_u64 value))
    end.

(** ** [capacity.rs] *)

Record Capacity := { nodes : Z; connections : Z; lanes : Z }.

Module CapacityError.
Inductive CapacityError :=
| Lanes (connections values : Z)
| Total (lanes retained : Z)
| Above (actual maximum : Z).
End CapacityError.

Definition SHARED_LANES : Z := 4.

Definition capacity_try_with (conns active frame retained : Z)
    : result CapacityError.CapacityError Capacity :=
  lanes ← ok_or (checked_usize (active * frame)) (CapacityError.Lanes active frame);
  total ← ok_or (checked_usize (lanes + retained)) (CapacityError.Total lanes retained);
  if u32_max <? total then Err (CapacityError.Above total u32_max)
  else Ok {| nodes := as_u32 total; connections := conns; lanes := active |}.

Definition capacity_try_new (conns frame retained : Z)
    : result CapacityError.CapacityError Capacity :=
  capacity_try_with conns (Z.min conns SHARED_LANES) frame retained.

(** ** Lemmas on limits *)

Definition bound_wf (b : Bound) : Prop := 1 <= bound_value b <= u32_max.

Lemma nonzero_succ_small hi x : 1 + x <= hi -> nonzero_succ hi x = 1 + x.
Proof. unfold nonzero_succ. lia. Qed.

Lemma lor_shiftl_add a b n : 0 <= n -> 0 <= a < 2 ^ n -> Z.lor a (Z.shiftl b n) = a + b * 2 ^ n.
Proof.
  intros Hn Ha. rewrite Z.shiftl_mul_pow2 by done.
  assert (Z.land a (b * 2 ^ n) = 0) as E.
  { apply Z.bits_inj'. intros i Hi. rewrite Z.land_spec, Z.bits_0.
    destruct (Z.lt_ge_cases i n).
    - rewrite (Z.mul_pow2_bits_low b n i) by lia. apply andb_false_r.
    - rewrite <- (Z.mod_small a (2 ^ n)) by done.
      by rewrite Z.mod_pow2_bits_high by lia. }
  by rewrite (Z.add_nocarry_lxor _ _ E), (Z.lxor_lor _ _ E).
Qed.

Lemma required_exceeded b n :
  0 <= n < 2 ^ 65 ->
  required (exceeded b (as_u64 n) (u64_max <? n)) = n + 1.
Proof.
  intros Hn. unfold required, exceeded; simpl.
  rewrite lor_shiftl_add by (try lia; pose proof (as_u64_range n); lia).
  assert (as_u64 n + (if u64_max <? n then 1 else 0) * 2 ^ 64 = n) as ->.
  { unfold as_u64. destruct (Z.ltb_spec u64_max n).
    - rewrite <- (Z.mod_unique_pos n (2 ^ 64) 1 (n - 2 ^ 64)); lia.
    - rewrite Z.mod_small; lia. }
  rewrite nonzero_succ_small; lia.
Qed.

(** C23. A count that is refused is reported with its exact requirement, even
    when the requirement does not fit 64 bits; a count is admitted exactly when
    it fits the bound together with its framing overhead. *)
Theorem count_exact b len added :
  bound_wf b -> 0 <= len <= u64_max -> 1 <= added <= u32_max + 3 ->
  match count b len added with
  | Ok n => n = len /\ len + added <= bound_value b
  | Err e =>
      bound_value b < len + added /\ required e = len + added /\
      capacity e = bound_value b
  end.
Proof.
  intros [Hb1 Hb2] Hlen Hadd. unfold count.
  destruct (Z.ltb_spec (bound_value b) len).
  - rewrite required_exceeded by lia. simpl. lia.
  - destruct (Z.leb_spec (bound_value b) (len + (added - 1))).
    + assert (required (exceeded b (len + (added - 1)) false) = len + added) as ->; [|simpl; lia].
      pose proof (required_exceeded b (len + (added - 1))) as R.
      rewrite as_u64_small in R by lia.
      destruct (Z.ltb_spec u64_max (len + (added - 1))); [lia|]. rewrite R; lia.
    + rewrite as_u32_small by lia. lia.
Qed.

Lemma count_Ok b len added n :
  bound_wf b -> 0 <= len -> 1 <= added ->
  count b len added = Ok n -> n = len /\ len + added <= bound_value b.
Proof.
  unfold count, bound_wf. intros Hb Hl Ha H. repeat split_match_in H; simplify_eq.
  reflect_bool. rewrite as_u32_small by lia. lia.
Qed.

Lemma frame_next_Ok b used e :
  bound_wf b -> 0 <= used -> frame_next b used = Ok e -> e = used + 1 /\ e <= bound_value b.
Proof.
  unfold frame_next, bound_wf. intros Hb Hu H. split_match_in H; simplify_eq. reflect_bool.
  rewrite as_u32_small, nonzero_succ_small by lia. lia.
Qed.

Lemma value_next_Ok b used s :
  bound_wf b -> 0 <= used -> value_next b used = Ok s -> s = used + 1 /\ s <= bound_value b.
Proof.
  unfold value_next, bound_wf. intros Hb Hu H. split_match_in H; simplify_eq. reflect_bool.
  rewrite nonzero_succ_small by lia. lia.
Qed.

Section body.
Context (start stop : Z).
Hypothesis (Hstart : 0 <= start <= u32_max) (Hstop : 0 <= stop).

Lemma body_new_sum : body_new start stop = start + stop * 2 ^ 32.
Proof. unfold body_new. apply lor_shiftl_add; lia. Qed.

Lemma body_start_new : body_start (body_new start stop) = start.
Proof.
  rewrite body_new_sum. unfold body_start, as_u32.
  rewrite Z.mod_add by lia. apply Z.mod_small. lia.
Qed.

Lemma body_stop_new : stop <= u32_max -> body_stop (body_new start stop) = stop.
Proof.
  intros. rewrite body_new_sum. unfold body_stop.
  rewrite Z.shiftr_div_pow2, Z.div_add, Z.div_small, Z.add_0_l by lia.
  apply as_u32_small. lia.
Qed.
End body.

(** An admitted bulk body keeps its exact endpoints in one word, and its
    terminated end is within the frame bound, hence within 32 bits. *)
Theorem frame_body_extent b start length body :
  bound_wf b -> 1 <= start <= u32_max -> 0 <= length <= u64_max ->
  frame_body b start length = Ok body ->
  body_start body = start /\ body_stop body = start + length /\
  body_end body = start + length + 2 /\ body_get body = start + length + 2 /\
  start + length + 2 <= bound_value b.
Proof.
  intros Hb Hs Hl. unfold frame_body, mbind, result_bind.
  destruct (count b length (start + 2)) as [n|] eqn:E; [|done]. intros [= <-].
  apply count_Ok in E as [-> E]; [|done|lia|lia]. destruct Hb.
  unfold body_end, body_get.
  rewrite body_start_new, body_stop_new by lia.
  rewrite nonzero_succ_small by lia. lia.
Qed.

(** ** Decimal numbers *)

(** The value accumulated from [v] by the digits [l], downwards when negative. *)
Definition accumulate (negative : bool) (v : Z) (l : list Z) : Z :=
  fold_left (fun v b => if negative then v * 10 - (b - 48) else v * 10 + (b - 48)) l v.

Lemma digit_of_spec b : is_byte b -> (9 <? digit_of b) = negb (is_digit b).
Proof.
  unfold is_byte, digit_of, as_u8, is_digit. intros Hb.
  destruct (Z.leb_spec 48 b); simpl.
  - rewrite Z.mod_small by lia. destruct (Z.leb_spec b 57); simpl; lia.
  - rewrite <- (Z.mod_unique_pos (b - 48) (2 ^ 8) (-1) (b - 48 + 256)) by lia. simpl. lia.
Qed.

Lemma digit_of_digit b : is_digit b = true -> digit_of b = b - 48 /\ 0 <= b - 48 <= 9.
Proof.
  unfold is_digit, digit_of, as_u8. intros H. reflect_bool.
  rewrite Z.mod_small by lia. lia.
Qed.

Lemma accumulate_mono l v :
  digits l -> 0 <= v -> v <= accumulate false v l.
Proof.
  revert v. induction l as [|b l IH]; intros v Hd Hv; simpl; [lia|].
  apply Forall_cons in Hd as [Hb Hd]. apply digit_of_digit in Hb as [_ Hb].
  etrans; [|apply IH; [done|lia]]. lia.
Qed.

Lemma accumulate_opp l v : accumulate true (- v) l = - accumulate false v l.
Proof.
  revert v. induction l as [|b l IH]; intros v; simpl; [done|].
  rewrite <- IH. f_equal. lia.
Qed.

Lemma unsigned_loop_spec body l v i :
  Forall is_byte l -> 0 <= v <= u64_max ->
  forall n, unsigned_loop body v i l = Ok n <->
  digits l /\ n = accumulate false v l /\ n <= u64_max.
Proof.
  revert v i. induction l as [|b l IH]; intros v i Hl Hv n; simpl.
  { split; [intros [= <-]; split_and!; [constructor|done|lia]|naive_solver]. }
  apply Forall_cons in Hl as [Hb Hl]. rewrite digit_of_spec by done.
  destruct (is_digit b) eqn:E; simpl; [|split; [done|intros [Hd _]; inversion Hd; congruence]].
  assert (digits (b :: l) <-> digits l) as Hdig
    by (unfold digits; rewrite Forall_cons; naive_solver).
  apply digit_of_digit in E as [-> E]. rewrite Hdig.
  pose proof (accumulate_mono l (v * 10 + (b - 48))) as Hm.
  destruct (checked_u64 (v * 10)) as [w|] eqn:E1; simpl.
  - apply checked_Some in E1 as [-> E1].
    destruct (checked_u64 (v * 10 + (b - 48))) as [w|] eqn:E2.
    + apply checked_Some in E2 as [-> E2]. rewrite IH by (done || lia). done.
    + apply checked_None in E2. split; [done|]. intros (Hd & -> & Hn).
      specialize (Hm Hd). lia.
  - apply checked_None in E1. split; [done|]. intros (Hd & -> & Hn).
    specialize (Hm Hd). lia.
Qed.

Lemma signed_loop_spec body (negative : bool) l v i :
  Forall is_byte l -> 0 <= v ->
  (if negative then v <= 2 ^ 63 else v <= i64_max) ->
  forall n, signed_loop body negative (if negative then - v else v) i l = Ok n <->
  digits l /\ n = (if negative then - accumulate false v l else accumulate false v l) /\
  i64_min <= n <= i64_max.
Proof.
  revert v i. induction l as [|b l IH]; intros v i Hl Hv Hr n; simpl.
  { split.
    - intros [= <-]. split_and!; [constructor|done|destruct negative; lia..].
    - intros (_ & -> & _). by destruct negative. }
  apply Forall_cons in Hl as [Hb Hl]. rewrite digit_of_spec by done.
  destruct (is_digit b) eqn:E; simpl; [|split; [done|intros [Hd _]; inversion Hd; congruence]].
  assert (digits (b :: l) <-> digits l) as Hdig
    by (unfold digits; rewrite Forall_cons; naive_solver).
  apply digit_of_digit in E as [-> E]. rewrite Hdig.
  pose proof (accumulate_mono l (v * 10 + (b - 48))) as Hm.
  assert ((if negative then (if negative then - v else v) * 10 - (b - 48)
           else (if negative then - v else v) * 10 + (b - 48))
          = (if negative then - (v * 10 + (b - 48)) else v * 10 + (b - 48))) as Hs
    by (destruct negative; lia).
  set (w := if negative then - v else v) in *.
  destruct (checked_i64 (w * 10)) as [x|] eqn:E1; simpl.
  - apply checked_Some in E1 as [-> E1]. rewrite Hs.
    destruct (checked_i64 _) as [x|] eqn:E2.
    + apply checked_Some in E2 as [-> E2].
      rewrite IH by (done || (destruct negative; lia) || lia). done.
    + apply checked_None in E2. split; [done|]. intros (Hd & -> & Hn).
      specialize (Hm Hd). subst w. destruct negative; lia.
  - apply checked_None in E1. split; [done|]. intros (Hd & -> & Hn).
    specialize (Hm Hd). subst w. destruct negative; lia.
Qed.

(** The signed decimal syntax of RESP integers: an optional sign and digits. *)
Definition signed_value (l : list Z) (n : Z) : Prop :=
  exists negative ds, ds <> [] /\ digits ds /\
    n = (if negative : bool then - decimal ds else decimal ds) /\
    (l = 45 :: ds /\ negative = true \/
     (l = 43 :: ds \/ l = ds) /\ negative = false).

Lemma digits_head b l : digits (b :: l) -> 48 <= b <= 57.
Proof. intros [H _]%Forall_cons. unfold is_digit in H. lia. Qed.

Lemma signed_value_minus tail n :
  signed_value (45 :: tail) n <-> tail <> [] /\ digits tail /\ n = - decimal tail.
Proof.
  split.
  - intros (neg & ds & Hds & Hdig & -> & [[H ->]|[[H|H] _]]); simplify_eq; [done|].
    apply digits_head in Hdig. lia.
  - intros (? & ? & ->). exists true, tail. naive_solver.
Qed.

Lemma signed_value_plus tail n :
  signed_value (43 :: tail) n <-> tail <> [] /\ digits tail /\ n = decimal tail.
Proof.
  split.
  - intros (neg & ds & Hds & Hdig & -> & [[H _]|[[H|H] ->]]); simplify_eq; [done|].
    apply digits_head in Hdig. lia.
  - intros (? & ? & ->). exists false, tail. naive_solver.
Qed.

Lemma signed_value_bare l n :
  head l <> Some 45 -> head l <> Some 43 ->
  signed_value l n <-> l <> [] /\ digits l /\ n = decimal l.
Proof.
  intros H1 H2. split.
  - intros (neg & ds & Hds & Hdig & -> & [[H _]|[[H|H] ->]]); by simplify_eq/=.
  - intros (? & ? & ->). exists false, l. naive_solver.
Qed.

Lemma signed_spec l body n :
  Forall is_byte l ->
  signed l body = Ok n <-> signed_value l n /\ i64_min <= n <= i64_max.
Proof.
  intros Hl. destruct l as [|first tail].
  { rewrite signed_value_bare by done. naive_solver. }
  unfold signed.
  pose proof (signed_loop_spec body true tail 0 1) as Hneg.
  pose proof (signed_loop_spec body false tail 0 1) as Hpos.
  pose proof (signed_loop_spec body false (first :: tail) 0 0) as Hall.
  apply Forall_cons in Hl as Hl'. destruct Hl' as [Hf Ht].
  assert (1 = zlen (first :: tail) <-> tail = []) as Hlen.
  { destruct tail; simpl; split; (done || lia). }
  destruct (Z.eqb_spec first 45) as [->|N45]; simpl orb; cbv iota;
    [|destruct (Z.eqb_spec first 43) as [->|N43]; cbv iota].
  - rewrite signed_value_minus. destruct (Z.eqb_spec 1 (zlen (45 :: tail))) as [E|E];
      rewrite Hlen in E; [naive_solver|]. rewrite (Hneg Ht) by lia. unfold decimal. naive_solver.
  - rewrite signed_value_plus. destruct (Z.eqb_spec 1 (zlen (43 :: tail))) as [E|E];
      rewrite Hlen in E; [naive_solver|]. rewrite (Hpos Ht) by lia. unfold decimal. naive_solver.
  - rewrite signed_value_bare by naive_solver. rewrite (Hall Hl) by lia.
    unfold decimal. naive_solver.
Qed.

Lemma unsigned_spec l body n :
  Forall is_byte l ->
  unsigned l body = Ok n <-> l <> [] /\ digits l /\ n = decimal l /\ n <= u64_max.
Proof.
  intros Hl. destruct l as [|b l]; [split; [done|by intros [? _]]|].
  unfold unsigned. rewrite unsigned_loop_spec by (done || lia). unfold decimal. naive_solver.
Qed.

(** The length syntax of bulks and arrays: an unsigned decimal, minus one for
    the nil value, or a negative zero. *)
Definition length_value (l : list Z) (len : Length.Length) : Prop :=
  match len with
  | Length.Nil => exists ds, l = 45 :: ds /\ digits ds /\ decimal ds = 1
  | Length.Count n =>
      (l <> [] /\ digits l /\ n = decimal l /\ n <= u64_max) \/
      (exists ds, l = 45 :: ds /\ ds <> [] /\ digits ds /\ decimal ds = 0 /\ n = 0)
  end.

Lemma number_length_spec l body line len :
  Forall is_byte l -> number_length l body line = Ok len <-> length_value l len.
Proof.
  intros Hl. unfold number_length. case_bool_decide as Hh; simpl.
  - destruct l as [|b tail]; [done|]. injection Hh as ->.
    destruct (signed (45 :: tail) body) as [v|e] eqn:E.
    + apply signed_spec in E as [(Ht & Hd & ->)%signed_value_minus Hr]; [|done].
      pose proof (decimal_nonneg _ Hd).
      destruct (Z.eqb_spec (- decimal tail) (-1)), (Z.ltb_spec (- decimal tail) (-1)); try lia.
      * split; [intros [= <-]; exists tail; split_and!; (done || lia)|]. destruct len; simpl; [done|].
        intros [(_ & Hd' & _)|(ds & [= <-] & _ & _ & ? & _)]; [|lia].
        apply digits_head in Hd'. lia.
      * split; [done|]. destruct len; simpl; [naive_solver lia|].
        intros [(_ & Hd' & _)|(ds & [= <-] & _ & _ & ? & _)]; [|lia].
        apply digits_head in Hd'. lia.
      * assert (decimal tail = 0) as E0 by lia. rewrite E0.
        split; [intros [= <-]; right; by exists tail|]. destruct len; simpl; [naive_solver lia|].
        intros [(_ & Hd' & _)|(ds & [= <-] & _ & _ & _ & ->)]; [|done].
        apply digits_head in Hd'. lia.
    + split; [done|]. intros Hv. exfalso. destruct len; simpl in Hv.
      * destruct Hv as (ds & [= ->] & Hd & E1).
        destruct (signed_spec (45 :: ds) body (-1) Hl) as [_ Hs].
        rewrite Hs in E; [done|]. split; [|lia]. apply signed_value_minus. rewrite E1.
        split_and!; [by intros ->|done|done].
      * destruct Hv as [(_ & Hd' & _)|(ds & [= ->] & Hne & Hd & E0 & _)];
          [apply digits_head in Hd'; lia|].
        destruct (signed_spec (45 :: ds) body 0 Hl) as [_ Hs].
        rewrite Hs in E; [done|]. split; [|lia]. apply signed_value_minus. by rewrite E0.
  - pose proof (fun n => unsigned_spec l body n Hl) as Hu.
    destruct (unsigned l body) as [v|e].
    + destruct (Hu v) as [Hu1 _]. destruct (Hu1 eq_refl) as (H1 & H2 & -> & H3).
      split; [intros [= <-]; by left|]. destruct len; simpl; [naive_solver|]. naive_solver.
    + split; [done|]. destruct len; simpl; [naive_solver|].
      intros [(H1 & H2 & H3 & H4)|(ds & -> & _)]; [|done].
      destruct (Hu n) as [_ Hu2]. by discriminate Hu2.
Qed.

(** C22. A RESP integer line decodes to exactly the value of its signed decimal,
    and only when that value fits [i64]; a length line decodes to exactly the
    count or the nil of its syntax; every other line is an error. *)
Theorem numbers_exact l body line :
  Forall is_byte l ->
  (forall n, signed l body = Ok n <-> signed_value l n /\ i64_min <= n <= i64_max) /\
  (forall len, number_length l body line = Ok len <-> length_value l len).
Proof. intros H. split; intros; [by apply signed_spec|by apply number_length_spec]. Qed.

(** ** Witnesses *)

Lemma count_exact_witness :
  exists e, count {| bound_value := 512 |} u64_max 9 = Err e /\
    required e = u64_max + 9 /\ capacity e = 512.
Proof.
  eexists. split; [reflexivity|].
  pose proof (count_exact {| bound_value := 512 |} u64_max 9) as H.
  destruct H as (_ & H1 & H2); [split; simpl; lia|lia|lia|]. split; [exact H1|exact H2].
Defined.

Lemma frame_body_extent_witness :
  let b := {| bound_value := 512 |} in
  exists body, frame_body b 4 100 = Ok body /\ body_start body = 4 /\ body_end body = 106.
Proof.
  eexists. split; [reflexivity|].
  destruct (frame_body_extent {| bound_value := 512 |} 4 100 (body_new 4 104))
    as (H1 & _ & H2 & _); [split; simpl; lia|lia|lia|reflexivity|].
  split; [exact H1|exact H2].
Defined.

Lemma numbers_exact_witness :
  signed (bytes_of "-9223372036854775808") 1 = Ok i64_min /\
  signed_value (bytes_of "-9223372036854775808") i64_min /\
  length_value (bytes_of "17") (Length.Count 17).
Proof.
  destruct (numbers_exact (bytes_of "-9223372036854775808") 1 Line.Integer) as [H1 _].
  { repeat constructor; vm_compute; intros; discriminate. }
  destruct (numbers_exact (bytes_of "17") 1 Line.Bulk) as [_ H2].
  { repeat constructor; vm_compute; intros; discriminate. }
  split; [reflexivity|]. split; [apply (H1 i64_min); reflexivity|apply H2; reflexivity].
Defined.
