(* ===== verification/RespPool.v ===== *)
(** * The node pool of the RESP parser

    Models the value vocabulary and the node pool of
    [redis/src/protocol/parser/mod.rs]: parsed values packed into 16-byte nodes,
    linked by one-based keys into circular chains that share one allocation, with
    one circular chain of free nodes. The pool is reached through unchecked
    indexing, so an access outside the allocation is [None] here, and the
    theorems show that the chain operations never reach it. *)
From S2P Require Import Prelude RespLimit.

(** A byte range packed into one nonzero word. *)
Definition Span := Z.

Module Kind.
Inductive Kind :=
| Nil
| Ok
| Status (s : Span)
| Error (s : Span)
| Integer (n : Z)
| Bulk (s : Span)
| Array (len : Z).
End Kind.

Module Value.
Inductive Value (S : Type) :=
| Nil
| Ok
| Status (s : S)
| Integer (n : Z)
| Bulk (s : S)
| Array (len : Z).
Arguments Nil {S}.
Arguments Ok {S}.
Arguments Status {S} s.
Arguments Integer {S} n.
Arguments Bulk {S} s.
Arguments Array {S} len.
End Value.

Definition value_map {S T} (map : S -> T) (v : Value.Value S) : Value.Value T :=
  match v with
  | Value.Nil => Value.Nil
  | Value.Ok => Value.Ok
  | Value.Status span => Value.Status (map span)
  | Value.Integer value => Value.Integer value
  | Value.Bulk span => Value.Bulk (map span)
  | Value.Array len => Value.Array len
  end.

Definition span_terminated (body : Body) : Span := body.

Definition span_from_stored (stored : Z) : Span := nonzero_succ u64_max stored.

Definition span_stored (s : Span) : Z := s - 1.

Definition span_range (s : Span) : Z * Z := (as_u32 s, as_u32 (Z.shiftr s 32)).

(** [Key<S>]: one plus the offset of a node; the vacancy state is a phantom. *)
Definition Key := Z.

Definition key_new (offset : Z) : Key := nonzero_succ u32_max offset.

Definition key_offset (k : Key) : Z := k - 1.

Module Tag.
Inductive Tag := Nil | Ok | Status | Error | Integer | Bulk | Array.
End Tag.

Record Node := { next : Key; tag : Tag.Tag; payload : Z }.

Definition node_raw (next : Key) (tag : Tag.Tag) (data : Z) : Node :=
  {| next := next; tag := tag; payload := data |}.

Definition node_vacant (next : Key) : Node := node_raw next Tag.Nil 0.

Definition node_new (next : Key) (value : Kind.Kind) : Node :=
  match value with
  | Kind.Nil => node_raw next Tag.Nil 0
  | Kind.Ok => node_raw next Tag.Ok 0
  | Kind.Status span => node_raw next Tag.Status (span_stored span)
  | Kind.Error span => node_raw next Tag.Error (span_stored span)
  | Kind.Integer value => node_raw next Tag.Integer (as_u64 value)
  | Kind.Bulk span => node_raw next Tag.Bulk (span_stored span)
  | Kind.Array len => node_raw next Tag.Array len
  end.

(** [with_next] and [with_free] relink a node and keep its value. *)
Definition with_next (n : Node) (next : Key) : Node :=
  {| next := next; tag := tag n; payload := payload n |}.

Definition with_float (n : Node) (bits : Z) : Node :=
  {| next := next n; tag := tag n; payload := bits |}.

Definition node_kind (n : Node) : Kind.Kind :=
  match tag n with
  | Tag.Nil => Kind.Nil
  | Tag.Ok => Kind.Ok
  | Tag.Status => Kind.Status (span_from_stored (payload n))
  | Tag.Error => Kind.Error (span_from_stored (payload n))
  | Tag.Integer => Kind.Integer (as_i64 (payload n))
  | Tag.Bulk => Kind.Bulk (span_from_stored (payload n))
  | Tag.Array => Kind.Array (as_u32 (payload n))
  end.

Definition try_value (n : Node) : result Span (Value.Value Span) :=
  match tag n with
  | Tag.Error => Err (span_from_stored (payload n))
  | Tag.Nil => Ok Value.Nil
  | Tag.Ok => Ok Value.Ok
  | Tag.Status => Ok (Value.Status (span_from_stored (payload n)))
  | Tag.Integer => Ok (Value.Integer (as_i64 (payload n)))
  | Tag.Bulk => Ok (Value.Bulk (span_from_stored (payload n)))
  | Tag.Array => Ok (Value.Array (as_u32 (payload n)))
  end.

Definition maybe_span (n : Node) : option Span :=
  match tag n with
  | Tag.Nil => None
  | Tag.Bulk => Some (span_from_stored (payload n))
  | _ => None
  end.

(** ** The pool *)

Record Pool := { pool_nodes : list Node; pool_free : option Key }.

(** The successful branch of [Pool::try_new]. *)
Definition pool_new (capacity : Z) : Pool :=
  {| pool_nodes :=
       (fun index =>
          let next := if index + 1 =? capacity then 0 else index + 1 in
          node_vacant (key_new (as_u32 next))) <$> seqZ 0 capacity;
     pool_free :=
       if capacity =? 0 then None else Some (key_new (as_u32 (capacity - 1))) |}.

(** [Pool::node]: the unchecked access; [None] is undefined behaviour. *)
Definition pool_node (p : Pool) (k : Key) : option Node := get (pool_nodes p) (key_offset k).

Definition node_set (p : Pool) (k : Key) (n : Node) : option Pool :=
  match pool_node p k with
  | None => None
  | Some _ =>
      Some {| pool_nodes := <[Z.to_nat (key_offset k) := n]> (pool_nodes p);
              pool_free := pool_free p |}
  end.

Definition set_free (p : Pool) (free : option Key) : Pool :=
  {| pool_nodes := pool_nodes p; pool_free := free |}.

(** [Pool::reserve]: the tail of the free chain. *)
Definition reserve (p : Pool) : option Key := pool_free p.

Definition release (p : Pool) (tail : option Key) : option Pool :=
  match tail with
  | None => Some p
  | Some tail =>
      match pool_free p with
      | None => Some (set_free p (Some tail))
      | Some free =>
          t ← pool_node p tail;
          f ← pool_node p free;
          let head := next t in
          let first := next f in
          p ← node_set p tail (with_next t first);
          f ← pool_node p free;
          p ← node_set p free (with_next f head);
          Some (set_free p (Some tail))
      end
  end.

Definition pool_head (p : Pool) (tail : Key) : option Key := next <$> pool_node p tail.

Definition read (p : Pool) (k : Key) : option Node := pool_node p k.

Definition write (p : Pool) (k : Key) (n : Node) : option Pool := node_set p k n.

(** [Free::append]: moves the first free node to the end of the tape [tail]. *)
Definition append (p : Pool) (free : Key) (tail : option Key) (value : Kind.Kind)
    : option (Pool * Key) :=
  f ← pool_node p free;
  let key := next f in
  p ← (if key =? free then Some (set_free p None)
       else
         k ← pool_node p key;
         f ← pool_node p free;
         node_set p free (with_next f (next k)));
  match tail with
  | Some tail =>
      t ← pool_node p tail;
      p ← node_set p key (node_new (next t) value);
      t ← pool_node p tail;
      p ← node_set p tail (with_next t key);
      Some (p, key)
  | None =>
      p ← node_set p key (node_new key value);
      Some (p, key)
  end.

(** ** Nodes keep their values *)

Definition kind_wf (v : Kind.Kind) : Prop :=
  match v with
  | Kind.Status s | Kind.Error s | Kind.Bulk s => 1 <= s <= u64_max
  | Kind.Integer n => i64_min <= n <= i64_max
  | Kind.Array len => 0 <= len <= u32_max
  | Kind.Nil | Kind.Ok => True
  end.

Lemma span_from_stored_stored s : 1 <= s <= u64_max -> span_from_stored (span_stored s) = s.
Proof. unfold span_from_stored, span_stored. intros. rewrite nonzero_succ_small; lia. Qed.

Lemma node_kind_new k v : kind_wf v -> node_kind (node_new k v) = v.
Proof.
  destruct v; simpl; intros; unfold node_kind; simpl; try done; f_equal;
    auto using span_from_stored_stored, as_i64_u64, as_u32_small.
Qed.

Lemma next_node_new k v : next (node_new k v) = k.
Proof. by destruct v. Qed.

Lemma node_kind_with_next n k : node_kind (with_next n k) = node_kind n.
Proof. done. Qed.

(** ** Chains *)

(** The nodes [ks] are linked in order and the last one points to [stop]. *)
Fixpoint linked (p : Pool) (ks : list Key) (stop : Key) : Prop :=
  match ks with
  | [] => True
  | k :: ks =>
      (exists n, pool_node p k = Some n /\ next n = default stop (head ks)) /\
      linked p ks stop
  end.

(** A circular chain, from its head to its tail. *)
Definition ring (p : Pool) (ks : list Key) : Prop := linked p ks (default 0 (head ks)).

(** The values a chain stores, in order. *)
Definition contents (p : Pool) (ks : list Key) : list (option Kind.Kind) :=
  (fun k => node_kind <$> pool_node p k) <$> ks.

(** Every node lies in exactly one chain: the free one or one of the tapes. *)
Record pool_inv (p : Pool) (free : list Key) (tapes : list (list Key)) : Prop := {
  inv_cover : Permutation (free ++ concat tapes) (seqZ 1 (zlen (pool_nodes p)));
  inv_small : zlen (pool_nodes p) <= u32_max;
  inv_free : pool_free p = last free;
  inv_free_ring : ring p free;
  inv_rings : Forall (ring p) tapes }.

Lemma node_set_Some p k n p' :
  node_set p k n = Some p' ->
  length (pool_nodes p') = length (pool_nodes p) /\ pool_free p' = pool_free p /\
  pool_node p' k = Some n /\ forall j, 1 <= j -> j <> k -> pool_node p' j = pool_node p j.
Proof.
  unfold node_set, pool_node. intros H.
  destruct (get (pool_nodes p) (key_offset k)) eqn:E; simplify_eq/=.
  apply get_Some_bounds in E. unfold get, key_offset in *. split_and!.
  - apply length_insert.
  - done.
  - destruct (Z.leb_spec 0 (k - 1)); [|lia]. apply list_lookup_insert_eq. lia.
  - intros j Hj Hne. destruct (Z.leb_spec 0 (j - 1)); [|done].
    apply list_lookup_insert_ne. lia.
Qed.

Lemma node_set_is_Some p k n m : pool_node p k = Some m -> is_Some (node_set p k n).
Proof. unfold node_set. intros ->. eauto. Qed.

Lemma set_free_node p f k : pool_node (set_free p f) k = pool_node p k.
Proof. done. Qed.

(** Two pools agree on the nodes of a chain. *)
Definition agree (p q : Pool) (ks : list Key) : Prop :=
  forall k, k ∈ ks -> pool_node q k = pool_node p k.

Lemma linked_agree p q ks stop : agree p q ks -> linked p ks stop -> linked q ks stop.
Proof.
  unfold agree. induction ks as [|k ks IH]; simpl; intros Ha; [done|].
  intros [(n & Hn & Hk) Hl]. split; [|apply IH; [set_solver|done]].
  exists n. rewrite Ha by set_solver. done.
Qed.

Lemma contents_agree p q ks : agree p q ks -> contents q ks = contents p ks.
Proof.
  unfold agree, contents. intros Ha. apply list_fmap_ext. intros i k Hk.
  rewrite Ha; [done|]. by apply list_elem_of_lookup_2 in Hk.
Qed.

Lemma linked_app p ks1 ks2 stop :
  linked p (ks1 ++ ks2) stop <->
  linked p ks1 (default stop (head ks2)) /\ linked p ks2 stop.
Proof.
  induction ks1 as [|k ks1 IH]; simpl; [naive_solver|]. rewrite IH.
  assert (head (ks1 ++ ks2) = match head ks1 with Some x => Some x | None => head ks2 end) as ->
    by (by destruct ks1).
  destruct (head ks1) eqn:E; simpl.
  - naive_solver.
  - destruct (head ks2); naive_solver.
Qed.

Lemma linked_snoc p ks k stop :
  linked p (ks ++ [k]) stop <->
  linked p ks k /\ exists n, pool_node p k = Some n /\ next n = stop.
Proof. rewrite linked_app. simpl. naive_solver. Qed.

Lemma linked_lookup p ks stop k : linked p ks stop -> k ∈ ks -> is_Some (pool_node p k).
Proof.
  induction ks as [|j ks IH]; simpl; [set_solver|].
  intros [(n & Hn & _) Hl] [->|?]%elem_of_cons; eauto.
Qed.

Lemma contents_app p ks1 ks2 : contents p (ks1 ++ ks2) = contents p ks1 ++ contents p ks2.
Proof. apply fmap_app. Qed.

Lemma relink p q ks k stop :
  agree p q ks -> linked p ks k -> (exists n, pool_node q k = Some n /\ next n = stop) ->
  linked q (ks ++ [k]) stop.
Proof. intros Ha Hl Hn. apply linked_snoc. split; [by eapply linked_agree|done]. Qed.

Lemma ring_snoc p ks k :
  ring p (ks ++ [k]) <->
  linked p ks k /\ exists n, pool_node p k = Some n /\ next n = default k (head ks).
Proof. unfold ring. rewrite linked_snoc. by destruct ks. Qed.

Lemma NoDup_snoc {A} (l : list A) x : NoDup (l ++ [x]) <-> NoDup l /\ x ∉ l.
Proof.
  rewrite NoDup_app. split.
  - intros (? & H & _). split; [done|]. intros Hx. apply (H x Hx). set_solver.
  - intros [? H]. split_and!; [done|set_solver|apply NoDup_singleton].
Qed.

(** The first half of [append]: the head of the free ring is detached. *)
Lemma take_free_spec p key rest ft :
  last (key :: rest) = Some ft -> ring p (key :: rest) -> NoDup (key :: rest) ->
  Forall (Z.le 1) (key :: rest) -> pool_free p = Some ft ->
  exists f p1, pool_node p ft = Some f /\ next f = key /\
    (if key =? ft then Some (set_free p None)
     else k ← pool_node p key; f ← pool_node p ft; node_set p ft (with_next f (next k)))
    = Some p1 /\
    length (pool_nodes p1) = length (pool_nodes p) /\ pool_free p1 = last rest /\
    ring p1 rest /\ is_Some (pool_node p1 key) /\
    forall j, 1 <= j -> j ∉ key :: rest -> pool_node p1 j = pool_node p j.
Proof.
  intros Hlast Hring Hnd Hpos Hfree. destruct rest as [|x rest _] using rev_ind.
  - injection Hlast as ->. destruct Hring as [(n & Hn & Hnext) _]. simpl in Hnext.
    exists n. rewrite Z.eqb_refl. eexists. split_and!; done.
  - rewrite app_comm_cons, last_snoc in Hlast. injection Hlast as ->.
    rewrite app_comm_cons in Hring, Hnd, Hpos.
    apply ring_snoc in Hring as [Hl (f & Hf & Hnext)]. simpl in Hnext.
    apply NoDup_snoc in Hnd as [Hnd Hft]. apply Forall_app in Hpos as [Hpos _].
    rewrite Forall_forall in Hpos.
    destruct Hl as [(k & Hk & Hkn) Hl]. simpl in Hkn.
    destruct (node_set_is_Some p ft (with_next f (next k)) f Hf) as [p1 Hp1].
    pose proof (node_set_Some _ _ _ _ Hp1) as (Hlen & Hpf & Hset & Hframe).
    exists f, p1. destruct (Z.eqb_spec key ft) as [->|Hne]; [set_solver|].
    rewrite Hk, Hf. simpl. split_and!; try done.
    + by rewrite Hpf, last_snoc.
    + apply ring_snoc. split.
      * eapply linked_agree; [|exact Hl]. intros j Hj. apply Hframe; [apply Hpos; set_solver|].
        intros ->. set_solver.
      * eexists. split; [exact Hset|]. simpl. rewrite Hkn. by destruct rest.
    + rewrite Hframe by (try done; apply Hpos; set_solver). eauto.
    + intros j Hj Hnin. apply Hframe; [done|]. intros ->. set_solver.
Qed.

(** The second half: the detached node becomes the tail of the tape. *)
Lemma link_tail_spec p key tape value :
  ring p tape -> is_Some (pool_node p key) -> NoDup (tape ++ [key]) ->
  Forall (Z.le 1) (tape ++ [key]) ->
  exists p', (match last tape with
    | Some tail =>
        t ← pool_node p tail;
        p ← node_set p key (node_new (next t) value);
        t ← pool_node p tail;
        p ← node_set p tail (with_next t key);
        Some (p, key)
    | None => p ← node_set p key (node_new key value); Some (p, key)
    end) = Some (p', key) /\
    length (pool_nodes p') = length (pool_nodes p) /\ pool_free p' = pool_free p /\
    ring p' (tape ++ [key]) /\
    (forall j, 1 <= j -> j ∉ tape ++ [key] -> pool_node p' j = pool_node p j) /\
    (kind_wf value -> contents p' (tape ++ [key]) = contents p tape ++ [Some value]).
Proof.
  intros Hring [m Hm] Hnd Hpos. apply NoDup_snoc in Hnd as [Hnd Hkey].
  apply Forall_app in Hpos as [Hpos Hkpos]. rewrite Forall_singleton in Hkpos.
  destruct tape as [|tl tape _] using rev_ind; simpl.
  - destruct (node_set_is_Some p key (node_new key value) m Hm) as [p' Hp'].
    pose proof (node_set_Some _ _ _ _ Hp') as (Hlen & Hpf & Hset & Hframe).
    exists p'. rewrite Hp'. simpl. split_and!; try done.
    + unfold ring. simpl. rewrite Hset. split; [|done]. eexists. by rewrite next_node_new.
    + intros j Hj Hnin. apply Hframe; set_solver.
    + intros Hwf. unfold contents. simpl. rewrite Hset. simpl. by rewrite node_kind_new.
  - rewrite last_snoc. apply ring_snoc in Hring as [Hl (t & Ht & Hnext)].
    apply NoDup_snoc in Hnd as [Hnd Htl]. apply Forall_app in Hpos as [Hpos Htpos].
    rewrite Forall_singleton in Htpos. rewrite Forall_forall in Hpos. rewrite Ht. simpl.
    destruct (node_set_is_Some p key (node_new (next t) value) m Hm) as [p1 Hp1].
    pose proof (node_set_Some _ _ _ _ Hp1) as (Hlen1 & Hpf1 & Hset1 & Hframe1).
    rewrite Hp1. simpl. rewrite Hframe1, Ht by (try lia; set_solver). simpl.
    assert (pool_node p1 tl = Some t) as Ht1 by (rewrite Hframe1; [done|lia|set_solver]).
    destruct (node_set_is_Some p1 tl (with_next t key) t Ht1) as [p2 Hp2].
    pose proof (node_set_Some _ _ _ _ Hp2) as (Hlen2 & Hpf2 & Hset2 & Hframe2).
    rewrite Hp2. simpl. exists p2.
    assert (forall j, 1 <= j -> j ∉ (tape ++ [tl]) ++ [key] -> pool_node p2 j = pool_node p j) as Hframe.
    { intros j Hj Hnin. rewrite Hframe2, Hframe1 by (try lia; set_solver). done. }
    assert (agree p p2 tape) as Hag.
    { intros j Hj. rewrite Hframe2, Hframe1 by (auto; set_solver). done. }
    assert (pool_node p2 key = Some (node_new (next t) value)) as Hk2
      by (rewrite Hframe2; [done|lia|set_solver]).
    split_and!; try done; try congruence.
    + apply ring_snoc. split.
      * apply (relink p); eauto.
      * exists (node_new (next t) value). split; [done|].
        rewrite next_node_new, Hnext. by destruct tape.
    + intros Hwf. rewrite !contents_app, (contents_agree p p2 tape) by done. f_equal; [f_equal|].
      * unfold contents. simpl. rewrite Hset2, Ht. done.
      * unfold contents. simpl. rewrite Hk2. simpl. by rewrite node_kind_new.
Qed.

(** ** The pool invariant *)

Lemma inv_NoDup p free tapes : pool_inv p free tapes -> NoDup (free ++ concat tapes).
Proof. intros [Hc _ _ _ _]. rewrite Hc. apply NoDup_seqZ. Qed.

Lemma inv_pos p free tapes : pool_inv p free tapes -> Forall (Z.le 1) (free ++ concat tapes).
Proof.
  intros [Hc _ _ _ _]. rewrite Hc. apply Forall_forall. intros k Hk.
  apply elem_of_seqZ in Hk. lia.
Qed.

Lemma concat_other (tapes : list (list Key)) t k : t ∈ tapes -> k ∈ t -> k ∈ concat tapes.
Proof.
  intros Ht Hk. apply list_elem_of_In, in_concat. exists t.
  by rewrite <- !list_elem_of_In.
Qed.

Lemma tapes_frame p q ks tapes :
  NoDup (ks ++ concat tapes) -> Forall (Z.le 1) (ks ++ concat tapes) ->
  (forall j, 1 <= j -> j ∉ ks -> pool_node q j = pool_node p j) ->
  Forall (agree p q) tapes.
Proof.
  intros (_ & Hd & _)%NoDup_app Hpos Hframe. rewrite Forall_forall in Hpos.
  apply Forall_forall. intros t Ht k Hk. assert (k ∈ concat tapes) by eauto using concat_other.
  apply Hframe; [apply Hpos; set_solver|]. intros ?. by apply (Hd k).
Qed.

Lemma rings_agree p q tapes : Forall (agree p q) tapes -> Forall (ring p) tapes -> Forall (ring q) tapes.
Proof.
  rewrite !Forall_forall. intros Ha Hr t Ht. unfold ring.
  eapply linked_agree; [by apply Ha|by apply Hr].
Qed.

Lemma contents_frame p q tapes :
  Forall (agree p q) tapes -> Forall (fun t => contents q t = contents p t) tapes.
Proof. intros H. eapply Forall_impl; [exact H|]. intros t. apply contents_agree. Qed.

Lemma key_moves (key : Key) free tape rest :
  Permutation ((key :: free) ++ tape ++ rest) (free ++ (tape ++ [key]) ++ rest).
Proof.
  rewrite <- (app_assoc tape). simpl.
  by rewrite (app_assoc free tape (key :: rest)), <- Permutation_middle, app_assoc.
Qed.

(** Appending a value takes exactly one node from the free chain, stays
    inside the allocation, extends this tape with that value and leaves every
    other tape as it was. *)
Lemma append_extends p free key tape tapes value :
  pool_inv p (key :: free) (tape :: tapes) -> kind_wf value ->
  exists ft p', reserve p = Some ft /\ append p ft (last tape) value = Some (p', key) /\
    pool_inv p' free ((tape ++ [key]) :: tapes) /\
    contents p' (tape ++ [key]) = contents p tape ++ [Some value] /\
    Forall (fun t => contents p' t = contents p t) tapes.
Proof.
  intros Hinv Hwf. pose proof (inv_NoDup _ _ _ Hinv) as Hnd.
  pose proof (inv_pos _ _ _ Hinv) as Hpos. destruct Hinv as [Hc Hs Hf Hfr Hr].
  simpl concat in *. apply Forall_cons in Hr as [Htr Hr].
  pose proof (key_moves key free tape (concat tapes)) as Hperm.
  destruct (last (key :: free)) as [ft|] eqn:Hft; [|by apply last_None in Hft].
  apply NoDup_app in Hnd as Hnd'. destruct Hnd' as (Hndf & Hdis & Hndt).
  apply Forall_app in Hpos as Hpos'. destruct Hpos' as [Hposf Hpost].
  destruct (take_free_spec p key free ft) as (f & p1 & Hpf & Hnext & H1 & Hlen1 & Hfree1 & Hring1 & Hk1 & Hframe1);
    [done..|].
  assert (forall j, j ∈ tape -> 1 <= j /\ j ∉ key :: free) as Htape.
  { intros j Hj. rewrite Forall_forall in Hpost. split; [apply Hpost; set_solver|].
    intros Hin. apply (Hdis j Hin). set_solver. }
  assert (agree p p1 tape) as Hag by (intros j Hj; by apply Hframe1; apply Htape).
  assert (ring p1 tape) as Htr1 by (eapply linked_agree; done).
  rewrite Hperm in Hnd, Hpos.
  apply NoDup_app in Hnd as (Hndf' & Hdis' & Hndt'). apply NoDup_app in Hndt' as (Hndt' & Hdis'' & _).
  apply Forall_app in Hpos as [Hposf' Hpos]. apply Forall_app in Hpos as [Hpost' _].
  destruct (link_tail_spec p1 key tape value) as (p2 & H2 & Hlen2 & Hfree2 & Hring2 & Hframe2 & Hcont);
    [done..|].
  assert (agree p1 p2 free) as Hag2.
  { intros j Hj. apply Hframe2; [rewrite Forall_forall in Hposf'; by apply Hposf'|].
    intros Hin. apply (Hdis' j Hj). set_solver. }
  assert (Forall (agree p p2) tapes) as Hagt.
  { apply (tapes_frame p p2 ((key :: free) ++ tape)).
    - rewrite <- app_assoc. rewrite Hc. apply NoDup_seqZ.
    - rewrite <- app_assoc. by apply Forall_app.
    - intros j Hj Hnin. rewrite Hframe2, Hframe1 by (done || set_solver). done. }
  exists ft, p2. split_and!.
  - unfold reserve. congruence.
  - unfold append. rewrite Hpf in H1 |- *. simpl in *. by rewrite Hnext, H1.
  - split; simpl.
    + rewrite <- Hperm, Hc. by rewrite Hlen2, Hlen1.
    + lia.
    + congruence.
    + eapply linked_agree; done.
    + constructor; [done|]. by eapply rings_agree.
  - rewrite Hcont by done. f_equal. by apply contents_agree.
  - by apply contents_frame.
Qed.

Lemma agree_set_free p f ks : agree p (set_free p f) ks.
Proof. by intros k _. Qed.

(** Splicing the ring [tape] behind the ring [free], both with a tail. *)
Lemma splice_spec p free ft tape tl :
  ring p (free ++ [ft]) -> ring p (tape ++ [tl]) ->
  NoDup ((free ++ [ft]) ++ tape ++ [tl]) -> Forall (Z.le 1) ((free ++ [ft]) ++ tape ++ [tl]) ->
  pool_free p = Some ft ->
  exists p', release p (Some tl) = Some p' /\
    length (pool_nodes p') = length (pool_nodes p) /\ pool_free p' = Some tl /\
    ring p' ((free ++ [ft]) ++ tape ++ [tl]) /\
    forall j, 1 <= j -> j ∉ (free ++ [ft]) ++ tape ++ [tl] -> pool_node p' j = pool_node p j.
Proof.
  intros Hfr Htr Hnd Hpos Hfree.
  apply ring_snoc in Hfr as [Hlf (f & Hf & Hfn)]. apply ring_snoc in Htr as [Hlt (t & Ht & Htn)].
  rewrite app_assoc in Hnd, Hpos. apply NoDup_snoc in Hnd as [Hnd Htl].
  apply NoDup_app in Hnd as (Hndf & Hdis & Hndt). apply NoDup_snoc in Hndf as [_ Hft].
  apply Forall_app in Hpos as [Hpos Htlpos]. apply Forall_app in Hpos as [Hposf Hpost].
  apply Forall_app in Hposf as [Hposf Hftpos]. rewrite Forall_singleton in Htlpos, Hftpos.
  rewrite Forall_forall in Hposf, Hpost.
  destruct (node_set_is_Some p tl (with_next t (next f)) t Ht) as [p1 Hp1].
  pose proof (node_set_Some _ _ _ _ Hp1) as (Hlen1 & Hpf1 & Hset1 & Hframe1).
  assert (pool_node p1 ft = Some f) as Hf1 by (rewrite Hframe1; [done|lia|set_solver]).
  destruct (node_set_is_Some p1 ft (with_next f (next t)) f Hf1) as [p2 Hp2].
  pose proof (node_set_Some _ _ _ _ Hp2) as (Hlen2 & Hpf2 & Hset2 & Hframe2).
  exists (set_free p2 (Some tl)). split_and!.
  - unfold release. rewrite Hfree, Ht, Hf. simpl. rewrite Hp1. simpl. rewrite Hf1. simpl.
    by rewrite Hp2.
  - simpl. congruence.
  - done.
  - rewrite app_assoc. apply ring_snoc. split.
    + apply linked_app. split.
      * apply (relink p).
        -- intros j Hj. rewrite set_free_node, Hframe2, Hframe1 by (auto; set_solver). done.
        -- done.
        -- exists (with_next f (next t)). rewrite set_free_node. split; [done|].
           simpl. rewrite Htn. by destruct tape.
      * eapply linked_agree; [|exact Hlt]. intros j Hj.
        rewrite set_free_node, Hframe2, Hframe1 by (auto; set_solver). done.
    + exists (with_next t (next f)). rewrite set_free_node, Hframe2 by (try lia; set_solver).
      split; [done|]. simpl. rewrite Hfn. by destruct free.
  - intros j Hj Hnin. rewrite set_free_node, Hframe2, Hframe1 by (done || set_solver). done.
Qed.

(** Releasing a tape returns all of its nodes to the free chain in constant
    time, stays inside the allocation and leaves every other tape as it was. *)
Lemma release_returns p free tape tapes :
  pool_inv p free (tape :: tapes) ->
  exists p', release p (last tape) = Some p' /\ pool_inv p' (free ++ tape) tapes /\
    Forall (fun t => contents p' t = contents p t) tapes.
Proof.
  intros Hinv. pose proof (inv_NoDup _ _ _ Hinv) as Hnd.
  pose proof (inv_pos _ _ _ Hinv) as Hpos. destruct Hinv as [Hc Hs Hf Hfr Hr].
  simpl concat in *. apply Forall_cons in Hr as [Htr Hr]. rewrite app_assoc in Hc, Hnd, Hpos.
  assert (Forall (fun t => contents p t = contents p t) tapes) as Hrefl
    by (by apply Forall_true).
  destruct tape as [|tl tape _] using rev_ind.
  { exists p. rewrite app_nil_r in *. by split_and!; [|split|]. }
  rewrite last_snoc. destruct free as [|ft free _] using rev_ind.
  { exists (set_free p (Some tl)). unfold release. rewrite Hf. simpl.
    split_and!; [done| |done]. pose proof (agree_set_free p (Some tl)) as Hag.
    split; [done|done|by rewrite last_snoc|eapply linked_agree; [apply Hag|exact Htr]|].
    eapply rings_agree; [by apply Forall_true|done]. }
  rewrite last_snoc in Hf. apply NoDup_app in Hnd as Hnd'. destruct Hnd' as (Hnd' & _ & _).
  apply Forall_app in Hpos as Hpos'. destruct Hpos' as [Hpos' _].
  destruct (splice_spec p free ft tape tl) as (p' & Hrel & Hlen & Hfree & Hring & Hframe); [done..|].
  assert (Forall (agree p p') tapes) as Hag by (by eapply tapes_frame).
  exists p'. split_and!; [done| |by apply contents_frame].
  split; [by rewrite Hlen|lia| |done|by eapply rings_agree].
  by rewrite Hfree, app_assoc, last_snoc.
Qed.

Lemma pool_new_node capacity i :
  0 <= i < capacity ->
  pool_node (pool_new capacity) (i + 1) =
  Some (node_vacant (key_new (as_u32 (if i + 1 =? capacity then 0 else i + 1)))).
Proof.
  intros Hi. unfold pool_node, get, key_offset, pool_new. simpl.
  destruct (Z.leb_spec 0 (i + 1 - 1)); [|lia].
  rewrite list_lookup_fmap, lookup_seqZ_lt by lia. simpl.
  replace (Z.of_nat (Z.to_nat (i + 1 - 1))) with i by lia. done.
Qed.

Lemma pool_new_linked capacity i n :
  capacity <= u32_max -> 0 <= i -> i + n = capacity ->
  linked (pool_new capacity) (seqZ (i + 1) n) 1.
Proof.
  intros Hcap Hi Hn. remember (Z.to_nat n) as m eqn:Hm. revert i n Hi Hn Hm.
  induction m as [|m IH]; intros i n Hi Hn Hm.
  { rewrite seqZ_nil by lia. done. }
  rewrite seqZ_cons by lia. simpl. split; [|apply (IH (Z.succ i) (Z.pred n)); lia].
  eexists. split; [apply pool_new_node; lia|]. unfold node_vacant, node_raw, key_new. simpl.
  destruct (Z.eqb_spec (i + 1) capacity).
  - rewrite seqZ_nil by lia. done.
  - rewrite seqZ_cons by lia. simpl. rewrite as_u32_small, nonzero_succ_small by lia. lia.
Qed.

(** A new pool is one free chain of all its nodes. *)
Lemma pool_new_inv capacity :
  0 <= capacity <= u32_max -> pool_inv (pool_new capacity) (seqZ 1 capacity) [].
Proof.
  intros Hc. assert (zlen (pool_nodes (pool_new capacity)) = capacity) as Hlen.
  { simpl. rewrite length_fmap, length_seqZ. lia. }
  split; rewrite ?Hlen; [by rewrite app_nil_r|lia| | |constructor].
  - simpl. destruct (Z.eqb_spec capacity 0) as [->|]; [done|].
    replace (seqZ 1 capacity) with (seqZ 1 (capacity - 1) ++ [capacity]).
    + rewrite last_snoc. unfold key_new.
      rewrite as_u32_small, nonzero_succ_small by lia. f_equal. lia.
    + replace (seqZ 1 capacity) with (seqZ 1 ((capacity - 1) + 1)) by (f_equal; lia).
      rewrite seqZ_app by lia. f_equal. rewrite (seqZ_cons _ 1) by lia.
      simpl. f_equal. lia.
  - unfold ring. destruct (decide (capacity = 0)) as [->|]; [done|].
    assert (default 0 (head (seqZ 1 capacity)) = 1) as E by (by rewrite seqZ_cons by lia).
    unfold Key. rewrite E. apply (pool_new_linked capacity 0 capacity); lia.
Qed.

(** ** Interleaved tapes

    Several tapes grow and are dropped in any order over one pool; each owner
    keeps the tail of its own chain, as the builders and the retained tapes do. *)

Module PoolOp.
Inductive PoolOp := Push (owner : nat) (value : Kind.Kind) | Drop (owner : nat).
End PoolOp.

(** One operation of an owner; a push on an exhausted pool is refused. [None]
    is an access outside the allocation. *)
Definition pool_step (s : Pool * list (option Key)) (op : PoolOp.PoolOp)
    : option (Pool * list (option Key)) :=
  let '(p, tails) := s in
  match op with
  | PoolOp.Push i value =>
      match reserve p with
      | None => Some s
      | Some free =>
          '(p, key) ← append p free (mjoin (tails !! i)) value;
          Some (p, <[i := Some key]> tails)
      end
  | PoolOp.Drop i =>
      p ← release p (mjoin (tails !! i));
      Some (p, <[i := None]> tails)
  end.

Fixpoint pool_run (s : Pool * list (option Key)) (ops : list PoolOp.PoolOp)
    : option (Pool * list (option Key)) :=
  match ops with
  | [] => Some s
  | op :: ops => s ← pool_step s op; pool_run s ops
  end.

(** The specification: independent growable sequences under one budget. *)
Definition spec_step (s : nat * list (list Kind.Kind)) (op : PoolOp.PoolOp)
    : nat * list (list Kind.Kind) :=
  let '(budget, vals) := s in
  match op with
  | PoolOp.Push i value =>
      match budget with
      | O => s
      | S budget => (budget, <[i := default [] (vals !! i) ++ [value]]> vals)
      end
  | PoolOp.Drop i => ((budget + length (default [] (vals !! i)))%nat, <[i := []]> vals)
  end.

Definition op_wf (owners : nat) (op : PoolOp.PoolOp) : Prop :=
  match op with
  | PoolOp.Push i value => (i < owners)%nat /\ kind_wf value
  | PoolOp.Drop i => (i < owners)%nat
  end.

(** The pool stores, tape by tape, the values of the specification. *)
Definition pool_refines (s : Pool * list (option Key)) (a : nat * list (list Kind.Kind)) : Prop :=
  exists free tapes, pool_inv s.1 free tapes /\ length free = a.1 /\
    s.2 = last <$> tapes /\
    Forall2 (fun t vs => contents s.1 t = Some <$> vs) tapes a.2.

Lemma pool_inv_middle p free t l1 l2 :
  pool_inv p free (l1 ++ t :: l2) <-> pool_inv p free (t :: l1 ++ l2).
Proof.
  split; intros [Hc Hs Hf Hfr Hr]; split; try done.
  - by rewrite Permutation_middle.
  - by rewrite Permutation_middle.
  - by rewrite <- Permutation_middle.
  - by rewrite <- Permutation_middle.
Qed.

Lemma insert_middle {A} (l1 l2 : list A) x y i :
  i = length l1 -> <[i := y]> (l1 ++ x :: l2) = l1 ++ y :: l2.
Proof. intros ->. rewrite insert_app_r_alt by lia. by rewrite Nat.sub_diag. Qed.

Lemma contents_Forall2 p p' tapes vals :
  Forall (fun t => contents p' t = contents p t) tapes ->
  Forall2 (fun t vs => contents p t = Some <$> vs) tapes vals ->
  Forall2 (fun t vs => contents p' t = Some <$> vs) tapes vals.
Proof. intros Hf H. induction H; inversion Hf; constructor; [congruence|auto]. Qed.

(** The middle tape at the position of its owner, in all three lists. *)
Lemma refines_split p free tapes (vals : list (list Kind.Kind)) i :
  (i < length tapes)%nat ->
  Forall2 (fun t vs => contents p t = Some <$> vs) tapes vals ->
  exists l1 t l2 v1 v v2, tapes = l1 ++ t :: l2 /\ vals = v1 ++ v :: v2 /\
    i = length l1 /\ i = length v1 /\ contents p t = Some <$> v /\
    (pool_inv p free tapes -> pool_inv p free (t :: l1 ++ l2)) /\
    Forall2 (fun t vs => contents p t = Some <$> vs) (l1 ++ l2) (v1 ++ v2).
Proof.
  intros Hi H. destruct (lookup_lt_is_Some_2 tapes i Hi) as [t Ht].
  apply list_elem_of_split_length in Ht as (l1 & l2 & -> & Hl).
  apply Forall2_app_inv_l in H as (v1 & v' & H1 & H2 & ->).
  apply Forall2_cons_inv_l in H2 as (v & v2 & H2 & H3 & ->).
  exists l1, t, l2, v1, v, v2. split_and!; try done.
  - by rewrite <- (Forall2_length _ _ _ H1).
  - by rewrite pool_inv_middle.
  - by apply Forall2_app.
Qed.

Lemma push_refines s a i value :
  pool_refines s a -> (i < length a.2)%nat -> kind_wf value ->
  exists s', pool_step s (PoolOp.Push i value) = Some s' /\
    pool_refines s' (spec_step a (PoolOp.Push i value)).
Proof.
  destruct s as [p tails], a as [budget vals]. intros (free & tapes & Hinv & Hb & Ht & Hv) Hi Hwf.
  simpl in *. subst budget tails. rewrite <- (Forall2_length _ _ _ Hv) in Hi.
  destruct free as [|key free].
  { exists (p, last <$> tapes). unfold reserve. rewrite (inv_free _ _ _ Hinv). simpl.
    split; [done|]. by exists [], tapes. }
  destruct (refines_split p (key :: free) tapes vals i Hi Hv)
    as (l1 & t & l2 & v1 & v & v2 & -> & -> & -> & Hlen & Hc & Hp & Hv').
  destruct (append_extends p free key t (l1 ++ l2) value (Hp Hinv) Hwf)
    as (ft & p' & Hr & Ha & Hinv' & Hc' & Hother).
  rewrite Hr, list_lookup_fmap, list_lookup_middle by done. simpl. rewrite Ha. simpl.
  eexists. split; [done|]. exists free, (l1 ++ (t ++ [key]) :: l2). simpl. split_and!.
  - by apply pool_inv_middle.
  - done.
  - rewrite !fmap_app, !fmap_cons, insert_middle by (by rewrite length_fmap).
    by rewrite last_snoc.
  - rewrite Hlen, list_lookup_middle, insert_middle by done. simpl.
    apply (contents_Forall2 p p' _ _ Hother) in Hv'.
    apply Forall2_app_inv in Hv' as [H1 H2]; [|lia].
    apply Forall2_app; [done|]. constructor; [|done]. by rewrite Hc', Hc, fmap_app.
Qed.

Lemma drop_refines s a i :
  pool_refines s a -> (i < length a.2)%nat ->
  exists s', pool_step s (PoolOp.Drop i) = Some s' /\
    pool_refines s' (spec_step a (PoolOp.Drop i)).
Proof.
  destruct s as [p tails], a as [budget vals]. intros (free & tapes & Hinv & Hb & Ht & Hv) Hi.
  simpl in *. subst budget tails. rewrite <- (Forall2_length _ _ _ Hv) in Hi.
  destruct (refines_split p free tapes vals i Hi Hv)
    as (l1 & t & l2 & v1 & v & v2 & -> & -> & -> & Hlen & Hc & Hp & Hv').
  destruct (release_returns p free t (l1 ++ l2) (Hp Hinv)) as (p' & Hr & Hinv' & Hother).
  rewrite list_lookup_fmap, list_lookup_middle by done. simpl. rewrite Hr. simpl.
  eexists. split; [done|]. exists (free ++ t), (l1 ++ [] :: l2). simpl. split_and!.
  - apply pool_inv_middle. destruct Hinv' as [H1 H2 H3 H4 H5]. split; try done. by constructor.
  - rewrite Hlen, list_lookup_middle, length_app by done. simpl. f_equal.
    rewrite <- (length_fmap Some v), <- Hc. unfold contents. by rewrite length_fmap.
  - by rewrite !fmap_app, !fmap_cons, insert_middle by (by rewrite length_fmap).
  - rewrite Hlen, insert_middle by done.
    apply (contents_Forall2 p p' _ _ Hother) in Hv'.
    apply Forall2_app_inv in Hv' as [H1 H2]; [|lia].
    apply Forall2_app; [done|]. by constructor.
Qed.

Lemma spec_step_length a op : length (spec_step a op).2 = length a.2.
Proof. destruct a as [[|?] ?], op; simpl; rewrite ?length_insert; done. Qed.

Lemma run_refines ops s a :
  pool_refines s a -> Forall (op_wf (length a.2)) ops ->
  exists s', pool_run s ops = Some s' /\ pool_refines s' (fold_left spec_step ops a).
Proof.
  revert s a. induction ops as [|op ops IH]; intros s a Hr Hops; simpl; [eauto|].
  apply Forall_cons in Hops as [Hop Hops].
  assert (exists s', pool_step s op = Some s' /\ pool_refines s' (spec_step a op))
    as (s' & -> & Hr') by (destruct op; simpl in Hop; [apply push_refines|apply drop_refines]; tauto).
  simpl. apply IH; [done|]. by rewrite spec_step_length.
Qed.

(** C21. Over a fresh pool, any interleaving of pushes and drops by any number of
    owners stays inside the allocation and behaves as independent sequences
    that share one budget of nodes: no owner sees another one's values, and
    every dropped node is available again. *)
Theorem pool_interleavings capacity owners ops :
  0 <= capacity <= u32_max -> Forall (op_wf owners) ops ->
  exists s, pool_run (pool_new capacity, replicate owners None) ops = Some s /\
    pool_refines s (fold_left spec_step ops (Z.to_nat capacity, replicate owners [])).
Proof.
  intros Hc Hops. apply run_refines; [|simpl; by rewrite length_replicate].
  exists (seqZ 1 capacity), (replicate owners []). simpl. split_and!.
  - destruct (pool_new_inv capacity Hc) as [H1 H2 H3 H4 H5]. split; try done.
    + by replace (concat (replicate owners [])) with (@nil Key)
        by (clear; induction owners; simpl; done).
    + apply Forall_replicate. done.
  - rewrite length_seqZ. lia.
  - by rewrite fmap_replicate.
  - clear. induction owners; simpl; constructor; done.
Qed.

(** ** Witnesses *)

Definition sample_ops : list PoolOp.PoolOp :=
  [PoolOp.Push 0 (Kind.Array 1); PoolOp.Push 1 (Kind.Integer (-7));
   PoolOp.Push 0 (Kind.Bulk (body_new 4 9)); PoolOp.Push 1 Kind.Ok;
   PoolOp.Drop 0; PoolOp.Push 1 Kind.Nil].

Lemma pool_interleavings_witness :
  exists s, pool_run (pool_new 3, replicate 2 None) sample_ops = Some s /\
    pool_refines s (1%nat, [[]; [Kind.Integer (-7); Kind.Nil]]).
Proof.
  destruct (pool_interleavings 3 2 sample_ops) as (s & H1 & H2).
  - lia.
  - repeat constructor; simpl; vm_compute; intros; discriminate.
  - exists s. split; [exact H1|exact H2].
Defined.
