(* ===== verification/RespState.v ===== *)
(** * The resumable RESP scanner

    Models [redis/src/protocol/parser/state.rs] and the scanner's entry points
    in [redis/src/protocol/parser/mod.rs]: the mode machine that reads one frame
    from a growing input, pushes its values in pre-order and resumes after every
    interruption. The input window of the session, the fixed-capacity vector of
    the array depths and the value builder are interfaces. *)
From S2P Require Import Prelude CodecInput RespLimit RespPool.

(** ** Interfaces *)

(** [copy::Vec<NonZero<u32>, MAX_DEPTH>]: a vector read through its slice. *)
Class InlineVec (V : Type) := {
  vec_new : V;
  as_slice : V -> list Z;
  set_last : V -> Z -> V;
  pop : V -> V;
  vacancy : V -> option (Z -> V) }.

Class InlineVecLaws (V : Type) `{InlineVec V} : Prop := {
  as_slice_new : as_slice vec_new = [];
  as_slice_set_last v l x y : as_slice v = l ++ [x] -> as_slice (set_last v y) = l ++ [y];
  as_slice_pop v l x : as_slice v = l ++ [x] -> as_slice (pop v) = l;
  vacancy_full v : vacancy v = None <-> (MAX_DEPTH <= length (as_slice v))%nat;
  vacancy_insert v insert x : vacancy v = Some insert -> as_slice (insert x) = as_slice v ++ [x] }.

Module Push.
Inductive Push := Stored | Blocked | Full.
End Push.

(** The builder of the retained tape together with the storage it writes to. *)
Class Sink (B T : Type) := {
  sink_len : B -> Z;
  try_push : B -> Slot -> Kind.Kind -> B * Push.Push;
  sink_finish : B -> B * T;
  sink_reset : B -> B }.

(** What the scanner relies on: a well-formed builder holds the pushed values. *)
Class SinkLaws (B T : Type) `{Sink B T} := {
  sink_ok : B -> Prop;
  sink_view : B -> list Kind.Kind;
  tape_holds : B -> T -> list Kind.Kind -> Prop;
  sink_len_view b : sink_ok b -> sink_len b = zlen (sink_view b);
  try_push_view b slot v b' r :
    sink_ok b -> kind_wf v -> slot = sink_len b + 1 -> slot <= u32_max ->
    try_push b slot v = (b', r) ->
    sink_ok b' /\ sink_view b' =
      match r with Push.Stored => sink_view b ++ [v] | _ => sink_view b end;
  sink_finish_view b b' t :
    sink_ok b -> sink_view b <> [] -> sink_finish b = (b', t) ->
    sink_ok b' /\ sink_view b' = [] /\ tape_holds b' t (sink_view b);
  sink_reset_view b : sink_ok b -> sink_ok (sink_reset b) /\ sink_view (sink_reset b) = [] }.

(** ** The machine *)

Record LinePending := { start : End; slot : Slot }.

Module Mode.
Inductive Mode :=
| Start
| Marker (end_ : End)
| Line (kind : Line.Line) (pending : LinePending)
| Bulk (end_ : Body) (slot : Slot).
End Mode.

Module RestoreTo.
Inductive RestoreTo := Line (kind : Line.Line) (start : End) | Bulk (end_ : Body).
End RestoreTo.

Module Completion.
Inductive Completion := Root | Nested.
End Completion.

Module Scan.
Inductive Scan (X T : Type) :=
| Pending
| Blocked
| Complete (frame : list Z) (nodes : T) (consumed : Z)
| Invalid (error : Error.Error) (consumed : Z)
| FrameCapacity (error : Exceeded) (consumed : Z)
| ValueCapacity (error : Exceeded) (consumed : Z)
| RetainCapacity
| Source (error : X).
Arguments Pending {X T}.
Arguments Blocked {X T}.
Arguments Complete {X T} frame nodes consumed.
Arguments Invalid {X T} error consumed.
Arguments FrameCapacity {X T} error consumed.
Arguments ValueCapacity {X T} error consumed.
Arguments RetainCapacity {X T}.
Arguments Source {X T} error.
End Scan.

Module Failure.
Inductive Failure := Invalid (e : Error.Error) | FrameCapacity (e : Exceeded) | ValueCapacity (e : Exceeded).
End Failure.

Definition mode_cursor (m : Mode.Mode) : Z :=
  match m with
  | Mode.Start => 0
  | Mode.Marker e => e
  | Mode.Line _ pending => start pending
  | Mode.Bulk e _ => body_start e
  end.

Definition mode_line (kind : Line.Line) (start : End) (slot : Slot) : Mode.Mode :=
  Mode.Line kind {| start := start; slot := slot |}.

Definition mode_restore (r : RestoreTo.RestoreTo) (slot : Slot) : Mode.Mode :=
  match r with
  | RestoreTo.Line kind start => mode_line kind start slot
  | RestoreTo.Bulk e => Mode.Bulk e slot
  end.

Section scanner.
  Context {X V B T : Type} `{InlineVec V, Sink B T}.

Record State := { scan_from : Z; left : V; mode : Mode.Mode }.

Definition set_mode (s : State) (m : Mode.Mode) : State :=
  {| scan_from := scan_from s; left := left s; mode := m |}.

Definition set_scan (s : State) (n : Z) : State :=
  {| scan_from := n; left := left s; mode := mode s |}.

Definition set_left (s : State) (l : V) : State :=
  {| scan_from := scan_from s; left := l; mode := mode s |}.

Definition state_new : State := {| scan_from := 0; left := vec_new; mode := Mode.Start |}.

(** One turn of the loop of [State::scan]: go on, or return a result. *)
Inductive Turn :=
| Continue (s : State) (b : B)
| Return (r : Scan.Scan X T) (s : State) (b : B).

Definition consumed (inp : Input X) (amount : Z) (build : Z -> Scan.Scan X T) : Scan.Scan X T :=
  match try_consumed inp amount with
  | Ok consumed => build consumed
  | Err cause => Scan.Source cause
  end.

(** [State::finish_value] on the stack of open arrays, innermost last. *)
Fixpoint finish_value_loop (fuel : nat) (s : State) (e : End) : State * Completion.Completion :=
  match fuel with
  | O => (s, Completion.Root)
  | S fuel =>
      match last (as_slice (left s)) with
      | None => (s, Completion.Root)
      | Some n =>
          if n - 1 =? 0 then finish_value_loop fuel (set_left s (pop (left s))) e
          else (set_mode (set_left s (set_last (left s) (n - 1))) (Mode.Marker e),
                Completion.Nested)
      end
  end.

Definition finish_value (s : State) (e : End) : State * Completion.Completion :=
  finish_value_loop (S (length (as_slice (left s)))) s e.

(** [State::finish]: the error of an input that ends in the middle of a frame. *)
Definition state_finish (s : State) (actual : End) : Error.Error :=
  match mode s with
  | Mode.Start => Error.Unparsed actual
  | Mode.Marker e =>
      match last (as_slice (left s)) with
      | Some n =>
          let parents := zlen (as_slice (left s)) - 1 in
          Error.Truncated (Truncated.Value e (nonzero_succ u8_max (as_u8 parents)) n)
      | None => Error.Unparsed actual
      end
  | Mode.Line kind pending => Error.Truncated (Truncated.Line kind (start pending) actual)
  | Mode.Bulk e _ => Error.Truncated (Truncated.Bulk actual (body_end e))
  end.

(** [Parser::finish]. *)
Definition parser_finish (s : State) (actual : Z) (frame : Bound) : Failure.Failure :=
  match frame_next frame (actual - 1) with
  | Ok actual => Failure.Invalid (state_finish s actual)
  | Err error => Failure.FrameCapacity error
  end.

(** [complete]: the root value is stored; the frame is projected and the tape
    transferred. A refused projection leaves the builder in place. *)
Definition complete (inp : Input X) (s : State) (b : B) (count : Z) : Turn :=
  match try_prefix inp 0 count with
  | Ok (frame, consumed) =>
      let '(b, nodes) := sink_finish b in
      Return (Scan.Complete frame nodes consumed) state_new b
  | Err error => Return (Scan.Source error) s b
  end.

(** [State::write] followed by the code after a stored value, [stored]. *)
Definition write_value (s : State) (b : B) (slot : Slot) (value : Kind.Kind)
    (restore : RestoreTo.RestoreTo) (stored : B -> Turn) : Turn :=
  let '(b, push) := try_push b slot value in
  match push with
  | Push.Stored => stored b
  | Push.Blocked => Return Scan.Blocked (set_mode s (mode_restore restore slot)) b
  | Push.Full => Return Scan.RetainCapacity (set_mode s (mode_restore restore slot)) b
  end.

(** The common tail of every stored value that opens no array. *)
Definition finish_stored (inp : Input X) (s : State) (e : End) (b : B) : Turn :=
  let '(s, completion) := finish_value s e in
  match completion with
  | Completion.Root => complete inp s b (end_consumed e)
  | Completion.Nested => Continue s b
  end.

Definition marker_line (marker : Z) : option Line.Line :=
  if marker =? 43 then Some Line.Status
  else if marker =? 45 then Some Line.Server
  else if marker =? 58 then Some Line.Integer
  else if marker =? 36 then Some Line.Bulk
  else if marker =? 42 then Some Line.Array
  else None.

(** The arm [Mode::Start | Mode::Marker(_)]. *)
Definition step_marker (inp : Input X) (byte_max node_max : Bound) (s : State) (b : B) : Turn :=
  let cursor := mode_cursor (mode s) in
  match get (bytes inp) cursor with
  | None => Return Scan.Pending s b
  | Some marker =>
      match frame_next byte_max cursor with
      | Err error =>
          Return (consumed inp (bound_consumed byte_max) (Scan.FrameCapacity error)) s b
      | Ok e =>
          match value_next node_max (sink_len b) with
          | Err error => Return (consumed inp (end_consumed e) (Scan.ValueCapacity error)) s b
          | Ok slot =>
              let offset := e - 1 in
              let s := set_scan (set_mode s (Mode.Marker e)) e in
              match marker_line marker with
              | None =>
                  Return (consumed inp (end_consumed e)
                    (Scan.Invalid (Error.Marker offset marker))) s b
              | Some kind => Continue (set_mode s (mode_line kind e slot)) b
              end
          end
      end
  end.

(** The array header once its count is admitted: a nonzero count needs room in
    the stack of open arrays before its node is stored. *)
Definition step_array (inp : Input X) (s : State) (b : B) (kind : Line.Line)
    (start : End) (slot : Slot) (e : End) (count : Z) : Turn :=
  let store (nested : option ((Z -> V) * Z)) :=
    write_value s b slot (Kind.Array count) (RestoreTo.Line kind start) (fun b =>
      match nested with
      | None => finish_stored inp s e b
      | Some (insert, left) => Continue (set_mode (set_left s (insert left)) (Mode.Marker e)) b
      end) in
  if count =? 0 then store None
  else
    match vacancy (left s) with
    | Some insert => store (Some (insert, count))
    | None =>
        Return (consumed inp (end_consumed e)
          (Scan.Invalid (Error.Depth OVER_DEPTH DEPTH count)))
          (set_mode s (mode_line kind start slot)) b
    end.

(** A complete line [line], whose body is [body] and whose end is [e]. *)
Definition step_found (inp : Input X) (byte_max node_max : Bound) (s : State) (b : B)
    (kind : Line.Line) (start : End) (slot : Slot) (line : list Z) (e : End) (body : Body)
    : Turn :=
  let fail r := Return r (set_mode s (mode_line kind start slot)) b in
  let store value :=
    write_value s b slot value (RestoreTo.Line kind start) (finish_stored inp s e) in
  match kind with
  | Line.Status =>
      if list_eqb line (bytes_of "OK") then store Kind.Ok
      else store (Kind.Status (span_terminated body))
  | Line.Server => store (Kind.Error (span_terminated body))
  | Line.Integer =>
      match signed line body with
      | Ok integer => store (Kind.Integer integer)
      | Err cause =>
          fail (consumed inp (end_consumed e) (Scan.Invalid (Error.Number Line.Integer cause)))
      end
  | Line.Bulk =>
      match number_length line body Line.Bulk with
      | Err error => fail (consumed inp (end_consumed e) (Scan.Invalid error))
      | Ok Length.Nil => store Kind.Nil
      | Ok (Length.Count length) =>
          match frame_body byte_max e length with
          | Ok finish => Continue (set_mode s (Mode.Bulk finish slot)) b
          | Err error => fail (consumed inp (end_consumed e) (Scan.FrameCapacity error))
          end
      end
  | Line.Array =>
      match number_length line body Line.Array with
      | Err error => fail (consumed inp (end_consumed e) (Scan.Invalid error))
      | Ok Length.Nil => store Kind.Nil
      | Ok (Length.Count count) =>
          match value_array node_max (sink_len b) count with
          | Ok count => step_array inp s b kind start slot e count
          | Err error => fail (consumed inp (end_consumed e) (Scan.ValueCapacity error))
          end
      end
  end.

(** The arm [Mode::Line]. *)
Definition step_line (inp : Input X) (byte_max node_max : Bound) (s : State) (b : B)
    (kind : Line.Line) (pending : LinePending) : Turn :=
  let keep s := set_mode s (Mode.Line kind pending) in
  match find (bytes inp) (start pending) (scan_from s) kind with
  | Ok (Some line) =>
      match frame_line byte_max line with
      | Ok (e, body) =>
          step_found inp byte_max node_max s b kind (start pending) (slot pending)
            (line_value line) e body
      | Err error =>
          Return (consumed inp (bound_consumed byte_max) (Scan.FrameCapacity error)) (keep s) b
      end
  | Ok None =>
      let len := zlen (bytes inp) in
      let s := keep (set_scan s (Z.max (Z.max (len - 1) 0) (start pending))) in
      match frame_check byte_max len with
      | Ok () => Return Scan.Pending s b
      | Err error =>
          Return (consumed inp (bound_consumed byte_max) (Scan.FrameCapacity error)) s b
      end
  | Err (offset, expected, actual) =>
      match frame_next byte_max offset with
      | Ok e =>
          Return (consumed inp (end_consumed e)
            (Scan.Invalid (Error.Terminator (e - 1) expected actual))) (keep s) b
      | Err error =>
          Return (consumed inp (bound_consumed byte_max) (Scan.FrameCapacity error)) (keep s) b
      end
  end.

(** The arm [Mode::Bulk]. *)
Definition step_bulk (inp : Input X) (s : State) (b : B) (e : Body) (slot : Slot) : Turn :=
  let offset := body_stop e in
  let keep := set_mode s (Mode.Bulk e slot) in
  match get_range (bytes inp) offset (body_get e) with
  | Some [cr; lf] =>
      if negb (cr =? 13) || negb (lf =? 10) then
        let '(offset, expected, actual) :=
          if negb (cr =? 13) then (offset, 13, cr) else (offset + 1, 10, lf) in
        Return (consumed inp (body_consumed e)
          (Scan.Invalid (Error.Terminator offset expected actual))) keep b
      else
        write_value s b slot (Kind.Bulk (span_terminated e)) (RestoreTo.Bulk e) (fun b =>
          let '(s, completion) := finish_value s (body_end e) in
          match completion with
          | Completion.Root => complete inp s b (body_consumed e)
          | Completion.Nested => Continue s b
          end)
  | _ => Return Scan.Pending keep b
  end.

(** One turn of the loop; [mem::take] leaves [Mode::Start] behind. *)
Definition step (inp : Input X) (byte_max node_max : Bound) (s : State) (b : B) : Turn :=
  match mode s with
  | Mode.Start | Mode.Marker _ => step_marker inp byte_max node_max s b
  | Mode.Line kind pending =>
      step_line inp byte_max node_max (set_mode s Mode.Start) b kind pending
  | Mode.Bulk e slot => step_bulk inp (set_mode s Mode.Start) b e slot
  end.

Fixpoint scan_loop (fuel : nat) (inp : Input X) (byte_max node_max : Bound) (s : State) (b : B)
    : option (Scan.Scan X T * State * B) :=
  match fuel with
  | O => None
  | S fuel =>
      match step inp byte_max node_max s b with
      | Continue s b => scan_loop fuel inp byte_max node_max s b
      | Return r s b => Some (r, s, b)
      end
  end.

(** Every turn but the last two of a value reads at least one byte. *)
Definition scan_fuel (inp : Input X) : nat := 3 * S (length (bytes inp)).

(** [State::scan]: restarts when the window shrank below the retained cursor. *)
Definition scan (inp : Input X) (byte_max node_max : Bound) (s : State) (b : B)
    : option (Scan.Scan X T * State * B) :=
  let len := zlen (bytes inp) in
  if (len <? mode_cursor (mode s)) || (len <? scan_from s) then
    scan_loop (scan_fuel inp) inp byte_max node_max state_new (sink_reset b)
  else scan_loop (scan_fuel inp) inp byte_max node_max s b.
End scanner.

Arguments State V : clear implicits.
Arguments Turn X V B T : clear implicits.
