(* ===== verification/RespGrammar.v ===== *)
(** * The RESP grammar the parser is verified against

    A reference for what [redis/src/protocol/parser] accepts, independent of the
    scanner: trees of values with their byte spellings ([wires]), the tape of
    nodes read back as trees ([reads]), and the flat pre-order grammar ([values])
    that links them. *)
From S2P Require Import Prelude RespLimit RespPool.

Inductive resp :=
| RNil
| ROk
| RStatus (t : list Z)
| RError (t : list Z)
| RInteger (n : Z)
| RBulk (p : list Z)
| RArray (l : list resp).

Definition crlf : list Z := [13; 10].

(** The text of a status or an error holds no line terminator. *)
Definition text (t : list Z) : Prop := Forall (fun b => is_cr_lf b = false) t.

(** A header line of an array or a bulk string. *)
Definition header (marker : Z) (t : list Z) : list Z := marker :: t ++ crlf.
#[global] Arguments header : simpl never.

(** ** Trees and their spellings *)

Inductive wire_leaf : resp -> list Z -> Prop :=
| wire_ok : wire_leaf ROk (header 43 (bytes_of "OK"))
| wire_status t : text t -> t <> bytes_of "OK" -> wire_leaf (RStatus t) (header 43 t)
| wire_error t : text t -> wire_leaf (RError t) (header 45 t)
| wire_integer t n :
    signed_value t n -> i64_min <= n <= i64_max -> wire_leaf (RInteger n) (header 58 t)
| wire_nil m t :
    m = 36 \/ m = 42 -> length_value t Length.Nil -> wire_leaf RNil (header m t)
| wire_bulk t p :
    length_value t (Length.Count (zlen p)) -> wire_leaf (RBulk p) (header 36 t ++ p ++ crlf).

Inductive wires : list resp -> list Z -> Prop :=
| wires_nil : wires [] []
| wires_leaf r lb rs bs : wire_leaf r lb -> wires rs bs -> wires (r :: rs) (lb ++ bs)
| wires_array t l bs1 rs bs2 :
    length_value t (Length.Count (zlen l)) -> wires l bs1 -> wires rs bs2 ->
    wires (RArray l :: rs) (header 42 t ++ bs1 ++ bs2).

Fixpoint node_count (r : resp) : nat :=
  match r with
  | RArray l => S (sum_list_with node_count l)
  | _ => 1
  end.

(** The nesting of nonempty arrays. *)
Fixpoint depth (r : resp) : nat :=
  match r with
  | RArray [] => 0
  | RArray l => S (max_list_with depth l)
  | _ => 0
  end.

(** ** Tapes and the trees they hold *)

Definition span_bytes (frame : list Z) (s : Span) : option (list Z) :=
  get_range frame (span_range s).1 (span_range s).2.

Definition content (frame : list Z) (v : Kind.Kind) (r : resp) : Prop :=
  match v, r with
  | Kind.Nil, RNil => True
  | Kind.Ok, ROk => True
  | Kind.Status s, RStatus t => span_bytes frame s = Some t
  | Kind.Error s, RError t => span_bytes frame s = Some t
  | Kind.Integer n, RInteger m => n = m
  | Kind.Bulk s, RBulk p => span_bytes frame s = Some p
  | _, _ => False
  end.

Inductive reads (frame : list Z) : list Kind.Kind -> list resp -> Prop :=
| reads_nil : reads frame [] []
| reads_leaf v r ks rs : content frame v r -> reads frame ks rs -> reads frame (v :: ks) (r :: rs)
| reads_array k1 l k2 rs :
    reads frame k1 l -> reads frame k2 rs ->
    reads frame (Kind.Array (zlen l) :: k1 ++ k2) (RArray l :: rs).

(** The arities of a pre-order sequence of [n] values. *)
Inductive shape : nat -> list Kind.Kind -> Prop :=
| shape_nil : shape 0 []
| shape_leaf n v ks : (forall m, v <> Kind.Array m) -> shape n ks -> shape (S n) (v :: ks)
| shape_array n m ks : 0 <= m -> shape (Z.to_nat m + n) ks -> shape (S n) (Kind.Array m :: ks).

(** ** The flat grammar *)

Inductive leaf (off : Z) : list Z -> Kind.Kind -> Prop :=
| leaf_ok : leaf off (header 43 (bytes_of "OK")) Kind.Ok
| leaf_status t :
    text t -> t <> bytes_of "OK" ->
    leaf off (header 43 t) (Kind.Status (body_new (off + 1) (off + 1 + zlen t)))
| leaf_error t :
    text t -> leaf off (header 45 t) (Kind.Error (body_new (off + 1) (off + 1 + zlen t)))
| leaf_integer t n :
    signed_value t n -> i64_min <= n <= i64_max -> leaf off (header 58 t) (Kind.Integer n)
| leaf_nil m t : m = 36 \/ m = 42 -> length_value t Length.Nil -> leaf off (header m t) Kind.Nil
| leaf_bulk t p :
    length_value t (Length.Count (zlen p)) ->
    leaf off (header 36 t ++ p ++ crlf)
      (Kind.Bulk (body_new (off + zlen (header 36 t)) (off + zlen (header 36 t) + zlen p))).

(** [n] values from [off] on: an array of [m] elements leaves [m + n] values. *)
Inductive values : Z -> nat -> list Z -> list Kind.Kind -> Prop :=
| values_nil off : values off 0 [] []
| values_leaf off lb v n bs ks :
    leaf off lb v -> values (off + zlen lb) n bs ks -> values off (S n) (lb ++ bs) (v :: ks)
| values_array off t m n bs ks :
    0 <= m -> length_value t (Length.Count m) ->
    values (off + zlen (header 42 t)) (Z.to_nat m + n) bs ks ->
    values off (S n) (header 42 t ++ bs) (Kind.Array m :: ks).

(** ** Lemmas *)

Lemma length_header m t : zlen (header m t) = 3 + zlen t.
Proof. unfold header, crlf. simpl. rewrite length_app. simpl. lia. Qed.

Lemma length_crlf : zlen crlf = 2.
Proof. reflexivity. Qed.

#[export] Hint Rewrite length_header length_crlf Nat2Z.inj_add : cartel_len.

(** Lengths of concatenations, headers and terminators. *)
Ltac lens := autorewrite with cartel_len in *.

Lemma span_range_body start stop :
  0 <= start <= u32_max -> 0 <= stop <= u32_max ->
  span_range (body_new start stop) = (start, stop).
Proof.
  intros. unfold span_range. f_equal.
  - by apply body_start_new; lia.
  - apply body_stop_new; lia.
Qed.

Lemma span_bytes_middle pre t post start stop :
  start = zlen pre -> stop = start + zlen t -> stop <= u32_max ->
  span_bytes (pre ++ t ++ post) (body_new start stop) = Some t.
Proof.
  intros -> -> Hb. unfold span_bytes. rewrite span_range_body by lia. simpl.
  apply get_range_Some. rewrite slice_middle, !length_app. split_and!; (done || lia).
Qed.

Lemma content_span_wf start stop :
  1 <= start -> 0 <= stop <= u32_max -> start <= u32_max ->
  1 <= body_new start stop <= u64_max.
Proof. intros. rewrite body_new_sum by lia. lia. Qed.

Lemma leaf_length off lb v : leaf off lb v -> 3 <= zlen lb.
Proof. intros []; lens; lia. Qed.

Lemma leaf_wf off lb v :
  leaf off lb v -> 0 <= off -> off + zlen lb <= u32_max -> kind_wf v.
Proof. intros [] H1 H2; cbn [kind_wf]; try done; lens; apply content_span_wf; lia. Qed.

(** The spans of a line and of a bulk body read their bytes. *)
Lemma span_line pre m t post :
  zlen pre + zlen (header m t) <= u32_max ->
  span_bytes (pre ++ header m t ++ post) (body_new (zlen pre + 1) (zlen pre + 1 + zlen t)) = Some t.
Proof.
  intros Hb. lens. unfold header. simpl. rewrite cons_middle, app_assoc, <- (app_assoc t).
  apply span_bytes_middle; lens; simpl; lia.
Qed.

Lemma span_bulk pre h p post :
  zlen pre + zlen (h ++ p ++ crlf) <= u32_max ->
  span_bytes (pre ++ (h ++ p ++ crlf) ++ post)
    (body_new (zlen pre + zlen h) (zlen pre + zlen h + zlen p)) = Some p.
Proof.
  intros Hb. rewrite <- (app_assoc _ (p ++ crlf)), <- (app_assoc p), app_assoc.
  apply span_bytes_middle; lens; lia.
Qed.

Lemma leaf_wire off lb v pre post :
  leaf off lb v -> zlen pre = off -> off + zlen lb <= u32_max ->
  exists r, wire_leaf r lb /\ content (pre ++ lb ++ post) v r.
Proof.
  intros H <- Hb. destruct H as [|t Ht Hne|t Ht|t n Hn Hr|m t Hm Ht|t p Ht].
  - exists ROk. by split; [constructor|].
  - exists (RStatus t). split; [by constructor|by apply span_line].
  - exists (RError t). split; [by constructor|by apply span_line].
  - exists (RInteger n). split; [by econstructor|done].
  - exists RNil. split; [by econstructor|done].
  - exists (RBulk p). split; [by constructor|by apply span_bulk].
Qed.

Lemma wire_leaf_kind off r lb : wire_leaf r lb -> exists v, leaf off lb v.
Proof. intros []; eexists; by econstructor. Qed.

Lemma wires_app_inv l1 l2 bs :
  wires (l1 ++ l2) bs -> exists b1 b2, bs = b1 ++ b2 /\ wires l1 b1 /\ wires l2 b2.
Proof.
  revert bs. induction l1 as [|r l1 IH]; intros bs H; [exists [], bs; by repeat constructor|].
  inversion H as [|? lb ? bs' Hl Hr|t l b1 ? b2 Ht Hl Hr]; subst.
  - destruct (IH _ Hr) as (c1 & c2 & -> & H1 & H2). exists (lb ++ c1), c2.
    split_and!; [by rewrite app_assoc|by constructor|done].
  - destruct (IH _ Hr) as (c1 & c2 & -> & H1 & H2). exists (header 42 t ++ b1 ++ c1), c2.
    split_and!; [by rewrite <- !app_assoc|by constructor|done].
Qed.

Lemma wires_length rs bs : wires rs bs -> (length rs <= length bs)%nat.
Proof.
  induction 1 as [|r lb rs bs Hl|t l b1 rs b2]; simpl; [lia| |].
  - destruct Hl; lens; unfold header; simpl; lia.
  - lens. unfold header in *. simpl in *. lia.
Qed.

Lemma reads_app_inv frame ks l1 l2 :
  reads frame ks (l1 ++ l2) -> exists k1 k2, ks = k1 ++ k2 /\ reads frame k1 l1 /\ reads frame k2 l2.
Proof.
  revert ks. induction l1 as [|r l1 IH]; intros ks H; [exists [], ks; by repeat constructor|].
  inversion H as [|v ? ks' ? Hc Hr|a l b ? Hl Hr]; subst.
  - destruct (IH _ Hr) as (c1 & c2 & -> & H1 & H2). exists (v :: c1), c2.
    split_and!; [done|by constructor|done].
  - destruct (IH _ Hr) as (c1 & c2 & -> & H1 & H2). exists (Kind.Array (zlen l) :: a ++ c1), c2.
    split_and!; [|by constructor|done]. simpl. by rewrite <- app_assoc.
Qed.

(** Every flat sequence of values is a list of trees, and its tape reads them. *)
Lemma values_wires off n bs ks pre post :
  values off n bs ks -> zlen pre = off -> off + zlen bs <= u32_max ->
  exists rs, length rs = n /\ wires rs bs /\ reads (pre ++ bs ++ post) ks rs.
Proof.
  intros H. revert pre. induction H as [off|off lb v n bs ks Hl Hv IH|off t m n bs ks Hm Ht Hv IH];
    intros pre Hp Hb.
  - exists []. by repeat constructor.
  - lens. destruct (leaf_wire off lb v pre (bs ++ post) Hl Hp) as (r & Hw & Hc); [lia|].
    destruct (IH (pre ++ lb)) as (rs & Hn & Hws & Hr); [lens; lia|lia|].
    exists (r :: rs). simpl. split_and!; [lia|by constructor|].
    rewrite <- !app_assoc in *. by constructor.
  - lens. destruct (IH (pre ++ header 42 t)) as (rs & Hn & Hws & Hr); [lens; lia|lia|].
    rewrite <- (take_drop (Z.to_nat m) rs) in Hws, Hr.
    apply wires_app_inv in Hws as (b1 & b2 & -> & Hw1 & Hw2).
    apply reads_app_inv in Hr as (k1 & k2 & -> & Hr1 & Hr2).
    assert (zlen (take (Z.to_nat m) rs) = m) as El by (rewrite length_take; lia).
    exists (RArray (take (Z.to_nat m) rs) :: drop (Z.to_nat m) rs). split_and!.
    + simpl. rewrite length_drop. lia.
    + constructor; [by rewrite El|done|done].
    + replace (Kind.Array m) with (Kind.Array (zlen (take (Z.to_nat m) rs))) by by rewrite El.
      rewrite <- !app_assoc in *. by constructor.
Qed.

Lemma shape_app n1 k1 n2 k2 : shape n1 k1 -> shape n2 k2 -> shape (n1 + n2) (k1 ++ k2).
Proof.
  intros H1 H2. induction H1; simpl; [done|by constructor|]. constructor; [done|].
  by rewrite Nat.add_assoc.
Qed.

Lemma shape_length n ks : shape n ks -> (n <= length ks)%nat.
Proof. induction 1; simpl; lia. Qed.

Lemma reads_shape frame ks rs : reads frame ks rs -> shape (length rs) ks.
Proof.
  induction 1 as [|v r ks rs Hc Hr IH|k1 l k2 rs H1 IH1 H2 IH2]; simpl; [constructor| |].
  - constructor; [|done]. intros m ->. by destruct r.
  - constructor; [lia|]. rewrite Nat2Z.id. by apply shape_app.
Qed.

Lemma node_count_pos r : (1 <= node_count r)%nat.
Proof. destruct r; simpl; lia. Qed.

Lemma values_size off n bs ks : values off n bs ks -> (n <= length ks)%nat.
Proof. induction 1; simpl; lia. Qed.

Lemma depth_array l : l <> [] -> depth (RArray l) = S (max_list_with depth l).
Proof. by destruct l. Qed.
