(* ===== verification/RespRequest.v ===== *)
(** * Request encoding

    Models [redis/src/request/mod.rs] and [redis/src/request/encode]: a request is
    measured first, admitted with exactly that length into a bounded output, and
    then written; the output type and the admission are those of the buffer
    library, interfaces here. Whatever is produced spells one array of bulks. *)
From S2P Require Import Prelude CoreText RespLimit RespPool RespGrammar.

(** ** Vocabulary *)

Module Sensitivity.
Inductive Sensitivity := Plain | Secret.
End Sensitivity.

Module ReqError.
Inductive Error (X Y : Type) :=
| Length (actual maximum : Z)
| Add (left right : Z)
| Mul (left right : Z)
| Capacity (cause : X)
| Write (cause : X)
| Entries (required : Z)
| BulkLength (declared actual : Z)
| Items (declared actual : Z)
| Incomplete (remaining : Z)
| Egress (cause : Y).
Arguments Length {X Y} actual maximum.
Arguments Add {X Y} left right.
Arguments Mul {X Y} left right.
Arguments Capacity {X Y} cause.
Arguments Write {X Y} cause.
Arguments Entries {X Y} required.
Arguments BulkLength {X Y} declared actual.
Arguments Items {X Y} declared actual.
Arguments Incomplete {X Y} remaining.
Arguments Egress {X Y} cause.
End ReqError.

(** [request::Bulk]: a payload of declared length, visited chunk by chunk. *)
Class Bulk (P : Type) := { bulk_len : P -> Z; visit : P -> list (list Z) }.

(** The instance of everything that is a slice. *)
#[export] Instance slice_bulk : Bulk (list Z) := {| bulk_len p := zlen p; visit p := [p] |}.

(** The output of the buffer library: [pool::Limit] over a span. *)
Class Output (S O X Y : Type) := {
  limit_from : S -> Z -> result X O;
  try_extend : O -> list Z -> result X O;
  remaining : O -> Z;
  into_parts : O -> list Z;
  nonempty : list Z -> result Y () }.

(** A limit starts empty and takes exactly what fits in what remains. *)
Class OutputLaws (S O X Y : Type) `{Output S O X Y} : Prop := {
  limit_empty s n o : limit_from s n = Ok o -> remaining o = n /\ into_parts o = [];
  extend_fits o bs :
    zlen bs <= remaining o ->
    exists o', try_extend o bs = Ok o' /\ remaining o' = remaining o - zlen bs /\
      into_parts o' = into_parts o ++ bs;
  extend_over o bs o' : try_extend o bs = Ok o' -> zlen bs <= remaining o }.

(** [Complete]: the bytes of a finished frame and their sensitivity. *)
Record Complete := { frame : list Z; kind : Sensitivity.Sensitivity }.

Section encode.
  Context {S O X Y : Type} {output : Output S O X Y}.

Abbreviation Error := (ReqError.Error X Y).

(** ** Measuring *)

Definition number_new (value : Z) : result Error Z :=
  if i64_max <? value then Err (ReqError.Length value i64_max) else Ok value.

Definition number_digits (n : Z) : Z := default 0 (checked_ilog10 n) + 1.

Definition length_add (l amount : Z) : result Error Z :=
  match checked_usize (l + amount) with
  | Some n => Ok n
  | None => Err (ReqError.Add l amount)
  end.

Definition length_array (count : Z) : result Error Z :=
  count ← number_new count; Ok (nonzero_succ u64_max (2 + number_digits count)).

Definition length_bulk (l len : Z) : result Error Z :=
  length ← number_new len;
  l ← length_add l 5;
  l ← length_add l (number_digits length);
  length_add l len.

Definition add_count (base len : Z) : result Error Z :=
  match checked_usize (base + len) with
  | Some n => Ok n
  | None => Err (ReqError.Add base len)
  end.

Definition add_group_count (base len width : Z) : result Error Z :=
  match checked_usize (len * width) with
  | Some count => add_count base count
  | None => Err (ReqError.Mul len width)
  end.

Definition next_item (declared actual : Z) : result Error Z :=
  actual ← add_count actual 1;
  if declared <? actual then Err (ReqError.Items declared actual) else Ok actual.

Definition check_items (declared actual : Z) : result Error () :=
  if negb (actual =? declared) then Err (ReqError.Items declared actual) else Ok ().

(** ** Writing *)

(** [format_header_into] a buffer of 23 bytes; [None] is an index out of range. *)
Definition format_header_into (buffer : list Z) (marker value : Z) : option (list Z) :=
  r ← write_digits (slice buffer 1 21) value;
  let '(digits, start) := r in
  let buffer := take 1 buffer ++ digits ++ [13; 10] in
  Some (drop (Z.to_nat start) (<[Z.to_nat start := marker]> buffer)).

(** The header both writers format; the default is never taken. *)
Definition header_bytes (marker value : Z) : list Z :=
  default [] (format_header_into (replicate 23 0) marker value).

Definition extend (o : O) (bytes : list Z) : result Error O :=
  map_err ReqError.Write (try_extend o bytes).

(** The visits of [Writer::bulk]; an error stops the writing. *)
Fixpoint bulk_visit (declared : Z) (o : O) (current : Z) (chunks : list (list Z))
    : result Error (O * Z) :=
  match chunks with
  | [] => Ok (o, current)
  | chunk :: chunks =>
      match checked_usize (current + zlen chunk) with
      | None => Err (ReqError.Add current (zlen chunk))
      | Some actual =>
          if declared <? actual then Err (ReqError.BulkLength declared actual)
          else o ← extend o chunk; bulk_visit declared o actual chunks
      end
  end.

Definition write_bulk {P} {bulk : Bulk P} (o : O) (payload : P) : result Error O :=
  let declared := bulk_len payload in
  o ← extend o (header_bytes 36 declared);
  written ← bulk_visit declared o 0 (visit payload);
  let '(o, actual) := written in
  if negb (actual =? declared) then Err (ReqError.BulkLength declared actual)
  else extend o crlf.

Definition write_array (o : O) (count : Z) : result Error O := extend o (header_bytes 42 count).

Fixpoint write_bulks {P} {bulk : Bulk P} (o : O) (args : list P) : result Error O :=
  match args with
  | [] => Ok o
  | a :: args => o ← write_bulk o a; write_bulks o args
  end.

Fixpoint measure_bulks (l : Z) (lens : list Z) : result Error Z :=
  match lens with
  | [] => Ok l
  | n :: lens => l ← length_bulk l n; measure_bulks l lens
  end.

(** [Complete::encode] on an admitted output. *)
Definition complete_encode (o : O) (kind : Sensitivity.Sensitivity) (encode : O -> result Error O)
    : result Error Complete :=
  o ← encode o;
  if negb (remaining o =? 0) then Err (ReqError.Incomplete (remaining o))
  else
    match nonempty (into_parts o) with
    | Ok () => Ok {| frame := into_parts o; kind := kind |}
    | Err cause => Err (ReqError.Egress cause)
    end.

Definition admit_with (s : S) (length : Z) (kind : Sensitivity.Sensitivity)
    (encode : O -> result Error O) : result Error Complete :=
  match limit_from s length with
  | Err cause => Err (ReqError.Capacity cause)
  | Ok o => complete_encode o kind encode
  end.

(** [Encoder::encode]. *)
Definition encode (s : S) (prefix tail : list (list Z)) (kind : Sensitivity.Sensitivity)
    : result Error Complete :=
  count ← add_count (zlen prefix) (zlen tail);
  length ← length_array count;
  length ← measure_bulks length ((fun a => zlen a) <$> prefix ++ tail);
  admit_with s length kind (fun o =>
    o ← write_array o count; write_bulks o (prefix ++ tail)).

Definition command (s : S) (args : list (list Z)) : result Error Complete :=
  encode s args [] Sensitivity.Plain.

Definition secret (s : S) (prefix tail : list (list Z)) : result Error Complete :=
  encode s prefix tail Sensitivity.Secret.

Definition slices (s : S) (prefix tail : list (list Z)) : result Error Complete :=
  encode s prefix tail Sensitivity.Plain.

Definition range (s : S) (verb : list Z) (suffix : list (list Z)) (key : list Z) (start stop : Z)
    : result Error Complete :=
  slices s [verb; key; show_signed start; show_signed stop] suffix.

(** The measuring and the writing loop of [Encoder::sequence] over items that
    claim to be [declared] many, each of its values. *)
Fixpoint measure_items (declared actual l : Z) (items : list (list (list Z)))
    : result Error (Z * Z) :=
  match items with
  | [] => Ok (actual, l)
  | item :: items =>
      actual ← next_item declared actual;
      l ← measure_bulks l ((fun a => zlen a) <$> item);
      measure_items declared actual l items
  end.

Fixpoint write_items (declared actual : Z) (o : O) (items : list (list (list Z)))
    : result Error (Z * O) :=
  match items with
  | [] => Ok (actual, o)
  | item :: items =>
      actual ← next_item declared actual;
      o ← write_bulks o item;
      write_items declared actual o items
  end.

(** [Encoder::sequence] of items of [width] values: the iterator is cloned to measure the
    request before it is written, and an iterator yields what its clone yielded. *)
Definition sequence (s : S) (width : Z) (prefix : list (list Z)) (declared : Z)
    (items : list (list (list Z))) : result Error Complete :=
  count ← add_group_count (zlen prefix) declared width;
  length ← length_array count;
  length ← measure_bulks length ((fun a => zlen a) <$> prefix);
  measured ← measure_items declared 0 length items;
  let '(actual, length) := measured in
  _ ← check_items declared actual;
  admit_with s length Sensitivity.Plain (fun o =>
    o ← write_array o count;
    o ← write_bulks o prefix;
    written ← write_items declared 0 o items;
    let '(actual, o) := written in
    _ ← check_items declared actual;
    Ok o).

(** ** Scripts: [encode/write/script] *)

(** The widths of the keys and the arguments of an [EVAL] request. *)
Definition script_count (keys args : Z) : result Error Z :=
  variable ← add_count keys args; add_count 3 variable.

Definition script_start (script keys args : Z) : result Error Z :=
  count ← script_count keys args;
  l ← length_array count;
  l ← length_bulk l 4;
  l ← length_bulk l script;
  length_bulk l (number_digits keys).

Fixpoint lengths_loop (declared actual l : Z) (sizes : list Z) : result Error (Z * Z) :=
  match sizes with
  | [] => Ok (actual, l)
  | size :: sizes =>
      actual ← next_item declared actual;
      l ← length_bulk l size;
      lengths_loop declared actual l sizes
  end.

Definition lengths (l declared : Z) (sizes : list Z) : result Error Z :=
  r ← lengths_loop declared 0 l sizes;
  let '(actual, l) := r in
  _ ← check_items declared actual; Ok l.

(** [wire_len]: the public measure of a request. *)
Definition wire_len (script key_count : Z) (key_lengths : list Z) (argument_count : Z)
    (argument_lengths : list Z) : result Error Z :=
  l ← script_start script key_count argument_count;
  l ← lengths l key_count key_lengths;
  lengths l argument_count argument_lengths.

Section eval.
  Context {P : Type} {bulk : Bulk P}.

Definition script_length (script : list Z) (keys : list (list Z)) (args : list P) : result Error Z :=
  l ← script_start (zlen script) (zlen keys) (zlen args);
  l ← measure_bulks l ((fun k => zlen k) <$> keys);
  measure_bulks l (bulk_len <$> args).

Definition eval (o : O) (script : list Z) (keys : list (list Z)) (args : list P) : result Error O :=
  count ← script_count (zlen keys) (zlen args);
  o ← write_array o count;
  o ← write_bulk o (bytes_of "EVAL");
  o ← write_bulk o script;
  o ← write_bulk o (show (zlen keys));
  o ← write_bulks o keys;
  write_bulks o args.
End eval.

End encode.

(** ** Spellings *)

Definition bulk_text (p : list Z) : list Z := header 36 (show (zlen p)) ++ p ++ crlf.

#[global] Arguments bulk_text : simpl never.

Definition spelling (args : list (list Z)) : list Z :=
  header 42 (show (zlen args)) ++ concat (bulk_text <$> args).

Lemma show_length_value n : 0 <= n <= u64_max -> length_value (show n) (Length.Count n).
Proof. intros Hn. destruct (show_spec n Hn) as (Hd & Hv & Hne). left. by split_and!; [| |rewrite Hv|lia]. Qed.

Lemma wires_bulks args :
  Forall (fun p => zlen p <= u64_max) args -> wires (RBulk <$> args) (concat (bulk_text <$> args)).
Proof.
  induction 1 as [|p args Hp _ IH]; [constructor|]. 
  change (wires (RBulk p :: (RBulk <$> args)) (bulk_text p ++ concat (bulk_text <$> args))).
  apply wires_leaf; [|done].
  constructor. apply show_length_value. lia.
Qed.

(** A spelling is one array of bulks for the parser. *)
Lemma spelling_wires args :
  zlen args <= u64_max -> Forall (fun p => zlen p <= u64_max) args ->
  wires [RArray (RBulk <$> args)] (spelling args).
Proof.
  intros Hn Hp. unfold spelling. rewrite <- (app_nil_r (concat _)).
  constructor; [|by apply wires_bulks|constructor]. rewrite length_fmap.
  apply show_length_value. lia.
Qed.

Lemma length_bulk_text p :
  zlen p <= u64_max -> zlen (bulk_text p) = 5 + number_digits (zlen p) + zlen p.
Proof.
  intros Hp. unfold bulk_text, number_digits. lens. rewrite show_length by lia. lia.
Qed.

(** The marker overwrites the byte before the digits. *)
Lemma mark_last (pre rest : list Z) marker :
  pre <> [] ->
  drop (length pre - 1) (<[(length pre - 1)%nat := marker]> (pre ++ rest)) = marker :: rest.
Proof.
  intros Hne. destruct pre as [|b pre _] using rev_ind; [done|].
  rewrite length_app, <- app_assoc. simpl (length [b]). rewrite Nat.add_sub.
  rewrite insert_app_r_alt, Nat.sub_diag by done. by rewrite drop_app_length.
Qed.

(** The header buffer: a byte for the marker, twenty digits, the terminator. *)
Lemma header_bytes_spec marker value :
  0 <= value <= u64_max -> header_bytes marker value = header marker (show value).
Proof.
  intros Hv. unfold header_bytes, format_header_into.
  change (slice (replicate 23 0) 1 21) with (replicate 20 0).
  change (take 1 (replicate 23 0)) with [0].
  destruct (write_digits_loop_spec 20 (replicate 20 0) [] value) as (kept & E & [tl Hk] & Hlen);
    [done|lia..|].
  rewrite !app_nil_r in E.
  change (write_digits (replicate 20 0) value) with
    (write_digits_loop 20 (replicate 20 0) (zlen (replicate 20 0)) value).
  rewrite E. cbn [mbind option_bind default from_option id]. rewrite Nat2Z.id, <- app_assoc, app_assoc.
  replace (length kept) with (length ([0%Z] ++ kept) - 1)%nat by (simpl; lia).
  by rewrite mark_last.
Qed.

Section output.
  Context {S O X Y : Type} {output : Output S O X Y} {laws : OutputLaws S O X Y}.

Abbreviation Error := (ReqError.Error X Y).

(** ** What the writer appends *)

Definition wrote (o : O) (bs : list Z) (o' : O) : Prop :=
  remaining o' = remaining o - zlen bs /\ into_parts o' = into_parts o ++ bs.

Lemma wrote_app o1 o2 o3 bs cs : wrote o1 bs o2 -> wrote o2 cs o3 -> wrote o1 (bs ++ cs) o3.
Proof. intros [H1 H2] [H3 H4]. split; [lens; lia|by rewrite H4, H2, app_assoc]. Qed.

Lemma extend_Ok o bs : zlen bs <= remaining o -> exists o', extend o bs = Ok o' /\ wrote o bs o'.
Proof.
  intros Hb. destruct (extend_fits o bs Hb) as (o' & E & H1 & H2). exists o'. unfold extend.
  rewrite E. done.
Qed.

Lemma extend_inv o bs o' : extend o bs = Ok o' -> wrote o bs o'.
Proof.
  unfold extend. destruct (try_extend o bs) as [o1|x] eqn:E; [|done]. intros [= <-].
  destruct (extend_fits o bs) as (o2 & E2 & H); [by eapply extend_over|].
  rewrite E in E2. injection E2 as <-. done.
Qed.

(** The chunks that were visited are exactly the declared length. *)
Lemma bulk_visit_inv declared o current chunks o' actual :
  bulk_visit declared o current chunks = Ok (o', actual) ->
  wrote o (concat chunks) o' /\ actual = current + zlen (concat chunks).
Proof.
  revert o current. induction chunks as [|c chunks IH]; intros o current; cbn [bulk_visit concat].
  - intros [= <- <-]. split; [|simpl; lia]. split; [simpl; lia|by rewrite app_nil_r].
  - unfold checked_usize. destruct (checked _ _ _) as [n|] eqn:E; [|done].
    apply checked_Some in E as [-> _]. destruct (declared <? _); [done|].
    destruct (extend o c) as [o1|e] eqn:E1; [|done]. cbn [mbind result_bind].
    intros [H1 ->]%IH. split; [by eapply wrote_app; [apply extend_inv|]|]. lens. lia.
Qed.

Lemma write_bulk_inv {P} {bulk : Bulk P} o (p : P) o' :
  0 <= bulk_len p <= u64_max -> write_bulk o p = Ok o' ->
  zlen (concat (visit p)) = bulk_len p /\ wrote o (bulk_text (concat (visit p))) o'.
Proof.
  intros Hb. unfold write_bulk. destruct (extend o _) as [o1|] eqn:E1; [|done].
  cbn [mbind result_bind]. destruct (bulk_visit _ _ _ _) as [[o2 n]|] eqn:E2; [|done].
  apply bulk_visit_inv in E2 as [H2 ->]. cbn [mbind result_bind]. rewrite Z.add_0_l.
  destruct (Z.eqb_spec (zlen (concat (visit p))) (bulk_len p)) as [E|E]; [|done].
  intros E3. split; [done|]. rewrite header_bytes_spec in E1 by done. unfold bulk_text. rewrite E.
  eapply wrote_app; [by apply extend_inv|]. eapply wrote_app; [done|by apply extend_inv].
Qed.

Lemma bulk_visit_Ok declared o current chunks :
  zlen (concat chunks) <= remaining o -> 0 <= current -> declared <= u64_max ->
  current + zlen (concat chunks) <= declared ->
  exists o', bulk_visit declared o current chunks = Ok (o', current + zlen (concat chunks)) /\
    wrote o (concat chunks) o'.
Proof.
  revert o current. induction chunks as [|c chunks IH]; intros o current Hr Hc Hd Hle; cbn [bulk_visit concat] in *.
  { exists o. split; [simpl; do 2 f_equal; lia|]. split; [simpl; lia|by rewrite app_nil_r]. }
  lens. unfold checked_usize.
  replace (checked 0 u64_max (current + zlen c)) with (Some (current + zlen c))
    by (symmetry; apply checked_Some; lia).
  destruct (Z.ltb_spec declared (current + zlen c)); [lia|].
  destruct (extend_Ok o c) as (o1 & -> & H1 & H1'); [lia|]. cbn [mbind result_bind].
  destruct (IH o1 (current + zlen c)) as (o2 & -> & H2); [lia..|]. exists o2.
  split; [do 2 f_equal; lia|]. by eapply wrote_app; [split|].
Qed.

(** An honest payload is always written when there is room for its text. *)
Lemma write_bulk_Ok {P} {bulk : Bulk P} o (p : P) :
  zlen (concat (visit p)) = bulk_len p -> bulk_len p <= u64_max ->
  zlen (bulk_text (concat (visit p))) <= remaining o ->
  exists o', write_bulk o p = Ok o' /\ wrote o (bulk_text (concat (visit p))) o'.
Proof.
  intros Hl Hp Hr. unfold write_bulk. rewrite header_bytes_spec by lia.
  unfold bulk_text in *. rewrite Hl in *. lens.
  pose proof (length_header 36 (show (bulk_len p))) as Hh. pose proof length_crlf.
  destruct (extend_Ok o (header 36 (show (bulk_len p)))) as (o1 & -> & H1 & H1'); [lia|].
  cbn [mbind result_bind].
  destruct (bulk_visit_Ok (bulk_len p) o1 0 (visit p)) as (o2 & -> & H2 & H2'); [lia..|].
  cbn [mbind result_bind]. rewrite Z.add_0_l, Hl, Z.eqb_refl. cbn [negb].
  destruct (extend_Ok o2 crlf) as (o3 & -> & H3); [lia|]. exists o3. split; [done|].
  eapply wrote_app; [by split|]. eapply wrote_app; [by split|done].
Qed.

Lemma write_bulk_slice o (p : list Z) :
  zlen p <= u64_max -> zlen (bulk_text p) <= remaining o ->
  exists o', write_bulk o p = Ok o' /\ wrote o (bulk_text p) o'.
Proof.
  intros Hp Hr. pose proof (write_bulk_Ok o p) as H. cbn [visit slice_bulk concat bulk_len] in H.
  rewrite app_nil_r in H. by apply H.
Qed.

Lemma write_bulks_Ok {P} {bulk : Bulk P} o (args : list P) :
  Forall (fun a => zlen (concat (visit a)) = bulk_len a /\ bulk_len a <= u64_max) args ->
  zlen (concat (bulk_text <$> ((fun a => concat (visit a)) <$> args))) <= remaining o ->
  exists o', write_bulks o args = Ok o' /\
    wrote o (concat (bulk_text <$> ((fun a => concat (visit a)) <$> args))) o'.
Proof.
  intros Hp. revert o. induction Hp as [|p args [Hl Hp] _ IH]; intros o Hr.
  - exists o. split; [done|]. split; [simpl; lia|by rewrite app_nil_r].
  - rewrite !fmap_cons in *. cbn [concat write_bulks] in *. lens.
    destruct (write_bulk_Ok o p Hl Hp) as (o1 & -> & H1 & H1'); [lia|]. cbn [mbind result_bind].
    destruct (IH o1) as (o2 & -> & H2); [lia|].
    exists o2. split; [done|]. by eapply wrote_app; [split|].
Qed.

Lemma map_id_slices (l : list (list Z)) : (fun a : list Z => concat (visit a)) <$> l = l.
Proof. induction l as [|a l IH]; [done|]. rewrite fmap_cons, IH. simpl. by rewrite app_nil_r. Qed.

Lemma write_bulks_slices o (args : list (list Z)) :
  zlen (concat (bulk_text <$> args)) <= remaining o -> Forall (fun p => zlen p <= u64_max) args ->
  exists o', write_bulks o args = Ok o' /\ wrote o (concat (bulk_text <$> args)) o'.
Proof.
  intros Hr Hp. pose proof (write_bulks_Ok o args) as H. rewrite map_id_slices in H.
  apply H; [|done]. eapply Forall_impl; [exact Hp|]. intros a Ha. simpl. by rewrite app_nil_r.
Qed.

(** ** What the measure admits *)

(** The errors of measuring: a length beyond [i64], or a sum beyond [usize]. *)
Definition measure_error (lens : list Z) (e : Error) : Prop :=
  match e with
  | ReqError.Length a m => m = i64_max /\ i64_max < a /\ a ∈ lens
  | ReqError.Add l r => u64_max < l + r
  | _ => False
  end.

Lemma measure_error_weaken lens lens' e : lens ⊆ lens' -> measure_error lens e -> measure_error lens' e.
Proof. intros Hs. destruct e; simpl; try done. set_solver. Qed.

Lemma length_add_spec l n :
  0 <= l -> 0 <= n ->
  match length_add (X := X) (Y := Y) l n with
  | Ok l' => l' = l + n /\ l' <= u64_max
  | Err e => e = ReqError.Add l n /\ u64_max < l + n
  end.
Proof.
  intros Hl Hn. unfold length_add, checked_usize. destruct (checked 0 u64_max (l + n)) eqn:E.
  - apply checked_Some in E as [-> ?]. lia.
  - apply checked_None in E. split; [done|lia].
Qed.

Lemma length_bulk_spec l p :
  0 <= l ->
  match length_bulk (X := X) (Y := Y) l (zlen p) with
  | Ok l' => l' = l + zlen (bulk_text p) /\ l' <= u64_max /\ zlen p <= i64_max
  | Err e => measure_error [zlen p] e
  end.
Proof.
  intros Hl. unfold length_bulk, number_new. destruct (Z.ltb_spec i64_max (zlen p)).
  { cbn [mbind result_bind]. split_and!; [done|done|by apply list_elem_of_singleton]. }
  cbn [mbind result_bind]. rewrite length_bulk_text by lia. unfold number_digits.
  pose proof (show_length (zlen p) ltac:(lia)) as Hs. pose proof (show_length_bound (zlen p) ltac:(lia)).
  pose proof (length_add_spec l 5 Hl ltac:(lia)) as H1.
  destruct (length_add l 5) as [l1|e]; [|destruct H1 as [-> ?]; done]. destruct H1 as [-> H1].
  cbn [mbind result_bind].
  pose proof (length_add_spec (l + 5) (default 0 (checked_ilog10 (zlen p)) + 1) ltac:(lia) ltac:(lia)) as H2.
  destruct (length_add (l + 5) _) as [l2|e]; [|destruct H2 as [-> ?]; done]. destruct H2 as [-> H2].
  cbn [mbind result_bind].
  match goal with |- context [length_add ?a ?b] => pose proof (length_add_spec a b ltac:(lia) ltac:(lia)) as H3;
    destruct (length_add a b) end; [lia|destruct H3 as [-> ?]; done].
Qed.

Lemma measure_bulks_spec l args :
  0 <= l ->
  match measure_bulks (X := X) (Y := Y) l ((fun p => zlen p) <$> args) with
  | Ok l' => l' = l + zlen (concat (bulk_text <$> args)) /\ (args <> [] -> l' <= u64_max) /\
      Forall (fun p => zlen p <= i64_max) args
  | Err e => measure_error ((fun p => zlen p) <$> args) e
  end.
Proof.
  revert l. induction args as [|p args IH]; intros l Hl.
  { simpl. split_and!; [lia|done|constructor]. }
  rewrite !fmap_cons. cbn [measure_bulks concat].
  pose proof (length_bulk_spec l p Hl) as H1. destruct (length_bulk l (zlen p)) as [l1|e].
  2: { cbn [mbind result_bind]. eapply measure_error_weaken; [|done]. set_solver. }
  destruct H1 as (-> & Hb & Hp). cbn [mbind result_bind].
  specialize (IH (l + zlen (bulk_text p)) ltac:(lia)).
  destruct (measure_bulks _ _) as [l2|e].
  - destruct IH as (-> & H2 & H3). lens. split_and!; [lia| |by constructor].
    intros _. destruct args; [rewrite fmap_nil; cbn [concat length]; lia|]. by apply H2.
  - eapply measure_error_weaken; [|done]. set_solver.
Qed.

(** ** Complete frames *)

(** An encoder that writes exactly what was admitted completes. *)
Lemma admit_exact s bs kind (f : O -> result Error O) :
  (forall o, remaining o = zlen bs -> exists o', f o = Ok o' /\ wrote o bs o') ->
  match admit_with s (zlen bs) kind f with
  | Ok c => c = {| frame := bs; kind := kind |}
  | Err (ReqError.Capacity x) => limit_from s (zlen bs) = Err x
  | Err (ReqError.Egress y) => nonempty bs = Err y
  | Err _ => False
  end.
Proof.
  intros Hf. unfold admit_with. destruct (limit_from s (zlen bs)) as [o|x] eqn:E; [|done].
  apply limit_empty in E as [Hr Hp]. unfold complete_encode.
  destruct (Hf o Hr) as (o' & -> & Hr' & Hp'). cbn [mbind result_bind].
  rewrite Hr', Hr, Z.sub_diag. simpl. rewrite Hp', Hp. simpl.
  by destruct (nonempty bs) as [[]|y].
Qed.

(** A completed frame was admitted and fills its admission exactly. *)
Lemma admit_inv s n kind (f : O -> result Error O) c :
  admit_with s n kind f = Ok c ->
  exists o o', limit_from s n = Ok o /\ f o = Ok o' /\ remaining o' = 0 /\
    c = {| frame := into_parts o'; kind := kind |}.
Proof.
  unfold admit_with, complete_encode. destruct (limit_from s n) as [o|]; [|done].
  destruct (f o) as [o'|] eqn:Ef; [|done]. cbn [mbind result_bind].
  destruct (Z.eqb_spec (remaining o') 0); [|done]. simpl. destruct (nonempty _) as [[]|]; [|done].
  intros [= <-]. by exists o, o'.
Qed.

Lemma length_array_spec n :
  0 <= n ->
  match length_array (X := X) (Y := Y) n with
  | Ok l => l = zlen (header 42 (show n)) /\ n <= i64_max
  | Err e => measure_error [n] e
  end.
Proof.
  intros Hn. unfold length_array, number_new. destruct (Z.ltb_spec i64_max n); cbn [mbind result_bind].
  { split_and!; [done|done|by apply list_elem_of_singleton]. }
  unfold number_digits. pose proof (show_length n ltac:(lia)). pose proof (show_length_bound n ltac:(lia)).
  lens. unfold nonzero_succ. lia.
Qed.

Lemma write_array_Ok o n :
  0 <= n <= u64_max -> zlen (header 42 (show n)) <= remaining o ->
  exists o', write_array o n = Ok o' /\ wrote o (header 42 (show n)) o'.
Proof. intros Hn Hr. unfold write_array. rewrite header_bytes_spec by done. by apply extend_Ok. Qed.

Lemma usize_args (args : list (list Z)) :
  Forall (fun p => zlen p <= i64_max) args -> Forall (fun p => zlen p <= u64_max) args.
Proof. intros H. eapply Forall_impl; [exact H|]. simpl. lia. Qed.

(** The body of a request of [args] fills the room of its spelling. *)
Lemma write_spelling (args : list (list Z)) o :
  zlen args <= u64_max -> Forall (fun p => zlen p <= u64_max) args ->
  remaining o = zlen (spelling args) ->
  exists o', (o ← write_array o (zlen args); write_bulks o args) = Ok o' /\ wrote o (spelling args) o'.
Proof.
  intros Hn Hp Hr. unfold spelling in *. rewrite length_app, Nat2Z.inj_add in Hr.
  destruct (write_array_Ok o (zlen args)) as (o1 & -> & H1); [lia|lia|]. cbn [mbind result_bind].
  destruct H1 as [H1 H1']. destruct (write_bulks_slices o1 args) as (o2 & -> & H2); [lia|done|].
  exists o2. split; [done|]. by eapply wrote_app; [split|].
Qed.

(** A command is encoded as one array of its arguments as bulk strings, in
    order, whatever bytes they hold, and with the asked sensitivity; the measure
    is exact, so the encoder never runs out of the admitted room, never leaves
    any, and fails only when a length exceeds [i64], the total [usize], or the
    buffer refuses to admit or to hand over the frame. *)
Theorem encode_exact s (prefix tail : list (list Z)) k :
  let args := prefix ++ tail in
  match encode s prefix tail k with
  | Ok c => kind c = k /\ wires [RArray (RBulk <$> args)] (frame c) /\ frame c = spelling args
  | Err (ReqError.Capacity x) => limit_from s (zlen (spelling args)) = Err x
  | Err (ReqError.Egress y) => nonempty (spelling args) = Err y
  | Err e => measure_error (zlen args :: ((fun p => zlen p) <$> args)) e
  end.
Proof.
  intros args. unfold encode, add_count, checked_usize.
  destruct (checked 0 u64_max (zlen prefix + zlen tail)) as [n|] eqn:En.
  2: { apply checked_None in En. simpl. lia. }
  apply checked_Some in En as [-> Hn]. cbn [mbind result_bind]. rewrite <- Nat2Z.inj_add, <- length_app.
  fold args. pose proof (length_array_spec (zlen args) ltac:(lia)) as Hl.
  destruct (length_array (zlen args)) as [l|e].
  2: { cbn [mbind result_bind]. destruct e; simpl in Hl |- *; try done. set_solver. }
  destruct Hl as [-> Hn']. cbn [mbind result_bind].
  pose proof (measure_bulks_spec (zlen (header 42 (show (zlen args)))) args ltac:(lia)) as Hm.
  destruct (measure_bulks _ _) as [l|e].
  2: { cbn [mbind result_bind]. destruct e; simpl in Hm |- *; try done. set_solver. }
  destruct Hm as (-> & _ & Hp). cbn [mbind result_bind]. apply usize_args in Hp.
  rewrite <- Nat2Z.inj_add, <- length_app. change (header 42 _ ++ concat _) with (spelling args).
  pose proof (admit_exact s (spelling args) k _
    (fun o => write_spelling args o ltac:(lia) Hp)) as Ha.
  destruct (admit_with _ _ _ _) as [c|[]]; try done. rewrite Ha.
  split_and!; [done| |done]. apply spelling_wires; [lia|done].
Qed.

(** ** Sequences of items *)

Lemma next_item_spec declared actual :
  0 <= actual <= declared ->
  match next_item (X := X) (Y := Y) declared actual with
  | Ok a => a = actual + 1 /\ a <= declared
  | Err (ReqError.Items d a) => d = declared /\ a = declared + 1 /\ actual = declared
  | Err (ReqError.Add l r) => u64_max < l + r /\ u64_max <= actual
  | Err e => False
  end.
Proof.
  intros Ha. unfold next_item, add_count, checked_usize.
  destruct (checked 0 u64_max (actual + 1)) as [n|] eqn:E; cbn [mbind result_bind].
  - apply checked_Some in E as [-> ?]. destruct (Z.ltb_spec declared (actual + 1)); lia.
  - apply checked_None in E. simpl. lia.
Qed.

Lemma measure_items_spec declared items actual l :
  0 <= actual <= declared -> 0 <= l ->
  match measure_items (X := X) (Y := Y) declared actual l items with
  | Ok (a, l') => a = actual + zlen items /\ a <= declared /\
      l' = l + zlen (concat (bulk_text <$> concat items)) /\
      Forall (fun p => zlen p <= i64_max) (concat items)
  | Err (ReqError.Items d a) => d = declared /\ a = declared + 1 /\ declared < actual + zlen items
  | Err e => measure_error ((fun p => zlen p) <$> concat items) e
  end.
Proof.
  revert actual l. induction items as [|it items IH]; intros actual l Ha Hl.
  { simpl. split_and!; [lia|lia|lia|constructor]. }
  cbn [measure_items concat length]. pose proof (next_item_spec declared actual Ha) as Hn.
  destruct (next_item declared actual) as [n|e]; cbn [mbind result_bind].
  2: { destruct e; simpl in Hn |- *; try done; [tauto|]. destruct Hn as (-> & -> & ->). lia. }
  destruct Hn as [-> Hn]. pose proof (measure_bulks_spec l it Hl) as Hm.
  destruct (measure_bulks _ _) as [l1|e]; cbn [mbind result_bind].
  2: { rewrite fmap_app. destruct e; simpl in Hm |- *; try done. set_solver. }
  destruct Hm as (-> & _ & Hp). rewrite !fmap_app, concat_app. lens.
  specialize (IH (actual + 1) (l + zlen (concat (bulk_text <$> it))) ltac:(lia) ltac:(lia)).
  destruct (measure_items _ _ _ _) as [[a l']|e].
  - destruct IH as (-> & H2 & -> & H4). split_and!; try lia. by apply Forall_app.
  - destruct e; try done; [simpl in *; set_solver|lia].
Qed.

Lemma write_items_Ok declared items actual o :
  0 <= actual -> actual + zlen items <= declared -> declared <= u64_max ->
  Forall (fun p => zlen p <= u64_max) (concat items) ->
  zlen (concat (bulk_text <$> concat items)) <= remaining o ->
  exists o', write_items declared actual o items = Ok (actual + zlen items, o') /\
    wrote o (concat (bulk_text <$> concat items)) o'.
Proof.
  revert actual o. induction items as [|it items IH]; intros actual o Ha Hd Hu Hp Hr.
  { exists o. simpl. rewrite Z.add_0_r. split; [done|]. split; [simpl; lia|by rewrite app_nil_r]. }
  cbn [write_items concat length] in *. rewrite fmap_app, concat_app in *. lens.
  apply Forall_app in Hp as [Hp1 Hp2].
  pose proof (next_item_spec declared actual ltac:(lia)) as Hn.
  destruct (next_item declared actual) as [n|e]; cbn [mbind result_bind].
  2: { destruct e; simpl in Hn; try done; lia. }
  destruct Hn as [-> _]. destruct (write_bulks_slices o it) as (o1 & -> & H1); [lia|done|].
  cbn [mbind result_bind]. destruct H1 as [H1 H1'].
  destruct (IH (actual + 1) o1) as (o2 & -> & H2); [lia|lia|done|done|lia|].
  exists o2. split; [do 2 f_equal; lia|]. by eapply wrote_app; [split|].
Qed.

Lemma check_items_eq n : check_items (X := X) (Y := Y) n n = Ok ().
Proof. unfold check_items. by rewrite Z.eqb_refl. Qed.

Lemma check_items_ne declared actual :
  actual <> declared -> check_items (X := X) (Y := Y) declared actual = Err (ReqError.Items declared actual).
Proof. intros H. unfold check_items. by destruct (Z.eqb_spec actual declared). Qed.

Lemma length_items (items : list (list (list Z))) width :
  Forall (fun it => zlen it = width) items -> zlen (concat items) = zlen items * width.
Proof. induction 1; simpl; [lia|]. rewrite length_app. lia. Qed.

(** A sequence is encoded as one array of its prefix and the values of its
    items, and only when there are as many items as declared: an iterator that
    yields another number of them is refused before anything is admitted, with
    the number where it departs from the declaration. *)
Theorem sequence_exact s width prefix declared items :
  0 < width -> 0 <= declared <= u64_max -> Forall (fun it => zlen it = width) items ->
  let args := prefix ++ concat items in
  match sequence s width prefix declared items with
  | Ok c => zlen items = declared /\ wires [RArray (RBulk <$> args)] (frame c) /\
      frame c = spelling args
  | Err (ReqError.Items d a) => d = declared /\ zlen items <> declared /\
      a = Z.min (zlen items) (declared + 1)
  | Err (ReqError.Mul l r) => l = declared /\ r = width /\ u64_max < declared * width
  | Err (ReqError.Capacity x) => zlen items = declared /\ limit_from s (zlen (spelling args)) = Err x
  | Err (ReqError.Egress y) => zlen items = declared /\ nonempty (spelling args) = Err y
  | Err e => measure_error (zlen prefix + declared * width :: ((fun p => zlen p) <$> args)) e
  end.
Proof.
  intros Hw Hd Hit args. unfold sequence, add_group_count, checked_usize.
  destruct (checked 0 u64_max (declared * width)) as [m|] eqn:Em.
  2: { apply checked_None in Em. cbn [mbind result_bind]. split_and!; [done..|nia]. }
  apply checked_Some in Em as [-> Hm]. unfold add_count, checked_usize.
  destruct (checked 0 u64_max (zlen prefix + declared * width)) as [n|] eqn:En; cbn [mbind result_bind].
  2: { apply checked_None in En. simpl. lia. }
  apply checked_Some in En as [-> Hn]. pose proof (length_array_spec (zlen prefix + declared * width) ltac:(lia)) as Hl.
  destruct (length_array _) as [l|e]; cbn [mbind result_bind].
  2: { destruct e; simpl in Hl |- *; try done. set_solver. }
  destruct Hl as [-> Hn'].
  set (h := header 42 (show (zlen prefix + declared * width))).
  pose proof (measure_bulks_spec (zlen h) prefix ltac:(lia)) as Hp.
  destruct (measure_bulks _ _) as [l|e]; cbn [mbind result_bind].
  2: { unfold args. rewrite fmap_app. destruct e; simpl in Hp |- *; try done. set_solver. }
  destruct Hp as (-> & _ & Hp).
  pose proof (measure_items_spec declared items 0 (zlen h + zlen (concat (bulk_text <$> prefix)))
    ltac:(lia) ltac:(lia)) as Hi.
  destruct (measure_items _ _ _ _) as [[a l]|e]; cbn [mbind result_bind].
  2: { unfold args. rewrite fmap_app. destruct e; simpl in Hi |- *; try done; [set_solver|lia]. }
  destruct Hi as (-> & Ha & -> & Hq). rewrite Z.add_0_l in *.
  destruct (Z.eq_dec (zlen items) declared) as [Ed|Ed].
  2: { rewrite check_items_ne by done. cbn [mbind result_bind]. split_and!; [done|done|lia]. }
  rewrite Ed, check_items_eq. cbn [mbind result_bind].
  assert (zlen prefix + declared * width = zlen args) as Ec
    by (unfold args; lens; rewrite (length_items items width Hit), Ed; lia).
  assert (Forall (fun p => zlen p <= u64_max) args) as Hall.
  { apply usize_args. unfold args. by apply Forall_app. }
  assert (zlen h + zlen (concat (bulk_text <$> prefix)) + zlen (concat (bulk_text <$> concat items)) =
    zlen (spelling args)) as El.
  { unfold spelling, args, h. rewrite Ec, fmap_app, concat_app. unfold args. lens. lia. }
  rewrite El. 
  match goal with |- context [admit_with s _ _ ?f] => set (enc := f) end.
  assert (forall o, remaining o = zlen (spelling args) ->
    exists o', enc o = Ok o' /\ wrote o (spelling args) o') as Hf.
  { intros o Hr. unfold enc. rewrite <- El in Hr.
    destruct (write_array_Ok o (zlen prefix + declared * width)) as (o1 & -> & H1 & H1'); [lia|unfold h in *; lia|].
    cbn [mbind result_bind]. destruct (write_bulks_slices o1 prefix) as (o2 & -> & H2 & H2');
      [unfold h in *; lia|by apply Forall_app in Hall as [? _]|]. cbn [mbind result_bind].
    destruct (write_items_Ok declared items 0 o2) as (o3 & -> & H3 & H3');
      [lia|lia|lia|by apply Forall_app in Hall as [_ ?]|unfold h in *; lia|].
    cbn [mbind result_bind]. rewrite Z.add_0_l, Ed, check_items_eq.
    cbn [mbind result_bind]. exists o3. split; [done|]. split; [unfold h in *; lia|].
    unfold spelling, args. rewrite H3', H2', H1', fmap_app, concat_app, <- !app_assoc.
    fold args. by rewrite Ec. }
  pose proof (admit_exact s (spelling args) Sensitivity.Plain enc Hf) as Ha'.
  destruct (admit_with _ _ _ _) as [c|[]]; try done. rewrite Ha'.
  split_and!; [done| |done]. apply spelling_wires; [lia|done].
Qed.

(** ** Scripts *)

Lemma write_bulks_inv {P} {bulk : Bulk P} o (args : list P) o' :
  Forall (fun a => 0 <= bulk_len a <= u64_max) args -> write_bulks o args = Ok o' ->
  Forall (fun a => zlen (concat (visit a)) = bulk_len a) args /\
  wrote o (concat (bulk_text <$> ((fun a => concat (visit a)) <$> args))) o'.
Proof.
  intros Hb. revert o. induction Hb as [|a args Ha _ IH]; intros o; cbn [write_bulks].
  - intros [= <-]. split; [constructor|]. split; [simpl; lia|by rewrite app_nil_r].
  - destruct (write_bulk o a) as [o1|] eqn:E; [|done]. cbn [mbind result_bind].
    intros [H1 H2]%IH. apply write_bulk_inv in E as [E1 E2]; [|done].
    split; [by constructor|]. rewrite !fmap_cons. by eapply wrote_app.
Qed.

Definition written_error (e : Error) : Prop :=
  match e with ReqError.Capacity _ | ReqError.Egress _ => False | _ => True end.

Lemma extend_error o bs e : extend o bs = Err e -> written_error e.
Proof. unfold extend. destruct (try_extend o bs); simpl; [done|by intros [= <-]]. Qed.

Lemma bulk_visit_error declared o current chunks e :
  bulk_visit declared o current chunks = Err e -> written_error e.
Proof.
  revert o current. induction chunks as [|c chunks IH]; intros o current; cbn [bulk_visit]; [done|].
  destruct (checked_usize _); [|by intros [= <-]]. destruct (declared <? _); [by intros [= <-]|].
  destruct (extend o c) eqn:E; cbn [mbind result_bind]; [apply IH|].
  intros [= <-]. by eapply extend_error.
Qed.

Lemma write_bulk_error {P} {bulk : Bulk P} o (p : P) e : write_bulk o p = Err e -> written_error e.
Proof.
  unfold write_bulk. destruct (extend o _) eqn:E; cbn [mbind result_bind].
  2: { intros [= <-]. by eapply extend_error. }
  destruct (bulk_visit _ _ _ _) as [[o2 n]|] eqn:E2; cbn [mbind result_bind].
  2: { intros [= <-]. by eapply bulk_visit_error. }
  destruct (negb _); [by intros [= <-]|]. apply extend_error.
Qed.

Lemma write_bulks_error {P} {bulk : Bulk P} o (args : list P) e :
  write_bulks o args = Err e -> written_error e.
Proof.
  revert o. induction args as [|a args IH]; intros o; cbn [write_bulks]; [done|].
  destruct (write_bulk o a) eqn:E; cbn [mbind result_bind]; [apply IH|].
  intros [= <-]. by eapply write_bulk_error.
Qed.

Lemma script_count_error keys args (e : Error) : script_count keys args = Err e -> written_error e.
Proof.
  unfold script_count, add_count. destruct (checked_usize _); cbn [mbind result_bind]; [|by intros [= <-]].
  destruct (checked_usize _); [done|by intros [= <-]].
Qed.

Section script.
  Context {P : Type} {bulk : Bulk P} (script : list Z) (keys : list (list Z)) (args : list P).

(** The arguments of the [EVAL] command. *)
Definition script_args : list (list Z) :=
  bytes_of "EVAL" :: script :: show (zlen keys) :: keys ++ ((fun a => concat (visit a)) <$> args).

Lemma script_texts :
  concat (bulk_text <$> script_args) =
  bulk_text (bytes_of "EVAL") ++ bulk_text script ++ bulk_text (show (zlen keys)) ++
  concat (bulk_text <$> keys) ++ concat (bulk_text <$> ((fun a => concat (visit a)) <$> args)).
Proof. unfold script_args. by rewrite !fmap_cons, !fmap_app, <- concat_app. Qed.

(** Lengths are machine words. *)
Definition script_wf : Prop :=
  zlen script <= u64_max /\ Forall (fun k => zlen k <= u64_max) keys /\
  Forall (fun a => 0 <= bulk_len a <= u64_max) args.

(** The arguments keep their word. *)
Definition honest : Prop := Forall (fun a => zlen (concat (visit a)) = bulk_len a) args.

(** What completes was written in full. *)
Lemma eval_inv o o' :
  script_wf -> zlen script_args <= u64_max -> eval o script keys args = Ok o' ->
  honest /\ wrote o (spelling script_args) o'.
Proof.
  intros (Hs & Hk & Ha) Hcount He. unfold eval in He.
  destruct (script_count _ _) as [count|] eqn:Ec; [|done]. cbn [mbind result_bind] in He.
  assert (count = zlen script_args) as ->.
  { unfold script_count, add_count, checked_usize in Ec.
    destruct (checked _ _ _) as [n|] eqn:E1; [|done]. apply checked_Some in E1 as [-> _].
    cbn [mbind result_bind] in Ec. destruct (checked _ _ (3 + _)) as [n|] eqn:E2; [|done].
    apply checked_Some in E2 as [-> _]. injection Ec as <-. unfold script_args. cbn [length].
    rewrite length_app, length_fmap. lia. }
  assert (zlen keys <= u64_max) as Hn.
  { unfold script_args in Hcount. cbn [length] in Hcount. rewrite length_app in Hcount. lia. }
  destruct (write_array o _) as [o1|] eqn:E1; [|done]. cbn [mbind result_bind] in He.
  destruct (write_bulk o1 (bytes_of "EVAL")) as [o2|] eqn:E2; [|done]. cbn [mbind result_bind] in He.
  destruct (write_bulk o2 script) as [o3|] eqn:E3; [|done]. cbn [mbind result_bind] in He.
  destruct (write_bulk o3 (show _)) as [o4|] eqn:E4; [|done]. cbn [mbind result_bind] in He.
  destruct (write_bulks o4 keys) as [o5|] eqn:E5; [|done]. cbn [mbind result_bind] in He.
  pose proof (show_length_bound (zlen keys) ltac:(lia)) as Hd.
  apply extend_inv in E1. rewrite header_bytes_spec in E1 by lia.
  apply write_bulk_inv in E2 as [_ E2]; [|by simpl]. apply write_bulk_inv in E3 as [_ E3]; [|simpl; lia].
  apply write_bulk_inv in E4 as [_ E4]; [|simpl; lia].
  apply write_bulks_inv in E5 as [_ E5]; [|eapply Forall_impl; [exact Hk|]; simpl; lia].
  apply write_bulks_inv in He as [Hlen He]; [|done]. split; [done|].
  unfold spelling. eapply wrote_app; [exact E1|]. rewrite script_texts, !map_id_slices in *.
  cbn [visit slice_bulk concat] in *. rewrite app_nil_r in *.
  eapply wrote_app; [exact E2|]. eapply wrote_app; [exact E3|]. eapply wrote_app; [exact E4|].
  eapply wrote_app; [exact E5|exact He].
Qed.

Lemma script_count_Ok :
  zlen script_args <= u64_max ->
  script_count (X := X) (Y := Y) (zlen keys) (zlen args) = Ok (zlen script_args).
Proof.
  unfold script_args. cbn [length]. rewrite length_app, length_fmap. intros Hn.
  unfold script_count, add_count, checked_usize.
  replace (checked 0 u64_max (zlen keys + zlen args)) with (Some (zlen keys + zlen args))
    by (symmetry; apply checked_Some; lia).
  cbn [mbind result_bind].
  replace (checked 0 u64_max (3 + _)) with (Some (3 + (zlen keys + zlen args)))
    by (symmetry; apply checked_Some; lia).
  f_equal. lia.
Qed.

(** Honest arguments are written in the room of the spelling. *)
Lemma eval_Ok o :
  script_wf -> zlen script_args <= u64_max -> honest -> remaining o = zlen (spelling script_args) ->
  exists o', eval o script keys args = Ok o' /\ wrote o (spelling script_args) o'.
Proof.
  intros Hwf Hcount Hh Hr. assert (exists o', eval o script keys args = Ok o') as [o' E].
  2: { exists o'. split; [done|]. by apply eval_inv. }
  destruct Hwf as (Hs & Hk & Ha). unfold eval. rewrite script_count_Ok by exact Hcount. cbn [mbind result_bind].
  assert (zlen keys <= u64_max) as Hn.
  { unfold script_args in Hcount. cbn [length] in Hcount. rewrite length_app in Hcount. lia. }
  pose proof (show_length_bound (zlen keys) ltac:(lia)) as Hd.
  unfold spelling in Hr. rewrite script_texts, !length_app, !Nat2Z.inj_add in Hr.
  destruct (write_array_Ok o (zlen script_args)) as (o1 & -> & H1 & _); [lia|lia|]. cbn [mbind result_bind].
  destruct (write_bulk_slice o1 (bytes_of "EVAL")) as (o2 & -> & H2 & _); [done|lia|].
  cbn [mbind result_bind].
  destruct (write_bulk_slice o2 script) as (o3 & -> & H3 & _); [lia|lia|]. cbn [mbind result_bind].
  destruct (write_bulk_slice o3 (show (zlen keys))) as (o4 & -> & H4 & _); [lia|lia|].
  cbn [mbind result_bind].
  destruct (write_bulks_slices o4 keys) as (o5 & -> & H5 & _); [lia|done|]. cbn [mbind result_bind].
  destruct (write_bulks_Ok o5 args) as (o6 & -> & H6); [|lia|by eexists].
  unfold honest in Hh. rewrite Forall_forall in *. intros a Hin.
  specialize (Ha a Hin). specialize (Hh a Hin). simpl in *. lia.
Qed.

(** The measure up to the keys. *)
Lemma script_start_spelling l :
  zlen script_args <= u64_max -> zlen keys <= u64_max ->
  script_start (X := X) (Y := Y) (zlen script) (zlen keys) (zlen args) = Ok l ->
  l = zlen (header 42 (show (zlen script_args))) + zlen (bulk_text (bytes_of "EVAL")) +
    zlen (bulk_text script) + zlen (bulk_text (show (zlen keys))).
Proof.
  intros Hcount Hn H. unfold script_start in H. rewrite script_count_Ok in H by exact Hcount.
  apply bind_Ok in H as (n & <-%Ok_inj & H).
  pose proof (length_array_spec (zlen script_args) ltac:(lia)) as H0.
  apply bind_Ok in H as (l0 & E0 & H). rewrite E0 in H0. destruct H0 as [-> _].
  pose proof (length_bulk_spec (zlen (header 42 (show (zlen script_args)))) (bytes_of "EVAL") ltac:(lia)) as H1.
  assert (zlen (bytes_of "EVAL") = 4) as E4 by reflexivity. rewrite E4 in H1.
  apply bind_Ok in H as (l1 & E1 & H). rewrite E1 in H1. destruct H1 as [-> _].
  apply bind_Ok in H as (l2 & E2 & H). 
  match type of E2 with length_bulk ?l _ = _ => pose proof (length_bulk_spec l script ltac:(lia)) as H2 end.
  rewrite E2 in H2. destruct H2 as [-> _].
  unfold number_digits in H. rewrite <- show_length in H by lia.
  match type of H with length_bulk ?l _ = _ =>
    pose proof (length_bulk_spec l (show (zlen keys)) ltac:(lia)) as H3 end.
  rewrite H in H3. exact (proj1 H3).
Qed.

(** The measure of a script is that of its spelling. *)
Lemma script_length_spelling len :
  zlen script_args <= u64_max -> honest ->
  script_length (X := X) (Y := Y) script keys args = Ok len -> len = zlen (spelling script_args).
Proof.
  intros Hcount Hh. unfold script_length.
  assert (zlen keys <= u64_max) as Hn.
  { unfold script_args in Hcount. cbn [length] in Hcount. rewrite length_app in Hcount. lia. }
  destruct (script_start _ _ _) as [l|] eqn:E; cbn [mbind result_bind]; [|discriminate].
  apply script_start_spelling in E; [|done..].
  pose proof (measure_bulks_spec l keys ltac:(lia)) as H4.
  destruct (measure_bulks _ _) as [l4|]; [|discriminate]. destruct H4 as [-> _]. cbn [mbind result_bind].
  assert (bulk_len <$> args = (fun p => zlen p) <$> ((fun a => concat (visit a)) <$> args)) as ->.
  { rewrite <- list_fmap_compose. apply list_fmap_ext. intros i a Hi. simpl.
    unfold honest in Hh. rewrite Forall_forall in Hh. symmetry. apply Hh. by eapply list_elem_of_lookup_2. }
  match goal with |- measure_bulks ?l (_ <$> ?b) = _ -> _ => pose proof (measure_bulks_spec l b ltac:(lia)) as H5 end.
  destruct (measure_bulks _ _) as [l5|]; [|discriminate]. destruct H5 as [-> _]. intros <-%Ok_inj.
  unfold spelling. rewrite script_texts, E, !length_app. lia.
Qed.

(** Writing has errors of its own. *)
Lemma eval_error o e : eval o script keys args = Err e -> written_error e.
Proof.
  unfold eval. intros [H|(n & _ & H)]%bind_Err; [by apply script_count_error in H|].
  apply bind_Err in H as [H|(o1 & _ & H)]; [by apply extend_error in H|].
  do 3 (apply bind_Err in H as [H|(? & _ & H)]; [by apply write_bulk_error in H|]).
  apply bind_Err in H as [H|(o5 & _ & H)]; by apply write_bulks_error in H.
Qed.

(** A script request that completes spells one array of [EVAL], the script,
    the number of keys, the keys and the payloads of the arguments, exactly as
    long as it was measured. An argument whose chunks do not add up to its
    declared length never gets out, and honest ones fail only when the buffer
    refuses the frame. *)
Theorem eval_exact s len kind :
  script_wf -> zlen script_args <= u64_max ->
  script_length (X := X) (Y := Y) script keys args = Ok len ->
  match admit_with s len kind (fun o => eval o script keys args) with
  | Ok c => honest /\ wires [RArray (RBulk <$> script_args)] (frame c) /\ zlen (frame c) = len
  | Err (ReqError.Capacity x) => limit_from s len = Err x
  | Err (ReqError.Egress _) => honest
  | Err _ => ~ honest
  end.
Proof.
  intros Hwf Hn Hl. destruct (admit_with _ _ _ _) as [c|e] eqn:Ea.
  - apply admit_inv in Ea as (o & o' & Hlim & He & Hr & ->). apply limit_empty in Hlim as [Hr0 Hp0].
    destruct (eval_inv o o' Hwf Hn He) as [Hh [Hw1 Hw2]]. cbn [frame]. rewrite Hw2, Hp0. simpl app.
    split_and!; [done| |lia]. apply spelling_wires; [done|].
    destruct Hwf as (Hs & Hk & Ha). pose proof (show_length_bound (zlen keys)) as Hd.
    unfold script_args in *. cbn [length] in Hn. rewrite length_app in Hn.
    constructor; [simpl; lia|]. constructor; [lia|].
    constructor; [lia|]. apply Forall_app. split; [done|]. apply Forall_fmap. unfold honest in Hh.
    rewrite Forall_forall in *. intros a Hin. simpl. rewrite Hh by done. specialize (Ha a Hin). simpl in Ha. lia.
  - assert (honest -> match e with ReqError.Capacity _ | ReqError.Egress _ => True | _ => False end) as Hok.
    { intros Hh. pose proof (script_length_spelling len Hn Hh Hl) as ->.
      pose proof (admit_exact s (spelling script_args) kind _ (fun o => eval_Ok o Hwf Hn Hh)) as H.
      rewrite Ea in H. by destruct e. }
    revert Ea. unfold admit_with. destruct (limit_from s len) as [o|x] eqn:El; [|by intros [= <-]].
    unfold complete_encode. destruct (eval o script keys args) as [o'|e'] eqn:Ee; cbn [mbind result_bind].
    + destruct (eval_inv o o' Hwf Hn Ee) as [Hh _]. destruct (negb _); [intros [= <-]; by apply Hok in Hh|].
      destruct (nonempty _) as [[]|]; [done|]. by intros [= <-].
    + intros [= <-]. apply eval_error in Ee. by destruct e'.
Qed.

End script.
End output.

(** ** Witnesses *)

(** A span of a given capacity; an empty frame is refused. *)
#[export] Instance list_output : Output Z (Z * list Z) () () := {|
  limit_from capacity n := if n <=? capacity then Ok (n, []) else Err ();
  try_extend o bs := if zlen bs <=? o.1 then Ok (o.1 - zlen bs, o.2 ++ bs) else Err ();
  remaining o := o.1;
  into_parts o := o.2;
  nonempty bs := match bs with [] => Err () | _ => Ok () end |}.

#[export] Instance list_output_laws : OutputLaws Z (Z * list Z) () ().
Proof.
  split; simpl.
  - intros s n o. destruct (_ <=? _); [|done]. by intros [= <-].
  - intros [r l] bs. simpl. intros H. destruct (Z.leb_spec (zlen bs) r); [|lia]. by eexists.
  - intros [r l] bs o'. simpl. destruct (Z.leb_spec (zlen bs) r); [done|discriminate].
Qed.

Lemma encode_exact_witness :
  encode 64 [bytes_of "GET"] [bytes_of "k"] Sensitivity.Plain =
    Ok {| frame := header 42 (bytes_of "2") ++ header 36 (bytes_of "3") ++ bytes_of "GET" ++ crlf ++
            header 36 (bytes_of "1") ++ bytes_of "k" ++ crlf; kind := Sensitivity.Plain |} /\
  wires [RArray [RBulk (bytes_of "GET"); RBulk (bytes_of "k")]]
    (spelling [bytes_of "GET"; bytes_of "k"]).
Proof.
  pose proof (encode_exact 64 [bytes_of "GET"] [bytes_of "k"] Sensitivity.Plain) as H.
  cbv zeta in H.
  destruct (encode 64 [bytes_of "GET"] [bytes_of "k"] Sensitivity.Plain) as [c|e] eqn:E.
  - destruct H as (_ & H1 & H2). rewrite H2 in H1. split; [|exact H1]. rewrite <- E. vm_compute. reflexivity.
  - vm_compute in E. discriminate E.
Defined.

Lemma sequence_exact_witness :
  exists c, sequence 64 2 [bytes_of "MSET"] 1 [[bytes_of "k"; bytes_of "v"]] = Ok c /\
    wires [RArray [RBulk (bytes_of "MSET"); RBulk (bytes_of "k"); RBulk (bytes_of "v")]] (frame c).
Proof.
  pose proof (sequence_exact 64 2 [bytes_of "MSET"] 1 [[bytes_of "k"; bytes_of "v"]]
    ltac:(lia) ltac:(lia) ltac:(by repeat constructor)) as H. cbv zeta in H.
  destruct (sequence 64 2 [bytes_of "MSET"] 1 [[bytes_of "k"; bytes_of "v"]]) as [c|e] eqn:E.
  - exists c. split; [reflexivity|]. exact (proj1 (proj2 H)).
  - vm_compute in E. discriminate E.
Defined.

(** A payload in two chunks, of declared length three. *)
#[export] Instance pair_bulk : Bulk (list Z * list Z) := {| bulk_len _ := 3; visit p := [p.1; p.2] |}.

Lemma eval_exact_witness :
  (exists c, admit_with 64 44 Sensitivity.Plain
      (fun o => eval o (bytes_of "s") [bytes_of "k"] [(bytes_of "a", bytes_of "bc")]) = Ok c /\
    zlen (frame c) = 44) /\
  match admit_with 64 44 Sensitivity.Plain
    (fun o => eval o (bytes_of "s") [bytes_of "k"] [(bytes_of "a", bytes_of "b")]) with
  | Err (ReqError.BulkLength d a) => d = 3 /\ a = 2
  | _ => False
  end.
Proof.
  split; [|vm_compute; by split].
  pose proof (eval_exact (bytes_of "s") [bytes_of "k"] [(bytes_of "a", bytes_of "bc")] 64 44
    Sensitivity.Plain) as H.
  destruct (admit_with 64 44 Sensitivity.Plain
    (fun o => eval o (bytes_of "s") [bytes_of "k"] [(bytes_of "a", bytes_of "bc")])) as [c|e] eqn:E.
  - exists c. split; [reflexivity|]. apply H; [|vm_compute; discriminate|vm_compute; reflexivity].
    split_and!; [vm_compute; discriminate|..]; repeat constructor; vm_compute; discriminate.
  - vm_compute in E. discriminate E.
Defined.
