(* ===== verification/RespCommands.v ===== *)
(** * The Redis commands

    Models [redis/src/client/ops/commands] and [redis/src/request/encode/write]:
    every command is the argument vector it hands to the encoder. Numbers are
    decimal text; floats are bit patterns, their finite text being that of the
    shortest-float library. Empty argument slices are excluded by their type. *)
From S2P Require Import Prelude CoreText RespLimit RespPool RespGrammar RespRequest.

(** What a command asks the encoder: slices after a prefix, or a declared number
    of items of a width. *)
Inductive Request :=
| Slices (kind : Sensitivity.Sensitivity) (prefix tail : list (list Z))
| Sequence (width : Z) (prefix : list (list Z)) (declared : Z) (items : list (list (list Z))).

Definition plain (args : list (list Z)) : Request := Slices Sensitivity.Plain args [].

Definition plain_slices (prefix tail : list (list Z)) : Request := Slices Sensitivity.Plain prefix tail.

Definition request_range (verb : list Z) (suffix : list (list Z)) (key : list Z) (start stop : Z)
    : Request :=
  plain_slices [verb; key; show_signed start; show_signed stop] suffix.

Definition request_scan (prefix : list (list Z)) (cursor : Z) (pattern : option (list Z))
    (count : option Z) : Request :=
  match pattern, count with
  | None, None => plain_slices prefix [show cursor]
  | Some pattern, None => plain_slices prefix [show cursor; bytes_of "MATCH"; pattern]
  | None, Some count => plain_slices prefix [show cursor; bytes_of "COUNT"; show count]
  | Some pattern, Some count =>
      plain_slices prefix [show cursor; bytes_of "MATCH"; pattern; bytes_of "COUNT"; show count]
  end.

(** [f64] by its bits: [value == 0.0], [is_nan], [is_infinite], [value > 0.0]. *)
Definition f64_magnitude (bits : Z) : Z := Z.land bits (2 ^ 63 - 1).

Definition f64_infinity : Z := Z.shiftl 2047 52.

Section floats.
  Context (format_finite : Z -> list Z).

Definition format_float (bits : Z) : list Z :=
  if f64_magnitude bits =? 0 then bytes_of "0"
  else if f64_infinity <? f64_magnitude bits then bytes_of "nan"
  else if f64_magnitude bits =? f64_infinity then
    if Z.testbit bits 63 then bytes_of "-inf" else bytes_of "inf"
  else format_finite bits.

Definition request_float (exists_only : bool) (verb key : list Z) (value : Z) (member : list Z)
    : Request :=
  if exists_only then plain [verb; key; bytes_of "XX"; format_float value; member]
  else plain [verb; key; format_float value; member].
End floats.

Definition request_set_ttl (key value unit : list Z) (ttl : Z) : Request :=
  plain [bytes_of "SET"; key; value; unit; show ttl].

(** Pairs and single arguments as items. *)
Definition singles (l : list (list Z)) : list (list (list Z)) := (fun x => [x]) <$> l.

Definition pairs (l : list (list Z * list Z)) : list (list (list Z)) := (fun x => [x.1; x.2]) <$> l.

(** ** [commands/strings.rs] *)

Module Basic.
Definition get (key : list Z) : Request := plain [bytes_of "GET"; key].

Definition set (key value : list Z) : Request := plain [bytes_of "SET"; key; value].

Definition set_seconds (key value : list Z) (ttl : Z) : Request :=
  request_set_ttl key value (bytes_of "EX") ttl.

Definition set_millis (key value : list Z) (ttl : Z) : Request :=
  request_set_ttl key value (bytes_of "PX") ttl.

Definition set_absent (key value : list Z) : Request :=
  plain [bytes_of "SET"; key; value; bytes_of "NX"].

Definition del (keys : list (list Z)) : Request := plain_slices [bytes_of "DEL"] keys.

Definition del_iter (count : Z) (keys : list (list Z)) : Request :=
  Sequence 1 [bytes_of "DEL"] count (singles keys).

Definition exists_ (keys : list (list Z)) : Request := plain_slices [bytes_of "EXISTS"] keys.

Definition incr (key : list Z) : Request := plain [bytes_of "INCR"; key].

Definition decr (key : list Z) : Request := plain [bytes_of "DECR"; key].

Definition incr_by (key : list Z) (by_ : Z) : Request :=
  plain [bytes_of "INCRBY"; key; show_signed by_].

Definition incr_float (format_finite : Z -> list Z) (key : list Z) (by_ : Z) : Request :=
  plain [bytes_of "INCRBYFLOAT"; key; format_float format_finite by_].

Definition expire (key : list Z) (ttl : Z) : Request := plain [bytes_of "EXPIRE"; key; show ttl].

Definition ttl (key : list Z) : Request := plain [bytes_of "TTL"; key].

Definition mget (keys : list (list Z)) : Request := plain_slices [bytes_of "MGET"] keys.

Definition mset (kv : list (list Z * list Z)) : Request :=
  Sequence 2 [bytes_of "MSET"] (zlen kv) (pairs kv).
End Basic.

Module Bits.
Inductive Operation := And | Or | Xor.

Definition as_bytes (op : Operation) : list Z :=
  match op with And => bytes_of "AND" | Or => bytes_of "OR" | Xor => bytes_of "XOR" end.

Definition count (key : list Z) : Request := plain [bytes_of "BITCOUNT"; key].

Definition count_range (key : list Z) (start stop : Z) : Request :=
  request_range (bytes_of "BITCOUNT") [] key start stop.

Definition set (key : list Z) (offset : Z) (value : bool) : Request :=
  plain [bytes_of "SETBIT"; key; show offset; if value then bytes_of "1" else bytes_of "0"].

Definition get (key : list Z) (offset : Z) : Request := plain [bytes_of "GETBIT"; key; show offset].

Definition combine (op : Operation) (dest : list Z) (sources : list (list Z)) : Request :=
  plain_slices [bytes_of "BITOP"; as_bytes op; dest] sources.

Definition not (dest source : list Z) : Request :=
  plain [bytes_of "BITOP"; bytes_of "NOT"; dest; source].

Definition position (key : list Z) (value : bool) : Request :=
  plain [bytes_of "BITPOS"; key; if value then bytes_of "1" else bytes_of "0"].
End Bits.

Module Cardinal.
Definition add (key : list Z) (elements : list (list Z)) : Request :=
  plain_slices [bytes_of "PFADD"; key] elements.

Definition count (keys : list (list Z)) : Request := plain_slices [bytes_of "PFCOUNT"] keys.

Definition merge (dest : list Z) (sources : list (list Z)) : Request :=
  plain_slices [bytes_of "PFMERGE"; dest] sources.
End Cardinal.

(** ** [commands/streams.rs] *)

Module Streams.
Definition range_with (verb key first last : list Z) (count : option Z) : Request :=
  match count with
  | Some count => plain [verb; key; first; last; bytes_of "COUNT"; show count]
  | None => plain [verb; key; first; last]
  end.

Definition add (key id : list Z) (fields : list (list Z)) : Request :=
  Sequence 1 [bytes_of "XADD"; key; id] (zlen fields) (singles fields).

Definition range (key start stop : list Z) (count : option Z) : Request :=
  range_with (bytes_of "XRANGE") key start stop count.

Definition rev_range (key stop start : list Z) (count : option Z) : Request :=
  range_with (bytes_of "XREVRANGE") key stop start count.

Definition remove (key : list Z) (ids : list (list Z)) : Request :=
  Sequence 1 [bytes_of "XDEL"; key] (zlen ids) (singles ids).

Definition len (key : list Z) : Request := plain [bytes_of "XLEN"; key].

Definition create_group (key group id : list Z) : Request :=
  plain [bytes_of "XGROUP"; bytes_of "CREATE"; key; group; id].

Definition set_group_id (key group id : list Z) : Request :=
  plain [bytes_of "XGROUP"; bytes_of "SETID"; key; group; id].

Definition read_group (key group consumer : list Z) (count : Z) : Request :=
  plain [bytes_of "XREADGROUP"; bytes_of "GROUP"; group; consumer; bytes_of "COUNT"; show count;
         bytes_of "STREAMS"; key; bytes_of ">"].

Definition ack (key group : list Z) (ids : list (list Z)) : Request :=
  Sequence 1 [bytes_of "XACK"; key; group] (zlen ids) (singles ids).

Definition pending (key group : list Z) : Request := plain [bytes_of "XPENDING"; key; group].
End Streams.

(** ** [commands/sorted.rs] and [commands/geo.rs] *)

Module Sorted.
Section sorted.
  Context (format_finite : Z -> list Z).

Definition add (key : list Z) (score : Z) (member : list Z) : Request :=
  request_float format_finite false (bytes_of "ZADD") key score member.

Definition add_existing (key : list Z) (score : Z) (member : list Z) : Request :=
  request_float format_finite true (bytes_of "ZADD") key score member.

Definition score_range (key : list Z) (min max : Z) : Request :=
  plain [bytes_of "ZRANGEBYSCORE"; key; format_float format_finite min; format_float format_finite max].

Definition increment (key : list Z) (by_ : Z) (member : list Z) : Request :=
  request_float format_finite false (bytes_of "ZINCRBY") key by_ member.
End sorted.

Definition remove (key : list Z) (members : list (list Z)) : Request :=
  plain_slices [bytes_of "ZREM"; key] members.

Definition range (key : list Z) (start stop : Z) : Request :=
  request_range (bytes_of "ZRANGE") [] key start stop.

Definition scan (key : list Z) (cursor : Z) (count : option Z) : Request :=
  request_scan [bytes_of "ZSCAN"; key] cursor None count.

Definition rev_range (key : list Z) (start stop : Z) : Request :=
  request_range (bytes_of "ZREVRANGE") [bytes_of "WITHSCORES"] key start stop.

Definition scored_range (key : list Z) (start stop : Z) : Request :=
  request_range (bytes_of "ZRANGE") [bytes_of "WITHSCORES"] key start stop.

Definition rank (key member : list Z) : Request := plain [bytes_of "ZRANK"; key; member].

Definition reverse_rank (key member : list Z) : Request := plain [bytes_of "ZREVRANK"; key; member].

Definition score (key member : list Z) : Request := plain [bytes_of "ZSCORE"; key; member].

Definition len (key : list Z) : Request := plain [bytes_of "ZCARD"; key].
End Sorted.

Module Geo.
Inductive Unit := Meters | Kilometers | Miles | Feet.

Definition as_bytes (unit : Unit) : list Z :=
  match unit with
  | Meters => bytes_of "m"
  | Kilometers => bytes_of "km"
  | Miles => bytes_of "mi"
  | Feet => bytes_of "ft"
  end.

Section geo.
  Context (format_finite : Z -> list Z).

Definition add (key : list Z) (lon lat : Z) (member : list Z) : Request :=
  plain [bytes_of "GEOADD"; key; format_float format_finite lon; format_float format_finite lat; member].

Definition search (key : list Z) (lon lat radius : Z) (unit : Unit) : Request :=
  plain [bytes_of "GEOSEARCH"; key; bytes_of "FROMLONLAT"; format_float format_finite lon;
         format_float format_finite lat; bytes_of "BYRADIUS"; format_float format_finite radius;
         as_bytes unit].
End geo.

Definition distance (key first second : list Z) (unit : option Unit) : Request :=
  match as_bytes <$> unit with
  | Some unit => plain [bytes_of "GEODIST"; key; first; second; unit]
  | None => plain [bytes_of "GEODIST"; key; first; second]
  end.

Definition positions (key : list Z) (members : list (list Z)) : Request :=
  plain_slices [bytes_of "GEOPOS"; key] members.
End Geo.

(** ** [commands/hashes.rs], [sets.rs], [lists.rs] *)

Module Hashes.
Definition get (key field : list Z) : Request := plain [bytes_of "HGET"; key; field].

Definition set (key field value : list Z) : Request := plain [bytes_of "HSET"; key; field; value].

Definition set_many (key : list Z) (fv : list (list Z * list Z)) : Request :=
  Sequence 2 [bytes_of "HSET"; key] (zlen fv) (pairs fv).

Definition set_iter (key : list Z) (count : Z) (fv : list (list Z * list Z)) : Request :=
  Sequence 2 [bytes_of "HSET"; key] count (pairs fv).

Definition values (key : list Z) (fields : list (list Z)) : Request :=
  plain_slices [bytes_of "HMGET"; key] fields.

Definition remove (key : list Z) (fields : list (list Z)) : Request :=
  plain_slices [bytes_of "HDEL"; key] fields.

Definition entries (key : list Z) : Request := plain [bytes_of "HGETALL"; key].

Definition len (key : list Z) : Request := plain [bytes_of "HLEN"; key].

Definition contains (key field : list Z) : Request := plain [bytes_of "HEXISTS"; key; field].

Definition increment (key field : list Z) (by_ : Z) : Request :=
  plain [bytes_of "HINCRBY"; key; field; show_signed by_].
End Hashes.

Module Sets.
Definition add (key : list Z) (members : list (list Z)) : Request :=
  plain_slices [bytes_of "SADD"; key] members.

Definition add_iter (key : list Z) (count : Z) (members : list (list Z)) : Request :=
  Sequence 1 [bytes_of "SADD"; key] count (singles members).

Definition remove (key : list Z) (members : list (list Z)) : Request :=
  plain_slices [bytes_of "SREM"; key] members.

Definition members (key : list Z) : Request := plain [bytes_of "SMEMBERS"; key].

Definition contains (key member : list Z) : Request := plain [bytes_of "SISMEMBER"; key; member].

Definition len (key : list Z) : Request := plain [bytes_of "SCARD"; key].
End Sets.

Module Lists.
Definition push_front (key : list Z) (values : list (list Z)) : Request :=
  plain_slices [bytes_of "LPUSH"; key] values.

Definition push_back (key : list Z) (values : list (list Z)) : Request :=
  plain_slices [bytes_of "RPUSH"; key] values.

Definition pop_front (key : list Z) : Request := plain [bytes_of "LPOP"; key].

Definition pop_back (key : list Z) : Request := plain [bytes_of "RPOP"; key].

Definition range (key : list Z) (start stop : Z) : Request :=
  request_range (bytes_of "LRANGE") [] key start stop.

Definition len (key : list Z) : Request := plain [bytes_of "LLEN"; key].
End Lists.

(** ** [commands/keyspace.rs], [server.rs] and the connection's own requests *)

Module Keyspace.
Definition dump (key : list Z) : Request := plain [bytes_of "DUMP"; key].

Definition swap (key value : list Z) : Request := plain [bytes_of "GETSET"; key; value].

Definition take (key : list Z) : Request := plain [bytes_of "GETDEL"; key].

Definition append (key value : list Z) : Request := plain [bytes_of "APPEND"; key; value].

Definition value_len (key : list Z) : Request := plain [bytes_of "STRLEN"; key].

Definition kind (key : list Z) : Request := plain [bytes_of "TYPE"; key].

Definition rename (src dst : list Z) : Request := plain [bytes_of "RENAME"; src; dst].

Definition persist (key : list Z) : Request := plain [bytes_of "PERSIST"; key].

Definition unlink (keys : list (list Z)) : Request := plain_slices [bytes_of "UNLINK"] keys.

Definition db_size : Request := plain [bytes_of "DBSIZE"].

Definition scan (cursor : Z) (pattern : option (list Z)) (count : option Z) : Request :=
  request_scan [bytes_of "SCAN"] cursor pattern count.
End Keyspace.

Module Server.
Definition ping : Request := plain [bytes_of "PING"].

Definition publish (channel message : list Z) : Request := plain [bytes_of "PUBLISH"; channel; message].

Definition get_user (username : list Z) : Request :=
  plain [bytes_of "ACL"; bytes_of "GETUSER"; username].

Definition set_user (username : list Z) (rules : list (list Z)) : Request :=
  Slices Sensitivity.Secret [bytes_of "ACL"; bytes_of "SETUSER"; username] rules.

Definition del_user (username : list Z) : Request :=
  plain [bytes_of "ACL"; bytes_of "DELUSER"; username].

Definition info (section : option (list Z)) : Request :=
  match section with
  | None => plain [bytes_of "INFO"]
  | Some section => plain [bytes_of "INFO"; section]
  end.
End Server.

Module Init.
Definition auth (password : list Z) : Request :=
  Slices Sensitivity.Secret [bytes_of "AUTH"; password] [].

Definition auth_user (username password : list Z) : Request :=
  Slices Sensitivity.Secret [bytes_of "AUTH"; username; password] [].

Definition select (database : Z) : Request := plain [bytes_of "SELECT"; show database].

Definition set_name (name : list Z) : Request :=
  plain [bytes_of "CLIENT"; bytes_of "SETNAME"; name].
End Init.

(** ** Running a request *)

Section run.
  Context {S O X Y : Type} {output : Output S O X Y}.

Definition run_request (s : S) (r : Request) : result (ReqError.Error X Y) Complete :=
  match r with
  | Slices kind prefix tail => encode s prefix tail kind
  | Sequence width prefix declared items => sequence s width prefix declared items
  end.
End run.

(** The arguments a request means, and its sensitivity. *)
Definition request_args (r : Request) : list (list Z) :=
  match r with
  | Slices _ prefix tail => prefix ++ tail
  | Sequence _ prefix _ items => prefix ++ concat items
  end.

Definition request_kind (r : Request) : Sensitivity.Sensitivity :=
  match r with Slices kind _ _ => kind | Sequence _ _ _ _ => Sensitivity.Plain end.

(** ** Arguments cannot be forged *)

(** A header line ends at its first terminator. *)
Lemma header_inj m t1 t2 r1 r2 :
  digits t1 -> digits t2 -> header m t1 ++ r1 = header m t2 ++ r2 -> t1 = t2 /\ r1 = r2.
Proof.
  unfold header, crlf. intros H1. revert t2. induction H1 as [|b t1 Hb _ IH]; intros t2 H2 E.
  - destruct H2 as [|b t2 Hb _]; simpl in E; [by injection E as <-|].
    injection E as <- _. by vm_compute in Hb.
  - destruct H2 as [|b2 t2 Hb2 H2]; simpl in E.
    + injection E as -> _. by vm_compute in Hb.
    + injection E as <- E. destruct (IH t2 H2) as [-> ->]; [simpl; by f_equal|done].
Qed.

Lemma show_inj n1 n2 : 0 <= n1 <= u64_max -> 0 <= n2 <= u64_max -> show n1 = show n2 -> n1 = n2.
Proof.
  intros H1 H2 E. destruct (show_spec n1 H1) as (_ & D1 & _), (show_spec n2 H2) as (_ & D2 & _).
  congruence.
Qed.

(** A bulk text is as long as its header says. *)
Lemma bulk_text_inj p1 p2 r1 r2 :
  zlen p1 <= u64_max -> zlen p2 <= u64_max -> bulk_text p1 ++ r1 = bulk_text p2 ++ r2 ->
  p1 = p2 /\ r1 = r2.
Proof.
  intros H1 H2. unfold bulk_text. rewrite <- !app_assoc.
  destruct (show_spec (zlen p1) ltac:(lia)) as (D1 & _), (show_spec (zlen p2) ltac:(lia)) as (D2 & _).
  intros [E1 E2]%header_inj; [|done..]. apply show_inj in E1; [|lia..]. apply Nat2Z.inj in E1.
  apply app_inj_1 in E2 as [-> E2]; [|done]. split; [done|]. by apply app_inj_1 in E2 as [_ ->].
Qed.

Lemma bulk_texts_inj l1 l2 :
  Forall (fun p => zlen p <= u64_max) l1 -> Forall (fun p => zlen p <= u64_max) l2 ->
  length l1 = length l2 -> concat (bulk_text <$> l1) = concat (bulk_text <$> l2) -> l1 = l2.
Proof.
  intros H1. revert l2. induction H1 as [|p1 l1 Hp1 _ IH]; intros [|p2 l2] H2 Hl E; try done.
  apply Forall_cons in H2 as [Hp2 H2]. rewrite !fmap_cons in E. cbn [concat] in E.
  apply bulk_text_inj in E as [-> E]; [|done..]. f_equal. apply IH; [done| |done]. by injection Hl.
Qed.

Lemma spelling_inj l1 l2 :
  zlen l1 <= u64_max -> zlen l2 <= u64_max ->
  Forall (fun p => zlen p <= u64_max) l1 -> Forall (fun p => zlen p <= u64_max) l2 ->
  spelling l1 = spelling l2 -> l1 = l2.
Proof.
  intros H1 H2 Hp1 Hp2. unfold spelling.
  destruct (show_spec (zlen l1) ltac:(lia)) as (D1 & _), (show_spec (zlen l2) ltac:(lia)) as (D2 & _).
  intros [E1 E2]%header_inj; [|done..]. apply show_inj in E1; [|lia..]. apply bulk_texts_inj; [done..|lia|done].
Qed.

Section frames.
  Context {S O X Y : Type} {output : Output S O X Y} {laws : OutputLaws S O X Y}.

(** What a successful request carries. *)
Definition carries (c : Complete) (args : list (list Z)) (k : Sensitivity.Sensitivity) : Prop :=
  kind c = k /\ frame c = spelling args /\ zlen args <= u64_max /\
  Forall (fun p => zlen p <= u64_max) args.

Lemma usize_sum base len n :
  add_count (X := X) (Y := Y) base len = Ok n -> n = base + len /\ 0 <= n <= u64_max.
Proof.
  unfold add_count, checked_usize. destruct (checked _ _ _) as [m|] eqn:E; [|discriminate].
  apply checked_Some in E as [-> ?]. by intros [= <-].
Qed.

Lemma measured_args l (args : list (list Z)) l' :
  0 <= l -> measure_bulks (X := X) (Y := Y) l ((fun p => zlen p) <$> args) = Ok l' ->
  0 <= l' /\ Forall (fun p => zlen p <= u64_max) args.
Proof.
  intros Hl E. pose proof (measure_bulks_spec l args Hl) as H. rewrite E in H.
  destruct H as (-> & _ & H). split; [lia|by apply usize_args].
Qed.

Lemma written_slices (o : O) (args : list (list Z)) o' :
  Forall (fun p => zlen p <= u64_max) args -> write_bulks o args = Ok o' ->
  wrote o (concat (bulk_text <$> args)) o'.
Proof.
  intros Hp E. apply write_bulks_inv in E as [_ E].
  - by rewrite map_id_slices in E.
  - eapply Forall_impl; [exact Hp|]. intros p. simpl. lia.
Qed.

Lemma encode_carries s prefix tail k c :
  encode s prefix tail k = Ok c -> carries c (prefix ++ tail) k.
Proof.
  intros H. unfold encode in H. apply bind_Ok in H as (n & [-> Hn]%usize_sum & H).
  apply bind_Ok in H as (l & El & H). pose proof (length_array_spec (X := X) (Y := Y) (zlen prefix + zlen tail) ltac:(lia)) as Hl.
  rewrite El in Hl. destruct Hl as [-> _].
  apply bind_Ok in H as (l' & [_ Hp]%measured_args & H); [|lia].
  apply admit_inv in H as (o & o' & [_ Hp0]%limit_empty & Hw & Hr & ->).
  apply bind_Ok in Hw as (o1 & H1%extend_inv & H2%written_slices); [|done].
  rewrite header_bytes_spec in H1 by lia. rewrite <- Nat2Z.inj_add, <- length_app in H1, Hn.
  pose proof (wrote_app _ _ _ _ _ H1 H2) as [_ E]. rewrite Hp0 in E.
  split; [done|]. split; [exact E|]. split; [lia|done].
Qed.

Lemma written_items declared actual (o : O) items a o' :
  Forall (fun p => zlen p <= u64_max) (concat items) ->
  write_items declared actual o items = Ok (a, o') -> wrote o (concat (bulk_text <$> concat items)) o'.
Proof.
  revert actual o. induction items as [|it items IH]; intros actual o Hp; cbn [write_items concat].
  - intros [= _ <-]. split; [simpl; lia|by rewrite app_nil_r].
  - cbn [concat] in Hp. apply Forall_app in Hp as [Hp1 Hp2]. intros H.
    apply bind_Ok in H as (n & _ & H). apply bind_Ok in H as (o1 & H1%written_slices & H); [|done].
    rewrite fmap_app, concat_app. eapply wrote_app; [exact H1|]. by eapply IH.
Qed.

Definition request_wf (r : Request) : Prop :=
  match r with
  | Slices _ _ _ => True
  | Sequence width _ declared items =>
      0 < width /\ 0 <= declared <= u64_max /\ Forall (fun it => zlen it = width) items
  end.

Lemma sequence_carries s width prefix declared items c :
  request_wf (Sequence width prefix declared items) ->
  sequence s width prefix declared items = Ok c ->
  carries c (prefix ++ concat items) Sensitivity.Plain.
Proof.
  intros (Hw & Hd & Hit) H. unfold sequence in H. apply bind_Ok in H as (n & Hn & H).
  assert (n = zlen prefix + declared * width /\ 0 <= n <= u64_max) as [-> Hn'].
  { unfold add_group_count, checked_usize in Hn. destruct (checked _ _ _) as [m|] eqn:E; [|discriminate].
    apply checked_Some in E as [-> _]. by apply usize_sum. }
  apply bind_Ok in H as (l & El & H). pose proof (length_array_spec (X := X) (Y := Y) _ (proj1 Hn')) as Hl.
  rewrite El in Hl. destruct Hl as [-> _].
  apply bind_Ok in H as (l1 & [Hl1 Hp]%measured_args & H); [|lia].
  apply bind_Ok in H as ([a l2] & Em & H).
  pose proof (measure_items_spec (X := X) (Y := Y) declared items 0 l1 ltac:(lia) Hl1) as Hi. rewrite Em in Hi.
  destruct Hi as (-> & _ & _ & Hq). apply usize_args in Hq. rewrite Z.add_0_l in H.
  destruct (Z.eq_dec (zlen items) declared) as [Ed|Ed].
  2: { rewrite check_items_ne in H by exact Ed. discriminate. }
  rewrite Ed, check_items_eq in H. apply bind_Ok in H as (_ & _ & H).
  apply admit_inv in H as (o & o' & [_ Hp0]%limit_empty & Hwr & Hr & ->).
  apply bind_Ok in Hwr as (o1 & H1%extend_inv & Hwr). rewrite header_bytes_spec in H1 by lia.
  apply bind_Ok in Hwr as (o2 & H2%written_slices & Hwr); [|done].
  apply bind_Ok in Hwr as ([a o3] & H3%written_items & Hwr); [|done].
  apply bind_Ok in Hwr as (_ & _ & <-%Ok_inj).
  replace (zlen prefix + declared * width) with (zlen (prefix ++ concat items)) in *
    by (lens; rewrite (length_items items width Hit), Ed; lia).
  pose proof (wrote_app _ _ _ _ _ H1 (wrote_app _ _ _ _ _ H2 H3)) as [_ E]. rewrite Hp0 in E.
  split; [done|]. split; [|split; [lia|by apply Forall_app]].
  unfold spelling. rewrite fmap_app, concat_app. exact E.
Qed.

Lemma run_carries s r c :
  request_wf r -> run_request s r = Ok c -> carries c (request_args r) (request_kind r).
Proof. destruct r; simpl; intros Hwf; [apply encode_carries|by apply sequence_carries]. Qed.

(** C20. Whatever bytes the arguments of a command hold, its frame is one array
    of exactly those arguments, with the sensitivity of the command, and no other
    argument vector has that frame: an argument cannot pose as several, nor as
    the start of another command. *)
Theorem arguments_unforgeable s r c s' r' c' :
  request_wf r -> run_request s r = Ok c -> request_wf r' -> run_request s' r' = Ok c' ->
  wires [RArray (RBulk <$> request_args r)] (frame c) /\ kind c = request_kind r /\
  (frame c = frame c' -> request_args r = request_args r').
Proof.
  intros Hw H Hw' H'. apply run_carries in H as (Hk & -> & Hn & Hp); [|done].
  apply run_carries in H' as (_ & -> & Hn' & Hp'); [|done].
  split; [by apply spelling_wires|]. split; [done|]. by apply spelling_inj.
Qed.
End frames.

(** ** Witness *)

Lemma arguments_unforgeable_witness :
  exists c, run_request (S := Z) 64 (Basic.set (bytes_of "k") [13; 10; 36; 49]) = Ok c /\
    wires [RArray [RBulk (bytes_of "SET"); RBulk (bytes_of "k"); RBulk [13; 10; 36; 49]]] (frame c) /\
    kind c = Sensitivity.Plain.
Proof.
  destruct (run_request (S := Z) 64 (Basic.set (bytes_of "k") [13; 10; 36; 49])) as [c|e] eqn:E.
  - destruct (arguments_unforgeable 64 (Basic.set (bytes_of "k") [13; 10; 36; 49]) c 64
      (Basic.set (bytes_of "k") [13; 10; 36; 49]) c I E I E) as (H1 & H2 & _).
    exists c. split; [reflexivity|]. split; [exact H1|exact H2].
  - vm_compute in E. discriminate E.
Defined.
