(* ===== verification/RespScan.v ===== *)
(** * Correctness of the resumable RESP scanner

    The line search in absolute positions, termination of a scan, independence
    of the scan from how its input was chunked, and the amounts it consumes. *)
From S2P Require Import Prelude CodecInput RespLimit RespPool RespState RespGrammar.

(** ** The line search *)

Definition is_text (kind : Line.Line) : bool :=
  match kind with Line.Status | Line.Server => true | _ => false end.

(** The search of a line kind stops at position [j]. *)
Definition hit (kind : Line.Line) (l : list Z) (j : Z) : bool :=
  if is_text kind then
    match get l j with Some b => is_cr_lf b | None => false end
  else bool_decide (get l j = Some 13) && bool_decide (get l (j + 1) = Some 10).

(** The first stop of the search at or after [a]. *)
Definition first_hit (kind : Line.Line) (l : list Z) (a : Z) : option Z :=
  Z.add a <$>
  (if is_text kind then position is_cr_lf (drop (Z.to_nat a) l)
   else position_crlf (drop (Z.to_nat a) l)).

(** What the search does with its stop [q]. *)
Definition found (kind : Line.Line) (l : list Z) (begin q : Z)
    : result (Z * Z * Z) (option LimitLine) :=
  let line := (fun v => {| line_value := v; line_start := begin |}) <$> get_range l begin q in
  if is_text kind then
    if bool_decide (get l q = Some 10) then Err (q, 13, 10)
    else
      match get l (q + 1) with
      | None => Ok None
      | Some actual => if actual =? 10 then Ok line else Err (q + 1, 10, actual)
      end
  else Ok line.

Lemma position_crlf_cons a b l :
  position_crlf (a :: b :: l) =
  if (a =? 13) && (b =? 10) then Some 0 else Z.succ <$> position_crlf (b :: l).
Proof. reflexivity. Qed.

Lemma position_crlf_Some l i :
  position_crlf l = Some i ->
  0 <= i /\ get l i = Some 13 /\ get l (i + 1) = Some 10 /\
  forall j, 0 <= j < i -> ~ (get l j = Some 13 /\ get l (j + 1) = Some 10).
Proof.
  revert i. induction l as [|a l IH]; intros i; simpl; [done|].
  destruct l as [|b l]; [done|]. intros H.
  destruct ((a =? 13) && (b =? 10))%bool eqn:E.
  - injection H as <-. reflect_bool. subst. split_and!; (done || lia).
  - destruct (position_crlf (b :: l)) as [k|]; [|done]. injection H as <-.
    destruct (IH k eq_refl) as (Hk & H1 & H2 & H3).
    assert (forall m, 0 <= m -> get (a :: b :: l) (Z.succ m) = get (b :: l) m) as Hs.
    { intros m Hm. rewrite (get_app_r [a] (b :: l)) by (simpl; lia). f_equal. simpl. lia. }
    split_and!; [lia|by rewrite Hs by lia| |].
    + replace (Z.succ k + 1) with (Z.succ (k + 1)) by lia. by rewrite Hs by lia.
    + intros j Hj [Ha Hb]. destruct (decide (j = 0)) as [->|].
      * injection Ha as ->. injection Hb as ->. done.
      * apply (H3 (j - 1)); [lia|]. rewrite <- !Hs by lia.
        replace (Z.succ (j - 1)) with j by lia.
        replace (Z.succ (j - 1 + 1)) with (j + 1) by lia. done.
Qed.

Lemma position_crlf_None l j :
  position_crlf l = None -> ~ (get l j = Some 13 /\ get l (j + 1) = Some 10).
Proof.
  revert j. induction l as [|a l IH]; intros j; [intros _ [? _]; by destruct j|].
  destruct l as [|b l]; [|rewrite position_crlf_cons].
  { intros _ [H1 H2]. apply get_Some_bounds in H1, H2. simpl in *. lia. }
  destruct ((a =? 13) && (b =? 10))%bool eqn:E; [done|].
  destruct (position_crlf (b :: l)) eqn:E2; [done|]. intros _ [H1 H2].
  apply get_Some_bounds in H1 as Hj. destruct (decide (j = 0)) as [->|].
  - injection H1 as ->. injection H2 as ->. done.
  - apply (IH (j - 1) eq_refl).
    rewrite (get_app_r [a] (b :: l)) in H1, H2 by (simpl; lia). simpl in H1, H2.
    split; [by rewrite <- H1|]. rewrite <- H2. f_equal. lia.
Qed.

Lemma first_hit_Some kind l a q :
  0 <= a -> first_hit kind l a = Some q ->
  a <= q /\ hit kind l q = true /\ forall j, a <= j < q -> hit kind l j = false.
Proof.
  unfold first_hit, hit. intros Ha H. destruct (is_text kind).
  - apply fmap_Some in H as (o & (Ho & (x & Hx & Fx) & Hall)%position_drop & ->); [|done].
    split_and!; [lia|by rewrite Hx|]. intros j Hj. destruct (get l j) eqn:E; [|done].
    by apply (Hall j).
  - apply fmap_Some in H as (o & (Ho & H1 & H2 & Hall)%position_crlf_Some & ->).
    rewrite get_drop in H1, H2 by lia. replace (a + (o + 1)) with (a + o + 1) in H2 by lia.
    rewrite H1, H2, !bool_decide_true by done. split_and!; [lia|done|].
    intros j Hj. apply andb_false_iff. destruct (bool_decide (get l j = _)) eqn:E1; [right|auto].
    apply bool_decide_eq_false. apply bool_decide_eq_true in E1. intros E2.
    apply (Hall (j - a)); [lia|]. rewrite !get_drop by lia.
    by replace (a + (j - a)) with j by lia; replace (a + (j - a + 1)) with (j + 1) by lia.
Qed.

Lemma first_hit_None kind l a j :
  0 <= a -> first_hit kind l a = None -> a <= j -> hit kind l j = false.
Proof.
  unfold first_hit, hit. intros Ha H Hj. apply fmap_None in H. destruct (is_text kind).
  - destruct (get l j) eqn:E; [|done]. by eapply position_drop_None.
  - apply andb_false_iff. destruct (bool_decide (get l j = _)) eqn:E1; [right|auto].
    apply bool_decide_eq_false. apply bool_decide_eq_true in E1. intros E2.
    apply (position_crlf_None _ (j - a) H). rewrite !get_drop by lia.
    by replace (a + (j - a)) with j by lia; replace (a + (j - a + 1)) with (j + 1) by lia.
Qed.

Lemma first_hit_intro kind l a q :
  0 <= a <= q -> hit kind l q = true -> (forall j, a <= j < q -> hit kind l j = false) ->
  first_hit kind l a = Some q.
Proof.
  intros Ha Hq Hall. destruct (first_hit kind l a) as [p|] eqn:E.
  - apply first_hit_Some in E as (Hp & Hhit & Hnone); [|lia]. f_equal.
    destruct (Z.lt_trichotomy p q) as [?|[?|?]]; [|done|].
    + rewrite Hall in Hhit; (done || lia).
    + rewrite Hnone in Hq; (done || lia).
  - rewrite (first_hit_None kind l a q) in Hq; (done || lia).
Qed.

(** A stretch without stops can be skipped. *)
Lemma first_hit_skip kind l a b :
  0 <= a <= b -> (forall j, a <= j < b -> hit kind l j = false) ->
  first_hit kind l a = first_hit kind l b.
Proof.
  intros Hab Hall. destruct (first_hit kind l b) as [q|] eqn:E.
  - apply first_hit_Some in E as (Hp & Hhit & Hnone); [|lia].
    apply first_hit_intro; [lia|done|]. intros j Hj.
    destruct (decide (j < b)); [apply Hall|apply Hnone]; lia.
  - destruct (first_hit kind l a) as [q|] eqn:Ea; [|done].
    apply first_hit_Some in Ea as (Hp & Hhit & Hnone); [|lia].
    destruct (decide (q < b)).
    + rewrite Hall in Hhit; (done || lia).
    + rewrite (first_hit_None kind l b q) in Hhit; (done || lia).
Qed.

Lemma hit_app kind l more j : j + 1 < zlen l -> hit kind (l ++ more) j = hit kind l j.
Proof. intros. unfold hit. by rewrite !get_app_l by lia. Qed.

Lemma hit_bounds kind l j : hit kind l j = true -> 0 <= j < zlen l.
Proof.
  unfold hit. destruct (is_text kind).
  - destruct (get l j) eqn:E; [|done]. intros _. by eapply get_Some_bounds.
  - intros H. reflect_bool. apply bool_decide_eq_true in H. by eapply get_Some_bounds.
Qed.

Lemma hit_app_true kind l more j : hit kind l j = true -> hit kind (l ++ more) j = true.
Proof.
  intros H. pose proof (hit_bounds _ _ _ H) as Hb. revert H. unfold hit.
  destruct (is_text kind).
  - by rewrite get_app_l by lia.
  - intros H. apply andb_true_iff in H as [H1 H2]. apply bool_decide_eq_true in H1, H2.
    by rewrite (get_Some_app _ _ _ _ H1), (get_Some_app _ _ _ _ H2), !bool_decide_true.
Qed.

(** [find] in absolute positions. *)
Lemma find_first l begin scan kind :
  0 <= begin ->
  find l begin scan kind =
  if zlen l <? Z.max scan begin then Ok None
  else match first_hit kind l (Z.max scan begin) with
       | None => Ok None
       | Some q => found kind l begin q
       end.
Proof.
  intros Hb. unfold find. set (a := Z.max scan begin).
  destruct (Z.ltb_spec (zlen l) a) as [Hlt|Hle]; [by rewrite get_from_None by lia|].
  rewrite get_from_Some by lia. unfold first_hit, found.
  destruct kind; simpl is_text; cbv iota.
  3-5: by destruct (position_crlf _).
  all: destruct (position is_cr_lf _) as [o|] eqn:E; [|done]; simpl;
    apply position_drop in E as (Ho & _); [|lia]; rewrite !get_drop by lia;
    replace (a + (o + 1)) with (a + o + 1) by lia; done.
Qed.

(** A line that was found, in terms of its terminator. *)
Lemma found_Some kind l begin q line :
  0 <= begin <= q -> hit kind l q = true -> found kind l begin q = Ok (Some line) ->
  line = {| line_value := slice l begin q; line_start := begin |} /\
  get l q = Some 13 /\ get l (q + 1) = Some 10 /\ q + 2 <= zlen l.
Proof.
  intros Hb Hhit Hf. pose proof (hit_bounds _ _ _ Hhit) as Hq.
  unfold found in Hf. unfold hit in Hhit.
  assert (get_range l begin q = Some (slice l begin q)) as Hr
    by (apply get_range_Some; split_and!; (done || lia)).
  rewrite Hr in Hf. simpl in Hf. destruct (is_text kind).
  - case_bool_decide as E1; [done|].
    destruct (get l (q + 1)) as [y|] eqn:E2; [|done].
    destruct (Z.eqb_spec y 10) as [->|]; [|done]. injection Hf as <-.
    apply get_Some_bounds in E2 as ?. destruct (get l q) as [x|] eqn:E3; [|done].
    unfold is_cr_lf in Hhit. destruct (Z.eqb_spec x 13) as [->|]; [split_and!; (done || lia)|].
    simpl in Hhit. reflect_bool. congruence.
  - injection Hf as <-. apply andb_true_iff in Hhit as [H1 H2].
    apply bool_decide_eq_true in H1, H2. apply get_Some_bounds in H2 as ?.
    split_and!; (done || lia).
Qed.

Lemma line_stop_slice l begin q :
  0 <= begin <= q -> q <= zlen l ->
  line_stop {| line_value := slice l begin q; line_start := begin |} = q.
Proof. intros. unfold line_stop. simpl. rewrite length_slice by lia. lia. Qed.

(** A search that found nothing saw no stop before the last byte. *)
Lemma find_None_hits l begin scan kind j :
  0 <= begin -> Z.max scan begin <= zlen l -> find l begin scan kind = Ok None ->
  Z.max scan begin <= j < zlen l - 1 -> hit kind l j = false.
Proof.
  intros Hb Hlen Hf Hj. rewrite find_first in Hf by done.
  destruct (Z.ltb_spec (zlen l) (Z.max scan begin)); [lia|].
  destruct (first_hit kind l (Z.max scan begin)) as [q|] eqn:E.
  - apply first_hit_Some in E as (Hq & Hhit & Hall); [|lia]. apply Hall.
    destruct (decide (j < q)); [lia|]. exfalso. revert Hf. unfold found.
    pose proof (hit_bounds _ _ _ Hhit) as Hqb.
    destruct (get_is_Some l (q + 1)) as [y Hy]; [lia|]. rewrite Hy.
    assert (get_range l begin q = Some (slice l begin q)) as ->
      by (apply get_range_Some; split_and!; (done || lia)).
    intros Hf. repeat split_match_in Hf; done.
  - eapply first_hit_None; [|done|]; lia.
Qed.

Lemma find_Some_at l begin scan kind line :
  0 <= begin -> find l begin scan kind = Ok (Some line) ->
  exists q, Z.max scan begin <= q /\ q + 2 <= zlen l /\
    line = {| line_value := slice l begin q; line_start := begin |} /\
    get l q = Some 13 /\ get l (q + 1) = Some 10 /\
    forall j, Z.max scan begin <= j < q -> hit kind l j = false.
Proof.
  intros Hb Hf. rewrite find_first in Hf by done. split_match_in Hf; [done|].
  destruct (first_hit kind l (Z.max scan begin)) as [q|] eqn:E; [|done].
  apply first_hit_Some in E as (Hq & Hhit & Hall); [|lia].
  apply found_Some in Hf as (-> & H1 & H2 & H3); [|lia|done].
  exists q. split_and!; done.
Qed.

Lemma find_Err_at l begin scan kind offset expected actual :
  0 <= begin -> find l begin scan kind = Err (offset, expected, actual) ->
  begin <= offset < zlen l.
Proof.
  intros Hb Hf. rewrite find_first in Hf by done. split_match_in Hf; [done|].
  destruct (first_hit kind l (Z.max scan begin)) as [q|] eqn:E; [|done].
  apply first_hit_Some in E as (Hq & Hhit & Hall); [|lia].
  pose proof (hit_bounds _ _ _ Hhit). revert Hf. unfold found. intros Hf.
  destruct (get l (q + 1)) eqn:E; [apply get_Some_bounds in E|];
    repeat split_match_in Hf; simplify_eq; lia.
Qed.

(** More input does not change a search that stopped. *)
Lemma find_app l more begin scan kind r :
  0 <= begin -> find l begin scan kind = r -> r <> Ok None ->
  find (l ++ more) begin scan kind = r.
Proof.
  intros Hb <- Hr. rewrite find_first in Hr |- * by done. rewrite find_first by done.
  rewrite length_app. destruct (Z.ltb_spec (zlen l) (Z.max scan begin)); [done|].
  destruct (Z.ltb_spec (Z.of_nat (length l + length more)) (Z.max scan begin)); [lia|].
  destruct (first_hit kind l (Z.max scan begin)) as [q|] eqn:E; [|done].
  apply first_hit_Some in E as (Hq & Hhit & Hall); [|lia].
  pose proof (hit_bounds _ _ _ Hhit) as Hqb.
  rewrite (first_hit_intro kind (l ++ more) _ q); [|lia|by apply hit_app_true|].
  2: { intros j Hj. rewrite hit_app by lia. auto. }
  revert Hr. unfold found.
  assert (get_range l begin q = Some (slice l begin q)) as Hg
    by (apply get_range_Some; split_and!; (done || lia)).
  rewrite Hg, (get_range_app _ _ _ _ _ Hg), get_app_l by lia.
  destruct (get l (q + 1)) as [y|] eqn:Ey; [by rewrite (get_Some_app _ _ _ _ Ey)|].
  destruct (is_text kind); [|done]. by case_bool_decide.
Qed.

(** A search that found nothing can be resumed from the last byte. *)
Lemma find_resume l more begin scan kind :
  0 <= begin <= zlen l -> scan <= Z.max (zlen l - 1) begin ->
  find l begin scan kind = Ok None ->
  find (l ++ more) begin scan kind =
  find (l ++ more) begin (Z.max (Z.max (zlen l - 1) 0) begin) kind.
Proof.
  intros Hb Hs Hf. rewrite !find_first, length_app by lia.
  set (a := Z.max scan begin). set (a' := Z.max (Z.max (Z.max (zlen l - 1) 0) begin) begin).
  destruct (Z.ltb_spec (Z.of_nat (length l + length more)) a),
    (Z.ltb_spec (Z.of_nat (length l + length more)) a'); try lia; try done.
  rewrite (first_hit_skip kind (l ++ more) a a'); [done|lia|].
  intros j Hj. rewrite hit_app by lia. eapply find_None_hits; [| |exact Hf|]; lia.
Qed.

(** ** Open arrays *)

(** What a finished value leaves of the open arrays, innermost first. *)
Fixpoint settle_rev (l : list Z) : list Z :=
  match l with
  | [] => []
  | n :: l => if n - 1 =? 0 then settle_rev l else (n - 1) :: l
  end.

Definition settle (st : list Z) : list Z := reverse (settle_rev (reverse st)).

(** A count of pending values is a nonzero [u32]. *)
Definition counts (st : list Z) : Prop := Forall (fun n => 1 <= n <= u32_max) st.

(** The values that follow the one being read, over all open arrays. An open
    array is itself the pending value of its parent. *)
Definition extra (st : list Z) : nat := sum_list_with (fun n => Z.to_nat (n - 1)) st.

Lemma settle_one st : settle (st ++ [1]) = settle st.
Proof. unfold settle. by rewrite reverse_snoc. Qed.

Lemma settle_more st n : n <> 1 -> settle (st ++ [n]) = st ++ [n - 1].
Proof.
  intros Hn. unfold settle. rewrite reverse_snoc. simpl.
  destruct (Z.eqb_spec (n - 1) 0); [lia|]. by rewrite reverse_cons, reverse_involutive.
Qed.

Lemma extra_snoc st n : extra (st ++ [n]) = (extra st + Z.to_nat (n - 1))%nat.
Proof. unfold extra. rewrite sum_list_with_app. simpl. lia. Qed.

Lemma settle_facts st :
  counts st ->
  counts (settle st) /\ (length (settle st) <= length st)%nat /\
  extra st = match settle st with [] => 0%nat | st' => S (extra st') end.
Proof.
  unfold counts. induction st as [|n st IH] using rev_ind; intros H; [by split_and!|].
  apply Forall_app in H as [Hs Hn]. rewrite Forall_singleton in Hn. specialize (IH Hs).
  rewrite length_app, extra_snoc. simpl. destruct (decide (n = 1)) as [->|Hn1].
  - rewrite settle_one. destruct IH as (H1 & H2 & H3). split_and!; [done|lia|].
    rewrite Nat.add_0_r. exact H3.
  - rewrite settle_more by done. split_and!.
    + apply Forall_app. split; [done|]. apply Forall_singleton. lia.
    + rewrite length_app. simpl. lia.
    + trans (S (extra (st ++ [n - 1]))); [rewrite extra_snoc; lia|by destruct st].
Qed.

(** ** The history of a parse *)

(** After [pos] bytes the tape is [view], and [n] more values end the frame. *)
Definition history (l : list Z) (pos : Z) (n : nat) (view : list Kind.Kind) : Prop :=
  0 <= pos <= zlen l /\
  forall bs ks, values pos n bs ks -> values 0 1 (slice l 0 pos ++ bs) (view ++ ks).

Lemma history_init l : history l 0 1 [].
Proof. split; [lia|]. intros bs ks. rewrite slice_nil. done. Qed.

Lemma history_leaf l pos e n view v :
  history l pos (S n) view -> pos <= e <= zlen l -> leaf pos (slice l pos e) v ->
  history l e n (view ++ [v]).
Proof.
  intros [Hp H] He Hl. split; [lia|]. intros bs ks Hv.
  rewrite (slice_split l 0 pos e), <- !app_assoc by lia. simpl. apply H. constructor; [done|].
  rewrite length_slice by lia. by replace (pos + (e - pos)) with e by lia.
Qed.

Lemma history_array l pos e n view t m :
  history l pos (S n) view -> pos <= e <= zlen l -> slice l pos e = header 42 t ->
  0 <= m -> length_value t (Length.Count m) ->
  history l e (Z.to_nat m + n) (view ++ [Kind.Array m]).
Proof.
  intros [Hp H] He Hs Hm Ht. split; [lia|]. intros bs ks Hv.
  rewrite (slice_split l 0 pos e), <- !app_assoc by lia. rewrite Hs. simpl. apply H.
  econstructor; [done..|]. rewrite <- Hs, length_slice by lia.
  by replace (pos + (e - pos)) with e by lia.
Qed.

Lemma history_done l pos view : history l pos 0 view -> values 0 1 (slice l 0 pos) view.
Proof.
  intros [_ H]. specialize (H [] []). rewrite !app_nil_r in H. apply H. constructor.
Qed.

Lemma history_app l more pos n view : history l pos n view -> history (l ++ more) pos n view.
Proof.
  intros [Hp H]. split; [rewrite length_app; lia|]. intros. rewrite slice_app_l by lia. auto.
Qed.

(** ** Lines of the input *)

Definition marker_byte (kind : Line.Line) : Z :=
  match kind with
  | Line.Status => 43
  | Line.Server => 45
  | Line.Integer => 58
  | Line.Bulk => 36
  | Line.Array => 42
  end.

Lemma marker_line_Some b kind : marker_line b = Some kind -> b = marker_byte kind.
Proof. unfold marker_line. intros H. repeat split_match_in H; simplify_eq; reflect_bool; done. Qed.

Lemma marker_line_byte kind : marker_line (marker_byte kind) = Some kind.
Proof. by destruct kind. Qed.

Lemma slice_pair {A} (l : list A) q x y :
  0 <= q -> get l q = Some x -> get l (q + 1) = Some y -> slice l q (q + 2) = [x; y].
Proof.
  intros Hq Hx Hy. rewrite (slice_cons l q (q + 2) x) by (done || lia).
  rewrite (slice_cons l (q + 1) (q + 2) y) by (done || lia).
  replace (q + 1 + 1) with (q + 2) by lia. by rewrite slice_nil.
Qed.

(** A marker, a line and its terminator spell a header. *)
Lemma slice_header l m start q :
  1 <= start <= q -> get l (start - 1) = Some m -> get l q = Some 13 ->
  get l (q + 1) = Some 10 -> slice l (start - 1) (q + 2) = header m (slice l start q).
Proof.
  intros Hs Hm H1 H2. apply get_Some_bounds in H2 as Hb. unfold header.
  rewrite (slice_cons l (start - 1) (q + 2) m) by (done || lia). f_equal.
  replace (start - 1 + 1) with start by lia.
  rewrite (slice_split l start q) by lia. f_equal. by apply slice_pair; [lia|..].
Qed.

Lemma text_slice kind l a b :
  is_text kind = true -> 0 <= a -> b <= zlen l ->
  (forall j, a <= j < b -> hit kind l j = false) -> text (slice l a b).
Proof.
  intros Hk Ha Hb Hall. apply Forall_lookup. intros i x Hx.
  apply lookup_lt_Some in Hx as Hi. unfold slice in Hi. rewrite length_take, length_drop in Hi.
  assert (get (slice l a b) (Z.of_nat i) = Some x) as Hg.
  { unfold get. destruct (Z.leb_spec 0 (Z.of_nat i)); [|lia]. by rewrite Nat2Z.id. }
  rewrite get_slice in Hg by lia. specialize (Hall (a + Z.of_nat i) ltac:(lia)).
  unfold hit in Hall. by rewrite Hk, Hg in Hall.
Qed.

Lemma bytes_slice l a b : Forall is_byte l -> Forall is_byte (slice l a b).
Proof. intros. unfold slice. by apply Forall_take, Forall_drop. Qed.

#[export] Hint Resolve bytes_slice : cartel.

(** The leaf a line of a text or integer kind spells. *)
Definition line_value_at (kind : Line.Line) (start q : Z) (t : list Z) (v : Kind.Kind) : Prop :=
  match kind with
  | Line.Status =>
      v = if list_eqb t (bytes_of "OK") then Kind.Ok else Kind.Status (body_new start q)
  | Line.Server => v = Kind.Error (body_new start q)
  | Line.Integer => exists n, v = Kind.Integer n /\ signed_value t n /\ i64_min <= n <= i64_max
  | Line.Bulk | Line.Array => v = Kind.Nil /\ length_value t Length.Nil
  end.

Lemma line_leaf kind start q t v :
  (is_text kind = true -> text t) -> q = start + zlen t ->
  line_value_at kind start q t v -> leaf (start - 1) (header (marker_byte kind) t) v.
Proof.
  intros Ht -> Hv.
  destruct kind; simpl in Hv |- *.
  - destruct (list_eqb t (bytes_of "OK")) eqn:E; subst v.
    + apply list_eqb_eq in E as ->. constructor.
    + replace start with (start - 1 + 1) by lia.
      replace (start - 1 + 1 - 1) with (start - 1) by lia. constructor; [auto|].
      intros ->. by rewrite (proj2 (list_eqb_eq _ _)) in E.
  - subst v. replace start with (start - 1 + 1) by lia.
    replace (start - 1 + 1 - 1) with (start - 1) by lia. by constructor; auto.
  - destruct Hv as (n & -> & ? & ?). by constructor.
  - destruct Hv as [-> ?]. by constructor; [left|].
  - destruct Hv as [-> ?]. by constructor; [right|].
Qed.

Lemma line_value_wf kind start q t v :
  1 <= start <= u32_max -> 0 <= q <= u32_max -> line_value_at kind start q t v -> kind_wf v.
Proof.
  intros Hs Hq Hv. destruct kind; simpl in Hv.
  - destruct (list_eqb t (bytes_of "OK")); subst v; [done|]. apply content_span_wf; lia.
  - subst v. apply content_span_wf; lia.
  - by destruct Hv as (n & -> & ? & ?).
  - by destruct Hv as [-> ?].
  - by destruct Hv as [-> ?].
Qed.

(** ** The invariant of an interrupted scan *)

Section invariant.
  Context {X V B T : Type} {vec : InlineVec V} {vec_laws : InlineVecLaws V}.
  Context {sink : Sink B T} {sink_laws : SinkLaws B T}.
  Context (byte_max node_max : Bound) (Hbytes : bound_wf byte_max) (Hnodes : bound_wf node_max).

Definition stack (s : State V) : list Z := as_slice (left s).

(** The bytes before [pos] are parsed and the tape [view] holds their values. *)
Definition parsed (l : list Z) (pos : Z) (st : list Z) (view : list Kind.Kind) : Prop :=
  history l pos (S (extra st)) view.

Definition slot_ok (slot : Slot) (view : list Kind.Kind) : Prop :=
  slot = zlen view + 1 /\ slot <= bound_value node_max.

Definition mode_inv (l : list Z) (s : State V) (view : list Kind.Kind) : Prop :=
  match mode s with
  | Mode.Start => stack s = [] /\ view = []
  | Mode.Marker e =>
      stack s <> [] /\ 1 <= e <= bound_value byte_max /\ parsed l e (stack s) view
  | Mode.Line kind p =>
      1 <= start p <= bound_value byte_max /\ start p <= zlen l /\
      get l (start p - 1) = Some (marker_byte kind) /\ slot_ok (slot p) view /\
      parsed l (start p - 1) (stack s) view /\
      scan_from s <= Z.max (zlen l - 1) (start p) /\
      forall j, start p <= j < scan_from s -> hit kind l j = false
  | Mode.Bulk e slot =>
      slot_ok slot view /\
      exists pos t n, parsed l pos (stack s) view /\ e = body_new (body_start e) (body_start e + n) /\
        pos <= body_start e /\ 1 <= body_start e <= zlen l /\ 0 <= n /\
        body_start e + n + 2 <= bound_value byte_max /\
        slice l pos (body_start e) = header 36 t /\ length_value t (Length.Count n)
  end.

Record scan_inv (l : list Z) (s : State V) (b : B) : Prop := {
  inv_sink : sink_ok b;
  inv_counts : counts (stack s);
  inv_depth : (length (stack s) <= MAX_DEPTH)%nat;
  inv_nodes : zlen (sink_view b) <= bound_value node_max;
  inv_scan : 0 <= scan_from s <= zlen l;
  inv_mode : mode_inv l s (sink_view b) }.

(** The bytes left to read, three turns for each. *)
Definition measure (l : list Z) (s : State V) : Z :=
  3 * (zlen l - mode_cursor (mode s)) +
  match mode s with Mode.Start | Mode.Marker _ => 0 | Mode.Line _ _ => 2 | Mode.Bulk _ _ => 1 end.

(** What a scan that returns [r] has established. *)
Definition return_ok (inp : Input X) (r : Scan.Scan X T) (s : State V) (b : B) : Prop :=
  match r with
  | Scan.Pending | Scan.Blocked | Scan.RetainCapacity => scan_inv (bytes inp) s b
  | Scan.Complete frame nodes consumed =>
      exists pos, 1 <= pos <= zlen (bytes inp) /\ pos <= bound_value byte_max /\
        try_prefix inp 0 pos = Ok (frame, consumed) /\
        s = state_new /\ sink_ok b /\ sink_view b = [] /\
        exists vs, tape_holds b nodes vs /\ values 0 1 (slice (bytes inp) 0 pos) vs /\
          zlen vs <= bound_value node_max
  | Scan.Invalid _ n | Scan.FrameCapacity _ n | Scan.ValueCapacity _ n =>
      exists amount, 1 <= amount <= zlen (bytes inp) /\ try_consumed inp amount = Ok n
  | Scan.Source error =>
      exists amount, 1 <= amount <= zlen (bytes inp) /\
        (try_consumed inp amount = Err error \/ try_prefix inp 0 amount = Err error)
  end.

Definition turn_ok (inp : Input X) (bound : Z) (t : Turn X V B T) : Prop :=
  match t with
  | Continue s b => scan_inv (bytes inp) s b /\ 0 <= measure (bytes inp) s < bound
  | Return r s b => return_ok inp r s b
  end.

Lemma scan_inv_sink l s b b' :
  scan_inv l s b -> sink_ok b' -> sink_view b' = sink_view b -> scan_inv l s b'.
Proof. intros [] Hok Hv. split; try done; by rewrite Hv. Qed.

Lemma mode_inv_app l more s view : mode_inv l s view -> mode_inv (l ++ more) s view.
Proof.
  unfold mode_inv, parsed. destruct (mode s) as [|e|kind p|e slot]; [done|..].
  - intros (? & ? & ?). split_and!; try done; try lia. by apply history_app.
  - intros (? & ? & ? & ? & ? & ? & Hh). rewrite length_app.
    split_and!; try done; try lia; [by apply get_Some_app|by apply history_app|].
    intros j Hj. rewrite hit_app by lia. auto.
  - intros (? & pos & t & n & Hp & ? & ? & ? & ? & ? & Hs & ?). split; [done|].
    exists pos, t, n. rewrite length_app. split_and!; try done; try lia; [by apply history_app|].
    destruct Hp. by rewrite slice_app_l by lia.
Qed.

Lemma scan_inv_app l more s b : scan_inv l s b -> scan_inv (l ++ more) s b.
Proof. intros []. split; try done; [rewrite length_app; lia|by apply mode_inv_app]. Qed.

Lemma cursor_bounds l s view : mode_inv l s view -> 0 <= mode_cursor (mode s) <= zlen l.
Proof.
  unfold mode_inv, parsed. destruct (mode s) as [|e|kind p|e slot]; simpl; [lia|..].
  - intros (? & ? & [? _]). lia.
  - lia.
  - intros (? & pos & t & n & ?). lia.
Qed.

Lemma measure_bounds l s b :
  scan_inv l s b -> 0 <= measure l s < 3 * (1 + zlen l).
Proof.
  intros Hs. pose proof (cursor_bounds _ _ _ (inv_mode _ _ _ Hs)). unfold measure.
  destruct (mode s); lia.
Qed.

Lemma consumed_ok inp amount build s b :
  1 <= amount <= zlen (bytes inp) ->
  (forall n, match build n with
     Scan.Invalid _ m | Scan.FrameCapacity _ m | Scan.ValueCapacity _ m => m = n | _ => False end) ->
  return_ok inp (consumed inp amount build) s b.
Proof.
  intros Ha Hb. unfold consumed. destruct (try_consumed inp amount) as [n|x] eqn:E.
  - specialize (Hb n). destruct (build n); simpl; try done; subst; by exists amount.
  - exists amount. auto.
Qed.

Lemma finish_value_loop_spec fuel s e :
  (length (stack s) < fuel)%nat -> counts (stack s) ->
  exists s' c, finish_value_loop fuel s e = (s', c) /\ stack s' = settle (stack s) /\
    scan_from s' = scan_from s /\
    match c with
    | Completion.Root => settle (stack s) = []
    | Completion.Nested => settle (stack s) <> [] /\ mode s' = Mode.Marker e
    end.
Proof.
  revert s. induction fuel as [|fuel IH]; intros s Hf Hc; [lia|]. simpl.
  fold (stack s). destruct (stack s) as [|n st _] eqn:E using rev_ind; simpl.
  - exists s, Completion.Root. by rewrite E.
  - rewrite last_snoc. rewrite length_app in Hf. simpl in Hf.
    apply Forall_app in Hc as [Hc Hn].
    destruct (Z.eqb_spec (n - 1) 0).
    + assert (stack (set_left s (pop (left s))) = st) as Es
        by (unfold stack; simpl; by eapply as_slice_pop).
      destruct (IH (set_left s (pop (left s)))) as (s' & c & E1 & E2 & E3 & E4);
        rewrite ?Es; [lia|done|]. exists s', c. rewrite Es in *.
      replace n with 1 by lia. by rewrite settle_one.
    + eexists _, _. split; [done|]. unfold stack; simpl. rewrite settle_more by lia.
      split_and!; [by eapply as_slice_set_last|done|by destruct st|done].
Qed.

Lemma finish_value_spec s e :
  counts (stack s) ->
  exists s' c, finish_value s e = (s', c) /\ stack s' = settle (stack s) /\
    scan_from s' = scan_from s /\
    match c with
    | Completion.Root => settle (stack s) = []
    | Completion.Nested => settle (stack s) <> [] /\ mode s' = Mode.Marker e
    end.
Proof. apply finish_value_loop_spec. unfold stack. lia. Qed.

(** The hypotheses under which a value that ends at [e] has been stored. *)
Definition stored_ok (l : list Z) (s : State V) (e : End) (b : B) : Prop :=
  sink_ok b /\ counts (stack s) /\ (length (stack s) <= MAX_DEPTH)%nat /\
  zlen (sink_view b) <= bound_value node_max /\ sink_view b <> [] /\
  0 <= scan_from s <= zlen l /\
  1 <= e <= zlen l /\ e <= bound_value byte_max /\ history l e (extra (stack s)) (sink_view b).

Lemma finish_stored_ok inp s e b bound :
  stored_ok (bytes inp) s e b -> 3 * (zlen (bytes inp) - e) < bound ->
  turn_ok inp bound (finish_stored inp s e b).
Proof.
  intros (Hb & Hc & Hd & Hv & Hne & Hf & He & Hmax & Hh) Hm.
  destruct (settle_facts _ Hc) as (Hc' & Hlen & Hex).
  unfold finish_stored. destruct (finish_value_spec s e Hc) as (s' & c & -> & Hst & Hsf & Hcase).
  destruct c; simpl.
  - rewrite Hcase in Hex. rewrite Hex in Hh. unfold complete.
    assert (end_consumed e = e) as ->.
    { unfold end_consumed. rewrite nonzero_succ_small; [lia|]. destruct Hbytes. lia. }
    destruct (try_prefix inp 0 e) as [[frame consumed]|x] eqn:E.
    + destruct (sink_finish b) as [b' t] eqn:Es. simpl.
      destruct (sink_finish_view b b' t Hb Hne Es) as (? & ? & Ht). exists e.
      split_and!; try done; try lia. exists (sink_view b). split_and!; try done.
      by apply history_done.
    + exists e. auto.
  - destruct Hcase as [Hne' Hmode]. unfold measure. rewrite Hmode. simpl. split; [|lia].
    split; try done; rewrite ?Hst, ?Hsf; try done; try lia.
    unfold mode_inv. rewrite Hmode, Hst. split_and!; try done; try lia.
    unfold parsed. rewrite Hex in Hh. by destruct (settle (stack s)).
Qed.

Lemma write_value_ok inp s b slot v restore stored bound :
  sink_ok b -> kind_wf v -> slot_ok slot (sink_view b) ->
  scan_inv (bytes inp) (set_mode s (mode_restore restore slot)) b ->
  (forall b', sink_ok b' -> sink_view b' = sink_view b ++ [v] -> turn_ok inp bound (stored b')) ->
  turn_ok inp bound (write_value s b slot v restore stored).
Proof.
  intros Hb Hv [Hs1 Hs2] Hr Hst. unfold write_value.
  destruct (try_push b slot v) as [b' r] eqn:E.
  destruct (try_push_view b slot v b' r Hb Hv) as [Hb' Hview]; [|destruct Hnodes; lia|done|].
  { by rewrite sink_len_view. }
  destruct r; simpl in *; [by apply Hst|by eapply scan_inv_sink..].
Qed.

Lemma bound_consumed_value : bound_consumed byte_max = bound_value byte_max.
Proof. unfold bound_consumed. destruct Hbytes. rewrite nonzero_succ_small; lia. Qed.

Lemma end_consumed_small e : 1 <= e <= bound_value byte_max -> end_consumed e = e.
Proof. intros. unfold end_consumed. destruct Hbytes. rewrite nonzero_succ_small; lia. Qed.

Lemma frame_next_Err used e :
  frame_next byte_max used = Err e -> bound_value byte_max <= used.
Proof. unfold frame_next. intros H. split_match_in H; simplify_eq. by reflect_bool. Qed.

(** The position and the history of a state that waits for a marker. *)
Lemma marker_position l s view :
  mode_inv l s view -> match mode s with Mode.Start | Mode.Marker _ => True | _ => False end ->
  parsed l (mode_cursor (mode s)) (stack s) view.
Proof.
  unfold mode_inv. destruct (mode s); simpl; try done.
  - intros [-> ->] _. apply history_init.
  - tauto.
Qed.

Lemma step_marker_ok inp s b :
  scan_inv (bytes inp) s b ->
  match mode s with Mode.Start | Mode.Marker _ => True | _ => False end ->
  turn_ok inp (measure (bytes inp) s) (step_marker inp byte_max node_max s b).
Proof.
  intros Hs Hm. pose proof (marker_position _ _ _ (inv_mode _ _ _ Hs) Hm) as Hp.
  destruct (Hp) as [Hc _]. unfold step_marker.
  assert (measure (bytes inp) s = 3 * (zlen (bytes inp) - mode_cursor (mode s))) as ->
    by (unfold measure; destruct (mode s); (done || lia)).
  set (c := mode_cursor (mode s)) in *.
  destruct (get (bytes inp) c) as [m|] eqn:Em; [|done].
  apply get_Some_bounds in Em as Hlt.
  destruct (frame_next byte_max c) as [e|x] eqn:En.
  2: { apply frame_next_Err in En. simpl. apply consumed_ok; [|done].
       rewrite bound_consumed_value. destruct Hbytes. lia. }
  apply frame_next_Ok in En as [-> Hmax]; [|done|lia].
  pose proof (sink_len_view b (inv_sink _ _ _ Hs)) as Hlen.
  destruct (value_next node_max (sink_len b)) as [slot|x] eqn:Ev.
  2: { simpl. apply consumed_ok; [|done]. rewrite end_consumed_small; lia. }
  apply value_next_Ok in Ev as [-> Hslot]; [|done|lia].
  destruct (marker_line m) as [kind|] eqn:Ek.
  2: { simpl. apply consumed_ok; [|done]. rewrite end_consumed_small; lia. }
  apply marker_line_Some in Ek as ->. simpl. unfold measure. simpl. split; [|lia].
  destruct Hs as [Hok Hct Hdep Hnod Hscan _]. split; try done; simpl; [lia|].
  unfold mode_inv, stack, slot_ok. simpl. replace (c + 1 - 1) with c by lia.
  split_and!; try done; try lia.
Qed.

(** A line that was found at [start], with its terminator at [q]. *)
Definition found_at (l : list Z) (kind : Line.Line) (start q : Z) : Prop :=
  1 <= start <= q /\ q + 2 <= zlen l /\ q + 2 <= bound_value byte_max /\
  slice l (start - 1) (q + 2) = header (marker_byte kind) (slice l start q) /\
  (is_text kind = true -> text (slice l start q)).

(** The turn keeps its state when it has to wait for room. *)
Definition keeps (l : list Z) (s : State V) (kind : Line.Line) (start : End) (slot : Slot)
    (b : B) : Prop :=
  scan_inv l (set_mode s (mode_line kind start slot)) b.

Lemma keeps_parts l s kind start slot b :
  keeps l s kind start slot b ->
  sink_ok b /\ counts (stack s) /\ (length (stack s) <= MAX_DEPTH)%nat /\
  zlen (sink_view b) <= bound_value node_max /\ 0 <= scan_from s <= zlen l /\
  slot_ok slot (sink_view b) /\ parsed l (start - 1) (stack s) (sink_view b).
Proof. intros [? ? ? ? ? Hm]. unfold mode_inv in Hm. simpl in Hm. tauto. Qed.

Lemma store_leaf_ok inp s b kind start slot q v bound :
  keeps (bytes inp) s kind start slot b -> found_at (bytes inp) kind start q ->
  line_value_at kind start q (slice (bytes inp) start q) v ->
  3 * (zlen (bytes inp) - (q + 2)) < bound ->
  turn_ok inp bound
    (write_value s b slot v (RestoreTo.Line kind start) (finish_stored inp s (q + 2))).
Proof.
  intros Hk (Hsq & Hq & Hmax & Hhd & Htx) Hv Hm.
  destruct (keeps_parts _ _ _ _ _ _ Hk) as (Hok & Hct & Hdep & Hnod & Hscan & Hslot & Hp).
  assert (zlen (slice (bytes inp) start q) = q - start) as Hl by (rewrite length_slice; lia).
  apply write_value_ok; try done.
  { destruct Hbytes. eapply line_value_wf; [..|exact Hv]; lia. }
  intros b' Hok' Hview. apply finish_stored_ok; [|done].
  destruct Hslot as [-> Hslot]. unfold stored_ok. rewrite Hview, length_app. simpl.
  split_and!; try done; try lia; [by destruct (sink_view b)|].
  eapply history_leaf; [exact Hp|lia|]. rewrite Hhd. eapply line_leaf; [done| |exact Hv]. lia.
Qed.

Lemma step_array_ok inp s b start slot q n bound :
  keeps (bytes inp) s Line.Array start slot b -> found_at (bytes inp) Line.Array start q ->
  length_value (slice (bytes inp) start q) (Length.Count n) -> 0 <= n <= u32_max ->
  3 * (zlen (bytes inp) - (q + 2)) < bound ->
  turn_ok inp bound (step_array inp s b Line.Array start slot (q + 2) n).
Proof.
  intros Hk (Hsq & Hq & Hmax & Hhd & _) Hv Hn Hm.
  destruct (keeps_parts _ _ _ _ _ _ Hk) as (Hok & Hct & Hdep & Hnod & Hscan & [-> Hslot] & Hp).
  pose proof (history_array _ _ (q + 2) _ _ _ n Hp ltac:(lia) Hhd ltac:(lia) Hv) as Hh.
  unfold step_array. destruct (Z.eqb_spec n 0) as [->|Hn0].
  - apply write_value_ok; try done. intros b' Hok' Hview. apply finish_stored_ok; [|done].
    unfold stored_ok. rewrite Hview, length_app. simpl.
    split_and!; try done; try lia. by destruct (sink_view b).
  - destruct (vacancy (left s)) as [insert|] eqn:Ev.
    2: { simpl. apply consumed_ok; [|done]. rewrite end_consumed_small; lia. }
    apply write_value_ok; try done. intros b' Hok' Hview.
    assert (as_slice (insert n) = stack s ++ [n]) as Hst by by eapply vacancy_insert.
    assert (length (stack s) < MAX_DEPTH)%nat as Hlt.
    { destruct (decide (MAX_DEPTH <= length (stack s))%nat) as [Hle|]; [|lia].
      apply vacancy_full in Hle. congruence. }
    simpl. unfold measure. simpl. split; [|lia].
    split; unfold stack; simpl; rewrite ?Hst; try done.
    + apply Forall_app. split; [done|]. apply Forall_singleton. lia.
    + rewrite length_app. simpl. lia.
    + rewrite Hview, length_app. simpl. lia.
    + unfold mode_inv, stack, parsed. simpl. rewrite Hst, Hview, extra_snoc.
      split_and!; [by destruct (stack s)|lia|lia|].
      replace (S (extra (stack s) + Z.to_nat (n - 1))) with (Z.to_nat n + extra (stack s))%nat
        by lia. done.
Qed.

Lemma frame_body_Ok start length body :
  1 <= start <= u32_max -> 0 <= length ->
  frame_body byte_max start length = Ok body ->
  start + length + 2 <= bound_value byte_max /\ body = body_new start (start + length) /\
  body_start body = start /\ body_stop body = start + length.
Proof.
  intros Hs Hl. unfold frame_body, mbind, result_bind.
  destruct (count byte_max length (start + 2)) as [n|] eqn:E; [|done]. intros [= <-].
  apply count_Ok in E as [-> E]; [|done|lia|lia]. destruct Hbytes.
  rewrite body_start_new, body_stop_new by lia. split_and!; (done || lia).
Qed.

Lemma value_array_Ok used declared n :
  0 <= used -> 0 <= declared -> value_array node_max used declared = Ok n ->
  n = declared /\ used + 1 + n <= bound_value node_max.
Proof.
  intros Hu Hd H. apply count_Ok in H as [-> H]; [split; lia|done|lia|lia].
Qed.

Lemma length_value_nonneg t n : length_value t (Length.Count n) -> 0 <= n.
Proof.
  intros [(_ & Hd & -> & _)|(ds & _ & _ & _ & _ & ->)]; [by apply decimal_nonneg|lia].
Qed.

Lemma bulk_turn_ok s b start slot q n l finish bound :
  keeps l s Line.Bulk start slot b -> found_at l Line.Bulk start q ->
  length_value (slice l start q) (Length.Count n) ->
  frame_body byte_max (q + 2) n = Ok finish -> 3 * (zlen l - (q + 2)) + 1 < bound ->
  scan_inv l (set_mode s (Mode.Bulk finish slot)) b /\
  0 <= measure l (set_mode s (Mode.Bulk finish slot)) < bound.
Proof.
  intros Hk (Hsq & Hq & Hmax & Hhd & _) Hv Hf Hm.
  destruct (keeps_parts _ _ _ _ _ _ Hk) as (Hok & Hct & Hdep & Hnod & Hscan & Hslot & Hp).
  pose proof (length_value_nonneg _ _ Hv).
  apply frame_body_Ok in Hf as (Hend & -> & E1 & E2); [|destruct Hbytes; lia|done].
  unfold measure. simpl. rewrite E1. split; [|lia]. split; try done.
  unfold mode_inv. simpl. split; [done|]. exists (start - 1), (slice l start q), n.
  rewrite E1. split_and!; (done || lia).
Qed.

Lemma step_found_ok inp s b kind start slot q bound :
  Forall is_byte (bytes inp) ->
  keeps (bytes inp) s kind start slot b -> found_at (bytes inp) kind start q ->
  3 * (zlen (bytes inp) - (q + 2)) + 1 < bound ->
  turn_ok inp bound (step_found inp byte_max node_max s b kind start slot
    (slice (bytes inp) start q) (q + 2) (body_new start q)).
Proof.
  intros Hby Hk Hf Hm. destruct (Hf) as (Hsq & Hq & Hmax & Hhd & Htx).
  destruct (keeps_parts _ _ _ _ _ _ Hk) as (Hok & Hct & Hdep & Hnod & Hscan & Hslot & Hp).
  assert (forall f, (forall n, match f n with Scan.Invalid _ m | Scan.FrameCapacity _ m
      | Scan.ValueCapacity _ m => m = n | _ => False end) ->
    turn_ok inp bound (Return (consumed inp (end_consumed (q + 2)) f)
      (set_mode s (mode_line kind start slot)) b)) as Hfail.
  { intros f Hb. simpl. apply consumed_ok; [|done]. rewrite end_consumed_small; lia. }
  assert (forall v, line_value_at kind start q (slice (bytes inp) start q) v ->
    turn_ok inp bound (write_value s b slot v (RestoreTo.Line kind start)
      (finish_stored inp s (q + 2) : B -> Turn X V B T))) as Hstore
    by (intros; apply store_leaf_ok; (done || lia)).
  pose proof (fun k t => number_length_spec (slice (bytes inp) start q) (body_new start q) k t
    (bytes_slice _ _ _ Hby)) as Hlen.
  destruct kind; unfold step_found.
  - destruct (list_eqb _ _) eqn:E; apply Hstore; simpl; by rewrite E.
  - by apply Hstore.
  - destruct (signed _ _) as [n|x] eqn:E; [|by apply Hfail].
    apply signed_spec in E as [? ?]; [|by apply bytes_slice]. apply Hstore. by exists n.
  - destruct (number_length _ _ _) as [len|x] eqn:E; [|by apply Hfail].
    apply Hlen in E. destruct len as [|n]; [by apply Hstore|].
    destruct (frame_body _ _ _) as [finish|x] eqn:Ef; [|by apply Hfail].
    simpl. by eapply bulk_turn_ok.
  - destruct (number_length _ _ _) as [len|x] eqn:E; [|by apply Hfail].
    apply Hlen in E. destruct len as [|n]; [by apply Hstore|].
    pose proof (length_value_nonneg _ _ E). rewrite sink_len_view by done.
    destruct (value_array _ _ _) as [m|x] eqn:Ev; [|by apply Hfail].
    apply value_array_Ok in Ev as [-> Hv]; [|lia|lia]. destruct Hnodes.
    apply step_array_ok; (done || lia).
Qed.

Lemma step_line_ok inp s b kind p :
  Forall is_byte (bytes inp) -> scan_inv (bytes inp) s b -> mode s = Mode.Line kind p ->
  turn_ok inp (measure (bytes inp) s)
    (step_line inp byte_max node_max (set_mode s Mode.Start) b kind p).
Proof.
  intros Hby Hs Hm. pose proof (inv_mode _ _ _ Hs) as Hi. unfold mode_inv in Hi.
  rewrite Hm in Hi. destruct Hi as (Hst & Hlen & Hmk & Hslot & Hp & Hsc & Hhits).
  destruct p as [start slot]. simpl in *.
  assert (measure (bytes inp) s = 3 * (zlen (bytes inp) - start) + 2) as ->
    by (unfold measure; rewrite Hm; done).
  assert (keeps (bytes inp) s kind start slot b) as Hk.
  { destruct Hs. by split. }
  pose proof (inv_scan _ _ _ Hs) as Hscan. unfold step_line. simpl.
  destruct (find (bytes inp) start (scan_from s) kind) as [[line|]|[[offset x] y]] eqn:Ef.
  - apply find_Some_at in Ef as (q & Hq & Hq2 & -> & H1 & H2 & Hall); [|lia].
    unfold frame_line. rewrite line_stop_slice by lia. simpl.
    destruct (frame_next byte_max (q + 1)) as [e|x] eqn:En.
    2: { apply frame_next_Err in En. simpl. apply consumed_ok; [|done].
         rewrite bound_consumed_value. destruct Hbytes. lia. }
    apply frame_next_Ok in En as [-> Hmax]; [|done|lia]. simpl.
    replace (q + 1 + 1) with (q + 2) by lia.
    assert (as_u32 q = q) as -> by (destruct Hbytes; apply as_u32_small; lia).
    apply step_found_ok; [done|by destruct Hk| |lia].
    split_and!; try lia; [by apply slice_header; [lia|..]|]. intros Ht.
    eapply text_slice; [done|lia|lia|]. intros j Hj.
    destruct (decide (j < scan_from s)); [apply Hhits|apply Hall]; lia.
  - pose proof (fun j => find_None_hits (bytes inp) start (scan_from s) kind j
      ltac:(lia) ltac:(lia) Ef) as Hnone.
    assert (scan_inv (bytes inp) (set_mode (set_scan (set_mode s Mode.Start)
      (Z.max (Z.max (zlen (bytes inp) - 1) 0) start)) (mode_line kind start slot)) b) as Hnew.
    { destruct Hs. split; try done; simpl; [lia|]. unfold mode_inv. simpl.
      split_and!; try done; try lia. intros j Hj.
      destruct (decide (j < scan_from s)); [apply Hhits; lia|].
      apply Hnone; lia. }
    destruct (frame_check byte_max _) as [[]|x] eqn:Ec; [exact Hnew|].
    simpl. apply consumed_ok; [|done]. unfold frame_check in Ec.
    split_match_in Ec; simplify_eq. reflect_bool. rewrite bound_consumed_value.
    destruct Hbytes. lia.
  - apply find_Err_at in Ef; [|lia].
    destruct (frame_next byte_max offset) as [e|] eqn:En; simpl; (apply consumed_ok; [|done]).
    + apply frame_next_Ok in En as [-> Hmax]; [|done|lia]. rewrite end_consumed_small; lia.
    + apply frame_next_Err in En. rewrite bound_consumed_value. destruct Hbytes. lia.
Qed.

Lemma step_bulk_ok inp s b e slot :
  scan_inv (bytes inp) s b -> mode s = Mode.Bulk e slot ->
  turn_ok inp (measure (bytes inp) s) (step_bulk inp (set_mode s Mode.Start) b e slot).
Proof.
  intros Hs Hm. pose proof (inv_mode _ _ _ Hs) as Hi. unfold mode_inv in Hi.
  rewrite Hm in Hi. destruct Hi as (Hslot & pos & t & n & Hp & He & Hpos & Hst & Hn & Hmax & Hhd & Ht).
  assert (measure (bytes inp) s = 3 * (zlen (bytes inp) - body_start e) + 1) as ->
    by (unfold measure; rewrite Hm; done).
  assert (scan_inv (bytes inp) (set_mode (set_mode s Mode.Start) (Mode.Bulk e slot)) b) as Hk.
  { destruct Hs. split; try done. unfold mode_inv. simpl. split; [done|]. by exists pos, t, n. }
  destruct Hbytes as [_ Hb32]. set (start := body_start e) in *.
  assert (body_stop e = start + n) as Estop by (rewrite He; apply body_stop_new; lia).
  assert (body_end e = start + n + 2) as Eend
    by (unfold body_end; rewrite Estop, nonzero_succ_small; lia).
  unfold step_bulk, body_get. rewrite Estop.
  destruct (get_range (bytes inp) (start + n) (start + n + 2)) as [pair|] eqn:Eg; [|exact Hk].
  apply get_range_Some in Eg as (Hr1 & Hr2 & ->).
  destruct (get_is_Some (bytes inp) (start + n)) as [cr Hcr]; [lia|].
  destruct (get_is_Some (bytes inp) (start + n + 1)) as [lf Hlf]; [lia|].
  rewrite (slice_pair _ _ cr lf) by (done || lia).
  destruct (negb (cr =? 13) || negb (lf =? 10))%bool eqn:Eb.
  { destruct (negb (cr =? 13)); simpl; (apply consumed_ok; [|done]);
      unfold body_consumed; rewrite Eend, end_consumed_small; lia. }
  apply orb_false_iff in Eb as [E1 E2]. reflect_bool. subst cr lf.
  apply write_value_ok; try done; [by destruct Hs|..].
  { simpl. rewrite He. apply content_span_wf; lia. }
  intros b' Hok' Hview.
  change (turn_ok inp (3 * (zlen (bytes inp) - start) + 1)
    (finish_stored inp (set_mode s Mode.Start) (body_end e) b')).
  rewrite Eend. destruct Hs, Hslot. apply finish_stored_ok; [|lia].
  unfold stored_ok. rewrite Hview, length_app. simpl.
  split_and!; try done; try lia; [by destruct (sink_view b)|].
  eapply history_leaf; [exact Hp|lia|]. destruct Hp as [Hpos0 _].
  assert (zlen (slice (bytes inp) start (start + n)) = n) as El by (rewrite length_slice; lia).
  rewrite (slice_split _ pos start), Hhd, (slice_split _ start (start + n)) by lia.
  rewrite (slice_pair _ (start + n) 13 10) by (done || lia).
  assert (pos + zlen (header 36 t) = start) as Eh
    by (rewrite <- Hhd, length_slice by lia; lia).
  pose proof (leaf_bulk pos t (slice (bytes inp) start (start + n))) as Hleaf.
  rewrite El, Eh in Hleaf. unfold span_terminated. clearbody start. subst e. by apply Hleaf.
Qed.

Lemma step_ok inp s b :
  Forall is_byte (bytes inp) -> scan_inv (bytes inp) s b ->
  turn_ok inp (measure (bytes inp) s) (step inp byte_max node_max s b).
Proof.
  intros Hby Hs. unfold step. destruct (mode s) as [|e|kind p|e slot] eqn:E.
  - apply step_marker_ok; [done|by rewrite E].
  - apply step_marker_ok; [done|by rewrite E].
  - by apply step_line_ok.
  - by apply step_bulk_ok.
Qed.

Lemma scan_loop_ok fuel inp s b :
  Forall is_byte (bytes inp) -> scan_inv (bytes inp) s b ->
  measure (bytes inp) s < Z.of_nat fuel ->
  exists r s' b', scan_loop fuel inp byte_max node_max s b = Some (r, s', b') /\
    return_ok inp r s' b'.
Proof.
  intros Hby. revert s b. induction fuel as [|fuel IH]; intros s b Hs Hf.
  { pose proof (measure_bounds _ _ _ Hs). lia. }
  simpl. pose proof (step_ok inp s b Hby Hs) as Ht.
  destruct (step inp byte_max node_max s b) as [s' b'|r s' b']; [|by exists r, s', b'].
  simpl in Ht. apply IH; [tauto|lia].
Qed.

Lemma scan_inv_new l b : sink_ok b -> sink_view b = [] -> scan_inv l state_new b.
Proof.
  intros Hb Hv. split; rewrite ?Hv; unfold mode_inv, stack; simpl; rewrite ?as_slice_new;
    try done; try (destruct Hnodes; simpl; lia). constructor.
Qed.

Lemma scan_in_place (inp : Input X) s b :
  scan_inv (bytes inp) s b ->
  scan inp byte_max node_max s b = scan_loop (scan_fuel inp) inp byte_max node_max s b.
Proof.
  intros Hs. pose proof (cursor_bounds _ _ _ (inv_mode _ _ _ Hs)). pose proof (inv_scan _ _ _ Hs).
  unfold scan. destruct (_ || _)%bool eqn:E; [lia|done].
Qed.

(** A scan starts from a consistent state, or restarts because the window
    shrank below what the state has seen. *)
Definition scan_ready (l : list Z) (s : State V) (b : B) : Prop :=
  scan_inv l s b \/ (sink_ok b /\ (zlen l < mode_cursor (mode s) \/ zlen l < scan_from s)).

Lemma scan_ok inp s b :
  Forall is_byte (bytes inp) -> scan_ready (bytes inp) s b ->
  exists r s' b', scan inp byte_max node_max s b = Some (r, s', b') /\ return_ok inp r s' b'.
Proof.
  intros Hby Hr. unfold scan.
  assert (forall s b, scan_inv (bytes inp) s b ->
    measure (bytes inp) s < Z.of_nat (scan_fuel inp)) as Hfuel.
  { intros s0 b0 H0. pose proof (measure_bounds _ _ _ H0). unfold scan_fuel. lia. }
  destruct ((zlen (bytes inp) <? mode_cursor (mode s)) || (zlen (bytes inp) <? scan_from s))%bool
    eqn:E.
  - assert (sink_ok b) as Hb by (destruct Hr as [[]|[? _]]; done).
    destruct (sink_reset_view b Hb) as [Hok Hv].
    pose proof (scan_inv_new (bytes inp) _ Hok Hv). apply scan_loop_ok; eauto.
  - destruct Hr as [Hs|[_ Hlt]]; [apply scan_loop_ok; eauto|]. reflect_bool. lia.
Qed.

(** ** Sessions *)

(** The scans of one frame: every interrupted scan is followed by another one
    on a window that has grown, or was cut and is parsed again from its start;
    meanwhile the other owners of the storage may act, the tape stays. *)
Inductive session : Input X -> State V -> B -> Prop :=
| session_start inp b : sink_ok b -> sink_view b = [] -> session inp state_new b
| session_next inp s b r s' b' inp' b'' :
    session inp s b -> Forall is_byte (bytes inp) ->
    scan inp byte_max node_max s b = Some (r, s', b') ->
    r = Scan.Pending \/ r = Scan.Blocked \/ r = Scan.RetainCapacity ->
    (exists more, bytes inp' = bytes inp ++ more) \/ zlen (bytes inp') < mode_cursor (mode s') ->
    sink_ok b'' -> sink_view b'' = sink_view b' -> session inp' s' b''.

Lemma session_ready inp s b : session inp s b -> scan_ready (bytes inp) s b.
Proof.
  induction 1 as [inp b Hb Hv|inp s b r s' b' inp' b'' _ IH Hby Hscan Hr Hin Hb Hv].
  - left. by apply scan_inv_new.
  - destruct (scan_ok inp s b Hby IH) as (r0 & s0 & b0 & E & Hok). rewrite E in Hscan.
    injection Hscan as -> -> ->.
    assert (scan_inv (bytes inp) s' b') as Hs by (destruct Hr as [->|[->| ->]]; exact Hok).
    destruct Hin as [[more ->]|Hlt]; [left|right; auto].
    apply scan_inv_app. by eapply scan_inv_sink.
Qed.

(** ** Chunking *)

(** States that behave alike on [l]: they may have searched the pending line
    up to different positions. *)
Definition alike (l : list Z) (s t : State V) : Prop :=
  left s = left t /\ mode s = mode t /\
  match mode s with
  | Mode.Line kind p => find l (start p) (scan_from s) kind = find l (start p) (scan_from t) kind
  | _ => True
  end.

Definition turn_alike (l : list Z) (x y : Turn X V B T) : Prop :=
  match x, y with
  | Continue s b, Continue t c => b = c /\ alike l s t
  | Return r s b, Return r' t c => r = r' /\ b = c /\ left s = left t /\ mode s = mode t
  | _, _ => False
  end.

Lemma finish_value_loop_alike fuel s t e :
  left s = left t -> mode s = mode t ->
  left (finish_value_loop fuel s e).1 = left (finish_value_loop fuel t e).1 /\
  mode (finish_value_loop fuel s e).1 = mode (finish_value_loop fuel t e).1 /\
  (finish_value_loop fuel s e).2 = (finish_value_loop fuel t e).2.
Proof.
  revert s t. induction fuel as [|fuel IH]; intros s t Hl Hm; simpl; [done|].
  rewrite <- Hl. destruct (last _) as [n|]; [|done].
  destruct (n - 1 =? 0); [|done]. by apply IH.
Qed.

Lemma finish_value_loop_mode fuel s e :
  (finish_value_loop fuel s e).2 = Completion.Nested ->
  mode (finish_value_loop fuel s e).1 = Mode.Marker e.
Proof.
  revert s. induction fuel as [|fuel IH]; intros s; simpl; [done|].
  destruct (last _); [|done]. destruct (_ =? 0); [apply IH|done].
Qed.

Lemma finish_stored_alike l inp s t e b :
  left s = left t -> mode s = mode t -> mode s = Mode.Start ->
  turn_alike l (finish_stored inp s e b : Turn X V B T) (finish_stored inp t e b).
Proof.
  intros Hl Hm Hst. unfold finish_stored, finish_value. rewrite Hl.
  pose proof (finish_value_loop_alike (S (length (as_slice (left t)))) s t e Hl Hm) as (E1 & E2 & E3).
  pose proof (finish_value_loop_mode (S (length (as_slice (left t)))) s e) as Hmode.
  destruct (finish_value_loop _ s e) as [s' c], (finish_value_loop _ t e) as [t' c'].
  simpl in *. subst c'. destruct c.
  - unfold complete. destruct (try_prefix _ _ _) as [[]|]; [by destruct (sink_finish b)|done].
  - simpl. unfold alike. rewrite <- E2, Hmode by done. done.
Qed.

Lemma write_value_alike l s t b slot v restore f g :
  left s = left t ->
  (forall b', turn_alike l (f b') (g b')) ->
  turn_alike l (write_value s b slot v restore f : Turn X V B T) (write_value t b slot v restore g).
Proof. intros Hl Hfg. unfold write_value. destruct (try_push _ _ _) as [b' []]; [auto|done..]. Qed.

Lemma step_found_alike l inp s t b kind start slot line e body :
  left s = left t -> mode s = Mode.Start -> mode t = Mode.Start ->
  turn_alike l (step_found inp byte_max node_max s b kind start slot line e body : Turn X V B T)
    (step_found inp byte_max node_max t b kind start slot line e body).
Proof.
  intros Hl Hs Ht.
  assert (forall b', turn_alike l (finish_stored inp s e b' : Turn X V B T)
    (finish_stored inp t e b')) as Hf by (intros; apply finish_stored_alike; congruence).
  unfold step_found, step_array. rewrite <- Hl.
  repeat first [split_match | apply write_value_alike; [done|]]; try done; try apply Hf;
    try (intros; apply Hf); try (intros; simpl; unfold alike; simpl; by rewrite Hl).
Qed.

Lemma step_alike inp s t b :
  alike (bytes inp) s t ->
  turn_alike (bytes inp) (step inp byte_max node_max s b : Turn X V B T)
    (step inp byte_max node_max t b).
Proof.
  intros (Hl & Hm & Hf). unfold step. rewrite <- Hm. destruct (mode s) as [|e|kind p|e slot] eqn:Es.
  1,2: unfold step_marker; rewrite <- Hm, Es; repeat split_match; simpl; unfold alike; simpl;
    split_and!; congruence || done.
  - unfold step_line. simpl. rewrite <- Hf.
    destruct (find _ _ _ _) as [[line|]|[[offset x] y]].
    + destruct (frame_line _ _) as [[e body]|]; [|by simpl].
      by apply step_found_alike.
    + destruct (frame_check _ _) as [[]|]; by simpl.
    + destruct (frame_next _ _); by simpl.
  - unfold step_bulk. destruct (get_range _ _ _) as [[|cr [|lf [|]]]|]; try by simpl.
    destruct (_ || _)%bool; [by repeat split_match; simpl|].
    apply write_value_alike; [done|]. intros b'.
    by apply (finish_stored_alike (bytes inp) inp _ _ (body_end e) b').
Qed.

Lemma scan_loop_alike fuel (inp : Input X) s t b (r : Scan.Scan X T) s' b' :
  alike (bytes inp) s t -> scan_loop fuel inp byte_max node_max s b = Some (r, s', b') ->
  exists t', scan_loop fuel inp byte_max node_max t b = Some (r, t', b') /\
    left s' = left t' /\ mode s' = mode t'.
Proof.
  revert s t b. induction fuel as [|fuel IH]; intros s t b Ha H; [done|]. simpl in *.
  pose proof (step_alike inp s t b Ha) as Ht.
  destruct (step inp byte_max node_max s b) as [s1 b1|r1 s1 b1],
    (step inp byte_max node_max t b) as [t1 c1|r2 t1 c1]; simpl in Ht; try done.
  - destruct Ht as [-> Ht]. by eapply IH.
  - destruct Ht as (-> & -> & ? & ?). injection H as -> -> ->. by exists t1.
Qed.

(** More fuel changes nothing. *)
Lemma scan_loop_more fuel k (inp : Input X) s b (x : Scan.Scan X T * State V * B) :
  scan_loop fuel inp byte_max node_max s b = Some x ->
  scan_loop (fuel + k) inp byte_max node_max s b = Some x.
Proof.
  revert s b. induction fuel as [|fuel IH]; intros s b H; [done|]. simpl in *.
  destruct (step inp byte_max node_max s b); auto.
Qed.

(** A turn that goes on does so on every longer input. *)
Definition continues (x y : Turn X V B T) : Prop :=
  match x with Continue _ _ => y = x | Return _ _ _ => True end.

Lemma write_value_continues s b slot v restore f g :
  (forall b', continues (f b') (g b')) ->
  continues (write_value s b slot v restore f) (write_value s b slot v restore g).
Proof. intros Hfg. unfold write_value. by destruct (try_push _ _ _) as [b' []]. Qed.

Lemma finish_stored_continues inp inp' s e b :
  continues (finish_stored inp s e b : Turn X V B T) (finish_stored inp' s e b).
Proof.
  unfold finish_stored. destruct (finish_value s e) as [s' []]; [|done].
  unfold complete. destruct (try_prefix inp _ _) as [[]|]; [by destruct (sink_finish b)|done].
Qed.

Lemma step_found_continues inp inp' s b kind start slot line e body :
  continues (step_found inp byte_max node_max s b kind start slot line e body : Turn X V B T)
    (step_found inp' byte_max node_max s b kind start slot line e body).
Proof.
  unfold step_found, step_array.
  repeat first [split_match | apply write_value_continues; intros]; try done;
    apply finish_stored_continues.
Qed.

Lemma step_continues inp inp' more s b :
  bytes inp' = bytes inp ++ more -> scan_inv (bytes inp) s b ->
  continues (step inp byte_max node_max s b : Turn X V B T) (step inp' byte_max node_max s b).
Proof.
  intros Hin Hs. pose proof (inv_mode _ _ _ Hs) as Hi. unfold mode_inv in Hi. unfold step.
  destruct (mode s) as [|e|kind p|e slot] eqn:Es.
  1,2: unfold step_marker; rewrite Hin; destruct (get (bytes inp) _) as [m|] eqn:Em; [|done];
    rewrite (get_Some_app _ _ _ _ Em); by repeat split_match.
  - destruct Hi as (Hst & _). unfold step_line. simpl. rewrite Hin.
    destruct (find (bytes inp) (start p) (scan_from s) kind) as [[line|]|[[offset x] y]] eqn:Ef.
    + rewrite (find_app _ more (start p) _ _ _ ltac:(lia) Ef) by done.
      destruct (frame_line _ _) as [[e body]|]; [|done]. apply step_found_continues.
    + by destruct (frame_check _ _) as [[]|].
    + by destruct (frame_next _ _).
  - unfold step_bulk. rewrite Hin.
    destruct (get_range (bytes inp) _ _) as [[|cr [|lf [|]]]|] eqn:Eg; try done.
    rewrite (get_range_app _ _ _ _ _ Eg).
    destruct (_ || _)%bool; [by destruct (negb _)|]. apply write_value_continues. intros b'.
    apply (finish_stored_continues inp inp' _ (body_end e) b').
Qed.

(** Only a marker, a line or a bulk body that is not there yet waits for input. *)
Definition settled (x : Turn X V B T) : Prop :=
  match x with Return Scan.Pending _ _ => False | _ => True end.

Lemma consumed_settled inp n f s b :
  (forall n, match f n : Scan.Scan X T with Scan.Pending => False | _ => True end) ->
  settled (Return (consumed inp n f) s b).
Proof.
  intros Hf. unfold consumed. destruct (try_consumed inp n) as [m|]; [|done].
  specialize (Hf m). simpl. by destruct (f m).
Qed.

Lemma write_value_settled s b slot v restore f :
  (forall b', settled (f b')) -> settled (write_value s b slot v restore f).
Proof. intros Hf. unfold write_value. by destruct (try_push _ _ _) as [b' []]. Qed.

Lemma finish_stored_settled inp s e b : settled (finish_stored inp s e b).
Proof.
  unfold finish_stored. destruct (finish_value s e) as [s' []]; [|done].
  unfold complete. destruct (try_prefix inp _ _) as [[]|]; [by destruct (sink_finish b)|done].
Qed.

Lemma step_found_settled inp s b kind start slot line e body :
  settled (step_found inp byte_max node_max s b kind start slot line e body).
Proof.
  unfold step_found, step_array.
  repeat first [split_match | apply write_value_settled; intros]; try done;
    (apply finish_stored_settled || by apply consumed_settled).
Qed.

(** A turn that waits for input leaves a state alike on every longer input. *)
Lemma step_pending inp more s b s' b' :
  scan_inv (bytes inp) s b ->
  step inp byte_max node_max s b = Return (Scan.Pending : Scan.Scan X T) s' b' ->
  b' = b /\ alike (bytes inp ++ more) s s'.
Proof.
  intros Hs. pose proof (inv_mode _ _ _ Hs) as Hi. unfold mode_inv in Hi. unfold step.
  assert (forall x, settled x -> x <> Return Scan.Pending s' b') as Hne
    by (intros x Hx ->; done).
  destruct (mode s) as [|e|kind p|e slot] eqn:Es.
  1,2: unfold step_marker; rewrite Es; destruct (get (bytes inp) _) as [m|] eqn:Em;
    [|intros [= <- <-]; unfold alike; by rewrite Es];
    intros H; exfalso; revert H; apply Hne; repeat split_match; try done; by apply consumed_settled.
  - destruct Hi as (Hst & Hlen & _ & _ & _ & Hsc & _). unfold step_line. simpl.
    destruct (find _ _ _ _) as [[line|]|[[offset x] y]] eqn:Ef.
    + intros H. exfalso. revert H. apply Hne. destruct (frame_line _ _) as [[e body]|].
      * apply step_found_settled.
      * by apply consumed_settled.
    + destruct (frame_check _ _) as [[]|]; intros H; [|exfalso; revert H; apply Hne; by apply consumed_settled].
      injection H as <- <-. unfold alike. rewrite Es. simpl. split_and!; try done.
      by apply find_resume; [lia|..].
    + intros H. exfalso. revert H. apply Hne. destruct (frame_next _ _); by apply consumed_settled.
  - unfold step_bulk. destruct (get_range _ _ _) as [[|cr [|lf [|]]]|];
      try (intros [= <- <-]; unfold alike; by rewrite Es).
    intros H. exfalso. revert H. apply Hne. destruct (_ || _)%bool.
    + destruct (negb _); by apply consumed_settled.
    + apply write_value_settled. intros b0.
      apply (finish_stored_settled inp (set_mode s Mode.Start) (body_end e) b0).
Qed.

(** A scan that waits can be repeated from the state it left. *)
Lemma scan_loop_pending fuel (inp inp' : Input X) more s b s' b' fuel' (r : Scan.Scan X T) t c :
  Forall is_byte (bytes inp) -> bytes inp' = bytes inp ++ more -> scan_inv (bytes inp) s b ->
  scan_loop fuel inp byte_max node_max s b = Some (Scan.Pending : Scan.Scan X T, s', b') ->
  scan_loop fuel' inp' byte_max node_max s b = Some (r, t, c) ->
  exists t', scan_loop fuel' inp' byte_max node_max s' b' = Some (r, t', c) /\
    left t = left t' /\ mode t = mode t'.
Proof.
  intros Hby Hin. revert s b fuel'. induction fuel as [|fuel IH]; intros s b fuel' Hs Hp Hr; [done|].
  simpl in Hp. pose proof (step_ok inp s b Hby Hs) as Hok.
  destruct (step inp byte_max node_max s b) as [s1 b1|r1 s1 b1] eqn:Est.
  - destruct fuel' as [|fuel']; [done|]. simpl in Hr.
    pose proof (step_continues inp inp' more s b Hin Hs) as Hc. rewrite Est in Hc. simpl in Hc.
    rewrite Hc in Hr. destruct Hok as [Hs1 _].
    destruct (IH s1 b1 fuel' Hs1 Hp Hr) as (t' & Ht & Hl & Hm).
    exists t'. split; [|done]. rewrite <- (Nat.add_1_r fuel'). by apply scan_loop_more.
  - injection Hp as -> -> ->. destruct (step_pending inp more s b s' b' Hs Est) as [-> Ha].
    rewrite <- Hin in Ha. by eapply scan_loop_alike.
Qed.

(** The frame and the tape of a completed scan. *)
Lemma complete_facts inp frame nodes c s b :
  return_ok inp (Scan.Complete frame nodes c) s b ->
  (forall n f m, try_prefix inp 0 n = Ok (f, m) -> f = slice (bytes inp) 0 n /\ m = n) ->
  exists v vs rest, bytes inp = frame ++ rest /\ c = zlen frame /\
    wires [v] frame /\ tape_holds b nodes vs /\ reads frame vs [v] /\
    zlen frame <= bound_value byte_max /\ zlen vs <= bound_value node_max.
Proof.
  intros (pos & Hpos & Hmax & Hp & -> & Hok & Hview & vs & Hvs & Hv & Hn) Hpre.
  apply Hpre in Hp as [-> ->]. destruct Hbytes as [_ Hb32].
  assert (zlen (slice (bytes inp) 0 pos) = pos) as Hl by (rewrite length_slice; lia).
  destruct (values_wires _ _ _ _ [] [] Hv) as (rs & Hn1 & Hw & Hrd); [done|lia|].
  destruct rs as [|v [|]]; try done. rewrite app_nil_r in Hrd.
  exists v, vs, (drop (Z.to_nat pos) (bytes inp)). rewrite Hl.
  split_and!; try done. rewrite slice_0. by rewrite take_drop.
Qed.

(** ** Properties *)

(** C17. A scan always returns, within the fuel given, and never consumes an
    amount outside its window: over a window that admits all its amounts, an
    error is reported with the end of an amount between one and the length. *)
Theorem scan_total inp s b :
  Forall is_byte (bytes inp) -> session inp s b ->
  (forall n, 1 <= n <= zlen (bytes inp) ->
    is_ok (try_consumed inp n) = true /\ is_ok (try_prefix inp 0 n) = true) ->
  exists r s' b', scan inp byte_max node_max s b = Some (r, s', b') /\
    match r with
    | Scan.Source _ => False
    | Scan.Invalid _ n | Scan.FrameCapacity _ n | Scan.ValueCapacity _ n =>
        exists amount, 1 <= amount <= zlen (bytes inp) /\ try_consumed inp amount = Ok n
    | _ => True
    end.
Proof.
  intros Hby Hs Hin. destruct (scan_ok inp s b Hby (session_ready _ _ _ Hs)) as (r & s' & b' & E & Hr).
  exists r, s', b'. split; [done|]. destruct r; simpl in Hr; try done.
  destruct Hr as (n & Hn & [E1|E1]); destruct (Hin n Hn) as [H1 H2]; by rewrite E1 in *.
Qed.

(** C8. However its input was cut into windows and interrupted, a scan that
    completes returns exactly one frame: a prefix of the input that spells one
    value of the grammar, within the byte and value bounds, with a tape that
    reads back as that value; and it leaves the parser ready for the next one. *)
Theorem scan_sound inp s b frame nodes c s' b' :
  Forall is_byte (bytes inp) -> session inp s b ->
  (forall n f m, try_prefix inp 0 n = Ok (f, m) -> f = slice (bytes inp) 0 n /\ m = n) ->
  scan inp byte_max node_max s b = Some (Scan.Complete frame nodes c, s', b') ->
  exists v vs rest, bytes inp = frame ++ rest /\ c = zlen frame /\
    wires [v] frame /\ tape_holds b' nodes vs /\ reads frame vs [v] /\
    zlen frame <= bound_value byte_max /\ zlen vs <= bound_value node_max /\
    forall inp', session inp' s' b'.
Proof.
  intros Hby Hs Hpre Hscan.
  destruct (scan_ok inp s b Hby (session_ready _ _ _ Hs)) as (r & s0 & b0 & E & Hr).
  rewrite E in Hscan. injection Hscan as -> -> ->.
  destruct (complete_facts inp frame nodes c s' b' Hr Hpre) as (v & vs & rest & H1 & H2 & H3 & H4 & H5).
  exists v, vs, rest. destruct Hr as (pos & _ & _ & _ & -> & Hok & Hview & _).
  split_and!; try done; try tauto. intros. by apply session_start.
Qed.

(** A scan that waits for input may be taken up on the grown window, or repeated. *)
Lemma scan_again (inp inp' : Input X) more s b s1 b1 :
  Forall is_byte (bytes inp') -> bytes inp' = bytes inp ++ more -> scan_inv (bytes inp) s b ->
  scan inp byte_max node_max s b = Some (Scan.Pending : Scan.Scan X T, s1, b1) ->
  scan_inv (bytes inp) s1 b1 /\
  exists r t t' c, scan inp' byte_max node_max s b = Some (r, t, c) /\
    scan inp' byte_max node_max s1 b1 = Some (r, t', c) /\
    left t = left t' /\ mode t = mode t'.
Proof.
  intros Hby' Hin Hi Hscan.
  assert (Forall is_byte (bytes inp)) as Hby by (rewrite Hin in Hby'; by apply Forall_app in Hby' as [? _]).
  destruct (scan_ok inp s b Hby (or_introl Hi)) as (r0 & s0 & b0 & E & Hok).
  rewrite E in Hscan. injection Hscan as -> -> ->. simpl in Hok. split; [done|].
  assert (scan_inv (bytes inp') s b) as Hi' by (rewrite Hin; by apply scan_inv_app).
  assert (scan_inv (bytes inp') s1 b1) as Hi1 by (rewrite Hin; by apply scan_inv_app).
  destruct (scan_ok inp' s b Hby' (or_introl Hi')) as (r & t & c & Et & _).
  rewrite (scan_in_place _ _ _ Hi) in E. rewrite (scan_in_place _ _ _ Hi') in Et |- *.
  rewrite (scan_in_place _ _ _ Hi1).
  destruct (scan_loop_pending _ inp inp' more s b s1 b1 _ r t c Hby Hin Hi E Et)
    as (t' & Ht' & Hl & Hm).
  exists r, t, t', c. by split_and!.
Qed.

(** C16. Chunking is invisible: when a scan waits for input, scanning the grown
    window from the state it left gives the same result, tape and mode as
    scanning it from the state before, errors and capacities included. *)
Theorem scan_resume (inp inp' : Input X) more s b s1 b1 :
  Forall is_byte (bytes inp') -> bytes inp' = bytes inp ++ more ->
  session inp s b -> mode_cursor (mode s) <= zlen (bytes inp) -> scan_from s <= zlen (bytes inp) ->
  scan inp byte_max node_max s b = Some (Scan.Pending : Scan.Scan X T, s1, b1) ->
  exists r t t' c, scan inp' byte_max node_max s b = Some (r, t, c) /\
    scan inp' byte_max node_max s1 b1 = Some (r, t', c) /\
    left t = left t' /\ mode t = mode t'.
Proof.
  intros Hby' Hin Hs Hc Hsf Hscan. destruct (session_ready _ _ _ Hs) as [Hi|[_ Hlt]]; [|lia].
  by destruct (scan_again inp inp' more s b s1 b1).
Qed.
End invariant.

(** ** A reference instance *)

(** The interfaces at lists: depths, a tape that never fills and a whole window. *)
#[export] Instance list_vec : InlineVec (list Z) := {|
  vec_new := [];
  as_slice v := v;
  set_last v x := take (length v - 1) v ++ [x];
  pop v := take (length v - 1) v;
  vacancy v := if (MAX_DEPTH <=? length v)%nat then None else Some (fun x => v ++ [x]) |}.

#[export] Instance list_vec_laws : InlineVecLaws (list Z).
Proof.
  split; cbn [vec_new as_slice set_last pop vacancy list_vec].
  - done.
  - intros v l x y ->. rewrite length_app, Nat.add_sub. by rewrite take_app_length.
  - intros v l x ->. rewrite length_app, Nat.add_sub. by rewrite take_app_length.
  - intros v. destruct (Nat.leb_spec MAX_DEPTH (length v)); split; intros; (done || lia).
  - intros v insert x H. by destruct (MAX_DEPTH <=? length v)%nat; simplify_eq.
Qed.

#[export] Instance list_sink : Sink (list Kind.Kind) (list Kind.Kind) := {|
  sink_len b := zlen b;
  try_push b _ v := (b ++ [v], Push.Stored);
  sink_finish b := ([], b);
  sink_reset _ := [] |}.

#[export] Instance list_sink_laws : SinkLaws (list Kind.Kind) (list Kind.Kind).
Proof.
  refine {| sink_ok _ := True; sink_view b := b; tape_holds _ t vs := vs = t |}; simpl; try done.
  - intros b slot v b' r _ _ _ _ [= <- <-]. done.
  - intros b b' t _ _ [= <- <-]. done.
Defined.

Definition sample_bound : Bound := {| bound_value := 512 |}.

Lemma sample_bound_wf : bound_wf sample_bound.
Proof. split; simpl; lia. Qed.

(** [*2], a bulk string and an integer, followed by the start of the next frame. *)
Definition sample_frame : list Z :=
  header 42 (bytes_of "2") ++ header 36 (bytes_of "3") ++ bytes_of "foo" ++ crlf ++
  header 58 (bytes_of "-42").

Definition sample_input : list Z := sample_frame ++ bytes_of "+O".

Definition sample_scan (l : list Z) (s : State (list Z)) (b : list Kind.Kind) :=
  scan (window l) sample_bound sample_bound s b.

(** The state and the tape after the first nine bytes. *)
Definition sample_cut : State (list Z) * list Kind.Kind :=
  match sample_scan (take 9 sample_input) state_new [] with
  | Some (_, s, b) => (s, b)
  | None => (state_new, [])
  end.

Lemma sample_session :
  session sample_bound sample_bound (window sample_input) sample_cut.1 sample_cut.2.
Proof.
  eapply (session_next _ _ (window (take 9 sample_input)) state_new []).
  - by apply session_start.
  - by apply byte_check_ok.
  - reflexivity.
  - by left.
  - left. exists (drop 9 sample_input). reflexivity.
  - done.
  - reflexivity.
Qed.

Lemma scan_total_witness :
  exists r s' b', sample_scan sample_input sample_cut.1 sample_cut.2 = Some (r, s', b') /\
    match r with Scan.Complete _ _ n => n = 19 | _ => False end.
Proof.
  destruct (scan_total sample_bound sample_bound sample_bound_wf sample_bound_wf
    (window sample_input) sample_cut.1 sample_cut.2) as (r & s' & b' & H & _).
  - by apply byte_check_ok.
  - apply sample_session.
  - intros n Hn. change (zlen (bytes (window sample_input))) with 21 in Hn.
    unfold window. cbn [try_consumed try_prefix]. change (zlen sample_input) with 21.
    replace ((1 <=? n) && (n <=? 21))%bool with true by lia.
    replace ((0 <=? 0) && (0 <=? n) && (n <=? 21))%bool with true by lia. by split.
  - exists r, s', b'. split; [exact H|]. vm_compute in H. injection H as <- <- <-. reflexivity.
Defined.

Lemma scan_sound_witness :
  exists v, wires [v] sample_frame /\
    reads sample_frame
      [Kind.Array 2; Kind.Bulk (body_new 8 11); Kind.Integer (-42)] [v].
Proof.
  destruct (scan_sound sample_bound sample_bound sample_bound_wf sample_bound_wf
    (window sample_input) sample_cut.1 sample_cut.2 sample_frame
    [Kind.Array 2; Kind.Bulk (body_new 8 11); Kind.Integer (-42)] 19 state_new [])
    as (v & vs & rest & _ & _ & H1 & H2 & H3 & _).
  - by apply byte_check_ok.
  - apply sample_session.
  - intros n f m. unfold window, try_prefix. destruct (_ && _)%bool; [|done].
    intros [= <- <-]. done.
  - vm_compute. reflexivity.
  - exists v. split; [exact H1|]. rewrite <- H2. exact H3.
Defined.

Lemma scan_resume_witness :
  exists r t t' c, sample_scan sample_input state_new [] = Some (r, t, c) /\
    sample_scan sample_input sample_cut.1 sample_cut.2 = Some (r, t', c) /\ left t = left t'.
Proof.
  destruct (scan_resume sample_bound sample_bound sample_bound_wf sample_bound_wf
    (window (take 9 sample_input)) (window sample_input) (drop 9 sample_input)
    state_new [] sample_cut.1 sample_cut.2) as (r & t & t' & c & H1 & H2 & H3 & _).
  - by apply byte_check_ok.
  - reflexivity.
  - by apply session_start.
  - done.
  - done.
  - reflexivity.
  - exists r, t, t', c. split; [exact H1|]. split; [exact H2|exact H3].
Defined.
