(* ===== verification/RespAccept.v ===== *)
(** * Completeness of the RESP scanner

    Every spelling of a value within the limits is accepted: the scan of a window
    that starts with it completes with exactly that frame and a tape that reads
    back as that value, provided the builder has room for its nodes. *)
From S2P Require Import Prelude CodecInput RespLimit RespPool RespState RespGrammar RespScan.

(** ** Lines of a spelled value *)

(** A line whose search stops at its own terminator. *)
Definition line_plain (kind : Line.Line) (t : list Z) : Prop :=
  if is_text kind then text t else 13 ∉ t.

Lemma digits_plain t : digits t -> 13 ∉ t.
Proof. unfold digits. rewrite Forall_forall. intros H Hin. by specialize (H 13 Hin). Qed.

Lemma signed_plain t n : signed_value t n -> 13 ∉ t.
Proof.
  intros (neg & ds & _ & Hd & _ & [[-> _]|[[->| ->] _]]); apply digits_plain in Hd; set_solver.
Qed.

Lemma length_plain t len : length_value t len -> 13 ∉ t.
Proof.
  destruct len; simpl.
  - intros (ds & -> & Hd & _). apply digits_plain in Hd. set_solver.
  - intros [(_ & Hd & _)|(ds & -> & _ & Hd & _)]; apply digits_plain in Hd; set_solver.
Qed.

Lemma get_middle {A} (pre t post : list A) j :
  zlen pre <= j < zlen pre + zlen t ->
  get (pre ++ t ++ post) j = get t (j - zlen pre).
Proof. intros. rewrite get_app_r by lia. apply get_app_l. lia. Qed.

Lemma get_elem {A} (t : list A) j x : get t j = Some x -> x ∈ t.
Proof.
  unfold get. destruct (0 <=? j); [|done]. intros H. by apply list_elem_of_lookup_2 in H.
Qed.

(** The search for the end of a line finds it. *)
Lemma find_line kind pre t post start :
  line_plain kind t -> start = zlen pre ->
  find (pre ++ t ++ crlf ++ post) start start kind =
  Ok (Some {| line_value := t; line_start := start |}).
Proof.
  intros Ht ->. rewrite find_first by lia. set (l := pre ++ t ++ crlf ++ post).
  assert (zlen l = zlen pre + zlen t + 2 + zlen post) as Hl
    by (unfold l, crlf; rewrite !length_app; simpl; lia).
  rewrite Z.max_id. destruct (Z.ltb_spec (zlen l) (zlen pre)); [lia|].
  set (q := zlen pre + zlen t).
  assert (get l q = Some 13 /\ get l (q + 1) = Some 10) as [H1 H2].
  { unfold l, q, crlf. rewrite app_assoc. split; rewrite get_app_r by (lens; lia); lens.
    - by replace (_ - _) with 0 by lia.
    - by replace (_ - _) with 1 by lia. }
  rewrite (first_hit_intro kind l (zlen pre) q); [|lia| |].
  - unfold found.
    assert (get_range l (zlen pre) q = Some t) as ->.
    { apply get_range_Some. unfold q, l. rewrite slice_middle.
      split_and!; (done || lia || (rewrite !length_app; lia)). }
    simpl. rewrite H1, H2. by destruct (is_text kind).
  - unfold hit. rewrite H1, H2. by destruct (is_text kind).
  - intros j Hj. unfold hit, line_plain in *.
    assert (get l j = get t (j - zlen pre)) as -> by (apply get_middle; lia).
    destruct (is_text kind).
    + destruct (get t _) as [x|] eqn:E; [|done]. apply get_elem in E.
      unfold text in Ht. rewrite Forall_forall in Ht. auto.
    + apply andb_false_iff. left. apply bool_decide_eq_false. intros E%get_elem. done.
Qed.

(** ** Accepting runs *)

Section accept.
  Context {X V B T : Type} {vec : InlineVec V} {vec_laws : InlineVecLaws V}.
  Context {sink : Sink B T} {sink_laws : SinkLaws B T}.
  Context (byte_max node_max : Bound) (Hbytes : bound_wf byte_max) (Hnodes : bound_wf node_max).
  Context (inp : Input X) (Hby : Forall is_byte (bytes inp)).
  Context (frame rest : list Z) (Hframe : bytes inp = frame ++ rest).

(** The builder has room for [n] more values. *)
Fixpoint accepts (n : nat) (b : B) : Prop :=
  match n with
  | O => True
  | S n =>
      forall v, kind_wf v ->
      exists b', try_push b (sink_len b + 1) v = (b', Push.Stored) /\ accepts n b'
  end.

(** Some turns after [s] and [b], the machine takes the turn [t]. *)
Inductive leads : State V -> B -> Turn X V B T -> Prop :=
| leads_here s b t : step inp byte_max node_max s b = t -> leads s b t
| leads_next s b s1 b1 t :
    step inp byte_max node_max s b = Continue s1 b1 -> leads s1 b1 t -> leads s b t.

Lemma leads_trans s b s1 b1 t : leads s b (Continue s1 b1) -> leads s1 b1 t -> leads s b t.
Proof.
  intros H. remember (Continue s1 b1) as u eqn:E. revert E.
  induction H as [s b u Hs|s b s2 b2 u Hs _ IH]; intros -> Ht;
    [by eapply leads_next|eapply leads_next; [done|by apply IH]].
Qed.

Lemma leads_scan s b r s' b' :
  leads s b (Return r s' b') ->
  exists fuel, scan_loop fuel inp byte_max node_max s b = Some (r, s', b').
Proof.
  intros H. remember (Return r s' b') as u eqn:E. revert E.
  induction H as [s b u Hs|s b s2 b2 u Hs _ IH]; intros ->.
  - exists 1%nat. simpl. by rewrite Hs.
  - destruct (IH eq_refl) as [fuel Hf]. exists (S fuel). simpl. by rewrite Hs.
Qed.

(** The machine waits for the marker of a value at [pos]. *)
Definition at_marker (s : State V) (pos : Z) : Prop :=
  match mode s with Mode.Start => pos = 0 | Mode.Marker e => pos = e | _ => False end.

(** Reading a header line takes two turns. *)
Lemma line_leads s b pos pre kind t post :
  at_marker s pos -> sink_ok b ->
  bytes inp = pre ++ header (marker_byte kind) t ++ post -> zlen pre = pos ->
  line_plain kind t -> pos + zlen (header (marker_byte kind) t) <= bound_value byte_max ->
  zlen (sink_view b) + 1 <= bound_value node_max ->
  exists s1, left s1 = left s /\ mode s1 = Mode.Start /\
    forall u, step_found inp byte_max node_max s1 b kind (pos + 1) (sink_len b + 1) t
        (pos + zlen (header (marker_byte kind) t)) (body_new (pos + 1) (pos + 1 + zlen t)) = u ->
      leads s b u.
Proof.
  intros Hm Hb Hin <- Ht Hmax Hn. destruct Hbytes as [_ Hb32], Hnodes as [_ Hn32]. lens.
  set (pos := zlen pre) in *.
  exists {| scan_from := pos + 1; left := left s; mode := Mode.Start |}. split_and!; try done.
  intros u Hu. apply leads_next with
    {| scan_from := pos + 1; left := left s; mode := mode_line kind (pos + 1) (sink_len b + 1) |} b.
  - unfold step, at_marker in *.
    assert (mode_cursor (mode s) = pos) as Hc by (destruct (mode s); simpl; (done || lia)).
    assert (get (bytes inp) pos = Some (marker_byte kind)) as Hg.
    { rewrite Hin. unfold header. rewrite get_middle by (simpl; lens; lia).
      unfold pos. by rewrite Z.sub_diag. }
    assert (frame_next byte_max pos = Ok (pos + 1)) as Hf.
    { unfold frame_next. destruct (Z.leb_spec (bound_value byte_max) pos); [lia|].
      rewrite as_u32_small, nonzero_succ_small by lia. f_equal. lia. }
    assert (value_next node_max (sink_len b) = Ok (sink_len b + 1)) as Hv.
    { unfold value_next. rewrite sink_len_view by done.
      destruct (Z.ltb_spec (bound_value node_max) (zlen (sink_view b) + 1)); [lia|].
      rewrite nonzero_succ_small by lia. f_equal. lia. }
    destruct (mode s) eqn:Em; try done;
      unfold step_marker; rewrite Em, Hc, Hg, Hf, Hv, marker_line_byte; done.
  - apply leads_here. subst u. unfold step, step_line. simpl.
    assert (bytes inp = (pre ++ [marker_byte kind]) ++ t ++ crlf ++ post) as Hin'.
    { rewrite Hin. unfold header. simpl. by rewrite <- !app_assoc. }
    rewrite Hin' at 1. rewrite find_line by (done || (lens; simpl; lia)).
    unfold frame_line, line_stop. simpl. unfold frame_next.
    destruct (Z.leb_spec (bound_value byte_max) (pos + 1 + zlen t + 1)); [lia|]. simpl.
    rewrite !as_u32_small, nonzero_succ_small by lia.
    replace (1 + (pos + 1 + zlen t + 1)) with (pos + (3 + zlen t)) by lia. done.
Qed.

(** From [s] and [b], the values [ks] are stored and the last of them ends at
    [e], which leaves the open arrays [st]; [k] more values have room. *)
Definition reaches (s : State V) (b : B) (e : Z) (st : list Z) (ks : list Kind.Kind) (k : nat)
    : Prop :=
  exists s1 b1, leads s b (finish_stored inp s1 e b1) /\ mode s1 = Mode.Start /\
    counts (stack s1) /\ settle (stack s1) = st /\
    sink_ok b1 /\ sink_view b1 = sink_view b ++ ks /\ accepts k b1.

Lemma write_accepts s b v restore (f : B -> Turn X V B T) k :
  sink_ok b -> kind_wf v -> zlen (sink_view b) + 1 <= bound_value node_max -> accepts (S k) b ->
  exists b1, write_value s b (sink_len b + 1) v restore f = f b1 /\
    sink_ok b1 /\ sink_view b1 = sink_view b ++ [v] /\ accepts k b1.
Proof.
  intros Hb Hv Hn Ha. destruct (Ha v Hv) as (b1 & E & Ha'). exists b1.
  unfold write_value. rewrite E. destruct Hnodes as [_ Hn32].
  destruct (try_push_view b (sink_len b + 1) v b1 Push.Stored Hb Hv eq_refl) as [H1 H2]; [|done|done].
  rewrite sink_len_view by done. lia.
Qed.

Lemma store_reaches s s1 b v restore e k :
  (forall u, write_value s1 b (sink_len b + 1) v restore (finish_stored inp s1 e) = u ->
    leads s b u) ->
  mode s1 = Mode.Start -> counts (stack s1) -> sink_ok b -> kind_wf v ->
  zlen (sink_view b) + 1 <= bound_value node_max -> accepts (S k) b ->
  reaches s b e (settle (stack s1)) [v] k.
Proof.
  intros Hu Hm Hc Hb Hv Hn Ha.
  destruct (write_accepts s1 b v restore (finish_stored inp s1 e) k Hb Hv Hn Ha)
    as (b1 & E & H1 & H2 & H3).
  exists s1, b1. split_and!; try done. by apply Hu.
Qed.

(** A step of a bulk body whose bytes are all there. *)
Lemma bulk_step s b pre p post slot :
  mode s = Mode.Bulk (body_new (zlen pre) (zlen pre + zlen p)) slot ->
  bytes inp = pre ++ p ++ crlf ++ post -> zlen pre + zlen p + 2 <= u32_max ->
  let s1 := set_mode s Mode.Start in
  step inp byte_max node_max s b =
  write_value s1 b slot (Kind.Bulk (body_new (zlen pre) (zlen pre + zlen p)))
    (RestoreTo.Bulk (body_new (zlen pre) (zlen pre + zlen p)))
    (finish_stored inp s1 (zlen pre + zlen p + 2)).
Proof.
  intros Hm Hin Hb s1. unfold step. rewrite Hm. unfold step_bulk, body_get.
  rewrite body_stop_new by lia. rewrite Hin, app_assoc.
  assert (get_range ((pre ++ p) ++ crlf ++ post) (zlen pre + zlen p) (zlen pre + zlen p + 2)
    = Some crlf) as ->.
  { apply get_range_Some. lens. split_and!; try lia.
    rewrite <- (slice_middle (pre ++ p) crlf post) at 1. f_equal; lens; lia. }
  simpl. unfold body_consumed, body_end. rewrite body_stop_new, nonzero_succ_small by lia.
  replace (1 + (zlen pre + zlen p + 1)) with (zlen pre + zlen p + 2) by lia. done.
Qed.

Lemma bytes_inside pre t post : bytes inp = pre ++ t ++ post -> Forall is_byte t.
Proof. intros H. rewrite H, !Forall_app in Hby. tauto. Qed.

Lemma bytes_header pre m t post : bytes inp = pre ++ header m t ++ post -> Forall is_byte t.
Proof.
  intros H. apply bytes_inside in H. unfold header in H.
  apply Forall_cons in H as [_ H]. by apply Forall_app in H as [? _].
Qed.

(** The turn of a line that holds a value by itself. *)
Lemma line_reaches s b pos pre kind t post v k :
  at_marker s pos -> sink_ok b -> counts (stack s) ->
  bytes inp = pre ++ header (marker_byte kind) t ++ post -> zlen pre = pos ->
  line_plain kind t -> line_value_at kind (pos + 1) (pos + 1 + zlen t) t v ->
  pos + zlen (header (marker_byte kind) t) <= bound_value byte_max ->
  zlen (sink_view b) + 1 <= bound_value node_max -> accepts (S k) b ->
  reaches s b (pos + zlen (header (marker_byte kind) t)) (settle (stack s)) [v] k.
Proof.
  intros Hm Hb Hc Hin Hp Ht Hv Hmax Hn Ha.
  destruct (line_leads s b pos pre kind t post Hm Hb Hin Hp Ht Hmax Hn) as (s1 & Hl & Hs1 & Hu).
  assert (stack s1 = stack s) as Hst by (unfold stack; by rewrite Hl).
  rewrite <- Hst. apply store_reaches with (RestoreTo.Line kind (pos + 1)); try done.
  2: by rewrite Hst.
  2: { destruct Hbytes. lens. eapply line_value_wf; [..|exact Hv]; lia. }
  intros u <-. apply Hu. pose proof (bytes_header _ _ _ _ Hin) as Hbt.
  set (body := body_new _ _) in *.
  destruct kind; cbn [line_value_at] in Hv; unfold step_found.
  - subst v. by destruct (list_eqb t _).
  - by subst v.
  - destruct Hv as (n & -> & Hn1). by rewrite (proj2 (signed_spec t body n Hbt)).
  - destruct Hv as [-> Hv]. by rewrite (proj2 (number_length_spec t body _ _ Hbt) Hv).
  - destruct Hv as [-> Hv]. by rewrite (proj2 (number_length_spec t body _ _ Hbt) Hv).
Qed.

(** A bulk string takes its header and its body. *)
Lemma bulk_reaches s b pos pre t p post k :
  at_marker s pos -> sink_ok b -> counts (stack s) ->
  bytes inp = pre ++ (header 36 t ++ p ++ crlf) ++ post -> zlen pre = pos ->
  length_value t (Length.Count (zlen p)) ->
  pos + zlen (header 36 t ++ p ++ crlf) <= bound_value byte_max ->
  zlen (sink_view b) + 1 <= bound_value node_max -> accepts (S k) b ->
  reaches s b (pos + zlen (header 36 t ++ p ++ crlf)) (settle (stack s))
    [Kind.Bulk (body_new (pos + zlen (header 36 t)) (pos + zlen (header 36 t) + zlen p))] k.
Proof.
  intros Hm Hb Hc Hin Hp Ht Hmax Hn Ha. destruct Hbytes as [_ Hb32].
  rewrite <- app_assoc in Hin.
  assert (pos + zlen (header 36 t) + zlen p + 2 <= bound_value byte_max) as Hmax'
    by (clear -Hmax; lens; lia).
  destruct (line_leads s b pos pre Line.Bulk t ((p ++ crlf) ++ post) Hm Hb Hin Hp)
    as (s1 & Hl & Hs1 & Hu); [by eapply length_plain|change (marker_byte Line.Bulk) with 36; lia|done|].
  set (e := pos + zlen (header 36 t)) in *.
  set (s2 := set_mode s1 (Mode.Bulk (body_new e (e + zlen p)) (sink_len b + 1))).
  assert (leads s b (Continue s2 b)) as Hlead.
  { apply Hu. unfold step_found. rewrite (proj2 (number_length_spec t _ _ _ (bytes_header _ _ _ _ Hin)) Ht).
    unfold frame_body, count. simpl marker_byte. fold e.
    destruct (Z.ltb_spec (bound_value byte_max) (zlen p)); [lia|].
    destruct (Z.leb_spec (bound_value byte_max) (zlen p + (e + 2 - 1))); [lia|].
    simpl. rewrite as_u32_small by lia. done. }
  assert (zlen (pre ++ header 36 t) = e) as He by (lens; unfold e; lens; lia).
  rewrite <- app_assoc in Hin. rewrite (app_assoc pre) in Hin.
  pose proof (bulk_step s2 b (pre ++ header 36 t) p post (sink_len b + 1)) as Hstep.
  rewrite He in Hstep. specialize (Hstep eq_refl Hin ltac:(lia)).
  replace (pos + zlen (header 36 t ++ p ++ crlf)) with (e + zlen p + 2)
    by (unfold e; lens; lia).
  assert (stack (set_mode s2 Mode.Start) = stack s) as Hst by (unfold stack; simpl; by rewrite Hl).
  rewrite <- Hst. apply store_reaches with (RestoreTo.Bulk (body_new e (e + zlen p))); try done.
  - intros u <-. eapply leads_trans; [exact Hlead|]. by apply leads_here.
  - by rewrite Hst.
  - apply content_span_wf; unfold e; lens; lia.
Qed.

Lemma leaf_reaches s b pos pre r lb post k :
  at_marker s pos -> sink_ok b -> counts (stack s) ->
  frame = pre ++ lb ++ post -> zlen pre = pos -> wire_leaf r lb ->
  pos + zlen lb <= bound_value byte_max ->
  zlen (sink_view b) + 1 <= bound_value node_max -> accepts (S k) b ->
  exists v, content frame v r /\ reaches s b (pos + zlen lb) (settle (stack s)) [v] k.
Proof.
  intros Hm Hb Hc Hfr Hp Hw Hmax Hn Ha. destruct Hbytes as [_ Hb32].
  assert (bytes inp = pre ++ lb ++ post ++ rest) as Hin by (by rewrite Hframe, Hfr, <- !app_assoc).
  assert (forall kind t v, lb = header (marker_byte kind) t -> line_plain kind t ->
    line_value_at kind (pos + 1) (pos + 1 + zlen t) t v ->
    reaches s b (pos + zlen lb) (settle (stack s)) [v] k) as Hline
    by (intros kind t v -> ? ?; by eapply line_reaches).
  destruct Hw as [|t Ht Hne|t Ht|t n Hs Hr|m t Hm' Ht|t p Ht].
  - exists Kind.Ok. split; [done|]. apply (Hline Line.Status (bytes_of "OK")); [done| |done].
    vm_compute. repeat constructor.
  - exists (Kind.Status (body_new (pos + 1) (pos + 1 + zlen t))). split.
    + subst. apply span_line. lia.
    + apply (Hline Line.Status t); [done..|]. simpl. destruct (list_eqb t _) eqn:E; [|done].
      by apply list_eqb_eq in E.
  - exists (Kind.Error (body_new (pos + 1) (pos + 1 + zlen t))). split.
    + subst. apply span_line. lia.
    + by apply (Hline Line.Server t).
  - exists (Kind.Integer n). split; [done|]. apply (Hline Line.Integer t); [done| |by exists n].
    by eapply signed_plain.
  - exists Kind.Nil. split; [done|].
    destruct Hm' as [-> | ->]; [apply (Hline Line.Bulk t)|apply (Hline Line.Array t)];
      try done; by eapply length_plain.
  - eexists. split; [|by eapply bulk_reaches]. subst. apply span_bulk. lia.
Qed.

(** ** Sequences of values *)

Definition settles (n : nat) (st : list Z) : list Z := Nat.iter n settle st.

Lemma settles_S n st : settles (S n) st = settles n (settle st).
Proof. unfold settles. induction n as [|n IH]; simpl in *; [done|by rewrite IH]. Qed.

Lemma settles_nil n : settles n [] = [].
Proof. induction n as [|n IH]; [done|]. by rewrite settles_S. Qed.

Lemma settles_snoc n st m :
  Z.of_nat n < m -> settles n (st ++ [m]) = st ++ [m - Z.of_nat n].
Proof.
  revert m. induction n as [|n IH]; intros m Hm; [simpl; by rewrite Z.sub_0_r|].
  rewrite settles_S, settle_more, IH by lia. f_equal. f_equal. lia.
Qed.

Lemma settles_all st m : 1 <= m -> settles (Z.to_nat m) (st ++ [m]) = settle st.
Proof.
  intros Hm. replace (Z.to_nat m) with (Z.to_nat (m - 1) + 1)%nat by lia.
  unfold settles. rewrite Nat.add_1_r. simpl. fold (settles (Z.to_nat (m - 1)) (st ++ [m])).
  rewrite settles_snoc by lia. replace (m - Z.of_nat (Z.to_nat (m - 1))) with 1 by lia.
  apply settle_one.
Qed.

(** The open arrays still expect [n] values, the last of which may end the frame. *)
Definition expects (n : nat) (st : list Z) : Prop := n = 1%nat \/ settles (n - 1) st <> [].

Lemma expects_next n st : expects (S (S n)) st -> settle st <> [] /\ expects (S n) (settle st).
Proof.
  intros [|H]; [done|]. replace (S (S n) - 1)%nat with (S n) in H by lia.
  rewrite settles_S in H. split; [intros E; by rewrite E, settles_nil in H|].
  right. by replace (S n - 1)%nat with n by lia.
Qed.

(** A value that ends inside an array is followed by the next marker. *)
Lemma reaches_next s b e st ks k :
  reaches s b e st ks k -> st <> [] ->
  exists s1 b1, leads s b (Continue s1 b1) /\ mode s1 = Mode.Marker e /\
    counts (stack s1) /\ stack s1 = st /\
    sink_ok b1 /\ sink_view b1 = sink_view b ++ ks /\ accepts k b1.
Proof.
  intros (s1 & b1 & Hl & Hm & Hc & Hst & Hb & Hv & Ha) Hne.
  unfold finish_stored in Hl.
  destruct (finish_value_spec s1 e Hc) as (s2 & c & E & H1 & H2 & H3). rewrite E in Hl.
  destruct c; [congruence|]. exists s2, b1. rewrite H1, Hst.
  split_and!; try done; [tauto|]. rewrite <- Hst. by apply settle_facts.
Qed.

Lemma reaches_trans s b s1 b1 e st k1 k2 k :
  leads s b (Continue s1 b1) -> sink_view b1 = sink_view b ++ k1 ->
  reaches s1 b1 e st k2 k -> reaches s b e st (k1 ++ k2) k.
Proof.
  intros Hl Hv (s2 & b2 & Hl2 & ? & ? & ? & ? & Hv2 & ?). exists s2, b2.
  split_and!; try done; [by eapply leads_trans|]. by rewrite Hv2, Hv, app_assoc.
Qed.

Definition nodes_of (rs : list resp) : nat := sum_list_with node_count rs.

Lemma nodes_of_length l : (length l <= nodes_of l)%nat.
Proof.
  unfold nodes_of. induction l as [|r l IH]; simpl; [lia|]. pose proof (node_count_pos r). lia.
Qed.

Definition depth_of (rs : list resp) : nat := max_list_with depth rs.

(** Reading the values [rs], spelled [bs], from wherever they lie in the frame. *)
Definition run_ok (rs : list resp) (bs : list Z) : Prop :=
  forall s b pos pre post k,
    at_marker s pos -> sink_ok b -> counts (stack s) ->
    frame = pre ++ bs ++ post -> zlen pre = pos ->
    expects (length rs) (stack s) -> (length (stack s) + depth_of rs <= MAX_DEPTH)%nat ->
    pos + zlen bs <= bound_value byte_max ->
    zlen (sink_view b) + Z.of_nat (nodes_of rs) <= bound_value node_max ->
    accepts (nodes_of rs + k) b ->
    exists ks, reads frame ks rs /\ length ks = nodes_of rs /\
      reaches s b (pos + zlen bs) (settles (length rs) (stack s)) ks k.

Lemma reads_cons k1 r ks rs :
  reads frame k1 [r] -> reads frame ks rs -> reads frame (k1 ++ ks) (r :: rs).
Proof.
  intros H1 H2. inversion H1 as [|v ? ks' ? Hc Hr|a l c ? Hl Hr]; subst; inversion Hr; subst.
  - by constructor.
  - simpl. rewrite <- app_assoc. by constructor.
Qed.

(** The values after the first one. *)
Lemma rest_reaches s b pos pre post k r lb rs bs k1 :
  (rs <> [] -> run_ok rs bs) -> (rs = [] -> bs = []) ->
  counts (stack s) -> frame = pre ++ (lb ++ bs) ++ post -> zlen pre = pos ->
  expects (S (length rs)) (stack s) ->
  (length (stack s) + depth_of rs <= MAX_DEPTH)%nat ->
  pos + zlen (lb ++ bs) <= bound_value byte_max ->
  zlen (sink_view b) + Z.of_nat (node_count r + nodes_of rs) <= bound_value node_max ->
  reads frame k1 [r] -> length k1 = node_count r ->
  reaches s b (pos + zlen lb) (settle (stack s)) k1 (nodes_of rs + k) ->
  exists ks, reads frame ks (r :: rs) /\ length ks = nodes_of (r :: rs) /\
    reaches s b (pos + zlen (lb ++ bs)) (settles (length (r :: rs)) (stack s)) ks k.
Proof.
  intros IH Hnil Hc Hfr Hp Hex Hdep Hmax Hn Hrd Hlen Hre. destruct rs as [|r2 rs].
  { rewrite Hnil, app_nil_r by done. exists k1. split_and!; [done| |done]. simpl. lia. }
  apply expects_next in Hex as [Hne Hex].
  destruct (reaches_next _ _ _ _ _ _ Hre Hne) as (s1 & b1 & Hl & Hm & Hc1 & Hst & Hb1 & Hv1 & Ha1).
  destruct (settle_facts _ Hc) as (_ & Hlst & _).
  destruct (IH ltac:(done) s1 b1 (pos + zlen lb) (pre ++ lb) post k) as (ks & Hrd2 & Hlen2 & Hre2);
    try done; rewrite ?Hst; try done.
  - unfold at_marker. by rewrite Hm.
  - by rewrite Hfr, <- !app_assoc.
  - lens. lia.
  - lia.
  - lens. lia.
  - rewrite Hv1, length_app. lia.
  - exists (k1 ++ ks). split_and!; [by apply reads_cons|rewrite length_app, Hlen, Hlen2; done|].
    simpl length. rewrite settles_S, <- Hst.
    replace (pos + zlen (lb ++ bs)) with (pos + zlen lb + zlen bs) by (lens; lia).
    by eapply reaches_trans.
Qed.

(** An array header: an empty array is a value, any other opens. *)
Lemma array_turn s b pos pre t l post k :
  at_marker s pos -> sink_ok b -> counts (stack s) ->
  bytes inp = pre ++ header 42 t ++ post -> zlen pre = pos ->
  length_value t (Length.Count (zlen l)) -> (length (stack s) + depth (RArray l) <= MAX_DEPTH)%nat ->
  pos + zlen (header 42 t) <= bound_value byte_max ->
  zlen (sink_view b) + Z.of_nat (node_count (RArray l)) <= bound_value node_max ->
  accepts (S k) b ->
  (l = [] -> reaches s b (pos + zlen (header 42 t)) (settle (stack s)) [Kind.Array 0] k) /\
  (l <> [] -> exists s1 b1, leads s b (Continue s1 b1) /\
     mode s1 = Mode.Marker (pos + zlen (header 42 t)) /\ stack s1 = stack s ++ [zlen l] /\
     sink_ok b1 /\ sink_view b1 = sink_view b ++ [Kind.Array (zlen l)] /\ accepts k b1).
Proof.
  intros Hm Hb Hc Hin Hp Ht Hdep Hmax Hn Ha. destruct Hnodes as [_ Hn32].
  pose proof (nodes_of_length l) as Hll.
  simpl node_count in Hn. fold (nodes_of l) in Hn.
  destruct (line_leads s b pos pre Line.Array t post Hm Hb Hin Hp) as (s1 & Hl & Hs1 & Hu);
    [by eapply length_plain|done|lia|].
  assert (stack s1 = stack s) as Hst by (unfold stack; by rewrite Hl).
  change (marker_byte Line.Array) with 42 in Hu. set (e := pos + zlen (header 42 t)) in *.
  set (body := body_new (pos + 1) (pos + 1 + zlen t)) in *.
  assert (step_found inp byte_max node_max s1 b Line.Array (pos + 1) (sink_len b + 1) t e body =
    step_array inp s1 b Line.Array (pos + 1) (sink_len b + 1) e (zlen l)) as Hsf.
  { unfold step_found.
    rewrite (proj2 (number_length_spec t body _ _ (bytes_header _ _ _ _ Hin)) Ht).
    unfold value_array, count. rewrite sink_len_view by done.
    destruct (Z.ltb_spec (bound_value node_max) (zlen l)); [lia|].
    destruct (Z.leb_spec (bound_value node_max) (zlen l + (zlen (sink_view b) + 1 - 1))); [lia|].
    by rewrite as_u32_small by lia. }
  rewrite Hsf in Hu. unfold step_array in Hu. split.
  - intros ->. rewrite <- Hst. simpl in Hu.
    eapply store_reaches; [exact Hu|done|by rewrite Hst|done|done|lia|done].
  - intros Hne. assert (1 <= zlen l) by (destruct l; simpl; (done || lia)).
    destruct (Z.eqb_spec (zlen l) 0); [lia|].
    rewrite depth_array in Hdep by done.
    destruct (vacancy (left s1)) as [insert|] eqn:Ev.
    2: { apply vacancy_full in Ev. fold (stack s1) in Ev. rewrite Hst in Ev. lia. }
    match type of Hu with forall u, write_value ?s ?b ?slot ?v ?r ?f = u -> _ =>
      destruct (write_accepts s b v r f k Hb) as (b1 & E & H1 & H2 & H3) end;
      [simpl; lia|lia|done|].
    eexists _, b1. split; [apply Hu; exact E|]. split_and!; try done.
    rewrite <- Hst. unfold stack. simpl. by eapply vacancy_insert.
Qed.

Lemma empty_spelling bs : wires [] bs -> bs = [].
Proof. by inversion 1. Qed.

Lemma expects_all (l : list resp) st : l <> [] -> expects (length l) (st ++ [zlen l]).
Proof.
  intros Hne. right. rewrite settles_snoc by (destruct l; simpl; (done || lia)). by destruct st.
Qed.

(** The first value is an array. *)
Lemma array_reaches s b pos pre t l b1 post k :
  (l <> [] -> run_ok l b1) -> (l = [] -> b1 = []) ->
  at_marker s pos -> sink_ok b -> counts (stack s) ->
  frame = pre ++ (header 42 t ++ b1) ++ post -> zlen pre = pos ->
  length_value t (Length.Count (zlen l)) -> (length (stack s) + depth (RArray l) <= MAX_DEPTH)%nat ->
  pos + zlen (header 42 t ++ b1) <= bound_value byte_max ->
  zlen (sink_view b) + Z.of_nat (node_count (RArray l)) <= bound_value node_max ->
  accepts (node_count (RArray l) + k) b ->
  exists ks, reads frame ks [RArray l] /\ length ks = node_count (RArray l) /\
    reaches s b (pos + zlen (header 42 t ++ b1)) (settle (stack s)) ks k.
Proof.
  intros IH Hnil Hm Hb Hc Hfr Hp Ht Hdep Hmax Hn Ha.
  assert (bytes inp = pre ++ header 42 t ++ b1 ++ post ++ rest) as Hin
    by (by rewrite Hframe, Hfr, <- !app_assoc).
  destruct (array_turn s b pos pre t l (b1 ++ post ++ rest) (nodes_of l + k))
    as [Hempty Hopen]; try done; [lens; lia|]. destruct l as [|r l].
  { rewrite (Hnil eq_refl), app_nil_r. exists [Kind.Array 0].
    split_and!; [|done|by apply Hempty]. apply (reads_array frame [] [] [] []); constructor. }
  destruct (Hopen ltac:(done)) as (s1 & c1 & Hl & Hm1 & Hst & Hb1 & Hv1 & Ha1). clear Hempty Hopen.
  set (l' := r :: l) in *. rewrite depth_array in Hdep by done.
  change (node_count (RArray l')) with (S (nodes_of l')) in Hn.
  destruct (IH ltac:(done) s1 c1 (pos + zlen (header 42 t)) (pre ++ header 42 t) post k)
    as (ks & Hrd & Hlen & Hre); try done; rewrite ?Hst.
  - unfold at_marker. by rewrite Hm1.
  - pose proof (nodes_of_length l'). assert (1 <= zlen l') by (subst l'; simpl; lia).
    destruct Hnodes. apply Forall_app. split; [done|]. unfold counts. rewrite Forall_singleton. lia.
  - by rewrite Hfr, <- !app_assoc.
  - lens. lia.
  - by apply expects_all.
  - fold (depth_of l') in Hdep. rewrite length_app. cbn [length]. lia.
  - lens. lia.
  - rewrite Hv1, length_app. cbn [length]. lia.
  - exists (Kind.Array (zlen l') :: ks). split_and!; [|cbn [length node_count]; by rewrite Hlen|].
    + rewrite <- (app_nil_r ks). constructor; [done|constructor].
    + pose proof (settles_all (stack s) (zlen l') ltac:(subst l'; simpl; lia)) as Hall.
      rewrite Nat2Z.id in Hall. rewrite Hst, Hall in Hre.
      replace (pos + zlen (header 42 t ++ b1)) with (pos + zlen (header 42 t) + zlen b1)
        by (lens; lia).
      by eapply (reaches_trans _ _ _ _ _ _ [_]).
Qed.

Lemma wires_run rs bs : wires rs bs -> rs <> [] -> run_ok rs bs.
Proof.
  induction 1 as [|r lb rs bs Hw Hws IH|t l b1 rs b2 Ht Hwl IHl Hws IH]; intros Hne; [done| |];
    intros s b pos pre post k Hm Hb Hc Hfr Hp Hex Hdep Hmax Hn Ha.
  - assert (node_count r = 1%nat) as Er by by destruct Hw.
    unfold depth_of in Hdep. cbn [max_list_with] in Hdep. fold (depth_of rs) in Hdep.
    unfold nodes_of in Hn, Ha. cbn [sum_list_with] in Hn, Ha. fold (nodes_of rs) in Hn, Ha.
    rewrite Er in Hn, Ha.
    destruct (leaf_reaches s b pos pre r lb (bs ++ post) (nodes_of rs + k)) as (v & Hv & Hre);
      try done; [by rewrite Hfr, <- app_assoc|lens; lia|lia|].
    apply rest_reaches with pre post [v]; try done;
      [intros ->; by apply empty_spelling|lia|lia|by repeat constructor].
  - unfold depth_of in Hdep. cbn [max_list_with] in Hdep. fold (depth_of rs) in Hdep.
    unfold nodes_of in Hn, Ha. cbn [sum_list_with] in Hn, Ha. fold (nodes_of rs) in Hn, Ha.
    rewrite (app_assoc (header 42 t)) in Hfr, Hmax |- *. rewrite <- Nat.add_assoc in Ha.
    destruct (array_reaches s b pos pre t l b1 (b2 ++ post) (nodes_of rs + k))
      as (ks & Hrd & Hlen & Hre); try done;
      [intros ->; by apply empty_spelling|by rewrite Hfr, <- app_assoc|lia|lens; lia|lia|].
    apply rest_reaches with pre post ks; try done; [intros ->; by apply empty_spelling|lia].
Qed.

(** A spelling at the start of a window is scanned as that frame. *)
Lemma scan_spelled v b :
  sink_ok b -> sink_view b = [] -> wires [v] frame ->
  zlen frame <= bound_value byte_max -> Z.of_nat (node_count v) <= bound_value node_max ->
  (depth v <= MAX_DEPTH)%nat -> accepts (node_count v) b ->
  try_prefix inp 0 (zlen frame) = Ok (frame, zlen frame) ->
  exists nodes vs b', scan inp byte_max node_max state_new b =
      Some (Scan.Complete frame nodes (zlen frame), state_new, b') /\
    tape_holds b' nodes vs /\ reads frame vs [v].
Proof.
  intros Hb Hv Hw Hmax Hn Hd Ha Hpre. destruct Hbytes as [_ Hb32].
  assert (stack state_new = []) as Hst by apply as_slice_new.
  destruct (wires_run [v] frame Hw ltac:(done) state_new b 0 [] [] 0%nat) as (ks & Hrd & Hlen & Hre);
    try done; rewrite ?Hst, ?Hv; simpl; rewrite ?app_nil_r; try done; try lia;
    [constructor|by left|by rewrite !Nat.add_0_r|].
  destruct Hre as (s1 & b1 & Hl & Hm & Hc & Hset & Hb1 & Hv1 & _). rewrite Hst in Hset.
  rewrite Hv in Hv1. rewrite Z.add_0_l in Hl. simpl in Hset, Hv1.
  unfold finish_stored in Hl. destruct (finish_value_spec s1 (zlen frame) Hc) as (s2 & c & E & _ & _ & Hcase).
  rewrite E in Hl. destruct c; [|by destruct Hcase]. unfold complete in Hl.
  assert (end_consumed (zlen frame) = zlen frame) as He.
  { pose proof (wires_length _ _ Hw) as Hlw. simpl in Hlw.
    unfold end_consumed. rewrite nonzero_succ_small; lia. }
  rewrite He, Hpre in Hl. destruct (sink_finish b1) as [b' t] eqn:Es.
  assert (sink_view b1 <> []) as Hne.
  { rewrite Hv1. intros ->. simpl in Hlen. pose proof (node_count_pos v). lia. }
  destruct (sink_finish_view b1 b' t Hb1 Hne Es) as (_ & _ & Ht).
  exists t, ks, b'. rewrite Hv1 in Ht. split; [|done].
  pose proof (scan_inv_new byte_max node_max Hnodes (bytes inp) b Hb Hv) as Hi.
  destruct (scan_ok byte_max node_max Hbytes Hnodes inp state_new b Hby (or_introl Hi))
    as (r & s' & c & Hr & _). rewrite Hr.
  rewrite (scan_in_place byte_max node_max inp _ _ Hi) in Hr.
  destruct (leads_scan _ _ _ _ _ Hl) as [fuel Hf].
  apply (scan_loop_more _ _ _ fuel) in Hr. apply (scan_loop_more _ _ _ (scan_fuel inp)) in Hf.
  rewrite Nat.add_comm in Hf. congruence.
Qed.

(** C9. The scanner accepts the whole grammar: a window that starts with a
    spelling of a value, within the frame bound, the value bound and the depth,
    over a builder with room for its nodes, completes with exactly that frame
    and a tape that reads back as that value. *)
Theorem scan_accepts v b :
  sink_ok b -> sink_view b = [] -> wires [v] frame ->
  zlen frame <= bound_value byte_max -> Z.of_nat (node_count v) <= bound_value node_max ->
  (depth v <= MAX_DEPTH)%nat -> accepts (node_count v) b ->
  try_prefix inp 0 (zlen frame) = Ok (frame, zlen frame) ->
  exists nodes vs b', scan inp byte_max node_max state_new b =
      Some (Scan.Complete frame nodes (zlen frame), state_new, b') /\
    tape_holds b' nodes vs /\ reads frame vs [v].
Proof. apply scan_spelled. Qed.
End accept.

Lemma list_accepts n (b : list Kind.Kind) : accepts n b.
Proof. revert b. induction n as [|n IH]; intros b; simpl; [done|]. intros v _. eauto. Qed.

Definition sample_value : resp := RArray [RBulk (bytes_of "foo"); RInteger (-42)].

Lemma sample_wires : wires [sample_value] sample_frame.
Proof.
  change sample_frame with (header 42 (bytes_of "2") ++
    ((header 36 (bytes_of "3") ++ bytes_of "foo" ++ crlf) ++ header 58 (bytes_of "-42") ++ []) ++ []).
  constructor; [|apply wires_leaf; [|apply wires_leaf; [|constructor]]|constructor].
  - left. split_and!; [done|by repeat constructor|done|done].
  - constructor. left. split_and!; [done|by repeat constructor|done|done].
  - constructor; [|lia]. exists true, (bytes_of "42").
    split_and!; [done|by repeat constructor|done|by left].
Qed.

Lemma scan_accepts_witness :
  exists nodes b', sample_scan sample_input state_new [] =
      Some (Scan.Complete sample_frame nodes 19, state_new, b') /\
    reads sample_frame nodes [sample_value].
Proof.
  destruct (scan_accepts sample_bound sample_bound sample_bound_wf sample_bound_wf
    (window sample_input) (byte_check_ok sample_input eq_refl) sample_frame (bytes_of "+O")
    eq_refl (V := list Z) sample_value []) as (nodes & vs & b' & H1 & H2 & H3).
  - done.
  - done.
  - apply sample_wires.
  - done.
  - done.
  - vm_compute. lia.
  - apply list_accepts.
  - reflexivity.
  - exists nodes, b'. split; [exact H1|]. rewrite <- H2. exact H3.
Defined.
