(* ===== verification/RespGate.v ===== *)
(** * The parser lanes

    Models [redis/src/protocol/parser/storage/gate.rs]: a fixed number of lanes
    shared by the parsers of all connections, with a queue of waiting connections
    to which a returned lane is handed over. The indexed queue with one cell per
    slot ([o3::depot::queue::indexed::shared::Fifo]) and the readiness targets are
    interfaces. *)
From S2P Require Import Prelude.

(** ** The queue of waiting connections *)

(** A slot is queued with at most one target; its cell holds a granted one. *)
Class Fifo (W T : Type) := {
  admits : W -> Z -> bool;
  queued : W -> Z -> option T;
  push : W -> Z -> T -> W;
  clear : W -> Z -> W;
  pop : W -> option (Z * T) * W;
  granted : W -> Z -> option T;
  set_granted : W -> Z -> option T -> W }.

Class FifoLaws (W T : Type) `{Fifo W T} : Prop := {
  queued_push w i t j : queued (push w i t) j = if j =? i then Some t else queued w j;
  queued_clear w i j : queued (clear w i) j = if j =? i then None else queued w j;
  pop_None w w' : pop w = (None, w') -> w' = w /\ forall j, queued w j = None;
  pop_Some w i t w' :
    pop w = (Some (i, t), w') ->
    queued w i = Some t /\ forall j, queued w' j = if j =? i then None else queued w j;
  queued_set_granted w i o j : queued (set_granted w i o) j = queued w j;
  granted_push w i t j : granted (push w i t) j = granted w j;
  granted_clear w i j : granted (clear w i) j = granted w j;
  granted_pop w o w' j : pop w = (o, w') -> granted w' j = granted w j;
  granted_set w i o j : granted (set_granted w i o) j = if j =? i then o else granted w j }.

#[export] Hint Rewrite @queued_push @queued_clear @queued_set_granted @granted_push @granted_clear
  @granted_set using typeclasses eauto : cartel_fifo.

(** ** The gate *)

Record Gate (W : Type) := { active : Z; lanes : Z; waiters : W }.
Arguments active {W} g.
Arguments lanes {W} g.
Arguments waiters {W} g.

Module Phase.
Inductive Phase (T : Type) := Idle | Held | Waiting (slot : Z) (target : T).
Arguments Idle {T}.
Arguments Held {T}.
Arguments Waiting {T} slot target.
End Phase.

Section gate.
  Context {W T : Type} `{EqDecision T} {fifo : Fifo W T}.

Definition set_active (g : Gate W) (n : Z) : Gate W :=
  {| active := n; lanes := lanes g; waiters := waiters g |}.

Definition set_waiters (g : Gate W) (w : W) : Gate W :=
  {| active := active g; lanes := lanes g; waiters := w |}.

(** [Gate::try_new] over the queue of the connections. *)
Definition gate_new (lanes : Z) (waiters : W) : Gate W :=
  {| active := 0; lanes := lanes; waiters := waiters |}.

(** [Drop for Lane]: hands the lane to the first waiter, or gives it back; the
    second component is the target that is woken. *)
Definition lane_drop (g : Gate W) : Gate W * option T :=
  match pop (waiters g) with
  | (None, w) => (set_active (set_waiters g w) (as_u64 (active g - 1)), None)
  | (Some (i, target), w) => (set_waiters g (set_granted w i (Some target)), Some target)
  end.

(** [Gate::resume] of a waiting access. *)
Definition resume (g : Gate W) (i : Z) (target : T) : Gate W * bool :=
  if bool_decide (granted (waiters g) i = Some target) then
    (set_waiters g (set_granted (waiters g) i None), true)
  else if lanes g <=? active g then (g, false)
  else
    let g :=
      if bool_decide (queued (waiters g) i = Some target) then
        set_waiters g (clear (waiters g) i)
      else g in
    (set_active g (active g + 1), true).

(** [Gate::cancel] of a waiting access. *)
Definition cancel (g : Gate W) (i : Z) (target : T) : Gate W * option T :=
  let g :=
    if bool_decide (queued (waiters g) i = Some target) then
      set_waiters g (clear (waiters g) i)
    else g in
  if bool_decide (granted (waiters g) i = Some target) then
    lane_drop (set_waiters g (set_granted (waiters g) i None))
  else (g, None).

(** [Access::acquire]: [false] is [Acquire::Blocked]. *)
Definition acquire (g : Gate W) (phase : Phase.Phase T) : Gate W * Phase.Phase T * bool :=
  match phase with
  | Phase.Idle =>
      if lanes g <=? active g then (g, phase, false)
      else (set_active g (active g + 1), Phase.Held, true)
  | Phase.Waiting i target =>
      let '(g, resumed) := resume g i target in
      if resumed then (g, Phase.Held, true) else (g, phase, false)
  | Phase.Held => (g, Phase.Held, true)
  end.

(** [Access::wait]: an error is an index outside the queue. *)
Definition wait (g : Gate W) (phase : Phase.Phase T) (i : Z) (target : T)
    : result () (Gate W * Phase.Phase T * option T) :=
  let register :=
    if negb (admits (waiters g) i) then Err ()
    else
      let g :=
        if bool_decide (queued (waiters g) i = Some target) then g
        else set_waiters g (push (waiters g) i target) in
      match phase with
      | Phase.Waiting j old =>
          let '(g, woken) := cancel g j old in
          Ok (g, Phase.Waiting i target, woken)
      | _ => Ok (g, Phase.Waiting i target, None)
      end in
  match phase with
  | Phase.Held => Ok (g, phase, None)
  | Phase.Waiting j old =>
      if bool_decide (j = i /\ old = target) then Ok (g, phase, None) else register
  | Phase.Idle => register
  end.

(** [Access::release] and [Access::finish]; the latter turns a held access into
    a lane that is dropped later. *)
Definition release (g : Gate W) (phase : Phase.Phase T) : Gate W * Phase.Phase T * option T :=
  match phase with
  | Phase.Idle => (g, Phase.Idle, None)
  | Phase.Held => let '(g, woken) := lane_drop g in (g, Phase.Idle, woken)
  | Phase.Waiting i target =>
      let '(g, woken) := cancel g i target in (g, Phase.Idle, woken)
  end.

Definition finish_access (phase : Phase.Phase T) : Phase.Phase T := Phase.Idle.

(** ** All accesses of one gate *)

(** The gate, the accesses of the connections and the lanes that completed
    frames carry until they are delivered. *)
Record Lanes := { gate : Gate W; phases : list (Phase.Phase T); loose : Z }.

Inductive GateOp :=
| Acquire (a : nat)
| Wait (a : nat) (i : Z) (target : T)
| Release (a : nat)
| Finish (a : nat)
| DropLane.

(** No other access waits in the slot: it belongs to one connection. *)
Definition own_slot (phs : list (Phase.Phase T)) (a : nat) (i : Z) : Prop :=
  forall b j u, phs !! b = Some (Phase.Waiting j u) -> j = i -> b = a.

(** A step of one access. A parser waits right after it was refused a lane, in
    the slot of its connection; only a held access is finished. *)
Inductive gate_step : Lanes -> GateOp -> Lanes -> Prop :=
| step_acquire g phs out a ph g' ph' ok :
    phs !! a = Some ph -> acquire g ph = (g', ph', ok) ->
    gate_step {| gate := g; phases := phs; loose := out |} (Acquire a)
      {| gate := g'; phases := <[a := ph']> phs; loose := out |}
| step_wait g phs out a ph i target g' ph' woken :
    phs !! a = Some ph -> (acquire g ph).2 = false -> own_slot phs a i ->
    wait g ph i target = Ok (g', ph', woken) ->
    gate_step {| gate := g; phases := phs; loose := out |} (Wait a i target)
      {| gate := g'; phases := <[a := ph']> phs; loose := out |}
| step_release g phs out a ph g' ph' woken :
    phs !! a = Some ph -> release g ph = (g', ph', woken) ->
    gate_step {| gate := g; phases := phs; loose := out |} (Release a)
      {| gate := g'; phases := <[a := ph']> phs; loose := out |}
| step_finish g phs out a :
    phs !! a = Some Phase.Held ->
    gate_step {| gate := g; phases := phs; loose := out |} (Finish a)
      {| gate := g; phases := <[a := finish_access Phase.Held]> phs; loose := out + 1 |}
| step_drop g phs out g' woken :
    0 < out -> lane_drop g = (g', woken) ->
    gate_step {| gate := g; phases := phs; loose := out |} DropLane
      {| gate := g'; phases := phs; loose := out - 1 |}.

Inductive gate_run : Lanes -> list GateOp -> Lanes -> Prop :=
| run_nil s : gate_run s [] s
| run_cons s op s1 ops s2 : gate_step s op s1 -> gate_run s1 ops s2 -> gate_run s (op :: ops) s2.
End gate.
Arguments Lanes W T : clear implicits.
Arguments GateOp T : clear implicits.

(** ** Lanes are accounted for *)

Section accounting.
  Context {W T : Type} `{EqDecision T} `{FifoLaws W T}.

(** The lanes an access is charged for: a grant is a lane on its way. *)
Definition charge (w : W) (phase : Phase.Phase T) : Z :=
  match phase with
  | Phase.Idle => 0
  | Phase.Held => 1
  | Phase.Waiting i target => if bool_decide (granted w i = Some target) then 1 else 0
  end.

Definition charges (w : W) (phs : list (Phase.Phase T)) : Z :=
  foldr (fun ph sum => charge w ph + sum) 0 phs.

Lemma charges_ext w w' phs :
  (forall b y, phs !! b = Some y -> charge w' y = charge w y) -> charges w' phs = charges w phs.
Proof.
  unfold charges. induction phs as [|y phs IH]; intros Hy; simpl; [done|].
  rewrite IH, (Hy 0%nat y) by (done || intros b; apply (Hy (S b))). done.
Qed.

Lemma charges_insert w w' phs a x x' :
  phs !! a = Some x ->
  (forall b y, b <> a -> phs !! b = Some y -> charge w' y = charge w y) ->
  charges w' (<[a := x']> phs) = charges w phs - charge w x + charge w' x'.
Proof.
  revert a. induction phs as [|y phs IH]; intros [|a] Ha Hother; simplify_eq/=.
  - fold (charges w phs) (charges w' phs). rewrite (charges_ext w w' phs); [lia|].
    intros b z. by apply (Hother (S b)).
  - fold (charges w phs) (charges w' (<[a:=x']> phs)).
    rewrite (IH a Ha) by (intros b z Hb; apply (Hother (S b)); lia).
    rewrite (Hother 0%nat y) by done. lia.
Qed.

(** [extra] lanes are in the hands of the code that runs. *)
Record gate_inv (g : Gate W) (phs : list (Phase.Phase T)) (out extra : Z) : Prop := {
  gi_active : active g = charges (waiters g) phs + out + extra;
  gi_bound : active g <= lanes g <= u64_max;
  gi_loose : 0 <= out;
  gi_unique : forall a b i t u, phs !! a = Some (Phase.Waiting i t) ->
    phs !! b = Some (Phase.Waiting i u) -> a = b;
  gi_queued : forall i t, queued (waiters g) i = Some t ->
    exists a, phs !! a = Some (Phase.Waiting i t);
  gi_granted : forall i t, granted (waiters g) i = Some t ->
    exists a, phs !! a = Some (Phase.Waiting i t);
  gi_waiting : forall a i t, phs !! a = Some (Phase.Waiting i t) ->
    queued (waiters g) i = Some t /\ granted (waiters g) i = None \/
    queued (waiters g) i = None /\ granted (waiters g) i = Some t;
  gi_busy : forall i t, queued (waiters g) i = Some t -> active g = lanes g }.

Lemma charges_nonneg w phs : 0 <= charges w phs.
Proof.
  unfold charges. induction phs as [|y phs IH]; simpl; [lia|].
  assert (0 <= charge w y); [|lia]. destruct y; simpl; [lia..|]. case_bool_decide; lia.
Qed.

Lemma charges_same w w' phs :
  (forall i, granted w' i = granted w i) -> charges w' phs = charges w phs.
Proof.
  intros Hg. apply charges_ext. intros _ [| |i t] _; simpl; try done. by rewrite Hg.
Qed.

(** Dropping a lane: the first waiter takes it over, else it is returned. *)
Lemma lane_drop_inv g phs out g' woken :
  gate_inv g phs out 1 -> lane_drop g = (g', woken) -> gate_inv g' phs out 0.
Proof.
  intros [Ha Hb Ho Hu Hq Hg Hw Hz] E. unfold lane_drop in E.
  pose proof (charges_nonneg (waiters g) phs) as Hc.
  destruct (pop (waiters g)) as [[[i t]|] w] eqn:Ep; injection E as <- <-; simpl.
  - destruct (pop_Some _ _ _ _ Ep) as [Hqi Hq']. destruct (Hq _ _ Hqi) as [a Ha'].
    destruct (Hw _ _ _ Ha') as [[_ Hgi]|[? _]]; [|congruence].
    pose proof (fun j => granted_pop _ _ _ j Ep) as Hgp.
    assert (charges (set_granted w i (Some t)) phs = charges (waiters g) phs + 1) as Hch.
    { rewrite <- (list_insert_id phs a (Phase.Waiting i t) Ha') at 1.
      rewrite (charges_insert (waiters g) _ _ _ _ _ Ha').
      - simpl. rewrite granted_set, Z.eqb_refl, Hgi, bool_decide_false, bool_decide_true by done. lia.
      - intros b [| |j u] Hne Hb'; simpl; try done. rewrite granted_set.
        destruct (Z.eqb_spec j i) as [->|]; [by destruct Hne; eapply Hu|]. by rewrite Hgp. }
    split; simpl; rewrite ?Hch; try done; try lia; intros *; rewrite ?granted_set, ?queued_set_granted, ?Hgp, ?Hq'.
    + destruct (Z.eqb_spec i0 i) as [->|]; [done|apply Hq].
    + destruct (Z.eqb_spec i0 i) as [->|]; [intros [= <-]; eauto|apply Hg].
    + intros Hw1. destruct (Z.eqb_spec i0 i) as [->|]; [|by eapply Hw].
      assert (a0 = a) as -> by by eapply Hu. rewrite Ha' in Hw1. injection Hw1 as <-. by right.
    + destruct (Z.eqb_spec i0 i) as [->|]; [done|apply Hz].
  - destruct (pop_None _ _ Ep) as [-> Hnone]. rewrite as_u64_small by lia.
    split; simpl; try done; try lia. intros i t Hi. by rewrite Hnone in Hi.
Qed.

(** Only what the queue answers matters. *)
Lemma gate_inv_ext g w' phs out extra :
  gate_inv g phs out extra ->
  (forall i, queued w' i = queued (waiters g) i) -> (forall i, granted w' i = granted (waiters g) i) ->
  gate_inv (set_waiters g w') phs out extra.
Proof.
  intros [Ha Hb Ho Hu Hq Hg Hw Hz] Hq' Hg'.
  split; simpl; try done; intros *; rewrite ?Hq', ?Hg'; auto; [|apply Hw|apply Hz].
  by rewrite (charges_same (waiters g)).
Qed.

(** The admissible changes of the count: none, or one more free lane is taken. *)
Definition takes (g g' : Gate W) : Prop :=
  lanes g' = lanes g /\
  (active g' = active g \/ active g < lanes g /\ active g' = active g + 1).

Lemma takes_busy g g' phs out extra i t :
  gate_inv g phs out extra -> takes g g' -> queued (waiters g) i = Some t -> active g' = lanes g'.
Proof. intros Hi [-> Ht] Hq. pose proof (gi_busy _ _ _ _ Hi i t Hq). lia. Qed.

Lemma takes_bound g g' phs out extra :
  gate_inv g phs out extra -> takes g g' -> active g' <= lanes g' <= u64_max.
Proof. intros Hi [-> Ht]. pose proof (gi_bound _ _ _ _ Hi). lia. Qed.

(** An access that does not wait changes its phase. *)
Lemma change_phase g g' phs out extra a ph ph' extra' :
  gate_inv g phs out extra -> phs !! a = Some ph -> takes g g' -> waiters g' = waiters g ->
  (forall i t, ph <> Phase.Waiting i t) -> (forall i t, ph' <> Phase.Waiting i t) ->
  charge (waiters g) ph + extra + active g' = charge (waiters g) ph' + extra' + active g ->
  gate_inv g' (<[a := ph']> phs) out extra'.
Proof.
  intros Hi Hph Ht Hwt Hn Hn' Hc.
  assert (forall b i t, <[a := ph']> phs !! b = Some (Phase.Waiting i t) <->
    phs !! b = Some (Phase.Waiting i t)) as Hsame.
  { intros b i t. destruct (decide (b = a)) as [->|Hne]; [|by rewrite list_lookup_insert_ne by done].
    rewrite list_lookup_insert_eq by (by eapply lookup_lt_Some).
    split; intros [= E]; [by destruct (Hn' i t)|]. rewrite Hph in E. injection E as E.
    by destruct (Hn i t). }
  pose proof (takes_bound _ _ _ _ _ Hi Ht) as Hbd.
  pose proof (fun i t => takes_busy _ _ _ _ _ i t Hi Ht) as Hbz.
  destruct Hi as [Ha Hb Ho Hu Hq Hg Hw Hz]. split; rewrite ?Hwt; try done.
  - rewrite (charges_insert (waiters g) _ _ _ _ _ Hph) by done. lia.
  - intros b c i t u. rewrite !Hsame. apply Hu.
  - intros i t Hi. destruct (Hq i t Hi) as [b Hb']. exists b. by rewrite Hsame.
  - intros i t Hi. destruct (Hg i t Hi) as [b Hb']. exists b. by rewrite Hsame.
  - intros b i t. rewrite Hsame. apply Hw.
Qed.

(** A waiting access leaves its slot. *)
Lemma leave_slot g g' phs out extra a i t ph' extra' :
  gate_inv g phs out extra -> phs !! a = Some (Phase.Waiting i t) -> takes g g' ->
  (forall j, queued (waiters g') j = if j =? i then None else queued (waiters g) j) ->
  (forall j, granted (waiters g') j = if j =? i then None else granted (waiters g) j) ->
  (forall j u, ph' <> Phase.Waiting j u) ->
  charge (waiters g) (Phase.Waiting i t) + extra + active g' =
    charge (waiters g') ph' + extra' + active g ->
  gate_inv g' (<[a := ph']> phs) out extra'.
Proof.
  intros Hi Hph Ht Hq' Hg' Hn' Hc.
  pose proof (takes_bound _ _ _ _ _ Hi Ht) as Hbd.
  pose proof (fun i t => takes_busy _ _ _ _ _ i t Hi Ht) as Hbz.
  destruct Hi as [Ha Hb Ho Hu Hq Hg Hw Hz].
  assert (forall b j u, <[a := ph']> phs !! b = Some (Phase.Waiting j u) <->
    b <> a /\ phs !! b = Some (Phase.Waiting j u)) as Hsame.
  { intros b j u. destruct (decide (b = a)) as [->|Hne].
    - rewrite list_lookup_insert_eq by (by eapply lookup_lt_Some). split; [|by intros [? _]].
      intros [= E]. by destruct (Hn' j u).
    - rewrite list_lookup_insert_ne by done. naive_solver. }
  assert (forall b j u, phs !! b = Some (Phase.Waiting j u) -> b <> a -> j <> i) as Hne.
  { intros b j u Hb' Hba ->. apply Hba. by eapply Hu. }
  split; try done.
  - rewrite (charges_insert (waiters g) _ _ _ _ _ Hph); [lia|].
    intros b [| |j u] Hba Hb'; simpl; try done. rewrite Hg'.
    destruct (Z.eqb_spec j i) as [->|]; [|done]. by destruct (Hne b i u).
  - intros b c j u v. rewrite !Hsame. intros [_ ?] [_ ?]. by eapply Hu.
  - intros j u. rewrite Hq'. destruct (Z.eqb_spec j i); [done|]. intros Hj.
    destruct (Hq j u Hj) as [b Hb']. exists b. rewrite Hsame. split; [|done]. intros ->. congruence.
  - intros j u. rewrite Hg'. destruct (Z.eqb_spec j i); [done|]. intros Hj.
    destruct (Hg j u Hj) as [b Hb']. exists b. rewrite Hsame. split; [|done]. intros ->. congruence.
  - intros b j u. rewrite Hsame. intros [Hba Hb']. rewrite Hq', Hg'.
    destruct (Z.eqb_spec j i) as [->|]; [by destruct (Hne b i u)|by eapply Hw].
  - intros j u. rewrite Hq'. destruct (Z.eqb_spec j i); [done|]. apply Hbz.
Qed.

(** An idle access enters a slot of its own, when no lane is free. *)
Lemma enter_slot g phs out a i t w' :
  gate_inv g phs out 0 -> phs !! a = Some Phase.Idle -> active g = lanes g ->
  (forall b j u, phs !! b = Some (Phase.Waiting j u) -> j <> i) ->
  (forall j, queued w' j = if j =? i then Some t else queued (waiters g) j) ->
  (forall j, granted w' j = granted (waiters g) j) ->
  gate_inv (set_waiters g w') (<[a := Phase.Waiting i t]> phs) out 0.
Proof.
  intros [Ha Hb Ho Hu Hq Hg Hw Hz] Hph Hbusy Hfree Hq' Hg'.
  assert (granted (waiters g) i = None) as Hgi.
  { destruct (granted (waiters g) i) eqn:E; [|done]. destruct (Hg _ _ E) as [b Hb'].
    by destruct (Hfree _ _ _ Hb'). }
  pose proof (lookup_lt_Some _ _ _ Hph) as Hlt.
  assert (forall b j u, <[a := Phase.Waiting i t]> phs !! b = Some (Phase.Waiting j u) <->
    (b = a /\ j = i /\ u = t) \/ (b <> a /\ phs !! b = Some (Phase.Waiting j u))) as Hsame.
  { intros b j u. destruct (decide (b = a)) as [->|Hne].
    - rewrite list_lookup_insert_eq by done. naive_solver.
    - rewrite list_lookup_insert_ne by done. naive_solver. }
  split; simpl; try done.
  - rewrite (charges_insert (waiters g) _ _ _ _ _ Hph).
    + simpl. rewrite Hg', Hgi, bool_decide_false by done. lia.
    + intros b [| |j u] _ _; simpl; by rewrite ?Hg'.
  - intros b c j u v. rewrite !Hsame.
    intros [(-> & -> & ->)|[? Hb']] [(-> & E & _)|[? Hc]]; [done| | |by eapply Hu].
    + by destruct (Hfree _ _ _ Hc).
    + subst j. by destruct (Hfree _ _ _ Hb').
  - intros j u. rewrite Hq'. destruct (Z.eqb_spec j i) as [->|].
    + intros [= ->]. exists a. rewrite Hsame. by left.
    + intros Hj. destruct (Hq j u Hj) as [b Hb']. exists b. rewrite Hsame. right.
      split; [intros ->; congruence|done].
  - intros j u. rewrite Hg'. intros Hj. destruct (Hg j u Hj) as [b Hb']. exists b.
    rewrite Hsame. right. split; [intros ->; congruence|done].
  - intros b j u. rewrite Hsame, Hq', Hg'. intros [(-> & -> & ->)|[? Hb']].
    + rewrite Z.eqb_refl. by left.
    + destruct (Z.eqb_spec j i) as [->|]; [by destruct (Hfree _ _ _ Hb')|by eapply Hw].
Qed.

Lemma resume_inv g g' phs out a i t ok :
  gate_inv g phs out 0 -> phs !! a = Some (Phase.Waiting i t) -> resume g i t = (g', ok) ->
  if ok then gate_inv g' (<[a := Phase.Held]> phs) out 0 else g' = g.
Proof.
  intros Hi Ha E. unfold resume in E.
  destruct (gi_waiting _ _ _ _ Hi _ _ _ Ha) as [[Hq Hg]|[Hq Hg]]; rewrite Hg in E.
  - rewrite bool_decide_false in E by done.
    destruct (Z.leb_spec (lanes g) (active g)) as [|Hlt]; [by injection E as <- <-|].
    pose proof (gi_busy _ _ _ _ Hi _ _ Hq). lia.
  - rewrite bool_decide_true in E by done. injection E as <- <-.
    eapply leave_slot; [exact Hi|exact Ha|by split; [|left]|..]; simpl; try done.
    + intros j. rewrite queued_set_granted. by destruct (Z.eqb_spec j i) as [->|].
    + intros j. apply granted_set.
    + by rewrite Hg, bool_decide_true.
Qed.

Lemma cancel_inv g g' phs out a i t woken :
  gate_inv g phs out 0 -> phs !! a = Some (Phase.Waiting i t) -> cancel g i t = (g', woken) ->
  gate_inv g' (<[a := Phase.Idle]> phs) out 0.
Proof.
  intros Hi Ha E. unfold cancel in E.
  destruct (gi_waiting _ _ _ _ Hi _ _ _ Ha) as [[Hq Hg]|[Hq Hg]]; rewrite Hq in E.
  - rewrite (bool_decide_true (Some t = Some t)) in E by done. simpl in E.
    rewrite granted_clear, Hg in E.
    rewrite bool_decide_false in E by done. injection E as <- <-.
    eapply leave_slot; [exact Hi|exact Ha|by split; [|left]|..]; simpl; try done.
    + intros j. apply queued_clear.
    + intros j. rewrite granted_clear. by destruct (Z.eqb_spec j i) as [->|].
    + by rewrite Hg, bool_decide_false.
  - rewrite (bool_decide_false (None = Some t)) in E by done.
    rewrite Hg, bool_decide_true in E by done. eapply lane_drop_inv; [|exact E].
    eapply leave_slot; [exact Hi|exact Ha|by split; [|left]|..]; simpl; try done.
    + intros j. rewrite queued_set_granted. by destruct (Z.eqb_spec j i) as [->|].
    + intros j. apply granted_set.
    + by rewrite Hg, bool_decide_true.
Qed.

Lemma acquire_inv g g' phs out a ph ph' ok :
  gate_inv g phs out 0 -> phs !! a = Some ph -> acquire g ph = (g', ph', ok) ->
  gate_inv g' (<[a := ph']> phs) out 0.
Proof.
  intros Hi Ha E. unfold acquire in E. destruct ph as [| |i t].
  - destruct (Z.leb_spec (lanes g) (active g)); injection E as <- <- <-; [by rewrite list_insert_id|].
    eapply change_phase; [exact Hi|exact Ha|split; [done|by right]|done..|]. simpl. lia.
  - injection E as <- <- <-. by rewrite list_insert_id.
  - destruct (resume g i t) as [g1 resumed] eqn:Er.
    pose proof (resume_inv _ _ _ _ _ _ _ _ Hi Ha Er) as Hr. destruct resumed.
    + by injection E as <- <- <-.
    + injection E as <- <- <-. subst g1. by rewrite list_insert_id.
Qed.

Lemma release_inv g g' phs out a ph ph' woken :
  gate_inv g phs out 0 -> phs !! a = Some ph -> release g ph = (g', ph', woken) ->
  gate_inv g' (<[a := ph']> phs) out 0.
Proof.
  intros Hi Ha E. unfold release in E. destruct ph as [| |i t].
  - injection E as <- <- <-. by rewrite list_insert_id.
  - destruct (lane_drop g) as [g1 w] eqn:Ed. injection E as <- <- <-.
    eapply lane_drop_inv; [|exact Ed].
    eapply change_phase; [exact Hi|exact Ha|by split; [|left]|done..].
  - destruct (cancel g i t) as [g1 w] eqn:Ec. injection E as <- <- <-. by eapply cancel_inv.
Qed.

(** A new entry replaces the old one of the same access, which was only queued. *)
Lemma cancel_after_push g i t j old g' woken :
  queued (waiters g) j = Some old -> granted (waiters g) j = None -> ~ (j = i /\ old = t) ->
  cancel (set_waiters g (push (waiters g) i t)) j old = (g', woken) ->
  exists w', g' = set_waiters (set_waiters g (clear (waiters g) j)) w' /\
    (forall k, queued w' k = if k =? i then Some t else queued (clear (waiters g) j) k) /\
    (forall k, granted w' k = granted (clear (waiters g) j) k).
Proof.
  intros Hqj Hgj Hne E. unfold cancel in E. simpl in E. rewrite queued_push in E.
  destruct (Z.eqb_spec j i) as [->|Hji].
  - rewrite (bool_decide_false (Some t = Some old)) in E by naive_solver.
    simpl in E. rewrite granted_push, Hgj, bool_decide_false in E by done.
    injection E as <- <-. eexists. split_and!; [done|..]; intros k.
    + rewrite queued_push, queued_clear. by destruct (Z.eqb_spec k i).
    + by rewrite granted_push, granted_clear.
  - rewrite Hqj, (bool_decide_true (Some old = Some old)) in E by done. simpl in E.
    rewrite granted_clear, granted_push, Hgj, bool_decide_false in E by done.
    injection E as <- <-. eexists. split_and!; [done|..]; intros k.
    + rewrite !queued_clear, queued_push.
      destruct (Z.eqb_spec k i), (Z.eqb_spec k j); (congruence || done).
    + by rewrite !granted_clear, granted_push.
Qed.

(** A refused access waits, and another target replaces its old one. *)
Lemma wait_inv g g' phs out a ph i t ph' woken :
  gate_inv g phs out 0 -> phs !! a = Some ph -> (acquire g ph).2 = false ->
  own_slot phs a i -> wait g ph i t = Ok (g', ph', woken) ->
  gate_inv g' (<[a := ph']> phs) out 0.
Proof.
  intros Hi Ha Hblock Hown E. pose proof (lookup_lt_Some _ _ _ Ha) as Hlt.
  unfold wait in E. destruct ph as [| |j old]; simpl in Hblock; [|done|].
  - destruct (negb (admits (waiters g) i)); [done|].
    destruct (Z.leb_spec (lanes g) (active g)); [|done].
    assert (queued (waiters g) i = None) as Hq.
    { destruct (queued (waiters g) i) eqn:Eq; [|done].
      destruct (gi_queued _ _ _ _ Hi _ _ Eq) as [b Hb].
      rewrite (Hown b _ _ Hb eq_refl), Ha in Hb. done. }
    rewrite Hq, bool_decide_false in E by done. injection E as <- <- <-.
    apply enter_slot; try done.
    + pose proof (gi_bound _ _ _ _ Hi). lia.
    + intros b k u Hb ->. rewrite (Hown b _ _ Hb eq_refl), Ha in Hb. done.
    + intros k. apply queued_push.
    + intros k. apply granted_push.
  - case_bool_decide as Hsame; [injection E as <- <- <-; by rewrite list_insert_id|].
    destruct (resume g j old) as [g1 resumed] eqn:Er. destruct resumed; [done|].
    destruct (negb (admits (waiters g) i)); [done|].
    unfold resume in Er.
    destruct (gi_waiting _ _ _ _ Hi _ _ _ Ha) as [[Hqj Hgj]|[Hqj Hgj]];
      [|by rewrite Hgj, bool_decide_true in Er].
    pose proof (gi_busy _ _ _ _ Hi _ _ Hqj) as Hbusy. clear Er Hblock.
    assert (queued (waiters g) i <> Some t) as Hne.
    { intros Eq. destruct (gi_queued _ _ _ _ Hi _ _ Eq) as [b Hb].
      rewrite (Hown b _ _ Hb eq_refl), Ha in Hb. injection Hb as -> ->. naive_solver. }
    rewrite (bool_decide_false (queued (waiters g) i = Some t)) in E by done.
    set (g0 := set_waiters g (clear (waiters g) j)).
    assert (gate_inv g0 (<[a := Phase.Idle]> phs) out 0) as Hleft.
    { eapply leave_slot; [exact Hi|exact Ha|by split; [|left]|..]; simpl; try done.
      - intros k. apply queued_clear.
      - intros k. rewrite granted_clear. by destruct (Z.eqb_spec k j) as [->|].
      - by rewrite Hgj, bool_decide_false. }
    destruct (cancel _ _ _) as [g2 wk] eqn:Ec. injection E as -> <- <-.
    destruct (cancel_after_push _ _ _ _ _ _ _ Hqj Hgj Hsame Ec) as (w' & -> & Hq' & Hg').
    fold g0.
    rewrite <- (list_insert_insert_eq phs a (Phase.Waiting i t) Phase.Idle).
    apply enter_slot; try done.
    + by apply list_lookup_insert_eq.
    + intros b k u Hb ->. destruct (decide (b = a)) as [->|Hba];
        [by rewrite list_lookup_insert_eq in Hb|].
      rewrite list_lookup_insert_ne in Hb by done. apply Hba. by eapply Hown.
Qed.

Lemma gate_step_inv s op s' :
  gate_step s op s' -> gate_inv (gate s) (phases s) (loose s) 0 ->
  gate_inv (gate s') (phases s') (loose s') 0.
Proof.
  intros Hs Hi. destruct Hs as [g phs out a ph g' ph' ok Ha E|g phs out a ph i t g' ph' wk Ha Hb Ho E
    |g phs out a ph g' ph' wk Ha E|g phs out a Ha|g phs out g' wk Ho E]; simpl in *.
  - by eapply acquire_inv.
  - by eapply wait_inv.
  - by eapply release_inv.
  - change (finish_access (T := T) Phase.Held) with (@Phase.Idle T).
    assert (gate_inv g (<[a := Phase.Idle]> phs) out 1) as [].
    { eapply change_phase; [exact Hi|exact Ha|by split; [|left]|done..]. }
    split; (done || lia).
  - eapply lane_drop_inv; [|exact E]. destruct Hi. split; (done || lia).
Qed.

Lemma gate_run_inv s ops s' :
  gate_run s ops s' -> gate_inv (gate s) (phases s) (loose s) 0 ->
  gate_inv (gate s') (phases s') (loose s') 0.
Proof. induction 1; [done|]. intros. eauto using gate_step_inv. Qed.

Lemma replicate_idle n a i (t : T) : replicate n Phase.Idle !! a <> Some (Phase.Waiting i t).
Proof. intros [E _]%lookup_replicate. done. Qed.

Lemma gate_new_inv lanes w n :
  0 <= lanes <= u64_max -> (forall i, queued w i = None) -> (forall i, granted w i = None) ->
  gate_inv (gate_new lanes w) (replicate n Phase.Idle) 0 0.
Proof.
  intros Hl Hq Hg. split; simpl; try lia.
  - assert (charges w (replicate n Phase.Idle) = 0) as ->; [|lia].
    unfold charges. induction n as [|n IH]; simpl; [done|]. by rewrite IH.
  - intros a b i t u Ha. by apply replicate_idle in Ha.
  - intros i t. by rewrite Hq.
  - intros i t. by rewrite Hg.
  - intros a i t Ha. by apply replicate_idle in Ha.
  - intros i t. by rewrite Hq.
Qed.

(** C25. Over any sequence of acquisitions, waits, releases and deliveries by any
    number of connections, the active count is exactly the lanes that are held,
    travel with a completed frame, or are granted to a waiter, and never exceeds
    the lanes; no lane is refunded twice or lost. Every waiting connection is
    either queued or holds a grant, never both, and while one is queued no lane
    is idle. *)
Theorem lanes_accounted lanes0 w n ops s :
  0 <= lanes0 <= u64_max -> (forall i, queued w i = None) -> (forall i, granted w i = None) ->
  gate_run {| gate := gate_new lanes0 w; phases := replicate n Phase.Idle; loose := 0 |} ops s ->
  let w' := waiters (gate s) in
  active (gate s) = charges w' (phases s) + loose s /\ 0 <= loose s /\
  active (gate s) <= lanes (gate s) /\
  (forall a i t, phases s !! a = Some (Phase.Waiting i t) ->
     (queued w' i = Some t /\ granted w' i = None) \/
     (queued w' i = None /\ granted w' i = Some t)) /\
  (forall i t, queued w' i = Some t ->
     active (gate s) = lanes (gate s) /\ exists a, phases s !! a = Some (Phase.Waiting i t)).
Proof.
  intros Hl Hq Hg Hrun. pose proof (gate_run_inv _ _ _ Hrun (gate_new_inv _ _ n Hl Hq Hg)) as [].
  split_and!; [lia|done|lia|done|]. intros i t Hi. eauto.
Qed.
End accounting.

(** ** A reference queue *)

Fixpoint assoc (l : list (Z * Z)) (i : Z) : option Z :=
  match l with
  | [] => None
  | (j, t) :: l => if i =? j then Some t else assoc l i
  end.

Fixpoint assoc_remove (l : list (Z * Z)) (i : Z) : list (Z * Z) :=
  match l with
  | [] => []
  | (j, t) :: l => if i =? j then assoc_remove l i else (j, t) :: assoc_remove l i
  end.

(** The queue, oldest first, and the cells, over the slots below [n]. *)
Record ListFifo := { slots : Z; entries : list (Z * Z); cells : list (Z * Z) }.

#[export] Instance list_fifo : Fifo ListFifo Z := {|
  admits w i := (0 <=? i) && (i <? slots w);
  queued w i := assoc (entries w) i;
  push w i t :=
    {| slots := slots w; entries := assoc_remove (entries w) i ++ [(i, t)]; cells := cells w |};
  clear w i :=
    {| slots := slots w; entries := assoc_remove (entries w) i; cells := cells w |};
  pop w :=
    match entries w with
    | [] => (None, w)
    | (i, t) :: l =>
        (Some (i, t), {| slots := slots w; entries := assoc_remove l i; cells := cells w |})
    end;
  granted w i := assoc (cells w) i;
  set_granted w i o :=
    {| slots := slots w; entries := entries w;
       cells := match o with
                | Some t => (i, t) :: cells w
                | None => assoc_remove (cells w) i
                end |} |}.

Lemma assoc_remove_spec l i j : assoc (assoc_remove l i) j = if j =? i then None else assoc l j.
Proof.
  induction l as [|[k t] l IH]; simpl; [by destruct (j =? i)|].
  destruct (Z.eqb_spec i k) as [->|]; simpl.
  - rewrite IH. by destruct (Z.eqb_spec j k).
  - rewrite IH. destruct (Z.eqb_spec j k), (Z.eqb_spec j i); (done || congruence).
Qed.

Lemma assoc_app l k i :
  assoc (l ++ k) i = match assoc l i with Some t => Some t | None => assoc k i end.
Proof. induction l as [|[j t] l IH]; simpl; [done|]. by destruct (i =? j). Qed.

#[export] Instance list_fifo_laws : FifoLaws ListFifo Z.
Proof.
  split; simpl; try done.
  - intros w i t j. rewrite assoc_app, assoc_remove_spec. simpl.
    destruct (j =? i); [done|]. by destruct (assoc _ j).
  - intros. apply assoc_remove_spec.
  - intros w w' H. destruct (entries w) as [|[i t] l] eqn:E; [|done]. by injection H as <-.
  - intros w i t w' H. destruct (entries w) as [|[k u] l] eqn:E; [done|].
    injection H as -> -> <-. simpl. rewrite Z.eqb_refl. split; [done|]. intros j.
    rewrite assoc_remove_spec. by destruct (j =? i).
  - intros w o w' j H. destruct (entries w) as [|[k u] l]; by injection H as <- <-.
  - intros w i [t|] j; simpl; [done|]. apply assoc_remove_spec.
Qed.

(** ** Witnesses *)

(** One lane and two connections: the second waits and takes the lane over. *)
Lemma lanes_accounted_witness :
  exists s, gate_run
      {| gate := gate_new 1 {| slots := 2; entries := []; cells := [] |};
         phases := replicate 2 Phase.Idle; loose := 0 |}
      [Acquire 0; Acquire 1; Wait 1 1 7; Finish 0; DropLane; Acquire 1] s /\
    active (gate s) = 1 /\ phases s = [Phase.Idle; Phase.Held].
Proof.
  eexists.
  match goal with |- ?R /\ _ => assert R as Hrun end.
  { eapply run_cons; [by eapply step_acquire|]. eapply run_cons; [by eapply step_acquire|].
    eapply run_cons; [eapply step_wait; [reflexivity|reflexivity| |reflexivity]|].
    - intros [|[|b]] j u; simpl; naive_solver.
    - eapply run_cons; [by eapply step_finish|].
      eapply run_cons; [by eapply step_drop|].
      eapply run_cons; [by eapply step_acquire|]. apply run_nil. }
  split; [exact Hrun|].
  destruct (lanes_accounted 1 {| slots := 2; entries := []; cells := [] |} 2 _ _
    ltac:(lia) ltac:(done) ltac:(done) Hrun) as (H & _).
  split; [exact H|reflexivity].
Defined.
