(* ===== verification/RespTape.v ===== *)
(** * Retained tapes and their readers

    Models [redis/src/protocol/parser/storage/{tape,cursors}.rs], the regions of
    [storage/mod.rs], and the readers of [parser/frame/mod.rs]: a completed tape is
    a ring of nodes in the shared pool, read through cursors that count what is
    left; arrays of bulks, optional bulks, scored members and coordinates are
    validated once, numbers being written back into the nodes, and then iterated.
    A pool access outside the allocation is [None]; floats are their bits. *)
From S2P Require Import Prelude RespLimit RespPool RespGrammar.

(** ** Cursors *)

Record Tape := { tape_tail : Key; tape_len : Z }.

Record Cursor := { cur_next : Key; remaining : Z }.

Record Batch := { batch_next : Key; batch_left : Z }.

(** [Array]: the children of one array header. *)
Record Children := { arr_cursor : Cursor; arr_len : Z }.

(** [Length]: an array length that does not have the requested width. *)
Record WidthError := { width : Z; actual : Z }.

Module Mismatch.
Inductive Mismatch := Server (s : Span) | Value (v : Value.Value Span).
End Mismatch.

Module CoordError.
Inductive CoordError (E : Type) :=
| Array (m : Mismatch.Mismatch)
| Member (m : Mismatch.Mismatch)
| Length (actual : Z)
| Number (e : E).
Arguments Array {E} m.
Arguments Member {E} m.
Arguments Length {E} actual.
Arguments Number {E} e.
End CoordError.

Module Group.
Inductive Group := Length (width actual : Z) | Mismatch (m : Mismatch.Mismatch).
End Group.

Module Score.
Inductive Score (E : Type) :=
| Length (width actual : Z)
| Server (s : Span)
| Member (v : Value.Value Span)
| Number (e : E).
Arguments Length {E} width actual.
Arguments Server {E} s.
Arguments Member {E} v.
Arguments Number {E} e.
End Score.

(** [Cursor::children], [Cursor::batch] and [Cursor::batch_exact] of width [n]. *)
Definition children (n : Z) (c : Cursor) : Batch :=
  {| batch_next := cur_next c;
     batch_left := nonzero_succ u32_max (as_u32 (remaining c - as_u32 n)) |}.

Definition cursor_batch (n : Z) (c : Cursor) : option Batch :=
  if as_u32 n <=? remaining c then Some (children n c) else None.

Definition batch_exact (n : Z) (c : Cursor) : result Z Batch :=
  let actual := remaining c in
  if negb (actual =? n) then Err actual else Ok (children n c).

Definition batch_finish (b : Batch) (next : Key) : Cursor :=
  {| cur_next := next; remaining := batch_left b - 1 |}.

Definition array_exact (n : Z) (a : Children) : result WidthError Batch :=
  if negb (arr_len a =? n) then Err {| width := n; actual := arr_len a |}
  else Ok (children n (arr_cursor a)).

(** ** [Tape] *)

Definition tape_cursor (p : Pool) (t : Tape) : option Cursor :=
  head ← pool_head p (tape_tail t);
  Some {| cur_next := head; remaining := tape_len t |}.

Definition tape_root (p : Pool) (t : Tape) : option Batch :=
  head ← pool_head p (tape_tail t);
  Some {| batch_next := head; batch_left := tape_len t |}.

Definition event (p : Pool) (c : Cursor) : option (option (Kind.Kind * Cursor)) :=
  match cursor_batch 1 c with
  | None => Some None
  | Some batch =>
      node ← read p (batch_next batch);
      Some (Some (node_kind node, batch_finish batch (next node)))
  end.

Definition tape_take (p : Pool) (b : Batch) : option (result Span (Value.Value Span * Cursor)) :=
  node ← read p (batch_next b);
  Some (value ← try_value node; Ok (value, batch_finish b (next node))).

Definition tape_pair (p : Pool) (b : Batch)
    : option (result Span (Value.Value Span) * result Span (Value.Value Span) * Cursor) :=
  first ← read p (batch_next b);
  second ← read p (next first);
  Some (try_value first, try_value second, batch_finish b (next second)).

Definition array_of (value : Value.Value Span) (c : Cursor) : result Mismatch.Mismatch Children :=
  match value with
  | Value.Array len => Ok {| arr_cursor := c; arr_len := len |}
  | Value.Nil => Ok {| arr_cursor := c; arr_len := 0 |}
  | actual => Err (Mismatch.Value actual)
  end.

Definition tape_array (p : Pool) (b : Batch) : option (result Mismatch.Mismatch Children) :=
  r ← tape_take p b;
  Some (match r with
        | Ok (value, c) => array_of value c
        | Err span => Err (Mismatch.Server span)
        end).

Definition tape_scan (p : Pool) (b : Batch)
    : option (result Span (Value.Value Span) * result Mismatch.Mismatch Children) :=
  r ← tape_pair p b;
  let '(first, second, c) := r in
  Some (first, match second with
               | Ok value => array_of value c
               | Err span => Err (Mismatch.Server span)
               end).

(** The payload spans of [n] nodes from [next] on. *)
Fixpoint read_spans (n : nat) (p : Pool) (from : Key) : option (list Span * Key) :=
  match n with
  | O => Some ([], from)
  | S n =>
      node ← read p from;
      r ← read_spans n p (next node);
      Some (span_from_stored (payload node) :: r.1, r.2)
  end.

Definition tape_bulks (n : Z) (p : Pool) (b : Batch) : option (list Span * Cursor) :=
  r ← read_spans (Z.to_nat n) p (batch_next b);
  Some (r.1, batch_finish b r.2).

(** ** Regions *)

(** [Region<K>]; the kind of its nodes is a compile-time brand. *)
Record Region := { reg_tape : Tape; reg_start : Cursor; reg_len : Z }.

Record Exact := { ex_tape : Tape; ex_batch : Batch }.

Definition tape_region (t : Tape) (a : Children) : Region :=
  {| reg_tape := t;
     reg_start := {| cur_next := cur_next (arr_cursor a); remaining := arr_len a |};
     reg_len := arr_len a |}.

Definition is_bulk (v : Value.Value Span) : bool :=
  match v with Value.Bulk _ => true | _ => false end.

Definition is_optional (v : Value.Value Span) : bool :=
  match v with Value.Nil | Value.Bulk _ => true | _ => false end.

(** The loop of [Region::bulks] and [Region::optional]: every node satisfies
    [ok], or the first one that does not is reported. *)
Fixpoint check_nodes (fuel : nat) (ok : Value.Value Span -> bool) (p : Pool) (c : Cursor)
    : option (result Mismatch.Mismatch ()) :=
  match fuel with
  | O => Some (Ok ())
  | S fuel =>
      match cursor_batch 1 c with
      | None => Some (Ok ())
      | Some batch =>
          r ← tape_take p batch;
          match r with
          | Err span => Some (Err (Mismatch.Server span))
          | Ok (value, c) =>
              if negb (ok value) then Some (Err (Mismatch.Value value))
              else check_nodes fuel ok p c
          end
      end
  end.

(** The loops advance by one node: the fuel is what the cursor has left. *)
Definition region_fuel (r : Region) : nat := S (Z.to_nat (remaining (reg_start r))).

(** [Region<Raw>::bulks::<W>]. *)
Definition region_bulks (W : Z) (p : Pool) (r : Region) : option (result Group.Group Region) :=
  let actual := reg_len r in
  if negb (actual mod W =? 0) then Some (Err (Group.Length W actual))
  else
    checked ← check_nodes (region_fuel r) is_bulk p (reg_start r);
    Some (match checked with
          | Err m => Err (Group.Mismatch m)
          | Ok () =>
              Ok {| reg_tape := reg_tape r; reg_start := reg_start r;
                    reg_len := as_u32 (actual / W) |}
          end).

(** [Region<Raw>::optional]. *)
Definition region_optional (p : Pool) (r : Region) : option (result Mismatch.Mismatch Region) :=
  checked ← check_nodes (region_fuel r) is_optional p (reg_start r);
  Some (_ ← checked; Ok r).

Section numbers.
  Context {E : Type} (number : Value.Value Span -> result E Z).

(** The loop of [Region<Raw>::scored]. *)
Fixpoint scored_loop (fuel : nat) (p : Pool) (c : Cursor) : option (Pool * result (Score.Score E) ()) :=
  match fuel with
  | O => Some (p, Ok ())
  | S fuel =>
      match cursor_batch 2 c with
      | None => Some (p, Ok ())
      | Some batch =>
          member ← read p (batch_next batch);
          match try_value member with
          | Err span => Some (p, Err (Score.Server span))
          | Ok value =>
              if negb (is_bulk value) then Some (p, Err (Score.Member value))
              else
                let key := next member in
                score ← read p key;
                match try_value score with
                | Err span => Some (p, Err (Score.Server span))
                | Ok value =>
                    match number value with
                    | Err e => Some (p, Err (Score.Number e))
                    | Ok value =>
                        p ← write p key (with_float score value);
                        scored_loop fuel p (batch_finish batch (next score))
                    end
                end
          end
      end
  end.

Definition region_scored (p : Pool) (r : Region) : option (Pool * result (Score.Score E) Region) :=
  let actual := reg_len r in
  if negb (actual mod 2 =? 0) then Some (p, Err (Score.Length 2 actual))
  else
    q ← scored_loop (region_fuel r) p (reg_start r);
    Some (q.1, _ ← q.2;
      Ok {| reg_tape := reg_tape r; reg_start := reg_start r; reg_len := as_u32 (actual / 2) |}).

(** One coordinate of [Tape::coordinates]: its number replaces its payload. *)
Definition coordinate (p : Pool) (key : Key) : option (Pool * result (CoordError.CoordError E) Key) :=
  node ← read p key;
  match try_value node with
  | Err span => Some (p, Err (CoordError.Member (Mismatch.Server span)))
  | Ok value =>
      match number value with
      | Err e => Some (p, Err (CoordError.Number e))
      | Ok value =>
          p ← write p key (with_float node value);
          Some (p, Ok (next node))
      end
  end.

(** The loop of [Tape::coordinates] over [n] members. *)
Fixpoint coordinates_loop (n : nat) (p : Pool) (c : Cursor)
    : option (Pool * result (CoordError.CoordError E) ()) :=
  match n with
  | O => Some (p, Ok ())
  | S n =>
      member ← tape_take p (children 1 c);
      match member with
      | Err span => Some (p, Err (CoordError.Member (Mismatch.Server span)))
      | Ok (value, c) =>
          match value with
          | Value.Nil => coordinates_loop n p c
          | Value.Array len =>
              if len =? 2 then
                let batch := children 2 c in
                lon ← coordinate p (batch_next batch);
                match lon with
                | (p, Err e) => Some (p, Err e)
                | (p, Ok key) =>
                    lat ← coordinate p key;
                    match lat with
                    | (p, Err e) => Some (p, Err e)
                    | (p, Ok key) => coordinates_loop n p (batch_finish batch key)
                    end
                end
              else Some (p, Err (CoordError.Length len))
          | actual => Some (p, Err (CoordError.Member (Mismatch.Value actual)))
          end
      end
  end.

Definition coordinates (p : Pool) (t : Tape) : option (Pool * result (CoordError.CoordError E) Region) :=
  root ← tape_root p t;
  outer ← tape_array p root;
  match outer with
  | Err m => Some (p, Err (CoordError.Array m))
  | Ok outer =>
      let len := arr_len outer in
      q ← coordinates_loop (Z.to_nat len) p (arr_cursor outer);
      Some (q.1, _ ← q.2;
        Ok {| reg_tape := t;
              reg_start := {| cur_next := cur_next (arr_cursor outer); remaining := len |};
              reg_len := len |})
  end.
End numbers.

(** [Region<Bulk<1>>::try_chunks] and [try_exact], the error beside the region
    that is handed back, and the way back to single bulks. *)
Definition try_chunks (N : Z) (r : Region) : result (Region * WidthError) Region :=
  let actual := reg_len r in
  if negb (actual mod N =? 0) then Err (r, {| width := N; actual := actual |})
  else Ok {| reg_tape := reg_tape r; reg_start := reg_start r; reg_len := as_u32 (actual / N) |}.

Definition try_exact (N : Z) (r : Region) : result (Region * WidthError) Exact :=
  match batch_exact N (reg_start r) with
  | Ok batch => Ok {| ex_tape := reg_tape r; ex_batch := batch |}
  | Err actual => Err (r, {| width := N; actual := actual |})
  end.

Definition into_bulks (r : Region) : Region :=
  {| reg_tape := reg_tape r; reg_start := reg_start r; reg_len := remaining (reg_start r) |}.

Definition exact_bulks (N : Z) (p : Pool) (e : Exact) : option (list Span) :=
  fst <$> tape_bulks N p (ex_batch e).

Definition exact_into_bulks (N : Z) (e : Exact) : Region :=
  {| reg_tape := ex_tape e;
     reg_start := {| cur_next := batch_next (ex_batch e); remaining := as_u32 N |};
     reg_len := as_u32 N |}.

(** [Region<Maybe>::optionals]. *)
Fixpoint read_optionals (n : nat) (p : Pool) (from : Key) : option (list (option Span) * Key) :=
  match n with
  | O => Some ([], from)
  | S n =>
      node ← read p from;
      r ← read_optionals n p (next node);
      Some (maybe_span node :: r.1, r.2)
  end.

Definition optionals (n : Z) (p : Pool) (b : Batch) : option (list (option Span) * Cursor) :=
  r ← read_optionals (Z.to_nat n) p (batch_next b);
  Some (r.1, batch_finish b r.2).

(** [Region<Scored>::scored]. *)
Definition scored (p : Pool) (b : Batch) : option (Span * Z * Cursor) :=
  member ← read p (batch_next b);
  score ← read p (next member);
  Some (span_from_stored (payload member), payload score, batch_finish b (next score)).

(** ** Iterators *)

(** [CoordinateIter::next]: the longitude and the latitude of each member. *)
Definition coordinate_next (p : Pool) (c : Cursor) : option (option (option (Z * Z) * Cursor)) :=
  match cursor_batch 1 c with
  | None => Some None
  | Some batch =>
      member ← read p (batch_next batch);
      match tag member with
      | Tag.Nil => Some (Some (None, batch_finish batch (next member)))
      | _ =>
          lon ← read p (next member);
          lat ← read p (next lon);
          Some (Some (Some (payload lon, payload lat), batch_finish batch (next lat)))
      end
  end.

Definition iter_bulks (W : Z) (p : Pool) (c : Cursor) : option (option (list Span * Cursor)) :=
  match cursor_batch W c with
  | None => Some None
  | Some batch => Some <$> tape_bulks W p batch
  end.

Definition iter_optionals (p : Pool) (c : Cursor) : option (option (list (option Span) * Cursor)) :=
  match cursor_batch 1 c with
  | None => Some None
  | Some batch => Some <$> optionals 1 p batch
  end.

Definition iter_scored (p : Pool) (c : Cursor) : option (option (Span * Z * Cursor)) :=
  match cursor_batch 2 c with
  | None => Some None
  | Some batch => Some <$> scored p batch
  end.

(** Runs an iterator to its end. *)
Fixpoint collect {A} (fuel : nat) (step : Cursor -> option (option (A * Cursor))) (c : Cursor)
    : option (list A * Cursor) :=
  match fuel with
  | O => None
  | S fuel =>
      r ← step c;
      match r with
      | None => Some ([], c)
      | Some (x, c) => rest ← collect fuel step c; Some (x :: rest.1, rest.2)
      end
  end.

(** ** [Reader] *)

Module Event.
Inductive Event :=
| Nil
| Ok
| Status (s : list Z)
| Integer (n : Z)
| Bulk (s : list Z)
| Array (len : Z)
| Error (s : list Z).
End Event.

(** The unchecked selection of a span from its frame. *)
Definition select (frame : list Z) (s : Span) : option (list Z) :=
  get_range frame (span_range s).1 (span_range s).2.

Definition next_event (frame : list Z) (p : Pool) (c : Cursor)
    : option (option (Event.Event * Cursor)) :=
  r ← event p c;
  match r with
  | None => Some None
  | Some (value, c) =>
      e ← match value with
          | Kind.Nil => Some Event.Nil
          | Kind.Ok => Some Event.Ok
          | Kind.Status span => Event.Status <$> select frame span
          | Kind.Error span => Event.Error <$> select frame span
          | Kind.Integer value => Some (Event.Integer value)
          | Kind.Bulk span => Event.Bulk <$> select frame span
          | Kind.Array len => Some (Event.Array len)
          end;
      Some (Some (e, c))
  end.

Definition reader_finish (c : Cursor) : result Error.Error () :=
  if remaining c =? 0 then Ok () else Err (Error.Values (remaining c)).

(** ** Paths through the pool *)

(** The nodes [ns] follow one another from [k], up to the key [stop]. *)
Fixpoint path (p : Pool) (k : Key) (ns : list Node) (stop : Key) : Prop :=
  match ns with
  | [] => k = stop
  | n :: ns => pool_node p k = Some n /\ path p (next n) ns stop
  end.

Fixpoint keys (k : Key) (ns : list Node) : list Key :=
  match ns with
  | [] => []
  | n :: ns => k :: keys (next n) ns
  end.

Definition kinds (ns : list Node) : list Kind.Kind := node_kind <$> ns.

(** What a reader makes of a value. *)
Definition kind_value (v : Kind.Kind) : result Span (Value.Value Span) :=
  match v with
  | Kind.Nil => Ok Value.Nil
  | Kind.Ok => Ok Value.Ok
  | Kind.Status s => Ok (Value.Status s)
  | Kind.Error s => Err s
  | Kind.Integer n => Ok (Value.Integer n)
  | Kind.Bulk s => Ok (Value.Bulk s)
  | Kind.Array len => Ok (Value.Array len)
  end.

Lemma try_value_kind n : try_value n = kind_value (node_kind n).
Proof. unfold try_value, node_kind. by destruct (tag n). Qed.

Lemma path_app p k l1 l2 stop :
  path p k (l1 ++ l2) stop <-> exists mid, path p k l1 mid /\ path p mid l2 stop.
Proof.
  revert k. induction l1 as [|n l1 IH]; intros k; simpl; [naive_solver|].
  rewrite IH. naive_solver.
Qed.

Lemma keys_app k l1 l2 p mid :
  path p k l1 mid -> keys k (l1 ++ l2) = keys k l1 ++ keys mid l2.
Proof.
  revert k. induction l1 as [|n l1 IH]; intros k; simpl; [by intros ->|].
  intros [_ Hp]. by rewrite IH.
Qed.

Lemma path_agree p q k ns stop :
  path p k ns stop -> (forall j, j ∈ keys k ns -> pool_node q j = pool_node p j) ->
  path q k ns stop.
Proof.
  revert k. induction ns as [|n ns IH]; intros k; simpl; [done|].
  intros [Hn Hp] Hq. split; [rewrite Hq by set_solver; done|].
  apply IH; [done|]. intros j Hj. apply Hq. set_solver.
Qed.

(** A ring is a path from its head back to its head. *)
Lemma linked_path p ks stop :
  linked p ks stop ->
  exists ns, path p (default stop (head ks)) ns stop /\ keys (default stop (head ks)) ns = ks /\
    contents p ks = Some <$> kinds ns.
Proof.
  induction ks as [|k ks IH]; simpl; [by exists []|].
  intros [(n & Hn & Hk) (ns & Hp & Hks & Hc)%IH]. exists (n :: ns). simpl. rewrite Hk.
  split_and!; [done|done|by f_equal|]. unfold contents in *. simpl. rewrite Hn. simpl. by f_equal.
Qed.

Lemma length_keys k ns : length (keys k ns) = length ns.
Proof. revert k. induction ns; intros; simpl; [done|by f_equal]. Qed.

Lemma kinds_cons n ns : kinds (n :: ns) = node_kind n :: kinds ns.
Proof. done. Qed.

Lemma length_kinds ns : length (kinds ns) = length ns.
Proof. apply length_fmap. Qed.

(** ** Cursors that stay within their count *)

Section cursors.
Context (n : Z) (c : Cursor).
Hypothesis (Hn : 0 <= n <= remaining c) (Hc : remaining c <= u32_max).

Lemma children_left : batch_left (children n c) = remaining c - n + 1 \/
  (batch_left (children n c) = u32_max /\ n = 0).
Proof.
  unfold children. simpl. rewrite !as_u32_small by (rewrite ?as_u32_small; lia).
  unfold nonzero_succ. lia.
Qed.

Lemma children_finish k :
  0 < n -> batch_finish (children n c) k = {| cur_next := k; remaining := remaining c - n |}.
Proof.
  intros Hn0. unfold batch_finish. destruct children_left as [->|[_ ?]]; [|lia].
  f_equal. lia.
Qed.

Lemma cursor_batch_Some : cursor_batch n c = Some (children n c).
Proof.
  unfold cursor_batch. rewrite as_u32_small by lia. by destruct (Z.leb_spec n (remaining c)); [|lia].
Qed.
End cursors.

Lemma cursor_batch_None n c : 0 <= n <= u32_max -> remaining c < n -> cursor_batch n c = None.
Proof.
  intros Hn Hlt. unfold cursor_batch. rewrite as_u32_small by lia.
  by destruct (Z.leb_spec n (remaining c)); [lia|].
Qed.

(** ** The reader replays the value *)

(** The events of a value, in pre-order. *)
Fixpoint events_of (r : resp) : list Event.Event :=
  match r with
  | RNil => [Event.Nil]
  | ROk => [Event.Ok]
  | RStatus t => [Event.Status t]
  | RError t => [Event.Error t]
  | RInteger n => [Event.Integer n]
  | RBulk p => [Event.Bulk p]
  | RArray l => Event.Array (zlen l) :: flat_map events_of l
  end.

(** The event of one node of a tape. *)
Definition event_at (frame : list Z) (v : Kind.Kind) (e : Event.Event) : Prop :=
  match v, e with
  | Kind.Nil, Event.Nil => True
  | Kind.Ok, Event.Ok => True
  | Kind.Status s, Event.Status t => select frame s = Some t
  | Kind.Error s, Event.Error t => select frame s = Some t
  | Kind.Integer n, Event.Integer m => n = m
  | Kind.Bulk s, Event.Bulk t => select frame s = Some t
  | Kind.Array n, Event.Array m => n = m
  | _, _ => False
  end.

Lemma reads_events frame ks rs :
  reads frame ks rs -> Forall2 (event_at frame) ks (flat_map events_of rs).
Proof.
  induction 1 as [|v r ks rs Hc Hr IH|k1 l k2 rs H1 IH1 H2 IH2]; simpl; [constructor| |].
  - destruct v, r; simpl in Hc; try done; simpl; by constructor.
  - constructor; [done|]. by apply Forall2_app.
Qed.

Lemma next_event_node frame p k n ns stop left e :
  path p k (n :: ns) stop -> left = Z.of_nat (S (length ns)) -> left <= u32_max ->
  event_at frame (node_kind n) e ->
  next_event frame p {| cur_next := k; remaining := left |} =
  Some (Some (e, {| cur_next := next n; remaining := left - 1 |})).
Proof.
  intros [Hn _] -> Hb He. unfold next_event, event.
  rewrite cursor_batch_Some by (simpl; lia). unfold read. simpl. rewrite Hn. simpl.
  rewrite children_finish by (simpl; lia). simpl.
  destruct (node_kind n), e; simpl in He; try done; rewrite ?He; subst; done.
Qed.

Lemma collect_events frame p k ns stop evs fuel :
  path p k ns stop -> Forall2 (event_at frame) (kinds ns) evs -> zlen ns <= u32_max ->
  (length ns < fuel)%nat ->
  collect fuel (next_event frame p) {| cur_next := k; remaining := zlen ns |} =
  Some (evs, {| cur_next := stop; remaining := 0 |}).
Proof.
  revert k ns evs. induction fuel as [|fuel IH]; intros k ns evs Hp He Hb Hf; [lia|].
  destruct ns as [|n ns]; simpl in *.
  - inversion He. by subst.
  - inversion He as [|v e vs es Hv Hes]; subst.
    rewrite (next_event_node frame p k n ns stop (Z.of_nat (S (length ns))) e) by (done || lia).
    cbn [mbind option_bind].
    replace (Z.of_nat (S (length ns)) - 1) with (zlen ns) by lia. cbn [mbind option_bind].
    destruct Hp as [_ Hp]. rewrite (IH _ _ es) by (done || lia). done.
Qed.

(** A tape of the pool: a ring of nodes that stores [vs]. *)
Definition holds (p : Pool) (t : Tape) (vs : list Kind.Kind) : Prop :=
  exists ks, ring p ks /\ NoDup ks /\ Forall (Z.le 1) ks /\ last ks = Some (tape_tail t) /\
    contents p ks = Some <$> vs /\ tape_len t = zlen ks /\ tape_len t <= u32_max.

Lemma ring_tail p ks k :
  ring p ks -> last ks = Some k -> pool_head p k = head ks.
Proof.
  intros Hr Hl. destruct ks as [|j ks _] using rev_ind; [done|].
  rewrite last_snoc in Hl. injection Hl as ->.
  apply ring_snoc in Hr as [_ (n & Hn & Hk)]. unfold pool_head. rewrite Hn. simpl.
  rewrite Hk. by destruct ks.
Qed.

(** The path of a tape, from its first node around to it again. *)
Lemma holds_path p t vs :
  holds p t vs ->
  exists k ns, pool_head p (tape_tail t) = Some k /\ path p k ns k /\ kinds ns = vs /\
    tape_len t = zlen ns /\ tape_len t <= u32_max /\ NoDup (keys k ns) /\ Forall (Z.le 1) (keys k ns) /\
    ring p (keys k ns) /\ last (keys k ns) = Some (tape_tail t).
Proof.
  intros (ks & Hr & Hnd & Hpos & Hl & Hc & Hlen & Hb). pose proof (ring_tail _ _ _ Hr Hl) as Hh.
  destruct (linked_path _ _ _ Hr) as (ns & Hp & Hks & Hcs).
  destruct ks as [|k ks]; [done|]. simpl in *. exists k, ns. rewrite Hks.
  split_and!; try done.
  - rewrite Hcs in Hc. by apply list_fmap_eq_inj in Hc; [|intros ? ? [=]].
  - pose proof (f_equal (@length Key) Hks) as E. rewrite length_keys in E. simpl in E. lia.
Qed.

(** Draining a tape reads it to its end. *)
Lemma tape_drains frame p t vs v :
  holds p t vs -> reads frame vs [v] ->
  exists c c', tape_cursor p t = Some c /\ remaining c = tape_len t /\ tape_len t <> 0 /\
    collect (S (Z.to_nat (tape_len t))) (next_event frame p) c = Some (events_of v, c') /\
    remaining c' = 0.
Proof.
  intros Hh Hr. destruct (holds_path _ _ _ Hh) as (k & ns & Hk & Hp & Hv & Hlen & Hb & _).
  apply reads_events in Hr as He. simpl in He. rewrite app_nil_r in He.
  eexists _, {| cur_next := k; remaining := 0 |}. unfold tape_cursor. rewrite Hk. split; [done|].
  assert (ns <> []) as Hne by (intros ->; simpl in Hv; subst vs; inversion Hr).
  split_and!; [done|destruct ns; simpl in *; (done || lia)|rewrite Hlen, Nat2Z.id|done].
  apply collect_events; [done|by rewrite Hv|lia|lia].
Qed.

(** The reader of a completed frame replays its value: draining it yields
    exactly the pre-order events of the value, with the bytes of its texts, and
    nothing is left; before that, [finish] reports the values that remain. *)
Theorem reader_replays frame p t vs v :
  holds p t vs -> reads frame vs [v] ->
  exists c c', tape_cursor p t = Some c /\
    reader_finish c = Err (Error.Values (tape_len t)) /\
    collect (S (Z.to_nat (tape_len t))) (next_event frame p) c = Some (events_of v, c') /\
    reader_finish c' = Ok ().
Proof.
  intros Hh Hr. destruct (tape_drains _ _ _ _ _ Hh Hr) as (c & c' & H1 & H2 & H3 & H4 & H5).
  exists c, c'. unfold reader_finish. rewrite H2, H5. split_and!; try done.
  by destruct (Z.eqb_spec (tape_len t) 0).
Qed.

(** ** Validated regions *)

(** The nodes of an array of leaves, as [Tape::region] delimits them. *)
Definition region_at (p : Pool) (r : Region) (ns : list Node) (stop : Key) : Prop :=
  path p (cur_next (reg_start r)) ns stop /\ remaining (reg_start r) = zlen ns /\
  reg_len r = zlen ns /\ zlen ns <= u32_max.

(** The report of a node that a check refuses. *)
Definition refuses (ok : Value.Value Span -> bool) (v : Kind.Kind) (m : Mismatch.Mismatch) : Prop :=
  match kind_value v with
  | Err span => m = Mismatch.Server span
  | Ok value => ok value = false /\ m = Mismatch.Value value
  end.

Definition allows (ok : Value.Value Span -> bool) (v : Kind.Kind) : Prop :=
  exists value, kind_value v = Ok value /\ ok value = true.

Lemma take_node p k n ns stop left :
  path p k (n :: ns) stop -> left = Z.of_nat (S (length ns)) -> left <= u32_max ->
  cursor_batch 1 {| cur_next := k; remaining := left |} =
    Some (children 1 {| cur_next := k; remaining := left |}) /\
  tape_take p (children 1 {| cur_next := k; remaining := left |}) =
    Some (value ← kind_value (node_kind n);
          Ok (value, {| cur_next := next n; remaining := zlen ns |})).
Proof.
  intros [Hn _] -> Hb. rewrite cursor_batch_Some by (simpl; lia). split; [done|].
  unfold tape_take, read. simpl. rewrite Hn. simpl. rewrite try_value_kind.
  rewrite children_finish by (simpl; lia). simpl. destruct (kind_value _); [|done]. simpl.
  repeat f_equal. lia.
Qed.

(** A check passes when every node is allowed, else it reports the first one. *)
Lemma check_nodes_spec ok p k ns stop fuel :
  path p k ns stop -> zlen ns <= u32_max -> (length ns < fuel)%nat ->
  exists res, check_nodes fuel ok p {| cur_next := k; remaining := zlen ns |} = Some res /\
    match res with
    | Ok () => Forall (allows ok) (kinds ns)
    | Err m => exists l1 v l2, kinds ns = l1 ++ v :: l2 /\ Forall (allows ok) l1 /\ refuses ok v m
    end.
Proof.
  revert k ns. induction fuel as [|fuel IH]; intros k ns Hp Hb Hf; [lia|].
  destruct ns as [|n ns].
  - exists (Ok ()). by repeat constructor.
  - destruct (take_node p k n ns stop (Z.of_nat (S (length ns))) Hp) as [Hbt Htk]; [done|done|].
    simpl check_nodes. cbn [length] in *. rewrite Hbt, Htk. destruct Hp as [_ Hp].
    cbn [mbind option_bind]. destruct (kind_value (node_kind n)) as [value|span] eqn:Ev; simpl.
    + destruct (ok value) eqn:Eo; simpl.
      * destruct (IH (next n) ns Hp) as (res & -> & Hres); [lia|lia|]. exists res. split; [done|].
        assert (allows ok (node_kind n)) by by exists value.
        destruct res as [[]|m]; [by constructor|].
        destruct Hres as (l1 & v & l2 & E & H1 & H2). exists (node_kind n :: l1), v, l2.
        split_and!; [change (node_kind n :: kinds ns = node_kind n :: l1 ++ v :: l2); by rewrite E
          |by constructor|done].
      * eexists. split; [done|]. exists [], (node_kind n), (kinds ns). unfold refuses.
        by rewrite Ev.
    + eexists. split; [done|]. exists [], (node_kind n), (kinds ns). unfold refuses. by rewrite Ev.
Qed.

Lemma bulk_kinds vs : Forall (allows is_bulk) vs -> exists ss, vs = Kind.Bulk <$> ss.
Proof.
  induction 1 as [|v vs (value & Hv & Ho) _ [ss ->]]; [by exists []|].
  destruct v; simpl in Hv; simplify_eq; simpl in Ho; try done. by exists (s :: ss).
Qed.

Lemma read_spans_path p k ns stop ss :
  path p k ns stop -> kinds ns = Kind.Bulk <$> ss ->
  read_spans (length ns) p k = Some (ss, stop).
Proof.
  revert k ss. induction ns as [|n ns IH]; intros k ss Hp Hk.
  - destruct ss; [|done]. simpl in *. by subst.
  - destruct ss as [|s ss]; [done|]. injection Hk as Hs Hk. destruct Hp as [Hn Hp]. simpl.
    unfold read. rewrite Hn. simpl. rewrite (IH _ _ Hp Hk). simpl.
    unfold node_kind in Hs. destruct (tag n); simplify_eq. done.
Qed.

Lemma path_split p k ns stop n :
  path p k ns stop -> (n <= length ns)%nat ->
  exists l1 l2 mid, ns = l1 ++ l2 /\ length l1 = n /\ path p k l1 mid /\ path p mid l2 stop.
Proof.
  intros Hp Hn. rewrite <- (take_drop n ns) in Hp. apply path_app in Hp as (mid & H1 & H2).
  exists (take n ns), (drop n ns), mid. rewrite take_drop, length_take. split_and!; (done || lia).
Qed.

(** Iterating groups of [W] bulks yields all of them in order. *)
Lemma collect_bulks W p m k ns stop ss fuel :
  0 < W <= u32_max -> path p k ns stop -> kinds ns = Kind.Bulk <$> ss ->
  zlen ns = Z.of_nat m * W -> zlen ns <= u32_max -> (m < fuel)%nat ->
  exists groups, collect fuel (iter_bulks W p) {| cur_next := k; remaining := zlen ns |} =
      Some (groups, {| cur_next := stop; remaining := 0 |}) /\
    concat groups = ss /\ Forall (fun g => zlen g = W) groups /\ length groups = m.
Proof.
  intros HW. revert k ns ss fuel. induction m as [|m IH]; intros k ns ss fuel Hp Hk Hlen Hb Hf;
    (destruct fuel as [|fuel]; [lia|]).
  - destruct ns; simpl in Hlen; [|lia]. destruct ss; [|done]. simpl in Hp. subst stop.
    exists []. simpl. unfold iter_bulks. rewrite cursor_batch_None by (simpl; lia). done.
  - destruct (path_split p k ns stop (Z.to_nat W) Hp) as (l1 & l2 & mid & -> & Hl1 & Hp1 & Hp2);
      [nia|].
    rewrite length_app in *. unfold kinds in Hk. rewrite fmap_app in Hk.
    symmetry in Hk. apply fmap_app_inv in Hk as (s1 & s2 & Hs1 & Hs2 & ->).
    destruct (IH mid l2 s2 fuel Hp2) as (groups & Hg & <- & Hall & Hm); [done|lia|lia|lia|].
    assert (iter_bulks W p {| cur_next := k; remaining := Z.of_nat (length l1 + length l2) |} =
      Some (Some (s1, {| cur_next := mid; remaining := zlen l2 |}))) as Hstep.
    { unfold iter_bulks. rewrite cursor_batch_Some by (simpl; lia). unfold tape_bulks.
      cbn [children batch_next cur_next]. rewrite <- Hl1, (read_spans_path p k l1 mid s1 Hp1) by done.
      simpl. rewrite children_finish by (simpl; lia). simpl. repeat f_equal. lia. }
    exists (s1 :: groups). cbn [collect]. rewrite Hstep. cbn [mbind option_bind]. rewrite Hg. simpl.
    split_and!; [done|done| |by rewrite Hm]. constructor; [|done].
    pose proof (f_equal length Hs1) as E. rewrite !length_fmap in E. lia.
Qed.

(** C27. An array is accepted as groups of [W] bulks exactly when its length is
    a multiple of [W] and all its elements are bulks; the first offending element
    or the length is reported otherwise. Iterating an accepted region yields the
    groups of [W] spans, in order and without a rest. *)
Theorem bulk_groups W p r ns stop :
  0 < W <= u32_max -> region_at p r ns stop ->
  match region_bulks W p r with
  | None => False
  | Some (Err (Group.Length w actual)) => w = W /\ actual = zlen ns /\ zlen ns mod W <> 0
  | Some (Err (Group.Mismatch m)) => exists l1 v l2, kinds ns = l1 ++ v :: l2 /\
      Forall (allows is_bulk) l1 /\ refuses is_bulk v m
  | Some (Ok r') =>
      exists ss groups, kinds ns = Kind.Bulk <$> ss /\ reg_len r' = zlen groups /\
        collect (S (length groups)) (iter_bulks W p) (reg_start r') =
          Some (groups, {| cur_next := stop; remaining := 0 |}) /\
        concat groups = ss /\ Forall (fun g => zlen g = W) groups
  end.
Proof.
  intros HW (Hp & Hrem & Hlen & Hb). unfold region_bulks. rewrite Hlen.
  destruct (Z.eqb_spec (zlen ns mod W) 0) as [Hm|Hm]; simpl negb; cbv iota; [|done].
  destruct r as [t [k left] len]. cbn [reg_tape reg_start reg_len cur_next remaining] in *.
  subst len left. unfold region_fuel. cbn [reg_start remaining]. rewrite Nat2Z.id.
  destruct (check_nodes_spec is_bulk p k ns stop (S (length ns)) Hp Hb) as (res & E & Hres); [lia|].
  rewrite E. cbn [mbind option_bind]. destruct res as [[]|m]; [|done].
  apply bulk_kinds in Hres as [ss Hss]. apply Z.mod_divide in Hm as [g Hg]; [|lia].
  assert (0 <= g) by nia.
  destruct (collect_bulks W p (Z.to_nat g) k ns stop ss (S (Z.to_nat g)) HW Hp Hss)
    as (groups & Hc & H1 & H2 & H3); [nia|lia|lia|].
  exists ss, groups. rewrite H3. split_and!; try done. cbn [reg_len].
  rewrite Hg, Z.div_mul, as_u32_small by nia. lia.
Qed.

(** ** Numbers written into the tape *)

(** The pools agree outside the keys [ks]. *)
Definition same_outside (p q : Pool) (ks : list Key) : Prop :=
  forall j, 1 <= j -> j ∉ ks -> pool_node q j = pool_node p j.

Lemma same_outside_trans p q r ks1 ks2 :
  same_outside p q ks1 -> same_outside q r ks2 -> same_outside p r (ks1 ++ ks2).
Proof. intros H1 H2 j Hj Hn. rewrite H2, H1; set_solver. Qed.

Lemma same_outside_weaken p q ks1 ks2 :
  same_outside p q ks1 -> ks1 ⊆ ks2 -> same_outside p q ks2.
Proof. intros H1 H2 j Hj Hn. apply H1; set_solver. Qed.

Section numbers_spec.
Context {E : Type} (number : Value.Value Span -> result E Z).

(** Members and scores, in turn. *)
Inductive scored_pairs : list Kind.Kind -> list (Span * Z) -> Prop :=
| scored_nil : scored_pairs [] []
| scored_cons s v x f vs ps :
    kind_value v = Ok x -> number x = Ok f -> scored_pairs vs ps ->
    scored_pairs (Kind.Bulk s :: v :: vs) ((s, f) :: ps).

(** Members of a position reply: nil, or a longitude and a latitude. *)
Inductive coords : nat -> list Kind.Kind -> list (option (Z * Z)) -> Prop :=
| coords_done vs : coords 0 vs []
| coords_nil n vs cs : coords n vs cs -> coords (S n) (Kind.Nil :: vs) (None :: cs)
| coords_pair n v1 x1 f1 v2 x2 f2 vs cs :
    kind_value v1 = Ok x1 -> number x1 = Ok f1 -> kind_value v2 = Ok x2 -> number x2 = Ok f2 ->
    coords n vs cs -> coords (S n) (Kind.Array 2 :: v1 :: v2 :: vs) (Some (f1, f2) :: cs).

(** Writing a number keeps the path; only the written node changes. *)
Lemma write_float p k n ns stop bits :
  path p k (n :: ns) stop -> NoDup (keys k (n :: ns)) -> Forall (Z.le 1) (keys k (n :: ns)) ->
  exists p', write p k (with_float n bits) = Some p' /\
    path p' k (with_float n bits :: ns) stop /\ same_outside p p' [k].
Proof.
  intros [Hn Hp] Hnd Hpos. unfold write.
  destruct (node_set_is_Some p k (with_float n bits) n Hn) as [p' Hp'].
  pose proof (node_set_Some _ _ _ _ Hp') as (_ & _ & Hset & Hframe). exists p'.
  simpl in Hnd, Hpos. apply NoDup_cons in Hnd as [Hk Hnd]. apply Forall_cons in Hpos as [Hk1 Hpos].
  rewrite Forall_forall in Hpos. split_and!; [done| |].
  - split; [done|]. simpl. eapply path_agree; [exact Hp|]. intros j Hj.
    apply Hframe; [by apply Hpos|]. intros ->. done.
  - intros j Hj Hne. apply Hframe; set_solver.
Qed.

Lemma same_outside_path p q ks k ns stop :
  path p k ns stop -> same_outside p q ks -> Forall (Z.le 1) (keys k ns) ->
  (forall j, j ∈ keys k ns -> j ∉ ks) -> path q k ns stop.
Proof.
  intros Hp Hs Hpos Hd. eapply path_agree; [done|]. intros j Hj.
  rewrite Forall_forall in Hpos. apply Hs; [by apply Hpos|by apply Hd].
Qed.

Lemma scored_inv v1 v2 vs ps :
  scored_pairs (v1 :: v2 :: vs) ps ->
  exists s x f qs, v1 = Kind.Bulk s /\ kind_value v2 = Ok x /\ number x = Ok f /\
    scored_pairs vs qs /\ ps = (s, f) :: qs.
Proof. inversion 1; subst. eauto 10. Qed.

Lemma bulk_value v x :
  kind_value v = Ok x -> is_bulk x = true -> exists s, v = Kind.Bulk s.
Proof. destruct v; simpl; intros [= <-] Hb; try done. eauto. Qed.

Lemma iter_scored_step p k n1 n2 ns stop left s :
  path p k (n1 :: n2 :: ns) stop -> left = 2 + zlen ns -> left <= u32_max ->
  node_kind n1 = Kind.Bulk s ->
  iter_scored p {| cur_next := k; remaining := left |} =
  Some (Some (s, payload n2, {| cur_next := next n2; remaining := zlen ns |})).
Proof.
  intros (H1 & H2 & _) -> Hb Hs. unfold iter_scored. rewrite cursor_batch_Some by (simpl; lia).
  unfold scored, read. cbn [children batch_next cur_next]. rewrite H1. cbn [mbind option_bind].
  rewrite H2. cbn [mbind option_bind]. rewrite children_finish by (simpl; lia). simpl.
  unfold node_kind in Hs. destruct (tag n1); simplify_eq. repeat f_equal. lia.
Qed.

(** The loop over members and scores. *)
Lemma scored_loop_spec fuel m p k ns stop :
  path p k ns stop -> NoDup (keys k ns) -> Forall (Z.le 1) (keys k ns) ->
  length ns = (2 * m)%nat -> zlen ns <= u32_max -> (m < fuel)%nat ->
  exists p' res, scored_loop number fuel p {| cur_next := k; remaining := zlen ns |} =
      Some (p', res) /\ same_outside p p' (keys k ns) /\
    match res with
    | Ok () => exists ps ns', scored_pairs (kinds ns) ps /\ path p' k ns' stop /\
        keys k ns' = keys k ns /\ length ps = m /\
        collect (S m) (iter_scored p') {| cur_next := k; remaining := zlen ns |} =
          Some (ps, {| cur_next := stop; remaining := 0 |})
    | Err _ => forall ps, ~ scored_pairs (kinds ns) ps
    end.
Proof.
  revert m p k ns. induction fuel as [|fuel IH]; intros m p k ns Hp Hnd Hpos Hlen Hb Hf; [lia|].
  destruct ns as [|n1 [|n2 ns]]; [| |destruct m as [|m]]; try (simpl in Hlen; lia).
  { simpl in Hp. subst k. exists p, (Ok ()). simpl. split_and!; [done|done|].
    exists [], []. destruct m; [|simpl in Hlen; lia]. split_and!; try done. constructor. }
  cbn [scored_loop length] in *. rewrite cursor_batch_Some by (simpl; lia).
  destruct (Hp) as (H1 & H2 & Hp3). unfold read.
  cbn [batch_next children cur_next remaining]. rewrite H1.
  cbn [mbind option_bind]. rewrite try_value_kind.
  change (kinds (n1 :: n2 :: ns)) with (node_kind n1 :: node_kind n2 :: kinds ns).
  assert (forall (e : Score.Score E), (forall ps, ~ scored_pairs (node_kind n1 :: node_kind n2 :: kinds ns) ps) ->
    exists p' res, Some (p, Err e) = Some (p', res) /\ same_outside p p' (keys k (n1 :: n2 :: ns)) /\
    match res with
    | Ok () => exists ps ns', scored_pairs (node_kind n1 :: node_kind n2 :: kinds ns) ps /\
        path p' k ns' stop /\ keys k ns' = keys k (n1 :: n2 :: ns) /\ length ps = S m /\
        collect (S (S m)) (iter_scored p') {| cur_next := k; remaining := Z.of_nat (S (S (length ns))) |} =
          Some (ps, {| cur_next := stop; remaining := 0 |})
    | Err _ => forall ps, ~ scored_pairs (node_kind n1 :: node_kind n2 :: kinds ns) ps
    end) as Hfail by (intros e He; by exists p, (Err e)).
  destruct (kind_value (node_kind n1)) as [x1|s1] eqn:E1.
  2: { apply Hfail. intros ps (s & x & f & qs & Hs & _)%scored_inv. by rewrite Hs in E1. }
  destruct (is_bulk x1) eqn:Eb; simpl negb; cbv iota.
  2: { apply Hfail. intros ps (s & x & f & qs & Hs & _)%scored_inv. rewrite Hs in E1.
       injection E1 as <-. done. }
  rewrite H2. cbn [mbind option_bind]. rewrite try_value_kind.
  destruct (kind_value (node_kind n2)) as [x2|s2] eqn:E2.
  2: { apply Hfail. intros ps (s & x & f & qs & _ & Hs & _)%scored_inv. congruence. }
  destruct (number x2) as [f|e] eqn:Ef.
  2: { apply Hfail. intros ps (s & x & f & qs & _ & Hs & Hn & _)%scored_inv. congruence. }
  clear Hfail. destruct (bulk_value _ _ E1 Eb) as [s Hs].
  destruct (write_float p (next n1) n2 ns stop f) as (p1 & Hw & Hp1 & Ho1);
    [by destruct Hp|by apply NoDup_cons in Hnd as [_ ?]|by apply Forall_cons in Hpos as [_ ?]|].
  rewrite Hw. cbn [mbind option_bind]. rewrite children_finish by (simpl; lia).
  cbn [remaining]. replace (Z.of_nat (S (S (length ns))) - 2) with (zlen ns) by lia.
  simpl in Hnd, Hpos, Hp1. apply NoDup_cons in Hnd as [Hk Hnd].
  apply NoDup_cons in Hnd as [Hk2 Hnd].
  apply Forall_cons in Hpos as [Hk1 Hpos]. apply Forall_cons in Hpos as [Hkn Hpos].
  destruct (IH m p1 (next n2) ns) as (p2 & res & Hl & Ho2 & Hres); try done; [tauto|lia|lia|lia|].
  exists p2, res. split; [done|]. split.
  { eapply same_outside_weaken; [by eapply same_outside_trans|]. set_solver. }
  destruct res as [[]|e]; [|intros ps (s' & x & f' & qs & _ & _ & _ & Hps & _)%scored_inv; by apply (Hres qs)].
  destruct Hres as (ps & ns' & Hps & Hp2 & Hks & Hlps & Hc).
  exists ((s, f) :: ps), (n1 :: with_float n2 f :: ns').
  assert (path p2 k (n1 :: with_float n2 f :: ns') stop) as Hp2'.
  { split; [rewrite Ho2, Ho1 by set_solver; done|]. split; [rewrite Ho2 by set_solver; tauto|done]. }
  assert (length ns' = length ns) as Hln by (rewrite <- (length_keys (next n2)), Hks; apply length_keys).
  split_and!.
  - rewrite Hs. by econstructor.
  - done.
  - simpl. by rewrite Hks.
  - simpl. by rewrite Hlps.
  - cbn [collect]. rewrite (iter_scored_step p2 k n1 (with_float n2 f) ns' stop _ s) by (done || lia).
    cbn [mbind option_bind]. simpl next. rewrite Hln.
    cbn [collect] in Hc. rewrite Hc. done.
Qed.

Lemma scored_pairs_length vs ps : scored_pairs vs ps -> length vs = (2 * length ps)%nat.
Proof. induction 1; simpl; lia. Qed.

(** One coordinate of a pair. *)
Lemma coordinate_spec p k n ns stop :
  path p k (n :: ns) stop -> NoDup (keys k (n :: ns)) -> Forall (Z.le 1) (keys k (n :: ns)) ->
  exists p' res, coordinate number p k = Some (p', res) /\ same_outside p p' [k] /\
    match res with
    | Ok key => key = next n /\ exists x f, kind_value (node_kind n) = Ok x /\ number x = Ok f /\
        path p' k (with_float n f :: ns) stop
    | Err _ => forall x f, kind_value (node_kind n) = Ok x -> number x <> Ok f
    end.
Proof.
  intros Hp Hnd Hpos. unfold coordinate, read. destruct (Hp) as [Hn _]. rewrite Hn.
  cbn [mbind option_bind]. rewrite try_value_kind.
  destruct (kind_value (node_kind n)) as [x|s]; [|eexists p, _; split; [done|]; by split].
  destruct (number x) as [f|e] eqn:Ef; [|eexists p, _; split; [done|]; split; [done|]; intros ? ? [= <-]; congruence].
  destruct (write_float p k n ns stop f Hp Hnd Hpos) as (p' & Hw & Hp' & Ho).
  rewrite Hw. cbn [mbind option_bind]. eexists p', _. split; [done|]. split; [done|].
  split; [done|]. by exists x, f.
Qed.

Lemma coordinate_next_nil p k n ns stop left :
  path p k (n :: ns) stop -> node_kind n = Kind.Nil -> 1 <= left <= u32_max ->
  coordinate_next p {| cur_next := k; remaining := left |} =
  Some (Some (None, {| cur_next := next n; remaining := left - 1 |})).
Proof.
  intros [Hn _] Hk Hl. unfold coordinate_next, read. rewrite cursor_batch_Some by (simpl; lia).
  cbn [children batch_next cur_next]. rewrite Hn. cbn [mbind option_bind].
  revert Hk. unfold node_kind.
  destruct (tag n); intros; simplify_eq; by rewrite children_finish by (simpl; lia).
Qed.

Lemma coordinate_next_pair p k n n1 n2 ns stop left len :
  path p k (n :: n1 :: n2 :: ns) stop -> node_kind n = Kind.Array len -> 1 <= left <= u32_max ->
  coordinate_next p {| cur_next := k; remaining := left |} =
  Some (Some (Some (payload n1, payload n2), {| cur_next := next n2; remaining := left - 1 |})).
Proof.
  intros (Hn & H1 & H2 & _) Hk Hl. unfold coordinate_next, read.
  rewrite cursor_batch_Some by (simpl; lia). cbn [children batch_next cur_next]. rewrite Hn.
  cbn [mbind option_bind]. rewrite H1. cbn [mbind option_bind]. rewrite H2. cbn [mbind option_bind].
  revert Hk. unfold node_kind.
  destruct (tag n); intros; simplify_eq; by rewrite children_finish by (simpl; lia).
Qed.

Lemma coords_inv n v vs cs :
  coords (S n) (v :: vs) cs ->
  (v = Kind.Nil /\ exists ds, coords n vs ds /\ cs = None :: ds) \/
  (v = Kind.Array 2 /\ exists v1 x1 f1 v2 x2 f2 ws ds, vs = v1 :: v2 :: ws /\
     kind_value v1 = Ok x1 /\ number x1 = Ok f1 /\ kind_value v2 = Ok x2 /\ number x2 = Ok f2 /\
     coords n ws ds /\ cs = Some (f1, f2) :: ds).
Proof. inversion 1; subst; [left|right]; eauto 20. Qed.

(** The members that follow the first one. *)
Definition coords_ok (n : nat) (p : Pool) (k : Key) (ns : list Node) (stop : Key)
    (out : option (Pool * result (CoordError.CoordError E) ())) : Prop :=
  exists p' res, out = Some (p', res) /\ same_outside p p' (keys k ns) /\
    match res with
    | Ok () => exists cs ns', coords n (kinds ns) cs /\ path p' k ns' stop /\
        keys k ns' = keys k ns /\
        exists c, collect (S n) (coordinate_next p') {| cur_next := k; remaining := Z.of_nat n |} =
          Some (cs, c)
    | Err _ => forall cs, ~ coords n (kinds ns) cs
    end.

Lemma coords_fail n p q k ns stop e :
  same_outside p q (keys k ns) -> (forall cs, ~ coords n (kinds ns) cs) ->
  coords_ok n p k ns stop (Some (q, Err e)).
Proof. intros Ho H. by exists q, (Err e). Qed.

Lemma coords_skip_nil n p k n0 ns stop out :
  path p k (n0 :: ns) stop -> node_kind n0 = Kind.Nil -> k ∉ keys (next n0) ns -> 1 <= k ->
  Z.of_nat (S n) <= u32_max ->
  coords_ok n p (next n0) ns stop out -> coords_ok (S n) p k (n0 :: ns) stop out.
Proof.
  intros Hp Hv Hk Hk1 Hb (p' & res & -> & Ho & Hres). exists p', res. split; [done|].
  split; [eapply same_outside_weaken; [exact Ho|set_solver]|].
  change (kinds (n0 :: ns)) with (node_kind n0 :: kinds ns). rewrite Hv.
  destruct res as [[]|e].
  - destruct Hres as (cs & ns' & Hcs & Hp' & Hks & c & Hc). exists (None :: cs), (n0 :: ns').
    assert (path p' k (n0 :: ns') stop) as Hp2.
    { split; [|done]. rewrite Ho by done. by destruct Hp. }
    split_and!; [by constructor|done|simpl; by rewrite Hks|]. exists c. cbn [collect].
    rewrite (coordinate_next_nil p' k n0 ns' stop) by (done || lia). cbn [mbind option_bind].
    replace (Z.of_nat (S n) - 1) with (Z.of_nat n) by lia. cbn [collect] in Hc. by rewrite Hc.
  - intros cs [[_ (ds & Hds & _)]|[? _]]%coords_inv; [by apply (Hres ds)|done].
Qed.

Lemma coords_skip_pair n p p1 p2 k n0 n1 n2 ns stop x1 f1 x2 f2 out :
  path p k (n0 :: n1 :: n2 :: ns) stop -> node_kind n0 = Kind.Array 2 ->
  NoDup (keys k (n0 :: n1 :: n2 :: ns)) -> Forall (Z.le 1) (keys k (n0 :: n1 :: n2 :: ns)) ->
  Z.of_nat (S n) <= u32_max ->
  kind_value (node_kind n1) = Ok x1 -> number x1 = Ok f1 ->
  kind_value (node_kind n2) = Ok x2 -> number x2 = Ok f2 ->
  same_outside p p1 [next n0] -> same_outside p1 p2 [next n1] ->
  path p2 (next n0) (with_float n1 f1 :: with_float n2 f2 :: ns) stop ->
  coords_ok n p2 (next n2) ns stop out -> coords_ok (S n) p k (n0 :: n1 :: n2 :: ns) stop out.
Proof.
  intros Hp Hv Hnd Hpos Hb Hx1 Hf1 Hx2 Hf2 Ho1 Ho2 Hp2 (p' & res & -> & Ho & Hres).
  exists p', res. split; [done|]. simpl in Hnd, Hpos.
  apply NoDup_cons in Hnd as [Hk Hnd]. apply NoDup_cons in Hnd as [Hk1 Hnd].
  apply NoDup_cons in Hnd as [Hk2 Hnd]. rewrite !Forall_cons in Hpos.
  destruct Hpos as (Hz & Hz1 & Hz2 & Hpos).
  assert (same_outside p p' (keys k (n0 :: n1 :: n2 :: ns))) as Hall.
  { eapply same_outside_weaken; [eapply same_outside_trans;
      [exact Ho1|eapply same_outside_trans; [exact Ho2|exact Ho]]|]. simpl. set_solver. }
  split; [done|].
  change (kinds (n0 :: n1 :: n2 :: ns)) with
    (node_kind n0 :: node_kind n1 :: node_kind n2 :: kinds ns). rewrite Hv.
  destruct res as [[]|e].
  - destruct Hres as (cs & ns' & Hcs & Hp' & Hks & c & Hc).
    exists (Some (f1, f2) :: cs), (n0 :: with_float n1 f1 :: with_float n2 f2 :: ns').
    destruct Hp2 as (Hn1 & Hn2 & _). simpl in Hn2.
    assert (path p' k (n0 :: with_float n1 f1 :: with_float n2 f2 :: ns') stop) as Hpp.
    { split; [rewrite Ho, Ho2, Ho1 by set_solver; by destruct Hp|].
      split; [rewrite Ho by set_solver; done|]. simpl. split; [rewrite Ho by set_solver; done|done]. }
    split_and!; [by econstructor|done|simpl; by rewrite Hks|]. exists c. cbn [collect].
    rewrite (coordinate_next_pair p' k n0 _ _ ns' stop _ 2 Hpp) by (done || lia).
    cbn [mbind option_bind]. simpl payload. simpl next.
    replace (Z.of_nat (S n) - 1) with (Z.of_nat n) by lia. cbn [collect] in Hc. by rewrite Hc.
  - intros cs [[? _]|[_ (v1 & y1 & g1 & v2 & y2 & g2 & ws & ds & [= <- <- <-] & _ & _ & _ & _ & Hds & _)]]%coords_inv;
      [done|by apply (Hres ds)].
Qed.

(** Numbers are not arrays. *)
Hypothesis number_array : forall len f, number (Value.Array len) <> Ok f.

Lemma coordinate_leaf v x f : kind_value v = Ok x -> number x = Ok f -> forall m, v <> Kind.Array m.
Proof. intros Hv Hf m ->. injection Hv as <-. by apply number_array in Hf. Qed.

Lemma shape_leaf_inv n v ks : shape (S n) (v :: ks) -> (forall m, v <> Kind.Array m) -> shape n ks.
Proof. inversion 1; subst; [done|]. intros H1. by destruct (H1 m). Qed.

Lemma coordinates_loop_spec n p k ns stop :
  path p k ns stop -> NoDup (keys k ns) -> Forall (Z.le 1) (keys k ns) ->
  shape n (kinds ns) -> zlen ns <= u32_max -> Z.of_nat n <= u32_max ->
  coords_ok n p k ns stop
    (coordinates_loop number n p {| cur_next := k; remaining := zlen ns |}).
Proof.
  revert p k ns. induction n as [|n IH]; intros p k ns Hp Hnd Hpos Hsh Hb Hnb.
  { exists p, (Ok ()). split_and!; [done|done|]. exists [], ns. split_and!; try done; [constructor|].
    eexists. cbn [collect]. unfold coordinate_next.
    rewrite cursor_batch_None by (simpl; lia). done. }
  destruct ns as [|n0 ns]; [inversion Hsh|].
  change (kinds (n0 :: ns)) with (node_kind n0 :: kinds ns) in Hsh.
  destruct (take_node p k n0 ns stop (Z.of_nat (S (length ns))) Hp) as [_ Ht]; [done|done|].
  cbn [coordinates_loop length]. rewrite Ht. cbn [mbind option_bind]. clear Ht.
  destruct (kind_value (node_kind n0)) as [v|s] eqn:Ev; cbn [mbind result_bind].
  2: { apply coords_fail; [done|]. intros cs [[E1 _]|[E1 _]]%coords_inv; by rewrite E1 in Ev. }
  simpl in Hnd, Hpos. destruct (Hp) as [_ Hp1].
  apply NoDup_cons in Hnd as [Hk Hnd1]. apply Forall_cons in Hpos as [Hk1 Hpos1].
  assert (v <> Value.Nil -> (forall l, v <> Value.Array l) ->
    forall cs, ~ coords (S n) (kinds (n0 :: ns)) cs) as Hother.
  { intros Hv1 Hv2 cs [[E1 _]|[E1 _]]%coords_inv; rewrite E1 in Ev; injection Ev as <-;
      [done|by destruct (Hv2 2)]. }
  destruct v as [| | | | |len]; try (by apply coords_fail; [|apply Hother]).
  - assert (node_kind n0 = Kind.Nil) as E0 by (by destruct (node_kind n0)).
    eapply coords_skip_nil; try done. apply IH; try done; [|simpl in Hb; lia|lia].
    rewrite E0 in Hsh. eapply shape_leaf_inv; [exact Hsh|done].
  - assert (node_kind n0 = Kind.Array len) as E0
      by (destruct (node_kind n0); simpl in Ev; congruence).
    rewrite E0 in Hsh. inversion Hsh as [|? ? ? Hna|? ? ? Hlen Hsh1]; subst; [by destruct (Hna len)|].
    destruct (Z.eqb_spec len 2) as [->|Hne].
    2: { apply coords_fail; [done|]. intros cs [[E1 _]|[E1 _]]%coords_inv; rewrite E1 in E0; [done|].
         by injection E0 as <-. }
    pose proof (shape_length _ _ Hsh1) as Hl2. rewrite length_kinds in Hl2.
    destruct ns as [|n1 [|n2 ns]]; [simpl in Hl2; lia..|]. clear Hl2.
    change (kinds (n1 :: n2 :: ns)) with (node_kind n1 :: node_kind n2 :: kinds ns) in Hsh1.
    destruct (coordinate_spec p (next n0) n1 (n2 :: ns) stop Hp1 Hnd1 Hpos1)
      as (p1 & r1 & Hc1 & Ho1 & Hr1).
    cbn [children batch_next cur_next]. rewrite Hc1. cbn [mbind option_bind].
    assert (same_outside p p1 (keys k (n0 :: n1 :: n2 :: ns))) as Ho1'
      by (eapply same_outside_weaken; [exact Ho1|simpl; set_solver]).
    destruct r1 as [key1|e1].
    2: { apply coords_fail; [done|]. intros cs [[E1 _]|[_ (w1 & y1 & g1 & w2 & y2 & g2 & ws & ds & [= <- <- <-] & Hw1 & Hg1 & _)]]%coords_inv;
         [congruence|by apply (Hr1 y1 g1)]. }
    destruct Hr1 as (-> & x1 & f1 & Hx1 & Hf1 & Hp1').
    destruct (Hp1') as [_ Hp1n]. simpl in Hp1n.
    destruct (coordinate_spec p1 (next n1) n2 ns stop Hp1n) as (p2 & r2 & Hc2 & Ho2 & Hr2);
      [by apply NoDup_cons in Hnd1 as [_ ?]|by apply Forall_cons in Hpos1 as [_ ?]|].
    rewrite Hc2. cbn [mbind option_bind].
    destruct r2 as [key2|e2].
    2: { apply coords_fail; [eapply same_outside_weaken;
           [by eapply same_outside_trans|simpl; set_solver]|].
         intros cs [[E1 _]|[_ (w1 & y1 & g1 & w2 & y2 & g2 & ws & ds & [= <- <- <-] & _ & _ & Hw2 & Hg2 & _)]]%coords_inv;
           [congruence|by apply (Hr2 y2 g2)]. }
    destruct Hr2 as (-> & x2 & f2 & Hx2 & Hf2 & Hp2).
    rewrite children_finish by (simpl; simpl in Hb; lia).
    eapply (coords_skip_pair n p p1 p2); try done; [by constructor|by constructor| |].
    + simpl in Hnd1, Hpos1. apply NoDup_cons in Hnd1 as [Hk2 _]. apply Forall_cons in Hpos1 as [Hk3 _].
      split; [|exact Hp2]. rewrite Ho2 by set_solver. by destruct Hp1'.
    + cbn [remaining length] in *. destruct Hp2 as [_ Hp2]. simpl in Hp2.
      replace (Z.of_nat (S (S (length ns))) - 2) with (zlen ns) by lia.
      simpl in Hnd1, Hpos1. rewrite !NoDup_cons in Hnd1. rewrite !Forall_cons in Hpos1.
      apply IH; try done; [tauto|tauto| |lia|lia].
      eapply shape_leaf_inv; [eapply shape_leaf_inv; [exact Hsh1|]|]; by eapply coordinate_leaf.
Qed.

(** The loop never reports a width. *)
Lemma scored_loop_length fuel p c p' w l :
  scored_loop number fuel p c <> Some (p', Err (Score.Length w l)).
Proof.
  revert p c. induction fuel as [|fuel IH]; intros p c; cbn [scored_loop]; [done|].
  destruct (cursor_batch 2 c); [|done].
  destruct (read p _) as [m|]; cbn [mbind option_bind]; [|done].
  destruct (try_value m); [|done]. destruct (negb _); [done|].
  destruct (read p _) as [n|]; cbn [mbind option_bind]; [|done].
  destruct (try_value n); [|done]. destruct (number _); [|done].
  destruct (write p _ _); cbn [mbind option_bind]; [apply IH|done].
Qed.

(** C26. Scores are accepted exactly when the array alternates bulks and numbers:
    the numbers replace the payloads of their own nodes, nothing else of the pool
    changes, and iterating the region yields every member with its number. An odd
    length or a wrong element is an error. *)
Theorem scored_members p r ns stop :
  region_at p r ns stop -> NoDup (keys (cur_next (reg_start r)) ns) ->
  Forall (Z.le 1) (keys (cur_next (reg_start r)) ns) ->
  exists p' res, region_scored number p r = Some (p', res) /\
    same_outside p p' (keys (cur_next (reg_start r)) ns) /\
    match res with
    | Ok r' => exists ps c, scored_pairs (kinds ns) ps /\ reg_len r' = zlen ps /\
        collect (S (length ps)) (iter_scored p') (reg_start r') = Some (ps, c) /\ remaining c = 0
    | Err e => (forall ps, ~ scored_pairs (kinds ns) ps) /\
        (zlen ns mod 2 <> 0 <-> e = Score.Length 2 (zlen ns))
    end.
Proof.
  intros (Hp & Hrem & Hlen & Hb) Hnd Hpos. unfold region_scored. rewrite Hlen.
  destruct (Z.eqb_spec (zlen ns mod 2) 0) as [Hm|Hm]; simpl negb; cbv iota.
  2: { exists p, (Err (Score.Length 2 (zlen ns))). split_and!; try done.
       intros ps Hps. apply scored_pairs_length in Hps. rewrite length_kinds in Hps.
       rewrite Hps, Nat2Z.inj_mul, Z.mul_comm, Z.mod_mul in Hm; lia. }
  apply Z.mod_divide in Hm as [g Hg]; [|lia].
  destruct r as [t [k left] len]. cbn [reg_tape reg_start reg_len cur_next remaining] in *.
  subst left len. unfold region_fuel. cbn [reg_start remaining]. rewrite Nat2Z.id.
  destruct (scored_loop_spec (S (length ns)) (Z.to_nat g) p k ns stop) as (p' & res & E1 & Ho & Hres);
    try done; try lia.
  rewrite E1. cbn [mbind option_bind fst snd]. destruct res as [[]|e]; cbn [mbind result_bind].
  - destruct Hres as (ps & ns' & Hps & _ & _ & Hl & Hc). eexists p', _. split_and!; [done..|].
    exists ps, {| cur_next := stop; remaining := 0 |}. rewrite Hl. split_and!; try done.
    cbn [reg_len]. rewrite Hg, Z.div_mul, as_u32_small by nia. lia.
  - exists p', (Err e). split; [done|]. split; [done|]. split; [done|]. split.
    + intros H. exfalso. apply H. rewrite Hg. apply Z.mod_mul. lia.
    + intros ->. by apply scored_loop_length in E1.
Qed.

Lemma coords_length n vs cs : coords n vs cs -> length cs = n.
Proof. induction 1; simpl; congruence. Qed.

(** The root of a tape, taken as an array. *)
Lemma tape_array_root p k n ns stop :
  path p k (n :: ns) stop -> zlen ns < u32_max ->
  tape_array p {| batch_next := k; batch_left := Z.of_nat (S (length ns)) |} =
  Some (match kind_value (node_kind n) with
        | Ok value => array_of value {| cur_next := next n; remaining := zlen ns |}
        | Err span => Err (Mismatch.Server span)
        end).
Proof.
  intros [Hn _] Hb. unfold tape_array, tape_take, read. cbn [batch_next]. rewrite Hn.
  cbn [mbind option_bind]. rewrite try_value_kind. f_equal.
  destruct (kind_value _); [|done]. unfold batch_finish. cbn [mbind result_bind batch_left].
  do 2 f_equal. lia.
Qed.

(** What a caller may conclude from an accepted or refused position reply. *)
Definition position_reply (p : Pool) (vs : list Kind.Kind)
    (res : result (CoordError.CoordError E) Region) : Prop :=
  match res with
  | Ok r => exists cs c,
      (vs = [Kind.Nil] /\ cs = [] \/
       exists vs', vs = Kind.Array (zlen cs) :: vs' /\ coords (length cs) vs' cs) /\
      reg_len r = zlen cs /\
      collect (S (length cs)) (coordinate_next p) (reg_start r) = Some (cs, c)
  | Err _ => vs <> [Kind.Nil] /\
      forall len vs' cs, vs = Kind.Array len :: vs' -> ~ coords (Z.to_nat len) vs' cs
  end.

(** A position reply is accepted exactly when it is nil or an array of nils
    and pairs of numbers; the numbers replace the payloads of their nodes, nothing
    outside the tape changes, and iterating the region yields, per member, nothing
    or its longitude and latitude. *)
Theorem coordinates_replay frame p t vs v :
  holds p t vs -> reads frame vs [v] ->
  exists p' res ks, coordinates number p t = Some (p', res) /\ same_outside p p' ks /\
    ring p ks /\ last ks = Some (tape_tail t) /\ position_reply p' vs res.
Proof.
  intros Hh Hr.
  destruct (holds_path _ _ _ Hh) as (k & ns & Hk & Hp & Hv & Hlen & Hb & Hnd & Hpos & Hring & Hl).
  apply reads_shape in Hr. simpl in Hr.
  unfold coordinates, tape_root. rewrite Hk. cbn [mbind option_bind]. rewrite Hlen.
  destruct ns as [|n ns]; [simpl in Hv; subst vs; inversion Hr|]. subst vs. rewrite kinds_cons in *.
  cbn [length] in *. rewrite (tape_array_root p k n ns k) by (done || lia). cbn [mbind option_bind].
  destruct (node_kind n) as [| | | | | |len] eqn:En; simpl kind_value; cbv iota; cbn [array_of];
    try (by eexists p, (Err _), (keys k (n :: ns))).
  { inversion Hr as [|? ? ? _ Hs|]; subst. inversion Hs as [Hns| |].
    destruct ns; [|done]. eexists p, (Ok _), (keys k [n]). split_and!; [done..|].
    exists [], {| cur_next := next n; remaining := 0 |}. split_and!; [by left|done|done]. }
  inversion Hr as [|? ? ? H1|? ? ? Hlen0 Hsh]; subst; [by destruct (H1 len)|]. rewrite Nat.add_0_r in Hsh.
  pose proof (shape_length _ _ Hsh) as Hsl.
  assert (zlen (kinds ns) = zlen ns) as Hkl by (by rewrite length_kinds).
  destruct (coordinates_loop_spec (Z.to_nat len) p (next n) ns k) as (p' & res & E1 & Ho & Hres);
    [by destruct Hp|by apply NoDup_cons in Hnd as [_ ?]|by apply Forall_cons in Hpos as [_ ?]|done|lia|lia|].
  cbn [arr_len arr_cursor cur_next]. rewrite E1. cbn [mbind option_bind fst snd]. eexists p', _, (keys k (n :: ns)).
  split; [done|]. split; [by eapply same_outside_weaken; [exact Ho|simpl; set_solver]|].
  split_and!; [done..|]. destruct res as [[]|e]; cbn [mbind result_bind position_reply].
  - destruct Hres as (cs & ns' & Hcs & _ & _ & c & Hc). exists cs, c.
    pose proof (coords_length _ _ _ Hcs) as Hcl. rewrite Hcl.
    rewrite !Z2Nat.id in * by lia. cbn [reg_len reg_start]. split_and!; try done. right. by exists (kinds ns).
  - split; [done|]. intros len2 vs2 cs [= <- <-]. apply Hres.
Qed.
End numbers_spec.

(** ** Witnesses *)

(** The tape of [vs] at the start of a fresh pool. *)
Fixpoint store (p : Pool) (tail : option Key) (vs : list Kind.Kind) : option (Pool * option Key) :=
  match vs with
  | [] => Some (p, tail)
  | v :: vs => free ← reserve p; r ← append p free tail v; store r.1 (Some r.2) vs
  end.

Definition sample_pool (vs : list Kind.Kind) : Pool :=
  match store (pool_new 8) None vs with Some (p, _) => p | None => pool_new 0 end.

Definition sample_tape (n : Z) : Tape := {| tape_tail := n; tape_len := n |}.

(** The nodes of a sample. *)
Definition sample_nodes (vs : list Kind.Kind) : list Node := take (length vs) (pool_nodes (sample_pool vs)).

(** A frame of one array with a bulk and an integer. *)
Definition sample_frame : list Z := bytes_of "*2" ++ crlf ++ bytes_of "$2" ++ crlf ++ bytes_of "ab" ++ crlf ++ bytes_of ":7" ++ crlf.

Definition sample_values : list Kind.Kind := [Kind.Array 2; Kind.Bulk (body_new 8 10); Kind.Integer 7].

Lemma reader_replays_witness :
  exists c c', tape_cursor (sample_pool sample_values) (sample_tape 3) = Some c /\
    reader_finish c = Err (Error.Values 3) /\
    collect 4 (next_event sample_frame (sample_pool sample_values)) c =
      Some ([Event.Array 2; Event.Bulk (bytes_of "ab"); Event.Integer 7], c') /\
    reader_finish c' = Ok ().
Proof.
  apply (reader_replays sample_frame (sample_pool sample_values) (sample_tape 3) sample_values
    (RArray [RBulk (bytes_of "ab"); RInteger 7])).
  - exists [1; 2; 3]. split_and!; try (vm_compute; done).
    + repeat split; eexists; split; vm_compute; reflexivity.
    + by apply (bool_decide_unpack _).
    + by apply (bool_decide_unpack _).
  - change sample_values with (Kind.Array (zlen [RBulk (bytes_of "ab"); RInteger 7]) ::
      [Kind.Bulk (body_new 8 10); Kind.Integer 7] ++ []).
    constructor; repeat constructor; vm_compute; reflexivity.
Defined.

Definition sample_bulks : list Kind.Kind :=
  Kind.Bulk <$> [body_new 4 5; body_new 11 12; body_new 18 19; body_new 25 26].

Definition sample_region (vs : list Kind.Kind) : Region :=
  {| reg_tape := sample_tape (zlen vs); reg_start := {| cur_next := 1; remaining := zlen vs |};
     reg_len := zlen vs |}.

Lemma bulk_groups_witness :
  match region_bulks 2 (sample_pool sample_bulks) (sample_region sample_bulks) with
  | Some (Ok r') =>
      exists ss groups, kinds (sample_nodes sample_bulks) = Kind.Bulk <$> ss /\ reg_len r' = zlen groups /\
        collect (S (length groups)) (iter_bulks 2 (sample_pool sample_bulks)) (reg_start r') =
          Some (groups, {| cur_next := 1; remaining := 0 |}) /\
        concat groups = ss /\ Forall (fun g => zlen g = 2) groups
  | _ => False
  end.
Proof.
  apply (bulk_groups 2 (sample_pool sample_bulks) (sample_region sample_bulks)
    (sample_nodes sample_bulks) 1); [lia|].
  split; [|vm_compute; done]. repeat split; vm_compute; reflexivity.
Defined.

(** Only integers are numbers here, with themselves as bits. *)
Definition sample_number (v : Value.Value Span) : result () Z :=
  match v with Value.Integer n => Ok n | _ => Err () end.

Definition sample_scores : list Kind.Kind :=
  [Kind.Bulk (body_new 4 5); Kind.Integer 3; Kind.Bulk (body_new 11 12); Kind.Integer 9].

Lemma scored_members_witness :
  exists p' r' ps c,
    region_scored sample_number (sample_pool sample_scores) (sample_region sample_scores) = Some (p', Ok r') /\
    collect (S (length ps)) (iter_scored p') (reg_start r') = Some (ps, c).
Proof.
  destruct (scored_members sample_number (sample_pool sample_scores) (sample_region sample_scores)
    (sample_nodes sample_scores) 1) as (p' & res & H1 & _ & H2).
  - split; [|vm_compute; done]. repeat split; vm_compute; reflexivity.
  - by apply (bool_decide_unpack _).
  - by apply (bool_decide_unpack _).
  - destruct res as [r'|e]; [|vm_compute in H1; discriminate].
    destruct H2 as (ps & c & _ & _ & H2 & _). exists p', r', ps, c. split; [exact H1|exact H2].
Defined.

Definition sample_coords : list Kind.Kind :=
  [Kind.Array 2; Kind.Nil; Kind.Array 2; Kind.Integer 3; Kind.Integer 9].

Lemma coordinates_replay_witness :
  exists p' res ks, coordinates sample_number (sample_pool sample_coords) (sample_tape 5) = Some (p', res) /\
    same_outside (sample_pool sample_coords) p' ks /\ ring (sample_pool sample_coords) ks /\
    last ks = Some 5 /\ position_reply sample_number p' sample_coords res.
Proof.
  apply (coordinates_replay sample_number ltac:(intros len f; discriminate) []
    (sample_pool sample_coords) (sample_tape 5) sample_coords
    (RArray [RNil; RArray [RInteger 3; RInteger 9]])).
  - exists [1; 2; 3; 4; 5]. split_and!; try (vm_compute; done).
    + repeat split; eexists; split; vm_compute; reflexivity.
    + by apply (bool_decide_unpack _).
    + by apply (bool_decide_unpack _).
  - change sample_coords with (Kind.Array (zlen [RNil; RArray [RInteger 3; RInteger 9]]) ::
      [Kind.Nil; Kind.Array 2; Kind.Integer 3; Kind.Integer 9] ++ []).
    constructor; [|constructor]. constructor; [done|].
    apply (reads_array [] [Kind.Integer 3; Kind.Integer 9] [RInteger 3; RInteger 9] [] []);
      repeat constructor.
Defined.
