(* ===== verification/RespBuilder.v ===== *)
(** * The builder: tapes grown in the shared storage

    Models [Storage], [Builder], [Stored::finish] and the builder's [Drop] in
    [redis/src/protocol/parser/storage/mod.rs] over the pool and the gate, and
    shows that they discharge the interface the scanner was verified against: the
    scanner run on the real storage yields tapes that the readers replay, and no
    access leaves the pool. *)
From S2P Require Import Prelude CodecInput RespLimit RespPool RespState RespGrammar RespScan RespGate RespTape.

Section builder.
  Context {W T : Type} {fifo : Fifo W T} {target_eq : EqDecision T}.

(** The storage shared by the connections of a port. *)
Record Storage := { tapes : Pool; storage_gate : Gate W }.

Record Builder := { access : Phase.Phase T; tail : option Key; builder_len : Z }.

(** One connection's view: the storage and its builder. [None] is the undefined
    behaviour of an unchecked access outside the pool. *)
Definition Connection : Type := option (Storage * Builder).

(** [Storage::try_new], once both allocations succeed, and [Storage::builder]. *)
Definition storage_new (c : Capacity) (waiters : W) : Storage :=
  {| tapes := pool_new (nodes c); storage_gate := gate_new (RespLimit.lanes c) waiters |}.

Definition builder_new : Builder := {| access := Phase.Idle; tail := None; builder_len := 0 |}.

Definition builder_push (s : Storage) (b : Builder) (slot : Slot) (value : Kind.Kind)
    : option (Storage * Builder * Push.Push) :=
  let '(g, phase, acquired) := acquire (storage_gate s) (access b) in
  let s := {| tapes := tapes s; storage_gate := g |} in
  let b := {| access := phase; tail := tail b; builder_len := builder_len b |} in
  if acquired then
    match reserve (tapes s) with
    | None => Some (s, b, Push.Full)
    | Some free =>
        r ← append (tapes s) free (tail b) value;
        Some ({| tapes := r.1; storage_gate := g |},
              {| access := phase; tail := Some r.2; builder_len := slot |}, Push.Stored)
    end
  else Some (s, b, Push.Blocked).

(** [Stored::finish]: the tape and the lane leave the builder; the lane is
    accounted to the completed frame. *)
Definition stored_finish (b : Builder) (key : Key) : Builder * Tape :=
  ({| access := finish_access (access b); tail := None; builder_len := 0 |},
   {| tape_tail := key; tape_len := builder_len b |}).

(** [Drop for Builder], and [Builder::reset], which replaces and drops it. The
    second component is the target the gate wakes. *)
Definition builder_drop (s : Storage) (b : Builder) : option (Storage * option T) :=
  p ← RespPool.release (tapes s) (tail b);
  let '(g, _, woken) := RespGate.release (storage_gate s) (access b) in
  Some ({| tapes := p; storage_gate := g |}, woken).

Definition builder_reset (s : Storage) (b : Builder) : option (Storage * Builder) :=
  r ← builder_drop s b; Some (r.1, builder_new).

(** [Drop for Tape]. *)
Definition tape_drop (s : Storage) (t : Tape) : option Storage :=
  p ← RespPool.release (tapes s) (Some (tape_tail t));
  Some {| tapes := p; storage_gate := storage_gate s |}.

#[export] Instance builder_sink : Sink Connection Tape := {|
  sink_len c := match c with Some (_, b) => builder_len b | None => 0 end;
  try_push c slot value :=
    match c with
    | Some (s, b) =>
        match builder_push s b slot value with
        | Some (s, b, r) => (Some (s, b), r)
        | None => (None, Push.Full)
        end
    | None => (None, Push.Full)
    end;
  sink_finish c :=
    match c with
    | Some (s, b) =>
        match tail b with
        | Some key => let '(b, t) := stored_finish b key in (Some (s, b), t)
        | None => (None, {| tape_tail := 0; tape_len := 0 |})
        end
    | None => (None, {| tape_tail := 0; tape_len := 0 |})
    end;
  sink_reset c := match c with Some (s, b) => builder_reset s b | None => None end |}.

(** ** Well-formed builders *)

(** The builder's own chain, beside the tapes [others] of the storage. *)
Record owns (others : list (list Key)) (s : Storage) (b : Builder) (mine : list Key) : Prop := {
  owns_inv : exists free, pool_inv (tapes s) free (mine :: others);
  owns_tail : tail b = last mine;
  owns_len : builder_len b = zlen mine }.

(** The values of [n] nodes from a key on. *)
Fixpoint walk (n : nat) (p : Pool) (k : Key) : list Kind.Kind :=
  match n with
  | O => []
  | S n => match pool_node p k with Some node => node_kind node :: walk n p (next node) | None => [] end
  end.

Definition builder_view (s : Storage) (b : Builder) : list Kind.Kind :=
  match tail b with
  | Some key =>
      match pool_head (tapes s) key with
      | Some k => walk (Z.to_nat (builder_len b)) (tapes s) k
      | None => []
      end
  | None => []
  end.

Lemma walk_path p k ns stop : path p k ns stop -> walk (length ns) p k = kinds ns.
Proof.
  revert k. induction ns as [|n ns IH]; intros k; [done|]. intros [Hn Hp].
  cbn [length walk]. rewrite Hn, (IH _ Hp). done.
Qed.

(** A chain of the pool is a path, and its tape holds its values. *)
Lemma chain_path p free ks others :
  pool_inv p free (ks :: others) ->
  exists ns, path p (default 0 (head ks)) ns (default 0 (head ks)) /\
    keys (default 0 (head ks)) ns = ks /\ contents p ks = Some <$> kinds ns.
Proof.
  intros Hi. pose proof (inv_rings _ _ _ Hi) as Hr. apply Forall_cons in Hr as [Hr _].
  destruct (linked_path _ _ _ Hr) as (ns & Hp & Hk & Hc). exists ns.
  by destruct ks; simpl in *.
Qed.

Lemma view_contents others s b mine :
  owns others s b mine -> contents (tapes s) mine = Some <$> builder_view s b.
Proof.
  intros [[free Hi] Ht Hl]. destruct (chain_path _ _ _ _ Hi) as (ns & Hp & Hk & Hc).
  rewrite Hc. f_equal. unfold builder_view. rewrite Ht.
  destruct (last mine) as [key|] eqn:El.
  - pose proof (inv_rings _ _ _ Hi) as Hr. apply Forall_cons in Hr as [Hr _].
    rewrite (ring_tail _ _ _ Hr El). destruct mine as [|k mine]; [done|].
    pose proof (length_keys k ns) as Hlen. simpl in Hp, Hk. rewrite Hk in Hlen.
    rewrite Hl, Hlen, Nat2Z.id. symmetry. by eapply walk_path.
  - apply last_None in El. subst mine. by destruct ns.
Qed.

Lemma view_length others s b mine : owns others s b mine -> zlen (builder_view s b) = builder_len b.
Proof.
  intros Ho. pose proof (f_equal length (view_contents _ _ _ _ Ho)) as E.
  unfold contents in E. rewrite !length_fmap in E. rewrite <- E. by destruct Ho as [_ _ ->].
Qed.

(** Two connections' chains keep their values. *)
Definition kept (s s' : Storage) (others : list (list Key)) : Prop :=
  Forall (fun ks => contents (tapes s') ks = contents (tapes s) ks) others.

Lemma builder_push_owns others s b mine slot v s' b' r :
  owns others s b mine -> kind_wf v -> slot = builder_len b + 1 ->
  builder_push s b slot v = Some (s', b', r) ->
  exists mine', owns others s' b' mine' /\ kept s s' others /\
    builder_view s' b' = match r with Push.Stored => builder_view s b ++ [v] | _ => builder_view s b end.
Proof.
  intros Ho Hv Hslot. pose proof (view_contents _ _ _ _ Ho) as Hc.
  destruct Ho as [[free Hi] Ht Hl]. unfold builder_push.
  destruct (acquire _ _) as [[g phase] acquired].
  assert (owns others {| tapes := tapes s; storage_gate := g |}
    {| access := phase; tail := tail b; builder_len := builder_len b |} mine) as Hsame
    by (split; [by exists free|done|done]).
  assert (kept s {| tapes := tapes s; storage_gate := g |} others) as Hk by (by apply Forall_true).
  destruct acquired; [|intros [= <- <- <-]; by exists mine].
  cbn [tapes tail]. destruct (reserve (tapes s)) as [ft|] eqn:Er; [|intros [= <- <- <-]; by exists mine].
  destruct free as [|key free].
  { pose proof (inv_free _ _ _ Hi) as Hf. unfold reserve in Er. by rewrite Hf in Er. }
  destruct (append_extends _ _ _ _ _ v Hi Hv) as (ft' & p' & Hr & Ha & Hi' & Hc' & Hk').
  rewrite Er in Hr. injection Hr as <-. rewrite Ht, Ha. cbn [mbind option_bind fst snd].
  intros [= <- <- <-]. exists (mine ++ [key]). 
  assert (owns others {| tapes := p'; storage_gate := g |}
    {| access := phase; tail := Some key; builder_len := slot |} (mine ++ [key])) as Ho'.
  { split; [by exists free|by rewrite last_snoc|]. cbn [builder_len]. rewrite length_app. simpl. lia. }
  split; [done|]. split; [done|]. apply view_contents in Ho'. cbn [tapes] in Ho'.
  rewrite Hc', Hc in Ho'. apply (list_fmap_eq_inj Some); [intros ? ? [=]; done|].
  rewrite <- Ho', fmap_app. done.
Qed.

(** The unchecked accesses of a push stay inside the pool. *)
Lemma builder_push_total others s b mine slot v :
  owns others s b mine -> kind_wf v -> is_Some (builder_push s b slot v).
Proof.
  intros [[free Hi] Ht Hl] Hv. unfold builder_push. destruct (acquire _ _) as [[g phase] acquired].
  destruct acquired; [|by eexists]. cbn [tapes tail].
  destruct (reserve (tapes s)) as [ft|] eqn:Er; [|by eexists].
  destruct free as [|key free].
  { pose proof (inv_free _ _ _ Hi) as Hf. unfold reserve in Er. by rewrite Hf in Er. }
  destruct (append_extends _ _ _ _ _ v Hi Hv) as (ft' & p' & Hr & Ha & _).
  rewrite Er in Hr. injection Hr as <-. rewrite Ht, Ha. by eexists.
Qed.

(** A chain of the storage, addressed by its last key, is a tape. *)
Lemma chain_holds p free chains ks key vs :
  pool_inv p free chains -> ks ∈ chains -> last ks = Some key -> contents p ks = Some <$> vs ->
  holds p {| tape_tail := key; tape_len := zlen ks |} vs.
Proof.
  intros Hi Hin Hl Hc. exists ks. pose proof (inv_NoDup _ _ _ Hi) as Hnd.
  pose proof (inv_pos _ _ _ Hi) as Hp. pose proof (inv_rings _ _ _ Hi) as Hr.
  rewrite Forall_forall in Hr. pose proof (Permutation_length (inv_cover _ _ _ Hi)) as Hlen.
  pose proof (inv_small _ _ _ Hi). rewrite length_seqZ in Hlen.
  apply list_elem_of_split in Hin as (l1 & l2 & ->).
  rewrite concat_app in *. simpl concat in *. rewrite !length_app in Hlen.
  apply NoDup_app in Hnd as (_ & _ & Hnd). apply NoDup_app in Hnd as (_ & _ & Hnd).
  apply NoDup_app in Hnd as (Hnd & _).
  apply Forall_app in Hp as [_ Hp]. apply Forall_app in Hp as [_ Hp]. apply Forall_app in Hp as [Hp _].
  cbn [tape_tail tape_len]. split_and!; try done; [|lia]. apply Hr. set_solver.
Qed.

(** A finished chain is a tape of the storage and the builder starts afresh. *)
Lemma stored_finish_owns others s b mine key b' t :
  owns others s b mine -> tail b = Some key -> stored_finish b key = (b', t) ->
  owns (mine :: others) s b' [] /\ builder_view s b' = [] /\
  t = {| tape_tail := key; tape_len := zlen mine |} /\ last mine = Some key.
Proof.
  intros [[free Hi] Ht Hl] Hk [= <- <-]. rewrite Hk in Ht.
  split; [|split; [done|by rewrite Hl]]. split; [|done|done]. exists free.
  destruct Hi as [H1 H2 H3 H4 H5]. split; try done. by constructor.
Qed.

Lemma builder_reset_owns others s b mine :
  owns others s b mine ->
  exists s' b', builder_reset s b = Some (s', b') /\ owns others s' b' [] /\ kept s s' others /\
    builder_view s' b' = [].
Proof.
  intros [[free Hi] Ht Hl]. unfold builder_reset, builder_drop. rewrite Ht.
  destruct (release_returns _ _ _ _ Hi) as (p' & -> & Hi' & Hk). cbn [mbind option_bind].
  destruct (RespGate.release _ _) as [[g ph] woken]. eexists _, _. split; [done|].
  split; [|split; [exact Hk|done]]. split; [|done|done]. exists (free ++ mine).
  destruct Hi' as [H1 H2 H3 H4 H5]. split; try done. by constructor.
Qed.

#[export] Instance builder_sink_laws : SinkLaws Connection Tape.
Proof.
  refine {|
    sink_ok c := exists s b others mine, c = Some (s, b) /\ owns others s b mine;
    sink_view c := match c with Some (s, b) => builder_view s b | None => [] end;
    tape_holds c t vs := exists s b, c = Some (s, b) /\ holds (tapes s) t vs |}.
  - intros c (s & b & others & mine & -> & Ho). symmetry. by eapply view_length.
  - intros c slot v c' r (s & b & others & mine & -> & Ho) Hv Hslot _. simpl in *.
    destruct (builder_push_total _ _ _ _ slot _ Ho Hv) as [[[s' b'] r'] E]. rewrite E.
    intros [= <- <-]. destruct (builder_push_owns _ _ _ _ _ _ _ _ _ Ho Hv Hslot E) as (mine' & Ho' & _ & Hview).
    split; [by exists s', b', others, mine'|done].
  - intros c c' t (s & b & others & mine & -> & Ho) Hne. simpl in *.
    destruct (tail b) as [key|] eqn:Ek; [|unfold builder_view in Hne; by rewrite Ek in Hne].
    intros [= <- <-]. destruct (stored_finish_owns _ _ _ _ _ _ _ Ho Ek eq_refl) as (Ho' & Hv & Hh & Hl).
    split; [by eexists _, _, _, _|]. split; [done|]. eexists _, _. split; [done|].
    apply view_contents in Ho as Hc. destruct Ho' as [[free Hi] _ _].
    rewrite Hh. by eapply chain_holds; [exact Hi|right; left|..].
  - intros c (s & b & others & mine & -> & Ho). simpl.
    destruct (builder_reset_owns _ _ _ _ Ho) as (s' & b' & -> & Ho' & _ & Hv).
    split; [by exists s', b', others, []|done].
Defined.
(** ** Runs of one builder *)

Inductive BuilderOp := Push (value : Kind.Kind) | Finish | Reset.

(** One operation, with the tape it completes and the outcome of a push. *)
Definition builder_step (s : Storage) (b : Builder) (op : BuilderOp)
    : option (Storage * Builder * list Tape * Push.Push) :=
  match op with
  | Push value =>
      r ← builder_push s b (builder_len b + 1) value;
      Some (r.1.1, r.1.2, [], r.2)
  | Finish =>
      match tail b with
      | Some key => let '(b, t) := stored_finish b key in Some (s, b, [t], Push.Stored)
      | None => Some (s, b, [], Push.Stored)
      end
  | Reset => r ← builder_reset s b; Some (r.1, r.2, [], Push.Stored)
  end.

Fixpoint builder_run (s : Storage) (b : Builder) (ops : list BuilderOp)
    : option (Storage * Builder * list Tape * list Push.Push) :=
  match ops with
  | [] => Some (s, b, [], [])
  | op :: ops =>
      r ← builder_step s b op;
      let '(s, b, ts, o) := r in
      rest ← builder_run s b ops;
      let '(s, b, us, os) := rest in
      Some (s, b, ts ++ us, o :: os)
  end.

(** What the operations mean: the values in progress and the completed ones. *)
Definition meaning_step (cur : list Kind.Kind) (op : BuilderOp) (o : Push.Push)
    : list Kind.Kind * list (list Kind.Kind) :=
  match op with
  | Push value => (match o with Push.Stored => cur ++ [value] | _ => cur end, [])
  | Finish => match cur with [] => ([], []) | _ => ([], [cur]) end
  | Reset => ([], [])
  end.

Fixpoint meaning (cur : list Kind.Kind) (ops : list BuilderOp) (os : list Push.Push)
    : list Kind.Kind * list (list Kind.Kind) :=
  match ops, os with
  | op :: ops, o :: os =>
      let '(cur, done) := meaning_step cur op o in
      let '(cur, more) := meaning cur ops os in (cur, done ++ more)
  | _, _ => (cur, [])
  end.

Definition builder_op_wf (op : BuilderOp) : Prop :=
  match op with Push value => kind_wf value | _ => True end.

Lemma tail_view others s b mine :
  owns others s b mine -> tail b = None <-> builder_view s b = [].
Proof.
  intros Ho. pose proof (view_contents _ _ _ _ Ho) as Hc. destruct Ho as [_ Ht _]. rewrite Ht.
  rewrite last_None. split; [intros ->; by destruct (builder_view s b)|].
  intros E. rewrite E in Hc. by destruct mine.
Qed.

Lemma kept_trans s1 s2 s3 others : kept s1 s2 others -> kept s2 s3 others -> kept s1 s3 others.
Proof. unfold kept. rewrite !Forall_forall. intros H1 H2 ks Hks. rewrite H2, H1 by done. done. Qed.

(** One step: the chains it completes join the others. *)
Lemma builder_step_owns others s b mine op :
  owns others s b mine -> builder_op_wf op ->
  exists s' b' ts o mine' new, builder_step s b op = Some (s', b', ts, o) /\
    owns (new ++ others) s' b' mine' /\ kept s s' others /\
    builder_view s' b' = (meaning_step (builder_view s b) op o).1 /\
    Forall2 (fun t ks => exists key, last ks = Some key /\ t = {| tape_tail := key; tape_len := zlen ks |}) ts new /\
    Forall2 (fun ks vs => contents (tapes s') ks = Some <$> vs) new (meaning_step (builder_view s b) op o).2.
Proof.
  intros Ho Hwf. destruct op as [v| |]; simpl builder_step.
  - destruct (builder_push_total _ _ _ _ (builder_len b + 1) _ Ho Hwf) as [[[s' b'] r] E]. rewrite E.
    destruct (builder_push_owns _ _ _ _ _ _ _ _ _ Ho Hwf eq_refl E) as (mine' & Ho' & Hk & Hv).
    exists s', b', [], r, mine', []. split_and!; try done; constructor.
  - pose proof (tail_view _ _ _ _ Ho) as Htv. destruct (tail b) as [key|] eqn:Ek.
    + destruct (stored_finish_owns _ _ _ _ _ _ _ Ho Ek eq_refl) as (Ho' & Hv & Ht & Hl).
      destruct (builder_view s b) as [|v0 vs] eqn:Ev; [by destruct Htv as [_ H1]; discriminate H1|].
      eexists s, _, _, Push.Stored, [], [mine]. split; [done|]. split; [exact Ho'|].
      split; [by apply Forall_true|]. split; [done|].
      split; [constructor; [by exists key|constructor]|]. constructor; [|constructor].
      rewrite <- Ev. by eapply view_contents.
    + destruct Htv as [Htv _]. exists s, b, [], Push.Stored, mine, []. rewrite Htv by done.
      split_and!; try done; try constructor. by apply Forall_true.
  - destruct (builder_reset_owns _ _ _ _ Ho) as (s' & b' & -> & Ho' & Hk & Hv).
    exists s', b', [], Push.Stored, [], []. split_and!; try done; constructor.
Qed.

Lemma builder_run_owns ops others s b mine :
  owns others s b mine -> Forall builder_op_wf ops ->
  exists s' b' ts os mine' chains new, builder_run s b ops = Some (s', b', ts, os) /\
    owns chains s' b' mine' /\ others ⊆ chains /\ new ⊆ chains /\ kept s s' others /\
    builder_view s' b' = (meaning (builder_view s b) ops os).1 /\
    Forall2 (fun t ks => exists key, last ks = Some key /\ t = {| tape_tail := key; tape_len := zlen ks |}) ts new /\
    Forall2 (fun ks vs => contents (tapes s') ks = Some <$> vs) new (meaning (builder_view s b) ops os).2.
Proof.
  revert others s b mine. induction ops as [|op ops IH]; intros others s b mine Ho Hwf.
  { exists s, b, [], [], mine, others, []. split_and!; try done; try constructor; [set_solver|].
    by apply Forall_true. }
  apply Forall_cons in Hwf as [Hop Hwf].
  destruct (builder_step_owns _ _ _ _ op Ho Hop)
    as (s1 & b1 & ts & o & mine1 & new & E & Ho1 & Hk1 & Hv1 & Ht1 & Hc1).
  destruct (IH _ _ _ _ Ho1 Hwf)
    as (s2 & b2 & us & os & mine2 & chains & more & E2 & Ho2 & Hs1 & Hs2 & Hk2 & Hv2 & Ht2 & Hc2).
  unfold kept in Hk2. apply Forall_app in Hk2 as [Hkn Hk2].
  exists s2, b2, (ts ++ us), (o :: os), mine2, chains, (new ++ more).
  cbn [builder_run meaning]. rewrite E. cbn [mbind option_bind]. rewrite E2. cbn [mbind option_bind].
  destruct (meaning_step _ op o) as [cur ended]. cbn [fst snd] in *. subst cur.
  destruct (meaning _ ops os) as [cur2 ended2]. cbn [fst snd] in *.
  split_and!; try done; [set_solver|set_solver|by eapply kept_trans|by apply Forall2_app|].
  apply Forall2_app; [|done]. clear -Hc1 Hkn. induction Hc1; [constructor|].
  apply Forall_cons in Hkn as [? Hkn]. constructor; [congruence|auto].
Qed.

(** C24. Whatever a connection pushes, completes and discards, its builder never
    leaves the pool, it means what the pushes that were stored say, the tapes it
    completed hold their values from then on, and the tapes of every other owner
    keep theirs. *)
Theorem builder_refines ops others s b mine :
  owns others s b mine -> Forall builder_op_wf ops ->
  exists s' b' ts os, builder_run s b ops = Some (s', b', ts, os) /\
    kept s s' others /\ builder_view s' b' = (meaning (builder_view s b) ops os).1 /\
    Forall2 (holds (tapes s')) ts (meaning (builder_view s b) ops os).2.
Proof.
  intros Ho Hwf. destruct (builder_run_owns _ _ _ _ _ Ho Hwf)
    as (s' & b' & ts & os & mine' & chains & new & E & Ho' & _ & Hs & Hk & Hv & H1 & H2).
  exists s', b', ts, os. split_and!; try done. destruct Ho' as [[free Hi] _ _]. clear -Hi H1 H2 Hs.
  revert H2. generalize (meaning (builder_view s b) ops os).2. intros ended. revert ended.
  induction H1 as [|t ks ts new (key & Hl & ->) H1 IH]; intros ended H2; inversion H2; subst; constructor.
  - eapply chain_holds; [exact Hi| |done..]. set_solver.
  - apply IH; [set_solver|done].
Qed.
End builder.

(** ** The scanner on the real storage *)

Section parser.
  Context {X V W T : Type} {vec : InlineVec V} {laws : InlineVecLaws V}
    {fifo : Fifo W T} {target_eq : EqDecision T}.
  Context (byte_max node_max : Bound).
  Hypothesis (Hbytes : bound_wf byte_max) (Hnodes : bound_wf node_max).

(** C19. A frame parsed into the shared storage is replayed by its reader: when a
    scan completes, however the input was cut and interrupted, its frame is a
    prefix of the input that spells one value, and draining the reader of the
    tape it left in the pool yields the pre-order events of that value. *)
Theorem storage_replays (inp : Input X) s (c : Connection (W := W) (T := T)) frame t n s' c' :
  Forall is_byte (bytes inp) -> session byte_max node_max inp s c ->
  (forall n f m, try_prefix inp 0 n = Ok (f, m) -> f = slice (bytes inp) 0 n /\ m = n) ->
  scan inp byte_max node_max s c = Some (Scan.Complete frame t n, s', c') ->
  exists st b v start stop rest, c' = Some (st, b) /\ bytes inp = frame ++ rest /\ wires [v] frame /\
    tape_cursor (tapes st) t = Some start /\
    collect (S (Z.to_nat (tape_len t))) (next_event frame (tapes st)) start =
      Some (events_of v, stop) /\
    reader_finish stop = Ok ().
Proof.
  intros Hby Hs Hpre Hscan.
  destruct (scan_ok byte_max node_max Hbytes Hnodes inp s c Hby (session_ready _ _ Hbytes Hnodes _ _ _ Hs))
    as (r & s0 & c0 & E & Hr).
  rewrite E in Hscan. injection Hscan as -> -> ->.
  destruct (complete_facts _ _ Hbytes inp frame t n s' c' Hr Hpre)
    as (v & vs & rest & H1 & _ & H3 & (st & b & -> & Hh) & H5 & _).
  destruct (tape_drains _ _ _ _ _ Hh H5) as (start & stop & H6 & _ & _ & H7 & H8).
  exists st, b, v, start, stop, rest. split_and!; try done. unfold reader_finish. by rewrite H8.
Qed.
End parser.

(** ** Witnesses *)

(** Five nodes, one lane, two connections. *)
Definition sample_storage : Storage (W := ListFifo) :=
  storage_new {| nodes := 5; connections := 2; RespLimit.lanes := 1 |}
    {| slots := 2; entries := []; cells := [] |}.

Lemma sample_owns : owns (T := Z) [] sample_storage builder_new [].
Proof.
  split; [|done|done]. exists (seqZ 1 5). destruct (pool_new_inv 5 ltac:(lia)) as [H1 H2 H3 H4 H5].
  split; try done. by repeat constructor.
Qed.

Definition sample_builder_ops : list BuilderOp :=
  [Push (Kind.Integer 1); Reset; Push (Kind.Array 1); Push (Kind.Integer 2); Finish; Push Kind.Ok].

Lemma builder_refines_witness :
  exists s' b' ts os,
    builder_run sample_storage (builder_new (T := Z)) sample_builder_ops = Some (s', b', ts, os) /\
    builder_view s' b' = (meaning [] sample_builder_ops os).1 /\
    Forall2 (holds (tapes s')) ts (meaning [] sample_builder_ops os).2.
Proof.
  destruct (builder_refines sample_builder_ops [] sample_storage (builder_new (T := Z)) [])
    as (s' & b' & ts & os & H1 & _ & H2 & H3).
  - exact sample_owns.
  - repeat constructor; simpl; lia.
  - exists s', b', ts, os. split; [exact H1|]. split; [exact H2|exact H3].
Defined.

(** The same run evaluated: the completed frame keeps the lane. *)
Example sample_builder_run :
  match builder_run sample_storage (builder_new (T := Z)) sample_builder_ops with
  | Some (_, _, ts, os) => ts = [{| tape_tail := 3; tape_len := 2 |}] /\ last os = Some Push.Blocked
  | None => False
  end.
Proof. vm_compute. by split. Qed.

Definition sample_connection : Connection (W := ListFifo) (T := Z) := Some (sample_storage, builder_new).

Lemma storage_replays_witness :
  exists st b t n s' v start stop,
    scan (window sample_input) sample_bound sample_bound (state_new (V := list Z)) sample_connection =
      Some (Scan.Complete RespScan.sample_frame t n, s', Some (st, b)) /\
    wires [v] RespScan.sample_frame /\
    tape_cursor (tapes st) t = Some start /\
    collect (S (Z.to_nat (tape_len t))) (next_event RespScan.sample_frame (tapes st)) start =
      Some (events_of v, stop).
Proof.
  destruct (scan (window sample_input) sample_bound sample_bound (state_new (V := list Z))
    sample_connection) as [[[r s'] c']|] eqn:E; [|vm_compute in E; discriminate].
  assert (exists t n, r = Scan.Complete RespScan.sample_frame t n) as (t & n & ->)
    by (vm_compute in E; injection E as <- _ _; eexists _, _; reflexivity).
  destruct (storage_replays sample_bound sample_bound sample_bound_wf sample_bound_wf
    (window sample_input) state_new sample_connection RespScan.sample_frame t n s' c')
    as (st & b & v & start & stop & rest & -> & _ & H1 & H2 & H3 & _).
  - by apply byte_check_ok.
  - apply session_start; [|reflexivity].
    exists sample_storage, builder_new, [], []. split; [reflexivity|exact sample_owns].
  - intros k f m. unfold window, try_prefix. destruct (_ && _)%bool; [|discriminate].
    intros [= <- <-]. split; reflexivity.
  - exact E.
  - exists st, b, t, n, s', v, start, stop. split; [reflexivity|].
    split; [exact H1|]. split; [exact H2|exact H3].
Defined.
