(* ===== verification/RespCodec.v ===== *)
(** * The Redis codec over a stream

    Models the codec of [redis/src/protocol/mod.rs]: what one decode makes of the
    scanner's result, retention included ([Parsed::into_stored] of
    [parser/frame/mod.rs]), and the end of the input. The session feeds it whatever
    arrived; the frames it delivers do not depend on how the stream was cut. *)
From S2P Require Import Prelude CodecInput RespLimit RespPool RespState RespGrammar RespScan RespAccept RespGate RespBuilder RespTape.

(** [Decoded]; a frame comes with its lane, which is part of the storage here. *)
Module Decoded.
Inductive Decoded {X Fr : Type} :=
| Frame (frame : Fr)
| Rejected (failure : RespState.Failure.Failure)
| Retain (cause : X).
Arguments Decoded : clear implicits.
End Decoded.

(** [codec::Admission]: whether the reactor takes what was decoded, or has it decoded
    again; and what it then gets. *)
Module Admission.
Inductive Admission := RetryInput | Ready.
End Admission.

Module Outcome.
Inductive Outcome {A : Type} := RetryInput | Accepted (a : A).
Arguments Outcome : clear implicits.
End Outcome.

(** [codec::Parse]; an input that is refused is handed on with its error. *)
Module Parse.
Inductive Parse {X Fr : Type} :=
| More (need : Z)
| Blocked
| CapacityExhausted
| Item (head : Outcome.Outcome (Decoded.Decoded X Fr)) (consumed : Z)
| Refused (head : Outcome.Outcome X).
Arguments Parse : clear implicits.
End Parse.

Module Finish.
Inductive Finish {X Fr : Type} := Empty | Item (head : Outcome.Outcome (Decoded.Decoded X Fr)).
Arguments Finish : clear implicits.
End Finish.

(** What a frame that is not kept gives back: its tape and its lane. *)
Class Discard (B T : Type) := discard : B -> T -> B.

#[export] Instance builder_discard {W T} `{Fifo W T, EqDecision T} : Discard (Connection (W := W) (T := T)) Tape :=
  fun c t =>
    '(s, b) ← c;
    s ← tape_drop s t;
    Some ({| tapes := tapes s; storage_gate := (lane_drop (storage_gate s)).1 |}, b).

Section codec.
Context {X V B T : Type} `{InlineVec V, Sink B T, !Discard B T}.
Context (byte_max node_max : Bound) (hold : list Z -> result X (list Z)).
Context (admission : result X (result RespState.Failure.Failure (list Z)) -> Admission.Admission).
Notation Stored := (list Z * T)%type.

(** [Parsed::into_stored]: the bytes are retained, or the tape goes. *)
Definition into_stored (frame : list Z) (nodes : T) (b : B) : Decoded.Decoded X Stored * B :=
  match hold frame with
  | Ok frame => (Decoded.Frame (frame, nodes), b)
  | Err error => (Decoded.Retain error, discard b nodes)
  end.

(** [Parser::reset]. *)
Definition parser_reset (b : B) : State V * B := (state_new, sink_reset b).

(** [Codec::decode]; [need] is what the session can still stage. *)
Definition codec_decode (need : option Z) (inp : Input X) (s : State V) (b : B)
    : option (Parse.Parse X Stored * State V * B) :=
  r ← scan inp byte_max node_max s b;
  let '(r, s, b) := r in
  let reject (failure : RespState.Failure.Failure) (consumed : Z) :=
    let '(s, b) := parser_reset b in
    match admission (Ok (Err failure)) with
    | Admission.RetryInput => let '(s, b) := parser_reset b in Some (Parse.Item Outcome.RetryInput consumed, s, b)
    | Admission.Ready => Some (Parse.Item (Outcome.Accepted (Decoded.Rejected failure)) consumed, s, b)
    end in
  match r with
  | Scan.Source error =>
      let '(s, b) := parser_reset b in
      Some (Parse.Refused match admission (Err error) with
                          | Admission.RetryInput => Outcome.RetryInput
                          | Admission.Ready => Outcome.Accepted error
                          end, s, b)
  | Scan.Blocked => Some (Parse.Blocked, s, b)
  | Scan.Pending => Some (match need with Some need => Parse.More need | None => Parse.CapacityExhausted end, s, b)
  | Scan.Complete frame nodes consumed =>
      match admission (Ok (Ok frame)) with
      | Admission.RetryInput =>
          let '(s, b) := parser_reset b in Some (Parse.Item Outcome.RetryInput consumed, s, discard b nodes)
      | Admission.Ready =>
          let (decoded, b) := into_stored frame nodes b in Some (Parse.Item (Outcome.Accepted decoded) consumed, s, b)
      end
  | Scan.Invalid error consumed => reject (RespState.Failure.Invalid error) consumed
  | Scan.FrameCapacity error consumed => reject (RespState.Failure.FrameCapacity error) consumed
  | Scan.ValueCapacity error consumed => reject (RespState.Failure.ValueCapacity error) consumed
  | Scan.RetainCapacity => Some (Parse.CapacityExhausted, s, b)
  end.

(** [Codec::finish]: the input ended. *)
Definition codec_finish (inp : Input X) (s : State V) (b : B) : Finish.Finish X Stored * State V * B :=
  if zlen (bytes inp) =? 0 then let '(s, b) := parser_reset b in (Finish.Empty, s, b)
  else
    let failure := parser_finish s (zlen (bytes inp)) byte_max in
    match admission (Ok (Err failure)) with
    | Admission.RetryInput => (Finish.Item Outcome.RetryInput, s, b)
    | Admission.Ready =>
        let '(s, b) := parser_reset b in (Finish.Item (Outcome.Accepted (Decoded.Rejected failure)), s, b)
    end.

(** ** A session *)

(** The frames of what is there, with the storage each was delivered over; [after] is
    what becomes of the storage until the next frame is begun. *)
Fixpoint cut_frames (fuel : nat) (input : list Z -> Input X) (need : list Z -> option Z) (after : B -> T -> B)
    (s : State V) (b : B) (buffer : list Z) : option (list (Stored * B) * (Parse.Parse X Stored * State V * B * list Z)) :=
  match fuel with
  | O => None
  | S fuel =>
      r ← codec_decode (need buffer) (input buffer) s b;
      match r with
      | (Parse.Item (Outcome.Accepted (Decoded.Frame (frame, nodes))) consumed, s, b) =>
          r ← cut_frames fuel input need after s (after b nodes) (drop (Z.to_nat consumed) buffer);
          Some ((frame, nodes, b) :: r.1, r.2)
      | (last, s, b) => Some ([], (last, s, b, buffer))
      end
  end.

Definition feed_frames (input : list Z -> Input X) (need : list Z -> option Z) (after : B -> T -> B)
    (st : option (list (Stored * B) * (State V * B * list Z))) (chunk : list Z)
    : option (list (Stored * B) * (State V * B * list Z)) :=
  st ← st;
  let '(out, (s, b, buffer)) := st in
  r ← cut_frames (S (length (buffer ++ chunk))) input need after s b (buffer ++ chunk);
  let '(got, (_, s, b, rest)) := r in Some (out ++ got, (s, b, rest)).
End codec.

(** ** What a scan of a longer window makes of a shorter one *)

Section decides.
Context {X V B T : Type} {vec : InlineVec V} {vec_laws : InlineVecLaws V}.
Context {sink : Sink B T} {sink_laws : SinkLaws B T}.
Context (byte_max node_max : Bound) (Hbytes : bound_wf byte_max) (Hnodes : bound_wf node_max).
Notation Turn := (Turn X V B T).

Definition settles (r : Scan.Scan X T) : bool :=
  match r with Scan.Pending | Scan.Source _ => false | _ => true end.

(** What one window makes of the result [r] of another: it completes only if the other
    does, at the same end. *)
Definition decided (inp inp' : Input X) (r r' : Scan.Scan X T) : Prop :=
  forall f' t' n', r' = Scan.Complete f' t' n' ->
    exists f t n count, r = Scan.Complete f t n /\ try_prefix inp 0 count = Ok (f, n) /\ try_prefix inp' 0 count = Ok (f', n').

(** A turn that settles on a window settles on every longer one, alike. *)
Definition decides (inp inp' : Input X) (x y : Turn) : Prop :=
  match x with
  | Continue _ _ => True
  | Return r _ _ => settles r = true -> match y with Continue _ _ => False | Return r' _ _ => decided inp inp' r r' end
  end.

Lemma consumed_decides inp inp' n f s b s' b' :
  (forall n f' t' n', f n <> Scan.Complete f' t' n') ->
  decides inp inp' (Return (consumed inp n f) s b) (Return (consumed inp' n f) s' b').
Proof.
  intros Hf _ f' t' n'. unfold consumed. destruct (try_consumed inp' n); [|done]. intros E. by apply Hf in E.
Qed.

Lemma write_value_decides inp inp' s b slot v restore f g :
  (forall b', decides inp inp' (f b') (g b')) ->
  decides inp inp' (write_value s b slot v restore f) (write_value s b slot v restore g).
Proof. intros Hfg. unfold write_value. by destruct (try_push _ _ _) as [b' []]. Qed.

Lemma complete_decides inp inp' s b n : decides inp inp' (complete inp s b n : Turn) (complete inp' s b n).
Proof.
  unfold complete. destruct (try_prefix inp 0 n) as [[f m]|] eqn:E; [|by destruct (try_prefix inp' 0 n) as [[]|]].
  destruct (sink_finish b) as [b1 t]. destruct (try_prefix inp' 0 n) as [[f1 m1]|] eqn:E'; intros _ f' t' n'; [|done].
  intros [= <- <- <-]. by exists f, t, m, n.
Qed.

Lemma finish_stored_decides inp inp' s e b : decides inp inp' (finish_stored inp s e b : Turn) (finish_stored inp' s e b).
Proof. unfold finish_stored. destruct (finish_value s e) as [s' []]; [apply complete_decides|done]. Qed.

Lemma step_found_decides inp inp' s b kind start slot line e body :
  decides inp inp' (step_found inp byte_max node_max s b kind start slot line e body)
    (step_found inp' byte_max node_max s b kind start slot line e body).
Proof.
  unfold step_found, step_array.
  repeat first [split_match | apply write_value_decides; intros]; try done;
    (apply finish_stored_decides || by apply consumed_decides).
Qed.

Lemma step_decides inp inp' more s b :
  bytes inp' = bytes inp ++ more -> scan_inv byte_max node_max (bytes inp) s b ->
  zlen (bytes inp) <= bound_value byte_max ->
  decides inp inp' (step inp byte_max node_max s b) (step inp' byte_max node_max s b).
Proof.
  intros Hin Hs Hlen. pose proof (inv_mode _ _ _ _ _ Hs) as Hi. unfold mode_inv in Hi. unfold step.
  destruct (mode s) as [|e|kind p|e slot] eqn:Es.
  1,2: unfold step_marker; rewrite Hin; destruct (get (bytes inp) _) as [m|] eqn:Em; [|done];
    rewrite (get_Some_app _ _ _ _ Em); repeat split_match; try done; by apply consumed_decides.
  - destruct Hi as (Hst & _). unfold step_line. simpl. rewrite Hin.
    destruct (find (bytes inp) (start p) (scan_from s) kind) as [[line|]|[[offset x] y]] eqn:Ef.
    + rewrite (find_app _ more (start p) _ _ _ ltac:(lia) Ef) by done.
      destruct (frame_line _ _) as [[e body]|]; [apply step_found_decides|by apply consumed_decides].
    + unfold frame_check. by destruct (Z.leb_spec (zlen (bytes inp)) (bound_value byte_max)); [|lia].
    + rewrite (find_app _ more (start p) _ _ _ ltac:(lia) Ef) by done.
      destruct (frame_next _ _); by apply consumed_decides.
  - unfold step_bulk. rewrite Hin.
    destruct (get_range (bytes inp) _ _) as [[|cr [|lf [|]]]|] eqn:Eg; try (intros Hf; discriminate Hf).
    rewrite (get_range_app _ _ _ _ _ Eg).
    destruct (_ || _)%bool; [destruct (negb _); by apply consumed_decides|]. apply write_value_decides. intros b'.
    destruct (finish_value _ _) as [s' []]; [apply complete_decides|done].
Qed.

Lemma scan_loop_decides fuel fuel' (inp inp' : Input X) more s b r s1 b1 r' s2 b2 :
  Forall is_byte (bytes inp) -> bytes inp' = bytes inp ++ more -> scan_inv byte_max node_max (bytes inp) s b ->
  zlen (bytes inp) <= bound_value byte_max ->
  scan_loop fuel inp byte_max node_max s b = Some (r, s1, b1) -> settles r = true ->
  scan_loop fuel' inp' byte_max node_max s b = Some (r', s2, b2) -> decided inp inp' r r'.
Proof.
  intros Hby Hin. revert s b fuel'. induction fuel as [|fuel IH]; intros s b fuel' Hs Hlen E Hr E'; [done|].
  destruct fuel' as [|fuel']; [done|]. simpl in E, E'.
  pose proof (step_ok byte_max node_max Hbytes Hnodes inp s b Hby Hs) as Hok.
  pose proof (step_continues byte_max node_max inp inp' more s b Hin Hs) as Hc.
  pose proof (step_decides inp inp' more s b Hin Hs Hlen) as Hd.
  destruct (step inp byte_max node_max s b) as [s3 b3|r3 s3 b3].
  - simpl in Hc. rewrite Hc in E'. destruct Hok as [Hs3 _]. by eapply IH.
  - injection E as -> -> ->. specialize (Hd Hr). destruct (step inp' _ _ s b); [done|]. by injection E' as -> _ _.
Qed.
End decides.

(** ** The stream *)

Section stream.
Context {X V B T : Type} {vec : InlineVec V} {vec_laws : InlineVecLaws V}.
Context {sink : Sink B T} {sink_laws : SinkLaws B T} `{!Discard B T}.
Context (byte_max node_max : Bound) (Hbytes : bound_wf byte_max) (Hnodes : bound_wf node_max).
Context (input : list Z -> Input X) (capacity : Z) `{!Windows input capacity}.
Context (need : list Z -> option Z) (hold : list Z -> result X (list Z)) (after : B -> T -> B).
Hypothesis prefix_exact : forall l n f m, try_prefix (input l) 0 n = Ok (f, m) -> f = slice l 0 n /\ m = n.
(** The bytes of a frame can be retained, as they are. *)
Hypothesis hold_keeps : forall f, hold f = Ok f.
Context (admission : result X (result RespState.Failure.Failure (list Z)) -> Admission.Admission).
(** The reactor takes every frame it is offered. *)
Hypothesis admits : forall f, admission (Ok (Ok f)) = Admission.Ready.

(** A parser that may begin a frame: its builder is empty and has room for one. *)
Definition begins (b : B) : Prop :=
  sink_ok b /\ sink_view b = [] /\ accepts (Z.to_nat (bound_value node_max)) b.

(** When the next frame begins there is room for it again. *)
Hypothesis after_begins : forall b t, sink_ok b -> sink_view b = [] -> begins (after b t).

(** The spelling of one value the codec has to accept. *)
Definition spelled (v : resp) (f : list Z) : Prop :=
  wires [v] f /\ Forall is_byte f /\ zlen f <= bound_value byte_max /\
  Z.of_nat (node_count v) <= bound_value node_max /\ (depth v <= MAX_DEPTH)%nat.

Lemma spelled_length v f : spelled v f -> 1 <= zlen f.
Proof. intros (Hw & _). pose proof (wires_length _ _ Hw) as Hl. simpl in Hl. lia. Qed.

Lemma accepts_le n m (b : B) : (m <= n)%nat -> accepts n b -> accepts m b.
Proof.
  revert n b. induction m as [|m IH]; intros n b Hle Ha; [done|]. destruct n as [|n]; [lia|].
  intros v Hv. destruct (Ha v Hv) as (b' & E & Ha'). exists b'. split; [done|]. apply (IH n); [lia|done].
Qed.

(** A whole frame in the window is scanned. *)
Lemma scan_frame v f rest b :
  spelled v f -> Forall is_byte rest -> begins b -> exists t vs b', scan (input (f ++ rest)) byte_max node_max state_new b =
      Some (Scan.Complete f t (zlen f) : Scan.Scan X T, state_new, b') /\ tape_holds b' t vs /\ reads f vs [v].
Proof.
  intros Hsp Hr (Hok & Hv & Ha). pose proof (spelled_length _ _ Hsp). destruct Hsp as (Hw & Hb & Hm & Hn & Hd).
  apply (scan_spelled byte_max node_max Hbytes Hnodes (input (f ++ rest))) with (rest := rest); try done.
  - rewrite windows_bytes. by apply Forall_app.
  - by rewrite windows_bytes.
  - eapply accepts_le; [|exact Ha]. lia.
  - rewrite windows_prefix by (rewrite ?length_app; lia). rewrite slice_0, Nat2Z.id, take_app_length. done.
Qed.

(** Nothing, or the start of a frame. *)
Definition part (l : list Z) : Prop := l = [] \/ exists v f gap, spelled v f /\ f = l ++ gap /\ gap <> [].

Lemma part_bytes l : part l -> Forall is_byte l.
Proof. intros [->|(v & f & gap & (_ & Hb & _) & -> & _)]; [constructor|]. by apply Forall_app in Hb as [? _]. Qed.

Lemma scan_empty b : scan (input []) byte_max node_max state_new b = Some (Scan.Pending : Scan.Scan X T, state_new, b).
Proof. unfold scan. rewrite windows_bytes. cbn. unfold step_marker. by rewrite windows_bytes. Qed.

(** A part of a frame is waited on. *)
Lemma scan_part l b :
  part l -> begins b ->
  exists s1 b1, scan (input l) byte_max node_max state_new b = Some (Scan.Pending : Scan.Scan X T, s1, b1).
Proof.
  intros [->|(v & f & gap & Hsp & -> & Hg)] Hb; [rewrite scan_empty; by eexists _, _|]. pose proof Hsp as (_ & Hby & Hm & _). apply Forall_app in Hby as [Hbl _].
  rewrite length_app in Hm.
  assert (1 <= zlen gap) as Hgap by (destruct gap; [done|simpl; lia]).
  destruct (scan_frame v (l ++ gap) [] b Hsp ltac:(constructor) Hb) as (t & vs & b' & Ef & _). rewrite app_nil_r in Ef.
  pose proof Hb as (Hok & Hv & _).
  assert (scan_inv byte_max node_max l state_new b) as Hi by (by apply scan_inv_new).
  assert (forall k, scan_inv byte_max node_max (bytes (input k)) state_new b) as Hk
    by (intros k; rewrite windows_bytes; by apply scan_inv_new).
  destruct (scan_ok byte_max node_max Hbytes Hnodes (input l) state_new b) as (r & s1 & b1 & E & Hr);
    [by rewrite windows_bytes|left; apply Hk|].
  destruct (settles r) eqn:Hs.
  - exfalso. pose proof E as E1. rewrite (scan_in_place _ _ _ _ _ (Hk l)) in E1.
    rewrite (scan_in_place _ _ _ _ _ (Hk (l ++ gap))) in Ef.
    destruct (scan_loop_decides byte_max node_max Hbytes Hnodes _ _ (input l) (input (l ++ gap)) gap _ _ _ _ _ _ _ _
      ltac:(by rewrite windows_bytes) ltac:(by rewrite !windows_bytes) (Hk l) ltac:(rewrite windows_bytes; lia) E1 Hs Ef
      _ _ _ eq_refl) as (f0 & t0 & n0 & count & -> & H1 & H2).
    apply prefix_exact in H2 as [_ H2]. apply prefix_exact in H1 as [_ ->].
    destruct Hr as (pos & Hpos & _ & Hp & _). apply prefix_exact in Hp as [_ Hp]. rewrite windows_bytes in Hpos.
    rewrite length_app in H2. lia.
  - destruct r; try done; [by exists s1, b1|]. destruct Hr as (n & Hn & Hr). rewrite windows_bytes in Hn.
    destruct Hr as [Hr|Hr]; [rewrite windows_consumed in Hr by done|rewrite windows_prefix in Hr by lia]; done.
Qed.

(** The parser has seen [l], whatever the cuts, and waits: it goes on as it would from
    the start of the frame. *)
Definition waits (l : list Z) (s : State V) (b : B) : Prop :=
  exists b0, begins b0 /\ scan_inv byte_max node_max l s b /\
    forall l' r t c, Forall is_byte (l ++ l') ->
      scan (input (l ++ l')) byte_max node_max state_new b0 = Some (r : Scan.Scan X T, t, c) ->
      exists t', scan (input (l ++ l')) byte_max node_max s b = Some (r, t', c).

Lemma waits_new b : begins b -> waits [] state_new b.
Proof.
  intros Hb. exists b. split; [done|]. destruct Hb as (Hok & Hv & _). split; [by apply scan_inv_new|].
  intros l' r t c _ E. by exists t.
Qed.

(** What arrives for a frame under way. *)
Lemma waits_part l s b more :
  waits l s b -> part (l ++ more) ->
  exists s1 b1, scan (input (l ++ more)) byte_max node_max s b = Some (Scan.Pending : Scan.Scan X T, s1, b1) /\
    waits (l ++ more) s1 b1.
Proof.
  intros (b0 & Hb0 & Hi & Hw) Hp. pose proof (part_bytes _ Hp) as Hby.
  destruct (scan_part (l ++ more) b0 Hp Hb0) as (s0 & c0 & E0).
  destruct (Hw _ _ _ _ Hby E0) as [s1 E1]. exists s1, c0. split; [done|]. exists b0. split; [done|].
  assert (scan_inv byte_max node_max (bytes (input (l ++ more))) s b) as Hi' by (rewrite windows_bytes; by apply scan_inv_app).
  assert (scan_inv byte_max node_max (l ++ more) s1 c0) as Hi1.
  { destruct (scan_again byte_max node_max Hbytes Hnodes (input (l ++ more)) (input (l ++ more)) [] s b s1 c0) as [Hi1 _];
      rewrite ?windows_bytes, ?app_nil_r in *; done. }
  split; [done|]. intros l' r t c Hby' Ht. rewrite <- app_assoc in Hby', Ht. destruct (Hw _ _ _ _ Hby' Ht) as [t' E2].
  destruct (scan_again byte_max node_max Hbytes Hnodes (input (l ++ more)) (input ((l ++ more) ++ l')) l' s b s1 c0)
    as (_ & r1 & t1 & t2 & c1 & E3 & E4 & _); [rewrite windows_bytes; by rewrite <- app_assoc| |done|done|].
  { by rewrite !windows_bytes. }
  rewrite <- app_assoc in E3, E4 |- *. rewrite E2 in E3. injection E3 as <- <- <-. by exists t2.
Qed.

(** The rest of it. *)
Lemma waits_frame l s b more v f rest :
  waits l s b -> spelled v f -> l ++ more = f ++ rest -> Forall is_byte rest ->
  exists t vs b', scan (input (l ++ more)) byte_max node_max s b =
      Some (Scan.Complete f t (zlen f) : Scan.Scan X T, state_new, b') /\ tape_holds b' t vs /\ reads f vs [v] /\
    sink_ok b' /\ sink_view b' = [].
Proof.
  intros (b0 & Hb0 & Hi & Hw) Hsp E Hr. destruct (scan_frame v f rest b0 Hsp Hr Hb0) as (t & vs & b' & E0 & Ht & Hre).
  assert (Forall is_byte (l ++ more)) as Hby by (rewrite E; apply Forall_app; split; [apply Hsp|done]).
  rewrite <- E in E0. destruct (Hw _ _ _ _ Hby E0) as [s1 E1].
  destruct (scan_ok byte_max node_max Hbytes Hnodes (input (l ++ more)) s b) as (r & s2 & b2 & E2 & Hok);
    [by rewrite windows_bytes|left; rewrite windows_bytes; by apply scan_inv_app|].
  rewrite E1 in E2. injection E2 as <- <- <-. destruct Hok as (pos & _ & _ & _ & -> & Hok & Hv & _).
  by exists t, vs, b'.
Qed.

(** A frame handed on: its bytes, and a tape that reads back as the value in the storage
    of that moment. *)
Definition delivers (v : resp) (f : list Z) (e : list Z * T * B) : Prop :=
  e.1.1 = f /\ exists ks, tape_holds e.2 e.1.2 ks /\ reads f ks [v].

Notation cut := (cut_frames byte_max node_max hold admission).
Notation feed := (feed_frames byte_max node_max hold admission input need after).

Lemma cut_frames_ok vs fs left fuel l s b more :
  Forall2 spelled vs fs -> part left -> waits l s b -> l ++ more = concat fs ++ left ->
  (length (l ++ more) < fuel)%nat ->
  exists out last s' b', cut fuel input need after s b (l ++ more) = Some (out, (last, s', b', left)) /\
    waits left s' b' /\ Forall3 delivers vs fs out.
Proof.
  intros Hf Hp. revert fuel l s b more. induction Hf as [|v f vs fs Hsp Hf IH]; intros [|fuel] l s b more Hw E Hl; try lia.
  - simpl in E. rewrite E in *. cbn [cut_frames]. unfold codec_decode.
    destruct (waits_part l s b more Hw) as (s1 & b1 & Es & Hw1); [by rewrite E|]. rewrite E in Es, Hw1. rewrite Es.
    cbn [mbind option_bind]. destruct (need left); eexists [], _, s1, b1; (split; [reflexivity|]); by split; [|constructor].
  - cbn [concat] in E. rewrite <- app_assoc in E.
    assert (Forall is_byte (concat fs ++ left)) as Hby.
    { apply Forall_app. split; [|by apply part_bytes]. apply Forall_concat. clear -Hf.
      induction Hf as [|v f vs fs (_ & Hb & _) Hf IH]; by constructor. }
    destruct (waits_frame l s b more v f _ Hw Hsp E Hby) as (t & ks & b' & Es & Ht & Hr & Hok & Hv).
    pose proof (spelled_length _ _ Hsp) as Hlf.
    cbn [cut_frames]. unfold codec_decode. rewrite Es. cbn [mbind option_bind]. rewrite admits. unfold into_stored. rewrite hold_keeps.
    cbv beta iota zeta. cbn [mbind option_bind]. rewrite E, Nat2Z.id, drop_app_length.
    assert (length (concat fs ++ left) < fuel)%nat as Hfu by (rewrite E, length_app in Hl; lia).
    destruct (IH fuel [] state_new (after b' t) (concat fs ++ left) (waits_new _ (after_begins _ _ Hok Hv)) eq_refl Hfu)
      as (out & last & s1 & b1 & Ec & Hw1 & Ho).
    cbn [app] in Ec. rewrite Ec. cbn [mbind option_bind fst snd]. eexists _, last, s1, b1. split; [reflexivity|].
    split; [done|]. constructor; [|done]. split; [done|]. by exists ks.
Qed.

(** A start of the stream is some of its frames and a part of the next. *)
Lemma frames_prefix vs fs tail l gap :
  Forall2 spelled vs fs -> part tail -> l ++ gap = concat fs ++ tail ->
  exists v1 f1 v2 f2 left, vs = v1 ++ v2 /\ fs = f1 ++ f2 /\ Forall2 spelled v1 f1 /\ Forall2 spelled v2 f2 /\
    l = concat f1 ++ left /\ part left /\ left ++ gap = concat f2 ++ tail.
Proof.
  intros Hf Hp. revert l. induction Hf as [|v f vs fs Hsp Hf IH]; intros l E.
  - exists [], [], [], [], l. split_and!; try done. simpl in E. destruct l as [|x l]; [by left|]. right.
    destruct Hp as [->|(v & f & g & Hsp & -> & Hg)]; [done|]. rewrite <- E in Hsp.
    exists v, (((x :: l) ++ gap) ++ g), (gap ++ g). split_and!; [done|by rewrite <- app_assoc|]. by destruct gap.
  - cbn [concat] in E. rewrite <- app_assoc in E. destruct (le_lt_dec (length f) (length l)) as [Hle|Hlt].
    + pose proof (f_equal (take (length f)) E) as E1. apply (f_equal (drop (length f))) in E.
      rewrite take_app_le, take_app_length in E1 by done. rewrite drop_app_le, drop_app_length in E by done.
      destruct (IH _ E) as (v1 & f1 & v2 & f2 & left & -> & -> & H1 & H2 & El & Hl & Eg).
      exists (v :: v1), (f :: f1), v2, f2, left. split_and!; try done; [by constructor|].
      cbn [concat]. rewrite <- app_assoc, <- El. rewrite <- E1 at 1. by rewrite take_drop.
    + exists [], [], (v :: vs), (f :: fs), l. split_and!; try done; [by constructor| |].
      * right. exists v, f, (drop (length l) f). split; [done|]. apply (f_equal (take (length l))) in E.
        rewrite take_app_length, take_app_le in E by lia. split; [rewrite <- (take_drop (length l) f) at 1; by rewrite <- E|].
        intros En. apply (f_equal length) in En. rewrite length_drop in En. simpl in En. lia.
      * cbn [concat]. by rewrite <- app_assoc.
Qed.

Lemma feed_frames_ok chunks vs fs tail out l s b :
  Forall2 spelled vs fs -> part tail -> part l -> waits l s b -> l ++ concat chunks = concat fs ++ tail ->
  exists out' s' b', fold_left feed chunks (Some (out, (s, b, l))) = Some (out ++ out', (s', b', tail)) /\
    Forall3 delivers vs fs out'.
Proof.
  revert vs fs out l s b. induction chunks as [|c chunks IH]; intros vs fs out l s b Hf Ht Hp Hw E.
  - cbn [concat] in E. rewrite app_nil_r in E. destruct Hf as [|v f vs fs Hsp Hf].
    + simpl in E. subst tail. exists [], s, b. rewrite app_nil_r. by split; [|constructor].
    + exfalso. destruct (cut_frames_ok [] [] l (S (length (l ++ []))) l s b []) as (o1 & la & s1 & b1 & E1 & _ & H1);
        [constructor|done|done|by rewrite app_nil_r|lia|].
      destruct (cut_frames_ok (v :: vs) (f :: fs) tail (S (length (l ++ []))) l s b []) as (o2 & lb & s2 & b2 & E2 & _ & H2);
        [by constructor|done|done|by rewrite app_nil_r|lia|].
      rewrite E1 in E2. injection E2 as <- _ _ _ _. inversion H1; subst. inversion H2.
  - cbn [concat] in E. rewrite app_assoc in E.
    destruct (frames_prefix vs fs tail (l ++ c) (concat chunks) Hf Ht E)
      as (v1 & f1 & v2 & f2 & left & -> & -> & H1 & H2 & El & Hl & Eg).
    destruct (cut_frames_ok v1 f1 left (S (length (l ++ c))) l s b c H1 Hl Hw El ltac:(lia))
      as (o1 & last & s1 & b1 & Ec & Hw1 & Ho1).
    cbn [fold_left]. unfold feed_frames at 2. cbn [mbind option_bind]. rewrite Ec. cbn [mbind option_bind].
    destruct (IH v2 f2 (out ++ o1) left s1 b1 H2 Ht Hl Hw1 Eg) as (o2 & s2 & b2 & -> & Ho2).
    exists (o1 ++ o2), s2, b2. rewrite app_assoc. split; [done|]. by apply Forall3_app.
Qed.

(** C7. How a stream is cut does not matter. Where the parser's storage has room for a
    whole frame whenever one begins ([begins], [after_begins]), the bytes of every frame
    can be retained ([hold_keeps]) and the reactor takes every frame ([admits]): however
    the bytes of a stream of replies, each within the limits on bytes, values and depth,
    are cut into arrivals, the codec delivers exactly its frames, in order, each with a
    tape that reads back as the value it spells, refuses none of them, and keeps exactly
    the unfinished remainder. *)
Theorem replies_cut_anywhere b chunks vs fs tail :
  begins b -> Forall2 spelled vs fs -> part tail -> concat chunks = concat fs ++ tail ->
  exists out s' b', fold_left feed chunks (Some ([], (state_new, b, []))) = Some (out, (s', b', tail)) /\
    Forall3 delivers vs fs out.
Proof. intros Hb Hf Ht E. apply (feed_frames_ok chunks vs fs tail []); [done|done|by left|by apply waits_new|done]. Qed.
End stream.

(** ** On the real storage *)

Section storage.
Context {W T : Type} {fifo : Fifo W T} {target_eq : EqDecision T}.

(** A builder that holds a lane, or may take one, has room for as many values as there
    are free nodes. *)
Lemma builder_accepts n others s (b : Builder (T := T)) mine free :
  pool_inv (tapes s) free (mine :: others) -> tail b = last mine -> builder_len b = zlen mine ->
  access b = Phase.Held \/ (access b = Phase.Idle /\ active (storage_gate s) < RespGate.lanes (storage_gate s)) ->
  (n <= length free)%nat -> accepts n (Some (s, b) : Connection (W := W) (T := T)).
Proof.
  revert s b mine free. induction n as [|n IH]; intros s b mine free Hi Ht Hl Ha Hn; [done|].
  destruct free as [|key free]; [simpl in Hn; lia|]. intros v Hv.
  destruct (append_extends _ _ _ _ _ v Hi Hv) as (ft & p & Hr & Hp & Hi' & _).
  assert (exists g, acquire (storage_gate s) (access b) = (g, Phase.Held, true)) as [g Hg].
  { destruct Ha as [->|[-> Hlt]]; [by eexists|]. cbn. destruct (Z.leb_spec (RespGate.lanes (storage_gate s)) (active (storage_gate s))); [lia|by eexists]. }
  cbn [try_push builder_sink]. unfold builder_push. rewrite Hg. cbn [tapes tail]. rewrite Hr, Ht, Hp. cbn [mbind option_bind fst snd].
  eexists. split; [reflexivity|]. apply (IH _ _ (mine ++ [key]) free); cbn [tapes tail builder_len access]; try done.
  - by rewrite last_snoc.
  - rewrite length_app. cbn [sink_len builder_sink]. simpl. lia.
  - by left.
  - simpl in Hn. lia.
Qed.
End storage.

Definition node_bound : Bound := {| bound_value := 5 |}.

(** A reply that is an array, and an integer cut after its sign. *)
Definition sample_replies : list (list Z) := [RespScan.sample_frame; bytes_of ":7" ++ crlf].

Lemma sample_begins : begins node_bound sample_connection.
Proof.
  destruct sample_owns as [[free Hi] H2 H3]. split; [exists sample_storage, builder_new, [], []; split; [reflexivity|exact sample_owns]|].
  split; [done|].
  apply (builder_accepts _ [] _ _ [] free); try done; [by right|].
  pose proof (Permutation_length (inv_cover _ _ _ Hi)) as Hl. rewrite length_seqZ in Hl. simpl in Hl. rewrite app_nil_r in Hl.
  rewrite Hl. vm_compute. lia.
Qed.

Lemma replies_cut_anywhere_witness :
  exists out s' b', fold_left (feed_frames sample_bound node_bound Ok (fun _ => Admission.Ready) window (fun _ => Some 64) (fun _ _ => sample_connection))
      [take 3 (concat sample_replies); []; drop 3 (concat sample_replies) ++ bytes_of ":-"]
      (Some ([], (state_new (V := list Z), sample_connection, []))) = Some (out, (s', b', bytes_of ":-")) /\
    (fun e => e.1.1) <$> out = sample_replies.
Proof.
  destruct (replies_cut_anywhere sample_bound node_bound sample_bound_wf ltac:(split; simpl; lia) window 64
    (fun _ => Some 64) Ok (fun _ _ => sample_connection)
    ltac:(intros l n f m; unfold try_prefix, window; destruct (_ && _)%bool; [intros [= <- <-]; split; reflexivity|discriminate])
    ltac:(reflexivity) (fun _ => Admission.Ready) ltac:(reflexivity) ltac:(intros; exact sample_begins) sample_connection
    [take 3 (concat sample_replies); []; drop 3 (concat sample_replies) ++ bytes_of ":-"]
    [sample_value; RInteger 7] sample_replies (bytes_of ":-")) as (out & s' & b' & E & Ho).
  - exact sample_begins.
  - constructor; [|constructor; [|constructor]].
    + split_and!; [exact sample_wires|by apply byte_check_ok|vm_compute; discriminate|vm_compute; discriminate|vm_compute; lia].
    + split_and!; [|by apply byte_check_ok|vm_compute; discriminate|vm_compute; discriminate|vm_compute; lia].
      change (bytes_of ":7" ++ crlf) with (header 58 (bytes_of "7") ++ []). apply wires_leaf; [|constructor].
      constructor; [|lia]. exists false, (bytes_of "7"). split_and!; [done|by repeat constructor|done|right; split; [by right|done]].
  - right. exists (RInteger (-42)), (bytes_of ":-42" ++ crlf), (bytes_of "42" ++ crlf). split; [|done].
    split_and!; [|by apply byte_check_ok|vm_compute; discriminate|vm_compute; discriminate|vm_compute; lia].
    change (bytes_of ":-42" ++ crlf) with (header 58 (bytes_of "-42") ++ []). apply wires_leaf; [|constructor].
    constructor; [|lia]. exists true, (bytes_of "42"). split_and!; [done|by repeat constructor|done|by left].
  - reflexivity.
  - exists out, s', b'. split; [exact E|]. unfold sample_replies in Ho |- *. inversion Ho as [|? ? ? ? ? ? [E1 _] Ho1]; subst.
    inversion Ho1 as [|? ? ? ? ? ? [E2 _] Ho2]; subst. inversion Ho2; subst. cbn. by rewrite E1, E2.
Defined.
