(* ===== verification/RespFailure.v ===== *)
(** * Failures of a Redis connection

    Models [client::Failure] of [redis/src/client/mod.rs] with the reason and the
    policy a connection is closed with, [redis/src/error.rs], [redis/src/init.rs], the
    cache of failures per connection, [redis/src/port/failures.rs], and what an
    [Activity] of [redis/src/port/mod.rs] remembers. What the errors of other
    libraries carry is the parameter [X]; their variants are spelled where this code
    tells them apart. *)
From S2P Require Import Prelude CoreQueue RespLimit RespState RespRequest.

(** ** Vocabulary *)

Module Step.
Inductive Step := Authenticate | Select | SetClientName.
End Step.

#[global] Instance Step_eq_dec : EqDecision Step.Step.
Proof. solve_decision. Defined.

Module InitKind.
Inductive Kind := Rejected | Unexpected.
End InitKind.

(** [init::Failure]: the step and the reply it got, when that could be kept. *)
Record InitFailure (X : Type) := { step : Step.Step; init_kind : InitKind.Kind; init_frame : result X (list Z) }.
Arguments step {X}.
Arguments init_kind {X}.
Arguments init_frame {X}.

(** [Failure::observe]: the reply is shared, or what sharing failed with. *)
Definition observe {X} (share : list Z -> result X (list Z)) (f : InitFailure X) : InitFailure X :=
  {| step := step f; init_kind := init_kind f;
     init_frame := match init_frame f with Ok frame => share frame | Err e => Err e end |}.

(** [conn::Transmit]: a rejected submission names its cause. *)
Module Transmit.
Inductive SubmitCause := Full | IdentityExhausted.
Inductive Transmit {X : Type} := Rejected (cause : SubmitCause) | Io (x : X) | Invalid (x : X).
Arguments Transmit : clear implicits.
End Transmit.

(** [egress::Rejection]. *)
Module Egress.
Inductive Rejection {X : Type} :=
| Empty (x : X)
| Changed (x : X)
| LaneUnavailable
| Transfer (x : X)
| Resident (x : X)
| LaneCapacity (x : X)
| BatchCapacity (x : X)
| Capacity (x : X).
Arguments Rejection : clear implicits.
End Egress.

(** [order::Front] of a reply lane. *)
Module Front.
Inductive Front {X : Type} := Empty | Detached | Other (x : X).
Arguments Front : clear implicits.
End Front.

(** [deadline::Kind], [close::Reason] and [close::Policy]. *)
Module Close.
Inductive Kind {X : Type} := Inbound | OtherKind (x : X).
Arguments Kind : clear implicits.
Inductive Capacity := Transport | IdentityExhausted | IngressRetention | IngressStaging.
Inductive Reason {X : Type} :=
| OnTransport
| OnCapacity (capacity : Capacity)
| ResourceFailure
| Timeout (kind : Kind X)
| OnProtocol
| Remote
| Other (x : X).
Arguments Reason : clear implicits.
Inductive Policy := Permanent | Reconnect.
End Close.

Module Failure.
Inductive Failure {X : Type} :=
| Input (x : X)
| Closed (reason : Close.Reason X)
| Receive (x : X)
| Transmitted (transmit : Transmit.Transmit X)
| Timeout (kind : Close.Kind X)
| RequestTimeout (x : X)
| Protocol (error : Error.Error)
| Handshake (failure : InitFailure X)
| UnexpectedResponse
| ResponseCapacity (x : X)
| ResponseFront (front : Front.Front X)
| Request (error : ReqError.Error X X)
| RequestEgress (cause : Egress.Rejection X)
| RequestReserve (x : X)
| ResponseFrameCapacity (e : Exceeded)
| ResponseRetention (x : X)
| ResponseValueCapacity (e : Exceeded).
Arguments Failure : clear implicits.
End Failure.

(** [error::Error]. *)
Module ClientError.
Inductive Block {X : Type} := Inactive | Pool | Queue (cause : CoreQueue.Rejection.Rejection X).
Arguments Block : clear implicits.
Inductive Error {X : Type} :=
| Input (x : X)
| ParserWait (x : X)
| Unavailable
| ConnectionExhausted (key : X) (cause : X)
| Closed (reason : Close.Reason X)
| Receive (x : X)
| Transmitted (transmit : Transmit.Transmit X)
| Timeout (kind : Close.Kind X)
| RequestTimeout (x : X)
| Protocol (error : Error.Error)
| Allocation
| Exhausted (x : X)
| Handshake (failure : InitFailure X)
| UnexpectedResponse
| ReplySlotEmpty
| Reply (x : X)
| Dispatch (blocked : Block X) (wait : X)
| ResponseCapacity (x : X)
| ResponseFront (front : Front.Front X)
| Wait (x : X)
| Deadline (x : X)
| Request (error : ReqError.Error X X)
| RequestEgress (cause : Egress.Rejection X)
| RequestReserve (x : X)
| ResponseFrameCapacity (e : Exceeded)
| ResponseRetain (x : X)
| ResponseRetention (x : X)
| ResponseStorageCapacity (x : X)
| ResponseValueCapacity (e : Exceeded).
Arguments Error : clear implicits.
End ClientError.

(** [port::Stop]: what ends a port, whichever connection. *)
Module Stop.
Inductive Stop {X : Type} := Closed (reason : Close.Reason X) | ParserWait (cause : X) | Exhausted (key cause : X).
Arguments Stop : clear implicits.
End Stop.

(** What is woken: the waiters of an [Activity] for a place to send or for a lease, or
    the connection of a target. *)
Inductive Notice (T : Type) := WakeSend | WakeLease | WakeTarget (target : T).
Arguments WakeSend {T}.
Arguments WakeLease {T}.
Arguments WakeTarget {T}.

(** [Activity::wake_all]. *)
Definition wake_all {T} : list (Notice T) := [WakeSend; WakeLease].

Section failure.
Context {X : Type}.
Notation Failure := (Failure.Failure X).
Notation Error := (ClientError.Error X).

(** [Failure::protocol]. *)
Definition failure_protocol (error : RespState.Failure.Failure) : Failure :=
  match error with
  | RespState.Failure.Invalid error => Failure.Protocol error
  | RespState.Failure.FrameCapacity error => Failure.ResponseFrameCapacity error
  | RespState.Failure.ValueCapacity error => Failure.ResponseValueCapacity error
  end.

(** [Failure::from_close]. *)
Definition from_close (reason : Close.Reason X) : Failure :=
  match reason with Close.Timeout kind => Failure.Timeout kind | _ => Failure.Closed reason end.

(** [Failure::close_reason]; what a retention that failed is closed with is the
    reactor's. *)
Definition close_reason (of_hold : X -> Close.Reason X) (f : Failure) : Close.Reason X :=
  match f with
  | Failure.Closed reason => reason
  | Failure.Receive _ => Close.OnTransport
  | Failure.Transmitted (Transmit.Rejected Transmit.Full) => Close.OnCapacity Close.Transport
  | Failure.Transmitted (Transmit.Rejected Transmit.IdentityExhausted) => Close.OnCapacity Close.IdentityExhausted
  | Failure.Transmitted (Transmit.Io _ | Transmit.Invalid _) => Close.OnTransport
  | Failure.Timeout kind => Close.Timeout kind
  | Failure.RequestTimeout _ => Close.Timeout Close.Inbound
  | Failure.Input _ | Failure.Protocol _ | Failure.Handshake _ | Failure.UnexpectedResponse | Failure.ResponseFront _ =>
      Close.OnProtocol
  | Failure.ResponseCapacity _ => Close.OnCapacity Close.IngressRetention
  | Failure.ResponseRetention error => of_hold error
  | Failure.ResponseFrameCapacity _ | Failure.ResponseValueCapacity _ => Close.OnCapacity Close.IngressStaging
  | Failure.RequestEgress (Egress.Empty _ | Egress.Changed _) => Close.ResourceFailure
  | Failure.RequestEgress Egress.LaneUnavailable => Close.OnTransport
  | Failure.RequestEgress (Egress.Transfer _ | Egress.Resident _ | Egress.LaneCapacity _ | Egress.BatchCapacity _
      | Egress.Capacity _) => Close.OnCapacity Close.Transport
  | Failure.RequestReserve _ => Close.OnCapacity Close.Transport
  | Failure.Request _ => Close.ResourceFailure
  end.

(** [Failure::start_policy]: whether a connection that failed before it was ready is
    worth opening again. *)
Definition start_policy (of_hold : X -> Close.Reason X) (f : Failure) : Close.Policy :=
  match f with
  | Failure.Transmitted _ =>
      match close_reason of_hold f with
      | Close.OnCapacity Close.IdentityExhausted => Close.Permanent
      | _ => Close.Reconnect
      end
  | Failure.Request (ReqError.Entries _) => Close.Reconnect
  | Failure.Input _ | Failure.Protocol _ | Failure.Handshake _ | Failure.UnexpectedResponse | Failure.Request _
  | Failure.ResponseFrameCapacity _ | Failure.ResponseValueCapacity _ => Close.Permanent
  | Failure.RequestEgress (Egress.LaneCapacity _ | Egress.BatchCapacity _ | Egress.Capacity _)
  | Failure.RequestReserve _ => Close.Permanent
  | Failure.Closed _ | Failure.Receive _ | Failure.Timeout _ | Failure.RequestTimeout _ | Failure.ResponseCapacity _
  | Failure.ResponseFront _
  | Failure.RequestEgress (Egress.Empty _ | Egress.Changed _ | Egress.LaneUnavailable | Egress.Transfer _
      | Egress.Resident _)
  | Failure.ResponseRetention _ => Close.Reconnect
  end.

(** [Failure::into_error]. *)
Definition into_error (f : Failure) : Error :=
  match f with
  | Failure.Input cause => ClientError.Input cause
  | Failure.Closed reason => ClientError.Closed reason
  | Failure.Receive error => ClientError.Receive error
  | Failure.Transmitted error => ClientError.Transmitted error
  | Failure.Timeout kind => ClientError.Timeout kind
  | Failure.RequestTimeout due => ClientError.RequestTimeout due
  | Failure.Protocol error => ClientError.Protocol error
  | Failure.Handshake error => ClientError.Handshake error
  | Failure.UnexpectedResponse => ClientError.UnexpectedResponse
  | Failure.ResponseCapacity cause => ClientError.ResponseCapacity cause
  | Failure.ResponseFront front => ClientError.ResponseFront front
  | Failure.Request error => ClientError.Request error
  | Failure.RequestEgress cause => ClientError.RequestEgress cause
  | Failure.RequestReserve cause => ClientError.RequestReserve cause
  | Failure.ResponseFrameCapacity error => ClientError.ResponseFrameCapacity error
  | Failure.ResponseRetention error => ClientError.ResponseRetention error
  | Failure.ResponseValueCapacity error => ClientError.ResponseValueCapacity error
  end.

(** [From<&Failure>]: a copy, but for the reply of a handshake, which is shared. *)
Definition failure_copy (share : list Z -> result X (list Z)) (f : Failure) : Failure :=
  match f with Failure.Handshake error => Failure.Handshake (observe share error) | _ => f end.

(** [Failure::footprint]: the bytes it retains. *)
Definition footprint (f : Failure) : Z :=
  match f with Failure.Handshake {| init_frame := Ok frame |} => zlen frame | _ => 0 end.

(** The causes an end of the stream refines once its bytes were looked at. *)
Definition refines_eof (f : Failure) : bool :=
  match f with
  | Failure.Protocol (Error.Truncated _ | Error.Unparsed _) | Failure.ResponseFrameCapacity _ => true
  | _ => false
  end.

Definition is_remote (f : Failure) : bool :=
  match f with Failure.Closed Close.Remote => true | _ => false end.

(** ** One failure per connection *)

(** [Failures]: the lanes, and the lowest occupied one. A pointer into the fixed
    allocation is its index: payloads lie in the order of the lanes. *)
Record Failures := { fail_lanes : list (option Failure); fail_first : option nat }.

Definition failures_new (n : nat) : Failures := {| fail_lanes := replicate n None; fail_first := None |}.

(** [position.entry_mut]: the position lies in the domain the lanes are sized for. *)
Definition fail_at (s : Failures) (i : nat) : option Failure := fail_lanes s !! i ≫= id.

(** The first occupied lane from [i] on: [iter_mut().skip(i).find_map(..)]. *)
Fixpoint occupied_from (i : nat) (l : list (option Failure)) : option nat :=
  match l with
  | [] => None
  | o :: l => match o with Some _ => Some i | None => occupied_from (S i) l end
  end.

(** [Failures::cause]. *)
Definition failures_cause (s : Failures) : option Failure := fail_first s ≫= fail_at s.

(** [Failures::clear]. *)
Definition failures_clear (s : Failures) (i : nat) : Failures * option Failure :=
  let first := bool_decide (is_Some (fail_first s)) && bool_decide (fail_first s = ((fun _ => i) <$> fail_at s i)) in
  let cached := if first then None else fail_first s in
  let previous := fail_at s i in
  let l := <[i := None]> (fail_lanes s) in
  ({| fail_lanes := l;
      fail_first := if first then occupied_from (S i) (drop (S i) l) else cached |}, previous).

(** [Failures::record]. *)
Definition failures_record (s : Failures) (i : nat) (failure : Failure) : Failures * option Failure :=
  ({| fail_lanes := <[i := Some failure]> (fail_lanes s);
      fail_first := Some (match fail_first s with
                          | Some first => if (first <? i)%nat then first else i
                          | None => i
                          end) |}, fail_at s i).

(** ** The activity *)

Record Activity := { failures : Failures; terminal : option (Stop.Stop X) }.

(** [Activity::clear_fatal], [record_fatal], [record_stop] and [fatal_cause]. *)
Definition clear_fatal (a : Activity) (i : nat) : Activity :=
  {| failures := (failures_clear (failures a) i).1; terminal := terminal a |}.

Definition record_fatal (a : Activity) (i : nat) (f : Failure) : Activity :=
  {| failures := (failures_record (failures a) i f).1; terminal := terminal a |}.

Definition record_stop {T} (a : Activity) (stop : Stop.Stop X) : Activity * list (Notice T) :=
  ({| failures := failures a;
      terminal := match terminal a with Some old => Some old | None => Some stop end |}, wake_all).

Definition stop_error (stop : Stop.Stop X) : Error :=
  match stop with
  | Stop.Closed reason => into_error (from_close reason)
  | Stop.ParserWait cause => ClientError.ParserWait cause
  | Stop.Exhausted key cause => ClientError.ConnectionExhausted key cause
  end.

Definition fatal_cause (share : list Z -> result X (list Z)) (a : Activity) : option Error :=
  match failures_cause (failures a) with
  | Some f => Some (into_error (failure_copy share f))
  | None => stop_error <$> terminal a
  end.

(** ** The cache is exact *)

Inductive FailuresOp := Cleared (i : nat) | Recorded (i : nat) (f : Failure).

Definition failures_step (s : Failures) (op : FailuresOp) : Failures :=
  match op with Cleared i => (failures_clear s i).1 | Recorded i f => (failures_record s i f).1 end.

Definition op_index (op : FailuresOp) : nat := match op with Cleared i | Recorded i _ => i end.

(** What a connection last failed with since it was cleared. *)
Fixpoint last_failure (i : nat) (ops : list FailuresOp) (acc : option Failure) : option Failure :=
  match ops with
  | [] => acc
  | op :: ops => last_failure i ops
      (if (op_index op =? i)%nat then match op with Cleared _ => None | Recorded _ f => Some f end else acc)
  end.

(** [first] is the lowest occupied lane. *)
Definition lowest (s : Failures) : Prop := fail_first s = occupied_from 0 (fail_lanes s).

Lemma occupied_Some k l i :
  occupied_from k l = Some i <->
  (k <= i)%nat /\ is_Some (l !! (i - k)%nat ≫= id) /\ forall j, (k <= j < i)%nat -> l !! (j - k)%nat ≫= id = None.
Proof.
  revert k. induction l as [|[f|] l IH]; intros k; simpl.
  - split; [done|]. intros (_ & [x Hx] & _). done.
  - split.
    + intros [= <-]. rewrite Nat.sub_diag. split_and!; [lia|by eexists|lia].
    + intros (Hk & _ & Hj). destruct (decide (i = k)) as [->|]; [done|].
      specialize (Hj k ltac:(lia)). by rewrite Nat.sub_diag in Hj.
  - rewrite IH. split; intros (Hk & Hs & Hj).
    + replace (i - k)%nat with (S (i - S k)) by lia. split_and!; [lia|done|].
      intros j Hjk. destruct (decide (j = k)) as [->|]; [by rewrite Nat.sub_diag|].
      replace (j - k)%nat with (S (j - S k)) by lia. apply Hj. lia.
    + destruct (decide (i = k)) as [->|]; [rewrite Nat.sub_diag in Hs; by destruct Hs|].
      replace (i - k)%nat with (S (i - S k)) in Hs by lia. split_and!; [lia|done|].
      intros j Hjk. specialize (Hj j ltac:(lia)). by replace (j - k)%nat with (S (j - S k)) in Hj by lia.
Qed.

Lemma occupied_None k l : occupied_from k l = None <-> forall j, l !! j ≫= id = None.
Proof.
  revert k. induction l as [|[f|] l IH]; intros k; simpl.
  - split; [by intros _ j|done].
  - split; [done|]. intros H. by specialize (H 0%nat).
  - rewrite IH. split; intros H j; [destruct j as [|j]; [done|apply H]|apply (H (S j))].
Qed.

(** Past an empty prefix, and past a lane emptied where the first one was. *)
Lemma occupied_skip l i :
  (i < length l)%nat -> (forall j, (j < i)%nat -> l !! j ≫= id = None) -> l !! i ≫= id = None ->
  occupied_from 0 l = occupied_from (S i) (drop (S i) l).
Proof.
  intros Hi Hb Hn. destruct (occupied_from (S i) (drop (S i) l)) as [n|] eqn:E.
  - apply occupied_Some in E as (Hk & Hs & Hj). apply occupied_Some. rewrite Nat.sub_0_r.
    rewrite lookup_drop in Hs. replace (S i + (n - S i))%nat with n in Hs by lia. split_and!; [lia|done|].
    intros j Hjn. rewrite Nat.sub_0_r. destruct (decide (j < i)%nat); [by apply Hb|].
    destruct (decide (j = i)) as [->|]; [done|]. specialize (Hj j ltac:(lia)).
    rewrite lookup_drop in Hj. by replace (S i + (j - S i))%nat with j in Hj by lia.
  - rewrite occupied_None in E |- *. intros j. destruct (decide (j < i)%nat); [by apply Hb|].
    destruct (decide (j = i)) as [->|]; [done|]. specialize (E (j - S i)%nat).
    rewrite lookup_drop in E. by replace (S i + (j - S i))%nat with j in E by lia.
Qed.

Lemma fail_insert (l : list (option Failure)) i j o :
  (i < length l)%nat -> <[i := o]> l !! j ≫= id = if (i =? j)%nat then o else l !! j ≫= id.
Proof.
  intros Hi. destruct (Nat.eqb_spec i j) as [->|]; [by rewrite list_lookup_insert_eq|by rewrite list_lookup_insert_ne].
Qed.

Lemma clear_lowest s i : (i < length (fail_lanes s))%nat -> lowest s -> lowest (failures_clear s i).1.
Proof.
  unfold lowest, failures_clear, fail_at. intros Hi Hl. cbn. rewrite Hl.
  destruct (occupied_from 0 (fail_lanes s)) as [n|] eqn:E; cbn.
  2:{ symmetry. rewrite occupied_None in E |- *. intros j. rewrite fail_insert by done.
      destruct (i =? j)%nat; [done|apply E]. }
  apply occupied_Some in E as (_ & [f Hs] & Hj). rewrite Nat.sub_0_r in Hs.
  case_bool_decide as Hc.
  - symmetry in Hc. apply fmap_Some in Hc as (g & _ & ->). symmetry. apply occupied_skip.
    + by rewrite length_insert.
    + intros j Hji. rewrite fail_insert by done. destruct (Nat.eqb_spec i j); [done|].
      specialize (Hj j ltac:(lia)). by rewrite Nat.sub_0_r in Hj.
    + by rewrite fail_insert, Nat.eqb_refl.
  - symmetry. apply occupied_Some. rewrite Nat.sub_0_r, fail_insert by done. split; [lia|].
    destruct (Nat.eqb_spec i n) as [->|Hne]; [destruct Hc; by rewrite Hs|].
    split; [by rewrite Hs|]. intros j Hjn. rewrite Nat.sub_0_r, fail_insert by done.
    destruct (i =? j)%nat; [done|]. specialize (Hj j Hjn). by rewrite Nat.sub_0_r in Hj.
Qed.

Lemma record_lowest s i f : (i < length (fail_lanes s))%nat -> lowest s -> lowest (failures_record s i f).1.
Proof.
  unfold lowest, failures_record. intros Hi Hl. cbn [fst fail_first fail_lanes]. rewrite Hl. symmetry. apply occupied_Some.
  rewrite Nat.sub_0_r. split; [lia|]. rewrite fail_insert by done.
  destruct (occupied_from 0 (fail_lanes s)) as [n|] eqn:E.
  - apply occupied_Some in E as (_ & Hs & Hj). rewrite Nat.sub_0_r in Hs. destruct (Nat.ltb_spec n i).
    + destruct (Nat.eqb_spec i n); [lia|]. split; [done|]. intros j Hjn. rewrite Nat.sub_0_r, fail_insert by done.
      destruct (Nat.eqb_spec i j); [lia|]. specialize (Hj j Hjn). by rewrite Nat.sub_0_r in Hj.
    + rewrite Nat.eqb_refl. split; [by eexists|]. intros j Hjn. rewrite Nat.sub_0_r, fail_insert by done.
      destruct (Nat.eqb_spec i j); [lia|]. specialize (Hj j ltac:(lia)). by rewrite Nat.sub_0_r in Hj.
  - rewrite Nat.eqb_refl. split; [by eexists|]. rewrite occupied_None in E. intros j Hji.
    rewrite Nat.sub_0_r, fail_insert by done. destruct (Nat.eqb_spec i j); [lia|apply E].
Qed.

(** After any clears and records of positions of the domain, every lane holds the
    last failure of its connection, and the cause is that of the lowest connection
    with one: none exactly when every connection was cleared. *)
Lemma failures_exact n ops :
  Forall (fun op => (op_index op < n)%nat) ops ->
  let s := foldl failures_step (failures_new n) ops in
  (forall i, (i < n)%nat -> fail_at s i = last_failure i ops None) /\
  match failures_cause s with
  | Some f => exists i, (i < n)%nat /\ last_failure i ops None = Some f /\
      forall j, (j < i)%nat -> last_failure j ops None = None
  | None => forall i, (i < n)%nat -> last_failure i ops None = None
  end.
Proof.
  intros Hops.
  assert (forall ops s, Forall (fun op => (op_index op < n)%nat) ops -> length (fail_lanes s) = n -> lowest s ->
    let s' := foldl failures_step s ops in
    length (fail_lanes s') = n /\ lowest s' /\ forall i, fail_at s' i = last_failure i ops (fail_at s i)) as Hrun.
  { clear ops Hops. induction ops as [|op ops IH]; intros s Hops Hn Hl; [done|].
    apply Forall_cons in Hops as [Hop Hops]. cbn -[failures_step].
    destruct (IH (failures_step s op) Hops) as (Hn' & Hl' & Hat).
    - destruct op; cbn; by rewrite length_insert.
    - destruct op; cbn in Hop |- *; [apply clear_lowest|apply record_lowest]; congruence || done.
    - split_and!; [done|done|]. intros i. rewrite Hat. f_equal.
      destruct op as [k|k f]; cbn in Hop |- *; unfold fail_at; cbn; rewrite fail_insert by lia; done. }
  destruct (Hrun ops (failures_new n) Hops) as (Hn & Hl & Hat).
  { apply length_replicate. }
  { unfold lowest. cbn. symmetry. apply occupied_None. intros j.
    destruct (replicate n None !! j) as [o|] eqn:E; [|done]. by apply lookup_replicate in E as [-> _]. }
  assert (forall i, fail_at (foldl failures_step (failures_new n) ops) i = last_failure i ops None) as Hat'.
  { intros i. rewrite Hat. f_equal. unfold fail_at. cbn.
    destruct (replicate n None !! i) as [o|] eqn:E; [|done]. by apply lookup_replicate in E as [-> _]. }
  cbn. split; [by intros i _|]. set (s := foldl _ _ _) in *. unfold failures_cause. rewrite Hl.
  destruct (occupied_from 0 (fail_lanes s)) as [i|] eqn:E; cbn.
  - apply occupied_Some in E as (_ & [f Hf] & Hj). rewrite Nat.sub_0_r in Hf. fold (fail_at s i) in Hf. rewrite Hf.
    exists i. rewrite <- Hat'. split_and!; [|done|].
    + unfold fail_at in Hf. destruct (fail_lanes s !! i) eqn:Ei; [|done]. apply lookup_lt_Some in Ei. lia.
    + intros j Hji. rewrite <- Hat'. specialize (Hj j ltac:(lia)). by rewrite Nat.sub_0_r in Hj.
  - rewrite occupied_None in E. intros i _. rewrite <- Hat'. apply E.
Qed.
End failure.
Arguments Failures X : clear implicits.
Arguments Activity X : clear implicits.
