(* ===== verification/RespRoutes.v ===== *)
(** * Routes of the Redis pool

    Models [redis/src/port/schedule/routes]: the slots of the connections with their
    phases ([conn.rs]), the handles of a slot ([slot.rs]), and the routes with their
    turn and their count of live connections ([mod.rs]). The slots are those of an
    indexed FIFO with two links ([o3::depot::queue::indexed::shared::Fifo]), an
    interface here: a slot is on each link at most once, with a position. Link [Idle]
    is [0], of connections free for a lease; [Returned] is [1], of those whose lease
    ended. *)
From S2P Require Import Prelude RespFailure.

Module Link.
Inductive Link := Idle | Returned.
End Link.

#[global] Instance Link_eq_dec : EqDecision Link.Link.
Proof. solve_decision. Defined.

(** ** The indexed FIFO *)

Class Depot (W P C : Type) := {
  depot_capacity : W -> nat;
  depot_get : W -> nat -> option C;
  depot_set : W -> nat -> C -> W;
  depot_linked : W -> Link.Link -> nat -> option P;
  depot_push : W -> Link.Link -> nat -> P -> W;
  depot_clear : W -> Link.Link -> nat -> W;
  depot_next : W -> Link.Link -> option (nat * P * W);
  depot_front : W -> Link.Link -> option P }.

(** Each link is a queue of slots; a push of a slot that is not linked puts it last. *)
Class DepotLaws (W P C : Type) `{Depot W P C} := {
  depot_queue : W -> Link.Link -> list (nat * P);
  get_law : forall w i, is_Some (depot_get w i) <-> (i < depot_capacity w)%nat;
  linked_law : forall w k i p, depot_linked w k i = Some p <-> (i, p) ∈ depot_queue w k;
  queue_nodup : forall w k, NoDup (depot_queue w k).*1;
  queue_slots : forall w k i p, (i, p) ∈ depot_queue w k -> (i < depot_capacity w)%nat;
  set_get : forall w i c j, (i < depot_capacity w)%nat ->
    depot_get (depot_set w i c) j = if decide (j = i) then Some c else depot_get w j;
  set_queue : forall w i c k, depot_queue (depot_set w i c) k = depot_queue w k;
  set_capacity : forall w i c, depot_capacity (depot_set w i c) = depot_capacity w;
  push_queue : forall w k i p k', (i < depot_capacity w)%nat -> depot_linked w k i = None ->
    depot_queue (depot_push w k i p) k' = if decide (k' = k) then depot_queue w k ++ [(i, p)] else depot_queue w k';
  push_linked : forall w k i p k' j, (i < depot_capacity w)%nat ->
    depot_linked (depot_push w k i p) k' j = if decide (k' = k /\ j = i) then Some p else depot_linked w k' j;
  push_get : forall w k i p j, depot_get (depot_push w k i p) j = depot_get w j;
  push_capacity : forall w k i p, depot_capacity (depot_push w k i p) = depot_capacity w;
  clear_linked : forall w k i k' j,
    depot_linked (depot_clear w k i) k' j = if decide (k' = k /\ j = i) then None else depot_linked w k' j;
  clear_get : forall w k i j, depot_get (depot_clear w k i) j = depot_get w j;
  clear_capacity : forall w k i, depot_capacity (depot_clear w k i) = depot_capacity w;
  next_law : forall w k,
    match depot_queue w k with
    | [] => depot_next w k = None
    | (i, p) :: q => exists w', depot_next w k = Some (i, p, w') /\
        (forall k', depot_queue w' k' = if decide (k' = k) then q else depot_queue w k') /\
        (forall j, depot_get w' j = depot_get w j) /\ depot_capacity w' = depot_capacity w
    end;
  front_law : forall w k, depot_front w k = snd <$> head (depot_queue w k) }.

(** A connection of the reactor knows its slot; a position names one connection of the
    domain of the reply lanes. *)
Class Identity (I P : Type) := {
  index : I -> nat;
  connection : P -> I;
  position_of : I -> option P }.

(** A cutoff marks an order of a reply lane, or none. *)
Class Cutoffs (Cu : Type) := { cutoff_empty : Cu; cutoff_is_empty : Cu -> bool }.

(** ** The phases of a connection *)

Record Bound (P T : Type) := { bound_position : P; ready : T }.
Arguments bound_position {P T}.
Arguments ready {P T}.

Record Closing (P T F : Type) := { closing_bound : Bound P T; failure : F }.
Arguments closing_bound {P T F}.
Arguments failure {P T F}.

Module State.
Inductive State {P T F Cu : Type} :=
| Vacant
| Initializing (bound : Bound P T)
| Shared (bound : Bound P T) (frontier : Cu * Cu)
| Exclusive (bound : Bound P T) (frontier : Cu * Cu)
| Closing (closing : Closing P T F)
| Reconnecting (closing : Closing P T F).
Arguments State : clear implicits.
End State.

Module Access.
Inductive Access := Shared | Exclusive.
End Access.

#[global] Instance Access_eq_dec : EqDecision Access.Access.
Proof. solve_decision. Defined.

Section conn.
Context {X I P T Cu : Type} `{EqDecision I, !Identity I P, !Cutoffs Cu}.
Notation F := (Failure.Failure X).
Notation State := (State.State P T F Cu).

(** [State::bound]. *)
Definition bound (s : State) : option (Bound P T) :=
  match s with
  | State.Vacant => None
  | State.Initializing b | State.Shared b _ | State.Exclusive b _ => Some b
  | State.Closing c | State.Reconnecting c => Some (closing_bound c)
  end.

Definition is_token (b : Bound P T) (token : I) : bool := bool_decide (connection (bound_position b) = token).

(** [Conn::wake]: the target it wakes. *)
Definition conn_wake (s : State) : option T := ready <$> bound s.

(** [Conn::target]. *)
Definition conn_target (s : State) (token : I) : option T :=
  b ← bound s; if is_token b token then Some (ready b) else None.

(** [Conn::bound]: the position, and the frontier of a live connection. *)
Definition conn_bound (s : State) (token : I) : option (P * option (Cu * Cu)) :=
  r ← match s with
      | State.Vacant => None
      | State.Shared b frontier | State.Exclusive b frontier => Some (b, Some frontier)
      | State.Initializing b => Some (b, None)
      | State.Closing c | State.Reconnecting c => Some (closing_bound c, None)
      end;
  if is_token r.1 token then Some (bound_position r.1, r.2) else None.

(** [Conn::bind]: whether the slot was vacant. *)
Definition conn_bind (s : State) (p : P) (target : T) : State * bool :=
  match s with
  | State.Vacant => (State.Initializing {| bound_position := p; ready := target |}, true)
  | _ => (s, false)
  end.

(** [Conn::mark_ready]. *)
Definition conn_mark_ready (s : State) (token : I) : State * option P :=
  match s with
  | State.Initializing b =>
      if is_token b token then (State.Shared b (cutoff_empty, cutoff_empty), Some (bound_position b)) else (s, None)
  | _ => (s, None)
  end.

(** [Conn::access]. *)
Definition conn_access (s : State) : option (P * Access.Access) :=
  match s with
  | State.Shared b _ => Some (bound_position b, Access.Shared)
  | State.Exclusive b _ => Some (bound_position b, Access.Exclusive)
  | _ => None
  end.

(** [Conn::with_frontier]. *)
Definition with_frontier {R} (s : State) (token : I) (apply : P -> Access.Access -> Cu * Cu -> (Cu * Cu) * R)
    : State * option R :=
  match s with
  | State.Shared b frontier =>
      if is_token b token
      then let (frontier, r) := apply (bound_position b) Access.Shared frontier in (State.Shared b frontier, Some r)
      else (s, None)
  | State.Exclusive b frontier =>
      if is_token b token
      then let (frontier, r) := apply (bound_position b) Access.Exclusive frontier in (State.Exclusive b frontier, Some r)
      else (s, None)
  | _ => (s, None)
  end.

(** [Conn::acquire]: whether it was acquired. *)
Definition conn_acquire (s : State) (token : I) : State * bool :=
  match s with
  | State.Shared b frontier => if is_token b token then (State.Exclusive b frontier, true) else (s, false)
  | _ => (s, false)
  end.

(** [Conn::release]: whether the lease was of this generation. *)
Definition conn_release (s : State) (token : I) : State * bool :=
  match s with
  | State.Exclusive b frontier => if is_token b token then (State.Shared b frontier, true) else (s, false)
  | _ => (s, false)
  end.

(** [Conn::failure]: a copy of what it closes with. *)
Definition conn_failure (share : list Z -> result X (list Z)) (s : State) (token : I) : option (P * F) :=
  match s with
  | State.Closing c | State.Reconnecting c =>
      if is_token (closing_bound c) token
      then Some (bound_position (closing_bound c), failure_copy share (failure c)) else None
  | _ => None
  end.

(** [Conn::retry_reason]. *)
Definition conn_retry_reason (of_hold : X -> Close.Reason X) (s : State) (token : I) : option (Close.Reason X) :=
  match s with
  | State.Reconnecting c =>
      if is_token (closing_bound c) token then Some (close_reason of_hold (failure c)) else None
  | _ => None
  end.

(** The transition of [Routes::fail]: the position and whether a live connection was
    lost; a truncated stream refines the end the server announced. *)
Definition conn_fail (s : State) (token : I) (fail : F) : State * option (P * bool) :=
  match s with
  | State.Closing c =>
      if is_token (closing_bound c) token && is_remote (failure c) && refines_eof fail
      then (State.Closing {| closing_bound := closing_bound c; failure := fail |},
            Some (bound_position (closing_bound c), false))
      else (s, None)
  | State.Initializing b =>
      if is_token b token
      then (State.Closing {| closing_bound := b; failure := fail |}, Some (bound_position b, false)) else (s, None)
  | State.Shared b _ | State.Exclusive b _ =>
      if is_token b token
      then (State.Closing {| closing_bound := b; failure := fail |}, Some (bound_position b, true)) else (s, None)
  | _ => (s, None)
  end.

(** The transition of [Routes::reconnect]. *)
Definition conn_reconnect (s : State) (token : I) (fail : F) : State * option P :=
  match s with
  | State.Shared b _ | State.Exclusive b _ =>
      if is_token b token
      then (State.Reconnecting {| closing_bound := b; failure := fail |}, Some (bound_position b)) else (s, None)
  | _ => (s, None)
  end.

(** Whether a connection counts as live. *)
Definition is_live (s : State) : bool :=
  match s with State.Shared _ _ | State.Exclusive _ _ => true | _ => false end.
End conn.

(** ** The routes *)

Record Routes (W : Type) := { conns : W; next : nat; active : Z }.
Arguments conns {W}.
Arguments next {W}.
Arguments active {W}.

(** [slot::Bound]: a slot with the position it was bound to. *)
Record Handle (P : Type) := { slot : nat; at_position : P }.
Arguments slot {P}.
Arguments at_position {P}.

Section routes.
Context {X I P T Cu W : Type} `{EqDecision I, !Identity I P, !Cutoffs Cu, !Depot W P (State.State P T (Failure.Failure X) Cu)}.
Notation F := (Failure.Failure X).
Notation State := (State.State P T F Cu).
Notation Routes := (Routes W).
Notation Handle := (Handle P).

Definition with_conns (r : Routes) (w : W) : Routes := {| conns := w; next := next r; active := active r |}.

Definition with_active (r : Routes) (n : Z) : Routes := {| conns := conns r; next := next r; active := n |}.

(** [Routes::try_new] over the slots of the connections, all vacant. *)
Definition routes_new (w : W) : Routes := {| conns := w; next := 0; active := 0 |}.

Definition handle_connection (h : Handle) : I := connection (at_position h).

(** [Routes::get] and a transition of the phase of a slot. *)
Definition get_state (r : Routes) (i : nat) : option State := depot_get (conns r) i.

Definition set_state (r : Routes) (i : nat) (s : State) : Routes := with_conns r (depot_set (conns r) i s).

(** [Slot::schedule]: unless it is linked for the same connection. *)
Definition schedule (r : Routes) (k : Link.Link) (i : nat) (target : P) : Routes :=
  if bool_decide (connection <$> depot_linked (conns r) k i = Some (connection target)) then r
  else with_conns r (depot_push (conns r) k i target).

(** [Slot::unlink]: if it is linked for this connection. *)
Definition unlink (r : Routes) (k : Link.Link) (i : nat) (target : I) : Routes :=
  if bool_decide (connection <$> depot_linked (conns r) k i = Some target)
  then with_conns r (depot_clear (conns r) k i) else r.

(** [Routes::target] and [Routes::len]. *)
Definition route_target (r : Routes) (token : I) : option T := s ← get_state r (index token); conn_target s token.

Definition routes_len (r : Routes) : nat := depot_capacity (conns r).

(** [Routes::next]: the slots in turn. *)
Definition routes_next (r : Routes) : option (nat * Routes) :=
  let i := next r in
  _ ← get_state r i;
  Some (i, {| conns := conns r; next := if (S i =? routes_len r)%nat then O else S i; active := active r |}).

(** [Routes::pop] and [Routes::front]. *)
Definition routes_pop (r : Routes) (k : Link.Link) : option (Handle * Routes) :=
  n ← depot_next (conns r) k;
  let '(i, p, w) := n in Some ({| slot := i; at_position := p |}, with_conns r w).

Definition routes_front (r : Routes) (k : Link.Link) : option I := connection <$> depot_front (conns r) k.

(** [Routes::is_active]. *)
Definition is_active (r : Routes) : bool := negb (active r =? 0).

(** [Routes::mark_ready]. *)
Definition routes_mark_ready (r : Routes) (token : I) : Routes * option Handle :=
  match get_state r (index token) with
  | None => (r, None)
  | Some s =>
      match conn_mark_ready s token with
      | (_, None) => (r, None)
      | (s, Some p) =>
          let r := set_state r (index token) s in
          (with_active r (as_u64 (active r + 1)), Some {| slot := index token; at_position := p |})
      end
  end.

(** [Routes::fail]. *)
Definition routes_fail (r : Routes) (token : I) (fail : F) : Routes * option Handle :=
  match get_state r (index token) with
  | None => (r, None)
  | Some s =>
      match conn_fail s token fail with
      | (_, None) => (r, None)
      | (s, Some (p, live)) =>
          let r := set_state r (index token) s in
          (if live : bool then with_active r (as_u64 (active r - 1)) else r,
           Some {| slot := index token; at_position := p |})
      end
  end.

(** [Routes::reconnect], and the target it wakes. *)
Definition routes_reconnect (r : Routes) (token : I) (fail : F) : Routes * option (Handle * option T) :=
  match get_state r (index token) with
  | None => (r, None)
  | Some s =>
      match conn_reconnect s token fail with
      | (_, None) => (r, None)
      | (s, Some p) =>
          let r := set_state r (index token) s in
          (with_active r (as_u64 (active r - 1)),
           Some ({| slot := index token; at_position := p |}, conn_wake s))
      end
  end.

(** [Routes::retire]: the proof of the reactor names the slot. *)
Definition retire (r : Routes) (token : I) : Routes := set_state r (index token) State.Vacant.

(** [Routes::bound], [Routes::exclusive] and [Routes::failure]. *)
Definition routes_bound (r : Routes) (token : I) : option (Handle * option (Cu * Cu)) :=
  s ← get_state r (index token);
  b ← conn_bound s token;
  Some ({| slot := index token; at_position := b.1 |}, b.2).

Definition exclusive (r : Routes) (token : I) : option Handle :=
  s ← get_state r (index token);
  a ← conn_access s;
  if bool_decide (connection a.1 = token /\ a.2 = Access.Exclusive)
  then Some {| slot := index token; at_position := a.1 |} else None.

Definition routes_failure (share : list Z -> result X (list Z)) (r : Routes) (token : I) : option (Handle * F) :=
  s ← get_state r (index token);
  f ← conn_failure share s token;
  Some ({| slot := index token; at_position := f.1 |}, f.2).
End routes.

(** ** What the operations change *)

(** A position names the connection it was made for. *)
Class IdentityLaws (I P : Type) `{Identity I P} : Prop :=
  position_law : forall t p, position_of t = Some p -> connection p = t.

Section views.
Context {X I P T Cu W : Type} `{EqDecision I, !Identity I P, !Depot W P (State.State P T (Failure.Failure X) Cu)}.
Context `{!DepotLaws W P (State.State P T (Failure.Failure X) Cu)}.
Implicit Types r : Routes W.

(** The connection a slot is linked for. *)
Definition link_token r (k : Link.Link) (i : nat) : option I := connection <$> depot_linked (conns r) k i.

Lemma get_capacity r i s : get_state r i = Some s -> (i < routes_len r)%nat.
Proof. intros H. apply get_law. by exists s. Qed.

Lemma get_set r i s j : (i < routes_len r)%nat -> get_state (set_state r i s) j = if decide (j = i) then Some s else get_state r j.
Proof. apply set_get. Qed.

Lemma get_schedule r k i p j : get_state (schedule r k i p) j = get_state r j.
Proof. unfold schedule. case_bool_decide; [done|apply push_get]. Qed.

Lemma get_unlink r k i t j : get_state (unlink r k i t) j = get_state r j.
Proof. unfold unlink. case_bool_decide; [apply clear_get|done]. Qed.

Lemma len_set r i s : routes_len (set_state r i s) = routes_len r.
Proof. apply set_capacity. Qed.

Lemma len_schedule r k i p : routes_len (schedule r k i p) = routes_len r.
Proof. unfold schedule. case_bool_decide; [done|apply push_capacity]. Qed.

Lemma len_unlink r k i t : routes_len (unlink r k i t) = routes_len r.
Proof. unfold unlink. case_bool_decide; [apply clear_capacity|done]. Qed.

Lemma get_active r n j : get_state (with_active r n) j = get_state r j.
Proof. done. Qed.

Lemma token_active r n k j : link_token (with_active r n) k j = link_token r k j.
Proof. done. Qed.

Lemma len_active r n : routes_len (with_active r n) = routes_len r.
Proof. done. Qed.

Lemma linked_ext (w w' : W) k k' i :
  depot_queue w' k' = depot_queue w k -> depot_linked w' k' i = depot_linked w k i.
Proof.
  intros E. destruct (depot_linked w k i) as [p|] eqn:Hp.
  - apply linked_law. rewrite E. by apply linked_law.
  - destruct (depot_linked w' k' i) as [p|] eqn:Hp'; [|done]. apply linked_law in Hp'. rewrite E in Hp'.
    apply linked_law in Hp'. congruence.
Qed.

Lemma token_set r i s k j : link_token (set_state r i s) k j = link_token r k j.
Proof. unfold link_token. f_equal. apply linked_ext, set_queue. Qed.

Lemma token_schedule r k i p k' j : (i < routes_len r)%nat ->
  link_token (schedule r k i p) k' j = if decide (k' = k /\ j = i) then Some (connection p) else link_token r k' j.
Proof.
  intros Hi. unfold schedule, link_token. case_bool_decide as H.
  - by destruct (decide _) as [[-> ->]|].
  - cbn. rewrite push_linked by done. by destruct (decide _).
Qed.

Lemma token_unlink r k i t k' j :
  link_token (unlink r k i t) k' j =
    if decide (k' = k /\ j = i /\ link_token r k i = Some t) then None else link_token r k' j.
Proof.
  unfold unlink, link_token. case_bool_decide as H.
  - cbn. rewrite clear_linked. destruct (decide _) as [[-> ->]|Hn].
    + by rewrite decide_True.
    + rewrite decide_False; [done|]. tauto.
  - rewrite decide_False; [done|tauto].
Qed.

(** Taking the first slot of a link. *)
Lemma pop_spec r k :
  match depot_queue (conns r) k with
  | [] => routes_pop r k = None /\ forall i, link_token r k i = None
  | (i, p) :: q => exists r', routes_pop r k = Some ({| slot := i; at_position := p |}, r') /\
      next r' = next r /\ active r' = active r /\ routes_len r' = routes_len r /\
      (forall j, get_state r' j = get_state r j) /\ link_token r k i = Some (connection p) /\
      (i < routes_len r)%nat /\ (forall k', depot_queue (conns r') k' = if decide (k' = k) then q else depot_queue (conns r) k') /\
      forall k' j, link_token r' k' j = if decide (k' = k /\ j = i) then None else link_token r k' j
  end.
Proof.
  pose proof (next_law (conns r) k) as Hn. pose proof (queue_nodup (conns r) k) as Hd.
  pose proof (queue_slots (conns r) k) as Hs. pose proof (linked_law (conns r) k) as Hl.
  destruct (depot_queue (conns r) k) as [|[i p] q] eqn:E.
  - unfold routes_pop, link_token. rewrite Hn. split; [done|]. intros i.
    destruct (depot_linked (conns r) k i) as [p|] eqn:Hp; [|done]. apply Hl in Hp. by apply elem_of_nil in Hp.
  - destruct Hn as (w & Hn & Hq & Hg & Hc). exists (with_conns r w). unfold routes_pop. rewrite Hn. cbn.
    apply NoDup_cons in Hd as [Hni Hd]. assert ((i, p) ∈ (i, p) :: q) as Hin by left.
    split_and!; try done; [unfold link_token; by rewrite (proj2 (Hl i p))|by eapply Hs|].
    intros k' j. unfold link_token. destruct (decide (k' = k)) as [->|Hk].
    + specialize (Hq k). rewrite decide_True in Hq by done. destruct (decide (_ /\ j = i)) as [[_ ->]|Hj].
      * cbn. destruct (depot_linked w k i) as [p'|] eqn:Hp; [|done]. apply linked_law in Hp. rewrite Hq in Hp.
        destruct Hni. by apply (list_elem_of_fmap_2 fst) in Hp.
      * f_equal. cbn. destruct (depot_linked (conns r) k j) as [p'|] eqn:Hp.
        -- apply linked_law. rewrite Hq. apply Hl in Hp. apply elem_of_cons in Hp as [[= -> ->]|]; [tauto|done].
        -- destruct (depot_linked w k j) as [p'|] eqn:Hp'; [|done]. apply linked_law in Hp'. rewrite Hq in Hp'.
           rewrite (proj2 (Hl j p')) in Hp by (by right). done.
    + rewrite (decide_False (P := k' = k /\ j = i)) by tauto. f_equal. apply linked_ext. cbn. rewrite Hq, decide_False; done.
Qed.

Lemma front_token r k : routes_front r k = (fun e => connection e.2) <$> head (depot_queue (conns r) k).
Proof. unfold routes_front. rewrite front_law. by destruct (head _). Qed.

Lemma queue_token r k i p : (i, p) ∈ depot_queue (conns r) k -> link_token r k i = Some (connection p).
Proof. intros H. unfold link_token. by rewrite (proj2 (linked_law _ _ _ _) H). Qed.

Lemma token_queue r k i t : link_token r k i = Some t -> exists p, (i, p) ∈ depot_queue (conns r) k /\ connection p = t.
Proof. unfold link_token. intros (p & Hp & ->)%fmap_Some. exists p. by split; [apply linked_law|]. Qed.

(** A slot put on a link it is not on, or is on for the same connection. *)
Lemma queue_schedule r k i p k' : (i < routes_len r)%nat -> default (connection p) (link_token r k i) = connection p ->
  depot_queue (conns (schedule r k i p)) k' =
    if decide (k' = k /\ link_token r k i = None) then depot_queue (conns r) k ++ [(i, p)] else depot_queue (conns r) k'.
Proof.
  intros Hi Hd. unfold schedule. fold (link_token r k i). destruct (link_token r k i) as [t|] eqn:E; cbn in Hd.
  - subst t. rewrite bool_decide_true by done. rewrite decide_False; [done|]. by intros [_ ?].
  - rewrite bool_decide_false by done. cbn. unfold link_token in E. apply fmap_None in E.
    rewrite push_queue by done. destruct (decide (k' = k)) as [->|].
    + by rewrite decide_True.
    + rewrite decide_False; [done|tauto].
Qed.

Lemma active_schedule r k i p : active (schedule r k i p) = active r.
Proof. unfold schedule. by case_bool_decide. Qed.

Lemma active_unlink r k i t : active (unlink r k i t) = active r.
Proof. unfold unlink. by case_bool_decide. Qed.

Lemma next_schedule r k i p : next (schedule r k i p) = next r.
Proof. unfold schedule. by case_bool_decide. Qed.

Lemma next_unlink r k i t : next (unlink r k i t) = next r.
Proof. unfold unlink. by case_bool_decide. Qed.
End views.

Create Rewrite HintDb cartel_routes.
#[export] Hint Rewrite @get_active @token_active @len_active @get_schedule @get_unlink @len_set @len_schedule @len_unlink
  @token_set @token_unlink @active_schedule @active_unlink using typeclasses eauto : cartel_routes.

(** Reads the phase or the links of a slot through the operations. *)
Ltac routes_simpl :=
  repeat (autorewrite with cartel_routes in *;
    first [rewrite get_set by (autorewrite with cartel_routes; done)
          |rewrite token_schedule by (autorewrite with cartel_routes; done)|fail 1]).
