(* ===== verification/RespSchedule.v ===== *)
(** * The scheduler of Redis connections

    Models [redis/src/port/schedule]: sharing the connections of a pool between
    requests that may go anywhere and leases that own one connection
    ([schedule/mod.rs], [plan.rs], [lease.rs]), over the routes of [RespRoutes], the
    request queues of [CoreQueue] and the reply lanes of the fiber library, an
    interface here. *)
From S2P Require Import Prelude CoreQueue RespFailure RespRoutes.

(** ** Reply lanes *)

Module Registration.
Inductive Registration := Available | Full | IdentityExhausted.
End Registration.

Module InsertError.
Inductive Error {X Fr : Type} :=
| Front (value : Fr) (front : Front.Front X)
| Backpressure (value : Fr)
| Capacity (value : Fr) (cause : X).
Arguments Error : clear implicits.
End InsertError.

(** The reply lane of one connection: the orders that await replies, the frames being
    handed to them, and the control that admits new ones. *)
Class Replies (X T Fr Cu L : Type) := {
  reply_depth : L -> nat;
  reply_registration : L -> Registration.Registration;
  reply_deactivate : L -> L;
  reply_bind_retire : L -> T -> L;
  reply_cutoff : L -> Cu;
  reply_contains : L -> Cu -> bool;
  reply_is_cutoff : L -> Cu -> bool;
  reply_push : L -> Fr -> result (InsertError.Error X Fr) L;
  reply_complete : L -> L;
  reply_admit : L -> result X L;
  reply_fail : nat -> L -> Failure.Failure X -> L * bool;
  reply_exhausted : X }.

(** Orders are numbered as they are admitted, those of one lane for ever; a lane holds
    a run of them, the oldest in front. A cutoff that is not empty is one of them. *)
Class RepliesLaws (X T Fr Cu L : Type) `{Replies X T Fr Cu L, !Cutoffs Cu} := {
  stamp : Cu -> option nat;
  first : L -> nat;
  cutoff_law : forall c, cutoff_is_empty c = true <-> stamp c = None;
  empty_law : stamp cutoff_empty = None;
  lane_cutoff_law : forall l n, stamp (reply_cutoff l) = Some n -> (n < first l + reply_depth l)%nat;
  contains_law : forall l c, reply_contains l c = true <->
    exists n, stamp c = Some n /\ (first l <= n < first l + reply_depth l)%nat;
  is_cutoff_law : forall l c n, stamp c = Some n -> reply_depth l <> 0%nat ->
    reply_is_cutoff l c = true <-> n = first l;
  deactivate_law : forall l, first (reply_deactivate l) = first l /\ reply_depth (reply_deactivate l) = reply_depth l;
  bind_retire_law : forall l t, first (reply_bind_retire l t) = first l /\
    reply_depth (reply_bind_retire l t) = reply_depth l;
  push_law : forall l fr,
    match reply_push l fr with
    | Ok l' => reply_depth l <> 0%nat /\ first l' = first l /\ reply_depth l' = reply_depth l
    | Err (InsertError.Front _ Front.Empty) => reply_depth l = 0%nat
    | Err _ => reply_depth l <> 0%nat
    end;
  complete_law : forall l, reply_depth l <> 0%nat ->
    first (reply_complete l) = S (first l) /\ reply_depth l = S (reply_depth (reply_complete l));
  admit_law : forall l l', reply_admit l = Ok l' -> first l' = first l /\ reply_depth l' = S (reply_depth l);
  fail_law : forall n l f, (first l <= first (reply_fail n l f).1)%nat /\
    (first (reply_fail n l f).1 + reply_depth (reply_fail n l f).1 = first l + reply_depth l)%nat }.

Module Ready.
Inductive Ready := Committed | Rejected.
End Ready.

(** [handoff::Failure] and [plan::Reject]. *)
Module Handoff.
Inductive Failure {X : Type} := Reply (cause : X) | Queue (cause : Rejection.Rejection X).
Arguments Failure : clear implicits.
End Handoff.

Module Reject.
Inductive Reject {X V : Type} := Blocked (cause : ClientError.Block X) (frame : V) | Failed (error : ClientError.Error X).
Arguments Reject : clear implicits.
End Reject.

(** [session::Input]. *)
Module Input.
Inductive Input := Empty | Partial | Yield | Blocked.
End Input.

(** A function changed at one place. *)
Definition upd {K A} `{EqDecision K} (f : K -> A) (i : K) (x : A) : K -> A := fun j => if decide (j = i) then x else f j.

Record Schedule (W B L : Type) := { routes : Routes W; queues : nat -> B; lanes : nat -> L }.
Arguments routes {W B L}.
Arguments queues {W B L}.
Arguments lanes {W B L}.

Section schedule.
Context {X I P T Cu Fr V W B L : Type}.
Context `{EqDecision I, !Identity I P, !Cutoffs Cu, !Depot W P (State.State P T (Failure.Failure X) Cu)}.
Context `{!Replies X T Fr Cu L, !Fair X V B}.
Notation F := (Failure.Failure X).
Notation Schedule := (Schedule W B L).
Notation Handle := (Handle P).

Definition with_routes (s : Schedule) (r : Routes W) : Schedule := {| routes := r; queues := queues s; lanes := lanes s |}.

Definition with_queue (s : Schedule) (i : nat) (b : B) : Schedule :=
  {| routes := routes s; queues := upd (queues s) i b; lanes := lanes s |}.

Definition with_lane (s : Schedule) (i : nat) (l : L) : Schedule :=
  {| routes := routes s; queues := queues s; lanes := upd (lanes s) i l |}.

(** [Schedule::try_new]: fresh routes over the queues and lanes of the domain. *)
Definition schedule_new (w : W) (queues : nat -> B) (lanes : nat -> L) : Schedule :=
  {| routes := routes_new w; queues := queues; lanes := lanes |}.

(** [Schedule::requests] and [Schedule::lane] of a position. *)
Definition slot_of (p : P) : nat := index (connection p).

Definition requests (s : Schedule) (p : P) : B := queues s (slot_of p).

Definition lane (s : Schedule) (p : P) : L := lanes s (slot_of p).

Definition queue_empty (b : B) : bool := match fair_items b with [] => true | _ => false end.

(** [publish]: a connection that owes nothing is free for a lease; whether it was linked. *)
Definition publish (r : Routes W) (h : Handle) (depth : nat) (reqs : B) : Routes W * bool :=
  if negb (depth =? 0)%nat || negb (queue_empty reqs) then (r, false)
  else (RespRoutes.schedule r Link.Idle (slot h) (at_position h), true).

(** [withdraw]: from both links. *)
Definition withdraw (s : Schedule) (h : Handle) : Schedule :=
  let token := handle_connection h in
  let r := unlink (unlink (routes s) Link.Idle (slot h) token) Link.Returned (slot h) token in
  let p := at_position h in
  with_lane (with_routes s r) (slot_of p) (reply_deactivate (lane s p)).

(** ** The life of a connection *)

(** [Schedule::activate]: whether the slot took the connection. *)
Definition activate (s : Schedule) (i : nat) (token : I) (target : T) : Schedule * bool :=
  match get_state (routes s) i with
  | None => (s, false)
  | Some st =>
      match position_of token with
      | None => (s, false)
      | Some p =>
          match conn_bind st p target with
          | (_, false) => (s, false)
          | (st, true) =>
              (with_lane (with_routes s (set_state (routes s) i st)) (slot_of p) (reply_bind_retire (lane s p) target), true)
          end
      end
  end.

(** [Schedule::mark_ready]. *)
Definition mark_ready (s : Schedule) (a : Activity X) (token : I) : Schedule * Activity X * Ready.Ready * list (Notice T) :=
  match routes_mark_ready (routes s) token with
  | (_, None) => (s, a, Ready.Rejected, [])
  | (r, Some h) =>
      let p := at_position h in
      let r := (publish r h (reply_depth (lane s p)) (requests s p)).1 in
      (with_routes s r, clear_fatal a (slot_of p), Ready.Committed, wake_all)
  end.

(** [Schedule::responses] and [Logic::receipt]: the cutoff of what the server may
    answer by now. *)
Definition receipt (s : Schedule) (token : I) : Cu :=
  match routes_bound (routes s) token with
  | Some (h, _) => reply_cutoff (lane s (at_position h))
  | None => cutoff_empty
  end.

(** [Schedule::received]. *)
Definition received (s : Schedule) (token : I) (cutoff : Cu) (has_prefix : bool) : Schedule :=
  match get_state (routes s) (index token) with
  | None => s
  | Some st =>
      let (st, _) := with_frontier st token (fun p _ frontier =>
        let newest := if reply_contains (lane s p) cutoff then cutoff else cutoff_empty in
        ((if has_prefix then frontier.1 else newest, newest), ())) in
      with_routes s (set_state (routes s) (index token) st)
  end.

(** [Schedule::try_input]. *)
Definition try_input (s : Schedule) (token : I) (input : Input.Input) : result F () :=
  match input, routes_bound (routes s) token with
  | Input.Partial, Some (_, Some (oldest, _)) =>
      if cutoff_is_empty oldest then Err Failure.UnexpectedResponse else Ok ()
  | _, _ => Ok ()
  end.

(** The end of [Schedule::try_reply]: the order in front is complete. *)
Definition reply_settled (s : Schedule) (token : I) (h : Handle) (last : bool) (l : L) : Schedule * list (Notice T) :=
  let p := at_position h in
  let l := reply_complete l in
  let s := with_lane s (slot_of p) l in
  match get_state (routes s) (slot h) with
  | None => (s, [WakeSend])
  | Some st =>
      let (st, shared) := with_frontier st token (fun _ access frontier =>
        let newest := if last then cutoff_empty else frontier.2 in
        ((newest, newest), bool_decide (access = Access.Shared))) in
      let s := with_routes s (set_state (routes s) (slot h) st) in
      if default false shared
      then
        let (r, added) := publish (routes s) h (reply_depth l) (requests s p) in
        (with_routes s r, WakeSend :: if added : bool then [WakeLease] else [])
      else (s, [WakeSend])
  end.

(** [Schedule::try_reply]: a frame is handed to the order in front, refused with the
    failure of the connection, or given back until there is room. *)
Definition try_reply (s : Schedule) (token : I) (frame : Fr) : Schedule * result (Fr * F) (option Fr) * list (Notice T) :=
  match routes_bound (routes s) token with
  | None => (s, Err (frame, Failure.UnexpectedResponse), [])
  | Some (h, frontier) =>
      let l := lane s (at_position h) in
      let last := match frontier with Some (_, newest) => reply_is_cutoff l newest | None => false end in
      let settle (l : L) : Schedule * result (Fr * F) (option Fr) * list (Notice T) :=
        let (s, notices) := reply_settled s token h last l in (s, Ok None, notices) in
      if match frontier with Some (oldest, _) => cutoff_is_empty oldest | None => false end
      then (s, Err (frame, Failure.ResponseFront Front.Empty), [])
      else
        match reply_push l frame with
        | Ok l => settle l
        | Err (InsertError.Front _ Front.Detached) => settle l
        | Err (InsertError.Backpressure value) => (s, Ok (Some value), [])
        | Err (InsertError.Capacity value cause) => (s, Err (value, Failure.ResponseCapacity cause), [])
        | Err (InsertError.Front value front) => (s, Err (value, Failure.ResponseFront front), [])
        end
  end.

(** [Schedule::fail], [Port::fail] and [Schedule::quarantine]. *)
Definition schedule_fail (s : Schedule) (token : I) (err : F) : Schedule * option P :=
  match routes_fail (routes s) token err with
  | (_, None) => (s, None)
  | (r, Some h) => (withdraw (with_routes s r) h, Some (at_position h))
  end.

Definition port_fail (share : list Z -> result X (list Z)) (s : Schedule) (a : Activity X) (token : I) (err : F)
    : Schedule * Activity X * list (Notice T) :=
  match schedule_fail s token (failure_copy share err) with
  | (s, None) => (s, a, [])
  | (s, Some p) => (s, record_fatal a (slot_of p) err, wake_all)
  end.

Definition quarantine (s : Schedule) (token : I) (reason : Close.Reason X) : Schedule :=
  (schedule_fail s token (from_close reason)).1.

(** [Schedule::reconnect]. *)
Definition schedule_reconnect (s : Schedule) (token : I) (err : F) : Schedule * list (Notice T) :=
  match routes_reconnect (routes s) token err with
  | (_, None) => (s, [])
  | (r, Some (h, target)) => (withdraw (with_routes s r) h, match target with Some t => WakeTarget t :: wake_all | None => wake_all end)
  end.

(** [Schedule::clear_recv] and [clear_send]: whether there is nothing left. *)
Definition clear_recv (share : list Z -> result X (list Z)) (work : nat) (s : Schedule) (token : I) : Schedule * bool :=
  match routes_failure share (routes s) token with
  | None => (s, true)
  | Some (h, cause) =>
      let p := at_position h in
      let (l, complete) := reply_fail work (lane s p) cause in (with_lane s (slot_of p) l, complete)
  end.

Definition clear_send (work : nat) (s : Schedule) (token : I) : Schedule * bool * list (Notice T) :=
  match routes_bound (routes s) token with
  | None => (s, true, [])
  | Some (h, _) =>
      let p := at_position h in
      let '(b, dropped, drain) := CoreQueue.clear work (requests s p) in
      (with_queue s (slot_of p) b, match drain with Drain.Empty => true | Drain.Exhausted => false end,
       (fun _ => WakeSend) <$> dropped)
  end.

(** [Schedule::drain]: a connection about to be opened again asks to be closed. *)
Definition drain {D} `{Egress V D X} (of_hold : X -> Close.Reason X) (s : Schedule) (token : I) (requests_ : D)
    : option (Schedule * D * result F (option (Close.Reason X))) :=
  match routes_bound (routes s) token with
  | None => Some (s, requests_, Ok None)
  | Some (h, _) =>
      let p := at_position h in
      match get_state (routes s) (slot h) ≫= fun st => conn_retry_reason of_hold st token with
      | Some reason => Some (s, requests_, Ok (Some reason))
      | None =>
          r ← CoreQueue.drain (Y := X) (S (length (fair_items (requests s p)))) (requests s p) requests_;
          let '(b, d, moved) := r in
          Some (with_queue s (slot_of p) b, d,
                match moved with Ok () => Ok None | Err cause => Err (Failure.RequestReserve cause) end)
      end
  end.

(** ** Leases *)

(** [refresh]: connections whose lease ended are looked at again, those that still owe
    replies go back behind the first of them, which ends the round. *)
Fixpoint refresh (fuel : nat) (deferred : option I) (s : Schedule) : option Schedule :=
  match fuel with
  | O => None
  | S fuel =>
      if bool_decide (routes_front (routes s) Link.Returned = deferred) then Some s
      else
        match routes_pop (routes s) Link.Returned with
        | None => Some s
        | Some (h, r) =>
            let token := handle_connection h in
            let p := at_position h in
            let shared :=
              match get_state r (slot h) ≫= conn_access with
              | Some (p, Access.Shared) => bool_decide (connection p = token)
              | _ => false
              end in
            if negb shared then refresh fuel deferred (with_routes s r)
            else
              match publish r h (reply_depth (lane s p)) (requests s p) with
              | (r, true) => refresh fuel deferred (with_routes s r)
              | (r, false) =>
                  refresh fuel (Some (default token deferred))
                    (with_routes s (RespRoutes.schedule r Link.Returned (slot h) p))
              end
        end
  end.

(** The loop of [Schedule::try_lease]. *)
Fixpoint lease_loop (n : nat) (s : Schedule) : Schedule * option Handle :=
  match n with
  | O => (s, None)
  | S n =>
      match routes_pop (routes s) Link.Idle with
      | None => (s, None)
      | Some (h, r) =>
          match get_state r (slot h) with
          | None => (with_routes s r, None)
          | Some st =>
              match conn_acquire st (handle_connection h) with
              | (st, true) =>
                  let p := at_position h in
                  (with_lane (with_routes s (set_state r (slot h) st)) (slot_of p) (reply_deactivate (lane s p)), Some h)
              | (_, false) => lease_loop n (with_routes s r)
              end
          end
      end
  end.

(** [Schedule::try_lease]; a round of [refresh] takes each returned slot at most once. *)
Definition try_lease (s : Schedule) : option (Schedule * option Handle) :=
  s ← refresh (S (routes_len (routes s))) None s;
  Some (lease_loop (routes_len (routes s)) s).

(** [Schedule::release], called as a lease is dropped. *)
Definition schedule_release (s : Schedule) (h : Handle) : Schedule * list (Notice T) :=
  match get_state (routes s) (slot h) with
  | None => (s, [])
  | Some st =>
      match conn_release st (handle_connection h) with
      | (_, false) => (s, [])
      | (st, true) =>
          (with_routes s (RespRoutes.schedule (set_state (routes s) (slot h) st) Link.Returned (slot h) (at_position h)),
           wake_all)
      end
  end.

(** ** Requests *)

(** [handoff::Lane::try_publish]: the order is admitted under a reserved place of the
    unweighted queue. A shared connection stops being free with its first request. *)
Definition try_publish (s : Schedule) (p : P) (frame : V) (build : Schedule -> Schedule)
    : option (Schedule * result (Handoff.Failure X * V) I) :=
  r ← CoreQueue.try_with Handoff.Queue (requests s p) s 0 frame
        (fun s frame =>
          match reply_admit (lane s p) with
          | Ok l => (with_lane s (slot_of p) l, Ok ((), frame))
          | Err cause => (s, Err (Handoff.Reply cause, frame))
          end)
        (fun s frame _ => Some (build s, frame, connection p));
  let '(b, s, result) := r in Some (with_queue s (slot_of p) b, result).

(** The wake of the connection of a slot. *)
Definition wake_slot (s : Schedule) (i : nat) : list (Notice T) :=
  match get_state (routes s) i ≫= conn_wake with Some t => [WakeTarget t] | None => [] end.

(** The round of [Schedule::try_pool]. *)
Fixpoint pool_loop (n : nat) (s : Schedule) (blocked : ClientError.Block X) (frame : V)
    : option (Schedule * result (Reject.Reject X V) I * list (Notice T)) :=
  let stop (s : Schedule) :=
    Some (s, Err (Reject.Blocked (if is_active (routes s) then blocked else ClientError.Inactive) frame), []) in
  match n with
  | O => stop s
  | S n =>
      match routes_next (routes s) with
      | None => stop s
      | Some (i, r) =>
          let s := with_routes s r in
          match get_state r i ≫= conn_access with
          | Some (p, Access.Shared) =>
              match reply_registration (lane s p) with
              | Registration.Full => pool_loop n s blocked frame
              | Registration.IdentityExhausted =>
                  Some (s, Err (Reject.Failed (ClientError.Reply reply_exhausted)), [])
              | Registration.Available =>
                  published ← try_publish s p frame
                    (fun s => with_routes s (unlink (routes s) Link.Idle i (connection p)));
                  match published with
                  | (s, Ok token) => Some (s, Ok token, wake_slot s i)
                  | (s, Err (Handoff.Reply cause, _)) => Some (s, Err (Reject.Failed (ClientError.Reply cause)), [])
                  | (s, Err (Handoff.Queue cause, frame)) => pool_loop n s (ClientError.Queue cause) frame
                  end
              end
          | _ => pool_loop n s blocked frame
          end
      end
  end.

(** [Schedule::try_pool]. *)
Definition try_pool (s : Schedule) (exhausted : bool) (frame : V)
    : option (Schedule * result (Reject.Reject X V) I * list (Notice T)) :=
  if exhausted then Some (s, Err (Reject.Failed (ClientError.Reply reply_exhausted)), [])
  else pool_loop (routes_len (routes s)) s ClientError.Pool frame.

(** [Schedule::try_dispatch_lease]. *)
Definition try_dispatch_lease (s : Schedule) (frame : V) (token : I)
    : option (Schedule * result (Reject.Reject X V) I * list (Notice T)) :=
  match exclusive (routes s) token with
  | None => Some (s, Err (Reject.Failed ClientError.Unavailable), [])
  | Some h =>
      published ← try_publish s (at_position h) frame (fun s => s);
      Some match published with
           | (s, Ok token) => (s, Ok token, wake_slot s (slot h))
           | (s, Err (Handoff.Queue cause, frame)) => (s, Err (Reject.Blocked (ClientError.Queue cause) frame), [])
           | (s, Err (Handoff.Reply cause, _)) => (s, Err (Reject.Failed (ClientError.Reply cause)), [])
           end
  end.
End schedule.
