(* ===== verification/RespClient.v ===== *)
(** * The turns of a Redis connection

    Models [client/logic] of [redis/src]: the phases of a connection
    ([protocol/mod.rs]), the commands replayed before it is admitted
    ([client/settings/init.rs], [logic/init.rs]), what becomes of a decoded reply
    ([logic/reply.rs], [logic/pending.rs]), and what the reactor calls
    ([logic/mod.rs]), over the scheduler of [RespSchedule] and the codec of
    [RespCodec]. What the reactor's libraries answer is an argument: the span a pool
    gives, whether the outbox takes a frame, the status of a close. *)
From S2P Require Import Prelude CoreQueue RespLimit RespPool RespState RespGate RespRequest RespCommands RespTape RespBuilder RespCodec.
From S2P Require Import RespFailure RespRoutes RespSchedule.

(** ** Phases *)

Module Phase.
Inductive Phase := Offline | Init (step : Step.Step) | Advance (step : Step.Step) | Unsolicited | Ready.
End Phase.

(** [ConnState::received]: bytes that came before their command was sent. *)
Definition phase_received (ph : Phase.Phase) (step : option Step.Step) (has_prefix : bool) : Phase.Phase :=
  if negb has_prefix
      && match ph with
         | Phase.Init expected => negb (bool_decide (step = Some expected))
         | Phase.Advance _ => true
         | Phase.Offline | Phase.Unsolicited | Phase.Ready => false
         end
  then Phase.Unsolicited else ph.

(** ** The commands of a new connection *)

Module Auth.
Inductive Auth := Password (password : list Z) | User (username password : list Z).
End Auth.

Module Command.
Inductive Command := Authenticate (auth : Auth.Auth) | Select (database : Z) | Name (name : list Z).
End Command.

Module InitError.
Inductive Error {X : Type} := Username (cause : X) | Password (cause : X).
Arguments Error : clear implicits.
End InitError.

(** [Command::step]. *)
Definition command_step (c : Command.Command) : Step.Step :=
  match c with
  | Command.Authenticate _ => Step.Authenticate
  | Command.Select _ => Step.Select
  | Command.Name _ => Step.SetClientName
  end.

(** The request of a command, as [Plan::send] encodes it. *)
Definition command_request (c : Command.Command) : Request :=
  match c with
  | Command.Authenticate (Auth.Password pass) => RespCommands.Init.auth pass
  | Command.Authenticate (Auth.User user pass) => RespCommands.Init.auth_user user pass
  | Command.Select database => RespCommands.Init.select database
  | Command.Name name => RespCommands.Init.set_name name
  end.

Record Plan := { auth : option Auth.Auth; database : option Z; client_name : option (list Z) }.

Definition plan_new : Plan := {| auth := None; database := None; client_name := None |}.

(** The setters; [try_copy] is the allocation of a copy. *)
Definition plan_password {X} (try_copy : list Z -> result X (list Z)) (p : Plan) (password : list Z) : result X Plan :=
  match try_copy password with
  | Ok password => Ok {| auth := Some (Auth.Password password); database := database p; client_name := client_name p |}
  | Err e => Err e
  end.

Definition plan_user {X} (try_copy : list Z -> result X (list Z)) (p : Plan) (username password : list Z)
    : result (InitError.Error X) Plan :=
  match try_copy username with
  | Err e => Err (InitError.Username e)
  | Ok username =>
      match try_copy password with
      | Err e => Err (InitError.Password e)
      | Ok password =>
          Ok {| auth := Some (Auth.User username password); database := database p; client_name := client_name p |}
      end
  end.

Definition plan_select (p : Plan) (database : Z) : Plan :=
  {| auth := auth p; database := Some database; client_name := client_name p |}.

Definition plan_name {X} (try_copy : list Z -> result X (list Z)) (p : Plan) (name : list Z) : result X Plan :=
  match try_copy name with
  | Ok name => Ok {| auth := auth p; database := database p; client_name := Some name |}
  | Err e => Err e
  end.

(** [Plan::first] and [Plan::next]. *)
Definition plan_first (p : Plan) : option Command.Command :=
  match auth p with
  | Some auth => Some (Command.Authenticate auth)
  | None =>
      match database p with
      | Some database => Some (Command.Select database)
      | None => Command.Name <$> client_name p
      end
  end.

Definition plan_next (p : Plan) (step : Step.Step) : option Command.Command :=
  match step with
  | Step.Authenticate =>
      match database p with
      | Some database => Some (Command.Select database)
      | None => Command.Name <$> client_name p
      end
  | Step.Select => Command.Name <$> client_name p
  | Step.SetClientName => None
  end.

(** ** A turn *)

(** [conn::CloseStatus]; of a closing directive its reason is looked at. *)
Module ClosePhase.
Inductive Phase := Withdrawing | Requested | Quarantining | Retiring | Settled | Finalized | Claimed.
End ClosePhase.

Module CloseStatus.
Inductive Status {X : Type} := Open | Closing (phase : ClosePhase.Phase) (reason : Close.Reason X).
Arguments Status : clear implicits.
End CloseStatus.

(** [close::Directive]. *)
Module Directive.
Inductive Directive {X : Type} :=
| WithPolicy (reason : Close.Reason X) (policy : Close.Policy)
| CutRetry (reason : Close.Reason X)
| CutFinal (reason : Close.Reason X).
Arguments Directive : clear implicits.
End Directive.

Module Fence.
Inductive Fence := Pending | Ready.
End Fence.

Module Inbound.
Inductive Inbound {P : Type} := Awaiting (base : P) | Quiescent.
Arguments Inbound : clear implicits.
End Inbound.

Module Blocking.
Inductive Blocking := Registered | Unsupported.
End Blocking.

Module Settlement.
Inductive Settlement {A : Type} := Blocked (item : A) | Ready | Yield (item : A).
Arguments Settlement : clear implicits.
End Settlement.

(** Where a turn puts frames to be sent. *)
Class Outbox (X K : Type) := sink_insert : K -> list Z -> result X K.

(** The first event of a retained reply, [Stored::reader] and [Reader::next_event]. *)
Definition stored_event (p : Pool) (reply : list Z * Tape) : option Event.Event :=
  c ← tape_cursor p reply.2;
  r ← next_event reply.1 p c;
  fst <$> r.

Record Ctx (X I K : Type) := { conn_id : I; phase : Phase.Phase; outbox : K; closes : list (Directive.Directive X) }.
Arguments conn_id {X I K}.
Arguments phase {X I K}.
Arguments outbox {X I K}.
Arguments closes {X I K}.

(** What a turn works on: the scheduler, the activity of the port and the connection. *)
Record Turn (X I K S : Type) := { schedule : S; activity : Activity X; ctx : Ctx X I K }.
Arguments schedule {X I K S}.
Arguments activity {X I K S}.
Arguments ctx {X I K S}.

Section turns.
Context {X I P T Cu Fr V W B L D K S O : Type}.
Context `{EqDecision I, !Identity I P, !Cutoffs Cu, !Depot W P (State.State P T (Failure.Failure X) Cu)}.
Context `{!Replies X T Fr Cu L, !Fair X V B, !Egress V D X, !Outbox X K, !Output S O X X}.
Context (share : list Z -> result X (list Z)) (of_hold : X -> Close.Reason X).
Context (reply_bytes : Fr -> list Z).
Notation F := (Failure.Failure X).
Notation Schedule := (Schedule W B L).
Notation Ctx := (Ctx X I K).
Notation Turn := (Turn X I K Schedule).
Notation Notices := (list (Notice T)).

Definition with_phase (c : Ctx) (ph : Phase.Phase) : Ctx :=
  {| conn_id := conn_id c; phase := ph; outbox := outbox c; closes := closes c |}.

Definition with_outbox (c : Ctx) (k : K) : Ctx :=
  {| conn_id := conn_id c; phase := phase c; outbox := k; closes := closes c |}.

(** [ctx.request] and [turn.close.request]. *)
Definition request_close (c : Ctx) (d : Directive.Directive X) : Ctx :=
  {| conn_id := conn_id c; phase := phase c; outbox := outbox c; closes := closes c ++ [d] |}.

Definition with_ctx (w : Turn) (c : Ctx) : Turn := {| schedule := schedule w; activity := activity w; ctx := c |}.

Definition with_schedule (w : Turn) (s : Schedule) : Turn := {| schedule := s; activity := activity w; ctx := ctx w |}.

Definition set_phase (w : Turn) (ph : Phase.Phase) : Turn := with_ctx w (with_phase (ctx w) ph).

(** [Port::fail] for the connection of the turn. *)
Definition turn_fail (w : Turn) (cause : F) : Turn * Notices :=
  let '(s, a, notices) := port_fail share (schedule w) (activity w) (conn_id (ctx w)) cause in
  ({| schedule := s; activity := a; ctx := ctx w |}, notices).

(** ** The handshake *)

(** [Plan::fail]. *)
Definition init_fail (w : Turn) (cause : F) : Turn * Notices :=
  let d := Directive.WithPolicy (close_reason of_hold cause) (start_policy of_hold cause) in
  turn_fail (with_ctx w (request_close (ctx w) d)) cause.

(** [Requests::frame]: the span the pool gives, if it has one. *)
Definition requests_frame (span : option S) : result (ReqError.Error X X) S :=
  match span with Some span => Ok span | None => Err (ReqError.Entries 1) end.

(** [Plan::send]. *)
Definition init_send (span : option S) (command : Command.Command) (c : Ctx) : result F Ctx :=
  match requests_frame span with
  | Err error => Err (Failure.Request error)
  | Ok span =>
      match run_request span (command_request command) with
      | Err error => Err (Failure.Request error)
      | Ok complete =>
          match sink_insert (outbox c) (frame complete) with
          | Ok k => Ok (with_outbox c k)
          | Err cause => Err (Failure.RequestEgress (Egress.Capacity cause))
          end
      end
  end.

(** [Plan::begin]. *)
Definition init_begin (span : option S) (w : Turn) (command : Command.Command) : Turn * Notices :=
  let w := set_phase w (Phase.Init (command_step command)) in
  match init_send span command (ctx w) with
  | Ok c => (with_ctx w c, [])
  | Err error => init_fail w error
  end.

(** [Plan::ready]. *)
Definition init_ready (w : Turn) : Turn * Notices :=
  let '(s, a, ready, notices) := mark_ready (schedule w) (activity w) (conn_id (ctx w)) in
  let w := {| schedule := s; activity := a; ctx := ctx w |} in
  match ready with
  | Ready.Rejected => let (w, more) := init_fail w Failure.UnexpectedResponse in (w, notices ++ more)
  | Ready.Committed => (set_phase w Phase.Ready, notices)
  end.

(** [Plan::response]: [event] is the first of the reply. *)
Definition init_response (w : Turn) (step : Step.Step) (event : option Event.Event) (reply : Fr) : Turn * Notices :=
  let kind := match event with
              | Some Event.Ok => None
              | Some (Event.Error _) => Some InitKind.Rejected
              | Some _ | None => Some InitKind.Unexpected
              end in
  match kind with
  | Some kind =>
      init_fail w (Failure.Handshake {| step := step; init_kind := kind; init_frame := Ok (reply_bytes reply) |})
  | None => (set_phase w (Phase.Advance step), [])
  end.

(** [Plan::advance]. *)
Definition init_advance (plan : Plan) (span : option S) (status : CloseStatus.Status X) (w : Turn) (step : Step.Step)
    (input : Input.Input) : Turn * Notices :=
  match status with
  | CloseStatus.Open =>
      match input with
      | Input.Empty =>
          match plan_next plan step with
          | Some next => init_begin span w next
          | None => init_ready w
          end
      | Input.Partial => init_fail w Failure.UnexpectedResponse
      | Input.Yield | Input.Blocked => (w, [])
      end
  | _ => (w, [])
  end.

(** [Plan::start]. *)
Definition init_start (plan : Plan) (span : option S) (w : Turn) : Turn * Notices :=
  let w := set_phase w Phase.Offline in
  match plan_first plan with
  | Some command => init_begin span w command
  | None => init_ready w
  end.

(** ** Replies *)

(** [reply::fail]. *)
Definition reply_fail_turn (w : Turn) (cause : F) : Turn * Notices :=
  let policy := match phase (ctx w) with
                | Phase.Init _ | Phase.Advance _ | Phase.Unsolicited => start_policy of_hold cause
                | Phase.Offline | Phase.Ready => Close.Reconnect
                end in
  turn_fail (with_ctx w (request_close (ctx w) (Directive.WithPolicy (close_reason of_hold cause) policy))) cause.

(** [reply::push]: a reply given back waits for room, with its lane. *)
Definition reply_push_turn (w : Turn) (pending : Fr) : Turn * option Fr * Notices :=
  let '(s, r, notices) := try_reply (schedule w) (conn_id (ctx w)) pending in
  let w := with_schedule w s in
  match r with
  | Ok back => (w, back, notices)
  | Err (_, cause) => let (w, more) := reply_fail_turn w cause in (w, None, notices ++ more)
  end.

(** [reply::deliver]; [read] is the first event of a reply. *)
Definition deliver (read : Fr -> option Event.Event) (status : CloseStatus.Status X) (w : Turn)
    (decoded : result X (Decoded.Decoded X Fr)) : Turn * option Fr * Notices :=
  let fail (cause : F) : Turn * option Fr * Notices :=
    let (w, notices) := reply_fail_turn w cause in (w, None, notices) in
  let live : Turn * option Fr * Notices :=
    match decoded with
    | Ok (Decoded.Frame reply) =>
        match phase (ctx w) with
        | Phase.Init step => let (w, notices) := init_response w step (read reply) reply in (w, None, notices)
        | Phase.Offline | Phase.Advance _ | Phase.Unsolicited => fail Failure.UnexpectedResponse
        | Phase.Ready => reply_push_turn w reply
        end
    | Ok (Decoded.Rejected failure) => fail (failure_protocol failure)
    | Ok (Decoded.Retain error) =>
        fail match phase (ctx w) with Phase.Offline => Failure.UnexpectedResponse | _ => Failure.ResponseRetention error end
    | Err error => fail (Failure.Input error)
    end in
  match status with
  | CloseStatus.Open
  | CloseStatus.Closing (ClosePhase.Withdrawing | ClosePhase.Requested | ClosePhase.Quarantining) _ => live
  | CloseStatus.Closing ClosePhase.Retiring Close.Remote =>
      match decoded with Ok (Decoded.Rejected failure) => fail (failure_protocol failure) | _ => (w, None, []) end
  | CloseStatus.Closing (ClosePhase.Retiring | ClosePhase.Settled | ClosePhase.Finalized | ClosePhase.Claimed) _ =>
      (w, None, [])
  end.

(** [Pending::commit] and [Pending::settle]: a settlement takes one of the work units the
    reactor has left. *)
Definition pending_commit (pending : Fr) : Settlement.Settlement Fr := Settlement.Blocked pending.

Definition pending_settle (available : bool) (w : Turn) (pending : Fr) : Turn * Settlement.Settlement Fr * Notices :=
  if available then
    let '(w, back, notices) := reply_push_turn w pending in
    (w, match back with Some pending => Settlement.Blocked pending | None => Settlement.Ready end, notices)
  else (w, Settlement.Yield pending, []).

(** ** What the reactor calls *)

(** [Logic::receipt] and [Logic::received]. *)
Definition logic_receipt (w : Turn) : option Step.Step * Cu :=
  (match phase (ctx w) with Phase.Init step => Some step | _ => None end, receipt (schedule w) (conn_id (ctx w))).

Definition logic_received (w : Turn) (r : option Step.Step * Cu) (has_prefix : bool) : Turn :=
  let w := set_phase w (phase_received (phase (ctx w)) r.1 has_prefix) in
  with_schedule w (received (schedule w) (conn_id (ctx w)) r.2 has_prefix).

(** [Logic::sent], [Logic::cancel], [Logic::shutdown]. *)
Definition logic_sent : Notices := [WakeSend].

Definition logic_cancel : Notices := [WakeSend].

Definition logic_shutdown : Notices := wake_all.

(** [Logic::flush]. *)
Definition logic_flush (plan : Plan) (span : option S) (status : CloseStatus.Status X) (w : Turn) (input : Input.Input)
    : Turn * Notices :=
  match phase (ctx w) with
  | Phase.Advance step => init_advance plan span status w step input
  | Phase.Unsolicited =>
      match input, status with
      | Input.Partial, CloseStatus.Open => reply_fail_turn w Failure.UnexpectedResponse
      | _, _ => (w, [])
      end
  | _ =>
      match try_input (schedule w) (conn_id (ctx w)) input with
      | Ok () => (w, [WakeSend])
      | Err cause => reply_fail_turn w cause
      end
  end.

(** [Logic::drain]: the requests, and the directive they are closed with. *)
Definition logic_drain (s : Schedule) (a : Activity X) (token : I) (requests_ : D)
    : option (Schedule * Activity X * D * option (Directive.Directive X) * Notices) :=
  r ← drain of_hold s token requests_;
  Some match r with
       | (s, d, Ok None) => (s, a, d, None, [])
       | (s, d, Ok (Some reason)) => (s, a, d, Some (Directive.CutRetry reason), [])
       | (s, d, Err cause) =>
           let '(s, a, notices) := port_fail share s a token cause in
           (s, a, d, Some (Directive.CutRetry (close_reason of_hold cause)), notices)
       end.

(** [Logic::register]: a connection without a place is closed for good, and the port
    stops. *)
Definition logic_register (s : Schedule) (a : Activity X) (i : nat) (token : I) (target : T)
    : Schedule * Activity X * option (Directive.Directive X) * Notices :=
  match activate s i token target with
  | (s, true) => (s, a, None, [])
  | (s, false) =>
      let (a, notices) := record_stop a (Stop.Closed Close.ResourceFailure) in
      (s, a, Some (Directive.CutFinal Close.ResourceFailure), notices)
  end.

(** [Logic::connect] is [init_start]; [Logic::exhaust]. *)
Definition logic_exhaust (a : Activity X) (key cause : X) : Activity X * Notices := record_stop a (Stop.Exhausted key cause).

(** [Logic::transmit_failed] and [Logic::io_fail]. *)
Definition logic_transmit_failed (s : Schedule) (a : Activity X) (token : I) (failure : Transmit.Transmit X)
    : Schedule * Activity X * Notices := port_fail share s a token (Failure.Transmitted failure).

Definition logic_io_fail (w : Turn) (error : X) : Turn * Notices := turn_fail w (Failure.Receive error).

(** [Logic::disconnect], where the port is told ([Root::retired]), and
    [Logic::quarantine]. *)
Definition logic_disconnect (s : Schedule) (token : I) : Schedule * Notices :=
  (with_routes s (retire (routes s) token), wake_all).

Definition logic_quarantine (s : Schedule) (token : I) (reason : Close.Reason X) : Schedule := quarantine s token reason.

(** [Logic::clear_send] and [Logic::clear_recv]: whether there is nothing left. *)
Definition logic_clear_send (work : nat) (s : Schedule) (token : I) : Schedule * bool * Notices := clear_send work s token.

Definition logic_clear_recv (work : nat) (s : Schedule) (token : I) : Schedule * bool := clear_recv share work s token.

(** The depth of the lane of a connection, [Schedule::responses]. *)
Definition owed (s : Schedule) (token : I) : nat :=
  match routes_bound (routes s) token with Some (h, _) => reply_depth (lane s (at_position h)) | None => 0 end.

(** [Logic::fence] and [Logic::inbound]. *)
Definition logic_fence (s : Schedule) (token : I) : Fence.Fence :=
  if (owed s token =? 0)%nat then Fence.Ready else Fence.Pending.

Definition logic_inbound {A} (w : Turn) (base : A) : Inbound.Inbound A :=
  match phase (ctx w) with
  | Phase.Init _ | Phase.Advance _ | Phase.Unsolicited => Inbound.Awaiting base
  | Phase.Offline | Phase.Ready =>
      if (owed (schedule w) (conn_id (ctx w)) =? 0)%nat then Inbound.Quiescent else Inbound.Awaiting base
  end.
End turns.

(** ** Decoding and blocking on the parser's storage *)

Section parsing.
Context {X I P Cu V W B L K S O Q U : Type} `{Fifo Q Z, InlineVec U}.
Context `{EqDecision I, !Identity I P, !Cutoffs Cu, !Depot W P (State.State P Z (Failure.Failure X) Cu)}.
Context `{!Replies X Z (list Z * Tape) Cu L, !Fair X V B, !Outbox X K, !Output S O X X}.
Context (share : list Z -> result X (list Z)) (of_hold : X -> Close.Reason X) (hold : list Z -> result X (list Z)).
Context (byte_max node_max : RespLimit.Bound).
Notation Turn := (Turn X I K (Schedule W B L)).
Notation Connection := (Connection (W := Q) (T := Z)).

(** The first event of a reply in the storage of a connection. *)
Definition connection_event (c : Connection) (reply : list Z * Tape) : option Event.Event :=
  '(s, _) ← c; stored_event (tapes s) reply.

(** [Logic::decode] and [Logic::finish]: what the codec emits is delivered, and never
    asked for again. A reply that is not handed on gives its tape and lane back when it
    is dropped, which is [discard] of [RespCodec] and not repeated here. *)
Definition logic_decode (need : option Z) (inp : CodecInput.Input X) (st : State U) (c : Connection)
    (status : CloseStatus.Status X) (w : Turn)
    : option (Parse.Parse X (list Z * Tape) * State U * Connection * (Turn * option (list Z * Tape) * list (Notice Z))) :=
  r ← codec_decode byte_max node_max hold (fun _ => Admission.Ready) need inp st c;
  let '(parsed, st, c) := r in
  Some (parsed, st, c,
    match parsed with
    | Parse.Item (Outcome.Accepted decoded) _ => deliver share of_hold fst (connection_event c) status w (Ok decoded)
    | Parse.Refused (Outcome.Accepted error) => deliver share of_hold fst (connection_event c) status w (Err error)
    | _ => (w, None, [])
    end).

Definition logic_finish (inp : CodecInput.Input X) (st : State U) (c : Connection) (status : CloseStatus.Status X) (w : Turn)
    : Finish.Finish X (list Z * Tape) * State U * Connection * (Turn * option (list Z * Tape) * list (Notice Z)) :=
  let '(r, st, c) := codec_finish byte_max (fun _ => Admission.Ready) inp st c in
  (r, st, c,
    match r with
    | Finish.Empty | Finish.Item Outcome.RetryInput => (w, None, [])
    | Finish.Item (Outcome.Accepted decoded) => deliver share of_hold fst (connection_event c) status w (Ok decoded)
    end).

(** [Logic::blocked]: the parser waits for a lane under the target of its connection;
    a wait that is refused stops the port. *)
Definition logic_blocked (of_bounds : () -> X) (w : Turn) (token : I) (s : Storage (W := Q)) (b : Builder (T := Z))
    : Storage (W := Q) * Builder (T := Z) * Turn * Blocking.Blocking * list (Notice Z) :=
  match route_target (routes (schedule w)) token with
  | None => (s, b, w, Blocking.Unsupported, [])
  | Some target =>
      match wait (storage_gate s) (access b) (Z.of_nat (index token)) target with
      | Ok (g, ph, woken) =>
          ({| tapes := tapes s; storage_gate := g |}, {| access := ph; tail := tail b; builder_len := builder_len b |}, w,
           Blocking.Registered, match woken with Some t => [WakeTarget t] | None => [] end)
      | Err cause =>
          let (a, notices) := record_stop (activity w) (Stop.ParserWait (of_bounds cause)) in
          (s, b, {| schedule := schedule w; activity := a; ctx := ctx w |}, Blocking.Unsupported, notices)
      end
  end.
End parsing.
