(* ===== verification/RespInstances.v ===== *)
(** * A pool to look at

    Concrete instances of what the scheduler of [RespSchedule] runs over, with their
    laws: slots with two links as lists, request queues as lists, reply lanes as the
    numbers of their orders. The interfaces can be met, and the theorems have runs. *)
From S2P Require Import Prelude CoreQueue RespFailure RespRoutes RespSchedule.

(** ** Slots on two lists *)

Section slots.
Context {P C : Type}.

(** The entries of a raw list that are slots, each once. *)
Fixpoint norm (n : nat) (l : list (nat * P)) : list (nat * P) :=
  match l with
  | [] => []
  | (i, p) :: l => if decide ((i < n)%nat /\ i ∉ (norm n l).*1) then (i, p) :: norm n l else norm n l
  end.

Lemma norm_nodup n l : NoDup (norm n l).*1.
Proof.
  induction l as [|[i p] l IH]; cbn; [constructor|]. destruct (decide _) as [[_ Hn]|]; [|done]. by constructor.
Qed.

Lemma norm_slots n l i p : (i, p) ∈ norm n l -> (i < n)%nat.
Proof.
  induction l as [|[j q] l IH]; cbn; [by intros ?%elem_of_nil|]. destruct (decide _) as [[Hj _]|]; [|done].
  intros [[= -> ->]|?]%elem_of_cons; auto.
Qed.

Lemma norm_id n l : NoDup l.*1 -> (forall i p, (i, p) ∈ l -> (i < n)%nat) -> norm n l = l.
Proof.
  induction l as [|[i p] l IH]; intros Hd Hs; [done|]. cbn in Hd. apply NoDup_cons in Hd as [Hi Hd]. cbn.
  rewrite IH by (done || intros j q Hj; eapply Hs; by right). rewrite decide_True; [done|]. split; [|done].
  apply (Hs i p). left.
Qed.

Lemma norm_app n l i p : (i < n)%nat -> i ∉ (norm n l).*1 -> norm n (norm n l ++ [(i, p)]) = norm n l ++ [(i, p)].
Proof.
  intros Hi Hn. apply norm_id.
  - rewrite fmap_app. apply NoDup_app. split; [apply norm_nodup|]. split; [|apply NoDup_singleton].
    intros j Hj ->%list_elem_of_singleton. done.
  - intros j q [Hj|Hj]%elem_of_app; [by eapply norm_slots|]. apply list_elem_of_singleton in Hj. by injection Hj as -> ->.
Qed.

Definition without (i : nat) (l : list (nat * P)) : list (nat * P) := filter (fun e => e.1 <> i) l.

Lemma norm_without n l i : norm n (without i (norm n l)) = without i (norm n l).
Proof.
  apply norm_id.
  - eapply sublist_NoDup; [apply (norm_nodup n l)|]. apply fmap_sublist, sublist_filter.
  - intros j p [_ Hj]%list_elem_of_filter. by eapply norm_slots.
Qed.

Definition assoc (i : nat) (l : list (nat * P)) : option P := snd <$> find (fun e => (e.1 =? i)%nat) l.

Lemma assoc_in i l p : NoDup l.*1 -> assoc i l = Some p <-> (i, p) ∈ l.
Proof.
  intros Hd. unfold assoc. induction l as [|[j q] l IH]; cbn.
  - split; [done|by intros ?%elem_of_nil].
  - cbn in Hd. apply NoDup_cons in Hd as [Hj Hd]. destruct (Nat.eqb_spec j i) as [->|Hne]; cbn.
    + rewrite elem_of_cons. split; [intros [= ->]; by left|]. intros [[= ->]|Hin]; [done|].
      destruct Hj. by apply (list_elem_of_fmap_2 fst) in Hin.
    + rewrite (IH Hd), elem_of_cons. split; [by right|]. by intros [[= -> ->]|].
Qed.

Record Slots := { cells : list C; idle : list (nat * P); returned : list (nat * P) }.

Definition raw (w : Slots) (k : Link.Link) : list (nat * P) :=
  match k with Link.Idle => idle w | Link.Returned => returned w end.

Definition with_raw (w : Slots) (k : Link.Link) (l : list (nat * P)) : Slots :=
  match k with
  | Link.Idle => {| cells := cells w; idle := l; returned := returned w |}
  | Link.Returned => {| cells := cells w; idle := idle w; returned := l |}
  end.

Definition view (w : Slots) (k : Link.Link) : list (nat * P) := norm (length (cells w)) (raw w k).

Definition sample_push (w : Slots) (k : Link.Link) (i : nat) (p : P) : Slots :=
  if decide (i < length (cells w))%nat then with_raw w k (without i (view w k) ++ [(i, p)]) else w.

#[export] Instance slots_depot : Depot Slots P C := {|
  depot_capacity w := length (cells w);
  depot_get w i := cells w !! i;
  depot_set w i c := {| cells := <[i := c]> (cells w); idle := idle w; returned := returned w |};
  depot_linked w k i := assoc i (view w k);
  depot_push := sample_push;
  depot_clear w k i := with_raw w k (without i (view w k));
  depot_next w k := match view w k with [] => None | (i, p) :: q => Some (i, p, with_raw w k q) end;
  depot_front w k := snd <$> head (view w k) |}.

Lemma view_with w k l k' :
  norm (length (cells w)) l = l -> view (with_raw w k l) k' = if decide (k' = k) then l else view w k'.
Proof. intros Hl. unfold view. by destruct k, k'. Qed.

Lemma without_none i l : i ∉ l.*1 -> without i l = l.
Proof.
  unfold without. induction l as [|[j q] l IH]; [done|]. intros Hn. cbn in Hn. rewrite elem_of_cons in Hn. rewrite filter_cons.
  rewrite decide_True by (cbn; intros ->; tauto). f_equal. apply IH. tauto.
Qed.

Lemma push_norm w i p k : (i < length (cells w))%nat ->
  norm (length (cells w)) (without i (view w k) ++ [(i, p)]) = without i (view w k) ++ [(i, p)].
Proof.
  intros Hi. unfold view. rewrite <- (norm_without _ _ i). apply norm_app; [done|]. rewrite norm_without.
  intros ([j q] & -> & [Hj _]%list_elem_of_filter)%list_elem_of_fmap. done.
Qed.

Lemma assoc_none i l : assoc i l = None -> NoDup l.*1 -> i ∉ l.*1.
Proof.
  intros Ha Hd ([j q] & -> & Hin)%list_elem_of_fmap. apply assoc_in in Hin; [|done]. cbn in Ha. congruence.
Qed.

Lemma assoc_ext i l l' :
  NoDup l.*1 -> NoDup l'.*1 -> (forall p, (i, p) ∈ l <-> (i, p) ∈ l') -> assoc i l = assoc i l'.
Proof.
  intros Hd Hd' H. destruct (assoc i l) as [p|] eqn:E.
  - symmetry. apply assoc_in; [done|]. apply H. by apply assoc_in.
  - destruct (assoc i l') as [p|] eqn:E'; [|done]. apply assoc_in in E'; [|done]. apply H in E'.
    apply assoc_in in E'; [congruence|done].
Qed.

Lemma without_in i j p l : (j, p) ∈ without i l <-> j <> i /\ (j, p) ∈ l.
Proof. unfold without. by rewrite list_elem_of_filter. Qed.

Lemma assoc_without i j l : NoDup l.*1 -> assoc j (without i l) = if decide (j = i) then None else assoc j l.
Proof.
  intros Hd. assert (NoDup (without i l).*1) as Hd'.
  { eapply sublist_NoDup; [exact Hd|]. apply fmap_sublist, sublist_filter. }
  destruct (decide (j = i)) as [->|Hne].
  - destruct (assoc i (without i l)) as [p|] eqn:E; [|done]. apply assoc_in in E; [|done]. by apply without_in in E as [].
  - apply assoc_ext; [done|done|]. intros p. rewrite without_in. tauto.
Qed.

Lemma view_nodup w k : NoDup (view w k).*1.
Proof. apply norm_nodup. Qed.

#[export] Instance slots_laws : DepotLaws Slots P C.
Proof.
  refine {| depot_queue := view |}.
  - intros w i. apply lookup_lt_is_Some.
  - intros w k i p. apply assoc_in, view_nodup.
  - apply view_nodup.
  - intros w k i p. apply norm_slots.
  - intros w i c j Hi. cbn. destruct (decide (j = i)) as [->|Hne]; [by apply list_lookup_insert_eq|by apply list_lookup_insert_ne].
  - intros w i c k. unfold view. cbn. rewrite length_insert. by destruct k.
  - intros w i c. apply length_insert.
  - intros w k i p k' Hi Hn. cbn. unfold sample_push. rewrite decide_True by done. rewrite view_with by (by apply push_norm).
    destruct (decide (k' = k)) as [->|]; [|done]. rewrite without_none; [done|]. by eapply assoc_none, view_nodup.
  - intros w k i p k' j Hi. cbn. unfold sample_push. rewrite decide_True by done. rewrite view_with by (by apply push_norm).
    destruct (decide (k' = k)) as [->|Hk].
    + assert (NoDup (without i (view w k) ++ [(i, p)]).*1) as Hd by (rewrite <- push_norm by done; apply norm_nodup).
      destruct (decide (j = i)) as [->|Hne].
      * rewrite decide_True by done. apply assoc_in; [done|]. apply elem_of_app. right. by left.
      * rewrite (decide_False (P := k = k /\ j = i)) by tauto. apply assoc_ext; [done|apply view_nodup|].
        intros q. rewrite elem_of_app, without_in, list_elem_of_singleton. split; [intros [[]|[= -> ->]]; done|tauto].
    + by rewrite (decide_False (P := k' = k /\ j = i)) by tauto.
  - intros w k i p j. cbn. unfold sample_push. destruct (decide _); [by destruct k|done].
  - intros w k i p. cbn. unfold sample_push. destruct (decide _); [by destruct k|done].
  - intros w k i k' j. cbn. rewrite view_with by apply norm_without.
    destruct (decide (k' = k)) as [->|Hk].
    + rewrite assoc_without by apply view_nodup. destruct (decide (j = i)) as [->|].
      * by rewrite decide_True.
      * rewrite (decide_False (P := k = k /\ j = i)); [done|tauto].
    + rewrite (decide_False (P := k' = k /\ j = i)); [done|tauto].
  - intros w k i j. by destruct k.
  - intros w k i. by destruct k.
  - intros w k. cbn. destruct (view w k) as [|[i p] q] eqn:E; [done|]. exists (with_raw w k q). split; [done|].
    assert (norm (length (cells w)) q = q) as Hq.
    { pose proof (view_nodup w k) as Hd. rewrite E in Hd. cbn in Hd. apply NoDup_cons in Hd as [_ Hd]. apply norm_id; [done|].
      intros j p' Hj. apply (norm_slots (length (cells w)) (raw w k) j p'). fold (view w k). rewrite E. by right. }
    split; [intros k'; by apply view_with|]. by destruct k.
  - done.
Defined.
End slots.

(** ** Connections, cutoffs, lanes, queues *)

(** A connection is a slot and a generation, its position itself. *)
#[export] Instance pair_identity : Identity (nat * nat) (nat * nat) := {|
  index := fst;
  connection p := p;
  position_of := Some |}.

#[export] Instance pair_laws : IdentityLaws (nat * nat) (nat * nat).
Proof. by intros t p [= ->]. Qed.

#[export] Instance number_cutoffs : Cutoffs (option nat) := {|
  cutoff_empty := None;
  cutoff_is_empty c := match c with None => true | Some _ => false end |}.

(** A lane: the number of the order in front and how many there are, two at most. *)
Definition Run : Type := nat * nat.

#[export] Instance run_replies : Replies () nat nat (option nat) Run := {|
  reply_depth := snd;
  reply_registration l := if (l.2 <? 2)%nat then Registration.Available else Registration.Full;
  reply_deactivate l := l;
  reply_bind_retire l _ := l;
  reply_cutoff l := match l.2 with O => None | S d => Some (l.1 + d)%nat end;
  reply_contains l c := match c with None => false | Some n => (l.1 <=? n)%nat && (n <? l.1 + l.2)%nat end;
  reply_is_cutoff l c := match c with None => false | Some n => (n =? l.1)%nat && negb (l.2 =? 0)%nat end;
  reply_push l fr := match l.2 with O => Err (InsertError.Front fr Front.Empty) | S _ => Ok l end;
  reply_complete l := (S l.1, Nat.pred l.2);
  reply_admit l := if (l.2 <? 2)%nat then Ok (l.1, S l.2) else Err ();
  reply_fail work l _ := ((l.1 + Nat.min work l.2)%nat, (l.2 - Nat.min work l.2)%nat, (l.2 <=? work)%nat);
  reply_exhausted := () |}.

#[export] Instance run_laws : RepliesLaws () nat nat (option nat) Run.
Proof.
  refine {| stamp c := c; first := fst |}; cbn.
  - by intros [n|].
  - done.
  - intros [f [|d]] n; cbn; [done|]. intros [= <-]. lia.
  - intros [f d] [n|].
    + change ((f <=? n)%nat && (n <? f + d)%nat = true <-> exists m, Some n = Some m /\ (f <= m < f + d)%nat).
      rewrite andb_true_iff, Nat.leb_le, Nat.ltb_lt. split; [intros; by exists n|]. intros (m & [= <-] & ?). lia.
    + cbn. split; [done|]. by intros (m & ? & _).
  - intros [f d] c n -> Hd. cbn in *. rewrite andb_true_iff, Nat.eqb_eq, negb_true_iff, Nat.eqb_neq. tauto.
  - done.
  - done.
  - by intros [f [|d]] fr.
  - intros [f [|d]] Hd; cbn in *; [done|]. lia.
  - intros [f d] l' H. change ((if (d <? 2)%nat then Ok (f, S d) else Err ()) = Ok l') in H.
    destruct (d <? 2)%nat; [|done]. by injection H as <-.
  - intros n [f d] _. cbn. lia.
Defined.

(** A queue is the one [CoreQueue] is looked at with: its entries, their weight and the
    places reserved in it; it holds two. *)
Definition Requests : Type := list (Entry Z) * Z * nat.

(** Two vacant slots. *)
Definition two_slots : Slots (P := nat * nat) (C := State.State (nat * nat) nat (Failure.Failure ()) (option nat)) :=
  {| cells := [State.Vacant; State.Vacant]; idle := []; returned := [] |}.

Definition no_requests (_ : nat) : Requests := ([], 0, 0%nat).

Definition no_orders (_ : nat) : Run := (0, 0)%nat.
