(* ===== verification/RespHandshake.v ===== *)
(** * The handshake of a Redis connection

    One connection of [RespClient] from its opening: reads, deliveries and flushes in
    any order the reactor may choose, while the rest of the pool does what it likes. It
    becomes ready only when every configured command was sent and answered in turn. *)
From S2P Require Import Prelude CoreQueue RespLimit RespState RespRequest RespCommands RespTape RespCodec.
From S2P Require Import RespFailure RespRoutes RespSchedule RespClient RespInstances.

(** ** The commands in order *)

Definition plan_commands (p : Plan) : list Command.Command :=
  option_list (Command.Authenticate <$> auth p) ++ option_list (Command.Select <$> database p) ++
  option_list (Command.Name <$> client_name p).

Lemma plan_first_head p : plan_first p = plan_commands p !! 0%nat.
Proof. unfold plan_first, plan_commands. by destruct (auth p), (database p), (client_name p). Qed.

Lemma plan_next_step p i c : plan_commands p !! i = Some c -> plan_next p (command_step c) = plan_commands p !! S i.
Proof.
  unfold plan_next, plan_commands.
  destruct (auth p), (database p), (client_name p); destruct i as [|[|[|[|i]]]]; cbn; try done; by intros [= <-].
Qed.

Lemma plan_step_inj p i j c d :
  plan_commands p !! i = Some c -> plan_commands p !! j = Some d -> command_step c = command_step d -> i = j.
Proof.
  unfold plan_commands. destruct (auth p), (database p), (client_name p);
    destruct i as [|[|[|[|i]]]]; cbn; try done; intros [= <-]; destruct j as [|[|[|[|j]]]]; cbn; try done; intros [= <-];
    cbn; done.
Qed.

(** An outbox keeps the frames it takes, in order. *)
Class OutboxLaws (X K : Type) `{Outbox X K} := {
  sent_frames : K -> list (list Z);
  insert_law : forall k f k', sink_insert k f = Ok k' -> sent_frames k' = sent_frames k ++ [f] }.

(** ** The system *)

Section handshake.
Context {X I P T Cu Fr V W B L K SP O : Type}.
Context `{EqDecision I, !Identity I P, !Cutoffs Cu, !Depot W P (State.State P T (Failure.Failure X) Cu)}.
Context `{!Replies X T Fr Cu L, !Fair X V B, !Outbox X K, !OutboxLaws X K, !Output SP O X X, !OutputLaws SP O X X}.
Context (share : list Z -> result X (list Z)) (of_hold : X -> Close.Reason X) (reply_bytes : Fr -> list Z) (plan : Plan).
Notation Schedule := (Schedule W B L).
Notation Turn := (Turn X I K Schedule).
Notation Receipt := (option Step.Step * Cu)%type.

(** The connection, and what happened: whether it was opened and whether its close went
    past the point of no return, the frames sent at the receipts of the first buffered
    byte and of the newest, the receipts, and the replies that moved the handshake on:
    the step each was taken for, what it read as, and the frames sent when its first byte
    was asked for. *)
Record Hand := {
  turn : Turn;
  begun : bool;
  gone : bool;
  buffered : option nat;
  newest : nat;
  receipts : list (Receipt * nat);
  accepted : list (Step.Step * option Event.Event * nat) }.

Definition hand_new (w : Turn) : Hand :=
  {| turn := w; begun := false; gone := false; buffered := None; newest := 0; receipts := []; accepted := [] |}.

Definition frames (w : Turn) : list (list Z) := sent_frames (outbox (ctx w)).

(** The statuses under which replies are delivered. *)
Definition is_live_status (s : CloseStatus.Status X) : bool :=
  match s with
  | CloseStatus.Open | CloseStatus.Closing (ClosePhase.Withdrawing | ClosePhase.Requested | ClosePhase.Quarantining) _ => true
  | _ => false
  end.

Definition is_open (s : CloseStatus.Status X) : bool := match s with CloseStatus.Open => true | _ => false end.

Inductive HandEvent :=
| HStart (span : option SP)
| HReceipt
| HReceived (r : Receipt) (at_ : nat) (has_prefix : bool)
| HDeliver (event : option Event.Event) (status : CloseStatus.Status X) (decoded : result X (Decoded.Decoded X Fr)) (more : bool)
| HFlush (span : option SP) (status : CloseStatus.Status X) (input : Input.Input)
| HOther (s : Schedule) (a : Activity X).

Definition with_turn (w : Hand) (t : Turn) : Hand :=
  {| turn := t; begun := begun w; gone := gone w; buffered := buffered w; newest := newest w; receipts := receipts w;
     accepted := accepted w |}.

(** The step that a change of phase passes. *)
Definition accepts_step (before after : Phase.Phase) : list Step.Step :=
  match before, after with Phase.Init step, Phase.Advance _ => [step] | _, _ => [] end.

Definition hand_step (w : Hand) (ev : HandEvent) : Hand :=
  let t := turn w in
  match ev with
  | HStart span =>
      {| turn := (init_start share of_hold plan span t).1; begun := true; gone := gone w; buffered := buffered w;
         newest := newest w; receipts := receipts w; accepted := accepted w |}
  | HReceipt =>
      {| turn := t; begun := begun w; gone := gone w; buffered := buffered w; newest := newest w;
         receipts := (logic_receipt t, length (frames t)) :: receipts w; accepted := accepted w |}
  | HReceived r at_ has_prefix =>
      {| turn := logic_received t r has_prefix; begun := begun w; gone := gone w;
         buffered := if has_prefix then buffered w else Some at_; newest := at_; receipts := receipts w;
         accepted := accepted w |}
  | HDeliver event status decoded more =>
      let t' := (deliver share of_hold reply_bytes (fun _ => event) status t decoded).1.1 in
      {| turn := t'; begun := begun w; gone := gone w || negb (is_live_status status);
         buffered := if more then Some (newest w) else None; newest := newest w; receipts := receipts w;
         accepted := accepted w ++ ((fun step => (step, event, default 0%nat (buffered w))) <$> accepts_step (phase (ctx t)) (phase (ctx t'))) |}
  | HFlush span status input => with_turn w (logic_flush share of_hold plan span status t input).1
  | HOther s a => with_turn w {| schedule := s; activity := a; ctx := ctx t |}
  end.

(** What the reactor keeps to: a connection is opened once; what was received is
    accounted to a receipt; it says whether bytes were left over, and what input is
    left; and a close that was asked for, or is past its point, does not go back. *)
Definition hand_allowed (w : Hand) (ev : HandEvent) : Prop :=
  match ev with
  | HStart _ => begun w = false
  | HReceipt => begun w = true
  | HReceived r at_ has_prefix => begun w = true /\ (r, at_) ∈ receipts w /\ has_prefix = bool_decide (is_Some (buffered w))
  | HDeliver _ status _ _ => begun w = true /\ is_Some (buffered w) /\ (gone w = true -> is_live_status status = false)
  | HFlush _ status input =>
      begun w = true /\
      match input with Input.Empty => buffered w = None | Input.Partial => is_Some (buffered w) | _ => True end /\
      (closes (ctx (turn w)) <> [] \/ gone w = true -> is_open status = false)
  | HOther _ _ => True
  end.

Inductive hand_reaches : Hand -> Hand -> Prop :=
| hand_refl w : hand_reaches w w
| hand_next w1 w2 ev : hand_reaches w1 w2 -> hand_allowed w2 ev -> hand_reaches w1 (hand_step w2 ev).

(** ** The invariant *)

Notation commands := (plan_commands plan).

(** Each command, its answer, and how many were sent when that was asked for. *)
Definition answers : list (Step.Step * option Event.Event * nat) :=
  imap (fun i c => (command_step c, Some Event.Ok, S i)) commands.

(** The frame of a command: one array of its arguments. *)
Definition spells (c : Command.Command) (f : list Z) : Prop := f = spelling (request_args (command_request c)).

Definition sent_upto (w : Turn) (n : nat) : Prop := Forall2 spells (take n commands) (frames w).

(** Where the handshake stands in a phase. *)
Definition stands (w : Hand) (ph : Phase.Phase) : Prop :=
  match ph with
  | Phase.Init step => exists i c, commands !! i = Some c /\ command_step c = step /\ sent_upto (turn w) (S i) /\
      accepted w = take i answers /\ forall n, buffered w = Some n -> n = S i
  | Phase.Advance step => exists i c, commands !! i = Some c /\ command_step c = step /\ sent_upto (turn w) (S i) /\
      accepted w = take (S i) answers
  | _ => True
  end.

Record hand_ok (w : Hand) : Prop := {
  hk_new : begun w = false -> phase (ctx (turn w)) = Phase.Offline /\ frames (turn w) = [] /\ accepted w = [] /\
    receipts w = [] /\ buffered w = None /\ closes (ctx (turn w)) = [];
  hk_ready : phase (ctx (turn w)) = Phase.Ready -> Forall2 spells commands (frames (turn w)) /\ accepted w = answers;
  hk_stands : closes (ctx (turn w)) = [] -> gone w = false -> phase (ctx (turn w)) <> Phase.Ready ->
    stands w (phase (ctx (turn w))) /\
    forall r n step, (r, n) ∈ receipts w -> r.1 = Some step ->
      exists i c, commands !! i = Some c /\ command_step c = step /\ n = S i }.

Lemma turn_fail_ctx (w : Turn) cause : ctx (turn_fail share w cause).1 = ctx w.
Proof. unfold turn_fail. by destruct (port_fail _ _ _ _ _) as [[s a] ns]. Qed.

(** A turn that fails asks for a close; its phase and what it sent stay. *)
Lemma init_fail_ctx (w : Turn) cause :
  phase (ctx (init_fail share of_hold w cause).1) = phase (ctx w) /\
  outbox (ctx (init_fail share of_hold w cause).1) = outbox (ctx w) /\ closes (ctx (init_fail share of_hold w cause).1) <> [].
Proof. unfold init_fail. rewrite turn_fail_ctx. split_and!; [done|done|]. cbn. by destruct (closes (ctx w)). Qed.

Lemma reply_fail_ctx (w : Turn) cause :
  phase (ctx (reply_fail_turn share of_hold w cause).1) = phase (ctx w) /\
  outbox (ctx (reply_fail_turn share of_hold w cause).1) = outbox (ctx w) /\
  closes (ctx (reply_fail_turn share of_hold w cause).1) <> [].
Proof. unfold reply_fail_turn. rewrite turn_fail_ctx. split_and!; [done|done|]. cbn. by destruct (closes (ctx w)). Qed.

Lemma spelled_command span command (c c' : Ctx X I K) :
  init_send span command c = Ok c' ->
  exists f, spells command f /\ sent_frames (outbox c') = sent_frames (outbox c) ++ [f] /\ phase c' = phase c /\
    closes c' = closes c.
Proof.
  unfold init_send, requests_frame. destruct span as [span|]; [|done].
  destruct (run_request span (command_request command)) as [complete|e] eqn:E; [|done].
  destruct (sink_insert (outbox c) (frame complete)) as [k|x] eqn:Ek; [|done]. intros [= <-].
  apply run_carries in E as (_ & Hf & _); [|by destruct command as [[]| |]].
  exists (frame complete). split; [done|]. by rewrite (insert_law _ _ _ Ek).
Qed.

(** ** Every event keeps it *)

(** A turn that asked for a close has nothing more to show, unless it was ready. *)
Lemma closed_ok (w w' : Hand) :
  hand_ok w -> begun w' = true -> closes (ctx (turn w')) <> [] -> phase (ctx (turn w')) = phase (ctx (turn w)) ->
  frames (turn w') = frames (turn w) -> (phase (ctx (turn w)) = Phase.Ready -> accepted w' = accepted w) -> hand_ok w'.
Proof.
  intros [H1 H2 H3] Hb Hc Hp Hf Ha. split; [congruence| |done].
  intros E. rewrite Hp in E. destruct (H2 E) as [H4 H5]. rewrite Hf. split; [done|]. by rewrite Ha.
Qed.

(** The next command is sent, or the connection is closed. *)
Lemma begin_ok w span i c w' :
  commands !! i = Some c -> sent_upto (turn w) i -> accepted w = take i answers -> buffered w = None ->
  (forall r n step, (r, n) ∈ receipts w -> r.1 = Some step ->
    exists i c, commands !! i = Some c /\ command_step c = step /\ n = S i) ->
  closes (ctx (turn w)) = [] -> begun w' = true -> accepted w' = accepted w -> buffered w' = buffered w ->
  receipts w' = receipts w -> turn w' = (init_begin share of_hold span (turn w) c).1 -> hand_ok w'.
Proof.
  intros Hi Hs Ha Hn Hr Hc Hb Ea Eb Er Et. unfold init_begin in Et. set (t := set_phase (turn w) _) in Et.
  destruct (init_send span c (ctx t)) as [c'|e] eqn:E; cbn [fst] in Et.
  - apply spelled_command in E as (f & Hf & Hk & Hp & Hcl).
    assert (phase (ctx (turn w')) = Phase.Init (command_step c)) as Eph by (rewrite Et; cbn; by rewrite Hp).
    split; [congruence|by rewrite Eph|]. intros _ _ _. rewrite Eph. split; [|by rewrite Er].
    exists i, c. split; [done|]. split; [done|]. rewrite Ea, Eb. split; [|split; [done|by rewrite Hn]].
    unfold sent_upto, frames. rewrite Et. cbn. rewrite Hk. rewrite (take_S_r _ _ _ Hi). apply Forall2_app; [exact Hs|].
    by repeat constructor.
  - destruct (init_fail_ctx t e) as (Hp & Hk & Hcl). rewrite <- Et in Hp, Hk, Hcl. split; [congruence| |done].
    rewrite Hp. cbn. done.
Qed.

(** All was sent and answered: the connection is ready, or it is closed. *)
Lemma ready_ok w w' :
  Forall2 spells commands (frames (turn w)) -> accepted w = answers -> begun w' = true -> accepted w' = accepted w ->
  phase (ctx (turn w)) <> Phase.Ready ->
  turn w' = (init_ready share of_hold (turn w)).1 -> hand_ok w'.
Proof.
  intros Hs Ha Hb Ea Hph Et. unfold init_ready in Et.
  destruct (mark_ready _ _ _) as [[[s a] []] ns]; cbn [fst] in Et.
  - split; [congruence| |rewrite Et; cbn; done]. intros _. rewrite Et, Ea. by unfold frames.
  - destruct (init_fail_ctx {| schedule := s; activity := a; ctx := ctx (turn w) |} Failure.UnexpectedResponse) as (Hp & Hk & Hcl).
    destruct (init_fail _ _ _ _) as [t more]. cbn [fst] in Et, Hp, Hk, Hcl. rewrite <- Et in Hp, Hk, Hcl.
    split; [congruence| |done]. rewrite Hp. cbn. done.
Qed.

Lemma answers_length : length answers = length commands.
Proof. apply length_imap. Qed.

Lemma answers_take i c : commands !! i = Some c -> take (S i) answers = take i answers ++ [(command_step c, Some Event.Ok, S i)].
Proof. intros Hi. apply take_S_r. unfold answers. by rewrite list_lookup_imap, Hi. Qed.

Lemma start_ok w span : hand_ok w -> begun w = false -> hand_ok (hand_step w (HStart span)).
Proof.
  intros [H1 _ _] Hb. destruct (H1 Hb) as (Hph & Hf & Ha & Hr & Hbuf & Hc).
  set (w0 := with_turn w (set_phase (turn w) Phase.Offline)). cbn [hand_step]. unfold init_start.
  rewrite plan_first_head. destruct (commands !! 0%nat) as [c|] eqn:E.
  - apply (begin_ok w0 span 0 c); try done; cbn.
    + unfold sent_upto, frames. cbn. fold (frames (turn w)). rewrite Hf. constructor.
    + rewrite Hr. intros r n step Hin. by apply elem_of_nil in Hin.
  - apply (ready_ok w0); try done; cbn.
    + unfold frames. cbn. fold (frames (turn w)). rewrite Hf. destruct commands; [constructor|done].
    + rewrite Ha. unfold answers. by destruct commands.
Qed.

Lemma receipt_ok w : hand_ok w -> begun w = true -> hand_ok (hand_step w HReceipt).
Proof.
  intros [H1 H2 H3] Hb. split; cbn [hand_step turn begun gone receipts accepted]; [by rewrite Hb|done|].
  intros Hc Hg Hp. destruct (H3 Hc Hg Hp) as [Hs Hr]. split; [exact Hs|].
  intros r n step [[= -> ->]|Hin]%elem_of_cons Hstep; [|by eapply Hr]. cbn in Hstep.
  destruct (phase (ctx (turn w))) as [|st| | |] eqn:E; try done. injection Hstep as ->.
  destruct Hs as (i & c & Hi & Hst & Hs & _). exists i, c. split; [done|]. split; [done|].
  pose proof (Forall2_length _ _ _ Hs) as Hl. rewrite length_take in Hl. apply lookup_lt_Some in Hi. lia.
Qed.

Lemma hand_received_ok w r at_ has_prefix :
  hand_ok w -> hand_allowed w (HReceived r at_ has_prefix) -> hand_ok (hand_step w (HReceived r at_ has_prefix)).
Proof.
  intros [H1 H2 H3] (Hb & Hin & Hpre). split; cbn [hand_step turn begun gone receipts accepted]; [by rewrite Hb| |].
  - unfold logic_received, phase_received. cbn. destruct (phase (ctx (turn w))) as [| | | |] eqn:E; cbn;
      repeat (destruct (negb _); cbn); try done; by rewrite ?andb_false_r in *; intros; apply H2.
  - intros Hc Hg Hp. cbn in Hc, Hp.
    assert (phase (ctx (turn w)) <> Phase.Ready) as Hp0.
    { intros E. rewrite E in Hp. unfold phase_received in Hp. by rewrite andb_false_r in Hp. }
    destruct (H3 Hc Hg Hp0) as [Hs Hr]. split; [|exact Hr]. cbn. unfold phase_received.
    destruct (phase (ctx (turn w))) as [|st|st| |] eqn:E; rewrite ?andb_false_r; cbn; try done.
    + destruct Hs as (i & c & Hi & Hst & Hs & Ha & Hbuf). destruct has_prefix; cbn.
      * exists i, c. by split_and!.
      * destruct (decide (r.1 = Some st)) as [Hr1|Hr1]; [|by rewrite bool_decide_false].
        rewrite bool_decide_true by done. exists i, c. split_and!; try done.
        intros n [= <-]. destruct (Hr _ _ _ Hin Hr1) as (j & d & Hj & Hd & ->). f_equal.
        eapply plan_step_inj; [exact Hj|exact Hi|congruence].
    + destruct has_prefix; cbn; done.
Qed.

(** What a delivery does to the connection: nothing, a close, or the reply of the
    command under way is accepted. *)
Definition delivery (event : option Event.Event) (status : CloseStatus.Status X) (t : Turn)
    (decoded : result X (Decoded.Decoded X Fr)) (t' : Turn) : Prop :=
  outbox (ctx t') = outbox (ctx t) /\
  (phase (ctx t') = phase (ctx t) /\
     (closes (ctx t') <> [] \/ is_live_status status = false \/ phase (ctx t) = Phase.Ready) \/
   exists step reply, phase (ctx t) = Phase.Init step /\ phase (ctx t') = Phase.Advance step /\ event = Some Event.Ok /\
     decoded = Ok (Decoded.Frame reply) /\ closes (ctx t') = closes (ctx t)).

Lemma delivery_fail event status t decoded cause :
  delivery event status t decoded (let (w, notices) := reply_fail_turn share of_hold t cause in (w, None : option Fr, notices)).1.1.
Proof.
  pose proof (reply_fail_ctx t cause) as (H1 & H2 & H3). destruct (reply_fail_turn _ _ _ _). split; [done|]. left. auto.
Qed.

Lemma delivery_dead event status t decoded : is_live_status status = false -> delivery event status t decoded t.
Proof. intros H. split; [done|]. left. auto. Qed.

Lemma delivery_push event status t decoded reply :
  phase (ctx t) = Phase.Ready -> delivery event status t decoded (reply_push_turn share of_hold t reply).1.1.
Proof.
  intros Hp. unfold reply_push_turn. destruct (try_reply _ _ _) as [[s [back|[fr cause]]] ns]; [split; [done|]; left; auto|].
  destruct (reply_fail_ctx (with_schedule t s) cause) as (H1 & H2 & _). destruct (reply_fail_turn _ _ _ _).
  split; [done|]. left. auto.
Qed.

Lemma delivery_response event status t reply step :
  phase (ctx t) = Phase.Init step ->
  delivery event status t (Ok (Decoded.Frame reply))
    (let (w, notices) := init_response share of_hold reply_bytes t step event reply in (w, None : option Fr, notices)).1.1.
Proof.
  intros Hp. unfold init_response.
  assert (forall f, delivery event status t (Ok (Decoded.Frame reply))
    (let (w, notices) := init_fail share of_hold t f in (w, None : option Fr, notices)).1.1) as Hf.
  { intros f. destruct (init_fail_ctx t f) as (H1 & H2 & H3). destruct (init_fail share of_hold t f). split; [done|]. left. auto. }
  destruct event as [[]|]; try apply Hf. split; [done|]. right. by exists step, reply.
Qed.

Lemma deliver_ctx event status (t : Turn) decoded :
  delivery event status t decoded (deliver share of_hold reply_bytes (fun _ => event) status t decoded).1.1.
Proof.
  assert (is_live_status status = true ->
    delivery event status t decoded (deliver share of_hold reply_bytes (fun _ => event) CloseStatus.Open t decoded).1.1) as Hlive.
  { intros _. unfold deliver. destruct decoded as [[reply|failure|error]|error]; try apply delivery_fail.
    destruct (phase (ctx t)) as [|step|step| |] eqn:Eph; try apply delivery_fail;
      [by apply delivery_response|by apply delivery_push]. }
  destruct status as [|[] reason]; try (by apply Hlive); try (by apply delivery_dead).
  unfold deliver. destruct reason; try (by apply delivery_dead).
  destruct decoded as [[]|]; try (by apply delivery_dead). apply delivery_fail.
Qed.

Lemma deliver_ok w event status decoded more :
  hand_ok w -> hand_allowed w (HDeliver event status decoded more) -> hand_ok (hand_step w (HDeliver event status decoded more)).
Proof.
  intros Hok (Hb & [n Hn] & Hgone). cbn [hand_step].
  pose proof (deliver_ctx event status (turn w) decoded) as Hd.
  set (t' := (deliver share of_hold reply_bytes (fun _ => event) status (turn w) decoded).1.1) in *.
  destruct Hd as (Hout & [[Hp Hc]|(step & reply & Hp & Hp' & He & Hdec & Hc)]).
  - assert (accepts_step (phase (ctx (turn w))) (phase (ctx t')) = []) as Ea by (rewrite Hp; by destruct (phase (ctx (turn w)))).
    rewrite Ea. cbn [fmap list_fmap]. rewrite app_nil_r. destruct Hok as [H1 H2 H3].
    split; cbn [turn begun gone receipts accepted]; [congruence| |].
    + intros E. unfold frames. rewrite Hout. apply H2. by rewrite <- Hp.
    + rewrite orb_false_iff, negb_false_iff. intros Hcl [Hg Hs] Hr. exfalso. rewrite Hp in Hr.
      destruct Hc as [?|[?|?]]; congruence.
  - rewrite Hp, Hp'. cbn [accepts_step fmap list_fmap]. rewrite Hn. cbn [default from_option].
    destruct Hok as [H1 H2 H3]. split; cbn [turn begun gone receipts accepted]; [congruence|by rewrite Hp'|].
    rewrite Hc, Hp'. intros Hcl [Hg _]%orb_false_iff _. destruct (H3 Hcl Hg) as [Hs Hr]; [by rewrite Hp|]. split; [|exact Hr].
    rewrite Hp in Hs. destruct Hs as (i & c & Hi & Hst & Hs & Ha & Hbuf). exists i, c. split; [done|]. split; [done|].
    split; [unfold sent_upto, frames; cbn; rewrite Hout; exact Hs|]. cbn. rewrite Ha, (answers_take i c Hi), Hst.
    by rewrite He, (Hbuf n Hn).
Qed.

Lemma flush_ok w span status input :
  hand_ok w -> hand_allowed w (HFlush span status input) -> hand_ok (hand_step w (HFlush span status input)).
Proof.
  intros Hok (Hb & Hin & Hcl). cbn [hand_step].
  assert (forall f, hand_ok (with_turn w (reply_fail_turn share of_hold (turn w) f).1)) as Hf.
  { intros f. destruct (reply_fail_ctx (turn w) f) as (H1 & H2 & H3). apply (closed_ok w); try done.
    unfold frames. cbn. by rewrite H2. }
  assert (hand_ok (with_turn w (turn w))) as Hsame by (by destruct w).
  unfold logic_flush. destruct (phase (ctx (turn w))) as [|step|step| |] eqn:Eph.
  1,2,5: destruct (try_input _ _ _) as [[]|]; [exact Hsame|apply Hf].
  - unfold init_advance. destruct status; [|exact Hsame].
    assert (closes (ctx (turn w)) = [] /\ gone w = false) as [Hc Hg].
    { destruct (closes (ctx (turn w))) as [|d ds]; [|by specialize (Hcl ltac:(by left))].
      split; [done|]. destruct (gone w); [by specialize (Hcl ltac:(by right))|done]. }
    pose proof Hok as [H1 H2 H3]. destruct (H3 Hc Hg ltac:(by rewrite Eph)) as [Hs Hr]. rewrite Eph in Hs.
    destruct Hs as (i & c & Hi & Hst & Hs & Ha). destruct input; try exact Hsame.
    + rewrite <- Hst, (plan_next_step _ _ _ Hi). destruct (commands !! S i) as [d|] eqn:Ed.
      * by apply (begin_ok w span (S i) d).
      * apply lookup_ge_None in Ed. apply lookup_lt_Some in Hi as Hlt. apply (ready_ok w); try done.
        -- unfold sent_upto in Hs. by rewrite take_ge in Hs.
        -- rewrite Ha. apply take_ge. rewrite answers_length. lia.
        -- by rewrite Eph.
    + destruct (init_fail_ctx (turn w) Failure.UnexpectedResponse) as (A1 & A2 & A3). apply (closed_ok w); try done.
      unfold frames. cbn. by rewrite A2.
  - destruct input; try exact Hsame. destruct status; [apply Hf|exact Hsame].
Qed.

Lemma other_ok w s a : hand_ok w -> hand_ok (hand_step w (HOther s a)).
Proof. intros [H1 H2 H3]. by split. Qed.

Lemma hand_new_ok (t : Turn) :
  phase (ctx t) = Phase.Offline -> closes (ctx t) = [] -> frames t = [] -> hand_ok (hand_new t).
Proof.
  intros Hp Hc Hf. split; cbn; [done|by rewrite Hp|]. intros _ _ _. rewrite Hp. split; [done|].
  intros r n step Hin. by apply elem_of_nil in Hin.
Qed.

Lemma hand_reaches_ok w w' : hand_reaches w w' -> hand_ok w -> hand_ok w'.
Proof.
  induction 1 as [w|w1 w2 ev _ IH Hev]; [done|]. intros Hok. specialize (IH Hok). destruct ev.
  - by apply start_ok.
  - by apply receipt_ok.
  - by apply hand_received_ok.
  - by apply deliver_ok.
  - by apply flush_ok.
  - by apply other_ok.
Qed.

(** Events that follow the rule, one after the other. *)
Fixpoint hand_rule (w : Hand) (evs : list HandEvent) : Prop :=
  match evs with [] => True | ev :: evs => hand_allowed w ev /\ hand_rule (hand_step w ev) evs end.

Lemma hand_run w0 w evs : hand_reaches w0 w -> hand_rule w evs -> hand_reaches w0 (foldl hand_step w evs).
Proof.
  revert w. induction evs as [|ev evs IH]; intros w Hw; [done|]. intros [Ha Hr]. cbn. apply IH; [|done]. by constructor.
Qed.

(** C6. A connection is ready only after its handshake. However the reactor cuts and
    orders what it reads, and whatever happens to the rest of the pool: once the phase is
    [Ready], the frames sent are exactly those of the configured commands, in order,
    authentication first, and the replies that moved the handshake on are one per
    command, in that order, each an OK (no error, no other reply is taken for one), whose
    bytes were only read after its own command had been sent and before the next one
    was. *)
Theorem handshake_complete t w :
  phase (ctx t) = Phase.Offline -> closes (ctx t) = [] -> frames t = [] -> hand_reaches (hand_new t) w ->
  phase (ctx (turn w)) = Phase.Ready ->
  frames (turn w) = (fun c => spelling (request_args (command_request c))) <$> commands /\
  accepted w = imap (fun i c => (command_step c, Some Event.Ok, S i)) commands.
Proof.
  intros Hp Hc Hf Hr Hready. apply hand_reaches_ok in Hr; [|by apply hand_new_ok].
  destruct (hk_ready _ Hr Hready) as [Hs Ha]. split; [|exact Ha]. clear -Hs. induction Hs as [|c f cs fs -> _ IH]; [done|].
  cbn. by f_equal.
Qed.
End handshake.

(** ** A handshake that runs *)

(** Frames of at most 64 bytes, kept in a list. *)
#[export] Instance list_outbox : Outbox () (list (list Z)) := fun k f => Ok (k ++ [f]).

#[export] Instance list_outbox_laws : OutboxLaws () (list (list Z)).
Proof. refine {| sent_frames k := k |}. intros k f k'. by intros [= <-]. Defined.

Definition sample_plan : Plan :=
  {| auth := Some (Auth.User (bytes_of "me") (bytes_of "pw")); database := Some 3; client_name := None |}.

Definition sample_turn : Turn () (nat * nat) (list (list Z)) (Schedule (Slots (P := nat * nat) (C := State.State (nat * nat) nat (Failure.Failure ()) (option nat))) Requests Run) :=
  {| schedule := (activate (schedule_new two_slots no_requests no_orders) 0 (0, 0)%nat 10%nat).1;
     activity := {| failures := failures_new 2; terminal := None |};
     ctx := {| conn_id := (0, 0)%nat; phase := Phase.Offline; outbox := []; closes := [] |} |}.

Notation sample_event := (HandEvent (X := ()) (Cu := option nat) (Fr := nat) (W := Slots (P := nat * nat) (C := State.State (nat * nat) nat (Failure.Failure ()) (option nat))) (B := Requests) (L := Run) (SP := Z)).

(** A command answered by OK, after [n] frames were sent. *)
Definition sample_answer (step : Step.Step) (n : nat) : list sample_event :=
  [HReceipt; HReceived (Some step, None) n false; HDeliver (Some Event.Ok) CloseStatus.Open (Ok (Decoded.Frame 0%nat)) false;
   HFlush (Some 64) CloseStatus.Open Input.Empty].

Definition sample_hand : list sample_event :=
  HStart (Some 64) :: sample_answer Step.Authenticate 1 ++ sample_answer Step.Select 2.

Definition sample_shaken : Hand :=
  foldl (hand_step (fun _ => Err ()) (fun _ => Close.OnTransport) (fun _ => []) sample_plan) (hand_new sample_turn) sample_hand.

Ltac hand_by_rule :=
  vm_compute;
  repeat match goal with
  | |- _ /\ _ => split
  | |- True => exact Logic.I
  | |- _ = _ => reflexivity
  | |- _ \/ _ -> _ => intros [H|H]; [destruct H; reflexivity|discriminate H]
  | |- true = false -> _ => discriminate
  | |- false = true -> _ => discriminate
  | |- exists _, _ => eexists
  | |- list_elem_of _ _ => first [apply list_elem_of_here|apply list_elem_of_further]
  end.

Lemma handshake_complete_witness :
  exists w, hand_reaches (fun _ => Err ()) (fun _ => Close.OnTransport) (fun _ => []) sample_plan (hand_new sample_turn) w /\
    phase (ctx (turn w)) = Phase.Ready /\ accepted w = [(Step.Authenticate, Some Event.Ok, 1%nat); (Step.Select, Some Event.Ok, 2%nat)] /\
    frames (turn w) = [spelling [bytes_of "AUTH"; bytes_of "me"; bytes_of "pw"]; spelling [bytes_of "SELECT"; bytes_of "3"]].
Proof.
  exists sample_shaken. assert (phase (ctx (turn sample_shaken)) = Phase.Ready) as Hp by (vm_compute; reflexivity).
  assert (hand_reaches (fun _ => Err ()) (fun _ => Close.OnTransport) (fun _ => []) sample_plan (hand_new sample_turn)
    sample_shaken) as Hr.
  { apply hand_run; [constructor|]. hand_by_rule. }
  split; [exact Hr|]. split; [exact Hp|].
  destruct (handshake_complete (fun _ => Err ()) (fun _ => Close.OnTransport) (fun _ => []) sample_plan sample_turn
    sample_shaken) as [Hf Ha]; [reflexivity|reflexivity|reflexivity|exact Hr|exact Hp|].
  rewrite Hf, Ha. split; vm_compute; reflexivity.
Defined.
