(* ===== verification/RespLeases.v ===== *)
(** * Leases of Redis connections

    The scheduler of [RespSchedule] as a system: connections come and go, requests
    are published to the pool or under a lease, replies arrive, leases are taken and
    dropped, in any order the reactor may choose. The invariant of its reachable
    states, and what leases, the pool and the waiters can rely on. *)
From S2P Require Import Prelude CoreQueue RespFailure RespRoutes RespSchedule RespInstances.

Section system.
Context {X I P T Cu Fr V W B L D : Type}.
Context `{EqDecision I, !Identity I P, !Cutoffs Cu, !Depot W P (State.State P T (Failure.Failure X) Cu)}.
Context `{!Replies X T Fr Cu L, !RepliesLaws X T Fr Cu L, !Fair X V B, !Egress V D X}.
Context (share : list Z -> result X (list Z)) (of_hold : X -> Close.Reason X).
Notation F := (Failure.Failure X).
Notation Schedule := (Schedule W B L).
Notation Handle := (Handle P).
Notation State := (State.State P T F Cu).

(** The orders of a lane end here. *)
Definition issued (l : L) : nat := first l + reply_depth l.

(** The scheduler and its activity, the live leases, and what happened: the
    connections activated, the receipts taken with the orders issued by then, and for
    every slot the orders issued at the receipts that govern the frame being read and
    the newest bytes. *)
Record World := {
  sched : Schedule;
  acts : Activity X;
  leases : list Handle;
  used : list I;
  receipts : list (I * Cu * nat);
  governs : I -> nat * nat }.

Definition world_new (w : W) (queues : nat -> B) (lanes : nat -> L) (slots : nat) : World :=
  {| sched := schedule_new w queues lanes;
     acts := {| failures := failures_new slots; terminal := None |};
     leases := []; used := []; receipts := []; governs := fun _ => (0, 0)%nat |}.

Inductive Event :=
| EvActivate (token : I) (target : T)
| EvReady (token : I)
| EvReceipt (token : I)
| EvReceived (token : I) (cutoff : Cu) (at_ : nat) (has_prefix : bool)
| EvReply (token : I) (frame : Fr)
| EvFail (token : I) (err : F)
| EvQuarantine (token : I) (reason : Close.Reason X)
| EvReconnect (token : I) (err : F)
| EvClearRecv (work : nat) (token : I)
| EvClearSend (work : nat) (token : I)
| EvDrain (token : I) (requests : D)
| EvRetire (token : I)
| EvLease
| EvDrop (k : nat)
| EvPool (exhausted : bool) (frame : V)
| EvDispatch (k : nat) (frame : V)
| EvReaders (i : nat) (l : L).

(** The connection is live in its slot. *)
Definition live_at (s : Schedule) (token : I) : bool :=
  match get_state (routes s) (index token) with
  | Some st => match st with State.Shared b _ | State.Exclusive b _ => is_token b token | _ => false end
  | None => false
  end.

Definition with_sched (w : World) (s : Schedule) : World :=
  {| sched := s; acts := acts w; leases := leases w; used := used w; receipts := receipts w; governs := governs w |}.

Definition with_acts (w : World) (a : Activity X) : World :=
  {| sched := sched w; acts := a; leases := leases w; used := used w; receipts := receipts w; governs := governs w |}.

Definition with_leases (w : World) (ls : list Handle) : World :=
  {| sched := sched w; acts := acts w; leases := ls; used := used w; receipts := receipts w; governs := governs w |}.

Definition with_used (w : World) (us : list I) : World :=
  {| sched := sched w; acts := acts w; leases := leases w; used := us; receipts := receipts w; governs := governs w |}.

Definition with_receipts (w : World) (rs : list (I * Cu * nat)) : World :=
  {| sched := sched w; acts := acts w; leases := leases w; used := used w; receipts := rs; governs := governs w |}.

Definition with_governs (w : World) (token : I) (g : nat * nat) : World :=
  {| sched := sched w; acts := acts w; leases := leases w; used := used w; receipts := receipts w;
     governs := upd (governs w) token g |}.

(** One event, and what it wakes. *)
Definition world_step (w : World) (ev : Event) : option (World * list (Notice T)) :=
  let s := sched w in
  match ev with
  | EvActivate token target =>
      Some (with_used (with_sched w (activate s (index token) token target).1) (token :: used w), [])
  | EvReady token =>
      let '(s, a, _, notices) := mark_ready s (acts w) token in Some (with_acts (with_sched w s) a, notices)
  | EvReceipt token =>
      Some (with_receipts w ((token, receipt s token, issued (lanes s (index token))) :: receipts w), [])
  | EvReceived token cutoff at_ has_prefix =>
      let w' := with_sched w (received s token cutoff has_prefix) in
      Some (if live_at s token then with_governs w' token (if has_prefix then (governs w token).1 else at_, at_) else w', [])
  | EvReply token frame =>
      let '(s', r, notices) := try_reply s token frame in
      let w' := with_sched w s' in
      Some (match r with
            | Ok None => if live_at s token then with_governs w' token ((governs w token).2, (governs w token).2) else w'
            | _ => w'
            end, notices)
  | EvFail token err =>
      let '(s, a, notices) := port_fail share s (acts w) token err in Some (with_acts (with_sched w s) a, notices)
  | EvQuarantine token reason => Some (with_sched w (quarantine s token reason), [])
  | EvReconnect token err => let (s, notices) := schedule_reconnect s token err in Some (with_sched w s, notices)
  | EvClearRecv work token => Some (with_sched w (clear_recv share work s token).1, [])
  | EvClearSend work token => let '(s, _, notices) := clear_send work s token in Some (with_sched w s, notices)
  | EvDrain token requests => r ← drain of_hold s token requests; Some (with_sched w r.1.1, [])
  | EvRetire token => Some (with_sched w (with_routes s (retire (routes s) token)), [])
  | EvLease =>
      r ← try_lease s;
      Some (with_leases (with_sched w r.1) (match r.2 with Some h => h :: leases w | None => leases w end), [])
  | EvDrop k =>
      h ← leases w !! k;
      let (s, notices) := schedule_release s h in
      Some (with_leases (with_sched w s) (delete k (leases w)), notices)
  | EvPool exhausted frame => r ← try_pool s exhausted frame; Some (with_sched w r.1.1, r.2)
  | EvDispatch k frame =>
      h ← leases w !! k;
      r ← try_dispatch_lease s frame (handle_connection h);
      Some (with_sched w r.1.1, r.2)
  | EvReaders i l => Some (with_sched w (with_lane s i l), [])
  end.

(** What the reactor keeps to: a connection is activated once; what was received is
    accounted to a receipt; a connection is retired when it closes, its lanes drained;
    and the tasks that read replies neither add orders nor complete them. *)
Definition allowed (w : World) (ev : Event) : Prop :=
  let s := sched w in
  match ev with
  | EvActivate token _ => token ∉ used w
  | EvReceived token cutoff at_ _ => (token, cutoff, at_) ∈ receipts w
  | EvRetire token =>
      (exists c, get_state (routes s) (index token) = Some (State.Closing c) \/
        get_state (routes s) (index token) = Some (State.Reconnecting c)) /\
      reply_depth (lanes s (index token)) = 0%nat /\ fair_items (queues s (index token)) = []
  | EvDrop k | EvDispatch k _ => (k < length (leases w))%nat
  | EvReaders i l => first l = first (lanes s i) /\ reply_depth l = reply_depth (lanes s i)
  | _ => True
  end.

(** What a server that follows the protocol keeps to: it answers requests that were sent. *)
Definition answered (w : World) (ev : Event) : Prop :=
  match ev with
  | EvReply token _ =>
      reply_depth (lanes (sched w) (index token)) = 0%nat \/
      (length (fair_items (queues (sched w) (index token))) < reply_depth (lanes (sched w) (index token)))%nat
  | _ => True
  end.

Inductive reaches (rule : World -> Event -> Prop) : World -> World -> Prop :=
| reaches_refl w : reaches rule w w
| reaches_step w1 w2 ev w3 notices :
    reaches rule w1 w2 -> rule w2 ev -> world_step w2 ev = Some (w3, notices) -> reaches rule w1 w3.

(** Where every run starts: vacant slots, no link, no order, no request. *)
Record fresh `{!DepotLaws W P State} (w : W) (queues : nat -> B) (lanes : nat -> L) : Prop := {
  fresh_slots : forall i s, depot_get w i = Some s -> s = State.Vacant;
  fresh_links : forall k, depot_queue w k = [];
  fresh_width : Z.of_nat (depot_capacity w) <= u64_max;
  fresh_queues : forall i, queue_wf (queues i) /\ fair_items (queues i) = [];
  fresh_lanes : forall i, reply_depth (lanes i) = 0%nat }.

(** ** The invariant *)

Definition tokens (ls : list Handle) : list I := handle_connection <$> ls.

(** A connection that owes nothing. *)
Definition idle_at (s : Schedule) (i : nat) : Prop :=
  reply_depth (lanes s i) = 0%nat /\ fair_items (queues s i) = [].

(** A cutoff of the frontier is still awaited, and was issued by the receipt that
    governs it. *)
Definition cutoff_ok (l : L) (c : Cu) (g : nat) : Prop := forall n, stamp c = Some n -> (first l <= n < g)%nat.

(** One slot, whose links are those for [li] and [lr]. *)
Record slot_ok (ls us : list I) (i : nat) (st : State) (li lr : option I) (l : L) (b : B) (g : I -> nat * nat) : Prop := {
  so_bound : forall x, bound st = Some x -> slot_of (bound_position x) = i /\ connection (bound_position x) ∈ us;
  so_linked : forall t, li = Some t \/ lr = Some t -> exists x fr, st = State.Shared x fr /\ connection (bound_position x) = t;
  so_idle : is_Some li -> reply_depth l = 0%nat /\ fair_items b = [];
  so_exclusive : forall x fr, st = State.Exclusive x fr -> connection (bound_position x) ∈ ls;
  so_shared : forall x, (exists fr, st = State.Shared x fr) \/ st = State.Initializing x ->
    connection (bound_position x) ∉ ls;
  so_queue : queue_wf b;
  so_new : (st = State.Vacant \/ exists x, st = State.Initializing x) -> reply_depth l = 0%nat /\ fair_items b = [];
  so_frontier : forall x fr, st = State.Shared x fr \/ st = State.Exclusive x fr ->
    cutoff_ok l fr.1 (g (connection (bound_position x))).1 /\ cutoff_ok l fr.2 (g (connection (bound_position x))).2 }.

(** Whether a slot counts, and their number. *)
Definition live_slot (r : Routes W) (i : nat) : Z :=
  match get_state r i with Some st => if is_live st then 1 else 0 | None => 0 end.

Definition live_sum (f : nat -> Z) (is_ : list nat) : Z := foldr (fun i n => f i + n) 0 is_.

Definition live_count (r : Routes W) : Z := live_sum (live_slot r) (seq 0 (routes_len r)).

Definition slot_view `{!DepotLaws W P State} (ls us : list I) (s : Schedule) (g : I -> nat * nat) (i : nat) (st : State) : Prop :=
  slot_ok ls us i st (link_token (routes s) Link.Idle i) (link_token (routes s) Link.Returned i) (lanes s i) (queues s i) g.

Record sched_ok `{!DepotLaws W P State} (ls us : list I) (s : Schedule) (g : I -> nat * nat) : Prop := {
  sk_slots : forall i st, get_state (routes s) i = Some st -> slot_view ls us s g i st;
  sk_active : active (routes s) = live_count (routes s);
  sk_next : routes_len (routes s) = 0%nat \/ (next (routes s) < routes_len (routes s))%nat;
  sk_width : Z.of_nat (routes_len (routes s)) <= u64_max;
  sk_used : forall t, t ∈ ls -> t ∈ us }.

Record world_ok `{!DepotLaws W P State} (w : World) : Prop := {
  wk_sched : sched_ok (tokens (leases w)) (used w) (sched w) (governs w);
  wk_leases : NoDup (tokens (leases w));
  wk_handles : forall h, h ∈ leases w -> slot h = slot_of (at_position h);
  wk_receipts : forall t c m n, (t, c, m) ∈ receipts w -> stamp c = Some n -> (n < m)%nat;
  wk_governs : forall t m, m = (governs w t).1 \/ m = (governs w t).2 -> m = 0%nat \/ exists c, (t, c, m) ∈ receipts w }.

Context `{!DepotLaws W P State, !IdentityLaws I P, !FairLaws X V B}.

Lemma live_sum_upd (f f' : nat -> Z) is_ i :
  NoDup is_ -> (forall j, j <> i -> f' j = f j) ->
  live_sum f' is_ = live_sum f is_ - (if decide (i ∈ is_) then f i - f' i else 0).
Proof.
  intros Hd Hf. induction Hd as [|j is_ Hj Hd IH]; cbn; [done|]. fold (live_sum f is_) (live_sum f' is_). rewrite IH.
  destruct (decide (j = i)) as [->|Hne].
  - rewrite decide_False, decide_True by (done || by left). lia.
  - rewrite (Hf j Hne). destruct (decide (i ∈ is_)) as [Hin|Hin].
    + rewrite decide_True by (by right). lia.
    + rewrite decide_False; [lia|]. intros [->|?]%elem_of_cons; done.
Qed.

Lemma live_count_touch (r r' : Routes W) i :
  routes_len r' = routes_len r -> (forall j, j <> i -> get_state r' j = get_state r j) ->
  live_count r' = live_count r - live_slot r i + live_slot r' i.
Proof.
  intros Hl Hg. unfold live_count. rewrite Hl.
  rewrite (live_sum_upd (live_slot r)) with (i := i).
  - destruct (decide _) as [|Hn]; [lia|]. rewrite elem_of_seq in Hn.
    assert (forall q : Routes W, routes_len q = routes_len r -> live_slot q i = 0) as H0.
    { intros q Hq. unfold live_slot. destruct (get_state q i) eqn:E; [|done]. apply get_capacity in E. lia. }
    rewrite !H0 by done. lia.
  - apply NoDup_seq.
  - intros j Hj. unfold live_slot. by rewrite Hg.
Qed.

(** What happens at one slot leaves the others as they are. *)
Lemma sched_touch i ls us s g ls' us' s' g' :
  sched_ok ls us s g -> routes_len (routes s') = routes_len (routes s) -> next (routes s') = next (routes s) ->
  (forall j, j <> i -> get_state (routes s') j = get_state (routes s) j /\
    (forall k, link_token (routes s') k j = link_token (routes s) k j) /\
    lanes s' j = lanes s j /\ queues s' j = queues s j) ->
  (forall t, index t <> i -> g' t = g t) ->
  (forall st, get_state (routes s') i = Some st -> slot_view ls' us' s' g' i st) ->
  (forall t, index t <> i -> t ∈ ls' <-> t ∈ ls) -> (forall t, t ∈ us -> t ∈ us') -> (forall t, t ∈ ls' -> t ∈ us') ->
  active (routes s') = active (routes s) - live_slot (routes s) i + live_slot (routes s') i ->
  sched_ok ls' us' s' g'.
Proof.
  intros [Hs Ha Hn Hw Hu] Hl Hnx Hj Hgo Hi Hls Hus Hlu Hact.
  assert (live_count (routes s') = live_count (routes s) - live_slot (routes s) i + live_slot (routes s') i) as Hc.
  { apply live_count_touch; [done|]. intros j Hne. by destruct (Hj j Hne). }
  split; [|by rewrite Hact, Ha, Hc|by rewrite Hl, Hnx|by rewrite Hl|done].
  intros j st Hst. destruct (decide (j = i)) as [->|Hne]; [by apply Hi|].
  destruct (Hj j Hne) as (Hg & Hk & Hla & Hq). rewrite Hg in Hst. unfold slot_view. rewrite !Hk, Hla, Hq.
  destruct (Hs j st Hst) as [H1 H2 H3 H4 H5 H6 H7 H8].
  assert (forall x, bound st = Some x -> index (connection (bound_position x)) <> i) as Hx.
  { intros x Hx. destruct (H1 x Hx) as [Hx' _]. unfold slot_of in Hx'. congruence. }
  split; try done.
  - intros x Hb. destruct (H1 x Hb) as [? ?]. split; [done|by apply Hus].
  - intros x fr ->. rewrite Hls by (by apply Hx). by eapply H4.
  - intros x Hst'. rewrite Hls; [by apply H5|]. apply Hx. by destruct Hst' as [[fr ->]| ->].
  - intros x fr Hst'. rewrite Hgo by (apply Hx; by destruct Hst' as [->| ->]). by apply H8.
Qed.

(** ** What every operation keeps *)

Lemma slot_ok_links ls us i st li lr l b g li' lr' :
  slot_ok ls us i st li lr l b g -> li' = li \/ li' = None -> lr' = lr \/ lr' = None ->
  slot_ok ls us i st li' lr' l b g.
Proof.
  intros [H1 H2 H3 H4 H5 H6 H7 H8] Hi Hr. split; try done.
  - intros t Ht. apply H2. destruct Hi as [->| ->], Hr as [->| ->], Ht; auto; done.
  - intros Hs. apply H3. destruct Hi as [->| ->]; [done|]. by destruct Hs.
Qed.

(** A slot on whose lane orders neither came nor went. *)
Lemma slot_ok_lane ls us i st li lr l b g l' :
  slot_ok ls us i st li lr l b g -> first l' = first l -> reply_depth l' = reply_depth l ->
  slot_ok ls us i st li lr l' b g.
Proof.
  intros [H1 H2 H3 H4 H5 H6 H7 H8] Hf Hd. split; try done; rewrite ?Hd; try done.
  intros x fr Hx. unfold cutoff_ok in *. rewrite Hf. by apply (H8 x).
Qed.

Lemma slot_ok_queue ls us i st li lr l b g b' :
  slot_ok ls us i st li lr l b g -> queue_wf b' -> (fair_items b = [] -> fair_items b' = []) ->
  slot_ok ls us i st li lr l b' g.
Proof.
  intros [H1 H2 H3 H4 H5 H6 H7 H8] Hq He. split; try done.
  - intros Hi. destruct (H3 Hi). auto.
  - intros Hi. destruct (H7 Hi). auto.
Qed.

(** A change of links, lane or queue only. *)
Lemma sched_same i ls us s g s' :
  sched_ok ls us s g -> routes_len (routes s') = routes_len (routes s) -> next (routes s') = next (routes s) ->
  (forall j, get_state (routes s') j = get_state (routes s) j) -> active (routes s') = active (routes s) ->
  (forall j, j <> i -> (forall k, link_token (routes s') k j = link_token (routes s) k j) /\
    lanes s' j = lanes s j /\ queues s' j = queues s j) ->
  (forall st, get_state (routes s) i = Some st -> slot_view ls us s g i st -> slot_view ls us s' g i st) ->
  sched_ok ls us s' g.
Proof.
  intros Hok Hl Hnx Hg Ha Hj Hi. apply (sched_touch i ls us s g); try done.
  - intros j Hne. destruct (Hj j Hne) as (? & ? & ?). by rewrite Hg.
  - intros st Hst. rewrite Hg in Hst. apply Hi; [done|]. by apply (sk_slots _ _ _ _ Hok).
  - apply (sk_used _ _ _ _ Hok).
  - rewrite Ha. unfold live_slot. rewrite Hg. lia.
Qed.

Lemma upd_eq {K A} `{EqDecision K} (f : K -> A) i x : upd f i x i = x.
Proof. unfold upd. by rewrite decide_True. Qed.

Lemma upd_ne {K A} `{EqDecision K} (f : K -> A) i x j : j <> i -> upd f i x j = f j.
Proof. intros. unfold upd. by rewrite decide_False. Qed.

Lemma ok_lane i ls us s g l :
  sched_ok ls us s g -> first l = first (lanes s i) -> reply_depth l = reply_depth (lanes s i) ->
  sched_ok ls us (with_lane s i l) g.
Proof.
  intros Hok Hf Hd. apply (sched_same i ls us s); try done.
  - intros j Hne. cbn. by rewrite upd_ne.
  - intros st _ Hv. unfold slot_view in *. cbn. rewrite upd_eq. by eapply slot_ok_lane.
Qed.

Lemma ok_queue i ls us s g b :
  sched_ok ls us s g -> queue_wf b -> (fair_items (queues s i) = [] -> fair_items b = []) ->
  sched_ok ls us (with_queue s i b) g.
Proof.
  intros Hok Hq He. apply (sched_same i ls us s); try done.
  - intros j Hne. cbn. by rewrite upd_ne.
  - intros st _ Hv. unfold slot_view in *. cbn. rewrite upd_eq. by eapply slot_ok_queue.
Qed.

Lemma ok_unlink k i t ls us s g :
  sched_ok ls us s g -> sched_ok ls us (with_routes s (unlink (routes s) k i t)) g.
Proof.
  intros Hok. apply (sched_same i ls us s); try done; cbn.
  - apply len_unlink.
  - apply next_unlink.
  - intros j. apply get_unlink.
  - apply active_unlink.
  - intros j Hne. split; [|done]. intros k'. rewrite token_unlink, decide_False; [done|tauto].
  - intros st _ Hv. unfold slot_view in *. cbn. rewrite !token_unlink.
    eapply slot_ok_links; [done|destruct (decide _); auto..].
Qed.

(** A shared connection may be put on a link; on [Idle] if it owes nothing. *)
Lemma ok_schedule k i p x fr ls us s g :
  sched_ok ls us s g -> get_state (routes s) i = Some (State.Shared x fr) -> connection p = connection (bound_position x) ->
  (k = Link.Idle -> idle_at s i) -> sched_ok ls us (with_routes s (RespRoutes.schedule (routes s) k i p)) g.
Proof.
  intros Hok Hst Hp Hk. apply get_capacity in Hst as Hi. apply (sched_same i ls us s); try done; cbn.
  - apply len_schedule.
  - apply next_schedule.
  - intros j. apply get_schedule.
  - apply active_schedule.
  - intros j Hne. split; [|done]. intros k'. rewrite token_schedule, decide_False; [done|tauto|done].
  - intros st Hst' Hv. rewrite Hst in Hst'. injection Hst' as <-. unfold slot_view in *. cbn.
    rewrite !token_schedule by done. destruct Hv as [H1 H2 H3 H4 H5 H6 H7 H8]. split; try done.
    + intros t Ht. destruct (decide (Link.Idle = k /\ i = i)) as [[E _]|];
        destruct (decide (Link.Returned = k /\ i = i)) as [[E' _]|]; try congruence; destruct Ht as [Ht|Ht];
        try (by apply H2; auto); injection Ht as <-; exists x, fr; by rewrite Hp.
    + destruct (decide _) as [[<- _]|]; [|done]. intros _. by apply Hk.
Qed.

Lemma ok_publish h x fr ls us s g :
  sched_ok ls us s g -> get_state (routes s) (slot h) = Some (State.Shared x fr) ->
  connection (at_position h) = connection (bound_position x) ->
  sched_ok ls us (with_routes s (publish (routes s) h (reply_depth (lane s (at_position h))) (requests s (at_position h))).1) g.
Proof.
  intros Hok Hst Hp. pose proof (so_bound _ _ _ _ _ _ _ _ _ (sk_slots _ _ _ _ Hok _ _ Hst) x eq_refl) as [Hsl _].
  unfold publish. destruct (_ || _) eqn:E; [by destruct s|]. cbn. eapply ok_schedule; [done..|]. intros _.
  unfold lane, requests, slot_of in E. unfold slot_of in Hsl. rewrite Hp, Hsl in E.
  apply orb_false_iff in E as [E1 E2]. apply negb_false_iff in E1, E2. apply Nat.eqb_eq in E1.
  split; [done|]. unfold queue_empty in E2. by destruct (fair_items _).
Qed.

(** Taking a slot from a link. *)
Lemma ok_pop k h r ls us s g :
  sched_ok ls us s g -> routes_pop (routes s) k = Some (h, r) ->
  sched_ok ls us (with_routes s r) g /\ (exists x fr, get_state r (slot h) = Some (State.Shared x fr) /\
    connection (bound_position x) = handle_connection h) /\ slot h = slot_of (at_position h) /\
  (k = Link.Idle -> idle_at s (slot h)).
Proof.
  intros Hok Hp. pose proof (pop_spec (routes s) k) as Hs. destruct (depot_queue _ k) as [|[i p] q]; [destruct Hs; congruence|].
  destruct Hs as (r' & Hp' & Hn & Ha & Hl & Hg & Ht & Hi & _ & Htok). rewrite Hp in Hp'. injection Hp' as -> <-. cbn.
  apply get_law in Hi as Hst. destruct Hst as [st Hst]. fold (get_state (routes s) i) in Hst.
  destruct (sk_slots _ _ _ _ Hok _ _ Hst) as [H1 H2 H3 _ _ _ _ _].
  destruct (H2 (connection p)) as (x & fr & -> & Hx); [destruct k; auto|]. destruct (H1 x eq_refl) as [Hsl _]. split_and!.
  - apply (sched_same i ls us s); try done; cbn.
    + intros j Hne. split; [|done]. intros k'. rewrite Htok, decide_False; [done|tauto].
    + intros st _ Hv. unfold slot_view in *. cbn. rewrite !Htok.
      eapply slot_ok_links; [done|destruct (decide _); auto..].
  - exists x, fr. by rewrite Hg.
  - unfold slot_of in *. congruence.
  - intros ->. apply H3. by rewrite Ht.
Qed.

(** ** The round of the returned *)

(** Everything but the links. *)
Definition same_slots (s s' : Schedule) : Prop :=
  (forall j, get_state (routes s') j = get_state (routes s) j) /\ lanes s' = lanes s /\ queues s' = queues s /\
  routes_len (routes s') = routes_len (routes s) /\ active (routes s') = active (routes s) /\
  next (routes s') = next (routes s).

Lemma queued_shared k i p ls us s g :
  sched_ok ls us s g -> (i, p) ∈ depot_queue (conns (routes s)) k ->
  slot_of p = i /\ exists x fr, get_state (routes s) i = Some (State.Shared x fr) /\
    connection (bound_position x) = connection p.
Proof.
  intros Hok Hq. apply queue_token in Hq as Ht. apply queue_slots in Hq. apply get_law in Hq as [st Hst].
  fold (get_state (routes s) i) in Hst. destruct (sk_slots _ _ _ _ Hok _ _ Hst) as [H1 H2 _ _ _ _ _ _].
  destruct (H2 (connection p)) as (x & fr & -> & Hx); [destruct k; auto|]. destruct (H1 x eq_refl) as [Hsl _].
  split; [unfold slot_of in *; congruence|]. by exists x, fr.
Qed.

(** A connection is linked for one token only. *)
Lemma tokens_agree k i x fr ls us s g :
  sched_ok ls us s g -> get_state (routes s) i = Some (State.Shared x fr) ->
  link_token (routes s) k i = None \/ link_token (routes s) k i = Some (connection (bound_position x)).
Proof.
  intros Hok Hst. destruct (sk_slots _ _ _ _ Hok _ _ Hst) as [_ H2 _ _ _ _ _ _].
  destruct (link_token (routes s) k i) as [t|] eqn:E; [|by left]. right.
  destruct (H2 t) as (x' & fr' & Hst' & <-); [destruct k; auto|]. by injection Hst' as <- _.
Qed.

Lemma publish_idle h (r : Routes W) s :
  slot h = slot_of (at_position h) ->
  publish r h (reply_depth (lane s (at_position h))) (requests s (at_position h)) =
    if decide (idle_at s (slot h)) then (RespRoutes.schedule r Link.Idle (slot h) (at_position h), true) else (r, false).
Proof.
  intros Hs. unfold publish, idle_at, lane, requests, queue_empty. rewrite Hs. destruct (decide _) as [[-> ->]|Hn]; [done|].
  destruct (Nat.eqb_spec (reply_depth (lanes s (slot_of (at_position h)))) 0) as [E|]; [|done].
  destruct (fair_items _) eqn:E'; [|done]. destruct Hn. by rewrite E.
Qed.

Lemma same_trans s1 s2 s3 : same_slots s1 s2 -> same_slots s2 s3 -> same_slots s1 s3.
Proof.
  intros (A1 & A2 & A3 & A4 & A5 & A6) (B1 & B2 & B3 & B4 & B5 & B6). split_and!; congruence.
Qed.

Lemma same_schedule s k i p : same_slots s (with_routes s (RespRoutes.schedule (routes s) k i p)).
Proof.
  split_and!; cbn; try done.
  - intros j. apply get_schedule.
  - apply len_schedule.
  - apply active_schedule.
  - apply next_schedule.
Qed.

Lemma same_idle s s' i : same_slots s s' -> idle_at s' i <-> idle_at s i.
Proof. intros (_ & Hl & Hq & _). unfold idle_at. by rewrite Hl, Hq. Qed.

(** The first of the returned, taken from its link and put on another or back. *)
Lemma take_returned i p q k ls us s g :
  sched_ok ls us s g -> depot_queue (conns (routes s)) Link.Returned = (i, p) :: q ->
  (k = Link.Idle -> idle_at s i) ->
  exists r, routes_pop (routes s) Link.Returned = Some ({| slot := i; at_position := p |}, r) /\
    let s1 := with_routes s (RespRoutes.schedule r k i p) in
    sched_ok ls us s1 g /\ same_slots s s1 /\
    depot_queue (conns (routes s1)) Link.Returned = (if decide (k = Link.Returned) then q ++ [(i, p)] else q) /\
    (forall j t, link_token (routes s) Link.Idle j = Some t -> link_token (routes s1) Link.Idle j = Some t) /\
    (forall j t, link_token (routes s) Link.Returned j = Some t ->
      link_token (routes s1) (if decide (j = i) then k else Link.Returned) j = Some t).
Proof.
  intros Hok Hq Hk. assert ((i, p) ∈ depot_queue (conns (routes s)) Link.Returned) as Hin by (rewrite Hq; left).
  destruct (queued_shared _ _ _ _ _ _ _ Hok Hin) as (Hsl & x & fr & Hst & Hx).
  pose proof (pop_spec (routes s) Link.Returned) as Hpop. rewrite Hq in Hpop. cbn in Hpop.
  destruct Hpop as (r & Hp & Hn & Ha & Hl & Hg & Ht & Hi & Hq' & Htok). exists r. split; [done|].
  destruct (ok_pop _ _ _ _ _ _ _ Hok Hp) as (Hokr & _). set (s0 := with_routes s r) in *.
  assert (get_state (routes s0) i = Some (State.Shared x fr)) as Hst0 by (cbn; by rewrite Hg).
  split; [by apply (ok_schedule k i p x fr ls us s0 g)|].
  split; [apply (same_trans _ s0); [done|apply (same_schedule s0)]|].
  assert (default (connection p) (link_token r k i) = connection p) as Hdef.
  { destruct (tokens_agree k i x fr _ _ _ _ Hokr Hst0) as [E|E]; cbn in E; by rewrite E. }
  cbn. split_and!.
  - rewrite queue_schedule by (done || by rewrite Hl). rewrite !Hq'. destruct k.
    + by rewrite decide_False by (by intros [? _]).
    + rewrite decide_True by (split; [done|by rewrite Htok, decide_True]). done.
  - intros j t Hj. rewrite token_schedule by (by rewrite Hl). destruct (decide _) as [[<- ->]|].
    + destruct (tokens_agree Link.Idle i x fr _ _ _ _ Hok Hst); congruence.
    + rewrite Htok, decide_False; [done|]. by intros [? _].
  - intros j t Hj. rewrite token_schedule by (by rewrite Hl). destruct (decide (j = i)) as [->|Hne].
    + rewrite decide_True by done. congruence.
    + rewrite decide_False by tauto. rewrite Htok, decide_False; [done|tauto].
Qed.

Lemma refresh_loop ls us g fuel : forall todo kept deferred s,
  sched_ok ls us s g -> depot_queue (conns (routes s)) Link.Returned = todo ++ kept ->
  Forall (fun e => ~ idle_at s e.1) kept -> deferred = (fun e => connection e.2) <$> head kept ->
  (length todo < fuel)%nat ->
  exists s', refresh fuel deferred s = Some s' /\ sched_ok ls us s' g /\ same_slots s s' /\
    (forall i t, link_token (routes s') Link.Returned i = Some t -> ~ idle_at s i) /\
    (forall i t, link_token (routes s) Link.Idle i = Some t -> link_token (routes s') Link.Idle i = Some t) /\
    (forall i t, link_token (routes s) Link.Returned i = Some t -> idle_at s i ->
      link_token (routes s') Link.Idle i = Some t).
Proof.
  induction fuel as [|fuel IH]; intros todo kept deferred s Hok Hq Hk Hd Hf; [lia|]. cbn [refresh].
  rewrite front_token, Hq. destruct todo as [|[i p] todo]; cbn [app head length] in *.
  { rewrite bool_decide_true by done. exists s. split; [done|]. split; [done|]. split; [done|].
    assert (forall i t, link_token (routes s) Link.Returned i = Some t -> ~ idle_at s i) as Hn.
    { intros i t (p & Hp & _)%token_queue. rewrite Hq in Hp. rewrite Forall_forall in Hk. by apply (Hk (i, p)). }
    split_and!; [done|done|]. intros i t Ht Hi. by destruct (Hn i t Ht). }
  assert (forall j q, (j, q) ∈ (i, p) :: todo ++ kept -> slot_of q = j /\ exists x fr,
    get_state (routes s) j = Some (State.Shared x fr) /\ connection (bound_position x) = connection q) as Hsh.
  { intros j q Hj. rewrite <- Hq in Hj. by apply (queued_shared _ _ _ _ _ _ _ Hok Hj). }
  destruct (Hsh i p) as (Hsl & x & fr & Hst & Hx); [left|].
  rewrite bool_decide_false.
  2:{ subst deferred. destruct kept as [|[j q] kept]; [done|]. cbn. intros [= E].
      destruct (Hsh j q) as [Hsj _]; [right; apply elem_of_app; right; left|]. unfold slot_of in *.
      assert (i = j) as -> by congruence. pose proof (queue_nodup (conns (routes s)) Link.Returned) as Hnd.
      rewrite Hq in Hnd. cbn in Hnd. apply NoDup_cons in Hnd as [Hnd _]. apply Hnd.
      rewrite fmap_app. apply elem_of_app. right. left. }
  set (k := if decide (idle_at s i) then Link.Idle else Link.Returned).
  destruct (take_returned i p (todo ++ kept) k _ _ _ _ Hok Hq) as (r & Hp & Hok1 & Hsame & Hq1 & Hidl & Hret).
  { unfold k. by destruct (decide _). }
  rewrite Hp. destruct (ok_pop _ _ _ _ _ _ _ Hok Hp) as (_ & (x' & fr' & Hst' & Hx') & _). cbn in Hst'.
  cbn [slot at_position]. rewrite Hst'. cbn. rewrite bool_decide_true by done. cbn.
  pose proof (publish_idle {| slot := i; at_position := p |} r s (eq_sym Hsl)) as Hpub. cbn in Hpub. rewrite Hpub. clear Hpub.
  assert (exists s', refresh fuel (if decide (idle_at s i) then deferred else Some (default (connection p) deferred))
      (with_routes s (RespRoutes.schedule r k i p)) = Some s' /\ sched_ok ls us s' g /\
    same_slots (with_routes s (RespRoutes.schedule r k i p)) s' /\
    (forall i t, link_token (routes s') Link.Returned i = Some t -> ~ idle_at s i) /\
    (forall j t, link_token (RespRoutes.schedule r k i p) Link.Idle j = Some t -> link_token (routes s') Link.Idle j = Some t) /\
    (forall j t, link_token (RespRoutes.schedule r k i p) Link.Returned j = Some t -> idle_at s j ->
      link_token (routes s') Link.Idle j = Some t)) as (s' & Hs' & Hok' & Hsame' & H1 & H2 & H3).
  { destruct (decide (idle_at s i)) as [Hid|Hid]; subst k; cbn in Hq1.
    - by apply (IH todo kept); [..|lia].
    - apply (IH todo (kept ++ [(i, p)])); [done|cbn; by rewrite Hq1, app_assoc| |subst deferred; by destruct kept|lia].
      apply Forall_app. split; [done|]. by constructor. }
  exists s'. split; [unfold k, handle_connection in *; by destruct (decide _)|]. split; [done|].
  split; [by eapply same_trans|]. split; [done|]. split; [intros j t Hj; by apply H2, Hidl|].
  intros j t Hj Hji. apply Hret in Hj. destruct (decide (j = i)) as [->|Hne]; [|by apply H3].
  assert (k = Link.Idle) as Ek by (unfold k; by rewrite decide_True). apply H2. rewrite Ek in Hj |- *. exact Hj.
Qed.

(** ** Leases *)

Definition linked_any (s : Schedule) (i : nat) : Prop :=
  is_Some (link_token (routes s) Link.Idle i) \/ is_Some (link_token (routes s) Link.Returned i).

(** The round visits every returned connection once and always ends; those that owe
    nothing by then are free. *)
Lemma refresh_spec ls us s g :
  sched_ok ls us s g ->
  exists s', refresh (Datatypes.S (routes_len (routes s))) None s = Some s' /\ sched_ok ls us s' g /\ same_slots s s' /\
    (forall i t, link_token (routes s') Link.Returned i = Some t -> ~ idle_at s' i) /\
    (forall i, idle_at s i -> linked_any s i -> is_Some (link_token (routes s') Link.Idle i)).
Proof.
  intros Hok. destruct (refresh_loop ls us g (Datatypes.S (routes_len (routes s)))
    (depot_queue (conns (routes s)) Link.Returned) [] None s Hok) as (s' & Hs & Hok' & Hsame & H1 & H2 & H3).
  - by rewrite app_nil_r.
  - constructor.
  - done.
  - assert (length (depot_queue (conns (routes s)) Link.Returned).*1 <= length (seq 0 (routes_len (routes s))))%nat as Hle.
    { apply submseteq_length, NoDup_submseteq; [apply queue_nodup|]. intros i ([j p] & -> & Hin)%list_elem_of_fmap.
      apply queue_slots in Hin. apply elem_of_seq. unfold routes_len. cbn. lia. }
    rewrite length_fmap, length_seq in Hle. lia.
  - exists s'. split_and!; try done.
    + intros i t Ht. rewrite (same_idle _ _ _ Hsame). by eapply H1.
    + intros i Hi [[t Ht]|[t Ht]]; exists t; [by apply H2|by apply H3].
Qed.

(** A lease takes a free connection, which no longer stands on any link. *)
Definition granted (s s' : Schedule) (h : Handle) : Prop :=
  slot h = slot_of (at_position h) /\ idle_at s (slot h) /\
  (exists x fr, get_state (routes s) (slot h) = Some (State.Shared x fr) /\
    connection (bound_position x) = handle_connection h /\
    get_state (routes s') (slot h) = Some (State.Exclusive x fr)) /\
  (forall j, j <> slot h -> get_state (routes s') j = get_state (routes s) j) /\
  (forall j, reply_depth (lanes s' j) = reply_depth (lanes s j)) /\ queues s' = queues s.

Lemma acquire_ok h r x fr ls us s g :
  sched_ok ls us s g -> routes_pop (routes s) Link.Idle = Some (h, r) ->
  (forall i t, link_token (routes s) Link.Returned i = Some t -> ~ idle_at s i) ->
  get_state r (slot h) = Some (State.Shared x fr) -> connection (bound_position x) = handle_connection h ->
  sched_ok (handle_connection h :: ls) us
    (with_lane (with_routes s (set_state r (slot h) (State.Exclusive x fr))) (slot_of (at_position h))
       (reply_deactivate (lane s (at_position h)))) g.
Proof.
  intros Hok Hp Hret Hst Hx. destruct (ok_pop _ _ _ _ _ _ _ Hok Hp) as (Hokr & _ & Hsl & Hid). specialize (Hid eq_refl).
  pose proof (sk_slots _ _ _ _ Hokr _ _ Hst) as [H1 H2 H3 H4 H5 H6 H7 H8]. destruct (H1 x eq_refl) as [Hsx Hus].
  apply get_capacity in Hst as Hi. apply (sched_touch (slot h) ls us (with_routes s r) g); try done; cbn.
  - apply len_set.
  - intros j Hne. rewrite get_set, decide_False by done. split; [done|]. split; [intros k; apply token_set|].
    by rewrite upd_ne by congruence.
  - intros st Hst'. rewrite get_set, decide_True in Hst' by done. injection Hst' as <-. unfold slot_view. cbn.
    rewrite !token_set, <- Hsl, upd_eq.
    assert (forall k, link_token r k (slot h) = None) as Hnone.
    { pose proof (pop_spec (routes s) Link.Idle) as Hs. destruct (depot_queue _ _) as [|[i p] q]; [destruct Hs; congruence|].
      destruct Hs as (r' & Hp' & _ & _ & _ & _ & _ & _ & _ & Ht). rewrite Hp in Hp'. injection Hp' as -> <-. cbn.
      intros k. rewrite Ht. destruct (decide _) as [|Hn]; [done|]. destruct k; [tauto|].
      destruct (link_token (routes s) Link.Returned i) as [t|] eqn:E; [|done]. by destruct (Hret i t E). }
    rewrite !Hnone. destruct (deactivate_law (lane s (at_position h))) as [Hf Hd].
    unfold lane in *. rewrite <- Hsl in Hf, Hd |- *. split; try done.
    + by intros t [?|?].
    + intros x' fr' [= <- <-]. rewrite Hx. left.
    + by intros x' [[? ?]|?].
    + by intros [?|[? ?]].
    + intros x' fr' [?|[= <- <-]]; [done|]. unfold cutoff_ok. rewrite Hf. by apply (H8 x fr); left.
  - intros t Ht. rewrite elem_of_cons. split; [|by right]. intros [->|?]; [|done]. unfold slot_of, handle_connection in *. congruence.
  - intros t [->|Ht]%elem_of_cons; [by rewrite <- Hx|]. by apply (sk_used _ _ _ _ Hok).
  - unfold live_slot. rewrite Hst. rewrite get_set, decide_True by done. cbn. lia.
Qed.

Lemma try_lease_ok ls us s g :
  sched_ok ls us s g ->
  exists s' o, try_lease s = Some (s', o) /\
    match o with
    | Some h => sched_ok (handle_connection h :: ls) us s' g /\ granted s s' h /\
        forall j, j <> slot h -> idle_at s j -> linked_any s j -> linked_any s' j
    | None => sched_ok ls us s' g /\ same_slots s s' /\ forall i, idle_at s i -> ~ linked_any s i
    end.
Proof.
  intros Hok. destruct (refresh_spec _ _ _ _ Hok) as (s1 & Hs1 & Hok1 & Hsame & Hret & Hidl).
  unfold try_lease. rewrite Hs1. cbn. pose proof (pop_spec (routes s1) Link.Idle) as Hpop.
  destruct (depot_queue _ Link.Idle) as [|[i p] q].
  { destruct Hpop as [Hp Hnone]. exists s1, None. split.
    - destruct (routes_len (routes s1)); cbn; [done|]. by rewrite Hp.
    - split; [done|]. split; [done|]. intros i Hi Hl. destruct (Hidl i Hi Hl). congruence. }
  destruct Hpop as (r & Hp & _ & _ & Hl & Hg & _ & Hi & _ & Htok).
  destruct (ok_pop _ _ _ _ _ _ _ Hok1 Hp) as (_ & (x & fr & Hst & Hx) & Hsl & Hid). cbn in Hst, Hx, Hsl, Hid.
  destruct (routes_len (routes s1)) as [|n] eqn:En; [lia|]. cbn [lease_loop]. rewrite Hp. cbn. rewrite Hst. cbn.
  unfold is_token. rewrite bool_decide_true by done.
  pose proof (acquire_ok _ _ _ _ _ _ _ _ Hok1 Hp Hret Hst Hx) as Hok'. cbn in Hok'.
  eexists _, _. split; [done|]. cbn. split; [done|]. destruct Hsame as (A1 & A2 & A3 & A4 & A5 & A6).
  apply get_capacity in Hst as Hi'. split.
  - split; [done|]. split; [rewrite <- (same_idle s s1) by done; by apply Hid|]. split.
    { exists x, fr. rewrite <- A1, <- Hg. split; [done|]. split; [done|]. cbn. by rewrite get_set, decide_True. }
    split; [|split; [|done]].
    + intros j Hne. cbn. by rewrite get_set, decide_False, Hg, A1.
    + intros j. cbn. unfold lane, upd. destruct (decide _) as [->|]; [|by rewrite A2].
      destruct (deactivate_law (lanes s1 (slot_of p))) as [_ ->]. by rewrite A2.
  - intros j Hne Hj Hlj. destruct (Hidl j Hj Hlj) as [t Ht]. left. exists t. cbn.
    by rewrite token_set, Htok, decide_False by tauto.
Qed.

(** ** The life of a connection *)

Definition frontier_of (st : State) : option (Cu * Cu) :=
  match st with State.Shared _ f | State.Exclusive _ f => Some f | _ => None end.

Lemma bound_spec (r : Routes W) token h fr :
  routes_bound r token = Some (h, fr) ->
  exists st x, get_state r (index token) = Some st /\ bound st = Some x /\ connection (bound_position x) = token /\
    h = {| slot := index token; at_position := bound_position x |} /\ fr = frontier_of st.
Proof.
  unfold routes_bound. intros (st & Hst & (b & Hb & [= <- <-])%bind_Some)%bind_Some. unfold conn_bound in Hb.
  apply bind_Some in Hb as ([x f] & Hx & Hb). cbn in Hb. unfold is_token in Hb. case_bool_decide as Ht; [|done].
  injection Hb as <-. exists st, x. cbn. split_and!; try done; by destruct st; simplify_eq/=.
Qed.

Lemma slot_closed ls us i st x l b g :
  bound st = Some x -> (exists c, st = State.Closing c \/ st = State.Reconnecting c) ->
  slot_of (bound_position x) = i -> connection (bound_position x) ∈ us -> queue_wf b ->
  slot_ok ls us i st None None l b g.
Proof.
  intros Hb (c & Hc) Hx Hu Hq. split; try done.
  - intros y Hy. rewrite Hb in Hy. by injection Hy as <-.
  - by intros t [?|?].
  - intros y fr ->. by destruct Hc.
  - intros y [[fr ->]| ->]; by destruct Hc.
  - intros [->|[y ->]]; by destruct Hc.
  - intros y fr [->| ->]; by destruct Hc.
Qed.

(** A slot is linked for the connection it shares, or not at all. *)
Lemma links_of ls us s g i st x k :
  sched_ok ls us s g -> get_state (routes s) i = Some st -> bound st = Some x ->
  link_token (routes s) k i = None \/ link_token (routes s) k i = Some (connection (bound_position x)).
Proof.
  intros Hok Hst Hx. destruct (link_token (routes s) k i) as [t|] eqn:E; [|by left]. right.
  destruct (so_linked _ _ _ _ _ _ _ _ _ (sk_slots _ _ _ _ Hok _ _ Hst) t) as (y & fr & -> & <-); [destruct k; auto|].
  by injection Hx as <-.
Qed.

Lemma activate_ok token target ls us s g :
  sched_ok ls us s g -> token ∉ us -> sched_ok ls (token :: us) (activate s (index token) token target).1 g.
Proof.
  intros Hok Hnew.
  assert (sched_ok ls (token :: us) s g) as Hsame.
  { apply (sched_touch (index token) ls us s g); try done.
    - intros st Hst. destruct (sk_slots _ _ _ _ Hok _ _ Hst) as [H1 ? ? ? ? ? ? ?]. split; try done.
      intros x Hx. destruct (H1 x Hx). split; [done|by right].
    - intros t Ht. by right.
    - intros t Ht. right. by apply (sk_used _ _ _ _ Hok).
    - lia. }
  unfold activate. destruct (get_state _ _) as [st|] eqn:Hst; [|done].
  destruct (position_of token) as [p|] eqn:Hp; [|done]. apply position_law in Hp as Hc.
  destruct st; try done. cbn. apply get_capacity in Hst as Hi.
  assert (slot_of p = index token) as Hsl by (unfold slot_of; by rewrite Hc).
  apply (sched_touch (index token) ls (token :: us) s g); try done; cbn.
  - apply len_set.
  - intros j Hne. rewrite get_set, decide_False by done. split; [done|]. split; [intros k; apply token_set|].
    by rewrite upd_ne by congruence.
  - intros st Hst'. rewrite get_set, decide_True in Hst' by done. injection Hst' as <-. unfold slot_view. cbn.
    rewrite !token_set, Hsl, upd_eq. unfold lane. rewrite Hsl.
    destruct (sk_slots _ _ _ _ Hok _ _ Hst) as [H1 H2 H3 H4 H5 H6 H7 H8].
    destruct (bind_retire_law (lanes s (index token)) target) as [_ Hd]. destruct H7 as [H7 H7']; [by left|].
    split; rewrite ?Hd; try done; cbn.
    + intros x [= <-]. cbn. split; [done|]. rewrite Hc. left.
    + intros t Ht. by destruct (H2 t Ht) as (? & ? & ? & _).
    + intros x [[? ?]|[= <-]]; [done|]. cbn. rewrite Hc. intros Hl. by apply Hnew, (sk_used _ _ _ _ Hok).
    + by intros x fr [?|?].
  - apply (sk_used _ _ _ _ Hsame).
  - unfold live_slot. rewrite Hst, get_set, decide_True by done. cbn. lia.
Qed.

Lemma live_slot_range (r : Routes W) i : 0 <= live_slot r i <= 1.
Proof. unfold live_slot. destruct (get_state r i); [destruct (is_live _)|]; lia. Qed.

Lemma live_sum_range (r : Routes W) is_ :
  0 <= live_sum (live_slot r) is_ <= zlen is_ /\ forall i, i ∈ is_ -> live_slot r i <= live_sum (live_slot r) is_.
Proof.
  induction is_ as [|j is_ [IH IHi]]; cbn -[Z.of_nat]; [split; [done|by intros i ?%elem_of_nil]|].
  fold (live_sum (live_slot r) is_). pose proof (live_slot_range r j). split; [lia|].
  intros i [->|Hi]%elem_of_cons; [lia|]. specialize (IHi i Hi). lia.
Qed.

Lemma live_count_bound (r : Routes W) : 0 <= live_count r <= Z.of_nat (routes_len r).
Proof.
  pose proof (live_sum_range r (seq 0 (routes_len r))) as [H _]. by rewrite length_seq in H.
Qed.

Lemma mark_ready_ok token a ls us s g :
  sched_ok ls us s g -> sched_ok ls us (mark_ready s a token).1.1.1 g.
Proof.
  intros Hok. unfold mark_ready, routes_mark_ready. destruct (get_state _ _) as [st|] eqn:Hst; [|done].
  destruct st as [|x| | | |]; try done. cbn. unfold is_token. case_bool_decide as Ht; [|done]. cbn.
  apply get_capacity in Hst as Hi. pose proof (sk_slots _ _ _ _ Hok _ _ Hst) as [H1 H2 H3 H4 H5 H6 H7 H8].
  set (r := with_active _ _). assert (sched_ok ls us (with_routes s r) g) as Hr.
  { apply (sched_touch (index token) ls us s g); try done; cbn.
    - unfold r. by rewrite len_active, len_set.
    - intros j Hne. unfold r. rewrite get_active, get_set, decide_False by done. split; [done|]. split; [|done]. intros k.
      by rewrite token_active, token_set.
    - intros st Hst'. unfold slot_view, r in *. cbn in Hst' |- *. rewrite get_active, get_set, decide_True in Hst' by done. injection Hst' as <-.
      rewrite !token_active, !token_set. split; try done.
      + intros t' Ht'. by destruct (H2 t' Ht') as (? & ? & ? & _).
      + intros y [[fr [= <- <-]]|?]; [|done]. apply H5. by right.
      + by intros [?|[? ?]].
      + intros y fr [[= <- <-]|?]; [|done]. split; intros n; cbn; by rewrite empty_law.
    - apply (sk_used _ _ _ _ Hok).
    - assert (live_slot (routes s) (index token) = 0) as L0 by (unfold live_slot; by rewrite Hst).
      assert (live_slot r (index token) = 1) as L1.
      { unfold live_slot, r. by rewrite get_active, get_set, decide_True. }
      assert (routes_len r = routes_len (routes s)) as Hlen by (unfold r; by rewrite len_active, len_set).
      pose proof (live_count_touch (routes s) r (index token) Hlen) as Hc. rewrite L0, L1 in Hc |- *.
      pose proof (live_count_bound r) as Hb. rewrite Hlen in Hb. pose proof (live_count_bound (routes s)).
      pose proof (sk_active _ _ _ _ Hok) as Ha. pose proof (sk_width _ _ _ _ Hok).
      change (active r) with (as_u64 (active (routes s) + 1)). rewrite Hc in Hb.
      2:{ intros j Hne. unfold r. by rewrite get_active, get_set, decide_False. }
      rewrite as_u64_small; lia. }
  apply (ok_publish {| slot := index token; at_position := bound_position x |} x (cutoff_empty, cutoff_empty) ls us
    (with_routes s r) g Hr); cbn; [|done].
  unfold r. by rewrite get_active, get_set, decide_True.
Qed.

Lemma received_ok token cutoff (m : nat) (pfx : bool) ls us s g :
  sched_ok ls us s g -> (forall n, stamp cutoff = Some n -> (n < m)%nat) ->
  sched_ok ls us (received s token cutoff pfx)
    (if live_at s token then upd g token (if pfx then (g token).1 else m, m) else g).
Proof.
  intros Hok Hm. unfold received, live_at. destruct (get_state _ _) as [st|] eqn:Hst; [|done].
  apply get_capacity in Hst as Hi. pose proof (sk_slots _ _ _ _ Hok _ _ Hst) as [H1 H2 H3 H4 H5 H6 H7 H8].
  assert (forall st', get_state (routes s) (index token) = Some st' ->
    sched_ok ls us (with_routes s (set_state (routes s) (index token) st')) g) as Hset.
  { intros st' Hst'. apply (sched_same (index token) ls us s); try done; cbn.
    - apply len_set.
    - intros j. rewrite get_set by done. by destruct (decide _) as [->|].
    - intros j Hne. split; [intros k; apply token_set|done].
    - intros st0 _ Hv. unfold slot_view in *. cbn. by rewrite !token_set. }
  destruct (with_frontier st token _) as [st1 o] eqn:E. destruct st as [| |x fr|x fr| |];
    try (injection E as <- _; by apply Hset); cbn in E; destruct (is_token x token) eqn:Et;
    try (injection E as <- _; by apply Hset).
  all: injection E as <- _; unfold is_token in Et; apply bool_decide_eq_true in Et;
    apply (sched_touch (index token) ls us s g); try done; cbn;
    [apply len_set
    |intros j Hne; rewrite get_set, decide_False by done; split; [done|]; split; [intros k; apply token_set|done]
    |intros t Hne; rewrite upd_ne; [done|by intros ->]
    |intros st' Hst'; rewrite get_set, decide_True in Hst' by done; injection Hst' as <-; unfold slot_view; cbn;
     rewrite !token_set; unfold lane, slot_of; rewrite Et
    |apply (sk_used _ _ _ _ Hok)
    |unfold live_slot; rewrite Hst, get_set, decide_True by done; cbn; lia].
  all: assert (cutoff_ok (lanes s (index token))
         (if reply_contains (lanes s (index token)) cutoff then cutoff else cutoff_empty) m) as Hc
    by (intros n Hn; destruct (reply_contains _ _) eqn:Ec; [|by rewrite empty_law in Hn];
        apply contains_law in Ec as (n' & Hn' & ? & ?); rewrite Hn in Hn'; injection Hn' as <-; split; [done|by apply Hm]).
  - split; try done.
    + intros t Ht. destruct (H2 t Ht) as (y & fr' & [= <- <-] & Hy). by eexists _, _.
    + intros y [[fr' [= <- <-]]|?]; [|done]. apply H5. left. by eexists.
    + by intros [?|[? ?]].
    + intros y fr' [[= <- <-]|?]; [|done]. rewrite Et, upd_eq. cbn. split; [|done].
      destruct pfx; [|done]. destruct (H8 x fr) as [H0 _]; [by left|]. by rewrite Et in H0.
  - split; try done.
    + intros t Ht. by destruct (H2 t Ht) as (y & fr' & ? & _).
    + intros y fr' [= <- <-]. by apply (H4 x fr).
    + by intros y [[? ?]|?].
    + by intros [?|[? ?]].
    + intros y fr' [?|[= <- <-]]; [done|]. rewrite Et, upd_eq. cbn. split; [|done].
      destruct pfx; [|done]. destruct (H8 x fr) as [H0 _]; [by right|]. by rewrite Et in H0.
Qed.

(** The links of a connection that was withdrawn. *)
Lemma token_withdraw (r : Routes W) i t k j :
  link_token r Link.Idle i = None \/ link_token r Link.Idle i = Some t ->
  link_token r Link.Returned i = None \/ link_token r Link.Returned i = Some t ->
  link_token (unlink (unlink r Link.Idle i t) Link.Returned i t) k j = if decide (j = i) then None else link_token r k j.
Proof.
  intros Hi Hr. rewrite !token_unlink. destruct (decide (j = i)) as [->|Hne].
  - destruct k.
    + rewrite decide_False by (by intros [? _]). destruct (decide _) as [|Hn]; [done|]. destruct Hi as [->|]; [done|tauto].
    + destruct (decide _) as [|Hn]; [done|]. rewrite decide_False in Hn |- * by (by intros [? _]).
      destruct Hr as [->|]; [done|tauto].
  - by rewrite !decide_False by tauto.
Qed.

(** A connection that closes, for good or to be opened again. *)
Lemma close_ok token st st' x n ls us s g :
  sched_ok ls us s g -> get_state (routes s) (index token) = Some st -> bound st = Some x ->
  connection (bound_position x) = token -> bound st' = Some x ->
  (exists c, st' = State.Closing c \/ st' = State.Reconnecting c) ->
  n = active (routes s) - (if is_live st then 1 else 0) ->
  sched_ok ls us (withdraw (with_routes s (with_active (set_state (routes s) (index token) st') n)) {| slot := index token; at_position := bound_position x |}) g.
Proof.
  intros Hok Hst Hx Ht Hx' Hc Hn. apply get_capacity in Hst as Hi.
  pose proof (sk_slots _ _ _ _ Hok _ _ Hst) as [H1 H2 H3 H4 H5 H6 H7 H8]. destruct (H1 x Hx) as [Hsl Hus].
  pose proof (fun k => links_of _ _ _ _ _ _ _ k Hok Hst Hx) as Hlk. rewrite Ht in Hlk.
  assert (forall k j, link_token (routes (withdraw (with_routes s (with_active (set_state (routes s) (index token) st') n)) {| slot := index token; at_position := bound_position x |})) k j =
    if decide (j = index token) then None else link_token (routes s) k j) as Htok.
  { intros k j. cbn. unfold handle_connection. cbn. rewrite Ht, token_withdraw by
      (rewrite ?token_active, ?token_set; done || apply Hlk). by rewrite token_active, token_set. }
  apply (sched_touch (index token) ls us s g); try done.
  - cbn. by rewrite !len_unlink, len_active, len_set.
  - cbn. by rewrite !next_unlink.
  - intros j Hne. split; [cbn; by rewrite !get_unlink, get_active, get_set, decide_False|].
    split; [intros k; by rewrite Htok, decide_False|]. cbn. by rewrite upd_ne by congruence.
  - intros st0 Hst0. cbn in Hst0. rewrite !get_unlink, get_active, get_set, decide_True in Hst0 by done. injection Hst0 as <-.
    unfold slot_view. rewrite !Htok, !decide_True by done. by apply (slot_closed _ _ _ _ x).
  - apply (sk_used _ _ _ _ Hok).
  - unfold live_slot. cbn. rewrite !get_unlink, get_active, get_set, decide_True, Hst by done. rewrite !active_unlink. cbn.
    destruct Hc as (c & [-> | ->]); cbn; rewrite Hn; destruct (is_live st); lia.
Qed.

Lemma live_active ls us s g i st :
  sched_ok ls us s g -> get_state (routes s) i = Some st -> is_live st = true ->
  as_u64 (active (routes s) - 1) = active (routes s) - 1.
Proof.
  intros Hok Hst Hl. apply get_capacity in Hst as Hi. rewrite (sk_active _ _ _ _ Hok).
  assert (1 <= live_count (routes s)) as H1.
  { pose proof (live_sum_range (routes s) (seq 0 (routes_len (routes s)))) as [_ H]. specialize (H i).
    unfold live_slot at 1 in H. rewrite Hst, Hl in H. apply H, elem_of_seq. lia. }
  pose proof (live_count_bound (routes s)). pose proof (sk_width _ _ _ _ Hok). apply as_u64_small. lia.
Qed.

Lemma fail_ok token err ls us s g : sched_ok ls us s g -> sched_ok ls us (schedule_fail s token err).1 g.
Proof.
  intros Hok. unfold schedule_fail, routes_fail. destruct (get_state _ _) as [st|] eqn:Hst; [|done].
  destruct (conn_fail st token err) as [st' [[p live]|]] eqn:E; [|done]. cbn.
  assert (exists x, bound st = Some x /\ connection (bound_position x) = token /\ bound st' = Some x /\ p = bound_position x /\
    live = is_live st /\ exists c, st' = State.Closing c \/ st' = State.Reconnecting c) as (x & Hx & Ht & Hx' & -> & -> & Hc).
  { destruct st; cbn in E; try done; unfold is_token in E; case_bool_decide; cbn in E; repeat split_match_in E; try done;
      injection E as <- <- <-; eexists; split_and!; try done; eexists; by left. }
  destruct (is_live st) eqn:El; eapply (close_ok token st st' x); try done; rewrite El.
  - eapply live_active; done.
  - lia.
Qed.

Lemma reconnect_ok token err ls us s g : sched_ok ls us s g -> sched_ok ls us (schedule_reconnect s token err).1 g.
Proof.
  intros Hok. unfold schedule_reconnect, routes_reconnect. destruct (get_state _ _) as [st|] eqn:Hst; [|done].
  destruct (conn_reconnect st token err) as [st' [p|]] eqn:E; [|done]. cbn.
  assert (exists x, bound st = Some x /\ connection (bound_position x) = token /\ bound st' = Some x /\ p = bound_position x /\
    is_live st = true /\ exists c, st' = State.Closing c \/ st' = State.Reconnecting c) as (x & Hx & Ht & Hx' & -> & El & Hc).
  { destruct st; cbn in E; try done; unfold is_token in E; case_bool_decide; cbn in E; try done;
      injection E as <- <-; eexists; split_and!; try done; eexists; by right. }
  eapply (close_ok token st st' x); try done. rewrite El. eapply live_active; done.
Qed.

Lemma clear_recv_ok work token ls us s g : sched_ok ls us s g -> sched_ok ls us (clear_recv share work s token).1 g.
Proof.
  intros Hok. unfold clear_recv. destruct (routes_failure share (routes s) token) as [[h cause]|] eqn:E; [|done].
  unfold routes_failure in E. apply bind_Some in E as (st & Hst & E). apply bind_Some in E as ([p f] & E & [= <- <-]). cbn.
  assert (exists x, bound st = Some x /\ p = bound_position x /\ exists c, st = State.Closing c \/ st = State.Reconnecting c)
    as (x & Hx & -> & Hc).
  { destruct st; cbn in E; try done; destruct (is_token _ _); try done; injection E as <- _; eexists; split_and!; try done; eauto. }
  pose proof (sk_slots _ _ _ _ Hok _ _ Hst) as Hv. destruct (so_bound _ _ _ _ _ _ _ _ _ Hv x Hx) as [Hsl Hus].
  destruct (reply_fail _ _ _) as [l done] eqn:El. cbn. rewrite Hsl.
  apply (sched_same (index token) ls us s); try done.
  - intros j Hne. cbn. by rewrite upd_ne.
  - intros st0 Hst0 Hv0. rewrite Hst in Hst0. injection Hst0 as <-. unfold slot_view in *. cbn. rewrite upd_eq.
    assert (forall k, link_token (routes s) k (index token) = None) as Hn.
    { intros k. destruct (link_token (routes s) k (index token)) as [t|] eqn:Et; [|done].
      destruct (so_linked _ _ _ _ _ _ _ _ _ Hv0 t) as (y & fr & -> & _); [destruct k; auto|].
      by destruct Hc as (c & [?|?]). }
    rewrite !Hn. eapply slot_closed; [done|done|done|done|apply Hv0].
Qed.

Lemma clear_send_ok work token ls us s g : sched_ok ls us s g -> sched_ok ls us (clear_send work s token).1.1 g.
Proof.
  intros Hok. unfold clear_send. destruct (routes_bound (routes s) token) as [[h fr]|] eqn:E; [|done].
  apply bound_spec in E as (st & x & Hst & Hx & Ht & -> & ->). cbn.
  pose proof (sk_slots _ _ _ _ Hok _ _ Hst) as Hv. destruct (so_bound _ _ _ _ _ _ _ _ _ Hv x Hx) as [Hsl Hus].
  unfold requests. rewrite Hsl. pose proof (so_queue _ _ _ _ _ _ _ _ _ Hv) as Hq.
  destruct (clear_spec work _ Hq) as (b & out & d & -> & Hq' & Ho & _). cbn. apply ok_queue; [done|done|].
  intros Hi. rewrite Hi in Ho. cbn in Ho. symmetry in Ho. apply app_eq_nil in Ho as [_ Ho]. by destruct (fair_items b).
Qed.

Lemma drain_ok token requests s' d r ls us s g :
  sched_ok ls us s g -> drain of_hold s token requests = Some (s', d, r) -> sched_ok ls us s' g.
Proof.
  intros Hok. unfold drain. destruct (routes_bound (routes s) token) as [[h fr]|] eqn:E; [|by intros [= <- _ _]].
  apply bound_spec in E as (st & x & Hst & Hx & Ht & -> & ->). cbn -[CoreQueue.drain]. rewrite Hst. cbn -[CoreQueue.drain].
  destruct (conn_retry_reason _ _ _); [by intros [= <- _ _]|].
  pose proof (sk_slots _ _ _ _ Hok _ _ Hst) as Hv. destruct (so_bound _ _ _ _ _ _ _ _ _ Hv x Hx) as [Hsl Hus].
  unfold RespSchedule.requests. rewrite Hsl. pose proof (so_queue _ _ _ _ _ _ _ _ _ Hv) as Hq.
  destruct (drain_spec (Y := X) (Datatypes.S (length (fair_items (queues s (index token))))) _ requests Hq)
    as (b & d' & r' & moved & -> & Hq' & Hm & _); [lia|]. cbn. intros [= <- _ _]. apply ok_queue; [done|done|].
  intros Hi. rewrite Hi in Hm. symmetry in Hm. by apply app_eq_nil in Hm as [_ Hm].
Qed.

Lemma drain_total token requests ls us s g :
  sched_ok ls us s g -> exists r, drain of_hold s token requests = Some r.
Proof.
  intros Hok. unfold drain. destruct (routes_bound (routes s) token) as [[h fr]|] eqn:E; [|by eexists].
  apply bound_spec in E as (st & x & Hst & Hx & Ht & -> & ->). cbn -[CoreQueue.drain]. rewrite Hst. cbn -[CoreQueue.drain].
  destruct (conn_retry_reason _ _ _); [by eexists|].
  pose proof (sk_slots _ _ _ _ Hok _ _ Hst) as Hv. destruct (so_bound _ _ _ _ _ _ _ _ _ Hv x Hx) as [Hsl Hus].
  unfold RespSchedule.requests. rewrite Hsl. pose proof (so_queue _ _ _ _ _ _ _ _ _ Hv) as Hq.
  destruct (drain_spec (Y := X) (Datatypes.S (length (fair_items (queues s (index token))))) _ requests Hq)
    as (b & d' & r' & moved & -> & _); [lia|]. by eexists.
Qed.

Lemma retire_ok token ls us s g :
  sched_ok ls us s g ->
  (exists c, get_state (routes s) (index token) = Some (State.Closing c) \/
    get_state (routes s) (index token) = Some (State.Reconnecting c)) ->
  reply_depth (lanes s (index token)) = 0%nat -> fair_items (queues s (index token)) = [] ->
  sched_ok ls us (with_routes s (retire (routes s) token)) g.
Proof.
  intros Hok (c & Hc) Hd Hq. unfold retire.
  assert (exists st, get_state (routes s) (index token) = Some st /\ is_live st = false /\ forall y fr, st <> State.Shared y fr)
    as (st & Hst & Hl & Hns) by (destruct Hc; eexists; split_and!; done).
  apply get_capacity in Hst as Hi. pose proof (sk_slots _ _ _ _ Hok _ _ Hst) as [H1 H2 H3 H4 H5 H6 H7 H8].
  apply (sched_touch (index token) ls us s g); try done; cbn.
  - apply len_set.
  - intros j Hne. rewrite get_set, decide_False by done. split; [done|]. split; [intros k; apply token_set|done].
  - intros st' Hst'. rewrite get_set, decide_True in Hst' by done. injection Hst' as <-. unfold slot_view. cbn.
    rewrite !token_set. split; try done.
    + intros t Ht. destruct (H2 t Ht) as (y & fr & -> & _). by destruct (Hns y fr).
    + by intros x [[? ?]|?].
    + by intros x fr [?|?].
  - apply (sk_used _ _ _ _ Hok).
  - unfold live_slot. rewrite Hst, get_set, decide_True, Hl by done. cbn. lia.
Qed.

(** A lease given back: its connection is shared again if it is still the one leased. *)
Lemma schedule_release_ok h ls ls' us s g :
  sched_ok ls us s g -> slot h = slot_of (at_position h) ->
  (forall t, t ∈ ls' <-> t ∈ ls /\ t <> handle_connection h) ->
  sched_ok ls' us (schedule_release s h).1 g.
Proof.
  intros Hok Hh Hls. assert (forall t, index t <> slot h -> t ∈ ls' <-> t ∈ ls) as Hoth.
  { intros t Ht. rewrite Hls. split; [by intros [? _]|]. intros Hin. split; [done|]. intros ->.
    unfold slot_of, handle_connection in *. congruence. }
  assert (forall t, t ∈ ls' -> t ∈ us) as Hus.
  { intros t [Ht _]%Hls. by apply (sk_used _ _ _ _ Hok). }
  unfold schedule_release. destruct (get_state (routes s) (slot h)) as [st|] eqn:Hst.
  2:{ cbn. apply (sched_touch (slot h) ls us s g); try done; [|lia]. intros st Hst'. congruence. }
  pose proof (sk_slots _ _ _ _ Hok _ _ Hst) as [H1 H2 H3 H4 H5 H6 H7 H8].
  destruct (conn_release st (handle_connection h)) as [st' b] eqn:E. destruct b; cbn.
  2:{ apply (sched_touch (slot h) ls us s g); try done; [|lia]. intros st0 Hst0. rewrite Hst in Hst0. injection Hst0 as <-.
      split; try done.
      - intros x fr Hx. rewrite Hls. split; [by eapply H4|]. intros Ht. subst st. cbn in E. unfold is_token in E.
        by rewrite bool_decide_true in E.
      - intros x Hx. rewrite Hls. intros [? _]. by eapply H5. }
  assert (exists x fr, st = State.Exclusive x fr /\ st' = State.Shared x fr /\ connection (bound_position x) = handle_connection h)
    as (x & fr & -> & -> & Hx).
  { destruct st; cbn in E; try done. unfold is_token in E. case_bool_decide; [|done]. injection E as <-. by eexists _, _. }
  clear E. apply get_capacity in Hst as Hi.
  set (r := set_state _ _ _). assert (sched_ok ls' us (with_routes s r) g) as Hr.
  { apply (sched_touch (slot h) ls us s g); try done; unfold r; cbn.
    - apply len_set.
    - intros j Hne. rewrite get_set, decide_False by done. split; [done|]. split; [intros k; apply token_set|done].
    - intros st' Hst'. cbn in Hst'. rewrite get_set, decide_True in Hst' by done. injection Hst' as <-. unfold slot_view. cbn.
      rewrite !token_set. split; try done.
      + intros t Ht. by destruct (H2 t Ht) as (y & fr' & ? & _).
      + intros y [[fr' [= <- <-]]|?]; [|done]. rewrite Hls, Hx. tauto.
      + by intros [?|[? ?]].
      + intros y fr' [[= <- <-]|?]; [|done]. apply (H8 x fr). by right.
    - unfold live_slot. rewrite Hst, get_set, decide_True by done. cbn. lia. }
  apply (ok_schedule Link.Returned (slot h) (at_position h) x fr ls' us (with_routes s r) g Hr); [|done|done].
  unfold r. cbn. by rewrite get_set, decide_True.
Qed.

(** ** Requests *)

Definition publish_build (u : bool) (i : nat) (t : I) (s : Schedule) : Schedule :=
  if u then with_routes s (unlink (routes s) Link.Idle i t) else s.

(** What publishing a request does to the slot it goes through. *)
Definition published (s s' : Schedule) (i : nat) (u : bool) (frame : V) : Prop :=
  fair_items (queues s' i) = fair_items (queues s i) ++ [{| value := frame; weight := 0 |}] /\
  reply_depth (lanes s' i) = Datatypes.S (reply_depth (lanes s i)) /\ first (lanes s' i) = first (lanes s i) /\
  (forall j, j <> i -> lanes s' j = lanes s j /\ queues s' j = queues s j) /\
  forall k j, link_token (routes s') k j =
    if decide (u = true /\ k = Link.Idle /\ j = i) then None else link_token (routes s) k j.

(** What a refused one leaves. *)
Definition refused (s s' : Schedule) : Prop :=
  (forall j, fair_items (queues s' j) = fair_items (queues s j)) /\ lanes s' = lanes s /\
  forall k j, link_token (routes s') k j = link_token (routes s) k j.

Definition same_routes (s s' : Schedule) : Prop :=
  (forall j, get_state (routes s') j = get_state (routes s) j) /\ routes_len (routes s') = routes_len (routes s) /\
  active (routes s') = active (routes s) /\ next (routes s') = next (routes s).

Lemma build_same u i t s :
  same_routes s (publish_build u i t s) /\ lanes (publish_build u i t s) = lanes s /\
  queues (publish_build u i t s) = queues s.
Proof.
  unfold publish_build, same_routes. destruct u; [|done]. cbn. split; [|done]. split_and!.
  - intros j. apply get_unlink.
  - apply len_unlink.
  - apply active_unlink.
  - unfold unlink. by case_bool_decide.
Qed.

Lemma build_token u i st x k j ls us s g :
  sched_ok ls us s g -> get_state (routes s) i = Some st -> bound st = Some x ->
  link_token (routes (publish_build u i (connection (bound_position x)) s)) k j =
    if decide (u = true /\ k = Link.Idle /\ j = i) then None else link_token (routes s) k j.
Proof.
  intros Hok Hst Hx. unfold publish_build. destruct u; cbn; [|by rewrite decide_False by (by intros [? _])].
  rewrite token_unlink. destruct (decide (true = true /\ _)) as [(_ & -> & ->)|Hn].
  - destruct (decide _) as [|Hn]; [done|]. destruct (links_of _ _ _ _ _ _ _ Link.Idle Hok Hst Hx) as [->|]; [done|tauto].
  - rewrite decide_False; [done|tauto].
Qed.

(** An order admitted with its request queued. *)
Lemma admitted_ok u i st x frame l b ls us s g :
  sched_ok ls us s g -> get_state (routes s) i = Some st -> bound st = Some x -> is_live st = true ->
  (u = false -> exists y fr, st = State.Exclusive y fr) ->
  first l = first (lanes s i) -> reply_depth l = Datatypes.S (reply_depth (lanes s i)) -> queue_wf b ->
  fair_items b = fair_items (queues s i) ++ [{| value := frame; weight := 0 |}] ->
  let s' := with_queue (publish_build u i (connection (bound_position x)) (with_lane s i l)) i b in
  sched_ok ls us s' g /\ same_routes s s' /\ published s s' i u frame.
Proof.
  intros Hok Hst Hx Hl Hu Hf Hd Hw Hb s'.
  destruct (build_same u i (connection (bound_position x)) (with_lane s i l)) as ((Hg & Hn & Ha & Hnx) & Hla & Hqu).
  assert (forall k j, link_token (routes s') k j =
    if decide (u = true /\ k = Link.Idle /\ j = i) then None else link_token (routes s) k j) as Htok.
  { intros k j. rewrite <- (build_token u i st x k j ls us s g Hok Hst Hx). unfold s', publish_build. by destruct u. }
  assert (lanes s' = upd (lanes s) i l) as Hl' by exact Hla.
  assert (queues s' = upd (queues s) i b) as Hq' by (unfold s'; cbn; by rewrite Hqu).
  assert (same_routes s s') as Hsame by done. split; [|split; [done|]].
  2:{ unfold published. rewrite Hl', Hq', !upd_eq. split_and!; [done|done|done| |done]. intros j Hne. by rewrite !upd_ne. }
  apply (sched_touch i ls us s g); try done.
  - intros j Hne. split; [apply Hg|]. split; [intros k; rewrite Htok, decide_False; [done|tauto]|].
    by rewrite Hl', Hq', !upd_ne.
  - intros st' Hst'. change (get_state (routes s') i) with (get_state (routes (publish_build u i (connection (bound_position x)) (with_lane s i l))) i) in Hst'.
    rewrite Hg in Hst'. cbn in Hst'. rewrite Hst in Hst'. injection Hst' as <-.
    unfold slot_view. rewrite Hl', Hq', !upd_eq, !Htok.
    destruct (sk_slots _ _ _ _ Hok _ _ Hst) as [H1 H2 H3 H4 H5 H6 H7 H8].
    assert ((if decide (u = true /\ Link.Idle = Link.Idle /\ i = i) then None else link_token (routes s) Link.Idle i) = None) as ->.
    { destruct u; [by rewrite decide_True|]. rewrite decide_False by (by intros [? _]).
      destruct (Hu eq_refl) as (y & fr & ->). destruct (link_token (routes s) Link.Idle i) as [t|]; [|done].
      destruct (H2 t) as (? & ? & ? & _); [by left|done]. }
    rewrite decide_False by (by intros (_ & ? & _)). split; try done.
    + intros t [?|?]; [done|]. apply H2. by right.
    + intros [->|[y ->]]; done.
    + intros y fr Hy. unfold cutoff_ok. rewrite Hf. by apply (H8 y).
  - apply (sk_used _ _ _ _ Hok).
  - assert (live_slot (routes s') i = live_slot (routes s) i) as ->.
    { unfold live_slot. change (get_state (routes s') i) with (get_state (routes (publish_build u i (connection (bound_position x)) (with_lane s i l))) i). by rewrite Hg. }
    change (active (routes s')) with (active (routes (publish_build u i (connection (bound_position x)) (with_lane s i l)))).
    rewrite Ha. cbn. lia.
Qed.

Lemma try_publish_ok u i st x frame ls us s g :
  sched_ok ls us s g -> get_state (routes s) i = Some st -> bound st = Some x -> is_live st = true ->
  (u = false -> exists y fr, st = State.Exclusive y fr) ->
  exists s' r, try_publish s (bound_position x) frame (publish_build u i (connection (bound_position x))) = Some (s', r) /\
    sched_ok ls us s' g /\ same_routes s s' /\
    match r with
    | Ok t => t = connection (bound_position x) /\ published s s' i u frame
    | Err (Handoff.Queue cause, frame') => frame' = frame /\ try_reserve (queues s i) 0 = Err cause /\
        s' = with_queue s i (queues s i)
    | Err (Handoff.Reply cause, frame') => frame' = frame /\ reply_admit (lanes s i) = Err cause /\ refused s s'
    end.
Proof.
  intros Hok Hst Hx Hl Hu. pose proof (sk_slots _ _ _ _ Hok _ _ Hst) as Hv.
  destruct (so_bound _ _ _ _ _ _ _ _ _ Hv x Hx) as [Hsl Hus]. pose proof (so_queue _ _ _ _ _ _ _ _ _ Hv) as Hq.
  assert (forall b, queue_wf b -> fair_items b = fair_items (queues s i) ->
    sched_ok ls us (with_queue s i b) g /\ same_routes s (with_queue s i b) /\ refused s (with_queue s i b)) as Href.
  { intros b Hw Hb. split; [apply ok_queue; [done|done|by rewrite Hb]|]. split; [done|]. split; [|done].
    intros j. cbn. unfold upd. by destruct (decide _) as [->|]. }
  unfold try_publish, CoreQueue.try_with, requests, lane. rewrite Hsl.
  destruct (try_reserve (queues s i) 0) as [b|cause] eqn:Er.
  2:{ cbn. eexists _, _. split; [done|]. destruct (Href (queues s i) Hq eq_refl) as (? & ? & ?). by split_and!. }
  destruct (reserve_charged _ _ _ Hq (Z.le_refl 0) Er) as [Hc Hi].
  destruct (reply_admit (lanes s i)) as [l|cause] eqn:Ea; cbn.
  2:{ destruct (release_wf _ _ Hc) as [Hw Hi']. rewrite Hi in Hi'. eexists _, _. split; [done|].
      destruct (Href _ Hw Hi') as (? & ? & ?). by split_and!. }
  destruct (publish_wf _ frame _ Hc) as [Hw Hi']. rewrite Hi in Hi'. destruct (admit_law _ _ Ea) as [Hf Hd].
  eexists _, _. split; [done|].
  destruct (admitted_ok u i st x frame l _ _ _ _ _ Hok Hst Hx Hl Hu Hf Hd Hw Hi') as (? & ? & ?). by split_and!.
Qed.

(** Every dispatch under a lease goes to its connection. *)
Lemma dispatch_ok h frame ls us s g :
  sched_ok ls us s g -> slot h = slot_of (at_position h) ->
  exists s' r ns, try_dispatch_lease s frame (handle_connection h) = Some (s', r, ns) /\ sched_ok ls us s' g /\ same_routes s s' /\
    match r with
    | Ok t => t = handle_connection h /\ published s s' (slot h) false frame /\
        exists x fr, get_state (routes s) (slot h) = Some (State.Exclusive x fr) /\ connection (bound_position x) = t
    | Err e => refused s s' /\ match e with Reject.Blocked _ frame' => frame' = frame | Reject.Failed _ => True end
    end.
Proof.
  intros Hok Hh. unfold try_dispatch_lease, exclusive. assert (index (handle_connection h) = slot h) as Hi by done.
  rewrite Hi. destruct (get_state (routes s) (slot h)) as [st|] eqn:Hst; cbn; [|by eexists _, _, _].
  destruct (conn_access st) as [[p a]|] eqn:Ea; cbn; [|by eexists _, _, _].
  case_bool_decide as Hc; [|by eexists _, _, _]. destruct Hc as [Hc ->].
  assert (exists x fr, st = State.Exclusive x fr /\ p = bound_position x) as (x & fr & -> & ->).
  { destruct st; try done. cbn in Ea. injection Ea as <-. by eexists _, _. }
  destruct (try_publish_ok false (slot h) _ x frame _ _ _ _ Hok Hst eq_refl eq_refl) as (s' & r & Hs' & Hok' & Hsame & Hr);
    [by eexists _, _|].
  cbn [at_position slot fst snd]. unfold publish_build in Hs'. rewrite Hs'. cbn. destruct r as [t|[[cause|cause] frame']].
  - destruct Hr as [-> Hp]. eexists _, _, _. split; [done|]. split; [done|]. split; [done|]. split; [done|]. split; [done|].
    by exists x, fr.
  - destruct Hr as (-> & _ & Hr). by eexists _, _, _.
  - destruct Hr as (-> & _ & ->). eexists _, _, _. split; [done|]. split; [done|]. split; [done|]. split; [|done].
    split; [|done]. intros j. cbn. unfold upd. by destruct (decide _) as [->|].
Qed.

(** ** The turn of the pool *)

(** A slot no request can go through: it is not shared, or its reply lane is full, or
    its queue takes no more. *)
Definition turned_away (s : Schedule) (i : nat) : Prop :=
  match get_state (routes s) i with
  | Some (State.Shared _ _) => reply_registration (lanes s i) = Registration.Full \/ exists e, try_reserve (queues s i) 0 = Err e
  | _ => True
  end.

(** Only the turn moved. *)
Definition same_but_turn (s s' : Schedule) : Prop :=
  (forall i, get_state (routes s') i = get_state (routes s) i) /\ routes_len (routes s') = routes_len (routes s) /\
  active (routes s') = active (routes s) /\ (forall k i, link_token (routes s') k i = link_token (routes s) k i) /\
  (forall i, lanes s' i = lanes s i) /\ forall i, queues s' i = queues s i.

Definition after (n : nat) (i : nat) : nat := if (Datatypes.S i =? n)%nat then O else Datatypes.S i.

Lemma same_but_turn_trans s1 s2 s3 : same_but_turn s1 s2 -> same_but_turn s2 s3 -> same_but_turn s1 s3.
Proof.
  intros (A1 & A2 & A3 & A4 & A5 & A6) (B1 & B2 & B3 & B4 & B5 & B6). split_and!; intros; congruence.
Qed.

Lemma turned_same s s' i : same_but_turn s s' -> turned_away s' i <-> turned_away s i.
Proof. intros (A1 & _ & _ & _ & A5 & A6). unfold turned_away. by rewrite A1, A5, A6. Qed.

(** The next slot in turn; nothing else changes. *)
Lemma next_ok ls us s g :
  sched_ok ls us s g -> routes_len (routes s) <> 0%nat ->
  exists r, routes_next (routes s) = Some (next (routes s), r) /\ sched_ok ls us (with_routes s r) g /\
    same_but_turn s (with_routes s r) /\ next r = after (routes_len (routes s)) (next (routes s)) /\
    (next (routes s) < routes_len (routes s))%nat.
Proof.
  intros Hok Hn. destruct (sk_next _ _ _ _ Hok) as [|Hlt]; [done|]. apply get_law in Hlt as Hg. destruct Hg as [st Hst].
  fold (get_state (routes s) (next (routes s))) in Hst. unfold routes_next. rewrite Hst. cbn [option_bind mbind]. eexists. split; [done|].
  split; [|done]. destruct Hok as [H1 H2 H3 H4 H5]. split; try done. right. unfold routes_len in *. cbn [routes with_routes next conns].
  destruct (Nat.eqb_spec (Datatypes.S (next (routes s))) (depot_capacity (conns (routes s)))); lia.
Qed.

(** What a round of [n] slots does from the turn of [s]. *)
Definition pool_result (n : nat) (s : Schedule) (frame : V) (s' : Schedule) (r : result (Reject.Reject X V) I)
    (ns : list (Notice T)) : Prop :=
  match r with
  | Ok t => exists k s1 i x fr, (k < n)%nat /\ i = Nat.iter k (after (routes_len (routes s))) (next (routes s)) /\
      (forall j, (j < k)%nat -> turned_away s (Nat.iter j (after (routes_len (routes s))) (next (routes s)))) /\
      get_state (routes s) i = Some (State.Shared x fr) /\ t = connection (bound_position x) /\
      reply_registration (lanes s i) = Registration.Available /\
      same_but_turn s s1 /\ same_routes s1 s' /\ next (routes s') = after (routes_len (routes s)) i /\
      published s1 s' i true frame /\ ns = [WakeTarget (ready x)]
  | Err (Reject.Blocked cause frame') => frame' = frame /\ same_but_turn s s' /\ ns = [] /\
      (forall j, (j < n)%nat -> turned_away s (Nat.iter j (after (routes_len (routes s))) (next (routes s)))) /\
      (is_active (routes s) = false <-> cause = ClientError.Inactive)
  | Err (Reject.Failed _) => exists s1, same_but_turn s s1 /\ same_routes s1 s' /\ refused s1 s' /\ ns = []
  end.

Lemma pool_result_skip n s s1 frame s' r ns :
  same_but_turn s s1 -> next (routes s1) = after (routes_len (routes s)) (next (routes s)) ->
  turned_away s (next (routes s)) -> pool_result n s1 frame s' r ns -> pool_result (Datatypes.S n) s frame s' r ns.
Proof.
  intros Hsame Hn Ht. pose proof Hsame as (A1 & A2 & A3 & A4 & A5 & A6). unfold pool_result. rewrite A2, Hn.
  assert (forall j, Nat.iter j (after (routes_len (routes s))) (after (routes_len (routes s)) (next (routes s))) =
    Nat.iter (Datatypes.S j) (after (routes_len (routes s))) (next (routes s))) as Hit by (intros j; apply Nat.iter_swap).
  destruct r as [t|[cause frame'|e]].
  - intros (k & s2 & i & x & fr & Hk & -> & Hj & Hst & -> & Hr & Hs2 & Hs' & Hn' & Hp & ->).
    exists (Datatypes.S k), s2, (Nat.iter (Datatypes.S k) (after (routes_len (routes s))) (next (routes s))), x, fr.
    rewrite Hit in *. rewrite A1 in Hst. rewrite A5 in Hr. split_and!; try done; [lia| |by eapply same_but_turn_trans].
    intros [|j] Hjk; [done|]. rewrite <- Hit, <- (turned_same s s1) by done. apply Hj. lia.
  - intros (-> & Hs' & -> & Hj & Ha). split_and!; [done|by eapply same_but_turn_trans|done| |].
    + intros [|j] Hjn; [done|]. rewrite <- Hit, <- (turned_same s s1) by done. apply Hj. lia.
    + unfold is_active in *. by rewrite A3 in Ha.
  - intros (s2 & Hs2 & Hs' & Hr & ->). exists s2. split_and!; try done. by eapply same_but_turn_trans.
Qed.

Lemma pool_loop_ok ls us g n : forall s blocked frame,
  sched_ok ls us s g -> (n <= routes_len (routes s))%nat -> blocked <> ClientError.Inactive ->
  exists s' r ns, pool_loop n s blocked frame = Some (s', r, ns) /\ sched_ok ls us s' g /\ pool_result n s frame s' r ns.
Proof.
  induction n as [|n IH]; intros s blocked frame Hok Hn Hb; cbn [pool_loop].
  { eexists _, _, _. split; [done|]. split; [done|]. cbn. split_and!; try done; [by intros j ?%Nat.nlt_0_r|].
    destruct (is_active (routes s)); by split. }
  destruct (next_ok _ _ _ _ Hok) as (r & Hr & Hok1 & Hsame & Hnx & Hlt); [lia|]. rewrite Hr.
  set (s1 := with_routes s r) in *. set (i := next (routes s)) in *.
  pose proof Hsame as (A1 & A2 & A3 & A4 & A5 & A6).
  assert (forall s2 blocked2, sched_ok ls us s2 g -> same_but_turn s s2 -> next (routes s2) = after (routes_len (routes s)) i ->
    blocked2 <> ClientError.Inactive -> turned_away s i -> exists s' r' ns, pool_loop n s2 blocked2 frame = Some (s', r', ns) /\
      sched_ok ls us s' g /\ pool_result (Datatypes.S n) s frame s' r' ns) as Hskip.
  { intros s2 b2 Hok2 Hs2 Hn2 Hb2 Ht. pose proof Hs2 as (_ & B2 & _).
    destruct (IH s2 b2 frame Hok2) as (s' & r' & ns & Hl & Hok' & Hres); [lia|done|].
    exists s', r', ns. split; [done|]. split; [done|]. by eapply pool_result_skip. }
  change (get_state r i) with (get_state (routes s1) i). rewrite A1.
  destruct (get_state (routes s) i) as [st|] eqn:Hst; cbn [option_bind mbind].
  2:{ apply Hskip; try done. unfold turned_away. by rewrite Hst. }
  destruct (conn_access st) as [[p a]|] eqn:Ea; [destruct a|].
  2,3: apply Hskip; try done; unfold turned_away; rewrite Hst; by destruct st.
  assert (exists x fr, st = State.Shared x fr /\ p = bound_position x) as (x & fr & -> & ->).
  { destruct st; try done. cbn in Ea. injection Ea as <-. by eexists _, _. }
  destruct (so_bound _ _ _ _ _ _ _ _ _ (sk_slots _ _ _ _ Hok _ _ Hst) x eq_refl) as [Hsl _].
  unfold lane. rewrite Hsl, A5.
  destruct (reply_registration (lanes s i)) eqn:Ereg.
  - assert (get_state (routes s1) i = Some (State.Shared x fr)) as Hst1 by (by rewrite A1).
    destruct (try_publish_ok true i _ x frame _ _ _ _ Hok1 Hst1 eq_refl eq_refl) as (s' & res & Hs' & Hok' & Hrt & Hres); [done|].
    unfold publish_build in Hs'. rewrite Hs'. cbn [option_bind mbind]. pose proof Hrt as (R1 & R2 & R3 & R4).
    destruct res as [t|[[cause|cause] frame']].
    + destruct Hres as [-> Hp]. eexists _, _, _. split; [done|]. split; [done|].
      exists 0%nat, s1, i, x, fr. cbn [Nat.iter]. split_and!; try done; [lia|by intros j ?%Nat.nlt_0_r| |].
      * by rewrite R4, <- Hnx.
      * unfold wake_slot. by rewrite R1, Hst1.
    + destruct Hres as (-> & _ & Href). eexists _, _, _. split; [done|]. split; [done|]. by exists s1.
    + destruct Hres as (-> & He & ->). apply Hskip; try done.
      * split_and!; try done. intros j. cbn. unfold upd. by destruct (decide _) as [->|].
      * unfold turned_away. rewrite Hst. right. exists cause. by rewrite <- A6.
  - apply Hskip; try done. unfold turned_away. rewrite Hst. by left.
  - eexists _, _, _. split; [done|]. split; [done|]. by exists s1.
Qed.

Lemma try_pool_ok exhausted frame ls us s g :
  sched_ok ls us s g ->
  exists s' r ns, try_pool s exhausted frame = Some (s', r, ns) /\ sched_ok ls us s' g /\
    pool_result (routes_len (routes s)) s frame s' r ns.
Proof.
  intros Hok. unfold try_pool. destruct exhausted; [|by apply pool_loop_ok].
  eexists _, _, _. split; [done|]. split; [done|]. by exists s.
Qed.

(** ** Replies *)

(** A frontier once the order in front is complete. *)
Lemma cutoff_settled l l' c g last :
  cutoff_ok l c g -> reply_depth l <> 0%nat -> first l' = Datatypes.S (first l) -> last = reply_is_cutoff l c ->
  cutoff_ok l' (if last : bool then cutoff_empty else c) g.
Proof.
  intros Hc Hd Hf -> n Hn. destruct (reply_is_cutoff l c) eqn:E; [by rewrite empty_law in Hn|].
  destruct (Hc n Hn) as [Hl Hg]. split; [|done]. rewrite Hf. destruct (decide (n = first l)) as [->|]; [|lia].
  assert (reply_is_cutoff l c = true) by (by apply (is_cutoff_law l c (first l))). congruence.
Qed.

(** The order in front is completed on a lane that had it: the slot keeps its
    connection, and what governs the next frame is the newest receipt. *)
Lemma settled_slot token st st' x l ls us s g g' :
  sched_ok ls us s g -> get_state (routes s) (index token) = Some st -> bound st = Some x ->
  connection (bound_position x) = token -> reply_depth (lanes s (index token)) <> 0%nat ->
  is_live st' = is_live st -> bound st' = Some x ->
  (forall y fr, st' = State.Shared y fr -> exists fr', st = State.Shared y fr') ->
  (forall y fr, st' = State.Exclusive y fr -> exists fr', st = State.Exclusive y fr') ->
  (forall y, st' <> State.Initializing y) ->
  (forall y fr, st = State.Shared y fr -> exists fr', st' = State.Shared y fr') ->
  (forall fr, frontier_of st' = Some fr -> cutoff_ok l fr.1 (g' token).1 /\ cutoff_ok l fr.2 (g' token).2) ->
  (forall t, t <> token -> g' t = g t) ->
  sched_ok ls us (with_routes (with_lane s (index token) l) (set_state (routes s) (index token) st')) g'.
Proof.
  intros Hok Hst Hx Ht Hd Hl Hx' Hsh Hex Hin Hsh' Hfr Hg. apply get_capacity in Hst as Hi.
  pose proof (sk_slots _ _ _ _ Hok _ _ Hst) as [H1 H2 H3 H4 H5 H6 H7 H8].
  apply (sched_touch (index token) ls us s g); try done; cbn.
  - apply len_set.
  - intros j Hne. rewrite get_set, decide_False, upd_ne by done. split; [done|]. split; [intros k; apply token_set|done].
  - intros t Hne. apply Hg. by intros ->.
  - intros st0 Hst0. rewrite get_set, decide_True in Hst0 by done. injection Hst0 as <-. unfold slot_view. cbn.
    rewrite !token_set, upd_eq. split; try done.
    + intros y Hy. rewrite Hx' in Hy. injection Hy as <-. by apply H1.
    + intros t Hlt. destruct (H2 t Hlt) as (y & fr & Hy & Hyt). destruct (Hsh' y fr Hy) as [fr' ->]. by exists y, fr'.
    + intros Hli. destruct (H3 Hli) as [? _]. congruence.
    + intros y fr Hy. destruct (Hex y fr Hy) as [fr' ->]. by eapply H4.
    + intros y [[fr Hy]|Hy]; [destruct (Hsh y fr Hy) as [fr' ->]; apply H5; left; by eexists|by destruct (Hin y)].
    + intros [->|[y ->]]; [done|by destruct (Hin y)].
    + intros y fr Hy. assert (y = x) as -> by (destruct Hy as [->| ->]; by injection Hx').
      rewrite Ht. apply Hfr. by destruct Hy as [->| ->].
  - apply (sk_used _ _ _ _ Hok).
  - unfold live_slot. rewrite Hst, get_set, decide_True, Hl by done. lia.
Qed.

Lemma settled_ok token st x l last ls us s g :
  sched_ok ls us s g -> get_state (routes s) (index token) = Some st -> bound st = Some x ->
  connection (bound_position x) = token -> first l = first (lanes s (index token)) ->
  reply_depth l = reply_depth (lanes s (index token)) -> reply_depth l <> 0%nat ->
  (forall c0 c1, frontier_of st = Some (c0, c1) -> last = reply_is_cutoff (lanes s (index token)) c1) ->
  sched_ok ls us (reply_settled s token {| slot := index token; at_position := bound_position x |} last l).1
    (if live_at s token then upd g token ((g token).2, (g token).2) else g).
Proof.
  intros Hok Hst Hx Ht Hf Hd Hd0 Hlast. apply get_capacity in Hst as Hi.
  pose proof (sk_slots _ _ _ _ Hok _ _ Hst) as [H1 _ _ _ _ _ H7 H8].
  destruct (H1 x Hx) as [Hsl _]. destruct (complete_law l Hd0) as [Hcf _]. rewrite Hf in Hcf. rewrite Hd in Hd0.
  unfold reply_settled, live_at. cbn [slot at_position]. rewrite Hsl. cbn [routes with_lane]. rewrite Hst.
  destruct st as [|y|y fr|y fr|c|c]; try done; injection Hx as Hx.
  - destruct H7 as [H7 _]; [right; by eexists|]. congruence.
  - subst y. cbn [with_frontier]. unfold is_token. rewrite bool_decide_true by done. cbn -[publish].
    destruct (H8 x fr) as [_ Hc]; [by left|].
    pose proof (cutoff_settled _ (reply_complete l) _ _ last Hc Hd0 Hcf) as Hc'. destruct fr as [c0 c1].
    specialize (Hc' (Hlast c0 c1 eq_refl)). cbn in Hc'.
    set (s2 := with_routes (with_lane s (index token) (reply_complete l)) _).
    assert (sched_ok ls us s2 (upd g token ((g token).2, (g token).2))) as Hs2.
    { eapply (settled_slot token _ _ x); try done.
      - intros y fr [= <- <-]. by eexists.
      - intros y fr [= <- <-]. by eexists.
      - intros fr [= <-]. cbn. rewrite upd_eq. by rewrite Ht in Hc'.
      - intros t Hne. by rewrite upd_ne. }
    pose proof (ok_publish {| slot := index token; at_position := bound_position x |} x
      (if last then cutoff_empty else c1, if last then cutoff_empty else c1) ls us s2 _ Hs2) as Hp.
    cbn [slot at_position] in Hp. unfold lane in Hp. rewrite Hsl in Hp. unfold s2 in Hp at 2 3 4.
    cbn [lanes with_routes with_lane routes] in Hp. rewrite upd_eq in Hp.
    destruct (publish _ _ _ _) as [r added]. rewrite bool_decide_true by done. apply Hp; [|done]. cbn.
    by rewrite get_set, decide_True.
  - subst y. cbn [with_frontier]. unfold is_token. rewrite bool_decide_true by done. cbn -[publish].
    destruct (H8 x fr) as [_ Hc]; [by right|].
    pose proof (cutoff_settled _ (reply_complete l) _ _ last Hc Hd0 Hcf) as Hc'. destruct fr as [c0 c1].
    specialize (Hc' (Hlast c0 c1 eq_refl)). cbn in Hc'. eapply (settled_slot token _ _ x); try done.
    + intros y fr [= <- <-]. by eexists.
    + intros fr [= <-]. cbn. rewrite upd_eq. by rewrite Ht in Hc'.
    + intros t Hne. by rewrite upd_ne.
  - cbn -[publish]. eapply (settled_slot token _ _ x); try done; cbn; by rewrite Hx.
  - cbn -[publish]. eapply (settled_slot token _ _ x); try done; cbn; by rewrite Hx.
Qed.

Lemma settled_lanes s token h last l :
  lanes (reply_settled s token h last l).1 = upd (lanes s) (slot_of (at_position h)) (reply_complete l).
Proof.
  unfold reply_settled. cbn. destruct (get_state _ _); [|done]. destruct (with_frontier _ _ _) as [st o]. cbn -[publish].
  destruct (default false o); [|done]. by destruct (publish _ _ _ _).
Qed.

(** A frame that was handed over completed an order in front; on a live connection one
    issued by the receipt that governs the frame. *)
Definition handed (s : Schedule) (token : I) (g : I -> nat * nat) : Prop :=
  reply_depth (lanes s (index token)) <> 0%nat /\
  (live_at s token = true -> (first (lanes s (index token)) < (g token).1)%nat).

Definition governs_next (s : Schedule) (token : I) (g : I -> nat * nat) : I -> nat * nat :=
  if live_at s token then upd g token ((g token).2, (g token).2) else g.

Lemma try_reply_ok token frame s' r ns ls us s g :
  sched_ok ls us s g -> try_reply s token frame = (s', r, ns) ->
  match r with
  | Ok None => sched_ok ls us s' (governs_next s token g) /\ handed s token g /\
      exists st x l last, get_state (routes s) (index token) = Some st /\ bound st = Some x /\
        connection (bound_position x) = token /\ first l = first (lanes s (index token)) /\
        reply_depth l = reply_depth (lanes s (index token)) /\
        (s', ns) = reply_settled s token {| slot := index token; at_position := bound_position x |} last l
  | _ => s' = s
  end.
Proof.
  intros Hok. unfold try_reply. destruct (routes_bound (routes s) token) as [[h fr]|] eqn:E; [|by intros [= <- <- <-]].
  apply bound_spec in E as (st & x & Hst & Hx & Ht & -> & ->). cbn [at_position].
  pose proof (sk_slots _ _ _ _ Hok _ _ Hst) as Hv. destruct (so_bound _ _ _ _ _ _ _ _ _ Hv x Hx) as [Hsl _].
  unfold lane. rewrite Hsl. destruct (match frontier_of st with Some _ => _ | None => false end) eqn:Ee; [by intros [= <- <- <-]|].
  set (last := match frontier_of st with Some (_, newest) => _ | None => false end).
  assert (live_at s token = true -> (first (lanes s (index token)) < (g token).1)%nat) as Hsol.
  { unfold live_at. rewrite Hst. intros Hl.
    destruct (so_frontier _ _ _ _ _ _ _ _ _ Hv x (default (cutoff_empty, cutoff_empty) (frontier_of st))) as [H0 _].
    { destruct st as [|y|y fr|y fr|c|c]; try done; injection Hx as <-; cbn; auto. }
    rewrite Ht in H0.
    destruct st as [|y|y [c0 c1]|y [c0 c1]|c|c]; try done; cbn in Ee, H0.
    all: destruct (stamp c0) as [n|] eqn:En; [specialize (H0 n En); lia|]; by apply cutoff_law in En; rewrite En in Ee. }
  assert (forall l, first l = first (lanes s (index token)) -> reply_depth l = reply_depth (lanes s (index token)) ->
    reply_depth (lanes s (index token)) <> 0%nat ->
    (let (s, notices) := reply_settled s token {| slot := index token; at_position := bound_position x |} last l in
      (s, Ok None, notices)) = (s', r, ns) ->
    r = Ok None /\ sched_ok ls us s' (governs_next s token g) /\ handed s token g /\
    (s', ns) = reply_settled s token {| slot := index token; at_position := bound_position x |} last l) as Hset.
  { intros l Hf Hd Hd0 Hr. destruct (reply_settled _ _ _ _ _) as [s2 n2] eqn:Es. injection Hr as <- <- <-.
    split; [done|]. split; [|done].
    change s2 with (s2, n2).1. rewrite <- Es. apply (settled_ok token st); try done; [congruence|].
    intros c0 c1 Hc. unfold last. by rewrite Hc. }
  pose proof (push_law (lanes s (index token)) frame) as Hp.
  destruct (reply_push (lanes s (index token)) frame) as [l|[value [| |y]|value|value cause]]; try (by intros [= <- <- <-]).
  - destruct Hp as (Hd0 & Hf & Hd). intros Hr. destruct (Hset l Hf Hd Hd0 Hr) as (-> & ? & ? & ?).
    split; [done|]. split; [done|]. by exists st, x, l, last.
  - intros Hr. destruct (Hset _ eq_refl eq_refl Hp Hr) as (-> & ? & ? & ?).
    split; [done|]. split; [done|]. by exists st, x, (lanes s (index token)), last.
Qed.

(** ** Every reachable state *)

Lemma sched_ok_ext ls us s g ls' : sched_ok ls us s g -> (forall t, t ∈ ls' <-> t ∈ ls) -> sched_ok ls' us s g.
Proof.
  intros [H1 H2 H3 H4 H5] Hl. split; try done.
  - intros i st Hst. destruct (H1 i st Hst) as [A1 A2 A3 A4 A5 A6 A7 A8]. split; try done.
    + intros x fr Hx. rewrite Hl. by eapply A4.
    + intros x Hx. rewrite Hl. by apply A5.
  - intros t Ht. rewrite Hl in Ht. by apply H5.
Qed.

Lemma world_ok_sched w s :
  world_ok w -> sched_ok (tokens (leases w)) (used w) s (governs w) -> world_ok (with_sched w s).
Proof. intros [H1 H2 H3 H4 H5] Hs. by split. Qed.

Lemma dropped_tokens ls k (h : Handle) :
  NoDup (tokens ls) -> ls !! k = Some h ->
  forall t, t ∈ tokens (delete k ls) <-> t ∈ tokens ls /\ t <> handle_connection h.
Proof.
  intros Hd Hk. pose proof (take_drop_middle ls k h Hk) as E. rewrite delete_take_drop.
  replace (tokens ls) with (tokens (take k ls ++ h :: drop (Datatypes.S k) ls)) in * by (by rewrite E). unfold tokens in *.
  rewrite !fmap_app, fmap_cons in *. intros t. rewrite !elem_of_app, elem_of_cons.
  apply NoDup_app in Hd as (_ & Hn1 & Hd). apply NoDup_cons in Hd as [Hn2 _]. split.
  - intros [Hin|Hin]; (split; [tauto|]); intros ->; [|done]. apply (Hn1 _ Hin). left.
  - intros [[|[|]] ?]; auto; done.
Qed.

Lemma step_receipt w token :
  world_ok w -> world_ok (with_receipts w ((token, receipt (sched w) token, issued (lanes (sched w) (index token))) :: receipts w)).
Proof.
  intros [H1 H2 H3 H4 H5]. split; try done; cbn.
  2:{ intros t m Hm. destruct (H5 t m Hm) as [|[c Hc]]; [by left|]. right. exists c. by right. }
  intros t c m n Hin Hn. apply elem_of_cons in Hin as [[= -> -> ->]|Hin]; [|by eapply H4].
  unfold receipt in Hn. destruct (routes_bound _ _) as [[h fr]|] eqn:E; [|by rewrite empty_law in Hn].
  apply bound_spec in E as (st & x & Hst & Hx & Ht & -> & _). cbn in Hn.
  destruct (so_bound _ _ _ _ _ _ _ _ _ (sk_slots _ _ _ _ H1 _ _ Hst) x Hx) as [Hsl _].
  unfold lane in Hn. rewrite Hsl in Hn. by apply lane_cutoff_law in Hn.
Qed.

Lemma step_received w token cutoff at_ pfx :
  world_ok w -> (token, cutoff, at_) ∈ receipts w ->
  exists w' ns, world_step w (EvReceived token cutoff at_ pfx) = Some (w', ns) /\ world_ok w'.
Proof.
  intros [H1 H2 H3 H4 H5] Hin. eexists _, _. split; [done|].
  pose proof (received_ok token cutoff at_ pfx _ _ _ _ H1 (fun n => H4 _ _ _ n Hin)) as Hr.
  destruct (live_at (sched w) token); split; try done. cbn. intros t m. unfold upd. destruct (decide _) as [->|]; [|by apply H5].
  intros [->| ->]; [destruct pfx; [by apply H5; left|]|]; right; by exists cutoff.
Qed.

Lemma step_reply w token frame :
  world_ok w -> exists w' ns, world_step w (EvReply token frame) = Some (w', ns) /\ world_ok w'.
Proof.
  intros [H1 H2 H3 H4 H5]. cbn [world_step]. destruct (try_reply (sched w) token frame) as [[s' r] ns] eqn:E.
  pose proof (try_reply_ok _ _ _ _ _ _ _ _ _ H1 E) as Hr. eexists _, _. split; [done|].
  destruct r as [[v|]|e].
  - subst s'. by split.
  - destruct Hr as (Hr & _ & _). unfold governs_next in Hr. destruct (live_at (sched w) token); split; try done. cbn.
    intros t m. unfold upd. destruct (decide _) as [->|]; [|by apply H5]. intros [->| ->]; by apply H5; right.
  - subst s'. by split.
Qed.

Lemma step_lease w :
  world_ok w -> exists w' ns, world_step w EvLease = Some (w', ns) /\ world_ok w'.
Proof.
  intros [H1 H2 H3 H4 H5]. destruct (try_lease_ok _ _ _ _ H1) as (s' & o & Hs & Ho). cbn [world_step]. rewrite Hs. cbn.
  eexists _, _. split; [done|]. destruct o as [h|].
  - destruct Ho as (Hok & (Hh & Hid & (x & fr & Hst & Hx & _) & _) & _). split; try done; cbn.
    + apply NoDup_cons. split; [|done]. rewrite <- Hx.
      apply (so_shared _ _ _ _ _ _ _ _ _ (sk_slots _ _ _ _ H1 _ _ Hst)). left. by eexists.
    + intros h' [->|?]%elem_of_cons; [done|by apply H3].
  - destruct Ho as (Hok & _). by split.
Qed.

Lemma step_drop w k :
  world_ok w -> (k < length (leases w))%nat -> exists w' ns, world_step w (EvDrop k) = Some (w', ns) /\ world_ok w'.
Proof.
  intros [H1 H2 H3 H4 H5] [h Hk]%lookup_lt_is_Some. cbn [world_step]. rewrite Hk. cbn.
  pose proof (dropped_tokens _ _ _ H2 Hk) as Ht. apply list_elem_of_lookup_2 in Hk as Hin.
  pose proof (schedule_release_ok h _ (tokens (delete k (leases w))) _ _ _ H1 (H3 _ Hin) Ht) as Hr.
  destruct (schedule_release (sched w) h) as [s ns]. eexists _, _. split; [done|]. split; cbn; try done.
  - eapply sublist_NoDup; [exact H2|]. apply fmap_sublist, sublist_delete.
  - intros h' Hh'. apply H3. eapply elem_of_submseteq; [exact Hh'|]. apply sublist_submseteq, sublist_delete.
Qed.

(** Whatever is allowed happens, and keeps the invariant. *)
Lemma world_step_ok w ev :
  world_ok w -> allowed w ev -> exists w' ns, world_step w ev = Some (w', ns) /\ world_ok w'.
Proof.
  intros Hw Ha. pose proof Hw as [H1 H2 H3 H4 H5]. destruct ev; try (by eapply step_received || by apply step_reply ||
    by apply step_lease || by apply step_drop).
  - eexists _, _. split; [done|]. split; try done. by apply activate_ok.
  - cbn [world_step]. pose proof (mark_ready_ok token (acts w) _ _ _ _ H1) as Hr.
    destruct (mark_ready _ _ _) as [[[s a] r] ns]. eexists _, _. split; [done|]. by split.
  - eexists _, _. split; [done|]. by apply step_receipt.
  - cbn [world_step]. pose proof (fail_ok token (failure_copy share err) _ _ _ _ H1) as Hr. unfold port_fail.
    destruct (schedule_fail _ _ _) as [s [p|]]; eexists _, _; (split; [done|]); by split.
  - eexists _, _. split; [done|]. apply world_ok_sched; [done|]. by apply fail_ok.
  - cbn [world_step]. pose proof (reconnect_ok token err _ _ _ _ H1) as Hr. destruct (schedule_reconnect _ _ _) as [s ns].
    eexists _, _. split; [done|]. by apply world_ok_sched.
  - eexists _, _. split; [done|]. apply world_ok_sched; [done|]. by apply clear_recv_ok.
  - cbn [world_step]. pose proof (clear_send_ok work token _ _ _ _ H1) as Hr. destruct (clear_send _ _ _) as [[s b] ns].
    eexists _, _. split; [done|]. by apply world_ok_sched.
  - cbn [world_step]. destruct (drain_total token requests _ _ _ _ H1) as ([[s d] r] & E). rewrite E. cbn.
    eexists _, _. split; [done|]. apply world_ok_sched; [done|]. by eapply drain_ok.
  - destruct Ha as (Hc & Hd & Hq). eexists _, _. split; [done|]. apply world_ok_sched; [done|]. by apply retire_ok.
  - destruct (try_pool_ok exhausted frame _ _ _ _ H1) as (s' & r & ns & E & Hok & _). cbn [world_step]. rewrite E. cbn.
    eexists _, _. split; [done|]. by apply world_ok_sched.
  - cbn [world_step]. destruct (lookup_lt_is_Some_2 _ _ Ha) as [h Hk]. rewrite Hk. cbn -[try_dispatch_lease].
    apply list_elem_of_lookup_2 in Hk.
    destruct (dispatch_ok h frame _ _ _ _ H1 (H3 _ Hk)) as (s' & r & ns & E & Hok & _). rewrite E. cbn.
    eexists _, _. split; [done|]. by apply world_ok_sched.
  - destruct Ha as [Hf Hd]. eexists _, _. split; [done|]. apply world_ok_sched; [done|]. by apply ok_lane.
Qed.

Lemma world_new_ok w queues lanes slots : fresh w queues lanes -> world_ok (world_new w queues lanes slots).
Proof.
  intros [Hs Hl Hw Hq Hd]. split; cbn; [|apply NoDup_nil_2|by intros h ?%elem_of_nil|by intros t c m n ?%elem_of_nil|by intros t m [->| ->]; left].
  assert (forall k i, link_token (routes_new w) k i = None) as Hnone.
  { intros k i. unfold link_token. cbn. destruct (depot_linked w k i) as [p|] eqn:E; [|done]. apply linked_law in E.
    rewrite Hl in E. by apply elem_of_nil in E. }
  split; cbn; try done.
  - intros i st Hst. apply Hs in Hst as ->. unfold slot_view. cbn. rewrite !Hnone. destruct (Hq i) as [? ?]. split; try done.
    + by intros t [?|?].
    + by intros x [[? ?]|?].
    + by intros x fr [?|?].
  - unfold live_count. assert (forall is_, live_sum (live_slot (routes_new w)) is_ = 0) as H; [|by rewrite H].
    induction is_ as [|i is_ IH]; cbn; [done|]. fold (live_sum (live_slot (routes_new w)) is_). rewrite IH.
    unfold live_slot. destruct (get_state _ i) as [st|] eqn:E; [|done]. by apply Hs in E as ->.
  - unfold routes_len. cbn. lia.
Qed.

Lemma world_reaches_ok rule w1 w2 :
  (forall w ev, rule w ev -> allowed w ev) -> world_ok w1 -> reaches rule w1 w2 -> world_ok w2.
Proof.
  intros Hr H1. induction 1 as [|w1 w2 ev w3 ns _ IH Hev Hstep]; [done|].
  destruct (world_step_ok w2 ev (IH H1) (Hr _ _ Hev)) as (w' & ns' & E & Hok). rewrite Hstep in E. by injection E as -> ->.
Qed.

(** ** What leases and requests can rely on *)

(** C3. A lease owns its connection. However connections are activated, fail, are
    opened again and retired, requests published, replies read and leases taken and
    dropped: no two live leases are of the same connection; a connection that is
    leased and live is in its exclusive phase; the pool publishes no request to a
    leased connection; a new lease is of a connection nobody leases, with no request
    queued and no reply owed, and what it dispatches goes to that connection only. The
    count of active connections is exact, so it never wraps. *)
Theorem leases_exclusive w0 queues0 lanes0 slots w :
  fresh w0 queues0 lanes0 -> reaches allowed (world_new w0 queues0 lanes0 slots) w ->
  NoDup (tokens (leases w)) /\
  (forall h, h ∈ leases w -> live_at (sched w) (handle_connection h) = true ->
    exists x fr, get_state (routes (sched w)) (slot h) = Some (State.Exclusive x fr) /\
      connection (bound_position x) = handle_connection h) /\
  (forall exhausted frame s t ns, try_pool (sched w) exhausted frame = Some (s, Ok t, ns) -> t ∉ tokens (leases w)) /\
  (exists s o, try_lease (sched w) = Some (s, o) /\
    forall h, o = Some h -> handle_connection h ∉ tokens (leases w) /\ idle_at (sched w) (slot h) /\
      live_at (sched w) (handle_connection h) = true) /\
  (forall h frame, h ∈ leases w -> exists s r ns,
    try_dispatch_lease (sched w) frame (handle_connection h) = Some (s, r, ns) /\
    forall t, r = Ok t -> t = handle_connection h) /\
  active (routes (sched w)) = live_count (routes (sched w)).
Proof.
  intros Hf Hr. apply (world_reaches_ok allowed) in Hr as [H1 H2 H3 _ _]; [|done|by apply world_new_ok].
  split; [done|]. split; [|split; [|split; [|split; [|by apply (sk_active _ _ _ _ H1)]]]].
  - intros h Hh. unfold live_at. assert (index (handle_connection h) = slot h) as -> by (rewrite (H3 h Hh); done).
    destruct (get_state _ _) as [st|] eqn:Hst; [|done]. pose proof (sk_slots _ _ _ _ H1 _ _ Hst) as Hv.
    apply (list_elem_of_fmap_2 handle_connection) in Hh. destruct st as [|y|y fr|y fr|c|c]; try done;
      unfold is_token; intros Ht%bool_decide_eq_true; [|by exists y, fr].
    destruct (so_shared _ _ _ _ _ _ _ _ _ Hv y); [left; by eexists|]. by rewrite Ht.
  - intros exhausted frame s t ns E. destruct (try_pool_ok exhausted frame _ _ _ _ H1) as (s' & r & ns' & E' & _ & Hp).
    rewrite E in E'. injection E' as <- <- <-. destruct Hp as (k & s1 & i & x & fr & _ & _ & _ & Hst & -> & _).
    apply (so_shared _ _ _ _ _ _ _ _ _ (sk_slots _ _ _ _ H1 _ _ Hst)). left. by eexists.
  - destruct (try_lease_ok _ _ _ _ H1) as (s & o & Hs & Ho). exists s, o. split; [done|]. intros h ->.
    destruct Ho as (_ & (Hh & Hid & (x & fr & Hst & Hx & _) & _) & _). split.
    + rewrite <- Hx. apply (so_shared _ _ _ _ _ _ _ _ _ (sk_slots _ _ _ _ H1 _ _ Hst)). left. by eexists.
    + split; [done|]. unfold live_at. assert (index (handle_connection h) = slot h) as -> by (by rewrite Hh).
      rewrite Hst. unfold is_token. by apply bool_decide_eq_true.
  - intros h frame Hh. destruct (dispatch_ok h frame _ _ _ _ H1 (H3 h Hh)) as (s & r & ns & E & _ & _ & Hd).
    exists s, r, ns. split; [done|]. intros t ->. by destruct Hd.
Qed.

(** C5. No reply answers a request made after it arrived. On a live connection a frame
    completes an order only if that order had been issued when the receipt was taken
    that its bytes are accounted to: bytes a server sent unasked are never handed to a
    later request. *)
Theorem replies_solicited w0 queues0 lanes0 slots w token frame s ns :
  fresh w0 queues0 lanes0 -> reaches allowed (world_new w0 queues0 lanes0 slots) w ->
  live_at (sched w) token = true -> try_reply (sched w) token frame = (s, Ok None, ns) ->
  exists c m, (token, c, m) ∈ receipts w /\ (first (lanes (sched w) (index token)) < m)%nat /\
    m = (governs w token).1 /\ first (lanes s (index token)) = Datatypes.S (first (lanes (sched w) (index token))).
Proof.
  intros Hf Hr Hl E. apply (world_reaches_ok allowed) in Hr as [H1 _ _ _ H5]; [|done|by apply world_new_ok].
  destruct (try_reply_ok _ _ _ _ _ _ _ _ _ H1 E) as (_ & [Hd Hg] & st & x & l & last & Hst & Hx & Ht & Hfl & Hdl & Hs).
  specialize (Hg Hl). destruct (H5 token (governs w token).1) as [H0|[c Hc]]; [by left|lia|].
  exists c, (governs w token).1. split; [done|]. split; [done|]. split; [done|].
  rewrite (f_equal fst Hs : s = _). rewrite settled_lanes. destruct (so_bound _ _ _ _ _ _ _ _ _ (sk_slots _ _ _ _ H1 _ _ Hst) x Hx) as [Hsl _].
  cbn. rewrite Hsl, upd_eq. destruct (complete_law l) as [-> _]; congruence.
Qed.

Lemma after_mod n i : (i < n)%nat -> after n i = (Datatypes.S i mod n)%nat.
Proof.
  intros Hi. unfold after. destruct (Nat.eqb_spec (Datatypes.S i) n) as [->|]; [by rewrite Nat.Div0.mod_same|].
  rewrite Nat.mod_small; lia.
Qed.

Lemma after_iter n i k : (i < n)%nat -> Nat.iter k (after n) i = ((i + k) mod n)%nat.
Proof.
  intros Hi. induction k as [|k IH].
  - rewrite Nat.add_0_r, Nat.mod_small; done.
  - rewrite Nat.iter_succ, IH, after_mod by (apply Nat.mod_upper_bound; lia). rewrite Nat.add_succ_r.
    exact (Nat.Div0.add_mod_idemp_r 1 (i + k) n).
Qed.

(** A round of as many slots as there are visits them all. *)
Lemma turn_covers n i j : (i < n)%nat -> (j < n)%nat -> exists k, (k < n)%nat /\ ((i + k) mod n)%nat = j.
Proof.
  intros Hi Hj. destruct (decide (i <= j)%nat).
  - exists (j - i)%nat. split; [lia|]. replace (i + (j - i))%nat with j by lia. by apply Nat.mod_small.
  - exists (n - i + j)%nat. split; [lia|]. replace (i + (n - i + j))%nat with (j + 1 * n)%nat by lia.
    rewrite Nat.Div0.mod_add. by apply Nat.mod_small.
Qed.

(** C40. The pool serves its connections in turn. A request that may go anywhere is
    published to the first slot, from the turn on, that is shared, has room for the
    reply and room in its queue: every slot passed over had none; the request is last
    in the queue of that connection, which is woken, owes one more reply and is no
    longer free for a lease; no other slot changes, and the turn moves behind it. If
    it is blocked every slot was visited and turned it away, nothing changed but the
    turn, the request is given back, and it is told that the pool is inactive exactly
    when no connection is live. *)
Theorem pool_exact w0 queues0 lanes0 slots w frame :
  fresh w0 queues0 lanes0 -> reaches allowed (world_new w0 queues0 lanes0 slots) w ->
  let s := sched w in let n := routes_len (routes s) in
  exists s' r ns, try_pool s false frame = Some (s', r, ns) /\
    match r with
    | Ok t => exists k x fr, let i := ((next (routes s) + k) mod n)%nat in (k < n)%nat /\
        (forall j, (j < k)%nat -> turned_away s ((next (routes s) + j) mod n)%nat) /\
        get_state (routes s) i = Some (State.Shared x fr) /\ t = connection (bound_position x) /\
        fair_items (queues s' i) = fair_items (queues s i) ++ [{| value := frame; weight := 0 |}] /\
        reply_depth (lanes s' i) = Datatypes.S (reply_depth (lanes s i)) /\
        link_token (routes s') Link.Idle i = None /\
        (forall j, j <> i -> lanes s' j = lanes s j /\ queues s' j = queues s j) /\
        next (routes s') = (Datatypes.S i mod n)%nat /\ ns = [WakeTarget (ready x)]
    | Err (Reject.Blocked cause frame') => frame' = frame /\ (forall i, (i < n)%nat -> turned_away s i) /\
        same_but_turn s s' /\ (cause = ClientError.Inactive <-> live_count (routes s) = 0) /\ ns = []
    | Err (Reject.Failed _) => (forall j, lanes s' j = lanes s j /\ fair_items (queues s' j) = fair_items (queues s j)) /\ ns = []
    end.
Proof.
  intros Hf Hr s n. apply (world_reaches_ok allowed) in Hr as [H1 _ _ _ _]; [|done|by apply world_new_ok].
  destruct (try_pool_ok false frame _ _ _ _ H1) as (s' & r & ns & E & _ & Hp). fold s n in E, Hp.
  exists s', r, ns. split; [done|]. destruct r as [t|[cause frame'|e]].
  - destruct Hp as (k & s1 & i & x & fr & Hk & -> & Hj & Hst & -> & _ & Hs1 & _ & Hn & (P1 & P2 & _ & P4 & P5) & ->).
    fold s n in Hk, Hj, Hst, Hn, P1, P2, P4, P5.
    destruct (sk_next _ _ _ _ H1) as [?|Hlt]; [unfold n, s in *; lia|]. fold s n in Hlt. rewrite !after_iter in * by done.
    pose proof Hs1 as (_ & _ & _ & _ & A5 & A6). exists k, x, fr. split; [done|].
    split; [intros j Hjk; rewrite <- after_iter by done; by apply Hj|].
    rewrite <- A5, <- A6. split_and!; try done.
    + rewrite P5. by rewrite decide_True.
    + intros j Hne. rewrite <- A5, <- A6. by apply P4.
    + rewrite Hn. apply after_mod, Nat.mod_upper_bound. intros E0. by rewrite E0 in Hlt; apply Nat.nlt_0_r in Hlt.
  - destruct Hp as (-> & Hs & -> & Hj & Ha). split; [done|]. split; [|split; [done|split; [|done]]].
    + intros i Hi. destruct (sk_next _ _ _ _ H1) as [?|Hlt]; [unfold n, s in *; lia|]. fold s n in Hlt.
      destruct (turn_covers n (next (routes s)) i Hlt Hi) as (k & Hk & <-). rewrite <- after_iter by done. by apply Hj.
    + rewrite <- Ha. unfold is_active, s. rewrite (sk_active _ _ _ _ H1), negb_false_iff. apply Z.eqb_eq.
  - destruct Hp as (s1 & (_ & _ & _ & _ & A5 & A6) & _ & (R1 & R2 & _) & ->). split; [|done].
    intros j. by rewrite R2, A5, R1, A6.
Qed.

(** A run of the events of a list, by the rule. *)
Fixpoint run_events (w : World) (evs : list Event) : option World :=
  match evs with [] => Some w | ev :: evs => r ← world_step w ev; run_events r.1 evs end.

Fixpoint run_rule (rule : World -> Event -> Prop) (w : World) (evs : list Event) : Prop :=
  match evs with
  | [] => True
  | ev :: evs => rule w ev /\ match world_step w ev with Some (w, _) => run_rule rule w evs | None => False end
  end.

Lemma run_reaches rule w0 w evs w' :
  reaches rule w0 w -> run_rule rule w evs -> run_events w evs = Some w' -> reaches rule w0 w'.
Proof.
  revert w. induction evs as [|ev evs IH]; intros w Hr; cbn; [by intros _ [= <-]|].
  intros [Hrule Hrun] E. destruct (world_step w ev) as [[w1 ns]|] eqn:Hstep; [|done]. cbn in E.
  eapply IH; [|exact Hrun|exact E]. by eapply reaches_step.
Qed.

Lemma run_events_app w evs ev w1 w2 :
  run_events w evs = Some w1 -> run_events w (evs ++ [ev]) = Some w2 -> exists ns, world_step w1 ev = Some (w2, ns).
Proof.
  revert w. induction evs as [|ev' evs IH]; intros w; cbn.
  - intros [= ->] E. destruct (world_step w1 ev) as [[w' ns]|]; [|done]. injection E as <-. eauto.
  - destruct (world_step w ev') as [[w' ns]|]; [apply IH|done].
Qed.
End system.

(** ** Runs of two slots *)

Definition sample_hold (_ : ()) : Close.Reason () := Close.OnTransport.

Definition sample_new :=
  world_new (X := ()) (I := nat * nat) (P := nat * nat) (Cu := option nat) two_slots no_requests no_orders 2.

Notation sample_events := (list (Event (X := ()) (I := nat * nat) (T := nat) (Cu := option nat) (Fr := nat) (V := Z) (L := Run) (D := nat))).

Lemma sample_fresh : fresh two_slots no_requests no_orders.
Proof.
  split; try done.
  - intros [|[|i]] s; cbn; by intros [= <-] || done.
  - by intros [|].
Qed.

(** Two connections become ready, one is leased. *)
Definition sample_leased : sample_events :=
  [EvActivate (0, 0)%nat 10%nat; EvReady (0, 0)%nat; EvActivate (1, 0)%nat 11%nat; EvReady (1, 0)%nat; EvLease].

(** And a request of the pool is answered by the other. *)
Definition sample_replied : sample_events :=
  sample_leased ++ [EvPool false 7; EvDrain (1, 0)%nat 1%nat; EvReceipt (1, 0)%nat; EvReceived (1, 0)%nat (Some 0%nat) 1 false].

Ltac run_by_rule :=
  vm_compute;
  repeat match goal with
  | |- _ /\ _ => split
  | |- True => exact Logic.I
  | |- _ -> False => intros ?
  | H : list_elem_of _ _ |- False => inversion H; clear H; subst
  | H : _ ∈ _ |- False => inversion H; clear H; subst
  | |- list_elem_of _ _ => constructor
  | |- _ ∈ _ => constructor
  | |- _ \/ _ => first [left; reflexivity|right; lia]
  | |- (_ <= _)%nat => lia
  end.

(** Where a run of them ends. *)
Definition sample_end (evs : sample_events) : option _ := run_events (fun _ => Err ()) sample_hold sample_new evs.

Lemma sample_reaches (rule : _ -> Event -> Prop) evs w :
  run_rule (fun _ => Err ()) sample_hold rule sample_new evs -> sample_end evs = Some w ->
  reaches (fun _ => Err ()) sample_hold rule sample_new w.
Proof. intros Hr E. eapply run_reaches; [apply reaches_refl|exact Hr|exact E]. Qed.

Lemma sample_some evs : (if sample_end evs then true else false) = true -> is_Some (sample_end evs).
Proof. destruct (sample_end evs); [eauto|done]. Qed.

Lemma sample_step evs ev w w' :
  sample_end evs = Some w -> sample_end (evs ++ [ev]) = Some w' ->
  exists ns, world_step (fun _ => Err ()) sample_hold w ev = Some (w', ns).
Proof. apply run_events_app. Qed.

Lemma leases_exclusive_witness :
  exists w, sample_end sample_leased = Some w /\ tokens <$> (leases <$> sample_end sample_leased) = Some [(0, 0)%nat] /\
    forall exhausted frame s t ns, try_pool (sched w) exhausted frame = Some (s, Ok t, ns) -> t ∉ tokens (leases w).
Proof.
  assert (is_Some (sample_end sample_leased)) as [w E] by (apply sample_some; vm_compute; reflexivity).
  exists w. split; [exact E|]. split; [vm_compute; reflexivity|].
  eapply (leases_exclusive (fun _ => Err ()) sample_hold two_slots no_requests no_orders 2); [exact sample_fresh|].
  eapply sample_reaches; [|exact E]. run_by_rule.
Defined.

(** The frame that answers the request of the pool. *)
Lemma replies_solicited_witness :
  exists w s ns, sample_end sample_replied = Some w /\ try_reply (sched w) (1, 0)%nat 5%nat = (s, Ok None, ns) /\
    exists c m, ((1, 0)%nat, c, m) ∈ receipts w /\ (first (lanes (sched w) 1%nat) < m)%nat.
Proof.
  assert (is_Some (sample_end sample_replied)) as [w E] by (apply sample_some; vm_compute; reflexivity).
  assert ((fun w => (try_reply (sched w) (1, 0)%nat 5%nat).1.2) <$> sample_end sample_replied = Some (Ok None)) as Er
    by (vm_compute; reflexivity).
  assert ((fun w => live_at (sched w) (1, 0)%nat) <$> sample_end sample_replied = Some true) as El by (vm_compute; reflexivity).
  rewrite E in Er, El. injection Er as Er. injection El as El.
  destruct (try_reply (sched w) (1, 0)%nat 5%nat) as [[s r] ns] eqn:Es. cbn in Er. subst r.
  exists w, s, ns. split; [exact E|]. split; [exact Es|].
  destruct (replies_solicited (fun _ => Err ()) sample_hold two_slots no_requests no_orders 2 w (1, 0)%nat 5%nat s ns)
    as (c & m & Hc & Hm & _); [exact sample_fresh| |exact El|exact Es|exists c, m; split; [exact Hc|exact Hm]].
  eapply sample_reaches; [|exact E]. run_by_rule.
Defined.

Definition sample_pool (w : World (X := ()) (I := nat * nat) (P := nat * nat) (Cu := option nat) (B := Requests) (L := Run)) :=
  (fun r => (r.1.2, r.2)) <$> try_pool (sched w) false 7.

(** The first slot is leased: the request goes to the second. *)
Lemma pool_exact_witness :
  exists w s' ns, sample_end sample_leased = Some w /\
    try_pool (sched w) false 7 = Some (s', Ok (1, 0)%nat, ns) /\ ns = [WakeTarget 11%nat].
Proof.
  assert (is_Some (sample_end sample_leased)) as [w E] by (apply sample_some; vm_compute; reflexivity).
  exists w. assert (sample_pool <$> sample_end sample_leased = Some (Some (Ok (1, 0)%nat, [WakeTarget 11%nat]))) as Ep
    by (vm_compute; reflexivity).
  rewrite E in Ep. injection Ep as Ep.
  edestruct (pool_exact (fun _ => Err ()) sample_hold two_slots no_requests no_orders 2 w 7) as (s' & r & ns & Es & _).
  - exact sample_fresh.
  - eapply sample_reaches; [|exact E]. run_by_rule.
  - unfold sample_pool in Ep. rewrite Es in Ep. injection Ep as -> ->. exists s', [WakeTarget 11%nat].
    split; [exact E|]. split; [exact Es|reflexivity].
Defined.
