(* ===== verification/RespWaiters.v ===== *)
(** * Waiting for a lease

    When a lease is to be had ([Schedule::try_lease]), and that whoever waits for one
    is woken: over the system of [RespLeases], with a server that answers only requests
    that were sent. *)
From S2P Require Import Prelude CoreQueue RespFailure RespRoutes RespSchedule RespInstances RespLeases.

Section waiters.
Context {X I P T Cu Fr V W B L D : Type}.
Context `{EqDecision I, !Identity I P, !Cutoffs Cu, !Depot W P (State.State P T (Failure.Failure X) Cu)}.
Context `{!Replies X T Fr Cu L, !RepliesLaws X T Fr Cu L, !Fair X V B, !Egress V D X}.
Context (share : list Z -> result X (list Z)) (of_hold : X -> Close.Reason X).
Context `{!DepotLaws W P (State.State P T (Failure.Failure X) Cu), !IdentityLaws I P, !FairLaws X V B}.
Notation Schedule := (Schedule W B L).
Notation State := (State.State P T (Failure.Failure X) Cu).
Notation World := (World (X := X) (I := I) (P := P) (Cu := Cu) (W := W) (B := B) (L := L)).

Notation Event := (Event (X := X) (I := I) (T := T) (Cu := Cu) (Fr := Fr) (V := V) (L := L) (D := D)).

(** A connection that is shared and owes nothing. *)
Definition free_at (s : Schedule) (i : nat) : Prop :=
  (exists x fr, get_state (routes s) i = Some (State.Shared x fr)) /\ reply_depth (lanes s i) = 0%nat.

(** Requests do not outnumber the replies owed, and whoever is free stands on a link. *)
Definition slot_fair (s : Schedule) (i : nat) (st : State) : Prop :=
  (is_live st = true -> (length (fair_items (queues s i)) <= reply_depth (lanes s i))%nat) /\
  forall x fr, st = State.Shared x fr -> reply_depth (lanes s i) = 0%nat -> linked_any s i.

Definition sched_fair (s : Schedule) : Prop := forall i st, get_state (routes s) i = Some st -> slot_fair s i st.

(** A slot nothing happened to. *)
Definition same_at (s s' : Schedule) (j : nat) : Prop :=
  get_state (routes s') j = get_state (routes s) j /\ (forall k, link_token (routes s') k j = link_token (routes s) k j) /\
  reply_depth (lanes s' j) = reply_depth (lanes s j) /\ fair_items (queues s' j) = fair_items (queues s j).

(** A step after which nobody waits in vain. *)
Definition step_fair (s s' : Schedule) (ns : list (Notice T)) : Prop :=
  sched_fair s' /\ ((exists i, free_at s' i) -> (exists i, free_at s i) \/ WakeLease ∈ ns).

Lemma fair_idle s i st x fr :
  sched_fair s -> get_state (routes s) i = Some st -> st = State.Shared x fr -> reply_depth (lanes s i) = 0%nat ->
  idle_at s i /\ linked_any s i.
Proof.
  intros Hf Hst -> Hd. destruct (Hf i _ Hst) as [H1 H2]. split; [|by eapply H2]. split; [done|].
  specialize (H1 eq_refl). rewrite Hd in H1. by destruct (fair_items _); [|simpl in H1; lia].
Qed.

Lemma fair_at s s' j st : sched_fair s -> same_at s s' j -> get_state (routes s') j = Some st -> slot_fair s' j st.
Proof.
  intros Hf (A1 & A2 & A3 & A4) Hst. rewrite A1 in Hst. destruct (Hf j st Hst) as [H1 H2].
  unfold slot_fair, linked_any in *. by rewrite A3, A4, !A2.
Qed.

(** What happens at one slot is judged there. *)
Lemma touch_fair i s s' ns :
  sched_fair s -> (forall j, j <> i -> same_at s s' j) ->
  (forall st, get_state (routes s') i = Some st -> slot_fair s' i st) ->
  (free_at s' i -> free_at s i \/ WakeLease ∈ ns) -> step_fair s s' ns.
Proof.
  intros Hf Hj Hi Hw. split.
  - intros j st Hst. destruct (decide (j = i)) as [->|Hne]; [by apply Hi|]. eapply fair_at; [done|by apply Hj|done].
  - intros [j Hfree]. destruct (decide (j = i)) as [->|Hne]; [destruct (Hw Hfree); eauto|]. left. exists j.
    destruct (Hj j Hne) as (A1 & _ & A3 & _). unfold free_at in *. by rewrite <- A1, <- A3.
Qed.

Lemma same_fair s s' ns : sched_fair s -> (forall j, same_at s s' j) -> step_fair s s' ns.
Proof.
  intros Hf Hj. apply (touch_fair 0 s s' ns); [done|by intros j _|intros st Hst; by eapply fair_at|].
  left. destruct (Hj 0%nat) as (A1 & _ & A3 & _). unfold free_at in *. by rewrite <- A1, <- A3.
Qed.

(** A slot that is not live is fair, and not free. *)
Lemma dead_fair s i st : is_live st = false -> slot_fair s i st.
Proof. intros Hl. split; [congruence|]. intros x fr ->. done. Qed.

Lemma dead_free s i st : get_state (routes s) i = Some st -> is_live st = false -> ~ free_at s i.
Proof. intros Hst Hl [(x & fr & Hst') _]. rewrite Hst in Hst'. by injection Hst' as ->. Qed.

Ltac same_slot :=
  repeat split; cbn; intros;
  rewrite ?get_active, ?get_schedule, ?get_unlink, ?token_active, ?token_set, ?upd_ne by done;
  try (rewrite get_set, decide_False by done); try done.

(** ** Step by step *)

Lemma activate_fair token target ls us s g ns :
  sched_ok ls us s g -> sched_fair s -> step_fair s (activate s (index token) token target).1 ns.
Proof.
  intros Hok Hf. unfold activate. destruct (get_state _ _) as [st|] eqn:Hst; [|by apply same_fair].
  destruct (position_of token) as [p|] eqn:Hp; [|by apply same_fair]. apply position_law in Hp.
  destruct st; try (by apply same_fair). cbn. apply get_capacity in Hst as Hi.
  assert (slot_of p = index token) as Hsl by (unfold slot_of; by rewrite Hp). rewrite Hsl.
  apply (touch_fair (index token)); [done| | |].
  - intros j Hne. same_slot.
  - intros st Hst'. cbn in Hst'. rewrite get_set, decide_True in Hst' by done. injection Hst' as <-. by apply dead_fair.
  - intros Hfree. exfalso. revert Hfree. eapply dead_free; cbn; [by rewrite get_set, decide_True|done].
Qed.

Lemma ready_fair token a ls us s g :
  sched_ok ls us s g -> sched_fair s -> step_fair s (mark_ready s a token).1.1.1 (mark_ready s a token).2.
Proof.
  intros Hok Hf. unfold mark_ready, routes_mark_ready. destruct (get_state _ _) as [st|] eqn:Hst; [|by apply same_fair].
  destruct st as [|x| | | |]; try (by apply same_fair). cbn -[publish]. unfold is_token.
  case_bool_decide as Ht; [|by apply same_fair]. cbn -[publish]. apply get_capacity in Hst as Hi.
  destruct (sk_slots _ _ _ _ Hok _ _ Hst) as [H1 _ _ _ _ _ H7 _]. destruct (H1 x eq_refl) as [Hsl _].
  destruct H7 as [Hd Hq]; [right; by eexists|].
  rewrite (publish_idle {| slot := index token; at_position := bound_position x |}) by done. cbn [slot at_position].
  rewrite decide_True by done. cbn [fst].
  set (r := with_active _ _). assert (routes_len r = routes_len (routes s)) as Hlen by apply len_set.
  apply (touch_fair (index token)); [done| | |by right; right; left].
  - intros j Hne. split; [cbn; by rewrite get_schedule; unfold r; rewrite get_active, get_set, decide_False|].
    split; [|done]. intros k. cbn. rewrite token_schedule, decide_False by (by rewrite Hlen || tauto).
    unfold r. by rewrite token_active, token_set.
  - intros st _. split; cbn; [intros _; rewrite Hq; simpl; lia|]. intros y fr _ _. left. cbn.
    rewrite token_schedule, decide_True; [done|done|by rewrite Hlen].
Qed.

Lemma received_fair token cutoff pfx ls us s g ns :
  sched_ok ls us s g -> sched_fair s -> step_fair s (received s token cutoff pfx) ns.
Proof.
  intros Hok Hf. unfold received. destruct (get_state _ _) as [st|] eqn:Hst; [|by apply same_fair].
  apply get_capacity in Hst as Hi. destruct (with_frontier st token _) as [st' o] eqn:E.
  assert ((st' = st \/ exists x fr fr', st = State.Shared x fr /\ st' = State.Shared x fr') \/
    exists x fr fr', st = State.Exclusive x fr /\ st' = State.Exclusive x fr') as Hst'.
  { destruct st; cbn in E; try (injection E as <- _; by left; left); destruct (is_token _ _); injection E as <- _;
      eauto 10. }
  assert (is_live st' = is_live st) as Hl by (destruct Hst' as [[->|(? & ? & ? & -> & ->)]|(? & ? & ? & -> & ->)]; done).
  assert (forall x fr, st' = State.Shared x fr -> exists fr', st = State.Shared x fr') as Hsh.
  { intros x fr Hx. destruct Hst' as [[->|(y & f & f' & -> & ->)]|(y & f & f' & -> & ->)]; [by exists fr| |done].
    injection Hx as -> ->. by exists f. }
  apply (touch_fair (index token)); [done| | |].
  - intros j Hne. same_slot.
  - intros st0 Hst0. cbn in Hst0. rewrite get_set, decide_True in Hst0 by done. injection Hst0 as <-.
    destruct (Hf _ _ Hst) as [A1 A2]. unfold slot_fair, linked_any. cbn. rewrite !token_set, Hl. split; [done|].
    intros x fr Hx. destruct (Hsh x fr Hx) as [fr' Hs]. by eapply A2.
  - intros [(x & fr & Hx) Hd]. left. split; [|done]. cbn in Hx. rewrite get_set, decide_True in Hx by done.
    injection Hx as Hx. destruct (Hsh x fr Hx) as [fr' ->]. by exists x, fr'.
Qed.

Lemma withdraw_fair token st x st' n ls us s g ns :
  sched_ok ls us s g -> sched_fair s -> get_state (routes s) (index token) = Some st -> bound st = Some x ->
  connection (bound_position x) = token -> is_live st' = false ->
  step_fair s (withdraw (with_routes s (with_active (set_state (routes s) (index token) st') n))
    {| slot := index token; at_position := bound_position x |}) ns.
Proof.
  intros Hok Hf Hst Hx Ht Hl. apply get_capacity in Hst as Hi.
  destruct (so_bound _ _ _ _ _ _ _ _ _ (sk_slots _ _ _ _ Hok _ _ Hst) x Hx) as [Hsl _].
  apply (touch_fair (index token)); [done| | |].
  - intros j Hne. unfold withdraw. cbn [at_position slot]. rewrite Hsl. unfold same_at. cbn.
    rewrite !get_unlink, get_active, get_set, decide_False, upd_ne by done. split; [done|]. split; [|done].
    intros k. rewrite !token_unlink, !decide_False by tauto. by rewrite token_active, token_set.
  - intros st0 Hst0. cbn in Hst0. rewrite !get_unlink, get_active, get_set, decide_True in Hst0 by done. injection Hst0 as <-.
    by apply dead_fair.
  - intros Hfree. exfalso. revert Hfree. eapply dead_free; cbn; [by rewrite !get_unlink, get_active, get_set, decide_True|done].
Qed.

Lemma fail_fair token err ls us s g ns :
  sched_ok ls us s g -> sched_fair s -> step_fair s (schedule_fail s token err).1 ns.
Proof.
  intros Hok Hf. unfold schedule_fail, routes_fail. destruct (get_state _ _) as [st|] eqn:Hst; [|by apply same_fair].
  destruct (conn_fail st token err) as [st' [[p live]|]] eqn:E; [|by apply same_fair]. cbn.
  assert (exists x, bound st = Some x /\ connection (bound_position x) = token /\ p = bound_position x /\ is_live st' = false)
    as (x & Hx & Ht & -> & Hl).
  { destruct st; cbn in E; try done; unfold is_token in E; case_bool_decide; cbn in E; repeat split_match_in E; try done;
      injection E as <- <- <-; by eexists. }
  destruct live; by eapply withdraw_fair.
Qed.

Lemma reconnect_fair token err ls us s g ns :
  sched_ok ls us s g -> sched_fair s -> step_fair s (schedule_reconnect s token err).1 ns.
Proof.
  intros Hok Hf. unfold schedule_reconnect, routes_reconnect. destruct (get_state _ _) as [st|] eqn:Hst; [|by apply same_fair].
  destruct (conn_reconnect st token err) as [st' [p|]] eqn:E; [|by apply same_fair]. cbn.
  assert (exists x, bound st = Some x /\ connection (bound_position x) = token /\ p = bound_position x /\ is_live st' = false)
    as (x & Hx & Ht & -> & Hl).
  { destruct st; cbn in E; try done; unfold is_token in E; case_bool_decide; cbn in E; try done; injection E as <- <-; by eexists. }
  by eapply withdraw_fair.
Qed.

(** A queue may only lose requests. *)
Lemma shrink_fair i b s ns :
  sched_fair s -> (length (fair_items b) <= length (fair_items (queues s i)))%nat -> step_fair s (with_queue s i b) ns.
Proof.
  intros Hf Hle. apply (touch_fair i); [done| | |by left].
  - intros j Hne. unfold same_at. cbn. by rewrite upd_ne.
  - intros st Hst. cbn in Hst. destruct (Hf i st Hst) as [H1 H2]. split; cbn; [|done]. rewrite upd_eq. intros Hl.
    specialize (H1 Hl). lia.
Qed.

Lemma clear_recv_fair work token ls us s g ns :
  sched_ok ls us s g -> sched_fair s -> step_fair s (clear_recv share work s token).1 ns.
Proof.
  intros Hok Hf. unfold clear_recv. destruct (routes_failure share (routes s) token) as [[h cause]|] eqn:E; [|by apply same_fair].
  unfold routes_failure in E. apply bind_Some in E as (st & Hst & E). apply bind_Some in E as ([p f] & E & [= <- <-]). cbn.
  assert (exists x, bound st = Some x /\ p = bound_position x /\ is_live st = false) as (x & Hx & -> & Hl).
  { destruct st; cbn in E; try done; destruct (is_token _ _); try done; injection E as <- _; by eexists. }
  destruct (so_bound _ _ _ _ _ _ _ _ _ (sk_slots _ _ _ _ Hok _ _ Hst) x Hx) as [Hsl _].
  destruct (reply_fail _ _ _) as [l done] eqn:El. cbn. rewrite Hsl. apply (touch_fair (index token)); [done| | |].
  - intros j Hne. unfold same_at. cbn. by rewrite upd_ne.
  - intros st0 Hst0. cbn in Hst0. rewrite Hst in Hst0. injection Hst0 as <-. by apply dead_fair.
  - intros Hfree. exfalso. revert Hfree. by eapply dead_free.
Qed.

Lemma clear_send_fair work token ls us s g ns :
  sched_ok ls us s g -> sched_fair s -> step_fair s (clear_send work s token).1.1 ns.
Proof.
  intros Hok Hf. unfold clear_send. destruct (routes_bound (routes s) token) as [[h fr]|] eqn:E; [|by apply same_fair].
  apply bound_spec in E as (st & x & Hst & Hx & Ht & -> & ->). cbn.
  pose proof (sk_slots _ _ _ _ Hok _ _ Hst) as Hv. destruct (so_bound _ _ _ _ _ _ _ _ _ Hv x Hx) as [Hsl Hus].
  unfold requests. rewrite Hsl. pose proof (so_queue _ _ _ _ _ _ _ _ _ Hv) as Hq.
  destruct (clear_spec work _ Hq) as (b & out & d & -> & Hq' & Ho & _). cbn. apply shrink_fair; [done|].
  apply (f_equal length) in Ho. rewrite length_app, !length_fmap in Ho. lia.
Qed.

Lemma drain_fair token requests s' d r ls us s g ns :
  sched_ok ls us s g -> sched_fair s -> drain of_hold s token requests = Some (s', d, r) -> step_fair s s' ns.
Proof.
  intros Hok Hf. unfold drain. destruct (routes_bound (routes s) token) as [[h fr]|] eqn:E; [|by intros [= <- _ _]; apply same_fair].
  apply bound_spec in E as (st & x & Hst & Hx & Ht & -> & ->). cbn -[CoreQueue.drain]. rewrite Hst. cbn -[CoreQueue.drain].
  destruct (conn_retry_reason _ _ _); [by intros [= <- _ _]; apply same_fair|].
  pose proof (sk_slots _ _ _ _ Hok _ _ Hst) as Hv. destruct (so_bound _ _ _ _ _ _ _ _ _ Hv x Hx) as [Hsl Hus].
  unfold RespSchedule.requests. rewrite Hsl. pose proof (so_queue _ _ _ _ _ _ _ _ _ Hv) as Hq.
  destruct (drain_spec (Y := X) (S (length (fair_items (queues s (index token))))) _ requests Hq)
    as (b & d' & r' & moved & -> & Hq' & Hm & _); [lia|]. cbn. intros [= <- _ _]. apply shrink_fair; [done|].
  rewrite Hm, length_app. lia.
Qed.

Lemma retire_fair token st ls us s g ns :
  sched_ok ls us s g -> sched_fair s -> get_state (routes s) (index token) = Some st ->
  step_fair s (with_routes s (retire (routes s) token)) ns.
Proof.
  intros Hok Hf Hst. unfold retire. apply get_capacity in Hst as Hi. apply (touch_fair (index token)); [done| | |].
  - intros j Hne. same_slot.
  - intros st0 Hst0. cbn in Hst0. rewrite get_set, decide_True in Hst0 by done. injection Hst0 as <-. by apply dead_fair.
  - intros Hfree. exfalso. revert Hfree. eapply dead_free; cbn; [by rewrite get_set, decide_True|done].
Qed.

Lemma release_fair h ls us s g :
  sched_ok ls us s g -> sched_fair s -> step_fair s (schedule_release s h).1 (schedule_release s h).2.
Proof.
  intros Hok Hf. unfold schedule_release. destruct (get_state (routes s) (slot h)) as [st|] eqn:Hst; [|by apply same_fair].
  destruct (conn_release st (handle_connection h)) as [st' b] eqn:E. destruct b; [|by apply same_fair]. cbn.
  assert (exists x fr, st = State.Exclusive x fr /\ st' = State.Shared x fr) as (x & fr & -> & ->).
  { destruct st; cbn in E; try done. destruct (is_token _ _); [|done]. injection E as <-. by eexists _, _. }
  apply get_capacity in Hst as Hi. apply (touch_fair (slot h)); [done| | |by right; right; left].
  - intros j Hne. split; [cbn; by rewrite get_schedule, get_set, decide_False|]. split; [|done]. intros k. cbn.
    rewrite token_schedule, decide_False by (by rewrite len_set || tauto). apply token_set.
  - intros st Hst'. destruct (Hf _ _ Hst) as [H1 _]. split; cbn; [intros _; by apply H1|]. intros y fr' _ _. right. cbn.
    rewrite token_schedule, decide_True; [done|done|by rewrite len_set].
Qed.

Lemma lease_fair ls us s g s' o ns :
  sched_ok ls us s g -> sched_fair s -> try_lease s = Some (s', o) ->
  step_fair s s' ns /\ (o = None <-> ~ exists i, free_at s i).
Proof.
  intros Hok Hf E. destruct (try_lease_ok _ _ _ _ Hok) as (s2 & o2 & E2 & Ho). rewrite E in E2. injection E2 as <- <-.
  destruct o as [h|].
  - destruct Ho as (_ & (Hh & Hid & (x & fr & Hst & Hx & Hst') & Hg & Hd & Hq) & Hl). split; [split|].
    + intros j st Hj. destruct (decide (j = slot h)) as [->|Hne].
      * rewrite Hst' in Hj. injection Hj as <-. split; [|done]. intros _. destruct Hid as [Hi1 Hi2].
        rewrite Hq, Hi2. simpl. lia.
      * rewrite Hg in Hj by done. destruct (Hf j st Hj) as [H1 H2]. split; [by rewrite Hq, Hd|].
        intros y fr' -> Hdj. rewrite Hd in Hdj. destruct (fair_idle s j _ y fr' Hf Hj eq_refl Hdj). by apply Hl.
    + intros [j [(y & fr' & Hj) Hdj]]. left. exists j. destruct (decide (j = slot h)) as [->|Hne]; [congruence|].
      rewrite Hg in Hj by done. split; [by eexists _, _|]. by rewrite <- Hd.
    + split; [done|]. intros Hn. destruct Hn. exists (slot h). split; [by eexists _, _|]. by destruct Hid.
  - destruct Ho as (_ & (A1 & A2 & A3 & _) & Hn).
    assert (~ exists i, free_at s i) as Hno.
    { intros [i [(x & fr & Hst) Hd]]. destruct (fair_idle s i _ x fr Hf Hst eq_refl Hd). by eapply Hn. }
    split; [split|done].
    + intros j st Hj. rewrite A1 in Hj. destruct (Hf j st Hj) as [H1 H2]. split; [by rewrite A2, A3|].
      intros y fr -> Hd. rewrite A2 in Hd. destruct Hno. exists j. split; [by eexists _, _|done].
    + intros [i [(x & fr & Hst) Hd]]. left. exists i. rewrite A1 in Hst. rewrite A2 in Hd. split; [by eexists _, _|done].
Qed.

Lemma published_fair i u frame s s' ns :
  sched_fair s -> same_routes s s' -> published s s' i u frame -> step_fair s s' ns.
Proof.
  intros Hf (R1 & _) (P1 & P2 & _ & P4 & P5). apply (touch_fair i); [done| | |].
  - intros j Hne. unfold same_at. destruct (P4 j Hne) as [-> ->]. split; [by apply R1|]. split; [|done]. intros k. rewrite P5, decide_False; [done|tauto].
  - intros st Hst. rewrite R1 in Hst. destruct (Hf i st Hst) as [H1 _]. split; [|intros; lia]. intros Hl. specialize (H1 Hl).
    rewrite P1, P2, length_app. simpl. lia.
  - intros [_ Hd]. lia.
Qed.

Lemma refused_same s s' j : same_routes s s' -> refused s s' -> same_at s s' j.
Proof. intros (R1 & _) (Q1 & Q2 & Q3). split_and!; [done|done|by rewrite Q2|done]. Qed.

Lemma turn_same s s' j : same_but_turn s s' -> same_at s s' j.
Proof. intros (A1 & _ & _ & A4 & A5 & A6). by split_and!; rewrite ?A5, ?A6. Qed.

Lemma step_fair_trans s1 s2 s3 ns : (forall j, same_at s1 s2 j) -> step_fair s2 s3 ns -> step_fair s1 s3 ns.
Proof.
  intros Hs [H1 H2]. split; [done|]. intros Hfr. destruct (H2 Hfr) as [[i Hi]|]; [|by right]. left. exists i.
  destruct (Hs i) as (A1 & _ & A3 & _). unfold free_at in *. by rewrite <- A1, <- A3.
Qed.

Lemma pool_fair exhausted frame s' r ns ls us s g :
  sched_ok ls us s g -> sched_fair s -> try_pool s exhausted frame = Some (s', r, ns) -> step_fair s s' ns.
Proof.
  intros Hok Hf E. destruct (try_pool_ok exhausted frame _ _ _ _ Hok) as (s2 & r2 & ns2 & E2 & _ & Hp).
  rewrite E in E2. injection E2 as <- <- <-.
  assert (forall s1, same_but_turn s s1 -> sched_fair s1) as Hf1.
  { intros s1 Hs i st Hst. eapply fair_at; [exact Hf|by apply turn_same|done]. }
  destruct r as [t|[cause frame'|e]].
  - destruct Hp as (k & s1 & i & x & fr & _ & _ & _ & _ & _ & _ & Hs1 & Hr & _ & Hpub & _).
    apply (step_fair_trans s s1); [intros j; by apply turn_same|]. eapply published_fair; [by apply Hf1|done|done].
  - destruct Hp as (_ & Hs & _). apply same_fair; [done|]. intros j. by apply turn_same.
  - destruct Hp as (s1 & Hs1 & Hr & Href & _). apply (step_fair_trans s s1); [intros j; by apply turn_same|].
    apply same_fair; [by apply Hf1|]. intros j. by apply refused_same.
Qed.

(** A server that follows the protocol completes an order whose request was sent. *)
Lemma settled_fair token st x last l ls us s g :
  sched_ok ls us s g -> sched_fair s -> get_state (routes s) (index token) = Some st -> bound st = Some x ->
  connection (bound_position x) = token -> reply_depth l = reply_depth (lanes s (index token)) ->
  (length (fair_items (queues s (index token))) < reply_depth l)%nat ->
  let r := reply_settled s token {| slot := index token; at_position := bound_position x |} last l in
  step_fair s r.1 r.2.
Proof.
  intros Hok Hf Hst Hx Ht Hd Hans r. apply get_capacity in Hst as Hi.
  destruct (so_bound _ _ _ _ _ _ _ _ _ (sk_slots _ _ _ _ Hok _ _ Hst) x Hx) as [Hsl _].
  assert (reply_depth l <> 0%nat) as Hd0 by lia. destruct (complete_law l Hd0) as [_ Hc].
  subst r. unfold reply_settled. cbn [slot at_position]. rewrite Hsl. cbn [routes with_lane]. rewrite Hst.
  destruct (with_frontier st token _) as [st' o] eqn:E.
  set (s2 := with_routes (with_lane s (index token) (reply_complete l)) _).
  assert (forall j, j <> index token -> same_at s s2 j) as Hj.
  { intros j Hne. unfold same_at. cbn. rewrite get_set, decide_False, upd_ne by done. split; [done|]. split; [|done].
    intros k. apply token_set. }
  assert (get_state (routes s2) (index token) = Some st') as Hst2 by (cbn; by rewrite get_set, decide_True).
  assert (forall ns, (forall y fr, st' <> State.Shared y fr) -> is_live st' = is_live st -> step_fair s s2 ns) as Hother.
  { intros ns Hns Hl. apply (touch_fair (index token)); [done|done| |].
    - intros st0 Hst0. rewrite Hst2 in Hst0. injection Hst0 as <-. split; cbn; [rewrite upd_eq; lia|].
      intros y fr ->. by destruct (Hns y fr).
    - intros [(y & fr & Hy) _]. rewrite Hst2 in Hy. injection Hy as ->. by destruct (Hns y fr). }
  destruct st as [|y|y fr|y fr|c|c]; try done; cbn in E, Hx; try injection Hx as <-;
    try (injection E as <- <-; cbn; by apply Hother).
  all: unfold is_token in E; rewrite bool_decide_true in E by done; injection E as <- <-; cbn [from_option id].
  2:{ by apply Hother. }
  pose proof (publish_idle {| slot := index token; at_position := bound_position y |} (routes s2) s2) as Hp.
  cbn [slot at_position] in Hp. specialize (Hp (eq_sym Hsl)). unfold lane in Hp. rewrite Hsl in Hp.
  assert (lanes s2 (index token) = reply_complete l) as Hl2 by (cbn; by rewrite upd_eq).
  destruct (decide (idle_at s2 (index token))) as [Hid|Hid]; rewrite Hl2 in Hp; rewrite Hp; cbn [fst snd].
  - apply (touch_fair (index token)); [done| | |by right; right; left].
    + intros j Hne. destruct (Hj j Hne) as (A1 & A2 & A3 & A4). split; [cbn; rewrite get_schedule; apply A1|].
      split; [|done]. intros k. etrans; [|apply A2]. cbn. rewrite token_schedule, decide_False; [done|tauto|by rewrite len_set].
    + intros st0 Hst0. split; cbn.
      * intros _. rewrite upd_eq. lia.
      * intros z fr' _ _. left. cbn. rewrite token_schedule, decide_True; [done|done|by rewrite len_set].
  - apply (touch_fair (index token)); [done|done| |].
    + intros st0 Hst0. split; cbn; [rewrite upd_eq; lia|]. intros z fr' _ Hd'. destruct Hid. split; [done|].
      cbn. cbn in Hd'. rewrite upd_eq in Hd'. destruct (fair_items (queues s (index token))); [done|]. simpl in Hans. lia.
    + intros [_ Hd']. destruct Hid. split; [done|]. cbn. cbn in Hd'. rewrite upd_eq in Hd'.
      destruct (fair_items (queues s (index token))); [done|]. simpl in Hans. lia.
Qed.

Lemma reply_fair token frame s' r ns ls us s g :
  sched_ok ls us s g -> sched_fair s -> try_reply s token frame = (s', r, ns) ->
  reply_depth (lanes s (index token)) = 0%nat \/
    (length (fair_items (queues s (index token))) < reply_depth (lanes s (index token)))%nat ->
  step_fair s s' ns.
Proof.
  intros Hok Hf E Hans. pose proof (try_reply_ok _ _ _ _ _ _ _ _ _ Hok E) as Hr. destruct r as [[v|]|e].
  - subst s'. by apply same_fair.
  - destruct Hr as (_ & [Hd0 _] & st & x & l & last & Hst & Hx & Ht & _ & Hd & Hs).
    pose proof (settled_fair token st x last l _ _ _ _ Hok Hf Hst Hx Ht Hd) as Hset. rewrite <- Hs in Hset. apply Hset.
    rewrite Hd. destruct Hans; [done|lia].
  - subst s'. by apply same_fair.
Qed.

(** What the reactor keeps to, and a server that answers only requests already sent. *)
Definition served (w : World) (ev : Event) : Prop := allowed w ev /\ answered w ev.

Lemma world_fair w ev w' ns :
  world_ok w -> served w ev -> sched_fair (sched w) -> world_step share of_hold w ev = Some (w', ns) ->
  step_fair (sched w) (sched w') ns.
Proof.
  intros [H1 H2 H3 H4 H5] [Ha Hans] Hf E. destruct ev; cbn [world_step] in E.
  - injection E as <- <-. by eapply activate_fair.
  - pose proof (ready_fair token (acts w) _ _ _ _ H1 Hf) as Hr. destruct (mark_ready _ _ _) as [[[s a] r] n].
    injection E as <- <-. exact Hr.
  - injection E as <- <-. by apply same_fair.
  - injection E as <- <-. pose proof (received_fair token cutoff has_prefix _ _ _ _ [] H1 Hf) as Hr.
    by destruct (live_at (sched w) token).
  - destruct (try_reply (sched w) token frame) as [[s' r] n] eqn:Er. injection E as <- <-.
    pose proof (reply_fair _ _ _ _ _ _ _ _ _ H1 Hf Er Hans) as Hr. by destruct r as [[|]|]; [|destruct (live_at (sched w) token)|].
  - unfold port_fail in E. pose proof (fun n => fail_fair token (failure_copy share err) _ _ _ _ n H1 Hf) as Hr.
    destruct (schedule_fail _ _ _) as [s [p|]]; injection E as <- <-; by apply Hr.
  - injection E as <- <-. by eapply fail_fair.
  - pose proof (fun n => reconnect_fair token err _ _ _ _ n H1 Hf) as Hr. destruct (schedule_reconnect _ _ _) as [s n].
    injection E as <- <-. by apply Hr.
  - injection E as <- <-. by eapply clear_recv_fair.
  - pose proof (fun n => clear_send_fair work token _ _ _ _ n H1 Hf) as Hr. destruct (clear_send _ _ _) as [[s b] n].
    injection E as <- <-. by apply Hr.
  - apply bind_Some in E as ([[s d] r] & E & [= <- <-]). by eapply drain_fair.
  - injection E as <- <-. destruct Ha as ((c & [Hc|Hc]) & _); by eapply retire_fair.
  - apply bind_Some in E as ([s o] & E & [= <- <-]). cbn. by eapply lease_fair.
  - apply bind_Some in E as (h & _ & E). pose proof (release_fair h _ _ _ _ H1 Hf) as Hr.
    destruct (schedule_release _ _) as [s n]. injection E as <- <-. exact Hr.
  - apply bind_Some in E as ([[s r] n] & E & [= <- <-]). by eapply pool_fair.
  - apply bind_Some in E as (h & Hh & E). apply list_elem_of_lookup_2 in Hh.
    destruct (dispatch_ok h frame _ _ _ _ H1 (H3 h Hh)) as (s2 & r2 & n2 & E2 & _ & Hsame & Hr). rewrite E2 in E.
    injection E as <- <-. cbn. destruct r2 as [t|e].
    + destruct Hr as (_ & Hp & _). by eapply published_fair.
    + destruct Hr as [Href _]. apply same_fair; [done|]. intros j. by apply refused_same.
  - injection E as <- <-. destruct Ha as [_ Hd]. apply same_fair; [done|]. intros j. unfold same_at. cbn. unfold upd.
    by destruct (decide _) as [->|].
Qed.

Lemma reaches_fair w0 queues0 lanes0 slots w :
  fresh w0 queues0 lanes0 -> reaches share of_hold served (world_new w0 queues0 lanes0 slots) w ->
  world_ok w /\ sched_fair (sched w).
Proof.
  intros Hf Hr. remember (world_new w0 queues0 lanes0 slots) as wn eqn:En.
  induction Hr as [|w1 w2 ev w3 ns Hr IH Hev Hstep].
  - subst. split; [by apply world_new_ok|]. intros i st Hst. apply (fresh_slots _ _ _ Hf) in Hst as ->. by apply dead_fair.
  - destruct (IH En) as [Hok Hfair]. split; [|by apply (world_fair _ _ _ _ Hok Hev Hfair Hstep)].
    destruct (world_step_ok share of_hold _ _ Hok (proj1 Hev)) as (w' & ns' & E & Hok'). rewrite Hstep in E. by injection E as -> ->.
Qed.

(** C39. A lease is to be had exactly when a connection is free for it. In a run whose
    server answers only requests already sent (a frame completes an order only when the
    connection owes more replies than it has requests still queued: [served]), whatever
    else the reactor did and in whatever order, and however many leases were dropped with
    replies still owed, asking for a lease ends, after one round over the returned
    connections; it is granted if and only if some shared connection owes no reply, and
    then such a connection, with no request queued, becomes exclusive. *)
Theorem lease_exact w0 queues0 lanes0 slots w :
  fresh w0 queues0 lanes0 -> reaches share of_hold served (world_new w0 queues0 lanes0 slots) w ->
  exists s o, try_lease (sched w) = Some (s, o) /\ (is_Some o <-> exists i, free_at (sched w) i) /\
    forall h, o = Some h -> free_at (sched w) (slot h) /\ fair_items (queues (sched w) (slot h)) = [] /\
      exists x fr, get_state (routes s) (slot h) = Some (State.Exclusive x fr) /\
        connection (bound_position x) = handle_connection h.
Proof.
  intros Hf Hr. destruct (reaches_fair _ _ _ _ _ Hf Hr) as [[H1 _ _ _ _] Hfair].
  destruct (try_lease_ok _ _ _ _ H1) as (s & o & E & Ho). exists s, o. split; [done|].
  destruct (lease_fair _ _ _ _ _ _ [] H1 Hfair E) as [_ Hn]. split.
  - destruct o as [h|]; split; try done.
    + intros _. destruct Ho as (_ & (_ & [Hd _] & (x & fr & Hst & _) & _) & _). exists (slot h). split; [by eexists _, _|done].
    + intros Hex. by destruct (proj1 Hn eq_refl).
  - intros h ->. destruct Ho as (_ & (_ & [Hd Hq] & (x & fr & Hst & Hx & Hst') & _) & _).
    split; [split; [by eexists _, _|done]|]. split; [done|]. by exists x, fr.
Qed.

(** C4. Nobody waits for a lease in vain, while the server answers only requests already
    sent. In a run under that condition ([served], of the steps so far and of the next: a
    frame completes an order only when the connection owes more replies than it has
    requests still queued), if a lease was not to be had before a step and is after it,
    those who wait for leases are notified by that very step: a connection that becomes
    ready, a reply that is the last one owed, a lease that is dropped. *)
Theorem lease_wakeups w0 queues0 lanes0 slots w ev w' ns s1 s2 h :
  fresh w0 queues0 lanes0 -> reaches share of_hold served (world_new w0 queues0 lanes0 slots) w -> served w ev ->
  world_step share of_hold w ev = Some (w', ns) ->
  try_lease (sched w) = Some (s1, None) -> try_lease (sched w') = Some (s2, Some h) -> WakeLease ∈ ns.
Proof.
  intros Hf Hr Hev Hstep E1 E2. destruct (reaches_fair _ _ _ _ _ Hf Hr) as [Hok Hfair].
  destruct (reaches_fair w0 queues0 lanes0 slots w' Hf) as [[H1' _ _ _ _] Hfair']; [by eapply reaches_step|].
  pose proof Hok as [H1 _ _ _ _]. destruct (world_fair _ _ _ _ Hok Hev Hfair Hstep) as [_ Hw].
  destruct (lease_fair _ _ _ _ _ _ [] H1 Hfair E1) as [_ [Hn _]].
  destruct Hw as [Hfree|]; [|by destruct (Hn eq_refl)|done].
  destruct (try_lease_ok _ _ _ _ H1') as (s & o & E & Ho). rewrite E2 in E. injection E as <- <-.
  destruct Ho as (_ & (_ & [Hd _] & (x & fr & Hst & _) & _) & _). exists (slot h). split; [by eexists _, _|done].
Qed.
End waiters.

Definition sample_lease (w : World (X := ()) (I := nat * nat) (P := nat * nat) (Cu := option nat) (B := Requests) (L := Run)) :=
  snd <$> try_lease (sched w).

Lemma sample_lease_some w o : sample_lease w = Some o -> exists s, try_lease (sched w) = Some (s, o).
Proof. unfold sample_lease. destruct (try_lease _) as [[s o']|]; [|done]. intros [= <-]. eauto. Qed.

(** The second connection is still free. *)
Lemma lease_exact_witness :
  exists w s, sample_end sample_leased = Some w /\
    try_lease (sched w) = Some (s, Some {| slot := 1%nat; at_position := (1, 0)%nat |}) /\ free_at (sched w) 1%nat.
Proof.
  assert (is_Some (sample_end sample_leased)) as [w E] by (apply sample_some; vm_compute; reflexivity).
  assert (sample_lease <$> sample_end sample_leased = Some (Some (Some {| slot := 1%nat; at_position := (1, 0)%nat |}))) as El
    by (vm_compute; reflexivity).
  rewrite E in El. injection El as El. apply sample_lease_some in El as [s El]. exists w, s.
  split; [exact E|]. split; [exact El|].
  destruct (lease_exact (fun _ => Err ()) sample_hold two_slots no_requests no_orders 2 w) as (s' & o & E' & _ & Ho);
    [exact sample_fresh| |].
  - eapply sample_reaches; [|exact E]. run_by_rule.
  - rewrite El in E'. injection E' as <- <-. exact (proj1 (Ho _ eq_refl)).
Defined.

(** Both are leased; one lease is dropped. *)
Definition sample_none : sample_events := sample_leased ++ [EvLease].

Lemma lease_wakeups_witness :
  exists w w' ns, sample_end sample_none = Some w /\
    world_step (fun _ => Err ()) sample_hold w (EvDrop 0 : Event (X := ()) (Fr := nat) (V := Z) (D := nat)) = Some (w', ns) /\
    sample_lease w = Some None /\ WakeLease ∈ ns.
Proof.
  assert (is_Some (sample_end sample_none)) as [w E] by (apply sample_some; vm_compute; reflexivity).
  assert (is_Some (sample_end (sample_none ++ [EvDrop 0]))) as [w' E'] by (apply sample_some; vm_compute; reflexivity).
  assert (sample_lease <$> sample_end sample_none = Some (Some None)) as E1 by (vm_compute; reflexivity).
  assert (sample_lease <$> sample_end (sample_none ++ [EvDrop 0]) =
    Some (Some (Some {| slot := 1%nat; at_position := (1, 0)%nat |}))) as E2 by (vm_compute; reflexivity).
  rewrite E in E1. rewrite E' in E2. injection E1 as E1. injection E2 as E2.
  destruct (sample_step _ _ _ _ E E') as [ns Hstep].
  exists w, w', ns. split; [exact E|]. split; [exact Hstep|]. split; [exact E1|].
  apply sample_lease_some in E1 as [s1 E1]. apply sample_lease_some in E2 as [s2 E2].
  apply (lease_wakeups (fun _ => Err ()) sample_hold two_slots no_requests no_orders 2 w (EvDrop 0) w' ns s1 s2
    {| slot := 1%nat; at_position := (1, 0)%nat |}); [exact sample_fresh| | |exact Hstep|exact E1|exact E2].
  - eapply sample_reaches; [|exact E]. run_by_rule.
  - assert (length <$> (leases <$> sample_end sample_none) = Some 2%nat) as Hn by (vm_compute; reflexivity).
    rewrite E in Hn. injection Hn as Hn. split; [cbn; rewrite Hn; lia|exact Logic.I].
Defined.
