(* ===== verification/SqTiling.v ===== *)
(** * Buddies and tilings

    The ghost state of the heap: every unit of the arena lies in exactly one aligned
    block of a power of two units, free, live or held by the operation that is
    running. Shows what a block's buddy is, that blocks merge and halve into blocks,
    and that coalesced free blocks leave no aligned extent of units without a live
    one wider than they are. *)
From stdpp Require Import gmap.
From S2P Require Import Prelude.

(** ** Aligned extents *)

Definition extent (i k x : Z) : Prop := i <= x < i + 2 ^ k.

Definition buddy (i k : Z) : Z := Z.lxor i (2 ^ k).

(** The start of the extent of [2 ^ k] units that holds a unit. *)
Definition start_of (i k : Z) : Z := i / 2 ^ k * 2 ^ k.

Section numbers.
Lemma pow_pos k : 0 <= k -> 0 < 2 ^ k.
Proof. intros. apply Z.pow_pos_nonneg; lia. Qed.

Lemma lxor_one q : 0 <= q -> (q mod 2 = 0 /\ Z.lxor q 1 = q + 1) \/ (q mod 2 = 1 /\ Z.lxor q 1 = q - 1).
Proof.
  intros. destruct q as [|[p|p|]|]; [by left|right|left|by right|lia].
  - split; [|reflexivity]. rewrite Pos2Z.inj_xI, Z.mul_comm, Z.add_comm, Z.mod_add by lia. done.
  - split; [|reflexivity]. rewrite Pos2Z.inj_xO, Z.mul_comm. apply Z.mod_mul. lia.
Qed.

Lemma buddy_mul q k : 0 <= k -> buddy (q * 2 ^ k) k = Z.lxor q 1 * 2 ^ k.
Proof.
  intros. unfold buddy. rewrite <- !Z.shiftl_mul_pow2 by done. rewrite Z.shiftl_lxor. f_equal.
  rewrite Z.shiftl_mul_pow2 by done. lia.
Qed.

Lemma buddy_cases i k :
  0 <= k -> 0 <= i -> (2 ^ k | i) ->
  (buddy i k = i + 2 ^ k /\ (2 ^ (k + 1) | i)) \/
  (buddy i k = i - 2 ^ k /\ 0 <= i - 2 ^ k /\ (2 ^ (k + 1) | i - 2 ^ k)).
Proof.
  intros Hk Hi [q ->]. pose proof (pow_pos k Hk) as Hp. assert (0 <= q) by nia.
  rewrite buddy_mul, Z.pow_add_r by lia. change (2 ^ 1) with 2. pose proof (Z.div_mod q 2 ltac:(lia)) as Hq.
  destruct (lxor_one q) as [[Hm Hx]|[Hm Hx]]; [done| |]; rewrite Hx; rewrite Hm in Hq; clear Hm Hx; generalize dependent (q / 2); intros r ->.
  - left. split; [lia|]. exists r. lia.
  - right. split; [lia|]. assert (0 <= r) by lia. split; [nia|]. exists r. lia.
Qed.

Lemma buddy_buddy i k : buddy (buddy i k) k = i.
Proof. unfold buddy. by rewrite Z.lxor_assoc, Z.lxor_nilpotent, Z.lxor_0_r. Qed.

Lemma buddy_aligned i k : 0 <= k -> (2 ^ k | i) -> (2 ^ k | buddy i k).
Proof. intros Hk [q ->]. rewrite buddy_mul by done. by exists (Z.lxor q 1). Qed.

Lemma buddy_nonneg i k : 0 <= k -> 0 <= i -> 0 <= buddy i k.
Proof. intros. unfold buddy. apply Z.lxor_nonneg. pose proof (pow_pos k). lia. Qed.

Lemma buddy_ne i k : 0 <= k -> 0 <= i -> (2 ^ k | i) -> buddy i k <> i.
Proof. intros Hk Hi Ha. pose proof (pow_pos k Hk). destruct (buddy_cases i k Hk Hi Ha) as [[-> _]|[-> _]]; lia. Qed.

Lemma nested i k j l x :
  0 <= k <= l -> (2 ^ k | i) -> (2 ^ l | j) -> extent i k x -> extent j l x -> j <= i /\ i + 2 ^ k <= j + 2 ^ l.
Proof.
  unfold extent. intros Hk [p ->] [q ->] [??] [??].
  replace l with (k + (l - k)) in * by lia. rewrite Z.pow_add_r in * by lia.
  pose proof (pow_pos k). pose proof (pow_pos (l - k)). set (w := 2 ^ (l - k)) in *. set (u := 2 ^ k) in *.
  assert (q * w < p + 1) by nia. assert (p < q * w + w) by nia. nia.
Qed.

(** A block and its buddy make up the extent of twice their units. *)
Lemma merged i k :
  0 <= k -> 0 <= i -> (2 ^ k | i) ->
  (2 ^ (k + 1) | Z.min i (buddy i k)) /\ 0 <= Z.min i (buddy i k) /\
  (forall x, extent (Z.min i (buddy i k)) (k + 1) x <-> extent i k x \/ extent (buddy i k) k x).
Proof.
  intros Hk Hi Ha. pose proof (pow_pos k Hk). unfold extent.
  assert (2 ^ (k + 1) = 2 * 2 ^ k) as E by (rewrite Z.pow_add_r by lia; lia). rewrite !E in *.
  destruct (buddy_cases i k Hk Hi Ha) as [[-> Hd]|[-> [? Hd]]]; rewrite E in Hd.
  - rewrite Z.min_l by lia. split; [done|]. split; [lia|intros; lia].
  - rewrite Z.min_r by lia. split; [done|]. split; [lia|intros; lia].
Qed.

Lemma start_land i k : 0 <= k -> Z.land i (Z.lnot (2 ^ k - 1)) = start_of i k.
Proof.
  intros. replace (2 ^ k - 1) with (Z.ones k) by (rewrite Z.ones_equiv; lia).
  rewrite <- Z.ldiff_land, Z.ldiff_ones_r, Z.shiftl_mul_pow2, Z.shiftr_div_pow2 by done. done.
Qed.

Lemma start_aligned i k : (2 ^ k | start_of i k).
Proof. by exists (i / 2 ^ k). Qed.

Lemma start_nonneg i k : 0 <= k -> 0 <= i -> 0 <= start_of i k.
Proof.
  intros Hk Hi. unfold start_of. pose proof (pow_pos k Hk). pose proof (Z.div_pos i (2 ^ k)). nia.
Qed.

Lemma start_extent i k : 0 <= k -> extent (start_of i k) k i.
Proof.
  intros Hk. unfold start_of, extent. pose proof (pow_pos k Hk).
  pose proof (Z.div_mod i (2 ^ k)). pose proof (Z.mod_pos_bound i (2 ^ k)). lia.
Qed.

Lemma start_same i k : 0 <= k -> (2 ^ k | i) -> start_of i k = i.
Proof. intros Hk [q ->]. unfold start_of. pose proof (pow_pos k Hk). rewrite Z.div_mul by lia. done. Qed.

(** The extent one level up starts where the lower of the halves does. *)
Lemma start_up i k : 0 <= k -> 0 <= i -> start_of i (k + 1) = Z.min (start_of i k) (buddy (start_of i k) k).
Proof.
  intros Hk Hi. pose proof (start_nonneg i k Hk Hi) as Hn. pose proof (start_aligned i k) as Ha.
  destruct (merged (start_of i k) k Hk Hn Ha) as (Hd & Hm & He).
  pose proof (start_extent i k Hk) as Hx. pose proof (start_extent i (k + 1)) as Hy.
  assert (extent (Z.min (start_of i k) (buddy (start_of i k) k)) (k + 1) i) as Hz by (apply He; auto).
  pose proof (start_aligned i (k + 1)) as Ha'.
  pose proof (nested _ (k + 1) _ (k + 1) i ltac:(lia) Ha' Hd ltac:(apply Hy; lia) Hz).
  pose proof (nested _ (k + 1) _ (k + 1) i ltac:(lia) Hd Ha' Hz ltac:(apply Hy; lia)). lia.
Qed.

(** A block is apart from the sibling of an extent that holds it. *)
Lemma sibling_apart i k q x :
  0 <= k <= q -> 0 <= i -> (2 ^ k | i) -> extent i k x -> ~ extent (buddy (start_of i q) q) q x.
Proof.
  intros Hk Hi Ha Hx. pose proof (start_aligned i q) as Has. pose proof (start_nonneg i q ltac:(lia) Hi) as Hs0.
  pose proof (pow_pos k (proj1 Hk)). assert (extent i k i) as Hii by (unfold extent; lia).
  destruct (nested i k (start_of i q) q i) as [? ?]; [done..|apply start_extent; lia|].
  pose proof (pow_pos q). unfold extent in *.
  destruct (buddy_cases (start_of i q) q ltac:(lia) Hs0 Has) as [[-> _]|[-> _]]; lia.
Qed.

Lemma buddy_land i k : 0 <= k -> Z.land (Z.lxor i (2 ^ k)) (Z.lnot (2 ^ k - 1)) = buddy (start_of i k) k.
Proof.
  intros. rewrite start_land by done. unfold start_of. rewrite buddy_mul by done. f_equal.
  rewrite <- Z.shiftr_div_pow2 by done. rewrite Z.shiftr_lxor. rewrite !Z.shiftr_div_pow2 by done.
  rewrite Z.div_same by (pose proof (pow_pos k); lia). done.
Qed.
End numbers.

(** ** Tilings *)

(** What a block of the arena is: on a list of free ones, behind a live pointer, or
    in the hands of the running operation. *)
Inductive Kind := Idle | Live | Held.

#[export] Instance Kind_eq_dec : EqDecision Kind.
Proof. solve_decision. Defined.

Abbreviation Tiling := (gmap Z (Z * Kind)).

Record tiled (units : Z) (G : Tiling) : Prop := {
  tile_ok : forall i k c, G !! i = Some (k, c) -> 0 <= k <= 25 /\ (2 ^ k | i) /\ 0 <= i /\ i + 2 ^ k <= units;
  tile_one : forall i k c j l d x,
    G !! i = Some (k, c) -> G !! j = Some (l, d) -> extent i k x -> extent j l x -> i = j;
  tile_all : forall x, 0 <= x < units -> exists i k c, G !! i = Some (k, c) /\ extent i k x }.
Arguments tile_ok {units G} _ {i k c} _.
Arguments tile_one {units G} _ {i k c j l d} x _ _ _ _.
Arguments tile_all {units G} _ x _.

(** The units in blocks of a kind. *)
Definition covered (G : Tiling) (c : Kind) (x : Z) : Prop := exists i k, G !! i = Some (k, c) /\ extent i k x.

(** No free block has its buddy free. *)
Definition coalesced (G : Tiling) : Prop :=
  forall i k, G !! i = Some (k, Idle) -> G !! buddy i k <> Some (k, Idle).

Section tiling.
Context {units : Z}.
Implicit Types G : Tiling.

Lemma tile_start {G i k c} : tiled units G -> G !! i = Some (k, c) -> 0 <= i < units /\ extent i k i.
Proof.
  intros HG H. destruct (tile_ok HG H) as (? & _ & ? & ?). pose proof (pow_pos k). unfold extent. lia.
Qed.

Lemma tiled_retag {G i k c} d : tiled units G -> G !! i = Some (k, c) -> tiled units (<[i := (k, d)]> G).
Proof.
  intros HG H. split.
  - intros j l e. rewrite lookup_insert_Some. intros [[-> [= -> ->]]|[_ Hj]]; by eapply (tile_ok HG).
  - intros j l e j' l' e' x. rewrite !lookup_insert_Some.
    intros [[-> [= -> ->]]|[? Hj]] [[-> [= -> ->]]|[? Hj']] ??; (done || eapply (tile_one HG x); eauto).
  - intros x Hx. destruct (tile_all HG x Hx) as (j & l & e & Hj & Hex). destruct (decide (i = j)) as [->|Hn].
    + exists j, k, d. rewrite lookup_insert_eq. by simplify_eq.
    + exists j, l, e. by rewrite lookup_insert_ne.
Qed.

Lemma tiled_merge {G i k c c'} d :
  units < 2 ^ 26 -> tiled units G -> G !! i = Some (k, c) -> G !! buddy i k = Some (k, c') ->
  tiled units (<[Z.min i (buddy i k) := (k + 1, d)]> (delete (buddy i k) (delete i G))).
Proof.
  intros HU HG H H'. destruct (tile_ok HG H) as (Hk & Ha & Hi & Hw). destruct (tile_ok HG H') as (_ & _ & Hb & Hw').
  destruct (merged i k) as (Hd & Hm & He); [lia..|done|].
  set (b := buddy i k) in *. set (m := Z.min i b) in *.
  assert (forall j l e, <[m := (k + 1, d)]> (delete b (delete i G)) !! j = Some (l, e) <->
    (j = m /\ l = k + 1 /\ e = d) \/ (j <> m /\ j <> i /\ j <> b /\ G !! j = Some (l, e))) as Hl.
  { intros j l e. rewrite lookup_insert_Some, !lookup_delete_Some. naive_solver. }
  assert (m = i \/ m = b) as Hmib by (unfold m; lia).
  assert (forall j l e x, G !! j = Some (l, e) -> extent j l x -> extent m (k + 1) x -> j = i \/ j = b) as Hin.
  { intros j l e x Hj Hx [Hx'|Hx']%He; [left|right]; eapply (tile_one HG x); eauto. }
  split.
  - intros j l e [(-> & -> & ->)|(_ & _ & _ & Hj)]%Hl; [|by eapply (tile_ok HG)].
    assert (m + 2 ^ (k + 1) <= units) as Hmu.
    { destruct (proj1 (He (m + 2 ^ (k + 1) - 1))); unfold extent in *; pose proof (pow_pos (k + 1)); lia. }
    split_and!; try done; [lia|].
    destruct (Z_le_gt_dec (k + 1) 25); [done|]. pose proof (Z.pow_le_mono_r 2 26 (k + 1)). lia.
  - intros j l e j' l' e' x [(-> & -> & ->)|(? & ? & ? & Hj)]%Hl [(-> & -> & ->)|(? & ? & ? & Hj')]%Hl Hx Hx'.
    + done.
    + destruct (Hin j' l' e' x); (done || lia).
    + destruct (Hin j l e x); (done || lia).
    + eapply (tile_one HG x); eauto.
  - intros x Hx. destruct (tile_all HG x Hx) as (j & l & e & Hj & Hex).
    destruct (decide (j = i \/ j = b)) as [Hjib|Hn].
    + exists m, (k + 1), d. split; [apply Hl; auto|]. apply He. destruct Hjib as [->| ->]; simplify_eq; auto.
    + exists j, l, e. split; [|done]. apply Hl. right. split_and!; try done; lia.
Qed.

Lemma tiled_split {G i k c} d d' :
  0 <= k -> tiled units G -> G !! i = Some (k + 1, c) ->
  tiled units (<[i + 2 ^ k := (k, d')]> (<[i := (k, d)]> G)).
Proof.
  intros Hk HG H. destruct (tile_ok HG H) as (Hk' & [q Ha] & Hi & Hw). pose proof (pow_pos k Hk).
  assert (2 ^ (k + 1) = 2 * 2 ^ k) as E by (rewrite Z.pow_add_r by lia; lia). rewrite E in *.
  set (h := i + 2 ^ k) in *.
  assert (forall j l e, <[h := (k, d')]> (<[i := (k, d)]> G) !! j = Some (l, e) <->
    (j = h /\ l = k /\ e = d') \/ (j = i /\ l = k /\ e = d) \/ (j <> h /\ j <> i /\ G !! j = Some (l, e))) as Hl.
  { intros j l e. rewrite !lookup_insert_Some. unfold h. naive_solver lia. }
  assert (forall x, extent i (k + 1) x <-> extent i k x \/ extent h k x) as He by (unfold extent; rewrite E; unfold h; lia).
  assert (forall j l e x, G !! j = Some (l, e) -> extent j l x -> extent i k x \/ extent h k x -> j = i) as Hin.
  { intros j l e x Hj Hx Hx'%He. eapply (tile_one HG x); eauto. }
  split.
  - intros j l e [(-> & -> & ->)|[(-> & -> & ->)|(_ & _ & Hj)]]%Hl; [..|by eapply (tile_ok HG)].
    + split_and!; try (unfold h; lia). exists (q * 2 + 1). unfold h. rewrite Ha. lia.
    + split_and!; try lia. exists (q * 2). rewrite Ha. lia.
  - intros j l e j' l' e' x [(-> & -> & ->)|[(-> & -> & ->)|(? & ? & Hj)]]%Hl
      [(-> & -> & ->)|[(-> & -> & ->)|(? & ? & Hj')]]%Hl Hx Hx'; try done.
    + unfold extent, h in *. lia.
    + assert (j' = i) by (apply (Hin j' l' e' x); auto). done.
    + unfold extent, h in *. lia.
    + assert (j' = i) by (apply (Hin j' l' e' x); auto). done.
    + assert (j = i) by (apply (Hin j l e x); auto). done.
    + assert (j = i) by (apply (Hin j l e x); auto). done.
    + eapply (tile_one HG x); eauto.
  - intros x Hx. destruct (tile_all HG x Hx) as (j & l & e & Hj & Hex).
    destruct (decide (j = i)) as [Hji|Hn].
    + subst j. rewrite H in Hj. injection Hj as <- <-. apply He in Hex as [?|?]; [exists i, k, d|exists h, k, d']; (split; [apply Hl; auto|done]).
    + destruct (decide (j = h)) as [Hjh|Hnh].
      * subst j. destruct Hn. eapply (Hin h l e h); [done|..]; [apply (tile_start HG Hj)|right; unfold extent; lia].
      * exists j, l, e. split; [|done]. apply Hl. auto.
Qed.

Lemma coalesced_sub {G} G' :
  (forall i k, G' !! i = Some (k, Idle) -> G !! i = Some (k, Idle)) -> coalesced G -> coalesced G'.
Proof. intros Hs Hc i k H%Hs H'%Hs. by apply (Hc i k). Qed.

Lemma coalesced_retag {G i k} d : d <> Idle -> coalesced G -> coalesced (<[i := (k, d)]> G).
Proof. intros Hd. apply coalesced_sub. intros j l. rewrite lookup_insert_Some. naive_solver. Qed.

Lemma coalesced_merge {G} i m k d :
  d <> Idle -> coalesced G -> coalesced (<[m := (k + 1, d)]> (delete (buddy i k) (delete i G))).
Proof.
  intros Hd. apply coalesced_sub. intros j l. rewrite lookup_insert_Some, !lookup_delete_Some. naive_solver.
Qed.

Lemma coalesced_link {G i k c} :
  tiled units G -> G !! i = Some (k, c) -> G !! buddy i k <> Some (k, Idle) ->
  coalesced G -> coalesced (<[i := (k, Idle)]> G).
Proof.
  intros HG H Hb Hc j l. destruct (tile_ok HG H) as (Hk & Ha & Hi & _).
  rewrite !lookup_insert_Some. intros [[-> [= <-]]|[Hn Hj]].
  - intros [[Hx _]|[_ Hx]]; [|done]. by destruct (buddy_ne j k (proj1 Hk) Hi Ha).
  - intros [[-> [= ->]]|[_ Hx]]; [|by apply (Hc j l)].
    by rewrite buddy_buddy in Hb.
Qed.

(** A held block takes its idle buddy in. *)
Definition joined (G : Tiling) (i k : Z) : Tiling :=
  <[Z.min i (buddy i k) := (k + 1, Held)]> (delete (buddy i k) (delete i (<[buddy i k := (k, Held)]> G))).

Lemma joined_lookup G i k j l c :
  joined G i k !! j = Some (l, c) <->
  (j = Z.min i (buddy i k) /\ l = k + 1 /\ c = Held) \/
  (j <> Z.min i (buddy i k) /\ j <> i /\ j <> buddy i k /\ G !! j = Some (l, c)).
Proof.
  unfold joined. generalize (Z.min i (buddy i k)), (buddy i k). intros m b.
  rewrite lookup_insert_Some, !lookup_delete_Some, lookup_insert_Some. split.
  - intros [[<- [= <- <-]]|(? & ? & ? & [[? _]|[_ ?]])]; [auto|done|]. right. auto.
  - intros [(-> & -> & ->)|(? & ? & ? & ?)]; [auto|]. right. auto 10.
Qed.

Lemma joined_other G i k j l c :
  G !! i = Some (k, Held) -> c <> Held -> G !! buddy i k <> Some (l, c) ->
  joined G i k !! j = Some (l, c) <-> G !! j = Some (l, c).
Proof.
  intros Hi Hc Hb. rewrite joined_lookup. split.
  - by intros [(_ & _ & ?)|(_ & _ & _ & ?)].
  - intros Hj. right. assert (j <> i) by congruence. assert (j <> buddy i k) by congruence. split_and!; try done.
    destruct (Z.min_spec i (buddy i k)) as [[_ ->]|[_ ->]]; done.
Qed.

Lemma joined_idle G i k j l :
  G !! i = Some (k, Held) ->
  joined G i k !! j = Some (l, Idle) <-> <[buddy i k := (k, Held)]> G !! j = Some (l, Idle).
Proof.
  intros Hi. rewrite joined_lookup, lookup_insert_Some. split.
  - intros [(_ & _ & ?)|(_ & _ & ? & ?)]; [done|]. right. done.
  - intros [[_ ?]|[? Hj]]; [done|]. right. assert (j <> i) by congruence. split_and!; try done.
    destruct (Z.min_spec i (buddy i k)) as [[_ ->]|[_ ->]]; done.
Qed.

Lemma joined_coalesced G i k : coalesced G -> coalesced (joined G i k).
Proof. intros Hc. by apply coalesced_merge, coalesced_retag. Qed.

Lemma joined_tiled {G i k} :
  units < 2 ^ 26 -> tiled units G -> G !! i = Some (k, Held) -> G !! buddy i k = Some (k, Idle) ->
  tiled units (joined G i k).
Proof.
  intros HU HG Hi Hb. destruct (tile_ok HG Hi) as (Hk & Ha & Hi0 & _).
  pose proof (buddy_ne i k (proj1 Hk) Hi0 Ha) as Hne. eapply tiled_merge; [done|by eapply tiled_retag|..].
  - by rewrite lookup_insert_ne.
  - apply lookup_insert_eq.
Qed.

(** Free blocks that fill an aligned extent are at least as wide: a narrowest one
    would have its buddy free beside it. *)
Lemma free_wide {G e k} :
  tiled units G -> coalesced G -> 0 <= k -> (2 ^ k | e) ->
  (forall x, extent e k x -> covered G Idle x) ->
  exists i l, G !! i = Some (l, Idle) /\ k <= l /\ extent i l e.
Proof.
  intros HG Hc Hk Ha Hall.
  assert (forall m, 0 <= m -> forall i, m < k -> G !! i = Some (m, Idle) -> extent e k i -> False) as Hno.
  { intros m Hm. revert m Hm. apply (Zlt_0_ind (fun m => forall i, _ -> _ -> _ -> _)). intros m IH Hm.
    intros i Hmk Hi Hei. destruct (tile_ok HG Hi) as (_ & Hia & Hi0 & _).
    destruct (tile_start HG Hi) as [_ Hii].
    destruct (merged i m) as (Hd & H0 & He); [done..|].
    pose proof (buddy_aligned i m Hm Hia) as Hba. set (b := buddy i m) in *.
    assert (extent b m b) as Hbb by (unfold extent; pose proof (pow_pos m); lia).
    assert (forall x, extent (Z.min i b) (m + 1) x -> extent e k x) as Hsub.
    { intros x Hx. destruct (nested (Z.min i b) (m + 1) e k i); [lia|done..|by apply He; left|done|].
      unfold extent in *. lia. }
    destruct (Hall b) as (j & l & Hj & Hjb); [apply Hsub, He; auto|].
    destruct (tile_ok HG Hj) as (Hl & Hja & _). destruct (Z.lt_trichotomy l m) as [Hlm|[->|Hlm]].
    - apply (IH l) with j; (done || lia || idtac). apply Hsub, He. right.
      destruct (nested j l b m b); try (done || lia). unfold extent in *. pose proof (pow_pos l). lia.
    - assert (j = b) as -> by (destruct (nested j m b m b), (nested b m j m b); (done || lia)).
      by apply (Hc i m).
    - destruct (nested (Z.min i b) (m + 1) j l b) as [Hlo Hhi]; [lia|done..|by apply He; right|done|].
      assert (extent j l i) as Hji.
      { assert (extent (Z.min i b) (m + 1) i) as Hx by (by apply He; left). unfold extent in *. lia. }
      assert (j = i) as -> by (eapply (tile_one HG i); eauto). simplify_eq. lia. }
  destruct (Hall e) as (j & l & Hj & Hje); [unfold extent; pose proof (pow_pos k); lia|].
  exists j, l. split; [done|]. split; [|done]. destruct (Z_le_gt_dec k l); [done|]. exfalso.
  destruct (tile_ok HG Hj) as (Hl & Hja & _).
  assert (extent e k e) as Hee by (unfold extent; pose proof (pow_pos k); lia).
  destruct (nested j l e k e); [lia|done..|]. apply (Hno l) with j; (done || lia || idtac).
  unfold extent in *. pose proof (pow_pos l). lia.
Qed.

(** The sibling of an extent that holds a block is a single idle block if it is idle. *)
Lemma sibling_idle {G i k c q} :
  tiled units G -> coalesced G -> G !! i = Some (k, c) -> c <> Idle -> k <= q ->
  (forall x, extent (buddy (start_of i q) q) q x -> covered G Idle x) ->
  G !! buddy (start_of i q) q = Some (q, Idle).
Proof.
  intros HG Hc Hi Hci Hkq Hall. destruct (tile_ok HG Hi) as (Hk & Ha & Hi0 & _).
  pose proof (start_aligned i q) as Has. pose proof (start_nonneg i q ltac:(lia) Hi0) as Hs0.
  assert (2 ^ q | buddy (start_of i q) q) as Hba by (apply buddy_aligned; [lia|done]).
  destruct (merged (start_of i q) q ltac:(lia) Hs0 Has) as (Hd & _ & He). set (b := buddy (start_of i q) q) in *.
  destruct (free_wide (k := q) HG Hc ltac:(lia) Hba Hall) as (j & l & Hj & Hl & Hjb).
  destruct (tile_ok HG Hj) as (Hl25 & Hja & _).
  assert (extent b q b) as Hbb by (unfold extent; pose proof (pow_pos q); lia).
  destruct (decide (l = q)) as [->|Hne].
  - destruct (nested j q b q b ltac:(lia) Hja Hba Hjb Hbb) as [? ?]. by replace b with j by lia.
  - destruct (nested (Z.min (start_of i q) b) (q + 1) j l b) as [Hlo Hhi]; [lia|done..|by apply He; right|done|].
    assert (extent (Z.min (start_of i q) b) (q + 1) i) as Hx by (apply He; left; apply start_extent; lia).
    assert (j = i) as -> by (eapply (tile_one HG i); [done|done| |by apply (tile_start HG Hi)]; unfold extent in *; lia).
    congruence.
Qed.

(** The units of an extent are all free, or one is not. *)
Lemma covered_or {G e n} :
  tiled units G -> 0 <= e -> e + Z.of_nat n <= units ->
  (forall x, e <= x < e + Z.of_nat n -> covered G Idle x) \/
  (exists x c, e <= x < e + Z.of_nat n /\ c <> Idle /\ covered G c x).
Proof.
  intros HG He. induction n as [|n IH]; intros Hn; [left; lia|].
  destruct IH as [Hl|(x & c & Hx & Hc)]; [lia| |right; exists x, c; split; [lia|done]].
  destruct (tile_all HG (e + Z.of_nat n)) as (i & k & c & Hi & Hx); [lia|].
  destruct (decide (c = Idle)) as [->|Hc].
  - left. intros x ?. destruct (decide (x = e + Z.of_nat n)) as [->|]; [by exists i, k|apply Hl; lia].
  - right. exists (e + Z.of_nat n), c. split; [lia|]. split; [done|]. by exists i, k.
Qed.
End tiling.
