(* ===== verification/SqHeap.v ===== *)
(** * The SQLite heap

    Models [sqlite/src/runtime/heap]: the buddy allocator each worker gives SQLite
    ([raw/mod.rs], [raw/block.rs]) with the layout of its region ([layout.rs]), the
    hooks SQLite calls ([raw/hooks.rs]), the scope new allocations go to
    ([scopes.rs]) and the last owner, who takes the backing ([raw/retained.rs]).
    Memory is bytes by address: the links of a free block, the header of a live one
    and the control byte of a unit are read and written where the code has them, in
    little-endian words. The allocator of the system is an interface. *)
From S2P Require Import Prelude.

(** ** Memory *)

Definition load (m : Z -> Z) (at_ : Z) (n : nat) : list Z := (fun i => m (at_ + Z.of_nat i)) <$> seq 0 n.

Definition store (m : Z -> Z) (at_ : Z) (bytes : list Z) : Z -> Z :=
  fun x => if (at_ <=? x) && (x <? at_ + zlen bytes) then nth (Z.to_nat (x - at_)) bytes 0 else m x.

(** Words of the machine. *)
Definition to_le (n : nat) (x : Z) : list Z := rev (to_be n x).

Definition from_le (l : list Z) : Z := from_be (rev l).

(** ** The arena *)

Definition UNIT_BYTES : Z := 32.
Definition HEADER_BYTES : Z := 16.
Definition FREE : Z := Z.shiftl 1 7.
Definition MAX_BLOCK_BYTES : Z := Z.shiftl 1 30.
Definition MAX_ORDER : Z := 25.
Definition ORDERS : Z := 32.

(** The region: its units, their control bytes after them, and the address its
    blocks name their owner by. *)
Record Arena := { base : Z; units : Z; address : Z }.

Definition capacity (a : Arena) : Z := units a * UNIT_BYTES.

(** [Layout]: the bytes given to a heap. *)
Definition layout_new (bytes : Z) : option Z :=
  if (bytes <? Z.shiftl 64 10) || negb (bytes mod 64 =? 0) then None else Some bytes.

Definition layout_units (bytes : Z) : Z := bytes / (UNIT_BYTES + 1).

Definition layout_capacity (bytes : Z) : Z := layout_units bytes * UNIT_BYTES.

Definition layout_backing (prefix bytes : Z) : option Z := checked_usize (bytes + prefix).

(** [Index]: a unit, stored one above itself; zero is none. *)
Definition index_new (index units : Z) : option Z :=
  if units <=? index then None else index ← checked_usize (index + 1); Some (index - 1).

Definition index_word (o : option Z) : Z := match o with None => 0 | Some i => i + 1 end.

Definition index_of (w : Z) : option Z := if w =? 0 then None else Some (w - 1).

(** The bounded positions of the driver's library: a checked one, and one masked
    into its domain, a power of two. *)
Class Positions := {
  position_new : Z -> Z -> option Z;
  position_mask : Z -> Z -> Z }.

Class PositionsLaws `{Positions} : Prop := {
  position_newed : forall n p, 0 <= p -> position_new n p = if p <? n then Some p else None;
  position_masked : forall n p, 0 <= p < n -> position_mask n p = p }.

Record Links := { previous : option Z; next : option Z }.

Record Segment := { index : Z; order : Z }.

Record Free := { block : Segment; links : Links }.

(** [heads] of every level, the owners, and the memory the arena lies in. *)
Record State := { memory : Z -> Z; heads : list (option Z); references : Z }.

(** Where an allocation comes from. *)
Module Origin.
Inductive Origin := Core | Foreign.
End Origin.

(** The system's allocator on a memory: a block of a size, its end, and its change. *)
Class Native (N : Type) := {
  native_alloc : N -> (Z -> Z) -> Z -> N * (Z -> Z) * Z;
  native_dealloc : N -> (Z -> Z) -> Z -> Z -> N * (Z -> Z);
  native_realloc : N -> (Z -> Z) -> Z -> Z -> Z -> N * (Z -> Z) * Z }.

Section arena.
Context `{Positions} (a : Arena).

(** [Level] and [Order]: positions below [ORDERS] and up to [MAX_ORDER]. *)
Definition level_mask (p : Z) : Z := position_mask ORDERS p.

Definition level_new (p : Z) : option Z := position_new ORDERS p.

Definition order_new (p : Z) : option Z := position_new (MAX_ORDER + 1) p.

Definition block_at (i : Z) : Z := base a + i * UNIT_BYTES.

Definition control_at (i : Z) : Z := base a + capacity a + i.

Definition control (s : State) (i : Z) : Z := memory s (control_at i).

Definition with_memory (s : State) (m : Z -> Z) : State :=
  {| memory := m; heads := heads s; references := references s |}.

Definition with_head (s : State) (order : Z) (head : option Z) : State :=
  {| memory := memory s; heads := <[Z.to_nat order := head]> (heads s); references := references s |}.

Definition write_bytes (s : State) (at_ : Z) (bytes : list Z) : State := with_memory s (store (memory s) at_ bytes).

Definition set_control (s : State) (i value : Z) : State := write_bytes s (control_at i) [value].

Definition head_of (s : State) (order : Z) : option Z := mjoin (heads s !! Z.to_nat order).

Definition read_word (s : State) (at_ : Z) : Z := from_le (load (memory s) at_ 8).

(** [Links] at the start of a block: two words. *)
Definition read_links (s : State) (i : Z) : Links :=
  {| previous := index_of (read_word s (block_at i)); next := index_of (read_word s (block_at i + 8)) |}.

Definition write_previous (s : State) (i : Z) (o : option Z) : State := write_bytes s (block_at i) (to_le 8 (index_word o)).

Definition write_next (s : State) (i : Z) (o : option Z) : State := write_bytes s (block_at i + 8) (to_le 8 (index_word o)).

(** [Free::new]. *)
Definition free_new (s : State) (i order : Z) : Free :=
  {| block := {| index := i; order := order |}; links := read_links s i |}.

(** [State::link]. *)
Definition link (s : State) (b : Segment) : State :=
  let next := head_of s (order b) in
  let s := write_next (write_previous s (index b) None) (index b) next in
  let s := match next with Some next => write_previous s next (Some (index b)) | None => s end in
  let s := set_control s (index b) (Z.lor FREE (order b)) in
  with_head s (order b) (Some (index b)).

(** [State::free]: the block is free at exactly this order. *)
Definition find_free (s : State) (i order : Z) : option Free :=
  if negb (control s i =? Z.lor FREE order) then None else Some (free_new s i order).

(** [State::unlink]. *)
Definition unlink (s : State) (f : Free) : State * Segment :=
  let s := match previous (links f) with
           | Some previous => write_next s previous (next (links f))
           | None => with_head s (order (block f)) (next (links f))
           end in
  let s := match next (links f) with Some next => write_previous s next (previous (links f)) | None => s end in
  (set_control s (index (block f)) 0, block f).

(** [State::recycle]: the block joins its buddy while that is free. *)
Fixpoint recycle (fuel : nat) (s : State) (b : Segment) : State :=
  match fuel with
  | O => link s b
  | S fuel =>
      match level_new (order b + 1) with
      | None => link s b
      | Some next =>
          let width := Z.shiftl 1 (order b) in
          match index_new (Z.lxor (index b) width) (units a) with
          | None => link s b
          | Some buddy =>
              match find_free s buddy (order b) with
              | None => link s b
              | Some free =>
                  let (s, _) := unlink s free in
                  recycle fuel s {| index := Z.min (index b) buddy; order := next |}
              end
          end
      end
  end.

(** A level is passed at most once. *)
Definition recycle_all (s : State) (b : Segment) : State := recycle (Z.to_nat ORDERS) s b.

(** [Segment::reserve]: the upper halves go back, down to the order; [n] levels. *)
Fixpoint split (n : nat) (s : State) (i : Z) (low : Z) : State :=
  match n with
  | O => s
  | S n =>
      let level := level_mask (low + Z.of_nat n) in
      let width := Z.shiftl 1 level in
      split n (link s {| index := i + width; order := level |}) i low
  end.

(** [State::reserve]: the first level with a block; [n] levels from [position]. *)
Fixpoint reserve_from (n : nat) (s : State) (position order : Z) : option (State * Z) :=
  match n with
  | O => None
  | S n =>
      let found := level_mask position in
      match head_of s found with
      | None => reserve_from n s (position + 1) order
      | Some i =>
          let (s, b) := unlink s (free_new s i found) in
          Some (split (Z.to_nat (found - order)) s i order, i)
      end
  end.

Definition reserve (s : State) (order : Z) : option (State * Z) :=
  reserve_from (Z.to_nat (MAX_ORDER + 1 - order)) s order order.

(** [Block]: the payload after the header, which names the owner and the order. *)
Definition payload_at (i : Z) : Z := block_at i + HEADER_BYTES.

Definition payload_bytes (order : Z) : Z := Z.shiftl (UNIT_BYTES / 2) (order + 1) - HEADER_BYTES.

Definition write_order (s : State) (i order : Z) : State * Z :=
  (write_bytes s (block_at i + 8) [order], payload_at i).

Definition write (s : State) (i order : Z) : State * Z :=
  write_order (write_bytes s (block_at i) (to_le 8 (address a))) i order.

(** [Owner::allocate] with [Vacant::publish]; zero is the null pointer. *)
Definition allocate (s : State) (order : Z) : State * Z :=
  match reserve s order with
  | None => (s, 0)
  | Some (s, i) =>
      let (s, pointer) := write s i order in
      ({| memory := memory s; heads := heads s; references := references s + 1 |}, pointer)
  end.

(** [State::release]: whether the last owner takes the backing. *)
Definition state_release (s : State) : State * bool :=
  let references := references s - 1 in
  ({| memory := memory s; heads := heads s; references := references |}, references =? 0).

(** [Occupied::release]. *)
Definition release (s : State) (b : Segment) : State * bool :=
  let (s, last) := state_release s in
  if last then (s, true) else (recycle_all s b, false).

Definition copy (s : State) (from to bytes : Z) : State :=
  write_bytes s to (load (memory s) from (Z.to_nat bytes)).

(** The sibling of the extent that holds [start] at a level. *)
Definition buddy_at (start position : Z) : Z :=
  let width := Z.shiftl 1 position in Z.land (Z.lxor start width) (Z.lnot (width - 1)).

(** [Occupied::grow_adjacent]: every sibling up to the order is free. *)
Fixpoint all_free (n : nat) (s : State) (start position : Z) : bool :=
  match n with
  | O => true
  | S n =>
      match find_free s (buddy_at start position) (level_mask position) with
      | None => false
      | Some _ => all_free n s start (position + 1)
      end
  end.

Fixpoint unlink_all (n : nat) (s : State) (start position : Z) : State :=
  match n with
  | O => s
  | S n => unlink_all n (unlink s (free_new s (buddy_at start position) (level_mask position))).1 start (position + 1)
  end.

Definition grow_adjacent (s : State) (b : Segment) (target : Z) : option (State * Z) :=
  let start := index b in
  let width := Z.shiftl 1 target in
  let base := Z.land start (Z.lnot (width - 1)) in
  if units a - base <? width then None
  else
    let previous := order b in
    let n := Z.to_nat (target - previous) in
    if negb (all_free n s start previous) then None
    else
      let s := unlink_all n s start previous in
      if base =? start then Some (write_order s start target)
      else
        let original := payload_at start in
        let (s, pointer) := write s base target in
        Some (copy s original pointer (payload_bytes previous), pointer).

(** [Vacant::replace]. *)
Definition replace (s : State) (i target : Z) (old : Segment) : State * Z :=
  let (s, pointer) := write s i target in
  let s := copy s (payload_at (index old)) pointer (payload_bytes (order old)) in
  (recycle_all s old, pointer).

(** [Occupied::grow]. *)
Definition grow (s : State) (b : Segment) (target : Z) : State * Z :=
  match grow_adjacent s b target with
  | Some r => r
  | None =>
      match reserve s target with
      | None => (s, 0)
      | Some (s, i) => replace s i target b
      end
  end.

(** [Partition]: the powers of two of the units, from the largest. *)
Fixpoint partition (fuel : nat) (offset left : Z) : list Segment :=
  match fuel with
  | O => []
  | S fuel =>
      if left =? 0 then []
      else
        let order := level_mask (Z.log2 left) in
        let width := Z.shiftl 1 order in
        {| index := offset; order := order |} :: partition fuel (offset + width) (left - width)
  end.

(** [State::new] and [State::initialize], on control bytes of zero. *)
Definition initialize (m : Z -> Z) : State :=
  let s := {| memory := store m (base a + units a * UNIT_BYTES) (replicate (Z.to_nat (units a)) 0);
              heads := replicate (Z.to_nat ORDERS) None; references := 1 |} in
  fold_left link (partition (S (Z.to_nat (Z.log2 (units a)))) 0 (units a)) s.

(** ** The hooks *)

(** [Len]: a positive request, and the order of the block that holds it. *)
Definition len_new (bytes : Z) : option Z := if bytes <=? 0 then None else Some (as_u32 bytes).

Definition len_order (len : Z) : option Z :=
  let last := Z.max (len + HEADER_BYTES - 1) (UNIT_BYTES - 1) in
  order_new (32 - (31 - Z.log2 last) - 5).

Section hooks.
Context {N : Type} `{!Native N}.

(** A worker: where new allocations come from, whether a scope is entered, its
    arena and the system's allocator. *)
Record Worker := { origin : Origin.Origin; scope : bool; heap : State; native : N }.

Definition with_heap (w : Worker) (s : State) : Worker :=
  {| origin := origin w; scope := scope w; heap := s; native := native w |}.

Definition with_native (w : Worker) (n : N) (m : Z -> Z) : Worker :=
  {| origin := origin w; scope := scope w; heap := with_memory (heap w) m; native := n |}.

(** [Scope::enter] and [Scope::finish]. *)
Definition scope_enter (w : Worker) : option Worker :=
  if scope w then None else Some {| origin := origin w; scope := true; heap := heap w; native := native w |}.

Definition scope_finish (w : Worker) : Worker :=
  {| origin := origin w; scope := false; heap := heap w; native := native w |}.

(** [Scope::allocate]. *)
Definition scope_allocate (w : Worker) (order : Z) : Worker * Z :=
  if scope w then let (s, p) := allocate (heap w) order in (with_heap w s, p) else (w, 0).

(** [Allocation::allocate], [release] and [resize]: a header without an owner. *)
Definition foreign_layout (len : Z) : Z := len + HEADER_BYTES.

Definition foreign_header (m : Z -> Z) (p len : Z) : Z -> Z := store (store m p (to_le 8 0)) (p + 8) (to_le 4 len).

Definition foreign_allocate (w : Worker) (len : Z) : Worker * Z :=
  let '(n, m, p) := native_alloc (native w) (memory (heap w)) (foreign_layout len) in
  if p =? 0 then (with_native w n m, 0)
  else (with_native w n (foreign_header m p len), p + HEADER_BYTES).

Definition foreign_release (w : Worker) (p len : Z) : Worker :=
  let (n, m) := native_dealloc (native w) (memory (heap w)) p (foreign_layout len) in with_native w n m.

Definition foreign_resize (w : Worker) (p old len : Z) : Worker * Z :=
  let '(n, m, p) := native_realloc (native w) (memory (heap w)) p (foreign_layout old) (foreign_layout len) in
  if p =? 0 then (with_native w n m, 0)
  else (with_native w n (store m (p + 8) (to_le 4 len)), p + HEADER_BYTES).

(** [Block::read]: the header before the payload says whose it is. *)
Inductive Block := InCore (b : Segment) | InForeign (at_ len : Z).

Definition block_read (s : State) (pointer : Z) : Block :=
  let header := pointer - HEADER_BYTES in
  if read_word s header =? 0 then InForeign header (from_le (load (memory s) (header + 8) 4))
  else InCore {| index := (header - base a) / UNIT_BYTES; order := memory s (header + 8) |}.

(** [payload_integer]. *)
Definition payload_integer (order : Z) : Z := as_i32 (payload_bytes order).

(** [Origin::allocate], [Block::release], [Block::resize] and [Block::size]. *)
Definition origin_allocate (w : Worker) (len : Z) : Worker * Z :=
  match origin w with
  | Origin.Core => match len_order len with None => (w, 0) | Some order => scope_allocate w order end
  | Origin.Foreign => foreign_allocate w len
  end.

(** Whether the backing went with it. *)
Definition block_release (w : Worker) (b : Block) : Worker * bool :=
  match b with
  | InCore b => let (s, last) := release (heap w) b in (with_heap w s, last)
  | InForeign p len => (foreign_release w p len, false)
  end.

Definition block_resize (w : Worker) (pointer : Z) (b : Block) (len : Z) : Worker * Z :=
  match b with
  | InCore b =>
      if len <=? payload_bytes (order b) then (w, pointer)
      else match len_order len with
           | None => (w, 0)
           | Some target => let (s, p) := grow (heap w) b target in (with_heap w s, p)
           end
  | InForeign p old => foreign_resize w p old len
  end.

Definition block_size (b : Block) : Z :=
  match b with InCore b => payload_integer (order b) | InForeign _ len => as_i32 len end.

(** The hooks. *)
Definition malloc (w : Worker) (bytes : Z) : Worker * Z :=
  match len_new bytes with None => (w, 0) | Some len => origin_allocate w len end.

Definition free (w : Worker) (pointer : Z) : Worker * bool := block_release w (block_read (heap w) pointer).

Definition realloc (w : Worker) (pointer bytes : Z) : Worker * Z :=
  match len_new bytes with
  | None => (w, 0)
  | Some len => block_resize w pointer (block_read (heap w) pointer) len
  end.

Definition size (w : Worker) (pointer : Z) : Z := block_size (block_read (heap w) pointer).

Definition roundup (bytes : Z) : Z :=
  match len_new bytes with
  | None => 0
  | Some len => match len_order len with None => 0 | Some order => payload_integer order end
  end.

(** [foreign]: the origin while an operation runs, and after it. *)
Definition with_origin (w : Worker) (o : Origin.Origin) : Worker :=
  {| origin := o; scope := scope w; heap := heap w; native := native w |}.

Definition foreign {R} (w : Worker) (op : Worker -> Worker * R) : Worker * R :=
  let previous := origin w in
  let (w, r) := op (with_origin w Origin.Foreign) in
  (with_origin w previous, r).

(** [Retained::drop]: the runtime's share. *)
Definition retire (w : Worker) : Worker * bool :=
  let (s, last) := state_release (heap w) in (with_heap w s, last).
End hooks.
End arena.

Arguments Worker : clear implicits.
