(* ===== verification/SqBlocks.v ===== *)
(** * The blocks of the SQLite heap

    The memory of [SqHeap] against a tiling of its arena: control bytes and the
    doubly linked lists of idle blocks, and what linking, unlinking, recycling,
    reserving and growing do to both, with what they leave alone. *)
From stdpp Require Import gmap functions.
From S2P Require Import Prelude SqTiling SqHeap.

(** ** Bytes and words *)

Section words.
Implicit Types m : Z -> Z.

Lemma load_length m p n : length (load m p n) = n.
Proof. unfold load. by rewrite length_fmap, length_seq. Qed.

Lemma load_ext m m' p n : (forall x, p <= x < p + Z.of_nat n -> m' x = m x) -> load m' p n = load m p n.
Proof.
  intros Hm. unfold load. apply list_fmap_ext. intros i x [-> Hx]%lookup_seq. apply Hm. lia.
Qed.

Lemma store_other m p bs x : x < p \/ p + zlen bs <= x -> store m p bs x = m x.
Proof. intros Hx. unfold store. by replace ((p <=? x) && (x <? p + zlen bs)) with false by lia. Qed.

Lemma load_store m p bs : load (store m p bs) p (length bs) = bs.
Proof.
  unfold load. apply (list_eq_same_length _ _ (length bs)); rewrite ?length_fmap, ?length_seq; [done..|].
  intros i x y Hi Hx Hy. rewrite list_lookup_fmap, lookup_seq_lt in Hx by lia. simpl in Hx.
  injection Hx as <-. unfold store. replace (_ && _)%bool with true by lia.
  replace (Z.to_nat (p + Z.of_nat i - p)) with i by lia. by apply nth_lookup_Some.
Qed.

Lemma load_store_other m p bs q n : q + Z.of_nat n <= p \/ p + zlen bs <= q -> load (store m p bs) q n = load m q n.
Proof. intros. apply load_ext. intros. apply store_other. lia. Qed.

Lemma length_to_le n x : length (to_le n x) = n.
Proof. unfold to_le. by rewrite length_rev, length_to_be. Qed.

Lemma from_to_le n x : 0 <= x < 256 ^ Z.of_nat n -> from_le (to_le n x) = x.
Proof. intros. unfold from_le, to_le. rewrite rev_involutive, from_be_to_be. by apply Z.mod_small. Qed.
End words.

(** ** Doubly linked lists *)

Definition head_or (l : list Z) (n : option Z) : option Z := match l with [] => n | x :: _ => Some x end.

Definition last_or (p : option Z) (l : list Z) : option Z := match last l with None => p | Some x => Some x end.

(** The links of the blocks of a list, from the one before it to the one after. *)
Fixpoint dll (rd : Z -> Links) (p : option Z) (l : list Z) (n : option Z) : Prop :=
  match l with
  | [] => True
  | x :: l => rd x = {| previous := p; next := head_or l n |} /\ dll rd (Some x) l n
  end.

Section dll.
Implicit Types (rd : Z -> Links) (l : list Z).

Lemma last_or_cons p x l : last_or p (x :: l) = last_or (Some x) l.
Proof. unfold last_or. rewrite last_cons. by destruct (last l). Qed.

Lemma last_or_snoc p l x : last_or p (l ++ [x]) = Some x.
Proof. unfold last_or. by rewrite last_snoc. Qed.

Lemma dll_app rd p l k n : dll rd p (l ++ k) n <-> dll rd p l (head_or k n) /\ dll rd (last_or p l) k n.
Proof.
  revert p. induction l as [|x l IH]; intros p; simpl; [unfold last_or; simpl; tauto|].
  rewrite IH, last_or_cons. replace (head_or (l ++ k) n) with (head_or l (head_or k n)) by (by destruct l). tauto.
Qed.

Lemma dll_ext rd rd' p l n : (forall x, x ∈ l -> rd' x = rd x) -> dll rd p l n -> dll rd' p l n.
Proof.
  revert p. induction l as [|x l IH]; intros p Hx; simpl; [done|]. intros [H Hl]. split.
  - rewrite Hx by set_solver. done.
  - apply IH; [set_solver|done].
Qed.

Lemma elem_of_removed (l : list Z) x k y : NoDup (l ++ x :: k) -> y ∈ l ++ k <-> y <> x /\ y ∈ l ++ x :: k.
Proof.
  intros (_ & Hd & [Hk _]%NoDup_cons)%NoDup_app. rewrite !elem_of_app, elem_of_cons.
  assert (x ∉ l) as Hl by (intros H; apply (Hd x H), elem_of_cons; by left).
  split; [intros [H|H]; (split; [intros ->; done|auto])|intros [? [?|[?|?]]]; auto; done].
Qed.

(** The list without one of its elements, its neighbours linked to each other. *)
Lemma dll_remove rd rd' l x k :
  NoDup (l ++ x :: k) -> dll rd None (l ++ x :: k) None ->
  (forall y, y ∈ l ++ k -> rd' y =
     {| previous := if decide (head_or k None = Some y) then last_or None l else previous (rd y);
        next := if decide (last_or None l = Some y) then head_or k None else next (rd y) |}) ->
  dll rd' None (l ++ k) None.
Proof.
  intros Hn [Hl Hk]%dll_app Hr. simpl in Hk. destruct Hk as [_ Hk].
  apply NoDup_app in Hn as (Hnl & Hlk & [Hx Hnk]%NoDup_cons).
  assert (forall y, y ∈ l -> head_or k None <> Some y) as Hlh.
  { intros y Hy He. destruct k as [|z k]; [done|]. simplify_eq/=. apply (Hlk y Hy). set_solver. }
  assert (forall y, y ∈ k -> last_or None l <> Some y) as Hkl.
  { intros y Hy He. unfold last_or in He. destruct (last l) eqn:E; [|done]. simplify_eq.
    apply last_Some_elem_of in E. apply (Hlk y E). set_solver. }
  apply dll_app. split.
  - destruct l as [|z l _] using rev_ind; [done|]. apply dll_app in Hl as [Hl [Hz _]]. apply dll_app. split.
    + simpl in *. eapply dll_ext; [|exact Hl]. intros y Hy. rewrite Hr by set_solver.
      rewrite decide_False by (apply Hlh; set_solver). rewrite last_or_snoc.
      rewrite decide_False; [by destruct (rd y)|]. intros [= ->].
      apply NoDup_app in Hnl as (_ & Hd & _). apply (Hd y Hy). set_solver.
    + simpl in *. split; [|done]. rewrite Hr by set_solver.
      rewrite decide_False by (apply Hlh; set_solver). rewrite last_or_snoc.
      rewrite decide_True by done. by rewrite Hz.
  - destruct k as [|z k]; [done|]. destruct Hk as [Hz Hk]. split.
    + rewrite Hr by set_solver. rewrite decide_True by done. rewrite decide_False by (apply Hkl; set_solver).
      by rewrite Hz.
    + eapply dll_ext; [|exact Hk]. intros y Hy. rewrite Hr by set_solver.
      rewrite (decide_False (P := last_or None l = Some y)) by (apply Hkl; set_solver).
      rewrite decide_False; [by destruct (rd y)|]. intros [= ->]. by apply NoDup_cons in Hnk as [? _].
Qed.
End dll.

Section blocks.
Context (a : Arena).
Notation block_at := (block_at a).
Notation control_at := (control_at a).
Notation control := (control a).
Notation read_links := (read_links a).
Notation write_previous := (write_previous a).
Notation write_next := (write_next a).
Notation set_control := (set_control a).

(** ** Reading what was written *)

Definition unit_in (i : Z) : Prop := 0 <= i < units a.

Definition in_unit (i x : Z) : Prop := block_at i <= x < block_at i + UNIT_BYTES.

Definition in_controls (x : Z) : Prop := base a + capacity a <= x < base a + capacity a + units a.

Hypothesis small : units a < 2 ^ 26.

Ltac places := unfold unit_in, in_unit, in_controls, SqHeap.block_at, SqHeap.control_at, capacity, UNIT_BYTES, HEADER_BYTES in *.

Definition index_ok (o : option Z) : Prop := match o with None => True | Some i => unit_in i end.

Lemma index_round o : index_ok o -> index_of (from_le (to_le 8 (index_word o))) = o.
Proof.
  intros Ho. destruct o as [i|]; [|reflexivity]. simpl in *. places. rewrite from_to_le by lia.
  unfold index_of. destruct (Z.eqb_spec (i + 1) 0); [lia|]. f_equal. lia.
Qed.

Lemma read_word_same s p o : index_ok o ->
  index_of (read_word (write_bytes s p (to_le 8 (index_word o))) p) = o.
Proof.
  intros Ho. unfold read_word, write_bytes, with_memory. cbn [memory].
  rewrite <- (length_to_le 8 (index_word o)) at 2. rewrite load_store. by apply index_round.
Qed.

Lemma read_word_other s p bs q : q + 8 <= p \/ p + zlen bs <= q -> read_word (write_bytes s p bs) q = read_word s q.
Proof. intros. unfold read_word, write_bytes, with_memory. cbn [memory]. by rewrite load_store_other by lia. Qed.

Lemma links_write_previous s i j o :
  index_ok o ->
  read_links (write_previous s i o) j =
  if decide (i = j) then {| previous := o; next := next (read_links s j) |} else read_links s j.
Proof.
  intros Ho. unfold SqHeap.read_links, SqHeap.write_previous. destruct (decide (i = j)) as [->|Hn].
  - rewrite read_word_same by done. cbn [next]. f_equal. f_equal. apply read_word_other.
    rewrite length_to_le. lia.
  - rewrite !read_word_other by (rewrite length_to_le; places; lia). done.
Qed.

Lemma links_write_next s i j o :
  index_ok o ->
  read_links (write_next s i o) j =
  if decide (i = j) then {| previous := previous (read_links s j); next := o |} else read_links s j.
Proof.
  intros Ho. unfold SqHeap.read_links, SqHeap.write_next. destruct (decide (i = j)) as [->|Hn].
  - rewrite read_word_same by done. cbn [previous]. f_equal. f_equal. apply read_word_other.
    rewrite length_to_le. lia.
  - rewrite !read_word_other by (rewrite length_to_le; places; lia). done.
Qed.

Lemma links_set_control s i j v : unit_in i -> unit_in j -> read_links (set_control s i v) j = read_links s j.
Proof.
  intros. unfold SqHeap.read_links, SqHeap.set_control.
  rewrite !read_word_other by (simpl length; places; lia). done.
Qed.

Lemma control_write_previous s i j o : unit_in i -> unit_in j -> control (write_previous s i o) j = control s j.
Proof.
  intros. unfold SqHeap.control, SqHeap.write_previous, write_bytes, with_memory. cbn [memory].
  apply store_other. rewrite length_to_le. places. lia.
Qed.

Lemma control_write_next s i j o : unit_in i -> unit_in j -> control (write_next s i o) j = control s j.
Proof.
  intros. unfold SqHeap.control, SqHeap.write_next, write_bytes, with_memory. cbn [memory].
  apply store_other. rewrite length_to_le. places. lia.
Qed.

Lemma control_set_control s i j v : control (set_control s i v) j = if decide (i = j) then v else control s j.
Proof.
  unfold SqHeap.control, SqHeap.set_control, write_bytes, with_memory, store. cbn [memory]. simpl length.
  destruct (decide (i = j)) as [->|Hn].
  - rewrite Z.leb_refl, (proj2 (Z.ltb_lt _ _)), Z.sub_diag by lia. done.
  - destruct (Z.leb_spec (control_at i) (control_at j)); [|done].
    destruct (Z.ltb_spec (control_at j) (control_at i + Z.of_nat 1)); [|done]. places. lia.
Qed.

Lemma links_with_head s k o j : read_links (with_head s k o) j = read_links s j.
Proof. done. Qed.

Lemma control_with_head s k o j : control (with_head s k o) j = control s j.
Proof. done. Qed.

Lemma head_with_head s k o j :
  0 <= k < ORDERS -> 0 <= j -> length (heads s) = Z.to_nat ORDERS ->
  head_of (with_head s k o) j = if decide (k = j) then o else head_of s j.
Proof.
  intros Hk Hj Hl. unfold head_of, with_head. cbn [heads]. unfold ORDERS in *.
  destruct (decide (k = j)) as [->|Hn].
  - rewrite list_lookup_insert_eq by lia. done.
  - rewrite list_lookup_insert_ne by lia. done.
Qed.

Lemma memory_write_previous s i o x : ~ in_unit i x -> memory (write_previous s i o) x = memory s x.
Proof. intros. apply store_other. rewrite length_to_le. places. lia. Qed.

Lemma memory_write_next s i o x : ~ in_unit i x -> memory (write_next s i o) x = memory s x.
Proof. intros. apply store_other. rewrite length_to_le. places. lia. Qed.

Lemma memory_set_control s i v x : unit_in i -> ~ in_controls x -> memory (set_control s i v) x = memory s x.
Proof. intros. apply store_other. simpl length. places. lia. Qed.
(** ** Linking and unlinking *)

Ltac into_reads :=
  repeat first [rewrite links_with_head | rewrite links_set_control by done | rewrite links_write_next by done | rewrite links_write_previous by done].

Ltac into_control :=
  repeat first [rewrite control_with_head | rewrite control_set_control | rewrite control_write_next by done | rewrite control_write_previous by done].

(** The idle blocks of a tiling, by order, as the memory has them. *)
Record repr (s : State) (G : Tiling) (F : Z -> list Z) : Prop := {
  repr_heads : length (heads s) = Z.to_nat ORDERS;
  repr_nodup : forall k, NoDup (F k);
  repr_elem : forall k i, i ∈ F k <-> G !! i = Some (k, Idle);
  repr_head : forall k, 0 <= k < ORDERS -> head_of s k = head_or (F k) None;
  repr_links : forall k, dll (read_links s) None (F k) None;
  repr_control : forall i, unit_in i ->
    control s i = match G !! i with Some (k, Idle) => Z.lor FREE k | _ => 0 end }.

(** Nothing outside of the units and the control bytes changes. *)
Definition kept (Q : Z -> Prop) (s s' : State) : Prop :=
  forall x, ~ in_controls x -> (forall i, Q i -> ~ in_unit i x) -> memory s' x = memory s x.

Lemma kept_refl Q s : kept Q s s.
Proof. done. Qed.

Lemma kept_then (Q Q' : Z -> Prop) s1 s2 s3 :
  kept Q s1 s2 -> kept Q' s2 s3 -> (forall i, Q' i -> Q i) -> kept Q s1 s3.
Proof. intros H1 H2 HQ x Hx Hu. rewrite H2, H1; auto. Qed.

Lemma kept_sub (Q Q' : Z -> Prop) s s' : kept Q s s' -> (forall i, Q i -> Q' i) -> kept Q' s s'.
Proof. intros H HQ x Hx Hu. apply H; auto. Qed.

Lemma free_lor_inj k l : 0 <= k < 32 -> 0 <= l < 32 -> Z.lor FREE k = Z.lor FREE l -> k = l.
Proof.
  intros Hk Hl He. assert (forall n, 0 <= n < 32 -> Z.lor FREE n - 128 = n) as Hn; [|rewrite <- (Hn k), <- (Hn l); lia].
  intros n Hn. assert (forallb (fun n => Z.lor FREE n - 128 =? n) (seqZ 0 32) = true) as Hall by reflexivity.
  rewrite forallb_forall in Hall. apply Z.eqb_eq, Hall, list_elem_of_In, elem_of_seqZ. lia.
Qed.

Lemma free_lor_pos k : Z.lor FREE k <> 0.
Proof. intros H. apply Z.lor_eq_0_l in H. discriminate H. Qed.

Lemma link_links s i k j :
  unit_in i -> unit_in j -> index_ok (head_of s k) ->
  read_links (link a s {| index := i; order := k |}) j =
  (let rd y := if decide (i = y) then {| previous := None; next := head_of s k |} else read_links s y in
   if decide (head_of s k = Some j) then {| previous := Some i; next := next (rd j) |} else rd j).
Proof.
  intros Hi Hj Hh. unfold link. cbn [index order]. destruct (head_of s k) as [h|] eqn:E; simpl in Hh.
  - into_reads.
    destruct (decide (h = j)) as [->|Hn]; [rewrite (decide_True (P := Some j = Some j)) by done
      |rewrite (decide_False (P := Some h = Some j)) by congruence];
      destruct (decide (i = j)); by subst.
  - into_reads.
    rewrite (decide_False (P := None = Some j)) by done. destruct (decide (i = j)); by subst.
Qed.

Lemma link_control s i k j :
  unit_in i -> unit_in j -> index_ok (head_of s k) ->
  control (link a s {| index := i; order := k |}) j = if decide (i = j) then Z.lor FREE k else control s j.
Proof.
  intros Hi Hj Hh. unfold link. cbn [index order].
  destruct (head_of s k) as [h|]; simpl in Hh; into_control; done.
Qed.

Lemma link_heads s i k : length (heads s) = Z.to_nat ORDERS -> 0 <= k < ORDERS ->
  length (heads (link a s {| index := i; order := k |})) = Z.to_nat ORDERS /\
  (forall j, 0 <= j -> head_of (link a s {| index := i; order := k |}) j = if decide (k = j) then Some i else head_of s j) /\
  references (link a s {| index := i; order := k |}) = references s.
Proof.
  intros Hl Hk. unfold link. cbn [index order]. destruct (head_of s k) as [h|];
    (split; [cbn [heads with_head]; rewrite length_insert; exact Hl|]; split; [|done];
     intros j Hj; rewrite head_with_head; done).
Qed.

Lemma link_memory s i k x :
  unit_in i -> ~ in_unit i x -> ~ in_controls x -> (forall h, head_of s k = Some h -> ~ in_unit h x) ->
  memory (link a s {| index := i; order := k |}) x = memory s x.
Proof.
  intros Hi Hx Hc Hh. unfold link. cbn [index order]. destruct (head_of s k) as [h|];
    cbn [memory with_head]; rewrite memory_set_control by done.
  - rewrite memory_write_previous by auto. rewrite memory_write_next by done. by apply memory_write_previous.
  - rewrite memory_write_next by done. by apply memory_write_previous.
Qed.

Definition unlinked (s : State) (i k : Z) : State := (unlink a s (free_new a s i k)).1.

Lemma unlink_links s i k j :
  unit_in i -> unit_in j -> index_ok (previous (read_links s i)) -> index_ok (next (read_links s i)) ->
  read_links (unlinked s i k) j =
  {| previous := if decide (next (read_links s i) = Some j) then previous (read_links s i) else previous (read_links s j);
     next := if decide (previous (read_links s i) = Some j) then next (read_links s i) else next (read_links s j) |}.
Proof.
  intros Hi Hj Hp Hn. unfold unlinked, unlink, free_new. cbn [block links index order fst].
  destruct (read_links s i) as [p n]. cbn [previous next] in *.
  destruct n as [n|]; destruct p as [p|]; simpl in Hp, Hn;
    into_reads;
    repeat case_decide; simplify_eq/=; try done; by destruct (read_links s j).
Qed.

Lemma unlink_control s i k j :
  unit_in i -> unit_in j -> index_ok (previous (read_links s i)) -> index_ok (next (read_links s i)) ->
  control (unlinked s i k) j = if decide (i = j) then 0 else control s j.
Proof.
  intros Hi Hj Hp Hn. unfold unlinked, unlink, free_new. cbn [block links index order fst].
  destruct (read_links s i) as [[p|] [n|]]; cbn [previous next] in *; simpl in Hp, Hn; into_control; done.
Qed.

Lemma unlink_heads s i k :
  length (heads s) = Z.to_nat ORDERS -> 0 <= k < ORDERS ->
  length (heads (unlinked s i k)) = Z.to_nat ORDERS /\
  (forall j, 0 <= j -> head_of (unlinked s i k) j =
     match previous (read_links s i) with
     | Some _ => head_of s j
     | None => if decide (k = j) then next (read_links s i) else head_of s j
     end) /\
  references (unlinked s i k) = references s.
Proof.
  intros Hl Hk. unfold unlinked, unlink, free_new. cbn [block links index order fst].
  destruct (read_links s i) as [[p|] [n|]]; cbn [previous next];
    (split; [etrans; [|exact Hl]; (reflexivity || exact (length_insert _ _ _))|]; split; [|done]); intros j Hj; try done;
    change (head_of (set_control ?s _ _) j) with (head_of s j);
    change (head_of (write_previous ?s _ _) j) with (head_of s j); by rewrite head_with_head.
Qed.

Lemma unlink_memory s i k x :
  unit_in i -> ~ in_controls x ->
  (forall p, previous (read_links s i) = Some p -> ~ in_unit p x) ->
  (forall n, next (read_links s i) = Some n -> ~ in_unit n x) ->
  memory (unlinked s i k) x = memory s x.
Proof.
  intros Hi Hc Hp Hn. unfold unlinked, unlink, free_new. cbn [block links index order fst].
  destruct (read_links s i) as [[p|] [n|]]; cbn [previous next] in *; rewrite memory_set_control by done;
    rewrite ?memory_write_previous by auto; cbn [memory with_head]; rewrite ?memory_write_next by auto; done.
Qed.

Section ghost.
Context {s : State} {G : Tiling} {F : Z -> list Z}.
Hypothesis HG : tiled (units a) G.
Hypothesis HR : repr s G F.

Lemma list_unit k i : i ∈ F k -> unit_in i.
Proof. intros H%(repr_elem _ _ _ HR). by apply (tile_start HG) in H as [? _]. Qed.

Lemma head_unit k : 0 <= k < ORDERS -> index_ok (head_of s k).
Proof.
  intros Hk. rewrite (repr_head _ _ _ HR) by done. destruct (F k) as [|h l] eqn:E; [done|].
  apply (list_unit k). rewrite E. set_solver.
Qed.

Lemma idle_covered i k : G !! i = Some (k, Idle) -> covered G Idle i.
Proof. intros H. exists i, k. split; [done|]. by apply (tile_start HG H). Qed.

Lemma link_spec i k c :
  c <> Idle -> G !! i = Some (k, c) ->
  repr (link a s {| index := i; order := k |}) (<[i := (k, Idle)]> G) (<[k := i :: F k]> F) /\
  kept (fun x => covered G Idle x \/ x = i) s (link a s {| index := i; order := k |}) /\
  references (link a s {| index := i; order := k |}) = references s.
Proof.
  intros Hc Hi. destruct (tile_start HG Hi) as [Hu _]. destruct (tile_ok HG Hi) as (Hk & _).
  assert (0 <= k < ORDERS) as Hko by (unfold ORDERS; lia). pose proof (head_unit k Hko) as Hh.
  destruct (link_heads s i k (repr_heads _ _ _ HR) Hko) as (Hl & Hd & Href).
  assert (forall l, i ∉ F l) as Hni by (intros l H%(repr_elem _ _ _ HR); congruence).
  split; [|split; [|done]].
  - split; [done|..].
    + intros l. destruct (decide (k = l)) as [->|Hn]; [rewrite fn_lookup_insert|rewrite fn_lookup_insert_ne by done];
        [constructor; [done|]|]; apply (repr_nodup _ _ _ HR).
    + intros l j. rewrite lookup_insert_Some. destruct (decide (k = l)) as [->|Hn];
        [rewrite fn_lookup_insert, elem_of_cons|rewrite fn_lookup_insert_ne by done]; rewrite (repr_elem _ _ _ HR);
        destruct (decide (i = j)) as [->|]; naive_solver.
    + intros l Hlo. rewrite Hd by lia. destruct (decide (k = l)) as [->|Hn];
        [by rewrite fn_lookup_insert|rewrite fn_lookup_insert_ne by done; by apply (repr_head _ _ _ HR)].
    + intros l. pose proof (repr_links _ _ _ HR l) as Hdl.
      assert (forall y, y ∈ F l -> head_of s k <> Some y ->
        read_links (link a s {| index := i; order := k |}) y = read_links s y) as Hrd.
      { intros y Hy Hne. rewrite link_links by eauto using list_unit. cbn zeta. rewrite decide_False by done.
        rewrite decide_False; [done|]. intros ->. by apply (Hni l). }
      destruct (decide (k = l)) as [->|Hn]; [rewrite fn_lookup_insert|rewrite fn_lookup_insert_ne by done].
      * rewrite (repr_head _ _ _ HR) in Hrd by done. pose proof (repr_nodup _ _ _ HR l) as Hnd.
        pose proof (repr_head _ _ _ HR l Hko) as Hhd.
        pose proof (Hni l) as Hil. assert (forall y, y ∈ F l -> unit_in y) as Hlu by eauto using list_unit.
        destruct (F l) as [|h fl] eqn:E; cbn [dll head_or] in Hdl, Hhd, Hrd |- *.
        -- split; [|done]. rewrite link_links by done. cbn zeta. by rewrite Hhd, decide_False, decide_True by done.
        -- destruct Hdl as [Hh0 Hdl]. apply NoDup_cons in Hnd as [Hnh Hnd].
           split; [|split].
           ++ rewrite link_links by done. cbn zeta. rewrite Hhd, decide_False by set_solver. by rewrite decide_True by done.
           ++ rewrite link_links by (try done; apply Hlu; set_solver). cbn zeta.
              rewrite Hhd, decide_True by done. rewrite decide_False by set_solver. by rewrite Hh0.
           ++ eapply dll_ext; [|exact Hdl]. intros y Hy. apply Hrd; [set_solver|]. intros [= ->]. done.
      * eapply dll_ext; [|exact Hdl]. intros y Hy. apply Hrd; [done|]. rewrite (repr_head _ _ _ HR) by done.
        intros He. assert (y ∈ F k) as Hyk by (destruct (F k); simplify_eq/=; set_solver).
        apply (repr_elem _ _ _ HR) in Hy, Hyk. congruence.
    + intros j Hj. rewrite link_control by done. destruct (decide (i = j)) as [->|Hn].
      * by rewrite lookup_insert_eq.
      * rewrite lookup_insert_ne by done. by apply (repr_control _ _ _ HR).
  - intros x Hx HQ. apply link_memory; [done|apply HQ; auto|done|]. intros h E. apply HQ. left.
    rewrite (repr_head _ _ _ HR) in E by done. apply idle_covered with k, (repr_elem _ _ _ HR).
    destruct (F k); simplify_eq/=; set_solver.
Qed.

Lemma last_or_elem (l : list Z) x : last_or None l = Some x -> x ∈ l.
Proof. unfold last_or. destruct (last l) eqn:E; [|done]. intros [= ->]. by apply last_Some_elem_of. Qed.

Lemma head_or_elem (l : list Z) x : head_or l None = Some x -> x ∈ l.
Proof. destruct l; [done|]. intros [= ->]. set_solver. Qed.

Lemma elem_index_ok k o : (forall x, o = Some x -> x ∈ F k) -> index_ok o.
Proof. intros H. destruct o as [x|]; [|done]. by apply (list_unit k), H. Qed.

Lemma unlink_spec i k :
  G !! i = Some (k, Idle) ->
  exists F', repr (unlinked s i k) (<[i := (k, Held)]> G) F' /\
    kept (covered G Idle) s (unlinked s i k) /\ references (unlinked s i k) = references s.
Proof.
  intros Hi. destruct (tile_start HG Hi) as [Hu _]. destruct (tile_ok HG Hi) as (Hk & _).
  assert (0 <= k < ORDERS) as Hko by (unfold ORDERS; lia).
  pose proof Hi as Hin. apply (repr_elem _ _ _ HR) in Hin. apply list_elem_of_split in Hin as (l1 & l2 & E).
  pose proof (repr_links _ _ _ HR k) as Hdl. pose proof (repr_nodup _ _ _ HR k) as Hnd. rewrite E in Hdl, Hnd.
  pose proof Hdl as Hdl'. apply dll_app in Hdl' as [_ [Hrd _]].
  assert (forall x, last_or None l1 = Some x -> x ∈ F k) as Hp by (intros x Hx%last_or_elem; rewrite E; set_solver).
  assert (forall x, head_or l2 None = Some x -> x ∈ F k) as Hn by (intros x Hx%head_or_elem; rewrite E; set_solver).
  assert (forall j, unit_in j -> read_links (unlinked s i k) j =
    {| previous := if decide (head_or l2 None = Some j) then last_or None l1 else previous (read_links s j);
       next := if decide (last_or None l1 = Some j) then head_or l2 None else next (read_links s j) |}) as Hrl.
  { intros j Hj. rewrite unlink_links; rewrite ?Hrd; eauto using elem_index_ok. }
  assert (forall l, i ∈ F l -> l = k) as Hik by (intros l H%(repr_elem _ _ _ HR); congruence).
  exists (<[k := l1 ++ l2]> F). split; [|split].
  - destruct (unlink_heads s i k (repr_heads _ _ _ HR) Hko) as (Hl & Hd & _). rewrite Hrd in Hd.
    cbn [previous next] in Hd. apply NoDup_app in Hnd as Hnd'. destruct Hnd' as (Hn1 & Hn12 & [Hi2 Hn2]%NoDup_cons).
    assert (i ∉ l1) as Hi1 by (intros Hi1; apply (Hn12 i Hi1), elem_of_cons; by left).
    split; [done|..].
    + intros l. destruct (decide (k = l)) as [->|Hne]; [rewrite fn_lookup_insert|rewrite fn_lookup_insert_ne by done; apply (repr_nodup _ _ _ HR)].
      apply NoDup_app. split; [done|]. split; [|done]. intros x Hx Hx'. apply (Hn12 x Hx), elem_of_cons. by right.
    + intros l j. rewrite lookup_insert_Some. destruct (decide (k = l)) as [->|Hne];
        [rewrite fn_lookup_insert, (elem_of_removed l1 i) by done; rewrite <- E|rewrite fn_lookup_insert_ne by done];
        rewrite (repr_elem _ _ _ HR).
      * split; [intros [? ?]; right; by split|]. by intros [[_ ?]|[? ?]].
      * split; [|by intros [[_ ?]|[_ ?]]]. intros Hj. right. split; [congruence|done].
    + intros l Hlo. rewrite Hd by lia. destruct (decide (k = l)) as [->|Hne].
      * rewrite fn_lookup_insert. rewrite (repr_head _ _ _ HR), E by done. by destruct l1 as [|z l1 _] using rev_ind; [|rewrite last_or_snoc; destruct l1].
      * rewrite fn_lookup_insert_ne by done. rewrite (repr_head _ _ _ HR) by done. by destruct (last_or None l1).
    + intros l. destruct (decide (k = l)) as [->|Hne]; [rewrite fn_lookup_insert|rewrite fn_lookup_insert_ne by done].
      * eapply dll_remove; [exact Hnd|exact Hdl|]. intros y Hy. apply Hrl, (list_unit l). rewrite E.
        apply elem_of_app in Hy as [?|?]; apply elem_of_app; [by left|right; apply elem_of_cons; by right].
      * eapply dll_ext; [|apply (repr_links _ _ _ HR l)]. intros y Hy. rewrite Hrl by eauto using list_unit.
        rewrite !decide_False; [by destruct (read_links s y)|..]; intros He;
          [apply Hp in He|apply Hn in He]; apply (repr_elem _ _ _ HR) in Hy, He; congruence.
    + intros j Hj. rewrite unlink_control; rewrite ?Hrd; eauto using elem_index_ok.
      destruct (decide (i = j)) as [->|Hne]; [by rewrite lookup_insert_eq|].
      rewrite lookup_insert_ne by done. by apply (repr_control _ _ _ HR).
  - intros x Hx HQ. apply unlink_memory; [done|done|..]; rewrite Hrd; cbn [previous next];
      intros y Hy; apply HQ, idle_covered with k, (repr_elem _ _ _ HR); auto.
  - apply (unlink_heads s i k (repr_heads _ _ _ HR) Hko).
Qed.

Lemma repr_idle G' :
  (forall j l, G' !! j = Some (l, Idle) <-> G !! j = Some (l, Idle)) -> repr s G' F.
Proof.
  intros Hi. split; try apply HR.
  - intros k i. rewrite Hi. apply HR.
  - intros i Hu. rewrite (repr_control _ _ _ HR i Hu).
    destruct (G !! i) as [[k [| |]]|] eqn:E; destruct (G' !! i) as [[k' [| |]]|] eqn:E'; try done;
      (apply Hi in E || apply Hi in E'); congruence.
Qed.

Lemma find_free_spec i k :
  unit_in i -> 0 <= k < ORDERS ->
  (G !! i = Some (k, Idle) /\ find_free a s i k = Some (free_new a s i k)) \/
  (G !! i <> Some (k, Idle) /\ find_free a s i k = None).
Proof.
  intros Hu Hk. unfold find_free. rewrite (repr_control _ _ _ HR) by done.
  destruct (G !! i) as [[l [| |]]|] eqn:E; try (right; split; [congruence|];
    destruct (Z.eqb_spec 0 (Z.lor FREE k)) as [He|]; [by destruct (free_lor_pos k)|done]).
  destruct (Z.eqb_spec (Z.lor FREE l) (Z.lor FREE k)) as [He|He].
  - apply free_lor_inj in He as ->; [by left|apply (tile_ok HG) in E; lia|done].
  - right. split; [|done]. intros [= ->]. done.
Qed.
End ghost.

(** ** Recycling and reserving *)

Context `{PositionsLaws}.

Lemma level_masked k : 0 <= k < ORDERS -> level_mask k = k.
Proof. apply position_masked. Qed.

Lemma level_newed k : 0 <= k <= 25 -> level_new (k + 1) = Some (k + 1).
Proof. intros. unfold level_new. rewrite position_newed by lia. by replace (k + 1 <? ORDERS) with true by (unfold ORDERS; lia). Qed.

Lemma index_newed i : 0 <= i -> index_new i (units a) = if units a <=? i then None else Some i.
Proof.
  intros Hi. unfold index_new. destruct (Z.leb_spec (units a) i); [done|].
  unfold checked_usize, checked. replace (_ && _)%bool with true by lia. cbn [mbind option_bind]. f_equal. lia.
Qed.

(** What an operation does besides its result: it writes to the units of [Q], leaves
    blocks held as [Hd] says, and no live block begins, ends or moves. *)
Record stepped (Q : Z -> Prop) (Hd : Z -> Z -> Prop) (G : Tiling) (s : State) (G' : Tiling) (F' : Z -> list Z)
  (s' : State) : Prop := {
  stepped_tiled : tiled (units a) G';
  stepped_repr : repr s' G' F';
  stepped_coalesced : coalesced G';
  stepped_live : forall j l, G' !! j = Some (l, Live) <-> G !! j = Some (l, Live);
  stepped_held : forall j l, G' !! j = Some (l, Held) -> Hd j l;
  stepped_kept : kept Q s s';
  stepped_references : references s' = references s }.

Definition taking (G : Tiling) (i k x : Z) : Prop := covered G Idle x \/ extent i k x.

Definition held_but (G : Tiling) (i j l : Z) : Prop := G !! j = Some (l, Held) /\ j <> i.

Lemma link_stepped s G F i k :
  tiled (units a) G -> repr s G F -> coalesced G -> G !! i = Some (k, Held) ->
  G !! buddy i k <> Some (k, Idle) ->
  stepped (taking G i k) (held_but G i) G s (<[i := (k, Idle)]> G) (<[k := i :: F k]> F) (link a s {| index := i; order := k |}).
Proof.
  intros HG HR Hc Hi Hb. destruct (link_spec HG HR i k Held) as (H1 & H2 & H3); [done..|].
  split; try done.
  - by apply (tiled_retag Idle HG Hi).
  - by apply (coalesced_link HG Hi).
  - intros j l. rewrite lookup_insert_Some. naive_solver.
  - unfold held_but. intros j l. rewrite lookup_insert_Some. naive_solver.
  - eapply kept_sub; [exact H2|]. intros x [?| ->]; [by left|right]. by apply (tile_start HG Hi).
Qed.

Lemma recycle_spec fuel s G F i k :
  tiled (units a) G -> repr s G F -> coalesced G -> G !! i = Some (k, Held) -> 32 - k <= Z.of_nat fuel ->
  exists G' F', stepped (taking G i k) (held_but G i) G s G' F' (recycle a fuel s {| index := i; order := k |}).
Proof.
  revert s G F i k. induction fuel as [|fuel IH]; intros s G F i k HG HR Hc Hi Hf;
    destruct (tile_ok HG Hi) as (Hk & Ha & Hi0 & Hiu); [lia|].
  cbn [recycle order index]. rewrite level_newed, Z.shiftl_1_l by done. fold (buddy i k).
  pose proof (buddy_nonneg i k (proj1 Hk) Hi0) as Hb0. rewrite index_newed by done.
  destruct (Z.leb_spec (units a) (buddy i k)) as [Hbu|Hbu].
  { eexists _, _. apply (link_stepped s G F); try done. intros Hb. apply (tile_start HG) in Hb. lia. }
  destruct (find_free_spec HG HR (buddy i k) k) as [[Hb ->]|[Hb ->]]; [done|unfold ORDERS; lia| |].
  2: { eexists _, _. by apply (link_stepped s G F). }
  destruct (unlink_spec HG HR _ _ Hb) as (F1 & HR1 & Hk1 & Hr1). unfold unlinked in *.
  destruct (unlink a s _) as [s1 b1]. cbn [fst] in *.
  pose proof (joined_tiled small HG Hi Hb) as HG2.
  destruct (IH s1 (joined G i k) F1 (Z.min i (buddy i k)) (k + 1)) as (G' & F' & [HG' HR' Hc' Hlive Hheld Hkept Href]).
  - done.
  - eapply repr_idle; [exact HR1|]. intros j l. by apply joined_idle.
  - by apply joined_coalesced.
  - apply joined_lookup. auto.
  - lia.
  - exists G', F'. split; [done|done|done|..].
    + intros j l. rewrite Hlive. apply joined_other; [done|done|congruence].
    + intros j l [[(-> & _)|(_ & ? & _ & ?)]%joined_lookup Hjm]%Hheld; [done|by split].
    + eapply kept_then; [eapply kept_sub; [exact Hk1|by left]|exact Hkept|]. intros x [(j & l & Hj & Hx)|Hx].
      * left. apply joined_lookup in Hj as [(_ & _ & ?)|(_ & _ & _ & Hj)]; [done|by exists j, l].
      * destruct (merged i k) as (_ & _ & He); [lia|done..|]. apply He in Hx as [Hx|Hx]; [by right|left; by exists (buddy i k), k].
    + by rewrite Href.
Qed.

Lemma buddy_low i m : 0 <= m -> 0 <= i -> (2 ^ (m + 1) | i) -> buddy i m = i + 2 ^ m.
Proof.
  intros Hm Hi [q Hq]. rewrite Z.pow_add_r in Hq by lia. change (2 ^ 1) with 2 in Hq.
  replace i with (q * 2 * 2 ^ m) by lia. rewrite buddy_mul by done. pose proof (pow_pos m Hm).
  assert (0 <= q * 2) by nia. destruct (lxor_one (q * 2)) as [[_ ->]|[Ho _]]; [done|lia|].
  rewrite Z.mod_mul in Ho; lia.
Qed.

Lemma split_spec n s G F i low :
  tiled (units a) G -> repr s G F -> coalesced G -> 0 <= low -> G !! i = Some (low + Z.of_nat n, Held) ->
  exists G' F', stepped (taking G i (low + Z.of_nat n)) (fun j l => j = i \/ held_but G i j l) G s G' F' (split a n s i low) /\
    G' !! i = Some (low, Held).
Proof.
  revert s G F. induction n as [|n IH]; intros s G F HG HR Hc Hlow Hi.
  { rewrite Z.add_0_r in Hi. exists G, F. split; [|done]. split; try done. intros j l. unfold held_but.
    destruct (decide (j = i)); auto. }
  set (m := low + Z.of_nat n). replace (low + Z.of_nat (Datatypes.S n)) with (m + 1) in * by (unfold m; lia).
  assert (0 <= m) as Hm by (unfold m; lia).
  destruct (tile_ok HG Hi) as (Hk & Ha & Hi0 & Hiu). cbn [split]. fold m.
  rewrite level_masked, Z.shiftl_1_l by (unfold ORDERS; lia). pose proof (pow_pos m Hm) as Hpm.
  assert (2 ^ (m + 1) = 2 * 2 ^ m) as E by (rewrite Z.pow_add_r by lia; lia).
  assert (G !! (i + 2 ^ m) = None) as Hnone.
  { destruct (G !! (i + 2 ^ m)) as [[l c]|] eqn:Hx; [|done]. destruct (tile_start HG Hx) as [_ He].
    assert (i + 2 ^ m = i); [|lia]. eapply (tile_one HG (i + 2 ^ m)); [done|done|done|]. unfold extent. lia. }
  pose proof (tiled_split Held Held Hm HG Hi) as HG1.
  set (G1 := <[i + 2 ^ m := (m, Held)]> (<[i := (m, Held)]> G)) in *.
  assert (forall j l c, G1 !! j = Some (l, c) <->
    (j = i + 2 ^ m /\ l = m /\ c = Held) \/ (j = i /\ l = m /\ c = Held) \/ (j <> i /\ G !! j = Some (l, c))) as Hl.
  { intros j l c. unfold G1. rewrite !lookup_insert_Some. destruct (decide (j = i + 2 ^ m)) as [->|];
      naive_solver lia. }
  assert (repr s G1 F) as HR1.
  { eapply repr_idle; [exact HR|]. intros j l. rewrite Hl. destruct (decide (j = i)) as [->|]; naive_solver. }
  assert (coalesced G1) as Hc1 by (by apply coalesced_retag, coalesced_retag).
  assert (buddy (i + 2 ^ m) m = i) as Hbud by (rewrite <- (buddy_low i m) by done; apply buddy_buddy).
  destruct (link_stepped s G1 F (i + 2 ^ m) m) as [HG2 HR2 Hc2 Hl2 Hh2 Hk2 Hr2]; [done..|by apply Hl; auto| |].
  { rewrite Hbud. intros Hx%Hl. naive_solver lia. }
  set (G2 := <[i + 2 ^ m := (m, Idle)]> G1) in *. set (s2 := link a s _) in *.
  destruct (IH s2 G2 _ HG2 HR2 Hc2 Hlow) as (G' & F' & [HG' HR' Hc' Hlive Hheld Hkept Href] & Hi').
  { unfold G2. rewrite lookup_insert_ne by lia. apply Hl. auto. }
  fold m in Hkept. exists G', F'. split; [|done]. split; [done..| | | |].
  - intros j l. rewrite Hlive, Hl2, Hl. destruct (decide (j = i)) as [->|]; naive_solver.
  - intros j l [->|[[Hx Hn]%Hh2 Hji]]%Hheld; [by left|]. apply Hl in Hx. unfold held_but. naive_solver.
  - eapply kept_then; [eapply kept_sub; [exact Hk2|]|exact Hkept|]; unfold taking, extent.
    + intros x [(j & l & Hj & Hx)|Hx]; [|right; lia]. apply Hl in Hj. left. exists j, l. naive_solver.
    + intros x [(j & l & Hj & Hx)|Hx]; [|right; lia]. unfold G2 in Hj. rewrite lookup_insert_Some, Hl in Hj.
      destruct Hj as [[<- [= <-]]|[_ Hj]]; [right; unfold extent in Hx; lia|left; exists j, l; naive_solver].
  - by rewrite Href.
Qed.

(** The narrowest idle block that holds the order, or none does. *)
Lemma reserve_from_spec n s G F position order :
  tiled (units a) G -> repr s G F -> coalesced G -> 0 <= order <= position -> position + Z.of_nat n = MAX_ORDER + 1 ->
  match reserve_from a n s position order with
  | None => forall i k, G !! i = Some (k, Idle) -> k < position
  | Some (s', i) => exists G' F',
      stepped (covered G Idle) (fun j l => j = i \/ G !! j = Some (l, Held)) G s G' F' s' /\
      G' !! i = Some (order, Held) /\ (forall x, extent i order x -> covered G Idle x)
  end.
Proof.
  revert position. unfold MAX_ORDER. induction n as [|n IH]; intros p HG HR Hc Hp Hn; cbn [reserve_from].
  { intros i k Hi. apply (tile_ok HG) in Hi. lia. }
  assert (0 <= p < ORDERS) as Hpo by (unfold ORDERS; lia).
  rewrite level_masked by done. rewrite (repr_head _ _ _ HR) by done. destruct (F p) as [|i fl] eqn:E; cbn [head_or].
  - specialize (IH (p + 1) HG HR Hc). destruct (reserve_from a n s (p + 1) order) as [[s' i]|]; [apply IH; lia|].
    intros i k Hi. assert (k < p + 1) by (apply IH with i; (done || lia)).
    destruct (decide (k = p)) as [->|]; [|lia]. apply (repr_elem _ _ _ HR) in Hi. rewrite E in Hi. by apply elem_of_nil in Hi.
  - assert (G !! i = Some (p, Idle)) as Hi by (apply (repr_elem _ _ _ HR); rewrite E; set_solver).
    destruct (unlink_spec HG HR _ _ Hi) as (F1 & HR1 & Hk1 & Hr1). unfold unlinked in *.
    destruct (unlink a s _) as [s1 b1]. cbn [fst] in *.
    pose proof (tiled_retag Held HG Hi) as HG1. set (G1 := <[i := (p, Held)]> G) in *.
    assert (coalesced G1) as Hc1 by (by apply coalesced_retag).
    destruct (split_spec (Z.to_nat (p - order)) s1 G1 F1 i order) as (G' & F' & [HG' HR' Hc' Hlive Hheld Hkept Href] & Hi');
      [done..|lia|unfold G1; rewrite lookup_insert_eq; do 2 f_equal; lia|].
    replace (order + Z.of_nat (Z.to_nat (p - order))) with p in * by lia.
    exists G', F'. split; [|split; [done|]].
    + split; [done..| | | |by rewrite Href].
      * intros j l. rewrite Hlive. unfold G1. rewrite lookup_insert_Some. naive_solver.
      * intros j l [->|[Hx ?]]%Hheld; [by left|right]. unfold G1 in Hx. by rewrite lookup_insert_ne in Hx.
      * eapply kept_then; [exact Hk1|exact Hkept|]. intros x [(j & l & Hj & Hx)|Hx]; [|by exists i, p].
        unfold G1 in Hj. rewrite lookup_insert_Some in Hj. destruct Hj as [[_ ?]|[_ Hj]]; [done|by exists j, l].
    + intros x Hx. exists i, p. split; [done|]. unfold extent in *. pose proof (Z.pow_le_mono_r 2 order p). lia.
Qed.

Lemma reserve_spec s G F order :
  tiled (units a) G -> repr s G F -> coalesced G -> 0 <= order <= MAX_ORDER ->
  match reserve a s order with
  | None => forall i k, G !! i = Some (k, Idle) -> k < order
  | Some (s', i) => exists G' F',
      stepped (covered G Idle) (fun j l => j = i \/ G !! j = Some (l, Held)) G s G' F' s' /\
      G' !! i = Some (order, Held) /\ (forall x, extent i order x -> covered G Idle x)
  end.
Proof. intros HG HR Hc Ho. unfold reserve. apply (reserve_from_spec _ s G F); (done || unfold MAX_ORDER in *; lia). Qed.

(** ** Growing in place *)

Lemma buddy_at_start i p : 0 <= p -> buddy_at i p = buddy (start_of i p) p.
Proof. intros. unfold buddy_at. rewrite Z.shiftl_1_l. by apply buddy_land. Qed.

(** The siblings of an extent below one that fits are in the arena. *)
Lemma sibling_unit i p t :
  0 <= i -> 0 <= p < t -> start_of i t + 2 ^ t <= units a -> unit_in (buddy (start_of i p) p).
Proof.
  intros Hi [Hp Ht] Hu. pose proof (start_nonneg i p Hp Hi) as Hs0. pose proof (start_aligned i p) as Ha.
  split; [by apply buddy_nonneg|]. destruct (merged (start_of i p) p Hp Hs0 Ha) as (_ & _ & He).
  rewrite <- start_up in He by done. set (b := buddy (start_of i p) p) in *.
  assert (extent (start_of i (p + 1)) (p + 1) b) as Hb by (apply He; right; unfold extent; pose proof (pow_pos p); lia).
  destruct (nested (start_of i (p + 1)) (p + 1) (start_of i t) t i); [lia|apply start_aligned..
    |apply start_extent; lia|apply start_extent; lia|]. unfold extent in Hb. lia.
Qed.

Lemma all_free_spec n s G F i p :
  tiled (units a) G -> repr s G F -> 0 <= i -> 0 <= p -> p + Z.of_nat n <= 25 ->
  start_of i (p + Z.of_nat n) + 2 ^ (p + Z.of_nat n) <= units a ->
  all_free a n s i p = true ->
  forall q, p <= q < p + Z.of_nat n -> G !! buddy (start_of i q) q = Some (q, Idle).
Proof.
  intros HG HR Hi. revert p. induction n as [|n IH]; intros p Hp Hn Hu; cbn [all_free]; [lia|].
  intros Hall q Hq.
  pose proof (sibling_unit i p (p + Z.of_nat (Datatypes.S n)) Hi ltac:(lia) Hu) as Hub.
  rewrite buddy_at_start, level_masked in Hall by (unfold ORDERS; lia).
  destruct (find_free_spec HG HR (buddy (start_of i p) p) p) as [[Hb E]|[_ E]]; [done|unfold ORDERS; lia| |];
    rewrite E in Hall; [|done].
  destruct (decide (q = p)) as [->|]; [done|].
  apply (IH (p + 1)); (done || lia || idtac). by replace (p + 1 + Z.of_nat n) with (p + Z.of_nat (Datatypes.S n)) by lia.
Qed.

Lemma all_free_false n s G F i p :
  tiled (units a) G -> repr s G F -> 0 <= i -> 0 <= p -> p + Z.of_nat n <= 25 ->
  start_of i (p + Z.of_nat n) + 2 ^ (p + Z.of_nat n) <= units a ->
  all_free a n s i p = false ->
  exists q, p <= q < p + Z.of_nat n /\ G !! buddy (start_of i q) q <> Some (q, Idle).
Proof.
  intros HG HR Hi. revert p. induction n as [|n IH]; intros p Hp Hn Hu; cbn [all_free]; [done|].
  pose proof (sibling_unit i p (p + Z.of_nat (Datatypes.S n)) Hi ltac:(lia) Hu) as Hub.
  rewrite buddy_at_start, level_masked by (unfold ORDERS; lia).
  destruct (find_free_spec HG HR (buddy (start_of i p) p) p) as [[Hb E]|[Hb E]]; [done|unfold ORDERS; lia| |];
    rewrite E; intros Hall.
  - destruct (IH (p + 1)) as (q & Hq & Hx); [lia|lia| |done|exists q; split; [lia|done]].
    by replace (p + 1 + Z.of_nat n) with (p + Z.of_nat (Datatypes.S n)) by lia.
  - exists p. split; [lia|done].
Qed.

(** The siblings of a held block join it, up to the extent of the order. *)
Lemma unlink_all_spec n s G F i p :
  tiled (units a) G -> repr s G F -> coalesced G -> 0 <= i -> 0 <= p -> G !! start_of i p = Some (p, Held) ->
  (forall q, p <= q < p + Z.of_nat n -> G !! buddy (start_of i q) q = Some (q, Idle)) ->
  exists G' F', stepped (covered G Idle) (fun j l => j = start_of i (p + Z.of_nat n) \/ held_but G (start_of i p) j l) G s G' F'
      (unlink_all a n s i p) /\
    G' !! start_of i (p + Z.of_nat n) = Some (p + Z.of_nat n, Held).
Proof.
  intros HG HR Hc Hi0. revert s G F HG HR Hc p. induction n as [|n IH]; intros s G F HG HR Hc p Hp Hi Hall.
  { cbn [unlink_all]. rewrite Z.add_0_r in *. exists G, F. split; [|done]. split; try done.
    intros j l. unfold held_but. destruct (decide (j = start_of i p)); auto. }
  cbn [unlink_all]. set (b := start_of i p) in *.
  assert (0 <= p <= 25) as Hp25 by apply (tile_ok HG Hi).
  rewrite buddy_at_start, level_masked by (unfold ORDERS; lia). fold b.
  destruct (tile_ok HG Hi) as (_ & Ha & Hb0 & _).
  assert (G !! buddy b p = Some (p, Idle)) as Hb by (apply Hall; lia).
  destruct (unlink_spec HG HR _ _ Hb) as (F1 & HR1 & Hk1 & Hr1). fold (unlinked s (buddy b p) p).
  set (s1 := unlinked s (buddy b p) p) in *.
  pose proof (joined_tiled small HG Hi Hb) as HG2. pose proof (start_up i p Hp Hi0) as Hup. fold b in Hup.
  destruct (IH s1 (joined G b p) F1 HG2) with (p := p + 1) as (G' & F' & [HG' HR' Hc' Hlive Hheld Hkept Href] & Hi').
  - eapply repr_idle; [exact HR1|]. intros j l. by apply joined_idle.
  - by apply joined_coalesced.
  - lia.
  - rewrite Hup. apply joined_lookup. auto.
  - intros q Hq. assert (G !! buddy (start_of i q) q = Some (q, Idle)) as Hx by (apply Hall; lia).
    apply joined_other; [done|done| |done]. rewrite Hb. intros [= ?]. lia.
  - replace (p + 1 + Z.of_nat n) with (p + Z.of_nat (Datatypes.S n)) in * by lia.
    exists G', F'. split; [|done]. split; [done..| | | |by rewrite Href].
    + intros j l. rewrite Hlive. apply joined_other; [done|done|congruence].
    + intros j l [?|[Hx Hjm]]%Hheld; [by left|right]. rewrite Hup in Hjm.
      apply joined_lookup in Hx as [(-> & _)|(_ & ? & _ & Hx)]; [done|by split].
    + eapply kept_then; [exact Hk1|exact Hkept|]. intros x (j & l & Hj & Hx).
      apply joined_lookup in Hj as [(_ & _ & ?)|(_ & _ & _ & Hj)]; [done|by exists j, l].
Qed.
End blocks.
