(* ===== verification/SqArena.v ===== *)
(** * The arena of the SQLite heap

    Allocating, releasing and growing over the blocks of [SqBlocks]: the invariant of
    the arena between operations, the initial one, and what each operation does to
    the live blocks, when it gives none and what it leaves alone. *)
From stdpp Require Import gmap functions.
From S2P Require Import Prelude SqTiling SqHeap SqBlocks.

Section arena.
Context (a : Arena) `{PositionsLaws}.
Hypothesis small : units a < 2 ^ 26.
Hypothesis address_word : 0 < address a < 2 ^ 64.

Ltac places := unfold unit_in, in_unit, in_controls, payload_at, SqHeap.block_at, SqHeap.control_at, capacity, UNIT_BYTES, HEADER_BYTES in *.

(** The bytes of a block. *)
Definition in_block (i k x : Z) : Prop := block_at a i <= x < block_at a i + UNIT_BYTES * 2 ^ k.

(** The bytes of the units and of their control bytes. *)
Definition in_arena (x : Z) : Prop := base a <= x < base a + capacity a + units a.

(** Between operations no block is held, and every live one has its header. *)
Record arena_ok (s : State) (G : Tiling) (F : Z -> list Z) : Prop := {
  ok_tiled : tiled (units a) G;
  ok_repr : repr a s G F;
  ok_coalesced : coalesced G;
  ok_settled : forall i k, G !! i <> Some (k, Held);
  ok_header : forall i k, G !! i = Some (k, Live) ->
    read_word s (block_at a i) = address a /\ memory s (block_at a i + 8) = k }.

Lemma block_unit {G i k c x} :
  tiled (units a) G -> G !! i = Some (k, c) -> in_block i k x ->
  ~ in_controls a x /\ in_arena x /\ exists u, extent i k u /\ in_unit a u x.
Proof.
  intros HG Hi Hx. destruct (tile_ok HG Hi) as (Hk & _ & Hi0 & Hu). unfold in_block, in_arena in *.
  pose proof (pow_pos k (proj1 Hk)). places. split; [lia|]. split; [lia|].
  exists (i + (x - (base a + i * 32)) / 32). unfold extent.
  pose proof (Z.div_mod (x - (base a + i * 32)) 32). pose proof (Z.mod_pos_bound (x - (base a + i * 32)) 32).
  assert (0 <= (x - (base a + i * 32)) / 32 < 2 ^ k); [|lia].
  split; [apply Z.div_pos; lia|]. apply Z.div_lt_upper_bound; lia.
Qed.

Lemma in_unit_inj u v x : in_unit a u x -> in_unit a v x -> u = v.
Proof. places. lia. Qed.

Lemma unit_block i k u x : 0 <= k -> extent i k u -> in_unit a u x -> in_block i k x.
Proof. unfold extent, in_block. places. lia. Qed.

(** A live block keeps its bytes while only idle units and another block are written. *)
Lemma kept_block {G Q s s' i k} :
  tiled (units a) G -> G !! i = Some (k, Live) -> kept a Q s s' ->
  (forall u, Q u -> covered G Idle u \/ exists j l c, G !! j = Some (l, c) /\ j <> i /\ extent j l u) ->
  forall x, in_block i k x -> memory s' x = memory s x.
Proof.
  intros HG Hi Hk HQ x Hx. destruct (block_unit HG Hi Hx) as (Hc & _ & u & Hu & Hux). apply Hk; [done|].
  intros v Hv Hvx. assert (v = u) as -> by (by eapply in_unit_inj).
  destruct (HQ u Hv) as [(j & l & Hj & Hju)|(j & l & c & Hj & Hne & Hju)].
  - assert (i = j) as -> by (by eapply (tile_one HG u)). congruence.
  - destruct Hne. by eapply (tile_one HG u).
Qed.

Lemma kept_outside {Q s s'} :
  kept a Q s s' -> (forall u, Q u -> 0 <= u < units a) -> forall x, ~ in_arena x -> memory s' x = memory s x.
Proof.
  intros Hk HQ x Hx. unfold in_arena in Hx. apply Hk; [places; lia|]. intros u Hu%HQ Hux. places. lia.
Qed.

Lemma covered_unit {G c u} : tiled (units a) G -> covered G c u -> 0 <= u < units a.
Proof. intros HG (i & k & Hi & Hu). destruct (tile_ok HG Hi) as (_ & _ & ? & ?). unfold extent in Hu. lia. Qed.

(** Idle blocks and control bytes are all that the lists are made of. *)
Lemma repr_ext s s' G F :
  tiled (units a) G -> repr a s G F -> heads s' = heads s ->
  (forall x, in_controls a x \/ (exists u, covered G Idle u /\ in_unit a u x) -> memory s' x = memory s x) ->
  repr a s' G F.
Proof.
  intros HG HR Hh Hm. split.
  - rewrite Hh. apply HR.
  - apply HR.
  - apply HR.
  - intros k Hk. unfold head_of. rewrite Hh. by apply HR.
  - intros k. eapply dll_ext; [|apply HR]. intros i Hi. apply (repr_elem _ _ _ _ HR) in Hi.
    pose proof (idle_covered a HG _ _ Hi) as Hc. unfold read_links, read_word.
    rewrite !(load_ext (memory s) (memory s')); [done|..]; intros x Hx; apply Hm; right; exists i; (split; [done|places; lia]).
  - intros i Hu. unfold control. rewrite Hm; [by apply HR|]. left. places. lia.
Qed.

(** A write inside a block that is not idle. *)
Lemma repr_write s G F i k c p bs :
  tiled (units a) G -> repr a s G F -> G !! i = Some (k, c) -> c <> Idle ->
  block_at a i <= p -> p + zlen bs <= block_at a i + UNIT_BYTES * 2 ^ k ->
  repr a (write_bytes s p bs) G F.
Proof.
  intros HG HR Hi Hc Hp Hb. eapply repr_ext; [done|exact HR|done|]. intros x Hx. cbn [memory write_bytes with_memory].
  destruct (decide (p <= x < p + zlen bs)) as [Hin|]; [|apply store_other; lia].
  destruct (block_unit HG Hi (x := x)) as (Hnc & _ & u & Hu & Hux); [unfold in_block; lia|].
  destruct Hx as [?|(v & (j & l & Hj & Hjv) & Hvx)]; [done|].
  assert (v = u) as -> by (by eapply in_unit_inj). assert (i = j) as -> by (by eapply (tile_one HG u)). congruence.
Qed.

(** ** Headers *)

Lemma write_header s i k :
  let s' := (write a s i k).1 in
  read_word s' (block_at a i) = address a /\ memory s' (block_at a i + 8) = k /\
  (forall x, ~ (block_at a i <= x < block_at a i + HEADER_BYTES) -> memory s' x = memory s x) /\
  heads s' = heads s /\ references s' = references s.
Proof.
  unfold write, write_order. cbn [fst]. split; [|split; [|split; [|done]]].
  - rewrite read_word_other by (simpl length; lia). unfold read_word. cbn [memory write_bytes with_memory].
    rewrite <- (length_to_le 8 (address a)) at 2. rewrite load_store. apply from_to_le. lia.
  - cbn [memory write_bytes with_memory]. unfold store at 1. rewrite Z.leb_refl, (proj2 (Z.ltb_lt _ _)) by (simpl; lia).
    by rewrite Z.sub_diag.
  - intros x Hx. cbn [memory write_bytes with_memory]. unfold HEADER_BYTES in Hx.
    rewrite store_other by (simpl length; lia). apply store_other. rewrite length_to_le. lia.
Qed.

Lemma order_header s i k :
  let s' := (write_order a s i k).1 in
  read_word s' (block_at a i) = read_word s (block_at a i) /\ memory s' (block_at a i + 8) = k /\
  (forall x, x <> block_at a i + 8 -> memory s' x = memory s x) /\
  heads s' = heads s /\ references s' = references s.
Proof.
  unfold write_order. cbn [fst]. split; [|split; [|split; [|done]]].
  - apply read_word_other. simpl length. lia.
  - cbn [memory write_bytes with_memory]. unfold store at 1. rewrite Z.leb_refl, (proj2 (Z.ltb_lt _ _)) by (simpl; lia).
    by rewrite Z.sub_diag.
  - intros x Hx. cbn [memory write_bytes with_memory]. apply store_other. simpl length. lia.
Qed.

Lemma header_ext s s' i k :
  0 <= k -> (forall x, in_block i k x -> memory s' x = memory s x) ->
  read_word s' (block_at a i) = read_word s (block_at a i) /\
  memory s' (block_at a i + 8) = memory s (block_at a i + 8).
Proof.
  intros Hk Hm. pose proof (pow_pos k Hk). unfold read_word.
  rewrite (load_ext (memory s) (memory s')); [split; [done|]|]; intros; apply Hm; unfold in_block, UNIT_BYTES; lia.
Qed.

Lemma payload_bytes_eq k : 0 <= k -> payload_bytes k = UNIT_BYTES * 2 ^ k - HEADER_BYTES.
Proof.
  intros. unfold payload_bytes. rewrite Z.shiftl_mul_pow2, Z.pow_add_r by lia. unfold UNIT_BYTES, HEADER_BYTES.
  change (32 / 2) with 16. lia.
Qed.

Lemma payload_in i k x : 0 <= k -> 0 <= x < payload_bytes k -> in_block i k (payload_at a i + x).
Proof. intros Hk Hx. rewrite payload_bytes_eq in Hx by done. unfold in_block. places. lia. Qed.

Lemma block_disjoint {G i k c j l d x} :
  tiled (units a) G -> G !! i = Some (k, c) -> G !! j = Some (l, d) -> i <> j ->
  in_block i k x -> in_block j l x -> False.
Proof.
  intros HG Hi Hj Hne Hx Hx'. destruct (block_unit HG Hi Hx) as (_ & _ & u & Hu & Hux).
  destruct (block_unit HG Hj Hx') as (_ & _ & v & Hv & Hvx). destruct Hne.
  assert (u = v) as -> by (by eapply in_unit_inj). by eapply (tile_one HG v).
Qed.

(** The held block becomes live with its header; only its bytes are written. *)
Lemma publish s s' G F i k :
  tiled (units a) G -> repr a s G F -> coalesced G -> G !! i = Some (k, Held) ->
  (forall j l, G !! j = Some (l, Held) -> j = i) ->
  (forall j l, G !! j = Some (l, Live) -> read_word s (block_at a j) = address a /\ memory s (block_at a j + 8) = l) ->
  heads s' = heads s -> (forall x, ~ in_block i k x -> memory s' x = memory s x) ->
  read_word s' (block_at a i) = address a -> memory s' (block_at a i + 8) = k ->
  arena_ok s' (<[i := (k, Live)]> G) F.
Proof.
  intros HG HR Hc Hi Hheld Hhead Hh Hm Ha Ho. split.
  - by eapply tiled_retag.
  - apply (repr_idle a (s := s') (G := G)).
    + eapply repr_ext; [done|exact HR|done|]. intros x Hx. apply Hm. intros Hb.
      destruct (block_unit HG Hi Hb) as (Hnc & _ & u & Hu & Hux). destruct Hx as [?|(v & (j & l & Hj & Hjv) & Hvx)]; [done|].
      assert (v = u) as -> by (by eapply in_unit_inj). assert (i = j) as -> by (by eapply (tile_one HG u)). congruence.
    + intros j l. rewrite lookup_insert_Some. split; [naive_solver|]. intros Hj. right. split; [congruence|done].
  - by apply coalesced_retag.
  - intros j l. rewrite lookup_insert_Some. intros [[_ ?]|[Hne ?%Hheld]]; done.
  - intros j l. rewrite lookup_insert_Some. intros [[<- [= <-]]|[Hne Hj]]; [done|].
    destruct (Hhead j l Hj) as [E1 E2]. destruct (tile_ok HG Hj) as (Hl & _).
    destruct (header_ext s s' j l) as [-> ->]; [lia| |done]. intros x Hx. apply Hm. intros Hxi.
    by eapply (block_disjoint HG Hi Hj).
Qed.

(** The live blocks' headers outlast what leaves their bytes. *)
Lemma headers_kept {G F Q s s'} (G' : Tiling) :
  arena_ok s G F -> kept a Q s s' -> (forall u, Q u -> covered G Idle u) ->
  (forall j l, G' !! j = Some (l, Live) -> G !! j = Some (l, Live)) ->
  forall j l, G' !! j = Some (l, Live) -> read_word s' (block_at a j) = address a /\ memory s' (block_at a j + 8) = l.
Proof.
  intros HA Hk HQ Hl j l Hj%Hl. pose proof (ok_tiled _ _ _ HA) as HG. destruct (tile_ok HG Hj) as (Hl0 & _).
  destruct (header_ext s s' j l) as [-> ->]; [lia| |by apply (ok_header _ _ _ HA)].
  apply (kept_block HG Hj Hk). intros u Hu%HQ. by left.
Qed.

Lemma idle_sub {G G' : Tiling} {i} :
  tiled (units a) G -> tiled (units a) G' ->
  (forall j l, G' !! j = Some (l, Live) <-> G !! j = Some (l, Live)) ->
  (forall j l, G !! j = Some (l, Held) -> j = i) ->
  forall c u, c <> Live -> covered G' c u -> covered G Idle u \/ exists k, G !! i = Some (k, Held) /\ extent i k u.
Proof.
  intros HG HG' Hl Hh c u Hc (j & l & Hj & Hju). destruct (tile_all HG u) as (e & k & d & He & Heu).
  { destruct (tile_ok HG' Hj) as (_ & _ & ? & ?). unfold extent in Hju. lia. }
  destruct d; [left; by exists e, k| |right; rewrite <- (Hh e k He); by exists k].
  apply Hl in He. assert (e = j) as -> by (by eapply (tile_one HG' u)). congruence.
Qed.

(** ** Allocating *)

(** Every aligned extent of the order has a unit of a live block other than [but]. *)
Definition full (G : Tiling) (but : Z -> Prop) (k : Z) : Prop :=
  forall e, 0 <= e -> (2 ^ k | e) -> e + 2 ^ k <= units a ->
  exists x j l, extent e k x /\ G !! j = Some (l, Live) /\ ~ but j /\ extent j l x.

Lemma no_idle_full G k :
  tiled (units a) G -> coalesced G -> (forall i l, G !! i <> Some (l, Held)) -> 0 <= k ->
  (forall i l, G !! i = Some (l, Idle) -> l < k) ->
  forall e, 0 <= e -> (2 ^ k | e) -> e + 2 ^ k <= units a -> exists x, extent e k x /\ covered G Live x.
Proof.
  intros HG Hc Hs Hk Hno e He Ha Hu. pose proof (pow_pos k Hk).
  destruct (covered_or (n := Z.to_nat (2 ^ k)) HG He) as [Hall|(x & c & Hx & Hci & Hcx)]; [lia| |].
  - destruct (free_wide HG Hc Hk Ha) as (i & l & Hi%Hno & Hl & _); [|lia]. intros x Hx. apply Hall. unfold extent in Hx. lia.
  - exists x. split; [unfold extent; lia|]. destruct c; [done|done|]. destruct Hcx as (i & l & Hi & _). by destruct (Hs i l).
Qed.

Lemma live_iff_insert (G : Tiling) i k c :
  c <> Live -> G !! i = Some (k, c) ->
  forall j l, <[i := (k, Live)]> G !! j = Some (l, Live) <-> (j = i /\ l = k) \/ G !! j = Some (l, Live).
Proof.
  intros Hc Hi j l. rewrite lookup_insert_Some. split; [naive_solver|]. intros [[-> ->]|Hj]; [auto|].
  right. split; [congruence|done].
Qed.

(** A block is taken from the idle ones, or none of the order is left. *)
Lemma allocate_spec s G F k :
  arena_ok s G F -> 0 <= k <= MAX_ORDER ->
  match allocate a s k with
  | (s', p) =>
      (p = 0 /\ s' = s /\ full G (fun _ => False) k) \/
      (exists i G' F', p = payload_at a i /\ arena_ok s' G' F' /\ 0 <= i /\ G !! i <> Some (k, Live) /\
        (forall j l, G' !! j = Some (l, Live) <-> (j = i /\ l = k) \/ G !! j = Some (l, Live)) /\
        (forall j l, G !! j = Some (l, Live) -> j <> i) /\
        kept a (covered G Idle) s s' /\ references s' = references s + 1)
  end.
Proof.
  intros HA Hk. pose proof HA as [HG HR Hc Hs Hh]. pose proof (reserve_spec a small s G F k HG HR Hc Hk) as Hres.
  unfold allocate. destruct (reserve a s k) as [[s1 i]|].
  - destruct Hres as (G1 & F1 & [HG1 HR1 Hc1 Hl1 Hh1 Hk1 Hr1] & Hi & Hx).
    pose proof (write_header s1 i k) as (Ha & Ho & Hm & Hhd & Hrf).
    destruct (write a s1 i k) as [s2 p] eqn:Ew. cbn [fst] in *. right.
    assert (p = payload_at a i) as -> by (unfold write, write_order in Ew; congruence).
    destruct (tile_ok HG1 Hi) as (Hk0 & _ & Hi0 & _). pose proof (pow_pos k (proj1 Hk0)).
    assert (forall x, ~ in_block i k x -> memory s2 x = memory s1 x) as Hm'.
    { intros x Hx'. apply Hm. unfold in_block in Hx'. places. lia. }
    exists i, (<[i := (k, Live)]> G1), F1. split; [done|]. split_and!.
    + apply (publish s1); try done.
      * intros j l [?|Hj]%Hh1; [done|]. by destruct (Hs j l).
      * eapply headers_kept; [exact HA|exact Hk1|done|]. intros j l. apply Hl1.
    + done.
    + intros Hg. apply Hl1 in Hg. congruence.
    + intros j l. rewrite (live_iff_insert G1 i k Held) by done. by rewrite Hl1.
    + intros j l Hj ->. apply Hl1 in Hj. congruence.
    + intros x Hc' Hq. cbn [memory]. rewrite Hm'; [by apply Hk1|]. intros Hb.
      destruct (block_unit HG1 Hi Hb) as (_ & _ & u & Hu & Hux). by apply (Hq u (Hx u Hu)).
    + cbn [references]. by rewrite Hrf, Hr1.
  - left. split; [done|]. split; [done|]. intros e He Ha Hu.
    destruct (no_idle_full G k HG Hc Hs (proj1 Hk) Hres e He Ha Hu) as (x & Hx & j & l & Hj & Hjx).
    exists x, j, l. split_and!; try done. by intros [].
Qed.

(** ** Releasing *)

(** The live blocks after one of them is gone. *)
Definition live_but (G : Tiling) (i j l : Z) : Prop := j <> i /\ G !! j = Some (l, Live).

(** A live block leaves its bytes to the idle ones. *)
Lemma recycled_spec s G F i k :
  arena_ok s G F -> G !! i = Some (k, Live) ->
  exists G' F', arena_ok (recycle_all a s {| index := i; order := k |}) G' F' /\
    (forall j l, G' !! j = Some (l, Live) <-> live_but G i j l) /\
    kept a (taking G i k) s (recycle_all a s {| index := i; order := k |}) /\
    references (recycle_all a s {| index := i; order := k |}) = references s.
Proof.
  intros HA Hi. pose proof HA as [HG HR Hc Hs Hh]. unfold recycle_all.
  set (G0 := <[i := (k, Held)]> G). assert (tiled (units a) G0) as HG0 by (by eapply tiled_retag).
  assert (forall j l c, c <> Held -> G0 !! j = Some (l, c) <-> j <> i /\ G !! j = Some (l, c)) as Hl0.
  { intros j l c Hch. unfold G0. rewrite lookup_insert_Some. split; [intros [[_ ?]|[? ?]]; [congruence|done]|].
    intros [? ?]. right. done. }
  assert (forall j l, G0 !! j = Some (l, Idle) <-> G !! j = Some (l, Idle)) as Hid.
  { intros j l. rewrite Hl0 by done. split; [by intros [_ ?]|]. intros Hj. split; [congruence|done]. }
  destruct (recycle_spec a small (Z.to_nat ORDERS) s G0 F i k) as (G' & F' & [HG' HR' Hc' Hl' Hh' Hk' Hr']).
  - done.
  - by eapply repr_idle.
  - by apply coalesced_retag.
  - apply lookup_insert_eq.
  - unfold ORDERS. destruct (tile_ok HG Hi). lia.
  - set (s' := recycle _ _ _ _) in *.
    assert (forall j l, G' !! j = Some (l, Live) <-> live_but G i j l) as Hlive by (intros j l; by rewrite Hl', Hl0).
    assert (kept a (taking G i k) s s') as Hkept.
    { eapply kept_sub; [exact Hk'|]. intros x [(j & l & Hj%Hid & Hx)|Hx]; [left; by exists j, l|by right]. }
    exists G', F'. split; [|done]. split; try done.
    + intros j l [Hj Hne]%Hh'. unfold G0 in Hj. rewrite lookup_insert_ne in Hj by done. by destruct (Hs j l).
    + intros j l [Hne Hj]%Hlive. destruct (tile_ok HG Hj) as (Hl & _).
      destruct (header_ext s s' j l) as [-> ->]; [lia| |by apply Hh].
      apply (kept_block HG Hj Hkept). intros u [?|Hu]; [by left|right]. by exists i, k, Live.
Qed.

(** ** Growing *)

(** What growing promises: the contents of the old block begin the new one's. *)
Definition grown (G : Tiling) (i k target : Z) (s s' : State) (p : Z) : Prop :=
  exists i' G' F', p = payload_at a i' /\ arena_ok s' G' F' /\ 0 <= i' /\
    (forall j l, G' !! j = Some (l, Live) <-> (j = i' /\ l = target) \/ live_but G i j l) /\
    (forall j l, live_but G i j l -> j <> i') /\
    kept a (taking G i k) s s' /\
    (forall x, 0 <= x < payload_bytes k -> memory s' (payload_at a i' + x) = memory s (payload_at a i + x)) /\
    references s' = references s.

Lemma copied s from to n x :
  0 <= x < n -> memory (copy s from to n) (to + x) = memory s (from + x).
Proof.
  intros Hx. unfold copy. cbn [memory write_bytes with_memory]. unfold store. rewrite load_length.
  rewrite (proj2 (Z.leb_le _ _)), (proj2 (Z.ltb_lt _ _)) by lia. cbn [andb]. unfold load.
  apply nth_lookup_Some. rewrite list_lookup_fmap, lookup_seq_lt by lia. cbn [fmap option_fmap option_map].
  do 2 f_equal. lia.
Qed.

Lemma copied_other s from to n x :
  0 <= n -> ~ (to <= x < to + n) -> memory (copy s from to n) x = memory s x.
Proof. intros Hn Hx. apply store_other. rewrite load_length. lia. Qed.

(** A held block of the target's order takes the header and the contents. *)
Lemma grown_here s s1 s2 G G1 F F1 i k i' target :
  arena_ok s G F -> G !! i = Some (k, Live) -> k < target ->
  tiled (units a) G1 -> repr a s1 G1 F1 -> coalesced G1 -> G1 !! i' = Some (target, Held) ->
  (forall j l, G1 !! j = Some (l, Held) -> j = i') ->
  (forall j l, G1 !! j = Some (l, Live) <-> live_but G i j l) ->
  kept a (covered G Idle) s s1 -> references s1 = references s ->
  heads s2 = heads s1 -> references s2 = references s1 -> (forall x, ~ in_block i' target x -> memory s2 x = memory s1 x) ->
  read_word s2 (block_at a i') = address a -> memory s2 (block_at a i' + 8) = target ->
  (forall x, 0 <= x < payload_bytes k -> memory s2 (payload_at a i' + x) = memory s (payload_at a i + x)) ->
  grown G i k target s s2 (payload_at a i').
Proof.
  intros HA Hi Hkt HG1 HR1 Hc1 Hi' Hh1 Hl1 Hk1 Hr1 Hhd Hrf Hm Ha Ho Hx. pose proof HA as [HG HR Hc Hs Hh].
  destruct (tile_ok HG1 Hi') as (Ht & _ & Hi0 & _).
  assert (forall u, extent i' target u -> taking G i k u) as Htake.
  { intros u Hu. destruct (tile_all HG u) as (e & l & d & He & Heu).
    { eapply (covered_unit HG1). by exists i', target. }
    destruct d; [left; by exists e, l| |by destruct (Hs e l)].
    destruct (decide (e = i)) as [->|Hne]; [right; congruence|].
    assert (G1 !! e = Some (l, Live)) as He1 by (by apply Hl1).
    assert (e = i') as -> by (by eapply (tile_one HG1 u)). congruence. }
  exists i', (<[i' := (target, Live)]> G1), F1. split; [done|]. split_and!; try done.
  - apply (publish s1); try done. eapply (headers_kept (s := s)); [exact HA|exact Hk1|done|].
    intros j l Hj. by apply Hl1 in Hj as [_ ?].
  - intros j l. rewrite (live_iff_insert G1 i' target Held) by done. by rewrite Hl1.
  - intros j l Hj%Hl1 ->. congruence.
  - intros x Hcx Hq. rewrite Hm.
    + apply Hk1; [done|]. intros u Hu. apply Hq. by left.
    + intros Hb. destruct (block_unit HG1 Hi' Hb) as (_ & _ & u & Hu & Hux). by apply (Hq u (Htake u Hu)).
  - by rewrite Hrf.
Qed.

(** A live block of the extent of [i] at an order, other than its own. *)
Definition crowded (G : Tiling) (i target : Z) : Prop :=
  exists x j l, extent (start_of i target) target x /\ live_but G i j l /\ extent j l x.

Lemma not_adjacent s G F i k target :
  arena_ok s G F -> G !! i = Some (k, Live) -> k < target <= MAX_ORDER ->
  start_of i target + 2 ^ target <= units a -> all_free a (Z.to_nat (target - k)) s i k = false ->
  crowded G i target.
Proof.
  intros [HG HR Hc Hs Hh] Hi Ht Hu Hall. unfold MAX_ORDER in *. destruct (tile_ok HG Hi) as (Hk & Ha & Hi0 & Hiu).
  destruct (all_free_false a (Z.to_nat (target - k)) s G F i k) as (q & Hq & Hb); [done..|lia|lia| |done|].
  { by replace (k + Z.of_nat (Z.to_nat (target - k))) with target by lia. }
  assert (0 <= q < target) as Hq' by lia. pose proof (start_aligned i q) as Has.
  pose proof (start_nonneg i q ltac:(lia) Hi0) as Hs0. destruct (merged (start_of i q) q ltac:(lia) Hs0 Has) as (_ & _ & He).
  rewrite <- start_up in He by lia. pose proof (pow_pos q ltac:(lia)). pose proof (pow_pos target ltac:(lia)).
  destruct (nested (start_of i (q + 1)) (q + 1) (start_of i target) target i) as [Hlo Hhi];
    [lia|apply start_aligned..|apply start_extent; lia|apply start_extent; lia|].
  set (b := buddy (start_of i q) q) in *.
  assert (forall x, extent b q x -> extent (start_of i target) target x) as Hsub.
  { intros x Hx. assert (extent (start_of i (q + 1)) (q + 1) x) by (apply He; by right). unfold extent in *. lia. }
  assert (0 <= b) as Hb0 by (apply buddy_nonneg; lia).
  assert (b + 2 ^ q <= units a) as Hbu.
  { assert (extent (start_of i target) target (b + 2 ^ q - 1)) as Hx by (apply Hsub; unfold extent; lia).
    unfold extent in Hx. lia. }
  destruct (covered_or (n := Z.to_nat (2 ^ q)) HG Hb0) as [Hidle|(x & c & Hx & Hci & (j & l & Hj & Hjx))]; [lia| |].
  - destruct Hb. apply (sibling_idle HG Hc Hi); [done|lia|]. intros x Hx. apply Hidle. unfold extent in Hx. lia.
  - assert (extent b q x) as Hbx by (unfold extent; lia).
    destruct c; [done| |by destruct (Hs j l)]. exists x, j, l. split; [by apply Hsub|]. split; [|done]. split; [|done].
    intros ->. simplify_eq. by apply (sibling_apart i k q x) in Hbx; [|lia|..].
Qed.

Lemma grow_adjacent_spec s G F i k target :
  arena_ok s G F -> G !! i = Some (k, Live) -> k < target <= MAX_ORDER ->
  match grow_adjacent a s {| index := i; order := k |} target with
  | Some (s', p) => grown G i k target s s' p
  | None => start_of i target + 2 ^ target <= units a -> crowded G i target
  end.
Proof.
  intros HA Hi Ht. pose proof HA as [HG HR Hc Hs Hh]. destruct (tile_ok HG Hi) as (Hk & Ha & Hi0 & Hiu).
  destruct (Hh i k Hi) as [Haddr Hord].
  unfold grow_adjacent. cbn [index order]. rewrite Z.shiftl_1_l, start_land by (unfold MAX_ORDER in *; lia).
  destruct (Z.ltb_spec (units a - start_of i target) (2 ^ target)) as [Hw|Hw]; [lia|].
  destruct (all_free a _ s i k) eqn:Hall; cbn [negb].
  2: { intros Hu. by apply (not_adjacent s G F i k target). }
  assert (k + Z.of_nat (Z.to_nat (target - k)) = target) as Et by lia. unfold MAX_ORDER in *.
  assert (forall q, k <= q < target -> G !! buddy (start_of i q) q = Some (q, Idle)) as Hsib.
  { intros q Hq. eapply (all_free_spec a (Z.to_nat (target - k)) s G F i k); try done; rewrite ?Et; (done || lia). }
  set (G0 := <[i := (k, Held)]> G). assert (tiled (units a) G0) as HG0 by (by eapply tiled_retag).
  assert (start_of i k = i) as Hik by (apply start_same; lia || done).
  assert (forall j l c, G0 !! j = Some (l, c) <-> (j = i /\ l = k /\ c = Held) \/ (j <> i /\ G !! j = Some (l, c))) as Hl0.
  { intros j l c. unfold G0. rewrite lookup_insert_Some. naive_solver. }
  assert (forall j l, G0 !! j = Some (l, Idle) <-> G !! j = Some (l, Idle)) as Hid.
  { intros j l. rewrite Hl0. split; [by intros [(_ & _ & ?)|[_ ?]]|]. intros Hj. right. split; [congruence|done]. }
  destruct (unlink_all_spec a small (Z.to_nat (target - k)) s G0 F i k) as (G1 & F1 & [HG1 HR1 Hc1 Hl1 Hh1 Hk1 Hr1] & Hi1);
    [done|by eapply repr_idle|by apply coalesced_retag|done|lia|rewrite Hik; apply lookup_insert_eq| |].
  { intros q Hq. apply Hid, Hsib. lia. }
  rewrite Et in Hi1. rewrite Et, Hik in Hh1. set (s1 := unlink_all a _ s i k) in *. set (b := start_of i target) in *.
  assert (kept a (covered G Idle) s s1) as Hks.
  { eapply kept_sub; [exact Hk1|]. intros x (j & l & Hj%Hid & Hx). by exists j, l. }
  assert (forall x, in_block i k x -> memory s1 x = memory s x) as Hold.
  { apply (kept_block HG Hi Hks). by left. }
  assert (forall x, 0 <= x < payload_bytes k -> memory s1 (payload_at a i + x) = memory s (payload_at a i + x)) as Hpay.
  { intros x Hx. apply Hold, payload_in; [lia|done]. }
  pose proof (pow_pos k (proj1 Hk)) as Hpk. pose proof (Z.pow_lt_mono_r 2 k target ltac:(lia) ltac:(lia) ltac:(lia)) as Hpt.
  assert (forall j l, G1 !! j = Some (l, Held) -> j = b) as Hh1'.
  { intros j l [?|[Hj Hne]]%Hh1; [done|]. apply Hl0 in Hj as [(? & _)|[_ Hj]]; [done|by destruct (Hs j l)]. }
  assert (forall j l, G1 !! j = Some (l, Live) <-> live_but G i j l) as Hl1'.
  { intros j l. rewrite Hl1, Hl0. unfold live_but. naive_solver. }
  destruct (Z.eqb_spec b i) as [Hbi|Hbi].
  - pose proof (order_header s1 i target) as (E1 & E2 & E3 & E4 & E5).
    destruct (write_order a s1 i target) as [s2 p] eqn:Ew. cbn [fst] in *.
    assert (p = payload_at a i) as -> by (unfold write_order in Ew; congruence).
    rewrite Hbi in Hi1, Hh1'. apply (grown_here s s1 s2 G G1 F F1); try done; [lia|..].
    + intros x Hx. apply E3. intros ->. apply Hx. unfold in_block, UNIT_BYTES. lia.
    + rewrite E1. destruct (header_ext s s1 i k) as [-> _]; [lia|done|done].
    + intros x Hx. rewrite E3 by (places; lia). by apply Hpay.
  - assert (b + 2 ^ k <= i) as Hbk.
    { destruct (nested i k b target i) as [? _]; [lia|done|apply start_aligned|by apply (tile_start HG Hi)|apply start_extent; lia|].
      destruct Ha as [qi Hqi]. destruct (start_aligned i target) as [qb Hqb]. fold b in Hqb.
      replace target with (target - k + k) in Hqb by lia. rewrite Z.pow_add_r in Hqb by lia.
      assert (qb * 2 ^ (target - k) < qi); [|nia]. nia. }
    pose proof (write_header s1 b target) as (E1 & E2 & E3 & E4 & E5).
    destruct (write a s1 b target) as [s2 p] eqn:Ew. cbn [fst] in *.
    assert (p = payload_at a b) as -> by (unfold write, write_order in Ew; congruence).
    pose proof (payload_bytes_eq k (proj1 Hk)) as Epk. unfold UNIT_BYTES, HEADER_BYTES in Epk, E3.
    set (s3 := copy s2 _ _ _).
    assert (forall x, ~ (payload_at a b <= x < payload_at a b + payload_bytes k) -> memory s3 x = memory s2 x) as Hcp.
    { intros x Hx. apply copied_other; [lia|done]. }
    apply (grown_here s s1 s3 G G1 F F1); try done; [lia|..].
    + intros x Hx. unfold in_block in Hx. rewrite Hcp, E3; [done|places; lia..].
    + rewrite <- E1. unfold read_word. rewrite (load_ext (memory s2)); [done|]. intros x Hx. apply Hcp. places. lia.
    + rewrite Hcp; [done|]. places. lia.
    + intros x Hx. unfold s3. rewrite copied by done. rewrite E3 by (places; lia). by apply Hpay.
Qed.

(** The new block elsewhere, with the contents; the old one goes back. *)
Lemma replace_spec s s1 G G1 F F1 i k i' target :
  arena_ok s G F -> G !! i = Some (k, Live) -> k < target ->
  stepped a (covered G Idle) (fun j l => j = i' \/ G !! j = Some (l, Held)) G s G1 F1 s1 ->
  G1 !! i' = Some (target, Held) -> (forall x, extent i' target x -> covered G Idle x) ->
  match replace a s1 i' target {| index := i; order := k |} with
  | (s', p) => grown G i k target s s' p
  end.
Proof.
  intros HA Hi Hkt [HG1 HR1 Hc1 Hl1 Hh1 Hk1 Hr1] Hi' Hx. pose proof HA as [HG HR Hc Hs Hh].
  destruct (tile_ok HG Hi) as (Hk & _). destruct (tile_ok HG1 Hi') as (Ht & _ & Hi0 & _).
  pose proof (payload_bytes_eq k (proj1 Hk)) as Epk. unfold UNIT_BYTES, HEADER_BYTES in Epk.
  pose proof (pow_pos k (proj1 Hk)). pose proof (Z.pow_lt_mono_r 2 k target ltac:(lia) ltac:(lia) ltac:(lia)).
  unfold replace. cbn [index order]. pose proof (write_header s1 i' target) as (E1 & E2 & E3 & E4 & E5).
  destruct (write a s1 i' target) as [s2 p] eqn:Ew. cbn [fst] in *.
  assert (p = payload_at a i') as -> by (unfold write, write_order in Ew; congruence).
  set (s3 := copy s2 _ _ _). unfold HEADER_BYTES in E3.
  assert (forall x, ~ (payload_at a i' <= x < payload_at a i' + payload_bytes k) -> memory s3 x = memory s2 x) as Hcp.
  { intros x Hx'. apply copied_other; [lia|done]. }
  assert (forall x, ~ in_block i' target x -> memory s3 x = memory s1 x) as Hm3.
  { intros x Hx'. unfold in_block in Hx'. rewrite Hcp, E3; [done|places; lia..]. }
  assert (G1 !! i = Some (k, Live)) as Hi1 by (by apply Hl1).
  assert (i <> i') as Hne by congruence.
  set (G2 := <[i' := (target, Live)]> G1).
  assert (arena_ok s3 G2 F1) as HA2.
  { apply (publish s1); try done.
    - intros j l [?|Hj]%Hh1; [done|]. by destruct (Hs j l).
    - eapply (headers_kept (s := s)); [exact HA|exact Hk1|done|]. intros j l. apply Hl1.
    - rewrite <- E1. unfold read_word. rewrite (load_ext (memory s2)); [done|]. intros x Hx'. apply Hcp. places. lia.
    - rewrite Hcp; [done|]. places. lia. }
  assert (forall j l, G2 !! j = Some (l, Live) <-> (j = i' /\ l = target) \/ G !! j = Some (l, Live)) as Hl2.
  { intros j l. unfold G2. rewrite (live_iff_insert G1 i' target Held) by done. by rewrite Hl1. }
  assert (G2 !! i = Some (k, Live)) as Hi2 by (apply Hl2; by right).
  destruct (recycled_spec s3 G2 F1 i k HA2 Hi2) as (G3 & F3 & HA3 & Hl3 & Hk3 & Hr3).
  set (s4 := recycle_all a s3 _) in *.
  exists i', G3, F3. split; [done|]. split_and!; try done.
  - intros j l. rewrite Hl3. unfold live_but. rewrite Hl2. split.
    + intros [? [?|?]]; auto.
    + intros [[-> ->]|[? ?]]; (split; [done|auto]).
  - intros j l [_ Hj] ->. apply Hl1 in Hj. congruence.
  - intros x Hcx Hq. rewrite Hk3; [|done|].
    + rewrite Hm3; [apply Hk1; [done|]; intros u Hu; apply Hq; by left|].
      intros Hb. destruct (block_unit HG1 Hi' Hb) as (_ & _ & u & Hu & Hux). apply (Hq u); [left; by apply Hx|done].
    + intros u [Hu|Hu]; [|apply Hq; by right].
      destruct (idle_sub (i := i) HG HG1 Hl1 ltac:(intros j l Hj; by destruct (Hs j l)) Idle u) as [Hg|(l & Hl & _)]; [done| | |].
      * destruct Hu as (j & l & Hj & Hju). exists j, l. split; [|done].
        unfold G2 in Hj. rewrite lookup_insert_Some in Hj. by destruct Hj as [[_ ?]|[_ ?]].
      * apply Hq. by left.
      * by destruct (Hs i l).
  - intros x Hx'. assert (in_block i k (payload_at a i + x)) as Hb by (apply payload_in; [lia|done]).
    assert (in_block i' target (payload_at a i' + x)) as Hb'.
    { apply payload_in; [lia|]. rewrite payload_bytes_eq by lia. unfold UNIT_BYTES, HEADER_BYTES. lia. }
    assert (G2 !! i' = Some (target, Live)) as Hi2' by apply lookup_insert_eq.
    rewrite (kept_block (ok_tiled _ _ _ HA2) Hi2' Hk3); [|intros u [?|Hu]; [by left|right; by exists i, k, Live]|done].
    unfold s3. rewrite copied by done. rewrite E3.
    + apply (kept_block HG Hi Hk1); [by left|done].
    + intros Hh'. apply (block_disjoint HG1 Hi1 Hi' Hne Hb). unfold in_block, UNIT_BYTES. lia.
  - rewrite Hr3. unfold s3. cbn. lia.
Qed.

(** A live block grows in place, moves with its contents, or no extent had room. *)
Lemma grow_spec s G F i k target :
  arena_ok s G F -> G !! i = Some (k, Live) -> k < target <= MAX_ORDER ->
  match grow a s {| index := i; order := k |} target with
  | (s', p) => (p = 0 /\ s' = s /\ full G (fun j => j = i) target) \/ grown G i k target s s' p
  end.
Proof.
  intros HA Hi Ht. pose proof HA as [HG HR Hc Hs Hh]. destruct (tile_ok HG Hi) as (Hk & Ha & Hi0 & Hiu).
  unfold grow. pose proof (grow_adjacent_spec s G F i k target HA Hi Ht) as Hadj.
  destruct (grow_adjacent a s _ target) as [[s' p]|]; [by right|].
  pose proof (reserve_spec a small s G F target HG HR Hc ltac:(lia)) as Hres.
  destruct (reserve a s target) as [[s1 i']|].
  - destruct Hres as (G1 & F1 & Hst & Hi' & Hx).
    pose proof (replace_spec s s1 G G1 F F1 i k i' target HA Hi ltac:(lia) Hst Hi' Hx) as Hrep.
    destruct (replace a s1 i' target _) as [s' p]. by right.
  - left. split; [done|]. split; [done|]. intros e He Hae Hu. pose proof (pow_pos k (proj1 Hk)).
    destruct (no_idle_full G target HG Hc Hs ltac:(lia) Hres e He Hae Hu) as (x & Hx & j & l & Hj & Hjx).
    destruct (tile_start HG Hi) as [_ Hii].
    destruct (decide (e = start_of i target)) as [->|Hne].
    + destruct (Hadj Hu) as (y & j' & l' & Hy & [? Hj'] & Hjy). exists y, j', l'. by split_and!.
    + exists x, j, l. split; [done|]. split; [done|]. split; [|done]. intros ->. simplify_eq.
      destruct (nested i k e target x) as [? ?]; [lia|done..|].
      assert (extent e target i) as Hei by (unfold extent; lia).
      pose proof (start_extent i target ltac:(lia)) as Hsi. pose proof (start_aligned i target) as Hsa.
      destruct (nested e target (start_of i target) target i ltac:(lia) Hae Hsa Hei Hsi).
      destruct (nested (start_of i target) target e target i ltac:(lia) Hsa Hae Hsi Hei). lia.
Qed.

(** ** The initial arena *)

(** The powers of two of the units: aligned, of different orders, and everywhere. *)
Record parted (off left : Z) (l : list Segment) : Prop := {
  part_in : forall b, b ∈ l -> (2 ^ order b | index b) /\ 0 <= order b /\ off <= index b /\ index b + 2 ^ order b <= off + left;
  part_all : forall x, off <= x < off + left -> exists b, b ∈ l /\ extent (index b) (order b) x;
  part_one : forall b c x, b ∈ l -> c ∈ l -> extent (index b) (order b) x -> extent (index c) (order c) x -> b = c;
  part_order : forall b c, b ∈ l -> c ∈ l -> order b = order c -> b = c;
  part_nodup : NoDup (index <$> l) }.

Lemma partition_parted fuel off left K :
  0 <= off -> 0 <= left -> left < 2 ^ Z.of_nat fuel -> left < 2 ^ K -> 0 <= K <= 26 -> (2 ^ K | off) ->
  parted off left (partition fuel off left).
Proof.
  revert off left K. induction fuel as [|fuel IH]; intros off left K Ho Hl Hf HK HK0 Ha; cbn [partition].
  { simpl in Hf. split; try (intros; set_solver); [|constructor]. intros x Hx. lia. }
  destruct (Z.eqb_spec left 0) as [->|Hn]; [split; try (intros; set_solver); [|constructor]; intros x Hx; lia|].
  pose proof (Z.log2_nonneg left) as Hk0. destruct (Z.log2_spec left ltac:(lia)) as [Hlo Hhi]. set (k := Z.log2 left) in *.
  assert (k < K) as HkK by (apply (Z.pow_lt_mono_r_iff 2); lia).
  assert (k <= Z.of_nat fuel) as Hkf.
  { destruct (Z_le_gt_dec k (Z.of_nat fuel)); [done|]. pose proof (Z.pow_le_mono_r 2 (Z.of_nat (Datatypes.S fuel)) k). lia. }
  rewrite level_masked, Z.shiftl_1_l by (unfold ORDERS; lia). pose proof (pow_pos k Hk0).
  replace (2 ^ Z.succ k) with (2 * 2 ^ k) in Hhi by (rewrite Z.pow_succ_r by lia; lia).
  assert (2 ^ k | off) as Hak.
  { destruct Ha as [q ->]. exists (q * 2 ^ (K - k)). rewrite <- Z.mul_assoc, <- Z.pow_add_r by lia. do 2 f_equal. lia. }
  destruct (IH (off + 2 ^ k) (left - 2 ^ k) k) as [Hin Hall Hone Hord Hnd]; try lia.
  { pose proof (Z.pow_le_mono_r 2 k (Z.of_nat fuel)). lia. }
  { destruct Hak as [q ->]. exists (q + 1). lia. }
  set (l := partition fuel _ _) in *. set (b0 := {| index := off; order := k |}).
  assert (forall b, b ∈ l -> order b < k) as Hlt.
  { intros b Hb. destruct (Hin b Hb) as (_ & ? & ? & ?). apply (Z.pow_lt_mono_r_iff 2); lia. }
  assert (forall b x, b ∈ l -> extent (index b) (order b) x -> extent off k x -> False) as Hap.
  { intros b x Hb Hx Hx'. destruct (Hin b Hb) as (_ & ? & ? & ?). unfold extent in *. lia. }
  split.
  - intros b [->|Hb]%elem_of_cons; [cbn; split_and!; (done || lia)|]. destruct (Hin b Hb) as (? & ? & ? & ?). split_and!; (done || lia).
  - intros x Hx. destruct (decide (x < off + 2 ^ k)).
    + exists b0. split; [set_solver|]. unfold extent. cbn. lia.
    + destruct (Hall x) as (b & Hb & Hbx); [lia|]. exists b. split; [set_solver|done].
  - intros b c x [->|Hb]%elem_of_cons [->|Hc]%elem_of_cons Hx Hx'; [done|exfalso; by eapply Hap|exfalso; by eapply Hap|by eapply Hone].
  - intros b c [->|Hb]%elem_of_cons [->|Hc]%elem_of_cons E; [done|..|by eapply Hord]; cbn in E.
    + specialize (Hlt c Hc). lia.
    + specialize (Hlt b Hb). lia.
  - rewrite fmap_cons. constructor; [|done]. intros (b & E & Hb)%list_elem_of_fmap. cbn in E.
    destruct (Hin b Hb) as (_ & _ & ? & _). lia.
Qed.

(** Its blocks are linked one by one; no two are buddies. *)
Lemma link_all s G F l :
  tiled (units a) G -> repr a s G F -> coalesced G -> NoDup (index <$> l) ->
  (forall b, b ∈ l -> G !! index b = Some (order b, Held)) ->
  (forall i k, G !! i = Some (k, Held) -> exists b, b ∈ l /\ index b = i) ->
  (forall i j k c d, G !! i = Some (k, c) -> G !! j = Some (k, d) -> i = j) ->
  (forall i k, G !! i <> Some (k, Live)) ->
  exists G' F', arena_ok (fold_left (link a) l s) G' F' /\ (forall i k, G' !! i <> Some (k, Live)) /\
    references (fold_left (link a) l s) = references s /\
    (forall x, ~ in_arena x -> memory (fold_left (link a) l s) x = memory s x).
Proof.
  revert s G F. induction l as [|[i k] l IH]; intros s G F HG HR Hc Hnd Hl Hh Ho Hlive; cbn [fold_left].
  - exists G, F. split; [|done]. split; try done.
    + intros i k Hi. destruct (Hh i k Hi) as (b & Hb & _). by apply elem_of_nil in Hb.
    + intros i k Hi. by destruct (Hlive i k).
  - assert (G !! i = Some (k, Held)) as Hi by (apply (Hl {| index := i; order := k |}); set_solver).
    destruct (tile_ok HG Hi) as (Hk & Ha & Hi0 & _).
    rewrite fmap_cons in Hnd. apply NoDup_cons in Hnd as [Hni Hnd]. cbn [index] in Hni.
    destruct (link_stepped a small s G F i k) as [HG1 HR1 Hc1 Hl1 Hh1 Hk1 Hr1]; [done..| |].
    { intros Hb. apply (buddy_ne i k); [lia|done|done|]. symmetry. by eapply Ho. }
    set (G1 := <[i := (k, Idle)]> G) in *.
    destruct (IH (link a s {| index := i; order := k |}) G1 (<[k := i :: F k]> F)) as (G' & F' & HA & Hlv & Hr & Hm); try done.
    + intros b Hb. unfold G1. rewrite lookup_insert_ne; [apply Hl; set_solver|]. intros ->. apply Hni.
      apply list_elem_of_fmap. by exists b.
    + intros j l' [Hj Hne]%Hh1. destruct (Hh j l' Hj) as (b & [->|Hb]%elem_of_cons & E); [by destruct Hne|by exists b].
    + intros j j' l' c d. unfold G1. rewrite !lookup_insert_Some.
      intros [[<- [= <- <-]]|[_ Hj]] [[<- [= <-]]|[_ Hj']]; [done|by eapply Ho..].
    + intros j l' Hj%Hl1. by destruct (Hlive j l').
    + exists G', F'. split; [done|]. split; [done|]. split; [by rewrite Hr|]. intros x Hx. rewrite Hm by done.
      apply (kept_outside Hk1); [|done]. intros u [Hu|Hu]; [by apply (covered_unit HG Hu)|].
      destruct (tile_ok HG Hi) as (_ & _ & _ & ?). unfold extent in Hu. lia.
Qed.

Lemma initialize_spec m :
  0 < units a ->
  exists G F, arena_ok (initialize a m) G F /\ (forall i k, G !! i <> Some (k, Live)) /\
    references (initialize a m) = 1 /\ (forall x, ~ in_arena x -> memory (initialize a m) x = m x).
Proof.
  intros Hu. unfold initialize. set (s0 := {| memory := _ |}). set (n := Datatypes.S _).
  assert (units a < 2 ^ Z.of_nat n) as Hn.
  { destruct (Z.log2_spec (units a) Hu) as [_ Hhi]. unfold n. pose proof (Z.log2_nonneg (units a)).
    replace (Z.of_nat (Datatypes.S (Z.to_nat (Z.log2 (units a))))) with (Z.succ (Z.log2 (units a))) by lia. done. }
  destruct (partition_parted n 0 (units a) 26) as [Hin Hall Hone Hord Hnd]; try lia; [by exists 0|].
  set (l := partition n 0 (units a)) in *.
  set (G := list_to_map ((fun b => (index b, (order b, Held))) <$> l) : Tiling).
  assert (forall b c, b ∈ l -> c ∈ l -> index b = index c -> b = c) as Hix.
  { intros b c Hb Hc E. destruct (Hin b Hb) as (_ & ? & _). destruct (Hin c Hc) as (_ & ? & _).
    pose proof (pow_pos (order b)). pose proof (pow_pos (order c)).
    apply (Hone b c (index b)); unfold extent; (done || lia). }
  assert (forall i k c, G !! i = Some (k, c) <-> exists b, b ∈ l /\ i = index b /\ k = order b /\ c = Held) as HG.
  { intros i k c. unfold G. rewrite <- elem_of_list_to_map.
    - rewrite list_elem_of_fmap. split; [intros (b & [= -> -> ->] & Hb); by exists b|].
      intros (b & Hb & -> & -> & ->). by exists b.
    - by rewrite <- list_fmap_compose. }
  destruct (link_all s0 G (fun _ => []) l) as (G' & F' & HA & Hlv & Hr & Hm).
  - split.
    + intros i k c (b & Hb & -> & -> & ->)%HG. destruct (Hin b Hb) as (? & ? & ? & ?). split_and!; (done || lia || idtac).
      apply Z.lt_succ_r, (Z.pow_lt_mono_r_iff 2); lia.
    + intros i k c j k' d x (b & Hb & -> & -> & ->)%HG (b' & Hb' & -> & -> & ->)%HG Hx Hx'. f_equal. by eapply Hone.
    + intros x Hx. destruct (Hall x) as (b & Hb & Hbx); [lia|]. exists (index b), (order b), Held. split; [|done].
      apply HG. by exists b.
  - split.
    + unfold s0. cbn [heads]. by rewrite length_replicate.
    + constructor.
    + intros k i. split; [by intros ?%elem_of_nil|]. intros (b & _ & _ & _ & ?)%HG. done.
    + intros k Hk. unfold head_of, s0. cbn [heads]. rewrite lookup_replicate_2; [done|]. unfold ORDERS in *. lia.
    + done.
    + intros i Hi. unfold control, s0. cbn [memory]. unfold store. rewrite length_replicate.
      rewrite (proj2 (Z.leb_le _ _)), (proj2 (Z.ltb_lt _ _)) by (places; lia). cbn [andb].
      assert (nth (Z.to_nat (control_at a i - (base a + units a * UNIT_BYTES))) (replicate (Z.to_nat (units a)) 0) 0 = 0) as ->.
      { apply nth_lookup_Some. apply lookup_replicate_2. places. lia. }
      destruct (G !! i) as [[k [| |]]|] eqn:E; try done. apply HG in E. destruct E as (_ & _ & _ & _ & ?). done.
  - intros i k. rewrite HG. by intros (_ & _ & _ & _ & ?).
  - done.
  - intros b Hb. apply HG. by exists b.
  - intros i k (b & Hb & -> & _)%HG. by exists b.
  - intros i j k c d (b & Hb & -> & -> & ->)%HG (b' & Hb' & -> & E & ->)%HG. f_equal. by apply Hord.
  - intros i k. rewrite HG. by intros (_ & _ & _ & _ & ?).
  - exists G', F'. split; [done|]. split; [done|]. split; [done|]. intros x Hx. rewrite Hm by done. unfold s0. cbn [memory].
    apply store_other. rewrite length_replicate. unfold in_arena in Hx. places. lia.
Qed.
End arena.
