(* ===== verification/SqStore.v ===== *)
(** * The SQLite heap as a store

    What SQLite gets from the hooks of [SqHeap]: a store of disjoint blocks with
    their contents, from the arena or from the system, whatever scope and origin are
    current when they are used. A client that keeps to what the store allows sees
    only what the store answers. *)
From stdpp Require Import gmap functions.
From S2P Require Import Prelude SqTiling SqHeap SqBlocks SqArena.

#[export] Instance origin_eq_dec : EqDecision Origin.Origin.
Proof. solve_decision. Defined.

(** ** The system's allocator *)

(** The bytes of its blocks are the same. *)
Definition same_live (L : gmap Z Z) (m m' : Z -> Z) : Prop :=
  forall p l x, L !! p = Some l -> p <= x < p + l -> m' x = m x.

(** What the system promises, for eight-byte alignment. *)
Class NativeLaws (N : Type) `{Native N} := {
  native_ok : N -> Prop;
  native_live : N -> gmap Z Z;
  native_block : forall n p l, native_ok n -> native_live n !! p = Some l -> 0 < p /\ 0 < l;
  native_apart : forall n p l q k, native_ok n -> native_live n !! p = Some l -> native_live n !! q = Some k ->
    p <> q -> p + l <= q \/ q + k <= p;
  native_allocated : forall n m size n' m' p, native_ok n -> 0 < size -> native_alloc n m size = (n', m', p) ->
    native_ok n' /\ same_live (native_live n) m m' /\
    (p = 0 /\ native_live n' = native_live n \/
     p <> 0 /\ (8 | p) /\ native_live n !! p = None /\ native_live n' = <[p := size]> (native_live n));
  native_dealloced : forall n m p size n' m', native_ok n -> native_live n !! p = Some size ->
    native_dealloc n m p size = (n', m') ->
    native_ok n' /\ native_live n' = delete p (native_live n) /\ same_live (native_live n') m m';
  native_realloced : forall n m p old new n' m' q, native_ok n -> native_live n !! p = Some old -> 0 < new ->
    native_realloc n m p old new = (n', m', q) ->
    native_ok n' /\
    (q = 0 /\ native_live n' = native_live n /\ same_live (native_live n) m m' \/
     q <> 0 /\ (8 | q) /\ (q = p \/ native_live n !! q = None) /\ native_live n' = <[q := new]> (delete p (native_live n)) /\
     same_live (delete p (native_live n)) m m' /\ (forall x, 0 <= x < Z.min old new -> m' (q + x) = m (p + x))) }.

(** ** The store *)

(** A block in use: where it came from, and its bytes. *)
Record Given := { home : Origin.Origin; contents : list Z }.

(** The blocks by pointer, whether a scope is entered, where allocations come from,
    now and after the operations outside that are running, and whether the runtime
    still has its share of the arena. *)
Record Store := {
  blocks : gmap Z Given; scoped : bool; source : Origin.Origin; calls : list Origin.Origin; retained : bool }.

Definition with_blocks (st : Store) (b : gmap Z Given) : Store :=
  {| blocks := b; scoped := scoped st; source := source st; calls := calls st; retained := retained st |}.

Inductive Op :=
| Malloc (bytes : Z) | Release (p : Z) | Realloc (p bytes : Z) | Size (p : Z) | Roundup (bytes : Z)
| Read (p off : Z) (n : nat) | Write (p off : Z) (bs : list Z)
| Enter | Finish | Outside | Back | Retire.

Inductive Answer := Pointer (p : Z) | Number (n : Z) | Bytes (l : list Z) | Dropped (b : bool) | Entered (b : bool) | Done.

(** What SQLite and the runtime may ask of the hooks. *)
Definition legal (st : Store) (op : Op) : Prop :=
  match op with
  | Malloc n | Roundup n => n <= i32_max
  | Release p | Size p => is_Some (blocks st !! p)
  | Realloc p n => is_Some (blocks st !! p) /\ n <= i32_max
  | Read p off n => exists g, blocks st !! p = Some g /\ 0 <= off /\ off + Z.of_nat n <= zlen (contents g)
  | Write p off bs => exists g, blocks st !! p = Some g /\ 0 <= off /\ off + zlen bs <= zlen (contents g)
  | Enter => retained st = true
  | Finish => scoped st = true
  | Outside => True
  | Back => calls st <> []
  | Retire => retained st = true /\ scoped st = false
  end.

Section spec.
Context `{Positions} (a : Arena).

(** The arena has no aligned room for a request: its blocks, but for one, reach into
    every extent of the size it is rounded up to. *)
Definition no_room (b : gmap Z Given) (but : option Z) (bytes : Z) : Prop :=
  let width := (roundup bytes + HEADER_BYTES) / UNIT_BYTES in
  forall e, 0 <= e -> (width | e) -> e + width <= units a ->
  exists u p g, e <= u < e + width /\ b !! p = Some g /\ home g = Origin.Core /\ but <> Some p /\
    p - HEADER_BYTES <= block_at a u < p + zlen (contents g).

(** The arena gives no block: no scope is entered, or no size, or no room. *)
Definition refused (st : Store) (bytes : Z) : Prop :=
  scoped st = false \/ roundup bytes = 0 \/ no_room (blocks st) None bytes.

(** The size of what is granted. *)
Definition granted (o : Origin.Origin) (bytes : Z) : Z :=
  match o with Origin.Core => roundup bytes | Origin.Foreign => bytes end.

(** A block of its own. *)
Definition fresh (b : gmap Z Given) (p : Z) (g : Given) : Prop :=
  0 < p /\ (8 | p) /\ b !! p = None /\
  forall q g', b !! q = Some g' -> p + zlen (contents g) <= q \/ q + zlen (contents g') <= p.

Definition patch (c : list Z) (off : Z) (bs : list Z) : list Z :=
  take (Z.to_nat off) c ++ bs ++ drop (Z.to_nat off + length bs) c.

Definition core (b : gmap Z Given) : gmap Z Given := filter (fun pg => home pg.2 = Origin.Core) b.

(** Whether no share of the arena is left. *)
Definition gone (r : bool) (b : gmap Z Given) : bool := negb r && bool_decide (core b = ∅).

(** What the store answers and becomes. *)
Inductive spec (st : Store) : Op -> Answer -> Store -> Prop :=
| spec_null n :
    n <= 0 \/ source st = Origin.Foreign \/ refused st n ->
    spec st (Malloc n) (Pointer 0) st
| spec_malloc n p c :
    0 < n -> zlen c = granted (source st) n -> n <= zlen c ->
    fresh (blocks st) p {| home := source st; contents := c |} ->
    (source st = Origin.Core -> scoped st = true) ->
    spec st (Malloc n) (Pointer p) (with_blocks st (<[p := {| home := source st; contents := c |}]> (blocks st)))
| spec_release p g b :
    blocks st !! p = Some g -> b = bool_decide (home g = Origin.Core) && gone (retained st) (delete p (blocks st)) ->
    spec st (Release p) (Dropped b) (with_blocks st (delete p (blocks st)))
| spec_realloc_null p g n :
    blocks st !! p = Some g ->
    n <= 0 \/ home g = Origin.Foreign \/ (zlen (contents g) < n /\ (roundup n = 0 \/ no_room (blocks st) (Some p) n)) ->
    spec st (Realloc p n) (Pointer 0) st
| spec_realloc_same p g n :
    blocks st !! p = Some g -> home g = Origin.Core -> 0 < n <= zlen (contents g) ->
    spec st (Realloc p n) (Pointer p) st
| spec_realloc p g n q c :
    blocks st !! p = Some g -> 0 < n -> (home g = Origin.Core -> zlen (contents g) < n) ->
    zlen c = granted (home g) n -> n <= zlen c ->
    fresh (delete p (blocks st)) q {| home := home g; contents := c |} ->
    take (length (contents g)) c = take (length c) (contents g) ->
    spec st (Realloc p n) (Pointer q) (with_blocks st (<[q := {| home := home g; contents := c |}]> (delete p (blocks st))))
| spec_size p g : blocks st !! p = Some g -> spec st (Size p) (Number (zlen (contents g))) st
| spec_roundup n : spec st (Roundup n) (Number (roundup n)) st
| spec_read p g off n :
    blocks st !! p = Some g -> spec st (Read p off n) (Bytes (take n (drop (Z.to_nat off) (contents g)))) st
| spec_write p g off bs :
    blocks st !! p = Some g ->
    spec st (Write p off bs) Done
      (with_blocks st (<[p := {| home := home g; contents := patch (contents g) off bs |}]> (blocks st)))
| spec_enter :
    spec st Enter (Entered (negb (scoped st)))
      {| blocks := blocks st; scoped := true; source := source st; calls := calls st; retained := retained st |}
| spec_finish :
    spec st Finish Done
      {| blocks := blocks st; scoped := false; source := source st; calls := calls st; retained := retained st |}
| spec_outside :
    spec st Outside Done
      {| blocks := blocks st; scoped := scoped st; source := Origin.Foreign; calls := source st :: calls st;
         retained := retained st |}
| spec_back o l :
    calls st = o :: l ->
    spec st Back Done {| blocks := blocks st; scoped := scoped st; source := o; calls := l; retained := retained st |}
| spec_retire :
    spec st Retire (Dropped (gone false (blocks st)))
      {| blocks := blocks st; scoped := scoped st; source := source st; calls := calls st; retained := false |}.

(** ** The worker *)

Context {N : Type} `{!Native N}.

Definition Machine : Type := Worker N * list Origin.Origin.

Definition step (x : Machine) (op : Op) : Machine * Answer :=
  let (w, outer) := x in
  match op with
  | Malloc n => let (w, p) := malloc a w n in (w, outer, Pointer p)
  | Release p => let (w, b) := free a w p in (w, outer, Dropped b)
  | Realloc p n => let (w, q) := realloc a w p n in (w, outer, Pointer q)
  | Size p => (x, Number (size a w p))
  | Roundup n => (x, Number (roundup n))
  | Read p off n => (x, Bytes (load (memory (heap w)) (p + off) n))
  | Write p off bs => (with_heap w (write_bytes (heap w) (p + off) bs), outer, Done)
  | Enter => match scope_enter w with Some w => (w, outer, Entered true) | None => (x, Entered false) end
  | Finish => (scope_finish w, outer, Done)
  | Outside => (with_origin w Origin.Foreign, origin w :: outer, Done)
  | Back => match outer with o :: outer => (with_origin w o, outer, Done) | [] => (x, Done) end
  | Retire => let (w, b) := retire w in (w, outer, Dropped b)
  end.
End spec.

(** ** Sizes *)

Lemma payload_pos k : 0 <= k -> 0 < payload_bytes k.
Proof. intros. rewrite payload_bytes_eq by done. pose proof (pow_pos k). unfold UNIT_BYTES, HEADER_BYTES. lia. Qed.

Section sizes.
Context `{PositionsLaws}.

Lemma len_newed n : 0 < n <= i32_max -> len_new n = Some n.
Proof. intros. unfold len_new. destruct (Z.leb_spec n 0); [lia|]. f_equal. apply as_u32_small. lia. Qed.

(** The least order whose payload holds the request, up to the widest block. *)
Lemma len_ordered len :
  0 < len <= i32_max ->
  match len_order len with
  | Some k => 0 <= k <= MAX_ORDER /\ len <= payload_bytes k /\ (k = 0 \/ payload_bytes (k - 1) < len)
  | None => payload_bytes MAX_ORDER < len
  end.
Proof.
  intros Hl. unfold len_order, order_new, MAX_ORDER, HEADER_BYTES, UNIT_BYTES.
  set (last := Z.max (len + 16 - 1) (32 - 1)). destruct (Z.log2_spec last) as [Hlo Hhi]; [lia|].
  set (g := Z.log2 last) in *. assert (4 <= g) as Hg by (apply (Z.log2_le_mono 31 last); lia).
  replace (32 - (31 - g) - 5) with (g - 4) by lia.
  assert (2 ^ Z.succ g = 32 * 2 ^ (g - 4)) as E1.
  { replace (Z.succ g) with (5 + (g - 4)) by lia. rewrite Z.pow_add_r by lia. done. }
  rewrite position_newed by lia. destruct (Z.ltb_spec (g - 4) (25 + 1)) as [Hk|Hk].
  - split; [lia|]. rewrite payload_bytes_eq by lia. unfold UNIT_BYTES, HEADER_BYTES. split; [lia|].
    destruct (decide (g - 4 = 0)) as [|Hn]; [by left|right]. rewrite payload_bytes_eq by lia.
    unfold UNIT_BYTES, HEADER_BYTES. replace (2 ^ g) with (32 * 2 ^ (g - 4 - 1)) in Hlo; [|replace g with (5 + (g - 4 - 1)) at 2 by lia; by rewrite Z.pow_add_r by lia].
    assert (2 ^ (g - 4 - 1) > 0) by (pose proof (pow_pos (g - 4 - 1)); lia). lia.
  - rewrite payload_bytes_eq by lia. unfold UNIT_BYTES, HEADER_BYTES. pose proof (Z.pow_le_mono_r 2 30 g). lia.
Qed.

Lemma payload_mono k l : 0 <= k <= l -> payload_bytes k <= payload_bytes l.
Proof.
  intros. rewrite !payload_bytes_eq by lia. pose proof (Z.pow_le_mono_r 2 k l). unfold UNIT_BYTES. lia.
Qed.

Lemma payload_integer_eq k : 0 <= k <= MAX_ORDER -> payload_integer k = payload_bytes k.
Proof.
  intros Hk. unfold payload_integer, as_i32. pose proof (payload_pos k ltac:(lia)).
  pose proof (payload_mono k MAX_ORDER ltac:(lia)). assert (payload_bytes MAX_ORDER = 1073741808) as E by reflexivity.
  unfold as_signed. rewrite Z.mod_small by lia. destruct (Z.ltb_spec (payload_bytes k) (2 ^ (32 - 1))); lia.
Qed.

Lemma rounded n k : 0 < n <= i32_max -> len_order n = Some k -> roundup n = payload_bytes k /\ 0 <= k <= MAX_ORDER.
Proof.
  intros Hn E. unfold roundup. rewrite len_newed by done. rewrite E. pose proof (len_ordered n Hn) as Ho.
  rewrite E in Ho. split; [apply payload_integer_eq|]; tauto.
Qed.

Lemma not_rounded n : 0 < n <= i32_max -> len_order n = None -> roundup n = 0.
Proof. intros Hn E. unfold roundup. by rewrite len_newed, E by done. Qed.

Lemma order_below n k j : 0 < n <= i32_max -> len_order n = Some k -> 0 <= j -> payload_bytes j < n -> j < k.
Proof.
  intros Hn E Hj Hlt. pose proof (len_ordered n Hn) as Ho. rewrite E in Ho. destruct Ho as (Hk & Hle & _).
  destruct (Z_lt_ge_dec j k); [done|]. pose proof (payload_mono k j ltac:(lia)). lia.
Qed.
End sizes.

(** ** Counting *)

Section core.
Implicit Types b : gmap Z Given.

Definition cores b : nat := stdpp.base.size (core b).

Lemma cores_insert b p g : b !! p = None -> home g = Origin.Core -> cores (<[p := g]> b) = Datatypes.S (cores b).
Proof.
  intros Hp Hg. unfold cores, core. rewrite map_filter_insert_True by done. apply map_size_insert_None.
  apply map_lookup_filter_None. by left.
Qed.

Lemma cores_delete b p g : b !! p = Some g -> home g = Origin.Core -> cores b = Datatypes.S (cores (delete p b)).
Proof.
  intros Hp Hg. rewrite <- (insert_delete_id b p g Hp) at 1. apply cores_insert; [apply lookup_delete_eq|done].
Qed.

Lemma cores_insert_foreign b p g : b !! p = None -> home g = Origin.Foreign -> core (<[p := g]> b) = core b.
Proof.
  intros Hp Hg. unfold core. rewrite map_filter_insert_False by (cbn; congruence). by rewrite delete_id.
Qed.

Lemma cores_delete_foreign b p g : b !! p = Some g -> home g = Origin.Foreign -> core (delete p b) = core b.
Proof.
  intros Hp Hg. rewrite <- (insert_delete_id b p g Hp) at 2. symmetry. apply cores_insert_foreign; [apply lookup_delete_eq|done].
Qed.

Lemma cores_update b p g g' : b !! p = Some g -> home g' = home g -> cores (<[p := g']> b) = cores b.
Proof.
  intros Hp Hg. rewrite <- insert_delete_eq. destruct (home g) eqn:E.
  - rewrite cores_insert by (done || apply lookup_delete_eq). by rewrite <- (cores_delete b p g).
  - unfold cores. rewrite cores_insert_foreign by (done || apply lookup_delete_eq). by rewrite (cores_delete_foreign b p g).
Qed.

Lemma core_some b p c : core b !! p = Some {| home := Origin.Core; contents := c |} <-> b !! p = Some {| home := Origin.Core; contents := c |}.
Proof. unfold core. etrans; [apply map_lookup_filter_Some|]. cbn. tauto. Qed.

Lemma core_lookup b b' :
  core b' = core b -> forall p c, b' !! p = Some {| home := Origin.Core; contents := c |} <-> b !! p = Some {| home := Origin.Core; contents := c |}.
Proof. intros E p c. etrans; [symmetry; apply core_some|]. rewrite E. apply core_some. Qed.

Lemma no_cores b : core b = ∅ <-> cores b = 0%nat.
Proof. unfold cores. symmetry. apply map_size_empty_iff. Qed.

Lemma cores_elem b p g : b !! p = Some g -> home g = Origin.Core -> core b <> ∅.
Proof. intros Hp Hg E. rewrite no_cores, (cores_delete b p g Hp Hg) in E. done. Qed.
End core.

(** ** The worker holds the store *)

Section holds.
Context `{PositionsLaws} (a : Arena) {N : Type} `{NativeLaws N}.
Hypothesis small : 0 < units a < 2 ^ 26.
Hypothesis address_word : 0 < address a < 2 ^ 64.
Hypothesis based : 0 < base a /\ (8 | base a).
Implicit Types (w : Worker N) (b : gmap Z Given).

Definition foreign_ok w b : Prop := forall p c,
  b !! p = Some {| home := Origin.Foreign; contents := c |} ->
  native_live (native w) !! (p - HEADER_BYTES) = Some (foreign_layout (zlen c)) /\
  read_word (heap w) (p - HEADER_BYTES) = 0 /\
  from_le (load (memory (heap w)) (p - HEADER_BYTES + 8) 4) = zlen c /\
  load (memory (heap w)) p (length c) = c /\ 0 < zlen c <= i32_max /\ (8 | p).

(** The backing is a block of the system's that holds the arena. *)
Record core_ok w b (G : Tiling) (F : Z -> list Z) : Prop := {
  core_arena : arena_ok a (heap w) G F;
  core_backing : exists q l, native_live (native w) !! q = Some l /\ (forall x, in_arena a x -> q <= x < q + l) /\
    forall p c, b !! p = Some {| home := Origin.Foreign; contents := c |} -> p - HEADER_BYTES <> q;
  core_iff : forall p c, b !! p = Some {| home := Origin.Core; contents := c |} <->
    exists i k, G !! i = Some (k, Live) /\ p = payload_at a i /\ c = load (memory (heap w)) p (Z.to_nat (payload_bytes k)) }.

Record holds (x : Machine) (st : Store) : Prop := {
  holds_scope : scope x.1 = scoped st;
  holds_origin : origin x.1 = source st;
  holds_calls : x.2 = calls st;
  holds_entered : scoped st = true -> retained st = true;
  holds_native : native_ok (native x.1);
  holds_foreign : foreign_ok x.1 (blocks st);
  holds_references : references (heap x.1) = Z.b2z (retained st) + Z.of_nat (cores (blocks st));
  holds_core : gone (retained st) (blocks st) = false -> exists G F, core_ok x.1 (blocks st) G F }.

Lemma core_alive r b p g : b !! p = Some g -> home g = Origin.Core -> gone r b = false.
Proof.
  intros Hp Hg. unfold gone. rewrite bool_decide_eq_false_2, andb_false_r; [done|]. by eapply cores_elem.
Qed.

(** The tile of a block of the arena. *)
Lemma core_tile {w b G F p g} : core_ok w b G F -> b !! p = Some g -> home g = Origin.Core ->
  exists i k, G !! i = Some (k, Live) /\ p = payload_at a i /\ 0 <= i /\ 0 <= k <= MAX_ORDER /\
    contents g = load (memory (heap w)) p (Z.to_nat (payload_bytes k)) /\ zlen (contents g) = payload_bytes k.
Proof.
  intros HC Hp Hg. destruct g as [h c]. cbn in Hg. subst h. apply (core_iff _ _ _ _ HC) in Hp as (i & k & Hi & -> & ->).
  destruct (tile_ok (ok_tiled _ _ _ _ (core_arena _ _ _ _ HC)) Hi) as (Hk & _ & Hi0 & _).
  exists i, k. split_and!; try (done || unfold MAX_ORDER; lia). cbn [contents]. rewrite load_length.
  pose proof (payload_pos k ltac:(lia)). lia.
Qed.

Lemma tile_bytes {w b G F i k x} : core_ok w b G F -> G !! i = Some (k, Live) ->
  payload_at a i - HEADER_BYTES <= x < payload_at a i + payload_bytes k -> in_block a i k x /\ in_arena a x.
Proof.
  intros HC Hi Hx. pose proof (ok_tiled _ _ _ _ (core_arena _ _ _ _ HC)) as HG. destruct (tile_ok HG Hi) as (Hk & _).
  assert (in_block a i k x) as Hb.
  { rewrite payload_bytes_eq in Hx by lia. unfold in_block, payload_at in *. lia. }
  split; [done|]. by apply (block_unit a HG Hi Hb).
Qed.

Lemma foreign_outside {w b G F p c x} :
  native_ok (native w) -> core_ok w b G F -> foreign_ok w b ->
  b !! p = Some {| home := Origin.Foreign; contents := c |} ->
  p - HEADER_BYTES <= x < p + zlen c -> ~ in_arena a x.
Proof.
  intros HN HC HF Hp Hx Ha. destruct (HF p c Hp) as (Hl & _). destruct (core_backing _ _ _ _ HC) as (q & l & Hq & Hin & Hne).
  specialize (Hin x Ha). destruct (native_apart _ _ _ _ _ HN Hl Hq (Hne p c Hp)); unfold foreign_layout, HEADER_BYTES in *; lia.
Qed.

(** Blocks in use are apart. *)
Lemma holds_apart {x st p q g h} :
  holds x st -> blocks st !! p = Some g -> blocks st !! q = Some h -> p <> q ->
  p + zlen (contents g) <= q \/ q + zlen (contents h) <= p.
Proof.
  intros HH Hp Hq Hne. pose proof (holds_native _ _ HH) as HN. pose proof (holds_foreign _ _ HH) as HF.
  assert (forall p q g h, blocks st !! p = Some g -> blocks st !! q = Some h -> home g = Origin.Core -> p <> q ->
    p + zlen (contents g) <= q \/ q + zlen (contents h) <= p) as Hcore.
  { clear p q g h Hp Hq Hne. intros p q g h Hp Hq Hg Hne.
    destruct (holds_core _ _ HH (core_alive _ _ _ _ Hp Hg)) as (G & F & HC).
    destruct (core_tile HC Hp Hg) as (i & k & Hi & -> & Hi0 & Hk & _ & Elen). rewrite Elen.
    pose proof (payload_pos k ltac:(lia)).
    destruct h as [[|] c]; cbn [contents].
    - destruct (core_tile HC Hq eq_refl) as (j & l & Hj & -> & Hj0 & Hl & _ & Elen'). cbn [contents] in Elen'. rewrite Elen'.
      pose proof (payload_pos l ltac:(lia)). assert (i <> j) as Hij by congruence.
      destruct (Z_le_gt_dec (payload_at a i + payload_bytes k) (payload_at a j)); [by left|].
      destruct (Z_le_gt_dec (payload_at a j + payload_bytes l) (payload_at a i)); [by right|]. exfalso.
      set (x0 := Z.max (payload_at a i) (payload_at a j)).
      destruct (tile_bytes (x := x0) HC Hi) as [Hb _]; [unfold HEADER_BYTES; lia|].
      destruct (tile_bytes (x := x0) HC Hj) as [Hb' _]; [unfold HEADER_BYTES; lia|].
      by apply (block_disjoint a (ok_tiled _ _ _ _ (core_arena _ _ _ _ HC)) Hi Hj Hij Hb).
    - destruct (HF q c Hq) as (_ & _ & _ & _ & Hlen & _).
      destruct (Z_le_gt_dec (payload_at a i + payload_bytes k) q); [by left|].
      destruct (Z_le_gt_dec (q + zlen c) (payload_at a i)); [by right|]. exfalso.
      set (x0 := Z.max (payload_at a i) q).
      destruct (tile_bytes (x := x0) HC Hi) as [_ Ha]; [unfold HEADER_BYTES; lia|].
      apply (foreign_outside (x := x0) HN HC HF Hq); [unfold HEADER_BYTES; lia|done]. }
  destruct g as [[|] c] eqn:Eg; [by eapply Hcore|]. destruct h as [[|] d] eqn:Eh.
  - cbn. destruct (Hcore q p _ _ Hq Hp eq_refl (not_eq_sym Hne)); auto.
  - destruct (HF p c Hp) as (Hl & _). destruct (HF q d Hq) as (Hl' & _). cbn [contents].
    destruct (native_apart _ _ _ _ _ HN Hl Hl'); [lia|..]; unfold foreign_layout, HEADER_BYTES in *; lia.
Qed.

Lemma holds_pointer {x st p g} : holds x st -> blocks st !! p = Some g -> 0 < p /\ (8 | p).
Proof.
  intros HH Hp. destruct g as [[|] c].
  - destruct (holds_core _ _ HH (core_alive _ _ _ _ Hp eq_refl)) as (G & F & HC).
    destruct (core_tile HC Hp eq_refl) as (i & k & _ & -> & Hi & _). unfold payload_at, block_at, UNIT_BYTES, HEADER_BYTES.
    destruct based as [Hb [q Hq]]. split; [lia|]. exists (q + i * 4 + 2). lia.
  - destruct (holds_foreign _ _ HH p c Hp) as (Hl & _ & _ & _ & _ & H8). split; [|done].
    destruct (native_block _ _ _ (holds_native _ _ HH) Hl). unfold HEADER_BYTES in *. lia.
Qed.

(** A block that is new is fresh. *)
Lemma holds_fresh {x st b p g} :
  holds x st -> blocks st = <[p := g]> b -> b !! p = None -> fresh b p g.
Proof.
  intros HH E Hp. assert (blocks st !! p = Some g) as Hg by (rewrite E; apply lookup_insert_eq).
  destruct (holds_pointer HH Hg) as [H1' H2']. split; [done|]. split; [done|]. split; [done|]. intros q h Hq.
  assert (p <> q) as Hne by congruence. eapply (holds_apart HH Hg); [|done]. by rewrite E, lookup_insert_ne.
Qed.

(** ** What is kept *)

Lemma load_arena m m' p n : (forall x, p <= x < p + Z.of_nat n -> m' x = m x) -> load m' p n = load m p n.
Proof. apply load_ext. Qed.

Lemma foreign_keep w w' b b' :
  foreign_ok w b ->
  (forall p c, b' !! p = Some {| home := Origin.Foreign; contents := c |} ->
    b !! p = Some {| home := Origin.Foreign; contents := c |} /\
    native_live (native w') !! (p - HEADER_BYTES) = native_live (native w) !! (p - HEADER_BYTES) /\
    (forall x, p - HEADER_BYTES <= x < p + zlen c -> memory (heap w') x = memory (heap w) x)) ->
  foreign_ok w' b'.
Proof.
  intros HF Hb p c Hp. destruct (Hb p c Hp) as (Hp0 & -> & Hm). destruct (HF p c Hp0) as (? & ? & ? & ? & ? & ?).
  unfold HEADER_BYTES, read_word in *.
  rewrite !(load_ext (memory (heap w)) (memory (heap w'))) by (intros; apply Hm; lia). split_and!; (done || lia).
Qed.

Lemma arena_ext s s' G F :
  arena_ok a s G F -> heads s' = heads s -> (forall x, in_arena a x -> memory s' x = memory s x) -> arena_ok a s' G F.
Proof.
  intros [HG HR Hc Hs Hh] E Hm. split; try done.
  - eapply repr_ext; [done|exact HR|done|]. intros x Hx. apply Hm. destruct Hx as [Hx|(u & Hu & Hux)].
    + unfold in_controls, in_arena, capacity, UNIT_BYTES in *. lia.
    + apply (covered_unit a HG) in Hu. unfold in_unit, in_arena, block_at, capacity, UNIT_BYTES in *. lia.
  - intros i k Hi. destruct (tile_ok HG Hi) as (Hk & _). destruct (header_ext a s s' i k) as [-> ->]; [lia| |by apply Hh].
    intros x Hx. apply Hm. by apply (block_unit a HG Hi Hx).
Qed.

(** ** Operations on the arena *)

(** The blocks after one of the arena's goes and one comes. *)
Definition moved b (r : option Z) (g : option (Z * Z)) (m : Z -> Z) : gmap Z Given :=
  let b := match r with Some i => delete (payload_at a i) b | None => b end in
  match g with
  | Some (i, k) =>
      <[payload_at a i := {| home := Origin.Core; contents := load m (payload_at a i) (Z.to_nat (payload_bytes k)) |}]> b
  | None => b
  end.

Lemma payload_inj i j : payload_at a i = payload_at a j -> i = j.
Proof. unfold payload_at, block_at, UNIT_BYTES. lia. Qed.

Lemma payload_in_arena i k G : tiled (units a) G -> G !! i = Some (k, Live) -> in_arena a (payload_at a i).
Proof.
  intros HG Hi. destruct (tile_ok HG Hi) as (Hk & _). apply (block_unit a HG Hi).
  rewrite <- (Z.add_0_r (payload_at a i)). apply payload_in; [lia|]. pose proof (payload_pos k ltac:(lia)). lia.
Qed.

Lemma arena_step w w' b G G' F F' r g :
  native_ok (native w) -> core_ok w b G F -> foreign_ok w b -> native w' = native w ->
  arena_ok a (heap w') G' F' ->
  (forall j l, G' !! j = Some (l, Live) <-> g = Some (j, l) \/ (G !! j = Some (l, Live) /\ r <> Some j)) ->
  (forall j l l', g = Some (j, l) -> G !! j = Some (l', Live) -> r = Some j) ->
  (forall x, ~ in_arena a x -> memory (heap w') x = memory (heap w) x) ->
  (forall j l x, G !! j = Some (l, Live) -> r <> Some j -> in_block a j l x -> memory (heap w') x = memory (heap w) x) ->
  core_ok w' (moved b r g (memory (heap w'))) G' F' /\ foreign_ok w' (moved b r g (memory (heap w'))) /\
  (forall i k, g = Some (i, k) -> moved b r None (memory (heap w')) !! payload_at a i = None).
Proof.
  intros HN HC HF En HA Hl Hg Hout Hin. pose proof (ok_tiled _ _ _ _ HA) as HG'.
  pose proof (ok_tiled _ _ _ _ (core_arena _ _ _ _ HC)) as HG.
  set (b1 := moved b r None (memory (heap w'))).
  assert (forall q h, b1 !! q = Some h <-> b !! q = Some h /\ forall i, r = Some i -> q <> payload_at a i) as Hb1.
  { intros q h. unfold b1, moved. destruct r as [i|].
    - rewrite lookup_delete_Some. split; [intros [Hne Hq]; split; [done|intros j [= <-]; congruence]|].
      intros [Hq Hne]. split; [|done]. intros E. by apply (Hne i).
    - split; [intros Hq; by split|by intros [Hq _]]. }
  assert (forall i k, g = Some (i, k) -> b1 !! payload_at a i = None) as Hnew.
  { intros i k ->. destruct (b1 !! payload_at a i) as [[[|] c]|] eqn:E; [exfalso..|done]; apply Hb1 in E as [E Hne].
    - apply (core_iff _ _ _ _ HC) in E as (j & l & Hj & Ej%payload_inj & _). subst j. by apply (Hne i (Hg i k l eq_refl Hj)).
    - assert (G' !! i = Some (k, Live)) as Hi' by (apply Hl; by left).
      apply (foreign_outside (x := payload_at a i) HN HC HF E); [|by apply (payload_in_arena i k G')].
      destruct (HF _ _ E) as (_ & _ & _ & _ & ? & _). unfold HEADER_BYTES. lia. }
  assert (forall q h, moved b r g (memory (heap w')) !! q = Some h <->
    (exists i k, g = Some (i, k) /\ q = payload_at a i /\
      h = {| home := Origin.Core; contents := load (memory (heap w')) q (Z.to_nat (payload_bytes k)) |}) \/ b1 !! q = Some h) as Hm.
  { intros q h. unfold moved. fold (moved b r None (memory (heap w'))). change (match r with Some i => _ | None => _ end) with b1.
    destruct g as [[i k]|]; [rewrite lookup_insert_Some|split; [by right|by intros [(? & ? & ? & _)|?]]].
    specialize (Hnew i k eq_refl). split.
    - intros [[<- <-]|[_ Hq]]; [left; by exists i, k|by right].
    - intros [(i' & k' & [= <- <-] & -> & ->)|Hq]; [by left|right]. split; [|done]. intros E. rewrite <- E, Hnew in Hq. done. }
  split; [|split; [|exact Hnew]].
  - split; [done| |].
    + destruct (core_backing _ _ _ _ HC) as (q & l & Hq & Hcov & Hne). exists q, l. rewrite En. split; [done|]. split; [done|].
      intros p c [(i & k & _ & _ & ?)|[Hp _]%Hb1]%Hm; [done|by apply (Hne p c)].
    + intros p c. rewrite Hm. split.
      * intros [(i & k & -> & -> & [= ->])|[Hp Hne]%Hb1]; [exists i, k; split; [apply Hl; by left|done]|].
        apply (core_iff _ _ _ _ HC) in Hp as (i & k & Hi & -> & ->). exists i, k.
        assert (r <> Some i) as Hr by (intros ->; by apply (Hne i)). split; [apply Hl; by right|]. split; [done|].
        symmetry. apply load_ext. intros x Hx. apply (Hin i k x Hi Hr).
        destruct (tile_ok HG Hi) as (Hk & _). replace x with (payload_at a i + (x - payload_at a i)) by lia.
        apply payload_in; [lia|]. pose proof (payload_pos k ltac:(lia)). lia.
      * intros (i & k & [Hgi|[Hi Hr]]%Hl & -> & ->); [left; by exists i, k|right]. apply Hb1. split.
        -- apply (core_iff _ _ _ _ HC). exists i, k. split; [done|]. split; [done|]. apply load_ext. intros x Hx.
           apply (Hin i k x Hi Hr). destruct (tile_ok HG Hi) as (Hk & _).
           replace x with (payload_at a i + (x - payload_at a i)) by lia. apply payload_in; [lia|].
           pose proof (payload_pos k ltac:(lia)). lia.
        -- intros j -> E%payload_inj. by subst j.
  - apply (foreign_keep w w' b); [done|]. intros p c [(i & k & _ & _ & ?)|[Hp _]%Hb1]%Hm; [done|]. split; [done|].
    split; [by rewrite En|]. intros x Hx. apply Hout. by apply (foreign_outside HN HC HF Hp).
Qed.

(** The backing and the arena's bytes as they were. *)
Lemma core_keep w w' b b' G F :
  core_ok w b G F -> heads (heap w') = heads (heap w) ->
  (forall x, in_arena a x -> memory (heap w') x = memory (heap w) x) ->
  (forall p c, b' !! p = Some {| home := Origin.Core; contents := c |} <-> b !! p = Some {| home := Origin.Core; contents := c |}) ->
  (exists q l, native_live (native w') !! q = Some l /\ (forall x, in_arena a x -> q <= x < q + l) /\
    forall p c, b' !! p = Some {| home := Origin.Foreign; contents := c |} -> p - HEADER_BYTES <> q) ->
  core_ok w' b' G F.
Proof.
  intros HC E Hm Hb Hq. pose proof (ok_tiled _ _ _ _ (core_arena _ _ _ _ HC)) as HG. split; [|done|].
  - eapply arena_ext; [apply HC|done|done].
  - intros p c. rewrite Hb, (core_iff _ _ _ _ HC). split; intros (i & k & Hi & -> & ->); exists i, k; split_and!; try done;
      [symmetry|]; apply load_ext; intros x Hx; apply Hm; apply (tile_bytes (i := i) (k := k) HC Hi);
      destruct (tile_ok HG Hi) as (Hk & _); pose proof (payload_pos k ltac:(lia)); unfold HEADER_BYTES; lia.
Qed.

(** No room in the tiles is no room among the blocks. *)
Lemma full_no_room w b G F n k but :
  core_ok w b G F -> 0 <= k -> roundup n = payload_bytes k ->
  full a G (fun j => match but with Some p => payload_at a j = p | None => False end) k ->
  no_room a b but n.
Proof.
  intros HC Hk E Hf. unfold no_room. rewrite E, payload_bytes_eq by done.
  replace ((UNIT_BYTES * 2 ^ k - HEADER_BYTES + HEADER_BYTES) / UNIT_BYTES) with (2 ^ k)
    by (unfold UNIT_BYTES; rewrite Z.sub_add, Z.mul_comm, Z.div_mul by lia; done).
  intros e He Ha Hu. destruct (Hf e He Ha Hu) as (x & j & l & Hx & Hj & Hbut & Hjx).
  pose proof (ok_tiled _ _ _ _ (core_arena _ _ _ _ HC)) as HG. destruct (tile_ok HG Hj) as (Hl & _).
  eexists x, (payload_at a j), _. split; [done|]. split; [apply (core_iff _ _ _ _ HC); by exists j, l|]. split; [done|].
  split; [destruct but; [intros [= ->]; by apply Hbut|done]|]. cbn [contents]. rewrite load_length.
  pose proof (payload_pos l ltac:(lia)). rewrite Z2Nat.id, payload_bytes_eq in * by lia.
  unfold extent in Hjx. unfold payload_at, block_at, UNIT_BYTES, HEADER_BYTES in *. lia.
Qed.

Lemma holds_step w w' o st b :
  holds (w, o) st -> scope w' = scope w -> origin w' = origin w -> native_ok (native w') -> foreign_ok w' b ->
  references (heap w') = Z.b2z (retained st) + Z.of_nat (cores b) ->
  (gone (retained st) b = false -> exists G F, core_ok w' b G F) ->
  holds (w', o) (with_blocks st b).
Proof. intros [] Es Eo HN HF Hr Hc. split; cbn in *; congruence || done. Qed.

Lemma with_same_blocks st : with_blocks st (blocks st) = st.
Proof. by destruct st. Qed.

(** Allocating in the arena. *)
Lemma malloc_core w o st n k :
  holds (w, o) st -> 0 < n <= i32_max -> len_order n = Some k -> source st = Origin.Core -> scope w = true ->
  let (s, p) := allocate a (heap w) k in
  exists st', spec a st (Malloc n) (Pointer p) st' /\ holds (with_heap w s, o) st'.
Proof.
  intros HH Hn Ek Ho Hs. destruct (rounded n k Hn Ek) as [Er Hk].
  assert (retained st = true) as Hret by (apply (holds_entered _ _ HH); by rewrite <- (holds_scope _ _ HH)).
  destruct (holds_core _ _ HH) as (G & F & HC); [unfold gone; by rewrite Hret|]. cbn [fst] in HC.
  pose proof (core_arena _ _ _ _ HC) as HA.
  pose proof (allocate_spec a ltac:(lia) address_word (heap w) G F k HA Hk) as Hall.
  destruct (allocate a (heap w) k) as [s p].
  destruct Hall as [(-> & -> & Hfull)|(i & G' & F' & -> & HA' & Hi0 & _ & Hl & Hnew & Hkept & Href)].
  - exists st. split.
    + apply spec_null. right. right. right. right. apply (full_no_room w (blocks st) G F n k None); (done || lia).
    + replace (with_heap w (heap w)) with w by (by destruct w). done.
  - assert (forall x, ~ in_arena a x -> memory s x = memory (heap w) x) as Hout.
    { apply (kept_outside a Hkept). intros u Hu. by apply (covered_unit a (ok_tiled _ _ _ _ HA) Hu). }
    destruct (arena_step w (with_heap w s) (blocks st) G G' F F' None (Some (i, k))) as (HC' & HF' & Hfresh); try done.
    + apply HH.
    + apply HH.
    + intros j l. rewrite Hl. split; [intros [[-> ->]|?]; [by left|by right]|intros [[= -> ->]|[? _]]; auto].
    + intros j l l' [= <- <-] Hj. by destruct (Hnew i l' Hj).
    + intros j l x Hj _. apply (kept_block a (ok_tiled _ _ _ _ HA) Hj Hkept). by left.
    + cbn [moved] in HC', HF'. specialize (Hfresh i k eq_refl). cbn [moved] in Hfresh.
      set (c := load (memory s) (payload_at a i) (Z.to_nat (payload_bytes k))) in *. cbn [heap with_heap] in HC', HF'. fold c in HC', HF'.
      assert (zlen c = payload_bytes k) as Ec by (unfold c; rewrite load_length; pose proof (payload_pos k ltac:(lia)); lia).
      set (g := {| home := Origin.Core; contents := c |}) in *.
      assert (holds (with_heap w s, o) (with_blocks st (<[payload_at a i := g]> (blocks st)))) as HH'.
      { apply (holds_step w); try done; [apply HH|..].
        - pose proof (holds_references _ _ HH) as Hr0. cbn [fst heap with_heap] in *.
          rewrite Href, Hr0, (cores_insert (blocks st) (payload_at a i) g) by done. lia.
        - intros _. by exists G', F'. }
      pose proof (len_ordered n Hn) as Hlo. rewrite Ek in Hlo.
      eexists. split; [|exact HH']. unfold g. rewrite <- Ho. apply spec_malloc.
      * lia.
      * by rewrite Ho, Ec.
      * lia.
      * rewrite Ho. by apply (holds_fresh (x := (with_heap w s, o)) (st := with_blocks st (<[payload_at a i := g]> (blocks st)))).
      * intros _. by rewrite <- (holds_scope _ _ HH).
Qed.

(** ** Operations on the system's blocks *)

(** What was live in the system and is not the block in question keeps its bytes. *)
Lemma native_step w w' b b' p0 :
  native_ok (native w) -> native_ok (native w') -> foreign_ok w b -> heads (heap w') = heads (heap w) ->
  (forall p c, b' !! p = Some {| home := Origin.Core; contents := c |} <-> b !! p = Some {| home := Origin.Core; contents := c |}) ->
  (forall q l, native_live (native w) !! q = Some l -> q <> p0 -> native_live (native w') !! q = Some l) ->
  (forall q l x, native_live (native w) !! q = Some l -> q <> p0 -> q <= x < q + l -> memory (heap w') x = memory (heap w) x) ->
  (forall p c, b' !! p = Some {| home := Origin.Foreign; contents := c |} ->
     (b !! p = Some {| home := Origin.Foreign; contents := c |} /\ p - HEADER_BYTES <> p0) \/
     (native_live (native w) !! (p - HEADER_BYTES) = None \/ p - HEADER_BYTES = p0)) ->
  (forall q l, native_live (native w) !! q = Some l -> q = p0 -> exists c, b !! (p0 + HEADER_BYTES) = Some {| home := Origin.Foreign; contents := c |}) ->
  forall G F, core_ok w b G F -> core_ok w' b' G F.
Proof.
  intros HN HN' HF Eh Hcore Hlive Hmem Hfor Hp0 G F HC. destruct (core_backing _ _ _ _ HC) as (q & l & Hq & Hcov & Hne).
  assert (q <> p0) as Hqp.
  { intros ->. destruct (Hp0 p0 l Hq eq_refl) as (c & Hc). apply (Hne _ _ Hc). unfold HEADER_BYTES. lia. }
  apply (core_keep w w' b); try done.
  - intros x Hx%Hcov. by apply (Hmem q l).
  - exists q, l. split; [by apply Hlive|]. split; [done|]. intros p c [[Hp _]|[Hn|Hn]]%Hfor; [by eapply Hne|congruence|congruence].
Qed.

Lemma native_holds w w' o st b :
  holds (w, o) st -> scope w' = scope w -> origin w' = origin w -> native_ok (native w') -> foreign_ok w' b ->
  references (heap w') = references (heap w) -> core b = core (blocks st) ->
  (forall G F, core_ok w (blocks st) G F -> core_ok w' b G F) ->
  holds (w', o) (with_blocks st b).
Proof.
  intros HH Es Eo HN HF Er Ec Hc. apply (holds_step w); try done.
  - rewrite Er. unfold cores. rewrite Ec. apply (holds_references _ _ HH).
  - unfold gone. rewrite Ec. intros Hg. destruct (holds_core _ _ HH Hg) as (G & F & HC). exists G, F. by apply Hc.
Qed.

Lemma foreign_headed m p len x : ~ (p <= x < p + HEADER_BYTES) -> foreign_header m p len x = m x.
Proof.
  intros Hx. unfold foreign_header, HEADER_BYTES in *. rewrite store_other by (rewrite length_to_le; lia).
  apply store_other. rewrite length_to_le. lia.
Qed.

Lemma load_same m p bs n : n = length bs -> load (store m p bs) p n = bs.
Proof. intros ->. apply load_store. Qed.

Lemma foreign_header_read m p len :
  0 < len <= i32_max -> from_le (load (foreign_header m p len) p 8) = 0 /\ from_le (load (foreign_header m p len) (p + 8) 4) = len.
Proof.
  intros Hl. unfold foreign_header. split.
  - rewrite load_store_other by (rewrite ?length_to_le; lia). rewrite load_same by (by rewrite length_to_le). reflexivity.
  - rewrite load_same by (by rewrite length_to_le). apply from_to_le. lia.
Qed.

(** A block of the arena does not lie where the system's next block is. *)
Lemma not_core_at w o st n' q sz c p0 :
  holds (w, o) st -> native_ok n' -> native_live n' !! q = Some sz -> (q = p0 \/ native_live (native w) !! q = None) ->
  (forall l, native_live (native w) !! p0 = Some l -> exists d, blocks st !! (p0 + HEADER_BYTES) = Some {| home := Origin.Foreign; contents := d |}) ->
  (forall q0 l, native_live (native w) !! q0 = Some l -> q0 <> p0 -> native_live n' !! q0 = Some l) ->
  blocks st !! (q + HEADER_BYTES) <> Some {| home := Origin.Core; contents := c |}.
Proof.
  intros HH HN' Hq Hqp Hp0 Hlive E. destruct (holds_core _ _ HH (core_alive _ _ _ _ E eq_refl)) as (G & F & HC). cbn [fst] in HC.
  destruct (core_tile HC E eq_refl) as (i & k & Hi & Ep & Hi0 & Hk & _).
  destruct (core_backing _ _ _ _ HC) as (q0 & l & Hq0 & Hcov & Hne). pose proof (payload_pos k ltac:(lia)).
  destruct (tile_bytes (x := q) HC Hi) as [_ Hin]; [unfold HEADER_BYTES in *; lia|]. specialize (Hcov q Hin).
  assert (q0 <> p0) as Hn0.
  { intros ->. destruct (Hp0 l Hq0) as (d & Hd). apply (Hne _ _ Hd). unfold HEADER_BYTES. lia. }
  assert (q0 <> q) as Hnq by (destruct Hqp as [->|?]; congruence).
  destruct (native_block _ _ _ HN' Hq) as [_ Hsz].
  destruct (native_apart n' q0 l q sz HN') as [?|?]; [by apply Hlive|done|done|lia|lia].
Qed.

(** The system's block [q] comes, and [p0] goes if it was one. *)
Lemma foreign_install w w' o st b0 p0 q n :
  holds (w, o) st -> scope w' = scope w -> origin w' = origin w -> heads (heap w') = heads (heap w) ->
  references (heap w') = references (heap w) -> native_ok (native w') -> 0 < n <= i32_max -> (8 | q) ->
  core b0 = core (blocks st) ->
  (forall p d, b0 !! p = Some {| home := Origin.Foreign; contents := d |} ->
    blocks st !! p = Some {| home := Origin.Foreign; contents := d |} /\ p - HEADER_BYTES <> p0) ->
  (q = p0 \/ native_live (native w) !! q = None) -> (q = p0 -> b0 !! (q + HEADER_BYTES) = None) ->
  (forall l, native_live (native w) !! p0 = Some l -> exists d, blocks st !! (p0 + HEADER_BYTES) = Some {| home := Origin.Foreign; contents := d |}) ->
  native_live (native w') = <[q := foreign_layout n]> (delete p0 (native_live (native w))) ->
  (forall q0 l x, native_live (native w) !! q0 = Some l -> q0 <> p0 -> q0 <= x < q0 + l -> memory (heap w') x = memory (heap w) x) ->
  read_word (heap w') q = 0 -> from_le (load (memory (heap w')) (q + 8) 4) = n ->
  let g := {| home := Origin.Foreign; contents := load (memory (heap w')) (q + HEADER_BYTES) (Z.to_nat n) |} in
  b0 !! (q + HEADER_BYTES) = None /\ holds (w', o) (with_blocks st (<[q + HEADER_BYTES := g]> b0)).
Proof.
  intros HH Es Eo Eh Er HN' Hn H8 Ec Hb0 Hqp Hq0 Hp0 El Hold E1 E2 g.
  pose proof (holds_native _ _ HH) as HN. pose proof (holds_foreign _ _ HH) as HF. cbn [fst] in HN, HF.
  assert (native_live (native w') !! q = Some (foreign_layout n)) as Hlq by (rewrite El; apply lookup_insert_eq).
  assert (forall q1 l, native_live (native w) !! q1 = Some l -> q1 <> p0 -> native_live (native w') !! q1 = Some l) as Hlive.
  { intros q1 l Hq1 Hne. rewrite El, lookup_insert_ne, lookup_delete_ne by (destruct Hqp; congruence). done. }
  assert (b0 !! (q + HEADER_BYTES) = None) as Hnone.
  { destruct (b0 !! (q + HEADER_BYTES)) as [[[|] d]|] eqn:E; [exfalso..|done].
    - apply (core_lookup _ _ Ec) in E. by apply (not_core_at w o st (native w') q _ d p0 HH HN' Hlq).
    - destruct (Hb0 _ _ E) as [Hb Hne]. rewrite Z.add_simpl_r in Hne. destruct (HF _ _ Hb) as (Hl & _).
      rewrite Z.add_simpl_r in Hl. destruct Hqp; congruence. }
  split; [done|].
  assert (zlen (contents g) = n) as Elen by (cbn [g contents]; rewrite load_length; lia).
  assert (core (<[q + HEADER_BYTES := g]> b0) = core (blocks st)) as Ec' by (by rewrite cores_insert_foreign).
  apply (native_holds w); try done.
  - intros p d. rewrite lookup_insert_Some. intros [[<- [= <-]]|[Hne Hp]].
    + rewrite Z.add_simpl_r. cbn [g contents] in Elen. rewrite Elen. split; [done|]. split; [done|]. split; [done|].
      split; [by rewrite load_length|]. split; [lia|]. destruct H8 as [z ->]. exists (z + 2). unfold HEADER_BYTES. lia.
    + destruct (Hb0 p d Hp) as [Hb Hpp]. destruct (HF p d Hb) as (Hl & E1' & E2' & E3 & E4 & E5).
      rewrite (Hlive _ _ Hl Hpp). unfold read_word, HEADER_BYTES, foreign_layout in *.
      rewrite !(load_ext (memory (heap w)) (memory (heap w'))) by (intros x Hx; apply (Hold _ _ x Hl Hpp); unfold HEADER_BYTES; lia).
      split_and!; (done || lia).
  - apply (native_step w w' (blocks st) _ p0); try done.
    + by apply core_lookup.
    + intros p d. rewrite lookup_insert_Some. intros [[<- _]|[_ Hp]]; [right|by left; apply Hb0].
      rewrite Z.add_simpl_r. destruct Hqp; auto.
    + intros q1 l Hq1 ->. by apply (Hp0 l).
Qed.

(** Nothing of the worker's changes when the system gives no block. *)
Lemma native_refused w o st n' m' :
  holds (w, o) st -> native_ok n' -> native_live n' = native_live (native w) ->
  same_live (native_live (native w)) (memory (heap w)) m' -> holds (with_native w n' m', o) st.
Proof.
  intros HH HN' El Hsame. rewrite <- (with_same_blocks st).
  pose proof (holds_native _ _ HH) as HN. pose proof (holds_foreign _ _ HH) as HF. cbn [fst] in HN, HF.
  assert (forall q l, native_live (native w) !! q = Some l -> q = 0 -> False) as Hno.
  { intros q l Hq ->. destruct (native_block _ _ _ HN Hq). lia. }
  apply (native_holds w); try done.
  - apply (foreign_keep w _ (blocks st)); [done|]. intros p c Hp. split; [done|]. cbn [native with_native heap memory with_memory].
    rewrite El. split; [done|]. intros x Hx. destruct (HF p c Hp) as (Hl & _).
    apply (Hsame _ _ _ Hl). unfold foreign_layout, HEADER_BYTES in *. lia.
  - apply (native_step w _ (blocks st) (blocks st) 0); try done; cbn [native with_native heap memory with_memory].
    + intros q l Hq _. by rewrite El.
    + intros q l x Hq _ Hx. by apply (Hsame q l).
    + intros p c Hp. left. split; [done|]. intros E. destruct (HF p c Hp) as (Hl & _). by apply (Hno _ _ Hl).
    + intros q l Hq E. by destruct (Hno q l Hq).
Qed.

(** Allocating from the system. *)
Lemma malloc_foreign w o st n :
  holds (w, o) st -> 0 < n <= i32_max -> source st = Origin.Foreign ->
  let (w', p) := foreign_allocate w n in
  exists st', spec a st (Malloc n) (Pointer p) st' /\ holds (w', o) st'.
Proof.
  intros HH Hn Ho. unfold foreign_allocate. destruct (native_alloc _ _ _) as [[n' m'] p] eqn:Ea.
  pose proof (holds_native _ _ HH) as HN. pose proof (holds_foreign _ _ HH) as HF. cbn [fst] in HN, HF.
  assert (0 < foreign_layout n) as Hlay by (unfold foreign_layout, HEADER_BYTES; lia).
  destruct (native_allocated _ _ _ _ _ _ HN Hlay Ea) as (HN' & Hsame & Hp).
  assert (native_live (native w) !! 0 = None) as H0'.
  { destruct (native_live (native w) !! 0) as [l|] eqn:E; [|done]. destruct (native_block _ _ _ HN E). lia. }
  destruct Hp as [[-> El]|(Hp0 & H8 & Hnone & El)].
  { cbn [Z.eqb]. exists st. split; [apply spec_null; auto|]. by apply native_refused. }
  destruct (Z.eqb_spec p 0) as [?|_]; [done|]. set (w' := with_native w n' _).
  destruct (foreign_header_read m' p n Hn) as [E1 E2].
  destruct (foreign_install w w' o st (blocks st) 0 p n) as [Hfresh HH']; try done.
  - intros q d Hq. split; [done|]. intros E. destruct (HF q d Hq) as (Hl & _). congruence.
  - by right.
  - intros l Hl. congruence.
  - unfold w'. cbn [native with_native]. by rewrite El, delete_id.
  - intros q l x Hq _ Hx. unfold w'. cbn [heap with_native memory with_memory]. assert (q <> p) as Hqp by congruence.
    rewrite foreign_headed; [by apply (Hsame q l)|].
    destruct (native_apart n' q l p (foreign_layout n) HN') as [?|?];
      [by rewrite El, lookup_insert_ne|by rewrite El, lookup_insert_eq|done|lia|unfold foreign_layout in *].
    lia.
  - set (c := load (memory (heap w')) (p + HEADER_BYTES) (Z.to_nat n)) in *. assert (zlen c = n) as Ec by (unfold c; rewrite load_length; lia).
    eexists. split; [|exact HH']. rewrite <- Ho. apply spec_malloc; rewrite ?Ho; cbn [granted]; try done; [lia|lia|].
    by apply (holds_fresh HH').
Qed.

(** ** Reading the header *)

Lemma read_core {w b G F p g} :
  core_ok w b G F -> b !! p = Some g -> home g = Origin.Core ->
  exists i k, block_read a (heap w) p = InCore {| index := i; order := k |} /\ G !! i = Some (k, Live) /\
    p = payload_at a i /\ 0 <= k <= MAX_ORDER /\ zlen (contents g) = payload_bytes k /\
    contents g = load (memory (heap w)) p (Z.to_nat (payload_bytes k)).
Proof.
  intros HC Hp Hg. destruct (core_tile HC Hp Hg) as (i & k & Hi & -> & Hi0 & Hk & Ec & El).
  destruct (ok_header _ _ _ _ (core_arena _ _ _ _ HC) i k Hi) as [Ea Eo].
  exists i, k. split; [|done]. unfold block_read, payload_at. rewrite Z.add_simpl_r, Ea.
  destruct (Z.eqb_spec (address a) 0); [lia|]. f_equal. f_equal; [|done].
  unfold block_at. rewrite Z.add_simpl_l. unfold UNIT_BYTES. by rewrite Z.div_mul by lia.
Qed.

Lemma read_foreign w b p c :
  foreign_ok w b -> b !! p = Some {| home := Origin.Foreign; contents := c |} ->
  block_read a (heap w) p = InForeign (p - HEADER_BYTES) (zlen c).
Proof.
  intros HF Hp. destruct (HF p c Hp) as (_ & E1 & E2 & _). unfold block_read. by rewrite E1, E2.
Qed.

(** ** Releasing *)

Definition less (s : State) : State := {| memory := memory s; heads := heads s; references := references s - 1 |}.

Lemma less_ok s G F : arena_ok a s G F -> arena_ok a (less s) G F.
Proof. intros HA. by eapply arena_ext. Qed.

Lemma free_core w o st p g :
  holds (w, o) st -> blocks st !! p = Some g -> home g = Origin.Core ->
  let (w', b) := free a w p in
  exists st', spec a st (Release p) (Dropped b) st' /\ holds (w', o) st'.
Proof.
  intros HH Hp Hg. destruct (holds_core _ _ HH (core_alive _ _ _ _ Hp Hg)) as (G & F & HC). cbn [fst] in HC.
  destruct (read_core HC Hp Hg) as (i & k & Er & Hi & Ep & Hk & _). unfold free. rewrite Er. cbn [block_release].
  unfold release, state_release. cbv beta iota. fold (less (heap w)).
  pose proof (holds_references _ _ HH) as Hr. cbn [fst] in Hr. rewrite (cores_delete _ _ _ Hp Hg) in Hr.
  pose proof (holds_native _ _ HH) as HN. pose proof (holds_foreign _ _ HH) as HF. cbn [fst] in HN, HF.
  assert (forall q c, delete p (blocks st) !! q = Some {| home := Origin.Foreign; contents := c |} ->
    blocks st !! q = Some {| home := Origin.Foreign; contents := c |}) as Hdel by (by intros q c [_ ?]%lookup_delete_Some).
  destruct (Z.eqb_spec (references (heap w) - 1) 0) as [E|E].
  - assert (gone (retained st) (delete p (blocks st)) = true) as Hgone.
    { unfold gone. destruct (retained st); unfold Z.b2z in Hr; [|rewrite bool_decide_eq_true_2; [done|]; apply no_cores].
      all: lia. }
    eexists. split; [apply spec_release with g; [done|by rewrite Hgone, bool_decide_eq_true_2]|].
    apply (holds_step w); try done; [..|congruence].
    + intros q c Hq%Hdel. by apply HF.
    + cbn. lia.
  - assert (gone (retained st) (delete p (blocks st)) = false) as Hgone.
    { apply not_true_iff_false. unfold gone. rewrite andb_true_iff, negb_true_iff, bool_decide_eq_true, no_cores.
      intros [Er' Ec]. rewrite Er', Ec in Hr. unfold Z.b2z in Hr. lia. }
    destruct (recycled_spec a ltac:(lia) (less (heap w)) G F i k (less_ok _ _ _ (core_arena _ _ _ _ HC)) Hi)
      as (G' & F' & HA' & Hl & Hkept & Href).
    set (s := recycle_all a _ _) in *. pose proof (ok_tiled _ _ _ _ (core_arena _ _ _ _ HC)) as HG.
    destruct (arena_step w (with_heap w s) (blocks st) G G' F F' (Some i) None) as (HC' & HF' & _); try done.
    + intros j l. rewrite Hl. unfold live_but. split; [intros [? ?]; right; split; congruence|].
      intros [?|[Hj Hne]]; [done|]. split; congruence.
    + intros x Hx. apply (kept_outside a Hkept); [|done]. intros u [Hu|Hu]; [by apply (covered_unit a HG Hu)|].
      destruct (tile_ok HG Hi) as (_ & _ & ? & ?). unfold extent in Hu. lia.
    + intros j l x Hj Hne. apply (kept_block a HG Hj Hkept). intros u [?|Hu]; [by left|right].
      exists i, k, Live. split; [done|]. split; [congruence|done].
    + cbn [moved] in HC', HF'. rewrite <- Ep in HC', HF'. eexists.
      split; [apply spec_release with g; [done|by rewrite Hgone, andb_false_r]|].
      apply (holds_step w); try done.
      * cbn [heap with_heap]. rewrite Href. cbn. lia.
      * intros _. by exists G', F'.
Qed.

Lemma free_foreign w o st p g :
  holds (w, o) st -> blocks st !! p = Some g -> home g = Origin.Foreign ->
  let (w', b) := free a w p in
  exists st', spec a st (Release p) (Dropped b) st' /\ holds (w', o) st'.
Proof.
  intros HH Hp Hg. destruct g as [h c]. cbn in Hg. subst h.
  pose proof (holds_native _ _ HH) as HN. pose proof (holds_foreign _ _ HH) as HF. cbn [fst] in HN, HF.
  unfold free. rewrite (read_foreign w _ _ _ HF Hp). cbn [block_release]. unfold foreign_release.
  destruct (native_dealloc _ _ _ _) as [n' m'] eqn:Ed. destruct (HF p c Hp) as (Hlp & _).
  destruct (native_dealloced _ _ _ _ _ _ HN Hlp Ed) as (HN' & El & Hsame).
  assert (core (delete p (blocks st)) = core (blocks st)) as Ec by (by eapply cores_delete_foreign).
  set (w' := with_native w n' m').
  assert (forall q l, native_live (native w) !! q = Some l -> q <> p - HEADER_BYTES -> native_live (native w') !! q = Some l) as Hlive.
  { intros q l Hq Hne. unfold w'. cbn [native with_native]. rewrite El, lookup_delete_ne; done. }
  eexists. split; [by apply spec_release with {| home := Origin.Foreign; contents := c |}|].
  apply (native_holds w); try done.
  - apply (foreign_keep w w' (blocks st)); [done|]. intros q d [Hne Hq]%lookup_delete_Some.
    destruct (HF q d Hq) as (Hl & _). split; [done|].
    rewrite (Hlive _ _ Hl) by lia. rewrite Hl. split; [done|]. intros x Hx. unfold w'. cbn [heap with_native memory with_memory].
    apply (Hsame (q - HEADER_BYTES) (foreign_layout (zlen d))); [rewrite El, lookup_delete_ne by lia; done|].
    unfold foreign_layout. lia.
  - apply (native_step w w' (blocks st) _ (p - HEADER_BYTES)); try done.
    + by apply core_lookup.
    + intros q l x Hq Hne Hx. apply (Hsame q l); [rewrite El, lookup_delete_ne; done|done].
    + intros q d [Hne Hq]%lookup_delete_Some. left. split; [done|lia].
    + intros q l _ _. rewrite Z.sub_add. by exists c.
Qed.

(** ** Resizing *)

Lemma load_prefix m p n k : (n <= k)%nat -> take n (load m p k) = load m p n.
Proof.
  intros Hn. unfold load. rewrite <- fmap_take, take_seq. f_equal. f_equal. lia.
Qed.

Lemma load_moved m m' p p' n :
  (forall x, 0 <= x < Z.of_nat n -> m' (p' + x) = m (p + x)) -> load m' p' n = load m p n.
Proof. intros Hm. unfold load. apply list_fmap_ext. intros i x [-> Hx]%lookup_seq. apply Hm. lia. Qed.

(** A block of the arena grows. *)
Lemma grow_core w o st p g n i k target :
  holds (w, o) st -> blocks st !! p = Some g -> home g = Origin.Core -> 0 < n <= i32_max ->
  payload_bytes k < n -> len_order n = Some target -> p = payload_at a i -> zlen (contents g) = payload_bytes k ->
  contents g = load (memory (heap w)) p (Z.to_nat (payload_bytes k)) ->
  forall G F, core_ok w (blocks st) G F -> G !! i = Some (k, Live) ->
  let (s, q) := grow a (heap w) {| index := i; order := k |} target in
  exists st', spec a st (Realloc p n) (Pointer q) st' /\ holds (with_heap w s, o) st'.
Proof.
  intros HH Hp Hg Hn Hkn Et -> Elen Econ G F HC Hi. destruct (rounded n target Hn Et) as [Er Ht].
  pose proof (core_arena _ _ _ _ HC) as HA. pose proof (ok_tiled _ _ _ _ HA) as HG.
  destruct (tile_ok HG Hi) as (Hk & _). pose proof (order_below n target k Hn Et (proj1 Hk) Hkn) as Hkt.
  pose proof (payload_mono k target ltac:(lia)) as Hmono. pose proof (payload_pos k ltac:(lia)) as Hpk.
  pose proof (len_ordered n Hn) as Hlo. rewrite Et in Hlo.
  pose proof (grow_spec a ltac:(lia) address_word (heap w) G F i k target HA Hi ltac:(lia)) as Hgrow.
  destruct (grow a (heap w) _ target) as [s q].
  destruct Hgrow as [(-> & -> & Hfull)|(i' & G' & F' & -> & HA' & Hi0 & Hl & Hne & Hkept & Hcont & Href)].
  - exists st. split.
    + apply spec_realloc_null with g; [done|]. right. right. split; [lia|]. right.
      apply (full_no_room w (blocks st) G F n target (Some (payload_at a i))); try done; [lia|].
      intros e He Ha Hu. destruct (Hfull e He Ha Hu) as (x & j & l & Hx & Hj & Hji & Hjx).
      exists x, j, l. split_and!; try done. intros E%payload_inj. by apply Hji.
    + replace (with_heap w (heap w)) with w by (by destruct w). done.
  - destruct (arena_step w (with_heap w s) (blocks st) G G' F F' (Some i) (Some (i', target))) as (HC' & HF' & Hfresh); try done.
    + apply HH.
    + apply HH.
    + intros j l. rewrite Hl. unfold live_but. split.
      * intros [[-> ->]|[? ?]]; [by left|right; split; congruence].
      * intros [[= -> ->]|[? ?]]; [by left|right; split; congruence].
    + intros j l l' [= <- <-] Hj. destruct (decide (i' = i)) as [->|Hn']; [done|]. by destruct (Hne i' l').
    + intros x Hx. apply (kept_outside a Hkept); [|done]. intros u [Hu|Hu]; [by apply (covered_unit a HG Hu)|].
      destruct (tile_ok HG Hi) as (_ & _ & ? & ?). unfold extent in Hu. lia.
    + intros j l x Hj Hn'. apply (kept_block a HG Hj Hkept). intros u [?|Hu]; [by left|right].
      exists i, k, Live. split; [done|]. split; [congruence|done].
    + specialize (Hfresh i' target eq_refl). cbn [moved heap with_heap] in HC', HF', Hfresh.
      set (c := load (memory s) (payload_at a i') (Z.to_nat (payload_bytes target))) in *.
      assert (zlen c = payload_bytes target) as Ec by (unfold c; rewrite load_length; lia).
      set (h := {| home := Origin.Core; contents := c |}) in *.
      assert (holds (with_heap w s, o) (with_blocks st (<[payload_at a i' := h]> (delete (payload_at a i) (blocks st))))) as HH'.
      { apply (holds_step w); try done; [apply HH|..].
        - pose proof (holds_references _ _ HH) as Hr0. cbn [fst heap with_heap] in *.
          rewrite Href, Hr0, (cores_delete _ _ _ Hp Hg), cores_insert by done. done.
        - intros _. by exists G', F'. }
      eexists. split; [|exact HH']. unfold h. rewrite <- Hg. apply spec_realloc; try done; rewrite ?Hg; cbn [granted].
      * lia.
      * intros _. lia.
      * by rewrite Ec.
      * lia.
      * by apply (holds_fresh HH').
      * rewrite (take_ge (contents g)) by lia. unfold c. rewrite load_prefix by lia. rewrite Econ at 2.
        replace (length (contents g)) with (Z.to_nat (payload_bytes k)) by lia. apply load_moved. intros x Hx. apply Hcont. lia.
Qed.

(** A block of the system's is resized. *)
Lemma resize_foreign w o st p c n :
  holds (w, o) st -> blocks st !! p = Some {| home := Origin.Foreign; contents := c |} -> 0 < n <= i32_max ->
  let (w', q) := foreign_resize w (p - HEADER_BYTES) (zlen c) n in
  exists st', spec a st (Realloc p n) (Pointer q) st' /\ holds (w', o) st'.
Proof.
  intros HH Hp Hn. pose proof (holds_native _ _ HH) as HN. pose proof (holds_foreign _ _ HH) as HF. cbn [fst] in HN, HF.
  destruct (HF p c Hp) as (Hl & E1 & E2 & E3 & E4 & _). unfold foreign_resize.
  destruct (native_realloc _ _ _ _ _) as [[n' m'] q] eqn:Ea.
  assert (0 < foreign_layout n) as Hlay by (unfold foreign_layout, HEADER_BYTES; lia).
  destruct (native_realloced _ _ _ _ _ _ _ _ HN Hl Hlay Ea) as (HN' & [(-> & El & Hsame)|(Hq0 & H8 & Hqp & El & Hsame & Hcopy)]).
  { cbn [Z.eqb]. exists st. split; [|by apply native_refused]. eapply spec_realloc_null; [done|]. auto. }
  destruct (Z.eqb_spec q 0) as [?|_]; [done|]. set (w' := with_native w n' _).
  assert (forall x, ~ (q + 8 <= x < q + 12) -> memory (heap w') x = m' x) as Hm'.
  { intros x Hx. unfold w'. cbn [heap with_native memory with_memory]. apply store_other. rewrite length_to_le. lia. }
  assert (native_live (native w') !! q = Some (foreign_layout n)) as Hlq by (unfold w'; cbn [native with_native]; by rewrite El, lookup_insert_eq).
  unfold foreign_layout, HEADER_BYTES in Hcopy.
  destruct (foreign_install w w' o st (delete p (blocks st)) (p - HEADER_BYTES) q n) as [Hfresh HH']; try done.
  - by eapply cores_delete_foreign.
  - intros r d [Hne Hr]%lookup_delete_Some. split; [done|lia].
  - intros ->. rewrite Z.sub_add. apply lookup_delete_eq.
  - intros l _. rewrite Z.sub_add. by exists c.
  - intros r l x Hr Hne Hx. rewrite Hm'.
    + apply (Hsame r l); [by rewrite lookup_delete_ne|done].
    + assert (r <> q) as Hrq by (destruct Hqp as [->|?]; congruence).
      destruct (native_apart n' r l q (foreign_layout n) HN') as [?|?];
        [rewrite El, lookup_insert_ne, lookup_delete_ne; done|by rewrite El, lookup_insert_eq|done|lia|].
      unfold foreign_layout, HEADER_BYTES in *. lia.
  - rewrite <- E1. unfold read_word. f_equal. apply load_moved. intros x Hx. rewrite Hm' by lia.
    apply Hcopy. unfold HEADER_BYTES in *. lia.
  - unfold w'. cbn [heap with_native memory with_memory]. rewrite load_same by (by rewrite length_to_le).
    apply from_to_le. lia.
  - set (d := load (memory (heap w')) (q + HEADER_BYTES) (Z.to_nat n)) in *.
    assert (zlen d = n) as Ed by (unfold d; rewrite load_length; lia).
    eexists. split; [|exact HH']. eapply (spec_realloc a st p {| home := Origin.Foreign; contents := c |}); cbn [home granted contents]; try done; [lia|lia| |].
    + by apply (holds_fresh HH').
    + unfold d at 1. rewrite <- E3 at 2. destruct (Nat.le_ge_cases (length c) (length d)) as [Hcd|Hcd].
      * rewrite load_prefix by lia. rewrite (take_ge (load _ _ _)) by (rewrite load_length; lia).
        apply load_moved. intros x Hx. rewrite Hm' by (unfold HEADER_BYTES; lia).
        replace (q + HEADER_BYTES + x) with (q + (HEADER_BYTES + x)) by lia.
        rewrite Hcopy by (unfold HEADER_BYTES; lia). f_equal. unfold HEADER_BYTES. lia.
      * rewrite (take_ge (load _ _ _)) by (rewrite load_length; lia). rewrite load_prefix by lia.
        replace (length d) with (Z.to_nat n) by lia.
        apply load_moved. intros x Hx. rewrite Hm' by (unfold HEADER_BYTES; lia).
        replace (q + HEADER_BYTES + x) with (q + (HEADER_BYTES + x)) by lia.
        rewrite Hcopy by (unfold HEADER_BYTES; lia). f_equal. unfold HEADER_BYTES. lia.
Qed.

(** ** Contents *)

Lemma load_add m p n k : load m p (n + k) = load m p n ++ load m (p + Z.of_nat n) k.
Proof.
  unfold load. rewrite seq_app, fmap_app. f_equal. rewrite Nat.add_0_l, <- (Nat.add_0_r n) at 1.
  rewrite <- fmap_add_seq, <- list_fmap_compose. apply list_fmap_ext. intros i x _. cbn. f_equal. lia.
Qed.

Lemma load_drop m p n k : (k <= n)%nat -> drop k (load m p n) = load m (p + Z.of_nat k) (n - k).
Proof.
  intros Hk. replace n with (k + (n - k))%nat at 1 by lia. rewrite load_add. apply drop_app_length'. by rewrite load_length.
Qed.

Lemma load_patch m p n off bs :
  0 <= off -> off + zlen bs <= Z.of_nat n -> load (store m (p + off) bs) p n = patch (load m p n) off bs.
Proof.
  intros Ho Hn. unfold patch. rewrite load_prefix, load_drop by lia.
  replace n with (Z.to_nat off + (length bs + (n - (Z.to_nat off + length bs))))%nat at 1 by lia.
  rewrite !load_add. f_equal; [apply load_store_other; lia|]. f_equal.
  - rewrite Z2Nat.id by lia. apply load_store.
  - rewrite load_store_other by lia. f_equal. lia.
Qed.

Lemma length_patch c off bs : 0 <= off -> off + zlen bs <= zlen c -> length (patch c off bs) = length c.
Proof. intros. unfold patch. rewrite !length_app, length_take, length_drop. lia. Qed.

Lemma write_core w o st p g off bs :
  holds (w, o) st -> blocks st !! p = Some g -> home g = Origin.Core -> 0 <= off -> off + zlen bs <= zlen (contents g) ->
  holds (with_heap w (write_bytes (heap w) (p + off) bs), o)
    (with_blocks st (<[p := {| home := home g; contents := patch (contents g) off bs |}]> (blocks st))).
Proof.
  intros HH Hp Hg Ho Hb. destruct (holds_core _ _ HH (core_alive _ _ _ _ Hp Hg)) as (G & F & HC). cbn [fst] in HC.
  destruct (core_tile HC Hp Hg) as (i & k & Hi & -> & Hi0 & Hk & Econ & Elen).
  pose proof (core_arena _ _ _ _ HC) as HA. destruct HA as [HG HR Hc Hs Hh]. set (p := payload_at a i) in *.
  set (s := write_bytes (heap w) (p + off) bs). pose proof (payload_pos k ltac:(lia)) as Hpk.
  assert (forall x, ~ (p + off <= x < p + off + zlen bs) -> memory s x = memory (heap w) x) as Hm.
  { intros x Hx. apply store_other. lia. }
  assert (forall j l x, G !! j = Some (l, Live) -> i <> j -> in_block a j l x -> memory s x = memory (heap w) x) as Hother.
  { intros j l x Hj Hne Hx. apply Hm. intros Hr. destruct (tile_bytes (x := x) HC Hi) as [Hbi _]; [unfold HEADER_BYTES; fold p; lia|].
    by apply (block_disjoint a HG Hi Hj Hne Hbi). }
  assert (arena_ok a s G F) as HA.
  { split; try done.
    - apply (repr_write a (heap w) G F i k Live); try done; unfold p, payload_at, HEADER_BYTES in *;
        rewrite payload_bytes_eq in Elen by lia; unfold HEADER_BYTES in Elen; lia.
    - intros j l Hj. destruct (decide (i = j)) as [<-|Hne].
      + assert (l = k) as -> by congruence. destruct (Hh i k Hi) as [E1 E2]. unfold p, payload_at, HEADER_BYTES in Hm.
        unfold read_word in *. rewrite (load_ext (memory (heap w))) by (intros; apply Hm; lia). by rewrite Hm by lia.
      + destruct (tile_ok HG Hj) as (Hl & _). destruct (header_ext a (heap w) s j l) as [-> ->]; [lia| |by apply Hh].
        intros x. by apply Hother. }
  destruct (arena_step w (with_heap w s) (blocks st) G G F F (Some i) (Some (i, k))) as (HC' & HF' & _); try done.
  - apply HH.
  - apply HH.
  - intros j l. split.
    + intros Hj. destruct (decide (j = i)) as [->|Hne]; [left; congruence|right; split; congruence].
    + intros [[= <- <-]|[? _]]; done.
  - intros j l l' [= <- <-] _. done.
  - intros x Hx. apply Hm. intros Hr. destruct (tile_bytes (x := x) HC Hi) as [_ Ha]; [unfold HEADER_BYTES; fold p; lia|done].
  - intros j l x Hj Hne. apply (Hother j l); [done|congruence].
  - cbn [moved heap with_heap] in HC', HF'. fold p in HC', HF'. rewrite insert_delete_eq in HC', HF'.
    assert (load (memory s) p (Z.to_nat (payload_bytes k)) = patch (contents g) off bs) as E.
    { rewrite Econ. apply load_patch; lia. }
    rewrite E in HC', HF'. rewrite Hg. apply (holds_step w); try done; [apply HH|..].
    + rewrite (cores_update _ _ g) by (done || by rewrite Hg). apply (holds_references _ _ HH).
    + intros _. by exists G, F.
Qed.

Lemma write_foreign w o st p g off bs :
  holds (w, o) st -> blocks st !! p = Some g -> home g = Origin.Foreign -> 0 <= off -> off + zlen bs <= zlen (contents g) ->
  holds (with_heap w (write_bytes (heap w) (p + off) bs), o)
    (with_blocks st (<[p := {| home := home g; contents := patch (contents g) off bs |}]> (blocks st))).
Proof.
  intros HH Hp Hg Ho Hb. destruct g as [h c]. cbn [home contents] in *. subst h.
  pose proof (holds_native _ _ HH) as HN. pose proof (holds_foreign _ _ HH) as HF. cbn [fst] in HN, HF.
  set (s := write_bytes (heap w) (p + off) bs).
  assert (forall x, ~ (p + off <= x < p + off + zlen bs) -> memory s x = memory (heap w) x) as Hm.
  { intros x Hx. apply store_other. lia. }
  set (g' := {| home := Origin.Foreign; contents := patch c off bs |}).
  assert (core (<[p := g']> (blocks st)) = core (blocks st)) as Ec.
  { rewrite <- insert_delete_eq, cores_insert_foreign by (done || apply lookup_delete_eq). by eapply cores_delete_foreign. }
  apply (native_holds w); try done.
  - intros q d. rewrite lookup_insert_Some. destruct (HF p c Hp) as (Hl & E1 & E2 & E3 & E4 & E5).
    intros [[<- [= <-]]|[Hne Hq]].
    + unfold read_word, HEADER_BYTES in *. rewrite length_patch by done.
      rewrite !(load_ext (memory (heap w)) (memory (heap (with_heap w s))) (p - 16)) by (intros; apply Hm; lia).
      rewrite !(load_ext (memory (heap w)) (memory (heap (with_heap w s))) (p - 16 + 8)) by (intros; apply Hm; lia).
      split_and!; try (done || lia). cbn [heap with_heap]. rewrite <- E3 at 2. unfold s. cbn [memory write_bytes with_memory]. apply load_patch; lia.
    + destruct (HF q d Hq) as (Hl' & F1 & F2 & F3 & F4 & F5).
      assert (p - HEADER_BYTES <> q - HEADER_BYTES) as Hne' by lia.
      pose proof (native_apart _ _ _ _ _ HN Hl Hl' Hne') as Hap. unfold foreign_layout, read_word, HEADER_BYTES in *.
      rewrite !(load_ext (memory (heap w)) (memory (heap (with_heap w s)))) by (intros; apply Hm; lia). split_and!; (done || lia).
  - intros G F HC. apply (core_keep w _ (blocks st)); try done.
    + intros x Hx. apply Hm. intros Hr. apply (foreign_outside (x := x) HN HC HF Hp); [unfold HEADER_BYTES; lia|done].
    + by apply core_lookup.
    + destruct (core_backing _ _ _ _ HC) as (q & l & Hq & Hcov & Hne). exists q, l. split; [done|]. split; [done|].
      intros r d. rewrite lookup_insert_Some. intros [[<- _]|[_ Hr]]; [by eapply Hne|by eapply Hne].
Qed.

(** Scope, origin and calls say nothing of the blocks. *)
Lemma holds_flags w w' o o' st st' :
  holds (w, o) st -> heap w' = heap w -> native w' = native w -> blocks st' = blocks st -> retained st' = retained st ->
  scope w' = scoped st' -> origin w' = source st' -> o' = calls st' -> (scoped st' = true -> retained st = true) ->
  holds (w', o') st'.
Proof.
  intros [_ _ _ _ HN HF Hr Hc] Eh En Eb Er Es Eo Ec He. cbn [fst snd] in *. split; cbn [fst snd]; try done.
  - by rewrite Er.
  - by rewrite En.
  - rewrite Eb. intros p c Hp. rewrite En, Eh. by apply HF.
  - by rewrite Eh, Er, Eb.
  - rewrite Er, Eb. intros Hg. destruct (Hc Hg) as (G & F & [HA HB HI]). exists G, F.
    split; [|rewrite En; exact HB|rewrite Eh; exact HI]. rewrite Eh. exact HA.
Qed.

(** ** Every step *)

Lemma step_sound x st op :
  holds x st -> legal st op ->
  exists st', spec a st op (step a x op).2 st' /\ holds (step a x op).1 st'.
Proof.
  destruct x as [w o]. intros HH Hlegal. pose proof (holds_foreign _ _ HH) as HF. cbn [fst] in HF.
  destruct op as [n|p|p n|p|n|p off n|p off bs| | | | |]; cbn [step legal] in *.
  - unfold malloc, origin_allocate. destruct (Z.leb_spec n 0) as [Hn|Hn].
    { unfold len_new. rewrite (proj2 (Z.leb_le n 0)) by done. exists st. split; [apply spec_null; auto|done]. }
    rewrite len_newed by lia. pose proof (holds_origin _ _ HH) as Ho. cbn [fst] in Ho. rewrite Ho. destruct (source st) eqn:Eo.
    + destruct (len_order n) as [k|] eqn:Ek.
      * unfold scope_allocate. destruct (scope w) eqn:Es.
        -- pose proof (malloc_core w o st n k HH ltac:(lia) Ek Eo Es) as Hm. by destruct (allocate a (heap w) k) as [s p].
        -- exists st. split; [|done]. apply spec_null. right. right. left. by rewrite <- (holds_scope _ _ HH).
      * exists st. split; [|done]. apply spec_null. right. right. right. left. apply not_rounded; [lia|done].
    + pose proof (malloc_foreign w o st n HH ltac:(lia) Eo) as Hm. by destruct (foreign_allocate w n) as [w' p].
  - destruct Hlegal as [g Hp]. destruct (home g) eqn:Eg.
    + pose proof (free_core w o st p g HH Hp Eg) as Hm. by destruct (free a w p) as [w' b].
    + pose proof (free_foreign w o st p g HH Hp Eg) as Hm. by destruct (free a w p) as [w' b].
  - destruct Hlegal as [[g Hp] Hmax]. unfold realloc, block_resize. destruct (Z.leb_spec n 0) as [Hn|Hn].
    { unfold len_new. rewrite (proj2 (Z.leb_le n 0)) by done. exists st. split; [eapply spec_realloc_null; [done|auto]|done]. }
    rewrite len_newed by lia. destruct (home g) eqn:Eg.
    + destruct (holds_core _ _ HH (core_alive _ _ _ _ Hp Eg)) as (G & F & HC). cbn [fst] in HC.
      destruct (read_core HC Hp Eg) as (i & k & -> & Hi & Ep & Hk & Elen & Econ). cbn [order].
      destruct (Z.leb_spec n (payload_bytes k)) as [Hle|Hlt].
      { exists st. split; [apply spec_realloc_same with g; [done|done|lia]|done]. }
      destruct (len_order n) as [target|] eqn:Et.
      * pose proof (grow_core w o st p g n i k target HH Hp Eg ltac:(lia) Hlt Et Ep Elen Econ G F HC Hi) as Hm.
        by destruct (grow a (heap w) _ target) as [s q].
      * exists st. split; [|done]. apply spec_realloc_null with g; [done|]. right. right. split; [lia|].
        left. apply not_rounded; [lia|done].
    + destruct g as [h c]. cbn in Eg. subst h. rewrite (read_foreign w _ _ _ HF Hp).
      pose proof (resize_foreign w o st p c n HH Hp ltac:(lia)) as Hm. by destruct (foreign_resize w _ _ n) as [w' q].
  - destruct Hlegal as [g Hp]. exists st. split; [|done]. cbn [snd]. unfold size, block_size. destruct (home g) eqn:Eg.
    + destruct (holds_core _ _ HH (core_alive _ _ _ _ Hp Eg)) as (G & F & HC). cbn [fst] in HC.
      destruct (read_core HC Hp Eg) as (i & k & -> & _ & _ & Hk & Elen & _). cbn [order].
      rewrite payload_integer_eq, <- Elen by done. by apply spec_size.
    + destruct g as [h c]. cbn in Eg. subst h. rewrite (read_foreign w _ _ _ HF Hp).
      destruct (HF p c Hp) as (_ & _ & _ & _ & Hlen & _).
      replace (as_i32 (zlen c)) with (zlen c); [by apply (spec_size a st p {| home := Origin.Foreign; contents := c |})|].
      unfold as_i32, as_signed. rewrite Z.mod_small by lia. destruct (Z.ltb_spec (zlen c) (2 ^ (32 - 1))); lia.
  - exists st. split; [apply spec_roundup|done].
  - destruct Hlegal as (g & Hp & Ho & Hb). exists st. split; [|done]. cbn [snd].
    assert (contents g = load (memory (heap w)) p (length (contents g))) as Econ.
    { destruct (home g) eqn:Eg.
      - destruct (holds_core _ _ HH (core_alive _ _ _ _ Hp Eg)) as (G & F & HC). cbn [fst] in HC.
        destruct (core_tile HC Hp Eg) as (i & k & _ & _ & _ & Hk & Econ & Elen). rewrite Econ at 1. f_equal. lia.
      - destruct g as [h c]. cbn in Eg. subst h. destruct (HF p c Hp) as (_ & _ & _ & E & _). by cbn. }
    replace (load (memory (heap w)) (p + off) n) with (take n (drop (Z.to_nat off) (contents g))); [by apply spec_read|].
    rewrite Econ, load_drop, load_prefix, Z2Nat.id by lia. done.
  - destruct Hlegal as (g & Hp & Ho & Hb). eexists. split; [by apply spec_write with (g := g)|]. cbn [fst].
    destruct (home g) eqn:Eg; rewrite <- Eg; [by apply write_core|by apply write_foreign].
  - pose proof (holds_scope _ _ HH) as Hs. cbn [fst] in Hs. unfold scope_enter. rewrite Hs.
    eexists. split; [|destruct (scoped st) eqn:E].
    + destruct (scoped st) eqn:E; cbn [snd]; [change false with (negb true)|change true with (negb false)]; rewrite <- E; apply spec_enter.
    + apply (holds_flags w w o o st); try done; [by apply (holds_origin _ _ HH)|by apply (holds_calls _ _ HH)].
    + apply (holds_flags w _ o o st); try done; [by apply (holds_origin _ _ HH)|by apply (holds_calls _ _ HH)].
  - eexists. split; [apply spec_finish|]. apply (holds_flags w _ o o st); try done; [apply (holds_origin _ _ HH)|apply (holds_calls _ _ HH)].
  - pose proof (holds_origin _ _ HH) as Ho. pose proof (holds_calls _ _ HH) as Hc. cbn [fst snd] in Ho, Hc.
    eexists. split; [apply spec_outside|]. apply (holds_flags w _ o _ st); try done; [apply (holds_scope _ _ HH)|cbn; congruence|apply (holds_entered _ _ HH)].
  - pose proof (holds_calls _ _ HH) as Hc. cbn [snd] in Hc. subst o. destruct (calls st) as [|c l] eqn:E; [done|].
    eexists. split; [by apply spec_back|]. apply (holds_flags w _ (c :: l) _ st); try done; [apply (holds_scope _ _ HH)|apply (holds_entered _ _ HH)].
  - destruct Hlegal as [Hret Hsc]. destruct HH as [Hs Ho Hc He HN _ Hr Hco]. cbn [fst snd] in *. rewrite Hret in *.
    unfold retire, state_release. cbv beta iota. cbn [fst snd]. fold (less (heap w)). unfold Z.b2z in Hr.
    assert ((references (heap w) - 1 =? 0) = gone false (blocks st)) as ->.
    { unfold gone. cbn [negb andb]. apply eq_true_iff_eq. rewrite Z.eqb_eq, bool_decide_eq_true, no_cores. lia. }
    eexists. split; [apply spec_retire|]. split; cbn [fst scope origin native heap with_heap scoped source calls retained blocks]; try done.
    + congruence.
    + cbn. lia.
    + intros Hg. destruct Hco as (G & F & HC); [done|]. exists G, F. split; [by apply less_ok, HC|apply HC|apply HC].
Qed.
End holds.
