(* ===== verification/SqClients.v ===== *)
(** * Clients of the SQLite heap

    SQLite and the runtime as a client that chooses each call from the answers before
    it. A client that keeps to what the store allows, whatever the store answers,
    sees on the worker a run of the store; and the backing of the arena is dropped
    once at most. *)
From stdpp Require Import gmap functions.
From S2P Require Import Prelude SqTiling SqHeap SqBlocks SqArena SqStore.

(** ** Runs *)

(** What was asked and answered, the last first. *)
Definition History : Type := list (Op * Answer).

Definition Client : Type := History -> option Op.

(** The store when the runtime has the arena and nothing is allocated. *)
Definition start : Store :=
  {| blocks := ∅; scoped := false; source := Origin.Core; calls := []; retained := true |}.

Section runs.
Context `{Positions} (a : Arena).

Inductive spec_run (client : Client) : History -> Store -> Prop :=
| run_start : spec_run client [] start
| run_step h st op ans st' :
    spec_run client h st -> client h = Some op -> spec a st op ans st' -> spec_run client ((op, ans) :: h) st'.

(** Whatever the store answers, the client asks what is allowed. *)
Definition careful (client : Client) : Prop :=
  forall h st op, spec_run client h st -> client h = Some op -> legal st op.

Context {N : Type} `{!Native N}.

(** The client on the worker, for a number of calls at most. *)
Fixpoint drive (n : nat) (client : Client) (x : Machine) (h : History) : Machine * History :=
  match n with
  | O => (x, h)
  | S n =>
      match client h with
      | None => (x, h)
      | Some op => let (x, ans) := step a x op in drive n client x ((op, ans) :: h)
      end
  end.

(** The worker of a new runtime on a native heap and its memory. *)
Definition new_worker (n : N) (m : Z -> Z) : Worker N :=
  {| origin := Origin.Core; scope := false; heap := initialize a m; native := n |}.

(** The backing that was allocated for the arena. *)
Definition backed `{!NativeLaws N} (n : N) : Prop :=
  native_ok n /\ exists q l, native_live n !! q = Some l /\ forall x, in_arena a x -> q <= x < q + l.
End runs.

Section refines.
Context `{PositionsLaws} (a : Arena) {N : Type} `{NativeLaws N}.
Hypothesis small : 0 < units a < 2 ^ 26.
Hypothesis address_word : 0 < address a < 2 ^ 64.
Hypothesis based : 0 < base a /\ (8 | base a).

Lemma new_holds (n : N) m : backed a n -> holds a (new_worker a n m, []) start.
Proof.
  intros [HN (q & l & Hq & Hcov)]. destruct (initialize_spec a ltac:(lia) address_word m ltac:(lia)) as (G & F & HA & Hlv & Hr & _).
  assert (forall p g, blocks start !! p = Some g -> False) as Hno.
  { intros p g Hp. change (blocks start) with (∅ : gmap Z Given) in Hp. by rewrite lookup_empty in Hp. }
  split; cbn [fst snd]; [done|done|done|done|done| | |].
  - by intros p c ?%Hno.
  - exact Hr.
  - intros _. exists G, F. split; [done| |].
    + exists q, l. split; [done|]. split; [done|]. by intros p c ?%Hno.
    + intros p c. split; [by intros ?%Hno|]. by intros (i & k & Hi%Hlv & _).
Qed.

Lemma drive_refines client n x h st :
  careful a client -> spec_run a client h st -> holds a x st ->
  exists st', spec_run a client (drive a n client x h).2 st' /\ holds a (drive a n client x h).1 st'.
Proof.
  intros Hc. revert x h st. induction n as [|n IH]; intros x h st Hrun HH; cbn [drive]; [by exists st|].
  destruct (client h) as [op|] eqn:E; [|by exists st].
  destruct (step_sound a small address_word based x st op HH (Hc h st op Hrun E)) as (st' & Hs & HH').
  destruct (step a x op) as [x' ans]. cbn [fst snd] in *. eapply IH; [|done]. by eapply run_step.
Qed.
End refines.

(** ** The backing *)

(** Once no share is left, none comes back. *)
Definition spent (st : Store) : Prop := gone (retained st) (blocks st) = true /\ scoped st = false.

Definition is_drop (ans : Answer) : bool := match ans with Dropped b => b | _ => false end.

Fixpoint drops (h : History) : nat :=
  match h with [] => 0%nat | (_, ans) :: h => ((if is_drop ans then 1 else 0) + drops h)%nat end.

Section backing.
Context `{Positions} (a : Arena).

(** The store goes on as it was or is spent by its last share. *)
Lemma spec_spent st op ans st' :
  spec a st op ans st' -> legal st op -> (scoped st = true -> retained st = true) ->
  (scoped st' = true -> retained st' = true) /\
  (spent st -> spent st' /\ ans <> Dropped true) /\ (ans = Dropped true -> spent st').
Proof.
  intros Hs Hl He.
  assert (forall b, core b = core (blocks st) -> spent st -> spent (with_blocks st b)) as Hsame.
  { intros b E [Hg Hsc]. split; [|done]. unfold gone in *. cbn. by rewrite E. }
  assert (forall p g, spent st -> blocks st !! p = Some g -> home g = Origin.Foreign) as Hfor.
  { intros p g [Hg _] Hp. destruct (home g) eqn:E; [exfalso|done]. unfold gone in Hg.
    apply andb_true_iff in Hg as [_ Hg%bool_decide_eq_true]. by eapply (cores_elem _ _ _ Hp). }
  destruct Hs as [n _|n p c Hn _ _ (Hp0 & H8 & Hnone & _) Hsc|p g b Hp ->|p g n Hp _|p g n Hp _ _|p g n q c Hp Hn _ _ _ (_ & _ & Hnone & _) _
    |p g Hp|n|p g off n Hp|p g off bs Hp| | | |o l Ho| ]; cbn [legal scoped retained with_blocks] in *.
  - done.
  - split; [done|]. split; [|done]. intros HS. split; [|done]. apply Hsame; [|done].
    apply cores_insert_foreign; [done|]. cbn. destruct (source st) eqn:E; [|done]. destruct HS as [Hg Hf]. rewrite Hsc in Hf by done. done.
  - split; [done|]. split.
    + intros HS. pose proof (Hfor p g HS Hp) as Eg. split; [|by rewrite Eg].
      apply Hsame; [by eapply cores_delete_foreign|done].
    + intros [= E]. apply andb_true_iff in E as [_ E]. split; [done|]. cbn. destruct (scoped st) eqn:Esc; [|done].
      unfold gone in E. by rewrite He in E by done.
  - done.
  - done.
  - split; [done|]. split; [|done]. intros HS. pose proof (Hfor p g HS Hp) as Eg. split; [|done]. apply Hsame; [|done].
    rewrite cores_insert_foreign by done. by eapply cores_delete_foreign.
  - done.
  - done.
  - done.
  - split; [done|]. split; [|done]. intros HS. pose proof (Hfor p g HS Hp) as Eg. split; [|done]. apply Hsame; [|done].
    rewrite <- insert_delete_eq. rewrite cores_insert_foreign by (done || apply lookup_delete_eq). by eapply cores_delete_foreign.
  - split; [done|]. split; [|done]. intros [Hg _]. unfold gone in Hg. by rewrite Hl in Hg.
  - split; [done|]. split; [|done]. intros [Hg _]. by split.
  - split; [done|]. split; [|done]. intros HS. by split.
  - split; [done|]. split; [|done]. intros HS. by split.
  - destruct Hl as [Hr Hsc]. split; [congruence|]. split.
    + intros [Hg _]. unfold gone in Hg. by rewrite Hr in Hg.
    + intros [= E]. by split.
Qed.

(** The last share goes with the answer that says so. *)
Lemma spec_drop st op ans st' :
  spec a st op ans st' -> legal st op -> (scoped st = true -> retained st = true) ->
  gone (retained st') (blocks st') = true -> spent st \/ ans = Dropped true.
Proof.
  intros Hs Hl He Hg'.
  assert (gone (retained st) (blocks st) = true -> spent st) as Hgone.
  { intros Hg. split; [done|]. destruct (scoped st); [|done]. unfold gone in Hg. by rewrite He in Hg. }
  assert (forall p g b, blocks st' = <[p := g]> b -> home g = Origin.Core -> False) as Hcore.
  { intros p g b E Hg. rewrite (core_alive (retained st') (blocks st') p g) in Hg'; [done| |done]. rewrite E. apply lookup_insert_eq. }
  destruct Hs as [n _|n p c Hn _ _ (Hp0 & H8 & Hnone & _) Hsc|p g b Hp ->|p g n Hp _|p g n Hp _ _|p g n q c Hp Hn _ _ _ (_ & _ & Hnone & _) _
    |p g Hp|n|p g off n Hp|p g off bs Hp| | | |o l Ho| ]; cbn [legal scoped retained with_blocks blocks] in *;
    try (left; by apply Hgone).
  - left. apply Hgone. destruct (source st) eqn:E; [by destruct (Hcore _ _ _ eq_refl eq_refl)|].
    unfold gone in *. by rewrite cores_insert_foreign in Hg'.
  - destruct (home g) eqn:E.
    + right. by rewrite Hg', bool_decide_eq_true_2.
    + left. apply Hgone. unfold gone in *. by rewrite (cores_delete_foreign _ _ g) in Hg'.
  - left. apply Hgone. destruct (home g) eqn:E; [by destruct (Hcore _ _ _ eq_refl eq_refl)|].
    unfold gone in *. rewrite cores_insert_foreign in Hg' by done. by rewrite (cores_delete_foreign _ _ g) in Hg'.
  - left. apply Hgone. destruct (home g) eqn:E; [by destruct (Hcore _ _ _ eq_refl eq_refl)|].
    unfold gone in *. rewrite <- insert_delete_eq, cores_insert_foreign in Hg' by (done || apply lookup_delete_eq).
    by rewrite (cores_delete_foreign _ _ g) in Hg'.
  - right. by f_equal.
Qed.

Lemma run_spent client h st :
  careful a client -> spec_run a client h st ->
  (scoped st = true -> retained st = true) /\ ((drops h <= 1)%nat /\ (drops h = 1%nat <-> spent st)).
Proof.
  intros Hc. induction 1 as [|h st op ans st' Hrun (He & Hle & Hsp) Hop Hs].
  { cbn. split; [done|]. split; [lia|]. split; [lia|]. by intros [? _]. }
  destruct (spec_spent _ _ _ _ Hs (Hc _ _ _ Hrun Hop) He) as (He' & Hkeep & Hdrop). split; [done|].
  pose proof (spec_drop _ _ _ _ Hs (Hc _ _ _ Hrun Hop) He) as Hlast.
  cbn [drops]. destruct (is_drop ans) eqn:Hd.
  - assert (ans = Dropped true) as -> by (destruct ans as [| | |[]| |]; done).
    destruct (decide (drops h = 1%nat)) as [E|E].
    + by destruct (Hkeep (proj1 Hsp E)) as [_ ?].
    + split; [lia|]. split; [|lia]. intros _. by apply Hdrop.
  - split; [done|]. rewrite Nat.add_0_l, Hsp. split; [intros HS; by apply Hkeep|].
    intros [Hg _]. destruct (Hlast Hg) as [?| ->]; done.
Qed.
End backing.

(** ** A system and a client *)

(** A system that hands out addresses in order, up to a size. *)
Record Bump := { bump_next : Z; bump_live : gmap Z Z }.

Definition bump_alloc (b : Bump) (m : Z -> Z) (size : Z) : Bump * (Z -> Z) * Z :=
  if Z.shiftl 1 20 <? size then (b, m, 0)
  else ({| bump_next := bump_next b + (size + 7) / 8 * 8; bump_live := <[bump_next b := size]> (bump_live b) |}, m, bump_next b).

Definition bump_dealloc (b : Bump) (m : Z -> Z) (p size : Z) : Bump * (Z -> Z) :=
  ({| bump_next := bump_next b; bump_live := delete p (bump_live b) |}, m).

Definition bump_realloc (b : Bump) (m : Z -> Z) (p old new : Z) : Bump * (Z -> Z) * Z :=
  if Z.shiftl 1 20 <? new then (b, m, 0)
  else ({| bump_next := bump_next b + (new + 7) / 8 * 8; bump_live := <[bump_next b := new]> (delete p (bump_live b)) |},
        store m (bump_next b) (load m p (Z.to_nat (Z.min old new))), bump_next b).

#[export] Instance bump_native : Native Bump :=
  {| native_alloc := bump_alloc; native_dealloc := bump_dealloc; native_realloc := bump_realloc |}.

Record bump_ok (b : Bump) : Prop := {
  bump_pos : 0 < bump_next b /\ (8 | bump_next b);
  bump_in : forall p l, bump_live b !! p = Some l -> 0 < p /\ 0 < l /\ p + l <= bump_next b;
  bump_apart : forall p l q k, bump_live b !! p = Some l -> bump_live b !! q = Some k -> p <> q -> p + l <= q \/ q + k <= p }.

Lemma bump_delete b p : bump_ok b -> bump_ok {| bump_next := bump_next b; bump_live := delete p (bump_live b) |}.
Proof.
  intros [Hp Hi Ha]. split; cbn; [done|..].
  - by intros q l [_ Hq]%lookup_delete_Some; apply Hi.
  - intros q l r k [_ Hq]%lookup_delete_Some [_ Hr]%lookup_delete_Some. by apply Ha.
Qed.

Lemma bump_insert at_ L size :
  bump_ok {| bump_next := at_; bump_live := L |} -> 0 < size ->
  bump_ok {| bump_next := at_ + (size + 7) / 8 * 8; bump_live := <[at_ := size]> L |}.
Proof.
  intros [[Hp [z Hz]] Hi Ha] Hs. cbn [bump_next bump_live] in *. assert (size <= (size + 7) / 8 * 8) as Hr.
  { pose proof (Z.div_mod (size + 7) 8). pose proof (Z.mod_pos_bound (size + 7) 8). lia. }
  split; cbn [bump_next bump_live].
  - split; [lia|]. exists (z + (size + 7) / 8). lia.
  - intros p l. rewrite lookup_insert_Some. intros [[<- <-]|[_ Hpl]]; [lia|]. specialize (Hi p l Hpl). lia.
  - intros p l q k. rewrite !lookup_insert_Some. intros [[<- <-]|[_ Hpl]] [[<- <-]|[_ Hqk]] Hne; [done| | |by apply Ha].
    + specialize (Hi q k Hqk). lia.
    + specialize (Hi p l Hpl). lia.
Qed.

Lemma bump_fresh b : bump_ok b -> bump_live b !! bump_next b = None.
Proof.
  intros Hb. destruct (bump_live b !! bump_next b) as [l|] eqn:E; [|done]. destruct (bump_in b Hb _ _ E). lia.
Qed.

#[export] Instance bump_laws : NativeLaws Bump.
Proof.
  refine {| native_ok := bump_ok; native_live := bump_live |}.
  - intros n p l Hn Hp. destruct (bump_in n Hn p l Hp). lia.
  - intros n p l q k Hn. apply (bump_apart n Hn).
  - intros n m size n' m' p Hn Hs. cbn [native_alloc bump_native]. unfold bump_alloc. destruct (_ <? size); intros [= <- <- <-].
    + split; [done|]. split; [done|]. by left.
    + split; [by apply bump_insert; [destruct n|]|]. split; [done|]. right. destruct (bump_pos n Hn). split_and!; [lia|done|by apply bump_fresh|done].
  - intros n m p size n' m' Hn Hp. cbn. unfold bump_dealloc. intros [= <- <-]. split; [by apply bump_delete|]. done.
  - intros n m p old new n' m' q Hn Hp Hs. cbn [native_realloc bump_native]. unfold bump_realloc.
    destruct (_ <? new); intros [= <- <- <-]; (split; [|]).
    + done.
    + by left.
    + apply bump_insert; [by apply bump_delete|done].
    + right. destruct (bump_pos n Hn) as [H0 H8]. destruct (bump_in n Hn p old Hp) as (Hp0 & Ho & Hle).
      split_and!; [lia|done|right; by apply bump_fresh|done| |].
      * intros r l x Hr Hx. apply store_other. apply lookup_delete_Some in Hr as [_ Hr].
        destruct (bump_in n Hn r l Hr) as (_ & _ & ?). lia.
      * intros x Hx. unfold store. rewrite load_length, (proj2 (Z.leb_le _ _)), (proj2 (Z.ltb_lt _ _)) by lia. cbn [andb].
        unfold load. apply nth_lookup_Some. rewrite list_lookup_fmap, lookup_seq_lt by lia. cbn. f_equal. f_equal. lia.
Defined.

(** Bounded positions at any domain. *)
#[export] Instance bounded_positions : Positions :=
  {| position_new n p := if p <? n then Some p else None; position_mask n p := p mod n |}.

#[export] Instance bounded_laws : PositionsLaws.
Proof. split; [done|]. intros n p Hp. by apply Z.mod_small. Qed.

(** Thirteen units at 64, whose backing is the first block of the system. *)
Definition tiny : Arena := {| base := 64; units := 13; address := 40 |}.

Definition tiny_system : Bump := {| bump_next := 512; bump_live := {[ 8 := 500 ]} |}.

Lemma tiny_backed : backed tiny tiny_system.
Proof.
  split.
  - split; cbn.
    + split; [lia|by exists 64].
    + intros p l [<- <-]%lookup_singleton_Some. lia.
    + intros p l q k [<- <-]%lookup_singleton_Some [<- <-]%lookup_singleton_Some. done.
  - exists 8, 500. split; [apply lookup_singleton_eq|]. unfold in_arena, capacity, UNIT_BYTES. cbn. lia.
Qed.

(** It enters, takes a block, writes to it, grows it past its size, reads it back and
    releases it, then gives the arena up; a refusal ends it. *)
Definition demo : Client := fun h =>
  match h with
  | [] => Some Enter
  | [(Enter, _)] => Some (Malloc 40)
  | [(Malloc _, Pointer p); _] => if p =? 0 then None else Some (Write p 0 [7; 8])
  | [(Write p _ _, _); _; _] => Some (Realloc p 100)
  | [(Realloc _ _, Pointer q); _; _; _] => if q =? 0 then None else Some (Read q 0 2)
  | [(Read q _ _, _); _; _; _; _] => Some Finish
  | [(Finish, _); _; _; _; _; _] => Some Retire
  | [(Retire, _); _; (Read q _ _, _); _; _; _; _] => Some (Release q)
  | _ => None
  end.

(** The flags along its runs. *)
Lemma demo_flags h st :
  spec_run tiny demo h st ->
  match h with
  | [] => st = start
  | (Finish, _) :: _ => retained st = true /\ scoped st = false
  | (Retire, _) :: _ | (Release _, _) :: _ => True
  | _ :: _ => retained st = true /\ scoped st = true
  end.
Proof.
  induction 1 as [|h st op ans st' Hrun IH Hop Hs]; [done|]. unfold demo in Hop.
  repeat case_match; simplify_eq; try done; inversion Hs; subst; simplify_eq/=; intuition.
Qed.

(** What a call answers is there for the next. *)
Lemma spec_given `{Positions} a st op ans st' :
  spec a st op ans st' ->
  match op, ans with
  | Malloc n, Pointer p | Realloc _ n, Pointer p => p <> 0 -> exists g, blocks st' !! p = Some g /\ n <= zlen (contents g)
  | Write p _ _, _ | Read p _ _, _ => is_Some (blocks st' !! p)
  | Finish, _ | Retire, _ => blocks st' = blocks st
  | _, _ => True
  end.
Proof.
  intros Hs. destruct Hs as [| | |? ? ? Hp|? ? ? Hp ? ?| | | |? ? ? ? Hp|? ? ? ? Hp| | | | | ]; cbn [blocks with_blocks]; try done.
  - intros _. rewrite lookup_insert_eq. by eexists.
  - intros _. exists g. split; [done|lia].
  - intros _. rewrite lookup_insert_eq. by eexists.
  - rewrite lookup_insert_eq. by eexists.
Qed.

Lemma demo_given op ans h st :
  spec_run tiny demo ((op, ans) :: h) st ->
  exists st0, spec_run tiny demo h st0 /\ demo h = Some op /\ spec tiny st0 op ans st.
Proof. intros Hrun. inversion Hrun; subst. by exists st0. Qed.

Lemma demo_careful : careful tiny demo.
Proof.
  intros h st op Hrun Hop. pose proof (demo_flags h st Hrun) as Hf.
  destruct h as [|[op1 a1] h]; [subst st; by injection Hop as <-|].
  destruct (demo_given _ _ _ _ Hrun) as (st0 & Hrun0 & Hop0 & Hs0).
  pose proof (spec_given _ _ _ _ _ Hs0) as Hg. unfold demo in Hop.
  repeat case_match; simplify_eq; cbn [legal]; try done; try tauto.
  - destruct Hg as (g & Hg & Hn); [lia|]. exists g. split; [done|].
    unfold demo in Hop0. repeat case_match; simplify_eq. cbn. lia.
  - destruct Hg as (g & Hg & Hn); [lia|]. exists g. split; [done|].
    unfold demo in Hop0. repeat case_match; simplify_eq. cbn. lia.
  - unfold demo in Hop0. repeat case_match; simplify_eq.
    destruct (demo_given _ _ _ _ Hrun0) as (st1 & Hrun1 & _ & Hs1). destruct (demo_given _ _ _ _ Hrun1) as (st2 & _ & _ & Hs2).
    pose proof (spec_given _ _ _ _ _ Hs1) as Hg1. pose proof (spec_given _ _ _ _ _ Hs2) as Hg2. cbn beta iota in Hg1, Hg2.
    rewrite Hg, Hg1. by destruct Hg2.
Qed.

Lemma tiny_fits : 0 < units tiny < 2 ^ 26 /\ 0 < address tiny < 2 ^ 64 /\ 0 < base tiny /\ (8 | base tiny).
Proof. cbn. split_and!; try lia. by exists 8. Qed.

(** ** What clients see *)

(** C2. The allocator hooks refine a store of blocks: a client that keeps to what the
    store allows sees on the worker a run of the store. Blocks in use are aligned and
    apart, come from the arena or the system whatever scope is current, keep what was
    written to them until they are released, carry it along when they grow, and are
    refused from the arena only without a scope, beyond its widest size, or while
    every aligned extent of the size holds part of another block. *)
Theorem hooks_refine_store `{PositionsLaws} {N : Type} `{NativeLaws N} (a : Arena) (client : Client) (n : N) m calls :
  0 < units a < 2 ^ 26 -> 0 < address a < 2 ^ 64 -> 0 < base a /\ (8 | base a) -> backed a n -> careful a client ->
  exists st, spec_run a client (drive a calls client (new_worker a n m, []) []).2 st.
Proof.
  intros Hu Ha Hb Hn Hc.
  destruct (drive_refines a Hu Ha Hb client calls (new_worker a n m, []) [] start Hc (run_start a client)) as (st & Hr & _);
    [by apply new_holds|by exists st].
Qed.

Lemma hooks_refine_store_witness :
  let seen := (drive tiny 9 demo (new_worker tiny tiny_system (fun _ => 0), []) []).2 in
  seen = [(Release 336, Dropped true); (Retire, Dropped false); (Finish, Done); (Read 336 0 2, Bytes [7; 8]);
    (Realloc 336 100, Pointer 336); (Write 336 0 [7; 8], Done); (Malloc 40, Pointer 336); (Enter, Entered true)] /\
  exists st, spec_run tiny demo seen st.
Proof.
  split; [vm_compute; reflexivity|]. destruct tiny_fits as (Hu & Ha & Hb & H8).
  apply (hooks_refine_store tiny demo tiny_system (fun _ => 0) 9 Hu Ha (conj Hb H8) tiny_backed demo_careful).
Defined.

(** C38. In a run of a careful client the backing of the arena is given back at most
    once, and exactly when the runtime's share and every block of the arena are gone. *)
Theorem backing_dropped_once `{PositionsLaws} {N : Type} `{NativeLaws N} (a : Arena) (client : Client) (n : N) m calls :
  0 < units a < 2 ^ 26 -> 0 < address a < 2 ^ 64 -> 0 < base a /\ (8 | base a) -> backed a n -> careful a client ->
  let '(x, h) := drive a calls client (new_worker a n m, []) [] in
  (drops h <= 1)%nat /\ (drops h = 1%nat <-> references (heap x.1) = 0).
Proof.
  intros Hu Ha Hb Hn Hc.
  destruct (drive_refines a Hu Ha Hb client calls (new_worker a n m, []) [] start Hc (run_start a client)) as (st & Hr & HH);
    [by apply new_holds|].
  destruct (drive a calls client _ []) as [x h]. cbn [fst snd] in *. destruct (run_spent a client h st Hc Hr) as (He & Hle & Hsp).
  split; [done|]. rewrite Hsp, (holds_references _ _ _ HH). unfold spent, gone. rewrite andb_true_iff, negb_true_iff, bool_decide_eq_true, no_cores.
  unfold Z.b2z. split.
  - intros [[-> ->] _]. done.
  - intros E. destruct (retained st); [lia|]. split; [split; [done|lia]|]. destruct (scoped st); [by specialize (He eq_refl)|done].
Qed.

Lemma backing_dropped_once_witness :
  let '(x, h) := drive tiny 9 demo (new_worker tiny tiny_system (fun _ => 0), []) [] in
  length h = 8%nat /\ (drops h <= 1)%nat /\ (drops h = 1%nat <-> references (heap x.1) = 0).
Proof.
  destruct tiny_fits as (Hu & Ha & Hb & H8).
  pose proof (backing_dropped_once tiny demo tiny_system (fun _ => 0) 9 Hu Ha (conj Hb H8) tiny_backed demo_careful) as Hd.
  assert (length (drive tiny 9 demo (new_worker tiny tiny_system (fun _ => 0), []) []).2 = 8%nat) as Hl by (vm_compute; reflexivity).
  destruct (drive tiny 9 demo _ _) as [x h]. split; [exact Hl|exact Hd].
Defined.

(** What a block of a power of two units holds after its header. *)
Definition class_bytes (k : Z) : Z := 2 ^ (k + 5) - 16.

(** Rounding up a request answers the payload of the narrowest block that holds
    it, and zero exactly for what is not positive or wider than the widest block. *)
Theorem roundup_exact `{PositionsLaws} (n : Z) :
  i64_min <= n <= i32_max ->
  (roundup n = 0 <-> n <= 0 \/ 2 ^ 30 - 16 < n) /\
  (0 < n <= 2 ^ 30 - 16 -> exists k, 0 <= k <= 25 /\ roundup n = class_bytes k /\ n <= roundup n /\
    forall j, 0 <= j -> n <= class_bytes j -> k <= j).
Proof.
  intros Hn. assert (forall k, 0 <= k -> payload_bytes k = class_bytes k) as Ep.
  { intros k Hk. unfold class_bytes. rewrite payload_bytes_eq, Z.pow_add_r by lia. unfold UNIT_BYTES, HEADER_BYTES. lia. }
  destruct (Z_le_gt_dec n 0) as [Hz|Hp].
  { unfold roundup, len_new. rewrite (proj2 (Z.leb_le n 0)) by done. split; [split; [by left|done]|lia]. }
  assert (0 < n <= i32_max) as Hb by lia. pose proof (len_ordered n Hb) as Hlo.
  destruct (len_order n) as [k|] eqn:E.
  - destruct (rounded n k Hb E) as [-> Hk]. destruct Hlo as (_ & Hle & Hmin). unfold MAX_ORDER in Hk.
    pose proof (payload_pos k ltac:(lia)). pose proof (payload_mono k 25 ltac:(lia)) as Hm.
    assert (payload_bytes 25 = 2 ^ 30 - 16) as E25 by reflexivity. split; [lia|]. intros _. exists k.
    split; [lia|]. split; [apply Ep; lia|]. split; [done|]. intros j Hj Hnj. rewrite <- Ep in Hnj by done.
    destruct Hmin as [->|Hmin]; [done|]. destruct (Z_le_gt_dec k j); [done|].
    pose proof (payload_mono j (k - 1) ltac:(lia)). lia.
  - rewrite (not_rounded n Hb E). assert (payload_bytes MAX_ORDER = 2 ^ 30 - 16) as E25 by reflexivity.
    split; [lia|]. lia.
Qed.

Lemma roundup_exact_witness :
  roundup 100 = 112 /\ roundup (2 ^ 30 - 15) = 0 /\
  (i64_min <= 100 <= i32_max) /\ (roundup 100 = 0 <-> 100 <= 0 \/ 2 ^ 30 - 16 < 100).
Proof.
  split; [vm_compute; reflexivity|]. split; [vm_compute; reflexivity|]. split; [lia|]. apply (roundup_exact 100). lia.
Defined.
